(* ===== verification/_CoqProject ===== *)
-Q . S2P
Prelude.v
Lit.v
Sort.v
UnitProp.v
Vec.v
Heap.v
Alloc.v
Double.v
DoubleSpec.v
Queue.v
Clause.v
Solver.v
Propagate.v
PropCheck.v
Setup.v
SetupSpec.v
Reasons.v
Analyze.v
RandomSpec.v
AnalyzeSpec.v
FinalSpec.v
Reduce.v
RelocSpec.v
CollectSpec.v
GarbageSpec.v
SearchInv.v
LearnSpec.v
RemoveSpec.v
TrimSpec.v
ReduceSpec.v
BranchSpec.v
SimplifySpec.v
SolverInv.v
CDCL.v
Simp.v
ElimSpec.v
ConflictSpec.v
CDCLSpec.v
RestartSpec.v
SolverSpec.v
BuildSpec.v
SolverProps.v
Load.v
LoadSolve.v
Problem.v
ProblemSpec.v
Implies.v
Domain.v
Search.v
SearchSpec.v
Pool.v
PoolSpec.v
Engine.v
EngineSpec.v
LRU.v
Fitness.v
Instance.v
InstanceSpec.v
Evol.v
EvolSpec.v
Preprocess.v
EventHandler.v
RBSearch.v
RBSearchSpec.v
Solve.v
SolveSpec.v
Portfolio.v
Sharing.v
Service.v
ServiceSpec.v
Witnesses.v
WitnessesSolve.v
WitnessesSolver.v
