(* ===== verification/Prelude.v ===== *)
(** * itmo_parsat: a verification library

    ParSAT solves propositional satisfiability by rho-backdoors: an evolutionary
    algorithm looks for a small set of variables most of whose assignments unit
    propagation refutes; the assignments that remain become independent tasks
    for sequential solvers.  The library models the code under src/ that does
    this, in Rocq with stdpp, and proves what each part promises to the next.

    ** The parts and where they are modelled

    The solver, [src/core/sat/native/mini]:
    - [Lit]: literals as 32-bit codes and the three-valued [lbool]
      ([utils/Lit.h], [mtl/lbool.h]);
    - [Vec], [Heap], [Alloc], [Sort]: the containers and the sort of [mtl/];
    - [Clause]: clauses, the allocator and the occurrence lists
      ([minisat/core/SolverTypes.h]); a clause reference is a key of a finite
      map, the sizes and capacities of the region are in [Alloc];
    - [Solver]: the state of [Minisat::Solver] and its operations for
      propagation, backtracking and the propagation checks ([core/Solver.h],
      [core/Solver.cc]); [Setup]: variables and clauses; [Analyze]: decisions,
      conflict analysis and failed assumptions; [Reduce]: removal of clauses,
      garbage collection and [simplify]; [CDCL]: learning, the search with its
      restarts and budgets, [solve];
    - [Load]: the DIMACS reader ([core/Dimacs.h], [utils/ParseUtils.h]), over any
      solver with the two operations it calls, the record [Sink];
    - [Queue]: the circular buffer ([mtl/Queue.h]); [Simp]: [SimpSolver], the
      solver with variable elimination and model extension ([simp/SimpSolver.h],
      [simp/SimpSolver.cc]), on top of [Solver];
    - [Problem]: reading a problem into a [SimpSolver], the renamed clauses it
      gives out and the way back ([core/sat/Problem.cpp]); [Implies]: the
      consequences of assumptions and the file of the core solver
      ([core/Solver.cc]), with what [implies] answers.
    The search, [src/core]:
    - [Domain], [Search]: variables, masks and the searches, which are sequences
      of assignments that can be split ([domain/], [search/], [util/mini.cpp]);
    - [Pool]: the worker pool ([util/WorkerPool.h]) as a step relation;
    - [Engine]: [SimpProp] and [ParProp] ([sat/prop/]) over the record [Checker]
      of three operations of a solver;
    - [LRU], [Fitness], [Instance], [Evol], [Preprocess]: cache, fitness,
      instances, algorithms and the choice of the variables ([evol/],
      [util/LRUCache.h]) over the record [EvolEnv]; [Double] holds the
      operations on doubles, as IEEE 754 floats of the Standard Library.
    The strategies, [src/core/solve]:
    - [EventHandler]: the events ([util/EventHandler]);
    - [RBSearch]: [OneRBSearch] and [CartesianRBSearch];
    - [Solve]: [SingleReduceSolve] and [RecurringReduceSolve];
    - [Portfolio]: [PortfolioSolve];
    - [Service]: the solver service with its timer
      ([sat/solver/service/SequentialSolverService], [util/Timer]), over any
      solver; [Sharing]: who shares clauses with whom ([sat/sharing],
      [PainlessSolver]).

    Each operation keeps its name in the code, apart from case, leading and
    trailing underscores.  An object is a record; a method takes it and returns
    it.  [None] is an exception, undefined behaviour, or fuel that ran out; the
    theorems say when it does not occur.  Machine integers are in Z with the
    wrap-around written out by [u8], [u32] and [u64].  Threads are step
    relations whose steps are the sections between two synchronisations; the
    order of steps is arbitrary.

    ** What the theorems show

    Propagation: [UnitProp] defines unit propagation on sets of clauses, without
    any order.  [Propagate] and [PropCheck] prove that the watched literals
    compute it and that the three checks answer as it does and give the solver
    back as it was; [SetupSpec] that clauses are added correctly, with the
    invariant of watches, trail and arena that the other proofs use; [Load] that
    the reader understands what it should.
    Search for a model: [Reasons] adds to the invariant that every reason is a
    clause with its literal in front and the others false before.  [AnalyzeSpec]
    and [FinalSpec] prove conflict analysis with minimisation and the
    explanation of failed assumptions; [RelocSpec], [CollectSpec] and
    [GarbageSpec] that garbage collection moves every clause and redirects every
    reference; [RemoveSpec], [TrimSpec], [ReduceSpec] and [SimplifySpec] that
    the removal of learnt and satisfied clauses keeps the formula; [LearnSpec],
    [BranchSpec] and [RandomSpec] learning, the heap of decisions and the
    generator.  [SearchInv] and [SolverInv] state the invariant of the search,
    [SInv F q st]: the solver [st], with the literals before [q] propagated,
    stands for the formula [F].  [ConflictSpec] proves a round with a conflict,
    [CDCLSpec] a round without and the whole [search] with its measure,
    [RestartSpec] the Luby sequence and the limits, [SolverSpec] [solve_].
    [BuildSpec] proves that a new solver, [newVar] and [addClause] stand for
    what was added, [LoadSolve] that loading and then solving decides the
    clauses.  [SolverProps] collects what a caller of the solver relies on.
    Elimination: [ElimSpec] proves that [merge] computes resolvents, that they
    say of the other variables what the clauses said, and that [extendModel]
    over what is stored turns a model of the resolvents into a model of the
    eliminated clauses, for any sequence of variables.  [ProblemSpec] proves
    that a [SimpSolver] loads clauses as a solver does, that the clauses given
    out are the remaining ones under an injective renaming, and that models come
    back as models of the problem.  That the loop of [eliminate] keeps the
    formula is not proved; its fuel is the logarithm of a number of rounds.
    Engines: [SearchSpec] gives the sequence every search visits; [PoolSpec]
    that every task of the pool runs once; [EngineSpec] puts both together: the
    parallel engine counts what the sequential one counts, and that is the
    number of refuted assignments.  The class [LawfulChecker] is the promise of
    a solver, proved for [Minisat::Solver].
    Evolution: [InstanceSpec] and [EvolSpec] carry the soundness of a cached
    fitness through sampling, cache, mutation, crossover and selection: what
    claims to be a strong backdoor proves unsatisfiability.  [LawfulEnv] is the
    promise of engine and generator.
    Strategies: [RBSearchSpec] proves that the searches for a backdoor lose no
    model, under every interleaving of threads and events: [OneRBSearch] unless
    it is interrupted, [CartesianRBSearch] if in addition no SBS_FOUND event is
    pending when it starts, which an earlier search of the same strategy can
    break.  [LawfulRB] and [LawfulService] are the promises to the strategies.
    [SolveSpec] and [Portfolio] prove that the strategies end and that their
    answers are right; an UNSAT of [RecurringReduceSolve] in the executions in
    which the searches that are not interrupted are right.  [ServiceSpec] proves
    that the service answers every task once or drops it for an interrupt, and
    that it keeps [LawfulService] in the executions in which no task ends while
    the timer runs the callback of its event.
    Errors: where the code does not do what it should, a theorem exhibits it:
    among others a refutation by the elimination that the problem forgets, the
    32-bit counter of samples, a time limit that stops the wrong task, the cyclic order on fitness,
    the overflow test of the region, stale events and interrupts in the
    strategies, the model of the portfolio.
    [Witnesses], [WitnessesSolver] and [WitnessesSolve] apply the theorems to small formulas.

    ** Bounds and fuel

    Loops without a structural argument take fuel.  [propagate] and the checks
    compute theirs from the size of the state, [sort], [parse_DIMACS] and the
    visits of a search from their input, and the theorems prove that it is
    enough.  [search] and [solve_] take the logarithm of a number of rounds:
    [n] conflicts need [search_rounds], which counts decisions and assumptions
    between conflicts.  The theorems on [solveLimited] need a budget below
    [2 ^ 24] conflicts, within which the doubles of the restart sequence and of
    the adjustment of [max_learnts] are exact enough to be converted to [int],
    and room in the arena for the clauses that can be learnt, at most as many as
    the budget, each no longer than the number of variables.  A run without a
    budget is not bounded by them.  The fuel of [process] stands for the limits of the run, so its
    theorems are about the runs that end.  At most 63 variables can be
    enumerated, since the code counts in 64 bits.

    ** Not modelled

    The search of a [SimpSolver] whose simplification is still on, since its
    garbage collections also move the occurrence lists;
    addresses and the bytes of clauses; statistics, logging, time measurement
    and printing; reading of configuration; the operating system (signals,
    memory, clocks, which appear as parameters); the third-party solvers LMaple,
    MapleCOMSPS and painless, which are linked as they are; the destructor of the
    service and the diversification of its solvers. *)
From Stdlib Require Export ZArith Lia.
From stdpp Require Export base tactics option list numbers gmap.

(** ** Machine integers

    C++ unsigned arithmetic is arithmetic modulo a power of two; the helpers
    below write the wrap-around out where the source relies on the width. *)

Declare Scope parsat_scope.
Delimit Scope parsat_scope with parsat.
Open Scope Z_scope.

Definition u8 (z : Z) : Z := z mod 2 ^ 8.

Definition u32 (z : Z) : Z := z mod 2 ^ 32.

Definition u64 (z : Z) : Z := z mod 2 ^ 64.

(** The value of a [uint64_t] stored in an [int64_t]. *)
Definition s64 (z : Z) : Z := if u64 z <? 2 ^ 63 then u64 z else u64 z - 2 ^ 64.

Definition INT_MAX : Z := 2 ^ 31 - 1.

(** ** Arrays indexed by a machine integer

    A C++ array or [vec] is a list; [zget d l k] reads element [k] and [zset l
    k a] writes it.  Out of range the C++ access is undefined behaviour: the
    model reads the default [d] and drops the write, and the invariants of the
    components show that the indices they use are in range. *)

Definition zget {A} (d : A) (l : list A) (k : Z) : A :=
  if k <? 0 then d else default d (l !! Z.to_nat k).

Definition zset {A} (l : list A) (k : Z) (a : A) : list A :=
  if k <? 0 then l else <[Z.to_nat k := a]> l.

(** [vec::growTo(size, pad)] on the elements. *)
Definition grow_to {A} (l : list A) (n : nat) (pad : A) : list A :=
  l ++ replicate (n - length l) pad.

(** ** Answers *)

(** [core::sat::State], in [core/sat/Problem.h]. *)
Inductive State := SAT | UNSAT | UNKNOWN.

#[export] Instance State_eq_dec : EqDecision State.
Proof. solve_decision. Defined.

(** ** Hint databases and tactics *)

Create HintDb parsat discriminated.
Create Rewrite HintDb lits.
Create Rewrite HintDb arr.

(** Case analysis on the innermost boolean test or [match] of the goal. *)
Ltac case_match_goal :=
  match goal with
  | |- context [ if ?b then _ else _ ] => destruct b eqn:?
  | |- context [ match ?x with _ => _ end ] => destruct x eqn:?
  end.

(** Turn boolean (in)equalities on [Z] into propositions. *)
Ltac zbool :=
  repeat match goal with
  | H : (_ =? _) = true |- _ => apply Z.eqb_eq in H
  | H : (_ =? _) = false |- _ => apply Z.eqb_neq in H
  | H : (_ <? _) = true |- _ => apply Z.ltb_lt in H
  | H : (_ <? _) = false |- _ => apply Z.ltb_ge in H
  | H : (_ <=? _) = true |- _ => apply Z.leb_le in H
  | H : (_ <=? _) = false |- _ => apply Z.leb_gt in H
  | H : (_ && _)%bool = true |- _ => apply andb_true_iff in H; destruct H
  | H : (_ || _)%bool = false |- _ => apply orb_false_iff in H; destruct H
  | H : negb _ = true |- _ => apply negb_true_iff in H
  | H : negb _ = false |- _ => apply negb_false_iff in H
  end.

(** ** Record update

    [s <| f := v |>] is [s] with the field [f] replaced.  A record type opts in
    by an instance of [Settable] that lists its constructor and fields; the
    setter of a field is computed from it. *)

Class Settable (R : Type) := settable_eta : R → R.

Class Setter {R T : Type} (proj : R → T) := setter : (T → T) → R → R.

Ltac make_setter :=
  lazymatch goal with
  | |- @Setter ?R ?T ?proj =>
      let i := constr:(_ : Settable R) in
      let i := eval hnf in i in
      exact (λ (f : T → T) (x : R),
        ltac:(let t := eval cbv beta in (i x) in
              let t := eval pattern (proj x) in t in
              lazymatch t with ?g _ =>
                let r := eval cbv beta in (g (f (proj x))) in exact r
              end))
  end.

#[export] Hint Extern 1 (Setter _) => make_setter : typeclass_instances.

Notation "s <| proj := v |>" := (setter (proj := proj) (λ _, v) s)
  (at level 1, left associativity, v at level 99, format "s  <| proj  :=  v |>").

(** ** Comparators *)

(** What the containers and the sort ask of a [LessThan] functor. *)
Class StrictWeakOrder {A} (lt : A → A → bool) : Prop := {
  swo_asym : ∀ x y, lt x y = true → lt y x = false;
  swo_ntrans : ∀ x y z, lt x y = false → lt y z = false → lt x z = false }.

Lemma swo_irrefl {A} (lt : A → A → bool) `{!StrictWeakOrder lt} x : lt x x = false.
Proof. destruct (lt x x) eqn:E; [| done]. by rewrite (swo_asym _ _ E) in E. Qed.

(** ** Lemmas on arrays *)

Section Arrays.
Context {A : Type}.
Implicit Types (l : list A) (k j : Z) (a d : A).

Lemma length_zset l k a : length (zset l k a) = length l.
Proof. unfold zset. case_match_goal; [done | apply length_insert]. Qed.

Lemma zget_zset_eq d l k a : 0 <= k < Z.of_nat (length l) → zget d (zset l k a) k = a.
Proof.
  intros H. unfold zget, zset. destruct (k <? 0) eqn:E; zbool; [lia |].
  rewrite list_lookup_insert_eq by lia. done.
Qed.

Lemma zget_zset_ne d l k j a : k ≠ j → zget d (zset l k a) j = zget d l j.
Proof.
  intros H. unfold zget, zset. destruct (j <? 0) eqn:E; [done |].
  destruct (k <? 0) eqn:E'; zbool; [done |].
  rewrite list_lookup_insert_ne by lia. done.
Qed.

Lemma zget_zset d l k j a : 0 <= k < Z.of_nat (length l) →
  zget d (zset l k a) j = if decide (k = j) then a else zget d l j.
Proof.
  intros H. case_decide; subst; [by apply zget_zset_eq | by apply zget_zset_ne].
Qed.

Lemma zget_lookup d l k a : 0 <= k → l !! Z.to_nat k = Some a → zget d l k = a.
Proof. intros H E. unfold zget. destruct (k <? 0) eqn:E'; zbool; [lia |]. by rewrite E. Qed.

Lemma zget_of_nat d l (n : nat) : zget d l (Z.of_nat n) = default d (l !! n).
Proof. unfold zget. destruct (_ <? 0) eqn:E; zbool; [lia |]. by rewrite Nat2Z.id. Qed.

Lemma zget_elem d l k : 0 <= k < Z.of_nat (length l) → zget d l k ∈ l.
Proof.
  intros H. unfold zget. destruct (k <? 0) eqn:E; zbool; [lia |].
  destruct (l !! Z.to_nat k) as [a |] eqn:El; simpl.
  - by eapply list_elem_of_lookup_2.
  - apply lookup_ge_None in El. lia.
Qed.
End Arrays.

#[export] Hint Rewrite @length_zset @length_insert @length_app @length_replicate : arr.

(** ** Loops with binary fuel

    [iter2 f n a] runs the loop body [f] up to [2 ^ n] times: [inl] is the state
    of the next round, [inr] the result.  A loop whose number of rounds is only
    known to be bounded by a large number stays executable. *)
Fixpoint iter2 {A B} (f : A → option (A + B)) (n : nat) (a : A) : option (A + B) :=
  match n with
  | O => f a
  | S n =>
      r ← iter2 f n a;
      match r with
      | inl a => iter2 f n a
      | inr b => Some (inr b)
      end
  end.

(** A loop body that keeps [P] and decreases the measure [μ] ends in [Q]. *)
Section Iter.
Context {A B : Type} (f : A → option (A + B)) (P : A → Prop) (Q : B → Prop) (μ : A → nat).
Hypothesis Hf : ∀ a, P a → ∃ r, f a = Some r ∧
  match r with inl a' => P a' ∧ (μ a' < μ a)%nat | inr b => Q b end.

(** Without an end in sight, [2 ^ n] rounds decrease the measure by as much. *)
Lemma iter2_steps n : ∀ a, P a → ∃ r, iter2 f n a = Some r ∧
  match r with inl a' => P a' ∧ (μ a' + 2 ^ n <= μ a)%nat | inr b => Q b end.
Proof using Hf.
  induction n as [| n IH]; intros a Ha; simpl.
  - destruct (Hf a Ha) as (r & -> & Hr). exists r. split; [done |].
    destruct r; [| done]. destruct Hr. split; [done | lia].
  - destruct (IH a Ha) as ([a' | b] & -> & Hr); simpl; [| eauto].
    destruct Hr as [Ha' Hm]. destruct (IH a' Ha') as (r & -> & Hr). exists r. split; [done |].
    destruct r; [| done]. destruct Hr. split; [done | lia].
Qed.

Lemma iter2_spec n a : P a → (μ a < 2 ^ n)%nat → ∃ b, iter2 f n a = Some (inr b) ∧ Q b.
Proof using Hf.
  intros Ha Hm. destruct (iter2_steps n a Ha) as ([a' | b] & -> & Hr); [lia | eauto].
Qed.
End Iter.
