(* ===== verification/Lit.v ===== *)
(** * Literals and lifted booleans

    [utils/Lit.h] (a literal is the integer [2*var + sign]) and [mtl/lbool.h]
    (a three-valued boolean stored in a byte, where both 2 and 3 stand for
    "undefined"). *)
From S2P Require Import Prelude.

(** ** [Mini::Lit] *)

Record Lit := MkLit { lit_x : Z }.

#[export] Instance Lit_eq_dec : EqDecision Lit.
Proof. solve_decision. Defined.

#[export] Instance Lit_inhabited : Inhabited Lit := populate (MkLit 0).

#[export] Program Instance Lit_countable : Countable Lit :=
  inj_countable' lit_x MkLit _.
Next Obligation. by intros []. Qed.

Definition var_Undef : Z := -1.

(** [mkLit(var, sign)]: [p.x = var + var + (int) sign]. *)
Definition mkLit (v : Z) (sign : bool) : Lit := MkLit (v + v + Z.b2z sign).

(** [operator~]: flips the lowest bit. *)
Definition lit_neg (p : Lit) : Lit := MkLit (Z.lxor (lit_x p) 1).

(** [operator^(Lit, bool)]. *)
Definition lit_xor (p : Lit) (b : bool) : Lit := MkLit (Z.lxor (lit_x p) (Z.b2z b)).

(** [sign(p)]: [p.x & 1]. *)
Definition sign (p : Lit) : bool := negb (Z.land (lit_x p) 1 =? 0).

(** [var(p)]: [p.x >> 1]. *)
Definition var (p : Lit) : Z := Z.shiftr (lit_x p) 1.

Definition lit_eqb (p q : Lit) : bool := lit_x p =? lit_x q.

(** [operator<]: makes [p] and [~p] adjacent. *)
Definition lit_ltb (p q : Lit) : bool := lit_x p <? lit_x q.

Definition toInt (p : Lit) : Z := lit_x p.

Definition toLit (i : Z) : Lit := MkLit i.

Definition lit_Undef : Lit := MkLit (-2).

Definition lit_Error : Lit := MkLit (-1).

(** ** [Mini::lbool] *)

Record lbool := LBool { lb : Z }.

#[export] Instance lbool_eq_dec : EqDecision lbool.
Proof. solve_decision. Defined.

(** [lbool()] is value 0, which is [l_True]. *)
#[export] Instance lbool_inhabited : Inhabited lbool := populate (LBool 0).

(** [explicit lbool(uint8_t v)]. *)
Definition lbool_of_u8 (v : Z) : lbool := LBool (u8 v).

(** [explicit lbool(bool x) : value(!x)]. *)
Definition lbool_of_bool (x : bool) : lbool := LBool (Z.b2z (negb x)).

Definition l_True : lbool := lbool_of_u8 0.
Definition l_False : lbool := lbool_of_u8 1.
Definition l_Undef : lbool := lbool_of_u8 2.

(** [operator==]:
    [((b.value & 2) & (value & 2)) | (!(b.value & 2) & (value == b.value))]. *)
Definition lb_eqb (a b : lbool) : bool :=
  negb (Z.lor (Z.land (Z.land (lb b) 2) (Z.land (lb a) 2))
              (Z.land (Z.b2z (Z.land (lb b) 2 =? 0)) (Z.b2z (lb a =? lb b))) =? 0).

Definition lb_neb (a b : lbool) : bool := negb (lb_eqb a b).

(** [operator^(bool)]. *)
Definition lb_xor (a : lbool) (b : bool) : lbool := LBool (u8 (Z.lxor (lb a) (Z.b2z b))).

(** [operator&&]: a 16-entry table of 2-bit results packed in a constant. *)
Definition lb_and (a b : lbool) : lbool :=
  let sel := u8 (Z.lor (Z.shiftl (lb a) 1) (Z.shiftl (lb b) 3)) in
  lbool_of_u8 (Z.land (Z.shiftr 0xF7F755F4 sel) 3).

(** [operator||]. *)
Definition lb_or (a b : lbool) : lbool :=
  let sel := u8 (Z.lor (Z.shiftl (lb a) 1) (Z.shiftl (lb b) 3)) in
  lbool_of_u8 (Z.land (Z.shiftr 0xFCFCF400 sel) 3).

Definition lb_toInt (l : lbool) : Z := lb l.

Definition toLbool (v : Z) : lbool := lbool_of_u8 v.

(** The three-valued reading of a lifted boolean. *)
Definition lb_abs (a : lbool) : option bool :=
  if Z.testbit (lb a) 1 then None else Some (negb (Z.testbit (lb a) 0)).

(** The values the code ever stores: two bits. *)
Definition lb_valid (a : lbool) : Prop := 0 <= lb a < 4.

(** Kleene's strong conjunction and disjunction. *)
Definition kleene_and (a b : option bool) : option bool :=
  match a, b with
  | Some false, _ | _, Some false => Some false
  | Some true, Some true => Some true
  | _, _ => None
  end.

Definition kleene_or (a b : option bool) : option bool :=
  match a, b with
  | Some true, _ | _, Some true => Some true
  | Some false, Some false => Some false
  | _, _ => None
  end.

(** ** Laws of literals *)

Lemma lit_eq (p q : Lit) : lit_x p = lit_x q → p = q.
Proof. destruct p, q; simpl; congruence. Qed.

Lemma lit_eqb_spec (p q : Lit) : lit_eqb p q = bool_decide (p = q).
Proof.
  unfold lit_eqb. case_bool_decide as H; [subst; apply Z.eqb_refl |].
  apply Z.eqb_neq. intros E. by apply H, lit_eq.
Qed.

Lemma sign_testbit (p : Lit) : sign p = Z.testbit (lit_x p) 0.
Proof.
  unfold sign. change 1 with (Z.ones 1). rewrite Z.land_ones by lia.
  change (2 ^ 1) with 2. rewrite Zmod_odd, <- Z.bit0_odd. by destruct (Z.testbit _ _).
Qed.

Lemma lit_x_decomp (p : Lit) : lit_x p = 2 * var p + Z.b2z (sign p).
Proof.
  rewrite sign_testbit. unfold var. rewrite Z.shiftr_div_pow2 by lia.
  rewrite Z.bit0_mod. apply (Z.div_mod (lit_x p) 2). lia.
Qed.

Lemma var_mkLit v s : var (mkLit v s) = v.
Proof.
  unfold var, mkLit; simpl. rewrite Z.shiftr_div_pow2 by lia.
  change (2 ^ 1) with 2. destruct s; simpl.
  - replace (v + v + 1) with (1 + v * 2) by lia. rewrite Z.div_add by lia. done.
  - replace (v + v + 0) with (v * 2) by lia. by rewrite Z.div_mul by lia.
Qed.

Lemma sign_mkLit v s : sign (mkLit v s) = s.
Proof.
  pose proof (lit_x_decomp (mkLit v s)) as H. rewrite var_mkLit in H.
  simpl in H. destruct s, (sign _); simpl in H; lia || done.
Qed.

Lemma mkLit_var_sign p : mkLit (var p) (sign p) = p.
Proof. apply lit_eq. pose proof (lit_x_decomp p). simpl. lia. Qed.

Lemma lxor_1 q b : Z.lxor (2 * q + Z.b2z b) 1 = 2 * q + Z.b2z (negb b).
Proof.
  apply Z.bits_inj'. intros n Hn. rewrite Z.lxor_spec.
  change (Z.testbit 1 n) with (Z.testbit (2 * 0 + 1) n).
  destruct (decide (n = 0)) as [-> | Hn0].
  - destruct b; simpl Z.b2z; rewrite ?Z.add_0_r, ?Z.testbit_odd_0, ?Z.testbit_even_0; done.
  - replace n with (Z.succ (n - 1)) by lia.
    rewrite Z.testbit_odd_succ, Z.testbit_0_l by lia.
    destruct b; simpl Z.b2z;
      rewrite ?Z.add_0_r, ?Z.testbit_odd_succ, ?Z.testbit_even_succ by lia;
      by rewrite xorb_false_r.
Qed.

Lemma lit_neg_x p : lit_x (lit_neg p) = 2 * var p + Z.b2z (negb (sign p)).
Proof. unfold lit_neg; simpl. by rewrite (lit_x_decomp p) at 1; rewrite lxor_1. Qed.

Lemma lit_neg_mkLit p : lit_neg p = mkLit (var p) (negb (sign p)).
Proof. apply lit_eq. rewrite lit_neg_x. simpl. lia. Qed.

Lemma var_neg p : var (lit_neg p) = var p.
Proof. by rewrite lit_neg_mkLit, var_mkLit. Qed.

Lemma sign_neg p : sign (lit_neg p) = negb (sign p).
Proof. by rewrite lit_neg_mkLit, sign_mkLit. Qed.

Lemma lit_neg_involutive p : lit_neg (lit_neg p) = p.
Proof.
  rewrite (lit_neg_mkLit (lit_neg p)), var_neg, sign_neg, negb_involutive.
  apply mkLit_var_sign.
Qed.

Lemma lit_neg_ne p : lit_neg p ≠ p.
Proof. intros H. apply (f_equal sign) in H. rewrite sign_neg in H. by destruct (sign p). Qed.

Lemma lit_neg_inj p q : lit_neg p = lit_neg q → p = q.
Proof. intros H. rewrite <- (lit_neg_involutive p), H. apply lit_neg_involutive. Qed.

Lemma lit_neg_eq p q : lit_neg p = q ↔ p = lit_neg q.
Proof. split; [intros <- | intros ->]; by rewrite lit_neg_involutive. Qed.

(** Two literals of one variable are equal or complementary. *)
Lemma same_var p q : var p = var q → p = q ∨ p = lit_neg q.
Proof.
  intros Hv. destruct (decide (sign p = sign q)) as [Hs | Hs].
  - left. rewrite <- (mkLit_var_sign p), <- (mkLit_var_sign q). congruence.
  - right. rewrite lit_neg_mkLit, <- (mkLit_var_sign p), Hv. f_equal.
    destruct (sign p), (sign q); simpl; done.
Qed.

#[export] Hint Rewrite var_mkLit sign_mkLit var_neg sign_neg lit_neg_involutive : lits.

(** ** Laws of lifted booleans *)

Lemma lb_valid_cases a : lb_valid a →
  a = LBool 0 ∨ a = LBool 1 ∨ a = LBool 2 ∨ a = LBool 3.
Proof.
  destruct a as [v]. unfold lb_valid; simpl. intros H.
  assert (v = 0 ∨ v = 1 ∨ v = 2 ∨ v = 3) as [-> | [-> | [-> | ->]]] by lia; auto.
Qed.

(** Solve a goal about valid lifted booleans by enumeration. *)
Ltac lb_cases :=
  repeat match goal with
  | H : lb_valid _ |- _ => apply lb_valid_cases in H; destruct H as [-> | [-> | [-> | ->]]]
  end; vm_compute; try done; try (split; congruence).

Lemma lb_eqb_abs a b : lb_valid a → lb_valid b →
  lb_eqb a b = bool_decide (lb_abs a = lb_abs b).
Proof. intros. lb_cases. Qed.

Lemma lb_xor_abs a b : lb_valid a → lb_abs (lb_xor a b) = xorb b <$> lb_abs a.
Proof. intros. destruct b; lb_cases. Qed.

Lemma lb_xor_valid a b : lb_valid a → lb_valid (lb_xor a b).
Proof. intros. destruct b; lb_cases. Qed.

Lemma lb_of_bool_valid b : lb_valid (lbool_of_bool b).
Proof. destruct b; unfold lb_valid; simpl; lia. Qed.

Lemma lb_abs_of_bool b : lb_abs (lbool_of_bool b) = Some b.
Proof. by destruct b. Qed.

Lemma lb_undef_valid : lb_valid l_Undef.
Proof. done. Qed.

#[export] Hint Resolve lb_xor_valid lb_of_bool_valid lb_undef_valid : parsat.
