(* ===== verification/Sort.v ===== *)
(** * Sorting

    [mtl/Sort.h]: selection sort for at most 15 elements, quicksort with the
    middle element as pivot above.  An array is a list; a read outside of it is
    undefined behaviour in C++ and [None] here, so that the theorem that [sort]
    returns also says that the unguarded scans stay inside the array. *)
From S2P Require Import Prelude.

Section Defs.
Context {A : Type} `{Inhabited A} (lt : A → A → bool).
Implicit Types (l : list A).

(** [tmp = a[i]; a[i] = a[j]; a[j] = tmp]. *)
Definition swap l (i j : nat) : list A := <[j := l !!! i]> (<[i := l !!! j]> l).

(** The inner loop of [selectionSort]: [k] positions from [j] on. *)
Fixpoint best_index l (best j k : nat) : nat :=
  match k with
  | O => best
  | S k => best_index l (if lt (l !!! j) (l !!! best) then j else best) (S j) k
  end.

(** The outer loop: [k] positions from [i] on. *)
Fixpoint selection_loop l (i k : nat) : list A :=
  match k with
  | O => l
  | S k => selection_loop (swap l i (best_index l i (S i) (length l - S i))) (S i) k
  end.

Definition selectionSort l : list A := selection_loop l 0 (length l - 1).

(** [do i++; while (lt(array[i], pivot));], from the new [i] on. *)
Fixpoint scan_up l (pivot : A) (i fuel : nat) : option nat :=
  match fuel with
  | O => None
  | S fuel =>
      x ← l !! i;
      if lt x pivot then scan_up l pivot (S i) fuel else Some i
  end.

(** [do j--; while (lt(pivot, array[j]));], where [j] is one above. *)
Fixpoint scan_down l (pivot : A) (j : nat) : option nat :=
  match j with
  | O => None
  | S j =>
      x ← l !! j;
      if lt pivot x then scan_down l pivot j else Some j
  end.

(** The partition loop; [i] is the next position to look at from the left,
    [j] the last one looked at from the right. *)
Fixpoint partition l (pivot : A) (i j fuel : nat) : option (list A * nat) :=
  match fuel with
  | O => None
  | S fuel =>
      i ← scan_up l pivot i (S (length l));
      j ← scan_down l pivot j;
      if (j <=? i)%nat then Some (l, i)
      else partition (swap l i j) pivot (S i) j fuel
  end.

Fixpoint sort_fuel (fuel : nat) l : option (list A) :=
  if (length l <=? 15)%nat then Some (selectionSort l)
  else
    match fuel with
    | O => None
    | S fuel =>
        '(l, i) ← partition l (l !!! (length l / 2)%nat) 0 (length l) (S (length l));
        l1 ← sort_fuel fuel (take i l);
        l2 ← sort_fuel fuel (drop i l);
        Some (l1 ++ l2)
    end.

Definition sort l : option (list A) := sort_fuel (length l) l.

(** No later element is less than an earlier one. *)
Definition sorted_by l : Prop :=
  ∀ i j x y, (i < j)%nat → l !! i = Some x → l !! j = Some y → lt y x = false.
End Defs.

(** ** Selection sort *)

Section Selection.
Context {A : Type} `{Inhabited A} (lt : A → A → bool) `{!StrictWeakOrder lt}.
Implicit Types (l : list A).

Lemma length_swap l i j : length (swap l i j) = length l.
Proof. unfold swap. by rewrite !length_insert. Qed.

Lemma swap_perm l i j : (i < length l)%nat → (j < length l)%nat → swap l i j ≡ₚ l.
Proof.
  intros Hi Hj. unfold swap.
  destruct (lookup_lt_is_Some_2 _ _ Hi) as [x Ex], (lookup_lt_is_Some_2 _ _ Hj) as [y Ey].
  rewrite (list_lookup_total_correct _ _ _ Ex), (list_lookup_total_correct _ _ _ Ey).
  destruct (decide (i = j)) as [-> | Hne].
  - rewrite list_insert_insert_eq, list_insert_id; congruence || done.
  - apply Permutation_inj. split; [by rewrite !length_insert |].
    exists (λ k, if decide (k = i) then j else if decide (k = j) then i else k). split.
    + intros a b. repeat case_decide; congruence.
    + intros k. repeat case_decide; subst.
      * rewrite list_lookup_insert_ne, list_lookup_insert_eq by lia. congruence.
      * rewrite list_lookup_insert_eq by (by rewrite length_insert). congruence.
      * by rewrite !list_lookup_insert_ne by done.
Qed.

Lemma lookup_swap l i j k : (i < length l)%nat → (j < length l)%nat →
  swap l i j !! k = l !! (if decide (k = i) then j else if decide (k = j) then i else k).
Proof.
  intros Hi Hj. unfold swap.
  destruct (lookup_lt_is_Some_2 _ _ Hi) as [x Ex], (lookup_lt_is_Some_2 _ _ Hj) as [y Ey].
  rewrite (list_lookup_total_correct _ _ _ Ex), (list_lookup_total_correct _ _ _ Ey).
  repeat case_decide; subst.
  - destruct (decide (i = j)) as [-> | Hne].
    + rewrite list_lookup_insert_eq by (by rewrite length_insert). congruence.
    + rewrite list_lookup_insert_ne, list_lookup_insert_eq by lia. congruence.
  - rewrite list_lookup_insert_eq by (by rewrite length_insert). congruence.
  - by rewrite !list_lookup_insert_ne by done.
Qed.

Lemma best_index_spec l k : ∀ best j, (best < j)%nat → (j + k = length l)%nat →
  let b := best_index lt l best j k in
  (best <= b < length l)%nat ∧
  lt (l !!! best) (l !!! b) = false ∧
  ∀ m, (j <= m < length l)%nat → lt (l !!! m) (l !!! b) = false.
Proof.
  induction k as [| k IH]; intros best j Hb Hk; simpl.
  - split; [lia |]. split; [by apply swo_irrefl |]. lia.
  - destruct (lt (l !!! j) (l !!! best)) eqn:E.
    + destruct (IH j (S j) ltac:(lia) ltac:(lia)) as (H1 & H2 & H3). split; [lia |]. split.
      * eapply swo_ntrans, H2. by apply swo_asym.
      * intros m Hm. destruct (decide (m = j)) as [-> |]; [done | apply H3; lia].
    + destruct (IH best (S j) ltac:(lia) ltac:(lia)) as (H1 & H2 & H3). split; [lia |].
      split; [done |]. intros m Hm. destruct (decide (m = j)) as [-> |]; [| apply H3; lia].
      by eapply swo_ntrans.
Qed.

(** The first [i] positions are sorted and not greater than the others. *)
Definition sorted_prefix l (i : nat) : Prop :=
  ∀ a b x y, (a < b)%nat → (a < i)%nat → l !! a = Some x → l !! b = Some y → lt y x = false.

Lemma selection_loop_spec k : ∀ l i, (i + k = length l - 1)%nat → sorted_prefix l i →
  selection_loop lt l i k ≡ₚ l ∧ sorted_prefix (selection_loop lt l i k) (length l - 1).
Proof.
  induction k as [| k IH]; intros l i Hk Hs; simpl.
  { split; [done |]. by replace (length l - 1)%nat with i by lia. }
  destruct (best_index_spec l (length l - S i) i (S i)) as (Hb & Hbi & Hbest); [lia | lia |].
  set (b := best_index lt l i (S i) (length l - S i)) in *.
  destruct (IH (swap l i b) (S i)) as [IH1 IH2].
  - rewrite length_swap. lia.
  - intros p q x y Hpq Hp Ep Eq. rewrite lookup_swap in Ep, Eq by lia.
    assert (∀ m z, (i <= m)%nat → l !! m = Some z → lt z (l !!! b) = false) as Hmin.
    { intros m z Hm Em. pose proof (lookup_lt_Some _ _ _ Em).
      apply list_lookup_total_correct in Em as <-.
      destruct (decide (m = i)) as [-> |]; [done | apply Hbest; lia]. }
    destruct (decide (p = i)) as [-> | Hpi].
    + apply list_lookup_total_correct in Ep as <-.
      repeat case_decide; eapply Hmin; try exact Eq; lia.
    + rewrite (decide_False (P := p = b)) in Ep by lia.
      repeat case_decide; eapply (Hs p); try exact Ep; try exact Eq; lia.
  - split; [rewrite IH1; apply swap_perm; lia |]. by rewrite length_swap in IH2.
Qed.

Lemma selectionSort_spec l : selectionSort lt l ≡ₚ l ∧ sorted_by lt (selectionSort lt l).
Proof.
  unfold selectionSort. destruct (selection_loop_spec (length l - 1) l 0) as [H1 H2].
  - lia.
  - intros a b x y _ Ha. lia.
  - split; [done |]. intros i j x y Hij Ei Ej. eapply (H2 i j); try done.
    apply lookup_lt_Some in Ej. rewrite H1 in Ej. lia.
Qed.
End Selection.

(** ** Quicksort *)

Section Quick.
Context {A : Type} `{Inhabited A} (lt : A → A → bool) `{!StrictWeakOrder lt}.
Implicit Types (l : list A).

Lemma scan_up_spec l pivot fuel : ∀ i k x, (i <= k)%nat → l !! k = Some x →
  lt x pivot = false → (k - i < fuel)%nat →
  ∃ i' y, scan_up lt l pivot i fuel = Some i' ∧ (i <= i' <= k)%nat ∧ l !! i' = Some y ∧
    lt y pivot = false ∧ ∀ m z, (i <= m < i')%nat → l !! m = Some z → lt pivot z = false.
Proof.
  induction fuel as [| fuel IH]; intros i k x Hi Hk Hx Hf; [lia |]. simpl.
  destruct (lookup_lt_is_Some_2 l i) as [y Ey].
  { apply lookup_lt_Some in Hk. lia. }
  rewrite Ey. simpl. destruct (lt y pivot) eqn:E.
  - assert (i ≠ k) by congruence.
    destruct (IH (S i) k x) as (i' & y' & -> & Hi' & Ey' & Hy' & Hm); [lia | done | done | lia |].
    exists i', y'. split; [done |]. split; [lia |]. split; [done |]. split; [done |].
    intros m z Hm' Ez. destruct (decide (m = i)) as [-> |]; [| eapply Hm; [| done]; lia].
    rewrite Ey in Ez. injection Ez as <-. by apply swo_asym.
  - exists i, y. split; [done |]. split; [lia |]. split; [done |]. split; [done |]. lia.
Qed.

Lemma scan_down_spec l pivot j : ∀ k x, (k < j)%nat → (j <= length l)%nat → l !! k = Some x →
  lt pivot x = false →
  ∃ j' y, scan_down lt l pivot j = Some j' ∧ (k <= j' < j)%nat ∧ l !! j' = Some y ∧
    lt pivot y = false ∧ ∀ m z, (j' < m < j)%nat → l !! m = Some z → lt z pivot = false.
Proof.
  induction j as [| j IH]; intros k x Hk Hj Ek Hx; [lia |]. simpl.
  destruct (lookup_lt_is_Some_2 l j) as [y Ey]; [lia |]. rewrite Ey. simpl.
  destruct (lt pivot y) eqn:E.
  - assert (j ≠ k) by congruence.
    destruct (IH k x) as (j' & y' & -> & Hj' & Ey' & Hy' & Hm); [lia | lia | done | done |].
    exists j', y'. split; [done |]. split; [lia |]. split; [done |]. split; [done |].
    intros m z Hm' Ez. destruct (decide (m = j)) as [-> |]; [| eapply Hm; [| done]; lia].
    rewrite Ey in Ez. injection Ez as <-. by apply swo_asym.
  - exists j, y. split; [done |]. split; [lia |]. split; [done |]. split; [done |]. lia.
Qed.

(** Left of [i] nothing is greater than the pivot, from [j] on nothing less;
    the two scans have elements to stop at. *)
Record part_inv l (pivot : A) (i j : nat) : Prop := {
  part_left : ∀ k x, (k < i)%nat → l !! k = Some x → lt pivot x = false;
  part_right : ∀ k x, (j <= k)%nat → l !! k = Some x → lt x pivot = false;
  part_up : ∃ k x, (i <= k)%nat ∧ l !! k = Some x ∧ lt x pivot = false;
  part_down : ∃ k x, (k < j)%nat ∧ l !! k = Some x ∧ lt pivot x = false ∧ (0 < i ∨ 0 < k)%nat;
  part_len : (j <= length l)%nat }.

Lemma partition_spec l0 pivot fuel : ∀ l i j, l ≡ₚ l0 → part_inv l pivot i j → (j < fuel)%nat →
  ∃ l' i', partition lt l pivot i j fuel = Some (l', i') ∧ l' ≡ₚ l0 ∧
    (0 < i' < length l')%nat ∧
    (∀ k x, (k < i')%nat → l' !! k = Some x → lt pivot x = false) ∧
    (∀ k x, (i' <= k)%nat → l' !! k = Some x → lt x pivot = false).
Proof.
  induction fuel as [| fuel IH]; intros l i j Hp I Hf; [lia |]. cbn [partition].
  destruct I as [Hl Hr (ku & xu & Hku & Eku & Hxu) (kd & xd & Hkd & Ekd & Hxd & Hpos) Hlen].
  pose proof (lookup_lt_Some _ _ _ Eku) as Hkul.
  destruct (scan_up_spec l pivot (S (length l)) i ku xu) as (i' & y & -> & Hi' & Ei & Hy & Hup);
    [lia | done | done | lia |].
  destruct (scan_down_spec l pivot j kd xd) as (j' & z & -> & Hj' & Ej & Hz & Hdown); [done .. |].
  simpl. destruct (Nat.leb_spec j' i') as [Hle | Hgt].
  - exists l, i'. split; [done |]. split; [done |]. split; [lia |]. split.
    + intros k x Hk Ek. destruct (decide (k < i)%nat); [eauto |]. apply (Hup k); [lia | done].
    + intros k x Hk Ek. destruct (decide (j <= k)%nat); [eauto |].
      destruct (decide (k = j')) as [-> |]; [| apply (Hdown k); [lia | done]].
      assert (i' = j') as -> by lia. congruence.
  - pose proof (lookup_lt_Some _ _ _ Ej) as Hjl. apply IH; [| | lia].
    { rewrite <- Hp. apply swap_perm; lia. }
    split; [| | | | by rewrite length_swap; lia].
    + intros k x Hk Ek. rewrite lookup_swap in Ek by lia. repeat case_decide; [congruence | lia |].
      destruct (decide (k < i)%nat); [eauto |]. apply (Hup k); [lia | done].
    + intros k x Hk Ek. rewrite lookup_swap in Ek by lia. repeat case_decide; [lia | congruence |].
      destruct (decide (j <= k)%nat); [eauto |]. apply (Hdown k); [lia | done].
    + exists j', y. rewrite lookup_swap by lia. repeat case_decide; [lia | | lia].
      split; [lia | done].
    + exists i', z. rewrite lookup_swap by lia. rewrite decide_True by done.
      split; [lia |]. split; [done |]. split; [done | lia].
Qed.

Lemma sorted_app l1 l2 pivot : sorted_by lt l1 → sorted_by lt l2 →
  (∀ x, x ∈ l1 → lt pivot x = false) → (∀ x, x ∈ l2 → lt x pivot = false) →
  sorted_by lt (l1 ++ l2).
Proof.
  intros S1 S2 H1 H2 i j x y Hij Ei Ej.
  apply lookup_app_Some in Ei as [Ei | [Hi Ei]], Ej as [Ej | [Hj Ej]].
  - by apply (S1 i j).
  - eapply swo_ntrans; [apply H2 | apply H1]; by eapply list_elem_of_lookup_2.
  - apply lookup_lt_Some in Ej. lia.
  - apply (S2 (i - length l1)%nat (j - length l1)%nat); [lia | done | done].
Qed.

Lemma sort_fuel_spec fuel : ∀ l, (length l <= fuel)%nat →
  ∃ l', sort_fuel lt fuel l = Some l' ∧ l' ≡ₚ l ∧ sorted_by lt l'.
Proof.
  induction fuel as [| fuel IH]; intros l Hf; cbn [sort_fuel].
  { destruct (Nat.leb_spec (length l) 15); [| lia]. eexists. split; [done |].
    by apply selectionSort_spec. }
  destruct (Nat.leb_spec (length l) 15) as [Hs | Hs].
  { eexists. split; [done |]. by apply selectionSort_spec. }
  assert (0 < length l / 2 < length l)%nat as Hmid.
  { split; [by apply Nat.div_str_pos; lia | apply Nat.div_lt; lia]. }
  destruct (lookup_lt_is_Some_2 l (length l / 2)) as [pivot Ep]; [lia |].
  rewrite (list_lookup_total_correct _ _ _ Ep).
  destruct (partition_spec l pivot (S (length l)) l 0 (length l)) as
    (l1 & i & -> & Hp & Hi & Hle & Hge); [done | | lia |].
  { split; [lia | | | | done].
    - intros k x Hk Ek. apply lookup_lt_Some in Ek. lia.
    - exists (length l / 2)%nat, pivot. split; [lia |]. split; [done | by apply swo_irrefl].
    - exists (length l / 2)%nat, pivot. split; [lia |]. split; [done |].
      split; [by apply swo_irrefl | lia]. }
  simpl. pose proof (Permutation_length Hp) as Hlen.
  destruct (IH (take i l1)) as (s1 & -> & P1 & S1); [rewrite length_take; lia |].
  destruct (IH (drop i l1)) as (s2 & -> & P2 & S2); [rewrite length_drop; lia |].
  simpl. eexists. split; [done |]. split; [by rewrite P1, P2, take_drop |].
  apply (sorted_app _ _ pivot); [done | done | |].
  - intros x Hx. rewrite P1 in Hx. apply list_elem_of_lookup_1 in Hx as (k & Hk).
    apply lookup_take_Some in Hk as [Hk ?]. by eapply Hle.
  - intros x Hx. rewrite P2 in Hx. apply list_elem_of_lookup_1 in Hx as (k & Hk).
    rewrite lookup_drop in Hk. eapply Hge; [| done]. lia.
Qed.

Lemma sort_spec l : ∃ l', sort lt l = Some l' ∧ l' ≡ₚ l ∧ sorted_by lt l'.
Proof. by apply sort_fuel_spec. Qed.
End Quick.

(** ** Comparators that agree on the elements of the list *)

Section Agree.
Context {A : Type} `{Inhabited A} (lt lt' : A → A → bool).
Implicit Types (l : list A).

Definition agree l : Prop := ∀ x y, x ∈ l → y ∈ l → lt x y = lt' x y.

Lemma agree_perm l k : l ≡ₚ k → agree l → agree k.
Proof. intros Hp Ha x y Hx Hy. rewrite <- Hp in Hx, Hy. by apply Ha. Qed.

Lemma total_elem l i : (i < length l)%nat → l !!! i ∈ l.
Proof. intros Hi. by eapply list_elem_of_lookup_2, list_lookup_lookup_total_lt. Qed.

Lemma best_index_agree l k : ∀ best j, agree l → (best < length l)%nat → (j + k <= length l)%nat →
  best_index lt l best j k = best_index lt' l best j k ∧ (best_index lt l best j k < length l)%nat.
Proof.
  induction k as [| k IH]; intros best j Ha Hb Hj; simpl; [done |].
  rewrite (Ha (l !!! j) (l !!! best)) by (apply total_elem; lia). apply IH; [done | case_match_goal; lia | lia].
Qed.

Lemma selection_agree k : ∀ l i, agree l → (i + k = length l - 1)%nat →
  selection_loop lt l i k = selection_loop lt' l i k ∧ selection_loop lt l i k ≡ₚ l.
Proof.
  induction k as [| k IH]; intros l i Ha Hi; simpl; [done |].
  destruct (best_index_agree l (length l - S i) i (S i) Ha) as [E Hr]; [lia | lia |]. rewrite <- E.
  set (b := best_index _ _ _ _ _) in *. pose proof (swap_perm l i b ltac:(lia) Hr) as Hp.
  destruct (IH (swap l i b) (S i)) as [E' Hp'].
  - by eapply agree_perm.
  - rewrite length_swap. lia.
  - split; [done | by etrans].
Qed.

Lemma scan_up_agree l pivot fuel : ∀ i, agree l → pivot ∈ l →
  scan_up lt l pivot i fuel = scan_up lt' l pivot i fuel ∧
  ∀ k, scan_up lt l pivot i fuel = Some k → (k < length l)%nat.
Proof.
  induction fuel as [| fuel IH]; intros i Ha Hp; simpl; [done |].
  destruct (l !! i) as [x |] eqn:E; [| done]. simpl.
  rewrite <- (Ha x pivot) by (done || by eapply list_elem_of_lookup_2).
  destruct (lt x pivot); [by apply IH |]. split; [done |]. intros k [= <-]. by eapply lookup_lt_Some.
Qed.

Lemma scan_down_agree l pivot j : agree l → pivot ∈ l →
  scan_down lt l pivot j = scan_down lt' l pivot j ∧
  ∀ k, scan_down lt l pivot j = Some k → (k < length l)%nat.
Proof.
  intros Ha Hp. induction j as [| j IH]; simpl; [done |].
  destruct (l !! j) as [x |] eqn:E; [| done]. simpl.
  rewrite <- (Ha pivot x) by (done || by eapply list_elem_of_lookup_2).
  destruct (lt pivot x); [by apply IH |]. split; [done |]. intros k [= <-]. by eapply lookup_lt_Some.
Qed.

Lemma partition_agree pivot fuel : ∀ l i j, agree l → pivot ∈ l →
  partition lt l pivot i j fuel = partition lt' l pivot i j fuel ∧
  ∀ l' k, partition lt l pivot i j fuel = Some (l', k) → l' ≡ₚ l.
Proof.
  induction fuel as [| fuel IH]; intros l i j Ha Hp; cbn [partition]; [done |].
  destruct (scan_up_agree l pivot (S (length l)) i Ha Hp) as [<- Hu].
  destruct (scan_up _ _ _ _ _) as [i' |]; [| done]. simpl. specialize (Hu i' eq_refl).
  destruct (scan_down_agree l pivot j Ha Hp) as [<- Hd].
  destruct (scan_down _ _ _ _) as [j' |]; [| done]. simpl. specialize (Hd j' eq_refl).
  destruct (j' <=? i')%nat; [by split; [| intros l' k [= <- <-]] |].
  pose proof (swap_perm l i' j' Hu Hd) as Hs.
  destruct (IH (swap l i' j') (S i') j') as [E Hq].
  - by eapply agree_perm.
  - by rewrite Hs.
  - split; [done |]. intros l' k Hl. etrans; [by eapply Hq | done].
Qed.

Lemma sort_fuel_agree fuel : ∀ l, agree l → sort_fuel lt fuel l = sort_fuel lt' fuel l.
Proof.
  induction fuel as [| fuel IH]; intros l Ha; cbn [sort_fuel]; destruct (length l <=? 15)%nat eqn:E; try done;
    try (unfold selectionSort; f_equal; apply selection_agree; [done | lia]).
  apply Nat.leb_gt in E. set (pivot := l !!! (length l / 2)%nat).
  assert (pivot ∈ l) as Hp.
  { apply total_elem, Nat.div_lt; lia. }
  destruct (partition_agree pivot (S (length l)) l 0 (length l) Ha Hp) as [E1 H1].
  rewrite <- E1. destruct (partition lt _ _ _ _ _) as [[l' i] |]; [| done]. simpl.
  specialize (H1 l' i eq_refl). apply (agree_perm _ l') in Ha; [| done].
  rewrite (IH (take i l')), (IH (drop i l')); [done | |]; intros x y Hx Hy; apply Ha;
    rewrite <- (take_drop i l'), elem_of_app; auto.
Qed.

(** The comparator of [sort] needs to be a strict weak order on the elements. *)
Lemma sort_spec_on `{!StrictWeakOrder lt'} l : agree l →
  ∃ l', sort lt l = Some l' ∧ l' ≡ₚ l ∧ sorted_by lt' l'.
Proof. intros Ha. unfold sort. rewrite sort_fuel_agree by done. by apply sort_spec. Qed.
End Agree.

(** [sort] of [mtl/Sort.h] terminates without reading outside of the array
    and returns a sorted permutation of it, for every strict weak order. *)
Theorem sort_correct {A} `{Inhabited A} (lt : A → A → bool) (l : list A) :
  StrictWeakOrder lt → ∃ l', sort lt l = Some l' ∧ l' ≡ₚ l ∧ sorted_by lt l'.
Proof. intros. by apply sort_fuel_spec. Qed.

#[export] Instance Zltb_order : StrictWeakOrder Z.ltb.
Proof. split; intros; zbool; lia. Qed.

Definition sort_input : list Z := [5; 3; 9; 1; 7; 3; 8; 2; 6; 4; 0; 11; 5; 10; 3; 12; 1; 14].

Lemma sort_correct_witness : StrictWeakOrder Z.ltb ∧
  sort Z.ltb sort_input = Some [0; 1; 1; 2; 3; 3; 3; 4; 5; 5; 6; 7; 8; 9; 10; 11; 12; 14] ∧
  ∃ l', sort Z.ltb sort_input = Some l' ∧ l' ≡ₚ sort_input ∧ sorted_by Z.ltb l'.
Proof.
  split; [apply Zltb_order |]. split; [by vm_compute |].
  apply (sort_correct Z.ltb sort_input Zltb_order).
Defined.
