(* ===== verification/UnitProp.v ===== *)
(** * Unit propagation, abstractly

    What the watched-literal propagation of the solvers promises.  A formula is
    a set of clauses, [UP F A l] says that [l] follows from the literals [A]
    by unit propagation in [F], and [UPconfl F A] that unit propagation
    contradicts itself.  The order in which a propagation engine visits
    clauses and literals does not show at this level. *)
From S2P Require Import Prelude Lit.

Definition formula := list Lit → Prop.

Definition litset := Lit → Prop.

Inductive UP (F : formula) (A : litset) : litset :=
  | UP_base l : A l → UP F A l
  | UP_unit c l : F c → l ∈ c →
      (∀ m, m ∈ c → m ≠ l → UP F A (lit_neg m)) → UP F A l.

Definition UPconfl (F : formula) (A : litset) : Prop :=
  ∃ l, UP F A l ∧ UP F A (lit_neg l).

(** Two formulas with the same clauses up to the order of their literals. *)
Definition formula_equiv (F G : formula) : Prop :=
  (∀ c, F c → ∃ c', G c' ∧ c ≡ₚ c') ∧ (∀ c, G c → ∃ c', F c' ∧ c ≡ₚ c').

(** ** Models *)

Definition lit_true (σ : Z → bool) (p : Lit) : bool := xorb (sign p) (σ (var p)).

Definition models (σ : Z → bool) (F : formula) : Prop :=
  ∀ c, F c → ∃ l, l ∈ c ∧ lit_true σ l = true.

Definition models_lits (σ : Z → bool) (A : litset) : Prop := ∀ l, A l → lit_true σ l = true.

Definition satisfiable (F : formula) (A : litset) : Prop :=
  ∃ σ, models σ F ∧ models_lits σ A.

(** ** Leaves of the assignment tree over a list of variables *)

Fixpoint leaves (vs : list Z) : list (list Lit) :=
  match vs with
  | [] => [[]]
  | v :: vs => (cons (mkLit v true) <$> leaves vs) ++ (cons (mkLit v false) <$> leaves vs)
  end.

(** [counts P xs n]: exactly [n] elements of [xs] satisfy [P]. *)
Inductive counts {A} (P : A → Prop) : list A → Z → Prop :=
  | counts_nil : counts P [] 0
  | counts_yes x xs n : P x → counts P xs n → counts P (x :: xs) (n + 1)
  | counts_no x xs n : ¬ P x → counts P xs n → counts P (x :: xs) n.

(** ** Structural lemmas *)

Lemma UP_mono F (A B : litset) l : (∀ m, A m → B m) → UP F A l → UP F B l.
Proof.
  intros HAB. induction 1 as [l Hl | c l Hc Hl _ IH]; [by apply UP_base, HAB |].
  by apply (UP_unit _ _ c).
Qed.

(** Cut: premises that are themselves derivable add nothing. *)
Lemma UP_cut F (A B : litset) l : (∀ m, B m → UP F A m) → UP F B l → UP F A l.
Proof.
  intros HBA. induction 1 as [l Hl | c l Hc Hl _ IH]; [by apply HBA |].
  by apply (UP_unit _ _ c).
Qed.

Lemma UPconfl_mono F (A B : litset) : (∀ m, A m → B m) → UPconfl F A → UPconfl F B.
Proof. intros H (l & H1 & H2). exists l. split; by eapply UP_mono. Qed.

Lemma UPconfl_cut F (A B : litset) : (∀ m, B m → UP F A m) → UPconfl F B → UPconfl F A.
Proof. intros H (l & H1 & H2). exists l. split; by eapply UP_cut. Qed.

Lemma UPconfl_iff F (A B : litset) :
  (∀ m, B m → UP F A m) → (∀ m, A m → UP F B m) → UPconfl F A ↔ UPconfl F B.
Proof. intros H1 H2. split; by apply UPconfl_cut. Qed.

(** A falsified clause is a conflict. *)
Lemma UPconfl_clause F (A : litset) c l :
  F c → l ∈ c → (∀ m, m ∈ c → UP F A (lit_neg m)) → UPconfl F A.
Proof.
  intros Hc Hl Hall. exists l. split; [| by apply Hall].
  apply (UP_unit _ _ c); auto.
Qed.

(** A set closed under the unit rule contains everything derivable. *)
Lemma UP_closed F (A T : litset) :
  (∀ l, A l → T l) →
  (∀ c l, F c → l ∈ c → (∀ m, m ∈ c → m ≠ l → T (lit_neg m)) → T l) →
  ∀ l, UP F A l → T l.
Proof. intros HA HT l. induction 1; eauto. Qed.

(** When every clause is satisfied or has two non-false literals, a consistent
    assignment is closed under unit propagation, so there is no conflict. *)
Section Fixpoint_of_UP.
Context (F : formula) (A T : litset).
Hypothesis HA : ∀ l, A l → T l.
Hypothesis Hcons : ∀ l, T l → ¬ T (lit_neg l).
Hypothesis HF : ∀ c, F c → (∃ t, t ∈ c ∧ T t) ∨
  (∃ a b, a ∈ c ∧ b ∈ c ∧ a ≠ b ∧ ¬ T (lit_neg a) ∧ ¬ T (lit_neg b)).

Lemma fixpoint_closed l : UP F A l → T l.
Proof using HA Hcons HF.
  revert l. apply UP_closed; [done |]. intros c l Hc Hl Hm.
  destruct (HF c Hc) as [(t & Ht & HTt) | (a & b & Ha & Hb & Hab & HTa & HTb)].
  - destruct (decide (t = l)) as [-> | Hne]; [done |].
    by destruct (Hcons t HTt (Hm t Ht Hne)).
  - destruct (decide (a = l)) as [-> | Hne]; [| by destruct HTa; apply Hm].
    destruct HTb. apply Hm; congruence.
Qed.

Lemma fixpoint_no_conflict : ¬ UPconfl F A.
Proof using HA Hcons HF. intros (l & H1 & H2). by apply (Hcons l); apply fixpoint_closed. Qed.
End Fixpoint_of_UP.

(** ** Invariance under reordering of clauses *)

#[export] Instance formula_equiv_equiv : Equivalence formula_equiv.
Proof.
  split.
  - intros F. split; intros c Hc; by exists c.
  - intros F G [H1 H2]. by split.
  - intros F G H [HFG HGF] [HGH HHG]. split.
    + intros c (d & Hd & Hcd)%HFG. apply HGH in Hd as (e & He & Hde). exists e.
      split; [done | by etrans].
    + intros c (d & Hd & Hcd)%HHG. apply HGF in Hd as (e & He & Hde). exists e.
      split; [done | by etrans].
Qed.

Lemma UP_equiv_1 F G A l : (∀ c, F c → ∃ c', G c' ∧ c ≡ₚ c') → UP F A l → UP G A l.
Proof.
  intros HFG. induction 1 as [l Hl | c l Hc Hl _ IH]; [by apply UP_base |].
  apply HFG in Hc as (c' & Hc' & Hp). apply (UP_unit _ _ c'); [done | by rewrite <- Hp |].
  intros m Hm. apply IH. by rewrite Hp.
Qed.

#[export] Instance UP_proper : Proper (formula_equiv ==> eq ==> eq ==> iff) UP.
Proof.
  intros F G [H1 H2] A ? <- l ? <-. split; by apply UP_equiv_1.
Qed.

#[export] Instance UPconfl_proper : Proper (formula_equiv ==> eq ==> iff) UPconfl.
Proof.
  intros F G HFG A ? <-. unfold UPconfl. by setoid_rewrite HFG.
Qed.

Lemma models_equiv_1 F G σ : (∀ c, G c → ∃ c', F c' ∧ c ≡ₚ c') → models σ F → models σ G.
Proof.
  intros H Hm c (c' & Hc' & Hp)%H. destruct (Hm c' Hc') as (l & Hl & Ht).
  exists l. by rewrite Hp.
Qed.

#[export] Instance models_proper : Proper (eq ==> formula_equiv ==> iff) models.
Proof. intros σ ? <- F G [H1 H2]. split; by apply models_equiv_1. Qed.

(** ** Soundness with respect to models *)

Lemma lit_true_neg σ p : lit_true σ (lit_neg p) = negb (lit_true σ p).
Proof. unfold lit_true. rewrite sign_neg, var_neg. by destruct (sign p), (σ _). Qed.

Lemma UP_sound F A σ l : models σ F → models_lits σ A → UP F A l → lit_true σ l = true.
Proof.
  intros HF HA. induction 1 as [l Hl | c l Hc Hl _ IH]; [by apply HA |].
  destruct (HF c Hc) as (t & Ht & Htrue).
  destruct (decide (t = l)) as [-> | Hne]; [done |].
  specialize (IH t Ht Hne). rewrite lit_true_neg, Htrue in IH. done.
Qed.

Lemma UPconfl_unsat F A : UPconfl F A → ¬ satisfiable F A.
Proof.
  intros (l & H1 & H2) (σ & HF & HA).
  apply (UP_sound _ _ σ) in H1, H2; [| done ..].
  rewrite lit_true_neg, H1 in H2. done.
Qed.

(** ** Leaves and counting *)

Lemma counts_ext {A} (P Q : A → Prop) xs n :
  (∀ x, x ∈ xs → P x ↔ Q x) → counts P xs n → counts Q xs n.
Proof.
  intros H. induction 1 as [| x xs n Hx _ IH | x xs n Hx _ IH]; constructor;
    (try (apply IH; intros; apply H; by right)).
  - by apply H; [left |].
  - intros HQ. apply Hx, H; [left |]; done.
Qed.

Lemma counts_app {A} (P : A → Prop) xs ys n m :
  counts P xs n → counts P ys m → counts P (xs ++ ys) (n + m).
Proof.
  intros Hx Hy. induction Hx as [| x xs n Hx _ IH | x xs n Hx _ IH]; simpl.
  - done.
  - replace (n + 1 + m) with (n + m + 1) by lia. by apply counts_yes.
  - by apply counts_no.
Qed.

Lemma counts_all {A} (P : A → Prop) xs :
  (∀ x, x ∈ xs → P x) → counts P xs (Z.of_nat (length xs)).
Proof.
  induction xs as [| x xs IH]; intros H; simpl length; [constructor |].
  replace (Z.of_nat (S (length xs))) with (Z.of_nat (length xs) + 1) by lia.
  apply counts_yes; [apply H; left |]. apply IH. intros. apply H. by right.
Qed.

Lemma counts_fmap {A B} (f : B → A) (P : A → Prop) xs n :
  counts (λ x, P (f x)) xs n → counts P (f <$> xs) n.
Proof. induction 1; csimpl; by constructor. Qed.

Lemma counts_fun {A} (P : A → Prop) xs n m : counts P xs n → counts P xs m → n = m.
Proof.
  intros Hn. revert m. induction Hn as [| x xs n Hx _ IH | x xs n Hx _ IH];
    inversion 1; subst; try done; f_equal; auto.
Qed.

Lemma counts_bounds {A} (P : A → Prop) xs n : counts P xs n → 0 <= n <= Z.of_nat (length xs).
Proof. induction 1; simpl; lia. Qed.

(** When all of the elements are counted, all of them satisfy the predicate. *)
Lemma counts_full {A} (P : A → Prop) xs n :
  counts P xs n → n = Z.of_nat (length xs) → ∀ x, x ∈ xs → P x.
Proof.
  induction 1 as [| x xs n Hx Hc IH | x xs n Hx Hc IH]; intros Hn y Hy.
  - by apply elem_of_nil in Hy.
  - apply elem_of_cons in Hy as [-> | Hy]; [done |]. apply IH; [simpl in Hn; lia | done].
  - apply counts_bounds in Hc. simpl in Hn. lia.
Qed.

Lemma length_leaves vs : Z.of_nat (length (leaves vs)) = 2 ^ Z.of_nat (length vs).
Proof.
  induction vs as [| v vs IH]; [done |]. simpl. rewrite length_app, !length_fmap.
  rewrite Nat2Z.inj_add, IH. replace (Z.of_nat (S (length vs))) with (Z.of_nat (length vs) + 1) by lia.
  rewrite Z.pow_add_r by lia. lia.
Qed.

(** Every total assignment agrees with one leaf, so a formula all of whose
    leaves are contradictory is unsatisfiable. *)
Lemma leaves_cover σ vs : ∃ a, a ∈ leaves vs ∧ ∀ l, l ∈ a → lit_true σ l = true.
Proof.
  induction vs as [| v vs (a & Ha & Ht)]; simpl.
  - exists []. split; [by left |]. intros l Hl. by apply elem_of_nil in Hl.
  - exists (mkLit v (negb (σ v)) :: a). split.
    + apply elem_of_app. destruct (σ v); [right | left]; by apply list_elem_of_fmap_2.
    + intros l [-> | Hl]%elem_of_cons; [| by apply Ht].
      unfold lit_true. autorewrite with lits. by destruct (σ v).
Qed.
