(* ===== verification/Vec.v ===== *)
(** * [Mini::vec] and the integer-indexed containers on top of it

    [mtl/Vec.h]: a growable array with its capacity.  A vector is the list of
    its elements ([_data[0 .. sz)]) and the allocated capacity; [sz] is the
    length of the list, and [_data == NULL] is capacity 0.  Operations that
    would execute undefined behaviour (signed overflow of the capacity, a write
    past the allocation, popping an empty vector) return [None].

    [mtl/IntMap.h]: [IntMap] is a vector addressed through [MkIndex]; its
    elements are a list read with [zget] and written with [zset].  [IntSet] is
    an [IntMap] of flags together with the vector of its members. *)
From S2P Require Import Prelude Lit.

(** ** [Mini::vec] *)
Module Vec.

Record vec (A : Type) := MkVec { elems : list A; cap : Z }.

Arguments MkVec {A}.
Arguments elems {A}.
Arguments cap {A}.

Section Ops.
Context {A : Type} `{Inhabited A}.
Implicit Types (v : vec A).

Definition empty_vec : vec A := MkVec [] 0.

Definition size v : Z := Z.of_nat (length (elems v)).

(** The amount by which [capacity(min_cap)] grows a vector of capacity [c]. *)
Definition capacity_add (c min_cap : Z) : Z :=
  Z.max (Z.land (min_cap - c + 1) (Z.lnot 1))
        (Z.land (Z.shiftr c 1 + 2) (Z.lnot 1)).

(** [void vec::capacity(Size min_cap)]; [int] overflow of [cap += add] is
    undefined. *)
Definition capacity v (min_cap : Z) : option (vec A) :=
  if min_cap <=? cap v then Some v
  else
    let c := cap v + capacity_add (cap v) min_cap in
    if c <=? INT_MAX then Some (MkVec (elems v) c) else None.

(** [push(elem)]. *)
Definition push v (a : A) : option (vec A) :=
  v' ← (if size v =? cap v then capacity v (size v + 1) else Some v);
  Some (MkVec (elems v' ++ [a]) (cap v')).

(** [push()]: a default-constructed element. *)
Definition push_default v : option (vec A) := push v inhabitant.

(** [push_(elem)]: writes without growing. *)
Definition push_ v (a : A) : option (vec A) :=
  if size v <? cap v then Some (MkVec (elems v ++ [a]) (cap v)) else None.

Definition pop v : option (vec A) :=
  if 0 <? size v then Some (MkVec (removelast (elems v)) (cap v)) else None.

(** [shrink(nelems)]: drops the last [nelems] elements one by one. *)
Definition shrink v (nelems : Z) : option (vec A) :=
  if nelems <=? size v
  then Some (MkVec (take (Z.to_nat (size v - Z.max 0 nelems)) (elems v)) (cap v))
  else None.

Definition last v : option A := list.last (elems v).

(** [growTo(size, pad)] and [growTo(size)]. *)
Definition growTo v (n : Z) (pad : A) : option (vec A) :=
  if n <=? size v then Some v
  else
    v' ← capacity v n;
    Some (MkVec (grow_to (elems v') (Z.to_nat n) pad) (cap v')).

Definition growTo_default v (n : Z) : option (vec A) := growTo v n inhabitant.

(** [clear(dealloc)]. *)
Definition clear v (dealloc : bool) : vec A :=
  if cap v =? 0 then v else MkVec [] (if dealloc then 0 else cap v).

(** [copyTo(copy)]: [copy.clear(); copy.growTo(sz)], then the elements. *)
Definition copyTo v (copy : vec A) : option (vec A) :=
  c ← growTo_default (clear copy false) (size v);
  Some (MkVec (elems v) (cap c)).

(** [operator=]: keeps the larger capacity. *)
Definition assign v (other : vec A) : option (vec A) :=
  v' ← capacity v (size other);
  Some (MkVec (elems other) (cap v')).

(** Copy constructor: [vec(other.sz)], then the elements. *)
Definition copy_construct (other : vec A) : option (vec A) :=
  v ← growTo_default empty_vec (size other);
  Some (MkVec (elems other) (cap v)).

(** [moveTo(dest)]: returns the source and the destination. *)
Definition moveTo v (dest : vec A) : vec A * vec A := (empty_vec, v).

(** Pushing a whole list, as the callers' loops do. *)
Fixpoint push_all v (l : list A) : option (vec A) :=
  match l with
  | [] => Some v
  | a :: l => v' ← push v a; push_all v' l
  end.
End Ops.

(** The capacities that a vector filled by [push] goes through. *)
Definition next_cap (c : Z) : Z := c + capacity_add c (c + 1).

(** Representation invariant: the elements fit, the capacity is even and in
    the range of [int]. *)
Definition wf {A} (v : vec A) : Prop :=
  Z.of_nat (length (elems v)) <= cap v ∧ Z.Even (cap v) ∧ 0 <= cap v <= INT_MAX.

Section Facts.
Context {A : Type} `{Inhabited A}.
Implicit Types (v : vec A).

Lemma land_even z : Z.Even (Z.land z (Z.lnot 1)).
Proof.
  apply Z.even_spec. rewrite <- Z.negb_odd, <- Z.bit0_odd, Z.land_spec, Z.lnot_spec by lia.
  by rewrite andb_false_r.
Qed.

Lemma land_not1_bounds z : z - 1 <= Z.land z (Z.lnot 1) <= z.
Proof.
  pose proof (Z.div_mod z 2 ltac:(lia)) as E.
  assert (Z.land z (Z.lnot 1) = 2 * (z / 2)) as ->.
  { change (Z.lnot 1) with (Z.lnot (Z.ones 1)).
    rewrite <- Z.ldiff_land, Z.ldiff_ones_r by lia.
    rewrite Z.shiftr_div_pow2, Z.shiftl_mul_pow2 by lia. change (2 ^ 1) with 2. lia. }
  pose proof (Z.mod_pos_bound z 2). lia.
Qed.

Lemma capacity_add_bounds c m : 0 <= c < m →
  m - c <= capacity_add c m ∧ 0 < capacity_add c m
  ∧ c / 2 + 1 <= capacity_add c m <= Z.max (m - c + 1) (c / 2 + 2).
Proof.
  intros Hc. unfold capacity_add. rewrite Z.shiftr_div_pow2 by lia. change (2 ^ 1) with 2.
  pose proof (land_not1_bounds (m - c + 1)). pose proof (land_not1_bounds (c / 2 + 2)).
  assert (0 <= c / 2) by (apply Z.div_pos; lia).
  generalize dependent (Z.land (m - c + 1) (Z.lnot 1)).
  generalize dependent (Z.land (c / 2 + 2) (Z.lnot 1)).
  generalize dependent (c / 2). intros. repeat split; lia.
Qed.

Lemma capacity_add_even c m : Z.Even (capacity_add c m).
Proof. unfold capacity_add. destruct (Z.max_spec (Z.land (m - c + 1) (Z.lnot 1)) (Z.land (Z.shiftr c 1 + 2) (Z.lnot 1))) as [[_ ->] | [_ ->]]; apply land_even. Qed.

Lemma vec_capacity_spec v m v' : wf v → capacity v m = Some v' →
  wf v' ∧ elems v' = elems v ∧ m <= cap v' ∧ cap v <= cap v'.
Proof.
  intros (Hsz & Hev & Hb). unfold capacity. case_match_goal; zbool.
  - intros [= ->]. repeat split; lia || done.
  - case_match_goal; [| done]. zbool. intros [= <-]. simpl.
    destruct (capacity_add_bounds (cap v) m) as (? & ? & ?); [lia |].
    repeat split; simpl; try lia.
    apply Zeven_equiv in Hev. pose proof (capacity_add_even (cap v) m) as He.
    apply Zeven_equiv in He. apply Zeven_equiv. by apply Zeven_plus_Zeven.
Qed.

Lemma push_spec v a v' : wf v → push v a = Some v' →
  wf v' ∧ elems v' = elems v ++ [a] ∧ cap v <= cap v'.
Proof.
  intros Hwf. unfold push.
  destruct (size v =? cap v) eqn:E; zbool; simpl.
  - destruct (capacity v (size v + 1)) as [v1 |] eqn:Ec; simpl; [| done].
    intros [= <-]. apply vec_capacity_spec in Ec as (H1 & H2 & H3 & H4); [| done].
    split; [| by rewrite H2]. destruct H1 as (? & ? & ?). unfold wf; simpl.
    rewrite length_app. unfold size in *. rewrite H2. simpl. repeat split; try lia; done.
  - intros [= <-]. destruct Hwf as (? & ? & ?). unfold wf, size in *; simpl.
    rewrite length_app; simpl. repeat split; try lia; done.
Qed.

Lemma push_all_spec l v v' : wf v → push_all v l = Some v' →
  wf v' ∧ elems v' = elems v ++ l.
Proof.
  revert v. induction l as [| a l IH]; intros v Hwf; simpl.
  - intros [= ->]. by rewrite app_nil_r.
  - destruct (push v a) as [v1 |] eqn:E; simpl; [| done].
    apply push_spec in E as (H1 & H2 & _); [| done]. intros E'.
    apply IH in E' as [H3 H4]; [| done]. split; [done |].
    by rewrite H4, H2, <- app_assoc.
Qed.
End Facts.

End Vec.

(** ** [Mini::IntMap] and [Mini::IntSet] *)
Module IntMap.

Section Ops.
Context {K V : Type} (index : K → Z).
Implicit Types (m : list V) (k : K).

(** [has(k)]: [index(k) < map.size()]. *)
Definition has m k : bool := index k <? Z.of_nat (length m).

Definition get (d : V) m k : V := zget d m (index k).

Definition set m k (v : V) : list V := zset m (index k) v.

(** [reserve(key, pad)]: [map.growTo(index(key) + 1, pad)]. *)
Definition reserve m k (pad : V) : list V := grow_to m (Z.to_nat (index k + 1)) pad.

(** [insert(key, val, pad)]. *)
Definition insert m k (v pad : V) : list V := set (reserve m k pad) k v.
End Ops.

(** [IntSet]: [in_set] flags and the vector [xs] of members. *)
Record IntSet (K : Type) := MkIntSet { in_set : list Z; xs : list K }.

Arguments MkIntSet {K}.
Arguments in_set {K}.
Arguments xs {K}.

Section Sets.
Context {K : Type} (index : K → Z).

Definition set_empty : IntSet K := MkIntSet [] [].

Definition set_size (s : IntSet K) : Z := Z.of_nat (length (xs s)).

(** [clear()]: resets the flag of every member. *)
Definition set_clear (s : IntSet K) : IntSet K :=
  MkIntSet (foldl (λ m k, set index m k 0) (in_set s) (xs s)) [].

Definition set_insert (s : IntSet K) (k : K) : IntSet K :=
  let m := reserve index (in_set s) k 0 in
  if get index 0 m k =? 0
  then MkIntSet (set index m k 1) (xs s ++ [k])
  else MkIntSet m (xs s).

(** [has(k)] also grows the flags. *)
Definition set_has (s : IntSet K) (k : K) : bool * IntSet K :=
  let m := reserve index (in_set s) k 0 in
  (negb (get index 0 m k =? 0), MkIntSet m (xs s)).

(** Representation invariant: a flag is set exactly for the members. *)
Definition set_wf (s : IntSet K) : Prop :=
  NoDup (xs s) ∧
  (∀ k, k ∈ xs s → 0 <= index k < Z.of_nat (length (in_set s))) ∧
  (∀ k, 0 <= index k → get index 0 (in_set s) k ≠ 0 ↔ k ∈ xs s).
End Sets.

Lemma length_grow_to {A} (l : list A) n pad : length (grow_to l n pad) = max (length l) n.
Proof. unfold grow_to. rewrite length_app, length_replicate. lia. Qed.

Lemma zget_grow_to {A} (d : A) l n pad k :
  zget d (grow_to l n pad) k =
    if decide (Z.of_nat (length l) <= k < Z.of_nat n) then pad else zget d l k.
Proof.
  unfold zget, grow_to. destruct (k <? 0) eqn:E; zbool; case_decide as Hd; try done; try lia.
  - rewrite lookup_app_r by lia. rewrite lookup_replicate_2 by lia. done.
  - destruct (decide (k < Z.of_nat (length l))).
    + by rewrite lookup_app_l by lia.
    + rewrite lookup_app_r by lia.
      rewrite (lookup_ge_None_2 l) by lia.
      by rewrite lookup_ge_None_2 by (rewrite length_replicate; lia).
Qed.

Section Facts.
Context {K : Type} (index : K → Z) (index_inj : ∀ k j, index k = index j → k = j).

Lemma set_insert_wf s k : 0 <= index k → set_wf index s → set_wf index (set_insert index s k).
Proof.
  intros Hk (Hnd & Hr & Hin). unfold set_insert.
  set (m := reserve index (in_set s) k 0).
  assert (Hlen : length m = max (length (in_set s)) (Z.to_nat (index k + 1)))
    by apply length_grow_to.
  assert (Hg : ∀ j, get index 0 m j = get index 0 (in_set s) j).
  { intros j. unfold get, m, reserve. rewrite zget_grow_to. case_decide as Hd; [| done].
    unfold zget. destruct (_ <? 0); [done |]. by rewrite lookup_ge_None_2 by lia. }
  rewrite Hg. destruct (_ =? 0) eqn:E; zbool.
  - assert (k ∉ xs s) as Hni by (intros Hx; apply Hin in Hx; done).
    split; [simpl; apply NoDup_app; repeat split; [done | | apply NoDup_singleton] |].
    { intros x Hx ->%list_elem_of_singleton. done. }
    split; simpl; unfold set.
    + intros j. rewrite length_zset, elem_of_app, list_elem_of_singleton.
      intros [Hj | ->]; [apply Hr in Hj |]; lia.
    + intros j Hj. unfold get. rewrite zget_zset by lia.
      rewrite elem_of_app, list_elem_of_singleton. case_decide as Hd.
      * apply index_inj in Hd as ->. split; [by right | done].
      * fold (get index 0 m j). rewrite Hg, Hin by done.
        split; [by left | intros [? | ->]; done].
  - split; [done |]. split; simpl.
    + intros j Hj%Hr. lia.
    + intros j Hj. rewrite Hg. by apply Hin.
Qed.

Lemma set_insert_elem s k x : 0 <= index k → set_wf index s →
  x ∈ xs (set_insert index s k) ↔ x = k ∨ x ∈ xs s.
Proof.
  intros Hk (Hnd & Hr & Hin). unfold set_insert. set (m := reserve index (in_set s) k 0).
  assert (Hg : get index 0 m k = get index 0 (in_set s) k).
  { unfold get, m, reserve. rewrite zget_grow_to. case_decide as Hd; [| done].
    unfold zget. destruct (_ <? 0); [done |]. by rewrite lookup_ge_None_2 by lia. }
  rewrite Hg. destruct (_ =? 0) eqn:E; zbool; simpl.
  - rewrite elem_of_app, list_elem_of_singleton. tauto.
  - apply Hin in E; [| done]. split; [by right | intros [-> |]; done].
Qed.

Lemma set_clear_flags l m j :
  (∀ k, k ∈ l → 0 <= index k < Z.of_nat (length m)) → 0 <= index j →
  get index 0 (foldl (λ m k, set index m k 0) m l) j ≠ 0 →
  get index 0 m j ≠ 0 ∧ j ∉ l.
Proof.
  revert m. induction l as [| k l IH]; intros m Hl Hj; simpl.
  - intros H. split; [done | apply not_elem_of_nil].
  - intros H. apply IH in H as [H1 H2]; [| | done].
    + unfold get, set in H1. rewrite zget_zset in H1 by (apply Hl; by left).
      case_decide as Hd; [done |]. split; [done |].
      rewrite not_elem_of_cons. split; [congruence | done].
    + intros x Hx. unfold set. rewrite length_zset. apply Hl. by right.
Qed.

Lemma set_clear_wf s : set_wf index s →
  set_wf index (set_clear index s) ∧ xs (set_clear index s) = [].
Proof.
  intros (Hnd & Hr & Hin). split; [| done]. split; [apply NoDup_nil_2 |]. split; simpl.
  - intros k Hk. by apply elem_of_nil in Hk.
  - intros k Hk. split; [| intros Hx; by apply elem_of_nil in Hx].
    intros H. apply set_clear_flags in H as [H1 H2]; [| done ..].
    apply Hin in H1; done.
Qed.
End Facts.

End IntMap.
