(* ===== verification/Heap.v ===== *)
(** * [Mini::Heap]: the binary heap of decision variables

    [mtl/Heap.h].  A heap is the array of its keys together with the map
    [indices] from a key to its position (or -1).  The keys are variables
    (integers), as in every instance of the template.  [lt] is the comparator
    object [Comp lt]; [VarOrderLt] of the solver is one. *)
From Stdlib Require Import Sorting.Sorted.
From S2P Require Import Prelude Lit Vec.

Record Heap := MkHeap { heap : list Z; indices : list Z }.

(** ** Operations *)

Definition left (i : nat) : nat := i * 2 + 1.

Definition right (i : nat) : nat := (i + 1) * 2.

(** [(i - 1) >> 1]; only used for [i > 0]. *)
Definition parent (i : nat) : nat := Nat.div2 (i - 1).

Definition index_of (h : Heap) (k : Z) : Z := zget (-1) (indices h) k.

Definition heap_size (h : Heap) : Z := Z.of_nat (length (heap h)).

Definition heap_empty (h : Heap) : bool := heap_size h =? 0.

(** [inHeap(k)]: [indices.has(k) && indices[k] >= 0]. *)
Definition inHeap (h : Heap) (k : Z) : bool :=
  (k <? Z.of_nat (length (indices h))) && (0 <=? index_of h k).

Section Ops.
Context (lt : Z → Z → bool).

(** The loop of [percolateUp]: the hole is at [i], the moving key is [x]. *)
Fixpoint up_loop (fuel : nat) (x : Z) (h idx : list Z) (i : nat) : Heap :=
  let p := parent i in
  match fuel with
  | S fuel =>
      if negb (Nat.eqb i 0) && lt x (h !!! p)
      then up_loop fuel x (<[i := h !!! p]> h) (zset idx (h !!! p) (Z.of_nat i)) p
      else MkHeap (<[i := x]> h) (zset idx x (Z.of_nat i))
  | O => MkHeap (<[i := x]> h) (zset idx x (Z.of_nat i))
  end.

Definition percolateUp (h : Heap) (i : nat) : Heap :=
  up_loop i (heap h !!! i) (heap h) (indices h) i.

(** The smaller child of [i], as [percolateDown] picks it. *)
Definition min_child (h : list Z) (i : nat) : nat :=
  if Nat.ltb (right i) (length h) && lt (h !!! right i) (h !!! left i)
  then right i else left i.

Fixpoint down_loop (fuel : nat) (x : Z) (h idx : list Z) (i : nat) : Heap :=
  match fuel with
  | S fuel =>
      if Nat.ltb (left i) (length h) then
        let child := min_child h i in
        if negb (lt (h !!! child) x) then MkHeap (<[i := x]> h) (zset idx x (Z.of_nat i))
        else down_loop fuel x (<[i := h !!! child]> h)
               (zset idx (h !!! child) (Z.of_nat i)) child
      else MkHeap (<[i := x]> h) (zset idx x (Z.of_nat i))
  | O => MkHeap (<[i := x]> h) (zset idx x (Z.of_nat i))
  end.

Definition percolateDown (h : Heap) (i : nat) : Heap :=
  down_loop (length (heap h)) (heap h !!! i) (heap h) (indices h) i.

Definition decrease (h : Heap) (k : Z) : Heap := percolateUp h (Z.to_nat (index_of h k)).

Definition increase (h : Heap) (k : Z) : Heap := percolateDown h (Z.to_nat (index_of h k)).

(** [insert(k)]: [indices.reserve(k, -1)] first. *)
Definition insert (h : Heap) (k : Z) : Heap :=
  let idx := IntMap.reserve id (indices h) k (-1) in
  let i := length (heap h) in
  percolateUp (MkHeap (heap h ++ [k]) (zset idx k (Z.of_nat i))) i.

Definition update (h : Heap) (k : Z) : Heap :=
  if inHeap h k
  then let h' := percolateUp h (Z.to_nat (index_of h k)) in
       percolateDown h' (Z.to_nat (index_of h' k))
  else insert h k.

(** [remove(k)]: the last key takes the place of [k] and sinks. *)
Definition remove (h : Heap) (k : Z) : Heap :=
  let k_pos := Z.to_nat (index_of h k) in
  let idx := zset (indices h) k (-1) in
  if Nat.ltb k_pos (length (heap h) - 1) then
    let l := heap h !!! (length (heap h) - 1)%nat in
    percolateDown (MkHeap (removelast (<[k_pos := l]> (heap h)))
                          (zset idx l (Z.of_nat k_pos))) k_pos
  else MkHeap (removelast (heap h)) idx.

(** [removeMin()]: only called on a non-empty heap. *)
Definition removeMin (h : Heap) : Z * Heap :=
  let x := heap h !!! 0%nat in
  let l := heap h !!! (length (heap h) - 1)%nat in
  let h' := MkHeap (removelast (<[0%nat := l]> (heap h)))
                   (zset (zset (indices h) l 0) x (-1)) in
  (x, if Nat.ltb 1 (length (heap h')) then percolateDown h' 0 else h').

(** [build(ns)]: loads [ns] and restores the order bottom up. *)
Fixpoint load (ns : list Z) (i : nat) (idx : list Z) : list Z :=
  match ns with
  | [] => idx
  | n :: ns => load ns (S i) (zset idx n (Z.of_nat i))
  end.

Fixpoint heapify (n : nat) (h : Heap) : Heap :=
  match n with
  | O => h
  | S i => heapify i (percolateDown h i)
  end.

Definition build (h : Heap) (ns : list Z) : Heap :=
  let idx := foldl (λ m k, zset m k (-1)) (indices h) (heap h) in
  heapify (length ns / 2) (MkHeap ns (load ns 0 idx)).

(** [clear()]. *)
Definition clear (h : Heap) : Heap :=
  MkHeap [] (foldl (λ m k, zset m k (-1)) (indices h) (heap h)).
End Ops.

(** ** Invariants *)

(** [indices] is the inverse of [heap]. *)
Record idx_ok (h idx : list Z) : Prop := {
  ok_nodup : NoDup h;
  ok_pos : ∀ j k, h !! j = Some k →
    0 <= k < Z.of_nat (length idx) ∧ zget (-1) idx k = Z.of_nat j;
  ok_out : ∀ k, k ∉ h → zget (-1) idx k = -1 }.

(** [indices] is right everywhere except possibly for the key at [i]. *)
Record idx_hole (h idx : list Z) (i : nat) : Prop := {
  hole_nodup : NoDup h;
  hole_pos : ∀ j k, h !! j = Some k →
    0 <= k < Z.of_nat (length idx) ∧ (j ≠ i → zget (-1) idx k = Z.of_nat j);
  hole_out : ∀ k, k ∉ h → zget (-1) idx k = -1 }.

(** The heap order below the positions from [b] on. *)
Definition ordered_from (lt : Z → Z → bool) (b : nat) (h : list Z) : Prop :=
  ∀ j x y, (0 < j)%nat → (b <= parent j)%nat →
    h !! j = Some x → h !! parent j = Some y → lt x y = false.

Definition ordered lt h := ordered_from lt 0 h.

(** The order with a key at [i] that may be too small for its place. *)
Definition ordered_up (lt : Z → Z → bool) (h : list Z) (i : nat) : Prop :=
  (∀ j x y, (0 < j)%nat → j ≠ i → h !! j = Some x → h !! parent j = Some y → lt x y = false) ∧
  (∀ j x y, (0 < j)%nat → parent j = i → (0 < i)%nat →
     h !! j = Some x → h !! parent i = Some y → lt x y = false).

(** The order with a key at [i] that may be too large for its place. *)
Definition ordered_down (lt : Z → Z → bool) (b : nat) (h : list Z) (i : nat) : Prop :=
  (∀ j x y, (0 < j)%nat → (b <= parent j)%nat → parent j ≠ i →
     h !! j = Some x → h !! parent j = Some y → lt x y = false) ∧
  (∀ j x y, (0 < j)%nat → parent j = i → (0 < i)%nat → (b <= parent i)%nat →
     h !! j = Some x → h !! parent i = Some y → lt x y = false).

Definition wf (lt : Z → Z → bool) (h : Heap) : Prop :=
  idx_ok (heap h) (indices h) ∧ ordered lt (heap h).

(** ** Positions *)

Lemma parent_left i : parent (left i) = i.
Proof. unfold parent, left. replace (i * 2 + 1 - 1)%nat with (2 * i)%nat by lia. apply Nat.div2_double. Qed.

Lemma parent_right i : parent (right i) = i.
Proof.
  unfold parent, right. replace ((i + 1) * 2 - 1)%nat with (S (2 * i)) by lia.
  apply Nat.div2_succ_double.
Qed.

Lemma parent_lt i : (0 < i)%nat → (parent i < i)%nat.
Proof. intros H. unfold parent. pose proof (Nat.div2_decr (i - 1) (i - 1)). lia. Qed.

Lemma parent_inv i j : (0 < j)%nat → parent j = i → j = left i ∨ j = right i.
Proof.
  intros Hj <-. unfold parent, left, right.
  pose proof (Nat.div2_odd (j - 1)) as E. destruct (Nat.odd (j - 1)); simpl in E; lia.
Qed.

Lemma child_gt i : (i < left i)%nat ∧ (i < right i)%nat.
Proof. unfold left, right. lia. Qed.

(** ** Moving the hole *)

Section Swap.
Implicit Types (h idx : list Z) (i c : nat).

(** The array after the key of [c] moved into the hole [i]. *)
Definition swapped h i c (x y : Z) := <[c := x]> (<[i := y]> h).

Lemma lookup_swapped h i c x y j : (i < length h)%nat → (c < length h)%nat → i ≠ c →
  swapped h i c x y !! j =
    if decide (j = c) then Some x else if decide (j = i) then Some y else h !! j.
Proof.
  intros Hi Hc Hne. unfold swapped. repeat case_decide; subst.
  - rewrite list_lookup_insert_eq; [done | by rewrite length_insert].
  - rewrite list_lookup_insert_ne by done. by rewrite list_lookup_insert_eq.
  - by rewrite !list_lookup_insert_ne by done.
Qed.

Lemma swapped_perm h i c x y : h !! i = Some x → h !! c = Some y → i ≠ c →
  swapped h i c x y ≡ₚ h.
Proof.
  intros Hi Hc Hne. apply Permutation_inj.
  assert (i < length h)%nat by by eapply lookup_lt_Some.
  assert (c < length h)%nat by by eapply lookup_lt_Some.
  split; [unfold swapped; by rewrite !length_insert |].
  exists (λ j, if decide (j = c) then i else if decide (j = i) then c else j). split.
  - intros a b. repeat case_decide; intros; subst; congruence.
  - intros j. rewrite lookup_swapped by done. repeat case_decide; subst; congruence.
Qed.

Lemma idx_hole_swap h idx i c x y :
  idx_hole h idx i → h !! i = Some x → h !! c = Some y → i ≠ c →
  idx_hole (swapped h i c x y) (zset idx y (Z.of_nat i)) c.
Proof.
  intros [Hnd Hp Ho] Hi Hc Hne. pose proof (swapped_perm h i c x y Hi Hc Hne) as Hperm.
  assert (i < length h)%nat by by eapply lookup_lt_Some.
  assert (c < length h)%nat by by eapply lookup_lt_Some.
  split.
  - by rewrite Hperm.
  - intros j k. rewrite lookup_swapped by done. rewrite length_zset.
    repeat case_decide; subst; intros Hk.
    + injection Hk as <-. destruct (Hp _ _ Hi). split; [lia | done].
    + injection Hk as <-. destruct (Hp _ _ Hc) as [Hr _]. split; [lia |].
      intros _. by rewrite zget_zset_eq.
    + destruct (Hp _ _ Hk) as [Hr Hj]. split; [lia |]. intros _.
      rewrite zget_zset_ne; [by apply Hj |]. intros <-.
      eapply NoDup_lookup in Hk; [| done | exact Hc]. congruence.
  - intros k Hk. rewrite Hperm in Hk. rewrite zget_zset_ne; [by apply Ho |].
    intros ->. apply Hk. by eapply list_elem_of_lookup_2.
Qed.

Lemma idx_hole_close h idx i x : idx_hole h idx i → h !! i = Some x →
  idx_ok h (zset idx x (Z.of_nat i)).
Proof.
  intros [Hnd Hp Ho] Hi. split; [done | |].
  - intros j k Hk. rewrite length_zset. destruct (Hp _ _ Hk) as [Hr Hj].
    split; [done |]. destruct (decide (j = i)) as [-> | Hne].
    + assert (k = x) as -> by congruence. by rewrite zget_zset_eq.
    + rewrite zget_zset_ne; [by apply Hj |]. intros ->.
      eapply NoDup_lookup in Hk; [| done | exact Hi]. congruence.
  - intros k Hk. rewrite zget_zset_ne; [by apply Ho |]. intros ->.
    apply Hk. by eapply list_elem_of_lookup_2.
Qed.

Lemma idx_ok_hole h idx i : idx_ok h idx → idx_hole h idx i.
Proof. intros [? Hp ?]. split; [done | | done]. intros j k Hk. apply Hp in Hk as [Hr Hz]. by split. Qed.
End Swap.

#[local] Hint Resolve swapped_perm idx_hole_swap idx_hole_close idx_ok_hole : parsat.

Lemma list_insert_total (h : list Z) (i : nat) :
  (i < length h)%nat → <[i := h !!! i]> h = h.
Proof. intros H. apply list_insert_id. by apply list_lookup_lookup_total_lt. Qed.

Section Percolate.
Context (lt : Z → Z → bool) `{!StrictWeakOrder lt}.
Implicit Types (h idx : list Z).

Lemma ordered_up_swap h i x y :
  ordered_up lt h i → (0 < i)%nat → h !! i = Some x → h !! parent i = Some y →
  lt x y = true → ordered_up lt (swapped h i (parent i) x y) (parent i).
Proof.
  intros [Ha Hb] Hi Hx Hy Hlt. pose proof (parent_lt i Hi) as Hpi.
  assert (i < length h)%nat by by eapply lookup_lt_Some.
  assert (parent i < length h)%nat by lia.
  pose proof (swo_asym _ _ Hlt) as Hasym.
  split; intros j a b Hj Hjp; rewrite !lookup_swapped by lia;
    pose proof (parent_lt j Hj) as Hpj.
  - destruct (decide (j = parent i)) as [| _]; [done |].
    destruct (decide (j = i)) as [-> | Hji].
    + destruct (decide (parent i = parent i)) as [_ | ?]; [| done]. by intros [= <-] [= <-].
    + intros Hja. repeat case_decide; intros Hjb.
      * injection Hjb as <-. apply (swo_ntrans _ y); [| done].
        eapply (Ha j); [done .. | congruence].
      * injection Hjb as <-. by eapply (Hb j).
      * by eapply (Ha j).
  - intros Hp0. pose proof (parent_lt (parent i) Hp0) as Hpp.
    destruct (decide (parent (parent i) = parent i)) as [| _]; [lia |].
    destruct (decide (parent (parent i) = i)) as [| _]; [lia |].
    assert (∀ z, h !! parent (parent i) = Some z → lt y z = false) as Hyz.
    { intros z Hz. apply (Ha (parent i) y z); try done; lia. }
    repeat case_decide; subst; try lia.
    + intros [= <-] Hz. by apply Hyz.
    + intros Hja Hz. apply (swo_ntrans _ y); [| by apply Hyz].
      eapply (Ha j); [done | done | done | congruence].
Qed.

Lemma ordered_up_done h i :
  ordered_up lt h i →
  (i = 0%nat ∨ ∀ x y, h !! i = Some x → h !! parent i = Some y → lt x y = false) →
  ordered lt h.
Proof.
  intros [Ha _] Hi j x y Hj _ Hx Hy.
  destruct (decide (j = i)) as [-> | Hne]; [| by eapply Ha].
  destruct Hi as [-> | Hi]; [lia | by apply Hi].
Qed.

Lemma up_loop_spec fuel x h idx i :
  (i <= fuel)%nat → (i < length h)%nat →
  idx_hole (<[i := x]> h) idx i → ordered_up lt (<[i := x]> h) i →
  let r := up_loop lt fuel x h idx i in
  wf lt r ∧ heap r ≡ₚ <[i := x]> h ∧ length (indices r) = length idx.
Proof.
  revert h idx i. induction fuel as [| fuel IH]; intros h idx i Hf Hi Hidx Hord; simpl.
  - assert (i = 0%nat) as -> by lia. split; [| split; [done | apply length_zset]].
    split; simpl; [| by apply (ordered_up_done _ 0); [| by left]].
    eapply idx_hole_close; [done |]. by rewrite list_lookup_insert_eq.
  - assert (Hx : <[i := x]> h !! i = Some x) by by rewrite list_lookup_insert_eq.
    destruct (negb (i =? 0)%nat && lt x (h !!! parent i)) eqn:E.
    + zbool. apply Nat.eqb_neq in H. pose proof (parent_lt i ltac:(lia)).
      assert (Hy : <[i := x]> h !! parent i = Some (h !!! parent i)).
      { rewrite list_lookup_insert_ne by lia. apply list_lookup_lookup_total_lt. lia. }
      assert (Heq : <[parent i := x]> (<[i := h !!! parent i]> h)
                    = swapped (<[i := x]> h) i (parent i) x (h !!! parent i)).
      { unfold swapped. by rewrite list_insert_insert_eq. }
      edestruct (IH (<[i := h !!! parent i]> h) (zset idx (h !!! parent i) (Z.of_nat i)) (parent i))
        as (Hw & Hp & Hl); [lia | rewrite length_insert; lia | | |].
      * rewrite Heq. apply idx_hole_swap; [done .. | lia].
      * rewrite Heq. apply ordered_up_swap; [done | lia | done ..].
      * split; [done |]. split; [| by rewrite Hl, length_zset].
        rewrite Hp, Heq. apply swapped_perm; [done .. | lia].
    + split; [| split; [done | apply length_zset]]. split; simpl; [by eapply idx_hole_close |].
      apply (ordered_up_done _ i); [done |]. apply andb_false_iff in E as [E | E].
      * left. apply negb_false_iff, Nat.eqb_eq in E. done.
      * destruct (decide (i = 0%nat)) as [-> | Hi0]; [by left | right].
        pose proof (parent_lt i ltac:(lia)). intros a b. rewrite Hx.
        rewrite list_lookup_insert_ne by lia.
        rewrite list_lookup_lookup_total_lt by lia. by intros [= <-] [= <-].
Qed.

Lemma percolateUp_spec (h : Heap) i :
  (i < length (heap h))%nat → idx_hole (heap h) (indices h) i → ordered_up lt (heap h) i →
  let r := percolateUp lt h i in
  wf lt r ∧ heap r ≡ₚ heap h ∧ length (indices r) = length (indices h).
Proof.
  intros Hi Hidx Hord. unfold percolateUp.
  pose proof (up_loop_spec i (heap h !!! i) (heap h) (indices h) i) as Hs.
  rewrite list_insert_total in Hs by done. apply Hs; done.
Qed.

Lemma min_child_spec h i :
  (left i < length h)%nat →
  let c := min_child lt h i in
  (c = left i ∨ c = right i) ∧ (c < length h)%nat ∧
  ∀ j x, (0 < j)%nat → parent j = i → h !! j = Some x → lt x (h !!! c) = false.
Proof.
  intros Hl c. unfold c, min_child. clear c.
  assert (∀ x, lt x x = false) as Hirr.
  { intros x. destruct (lt x x) eqn:E; [| done]. by rewrite (swo_asym _ _ E) in E. }
  destruct (Nat.ltb (right i) (length h)) eqn:E1; simpl.
  - apply Nat.ltb_lt in E1. destruct (lt _ _) eqn:E2.
    + split; [by right |]. split; [done |]. intros j x Hj Hp Hx.
      destruct (parent_inv i j Hj Hp) as [-> | ->];
        apply list_lookup_total_correct in Hx as <-; [| done]. by apply swo_asym.
    + split; [by left |]. split; [done |]. intros j x Hj Hp Hx.
      destruct (parent_inv i j Hj Hp) as [-> | ->];
        apply list_lookup_total_correct in Hx as <-; done.
  - apply Nat.ltb_ge in E1. split; [by left |]. split; [done |]. intros j x Hj Hp Hx.
    destruct (parent_inv i j Hj Hp) as [-> | ->].
    + apply list_lookup_total_correct in Hx as <-. done.
    + apply lookup_lt_Some in Hx. lia.
Qed.

Lemma ordered_down_swap b h i c x y :
  ordered_down lt b h i → (b <= i)%nat → (0 < c)%nat → parent c = i →
  h !! i = Some x → h !! c = Some y → lt y x = true →
  (∀ j z, (0 < j)%nat → parent j = i → h !! j = Some z → lt z y = false) →
  ordered_down lt b (swapped h i c x y) c.
Proof.
  intros [Ha Hb] Hbi Hc Hpc Hx Hy Hlt Hmin.
  assert (i < length h)%nat by by eapply lookup_lt_Some.
  assert (c < length h)%nat by by eapply lookup_lt_Some.
  pose proof (parent_lt c Hc) as Hpl. pose proof (swo_asym _ _ Hlt) as Hasym.
  split; intros j a d Hj.
  - intros Hbj Hpj. rewrite !lookup_swapped by lia. pose proof (parent_lt j Hj).
    destruct (decide (parent j = c)) as [| _]; [done |].
    destruct (decide (j = c)) as [-> | Hjc].
    + intros [= <-]. destruct (decide (parent c = i)) as [_ |]; [| done]. by intros [= <-].
    + destruct (decide (j = i)) as [-> | Hji].
      * intros [= <-]. destruct (decide (parent i = i)) as [| _]; [lia |].
        intros Hd. by apply (Hb c).
      * intros Hja. destruct (decide (parent j = i)) as [Hji' | Hji'].
        -- intros [= <-]. by eapply Hmin.
        -- intros Hd. by eapply (Ha j).
  - intros Hpj Hc0 Hbc. rewrite !lookup_swapped by lia. pose proof (parent_lt j Hj).
    rewrite Hpc. destruct (decide (j = c)) as [| _]; [lia |].
    destruct (decide (j = i)) as [| _]; [lia |].
    destruct (decide (i = c)) as [| _]; [lia |].
    destruct (decide (i = i)) as [_ |]; [| done].
    intros Hja [= <-]. apply (Ha j); [done | lia | lia | done | congruence].
Qed.

Lemma ordered_down_done b h i :
  ordered_down lt b h i →
  (∀ j x y, (0 < j)%nat → parent j = i → h !! j = Some x → h !! i = Some y → lt x y = false) →
  ordered_from lt b h.
Proof.
  intros [Ha _] Hi j x y Hj Hb Hx Hy.
  destruct (decide (parent j = i)) as [<- | Hne]; [by eapply Hi | by eapply Ha].
Qed.

Lemma down_loop_spec b fuel x h idx i :
  (length h <= fuel + i)%nat → (i < length h)%nat → (b <= i)%nat →
  idx_hole (<[i := x]> h) idx i → ordered_down lt b (<[i := x]> h) i →
  let r := down_loop lt fuel x h idx i in
  idx_ok (heap r) (indices r) ∧ ordered_from lt b (heap r) ∧
  heap r ≡ₚ <[i := x]> h ∧ length (indices r) = length idx.
Proof.
  revert h idx i. induction fuel as [| fuel IH]; intros h idx i Hf Hi Hb Hidx Hord; simpl; [lia |].
  assert (Hx : <[i := x]> h !! i = Some x) by by rewrite list_lookup_insert_eq.
  destruct (child_gt i) as [Hgl Hgr].
  destruct (Nat.ltb (left i) (length h)) eqn:El.
  2:{ apply Nat.ltb_ge in El. cbn [heap indices]. split; [by eapply idx_hole_close |].
      split; [| split; [done | apply length_zset]]. apply (ordered_down_done b _ i); [done |].
      intros j a c Hj Hp Ha. apply lookup_lt_Some in Ha. rewrite length_insert in Ha.
      destruct (parent_inv i j Hj Hp) as [-> | ->]; unfold left, right in *; lia. }
  apply Nat.ltb_lt in El. pose proof (min_child_spec h i El) as (Hc & Hcl & Hmin).
  set (c := min_child lt h i) in *.
  assert (Hpc : parent c = i) by (destruct Hc as [-> | ->]; [apply parent_left | apply parent_right]).
  assert (Hci : (i < c)%nat) by (destruct Hc as [-> | ->]; lia).
  assert (Hy : <[i := x]> h !! c = Some (h !!! c)).
  { rewrite list_lookup_insert_ne by lia. by apply list_lookup_lookup_total_lt. }
  assert (Hmin' : ∀ j z, (0 < j)%nat → parent j = i → <[i := x]> h !! j = Some z →
                     lt z (h !!! c) = false).
  { intros j z Hj Hp. pose proof (parent_lt j Hj). rewrite list_lookup_insert_ne by lia.
    by apply Hmin. }
  destruct (negb (lt (h !!! c) x)) eqn:E; zbool.
  - cbn [heap indices]. split; [by eapply idx_hole_close |].
    split; [| split; [done | apply length_zset]]. apply (ordered_down_done b _ i); [done |]. intros j a d Hj Hp Ha.
    rewrite Hx. intros [= <-]. apply (swo_ntrans _ (h !!! c)); [by eapply Hmin' | done].
  - assert (Heq : <[c := x]> (<[i := h !!! c]> h) = swapped (<[i := x]> h) i c x (h !!! c))
      by (unfold swapped; by rewrite list_insert_insert_eq).
    edestruct (IH (<[i := h !!! c]> h) (zset idx (h !!! c) (Z.of_nat i)) c)
      as (H1 & H2 & H3 & H4); [rewrite length_insert; lia .. | lia | | |].
    + rewrite Heq. apply idx_hole_swap; [done .. | lia].
    + rewrite Heq. eapply ordered_down_swap; try done; lia.
    + split; [done |]. split; [done |]. split; [| by rewrite H4, length_zset].
      rewrite H3, Heq. apply swapped_perm; [done .. | lia].
Qed.

Lemma percolateDown_spec b (h : Heap) i :
  (i < length (heap h))%nat → (b <= i)%nat →
  idx_hole (heap h) (indices h) i → ordered_down lt b (heap h) i →
  let r := percolateDown lt h i in
  idx_ok (heap r) (indices r) ∧ ordered_from lt b (heap r) ∧
  heap r ≡ₚ heap h ∧ length (indices r) = length (indices h).
Proof.
  intros Hi Hb Hidx Hord. unfold percolateDown.
  pose proof (down_loop_spec b (length (heap h)) (heap h !!! i) (heap h) (indices h) i) as Hs.
  rewrite list_insert_total in Hs by done. apply Hs; done || lia.
Qed.
End Percolate.

(** ** The public operations *)

Lemma removelast_take {A} (l : list A) : removelast l = take (length l - 1) l.
Proof.
  destruct l as [| a l] using rev_ind; [done |].
  rewrite removelast_last, length_app, take_app_le by (simpl; lia).
  rewrite firstn_all2; [done | simpl; lia].
Qed.

(** [removelast] after overwriting position [i] with the last element takes
    the old element of [i] out. *)
Lemma removelast_fill_perm {A} `{Inhabited A} (l : list A) i x :
  l !! i = Some x → x :: removelast (<[i := l !!! (length l - 1)%nat]> l) ≡ₚ l.
Proof.
  destruct l as [| a l] using rev_ind; [done |]. clear IHl.
  rewrite length_app; simpl. replace (length l + 1 - 1)%nat with (length l) by lia.
  rewrite lookup_total_app_r, Nat.sub_diag by lia. simpl. intros Hi.
  destruct (decide (i < length l)%nat) as [Hlt | Hge].
  - rewrite insert_app_l, removelast_last by done. rewrite lookup_app_l in Hi by done.
    rewrite <- (take_drop_middle l i x Hi) at 2.
    rewrite (insert_take_drop l i a Hlt). solve_Permutation.
  - assert (i = length l) as ->.
    { apply lookup_lt_Some in Hi. rewrite length_app in Hi; simpl in Hi. lia. }
    rewrite lookup_app_r, Nat.sub_diag in Hi by lia. injection Hi as ->.
    rewrite insert_app_r_alt, Nat.sub_diag by lia. simpl.
    rewrite removelast_last. solve_Permutation.
Qed.

Section Public.
Context (lt : Z → Z → bool) `{!StrictWeakOrder lt}.
Implicit Types (h : Heap).

Lemma lt_irrefl x : lt x x = false.
Proof. destruct (lt x x) eqn:E; [| done]. by rewrite (swo_asym _ _ E) in E. Qed.

Lemma idx_ok_elem l idx k : idx_ok l idx → k ∈ l ↔ 0 <= zget (-1) idx k.
Proof.
  intros [_ Hp Ho]. split.
  - intros (j & Hj)%list_elem_of_lookup_1. apply Hp in Hj as [_ ->]. lia.
  - intros H. destruct (decide (k ∈ l)) as [| Hn]; [done |]. rewrite Ho in H by done. lia.
Qed.

Lemma idx_ok_position l idx k : idx_ok l idx → k ∈ l →
  l !! Z.to_nat (zget (-1) idx k) = Some k.
Proof.
  intros [_ Hp _] (j & Hj)%list_elem_of_lookup_1. destruct (Hp _ _ Hj) as [_ ->].
  by rewrite Nat2Z.id.
Qed.

Lemma inHeap_elem h k : idx_ok (heap h) (indices h) → inHeap h k = true ↔ k ∈ heap h.
Proof.
  intros Hok. unfold inHeap, index_of. rewrite andb_true_iff, Z.ltb_lt, Z.leb_le.
  rewrite <- (idx_ok_elem _ _ _ Hok). split; [by intros [] |]. intros Hk. split; [| done].
  apply list_elem_of_lookup_1 in Hk as (j & Hj). apply (ok_pos _ _ Hok) in Hj. lia.
Qed.

(** The root is minimal. *)
Lemma ordered_root l x y : ordered lt l → l !! 0%nat = Some x → y ∈ l → lt y x = false.
Proof.
  intros Ho Hx (j & Hj)%list_elem_of_lookup_1. revert y Hj.
  induction j as [j IH] using lt_wf_ind. intros y Hj.
  destruct (decide (j = 0%nat)) as [-> | Hj0].
  - replace y with x by congruence. apply lt_irrefl.
  - pose proof (parent_lt j ltac:(lia)) as Hp.
    destruct (lookup_lt_is_Some_2 l (parent j)) as [z Hz].
    { apply lookup_lt_Some in Hj. lia. }
    apply (swo_ntrans _ z); [| by apply (IH (parent j))].
    eapply Ho; [| | exact Hj | exact Hz]; lia.
Qed.

Lemma ordered_up_of_ordered l i : ordered lt l → ordered_up lt l i.
Proof.
  intros Ho. split; intros j x y Hj.
  - intros _ Hx Hy. eapply Ho; [done | lia | done | done].
  - intros Hp Hi Hx Hy. destruct (lookup_lt_is_Some_2 l i) as [z Hz].
    { apply lookup_lt_Some in Hx. pose proof (parent_lt j Hj). lia. }
    apply (swo_ntrans _ z); [| eapply (Ho i); [done | lia | done | done]].
    eapply (Ho j); [done | lia | done | congruence].
Qed.

Lemma ordered_snoc_up l k : ordered lt l → ordered_up lt (l ++ [k]) (length l).
Proof.
  intros Ho. split; intros j x y Hj.
  - intros Hne Hx Hy. pose proof (parent_lt j Hj).
    assert (j < length l)%nat.
    { apply lookup_lt_Some in Hx. rewrite length_app in Hx; simpl in Hx. lia. }
    rewrite lookup_app_l in Hx, Hy by lia. eapply Ho; [done | lia | done | done].
  - intros Hp _ Hx. pose proof (parent_lt j Hj). apply lookup_lt_Some in Hx.
    rewrite length_app in Hx; simpl in Hx. lia.
Qed.

(** The array of [insert] before the new key rises. *)
Lemma insert_idx_ok h k : idx_ok (heap h) (indices h) → k ∉ heap h → 0 <= k →
  idx_ok (heap h ++ [k])
    (zset (IntMap.reserve id (indices h) k (-1)) k (Z.of_nat (length (heap h)))).
Proof.
  intros Hok Hni Hk0. set (idx := IntMap.reserve id (indices h) k (-1)).
  assert (Hg : ∀ j, zget (-1) idx j = zget (-1) (indices h) j).
  { intros j. unfold idx, IntMap.reserve. rewrite IntMap.zget_grow_to.
    case_decide; [| done]. unfold zget. destruct (_ <? 0); [done |].
    by rewrite lookup_ge_None_2 by lia. }
  assert (Hlen : Z.of_nat (length idx) = Z.max (Z.of_nat (length (indices h))) (k + 1)).
  { unfold idx, IntMap.reserve. rewrite IntMap.length_grow_to. unfold id. lia. }
  split.
  - apply NoDup_app. split; [apply Hok |]. split; [| apply NoDup_singleton].
    intros x Hx ->%list_elem_of_singleton. done.
  - intros j x. rewrite length_zset. intros [Hx | [Hge Hx]]%lookup_app_Some.
    + destruct (ok_pos _ _ Hok _ _ Hx) as [Hr Hz]. split; [lia |].
      rewrite zget_zset_ne; [by rewrite Hg |]. intros <-.
      apply Hni. by eapply list_elem_of_lookup_2.
    + apply list_lookup_singleton_Some in Hx as [Hj <-]. split; [lia |].
      rewrite zget_zset_eq by lia. f_equal. lia.
  - intros x Hx. rewrite elem_of_app, list_elem_of_singleton in Hx.
    rewrite zget_zset_ne by naive_solver. rewrite Hg. apply (ok_out _ _ Hok). naive_solver.
Qed.

Lemma insert_spec h k : wf lt h → inHeap h k = false → 0 <= k →
  wf lt (insert lt h k) ∧ heap (insert lt h k) ≡ₚ k :: heap h.
Proof.
  intros [Hok Ho] Hk Hk0. unfold insert. cbn zeta.
  assert (k ∉ heap h) as Hni by (rewrite <- inHeap_elem by done; by rewrite Hk).
  edestruct (percolateUp_spec lt (MkHeap (heap h ++ [k])
    (zset (IntMap.reserve id (indices h) k (-1)) k (Z.of_nat (length (heap h))))) (length (heap h)))
    as (Hw & Hp & _); cbn [heap indices] in *.
  - rewrite length_app; simpl; lia.
  - by apply idx_ok_hole, insert_idx_ok.
  - by apply ordered_snoc_up.
  - split; [done |]. rewrite Hp. solve_Permutation.
Qed.

(** [decrease] after the order of one key improved, as an activity bump does. *)
Lemma decrease_spec lt0 h k `{!StrictWeakOrder lt0} :
  wf lt0 h → k ∈ heap h →
  (∀ x y, x ≠ k → y ≠ k → lt x y = lt0 x y) →
  (∀ x, x ≠ k → lt0 x k = false → lt x k = false) →
  wf lt (decrease lt h k) ∧ heap (decrease lt h k) ≡ₚ heap h.
Proof.
  intros [Hok Ho] Hk Hsame Hless. unfold decrease, index_of.
  pose proof (idx_ok_position _ _ _ Hok Hk) as Hpos.
  set (i := Z.to_nat (zget (-1) (indices h) k)) in *.
  edestruct (percolateUp_spec lt h i) as (Hw & Hp & _).
  - by eapply lookup_lt_Some.
  - by apply idx_ok_hole.
  - assert (Hne : ∀ j x, j ≠ i → heap h !! j = Some x → x ≠ k).
    { intros j x Hj Hx ->. apply Hj. eapply NoDup_lookup; [apply Hok | done | done]. }
    split; intros j x y Hj.
    + intros Hji Hx Hy. pose proof (Hne j x Hji Hx).
      assert (lt0 x y = false) as E by (eapply Ho; [done | lia | done | done]).
      destruct (decide (y = k)) as [-> | Hy']; [by apply Hless | by rewrite Hsame].
    + intros Hpj Hi Hx Hy. pose proof (parent_lt j Hj). pose proof (parent_lt i Hi).
      assert (x ≠ k) by (eapply (Hne j); [lia | done]).
      assert (y ≠ k) by (eapply (Hne (parent i)); [lia | done]).
      rewrite Hsame by done. apply (swo_ntrans _ k).
      * eapply (Ho j); [done | lia | done | congruence].
      * eapply (Ho i); [done | lia | done | done].
  - by split.
Qed.

(** The array of [removeMin] once the last key sits at the root. *)
Lemma fill_root_lookup (l : list Z) m j : (0 < length l)%nat →
  removelast (<[0%nat := m]> l) !! j =
    if decide (j < length l - 1)%nat then if decide (j = 0%nat) then Some m else l !! j else None.
Proof.
  intros Hl. rewrite removelast_take, length_insert. case_decide as Hj.
  - rewrite lookup_take_lt by done. case_decide; subst.
    + by apply list_lookup_insert_eq.
    + by rewrite list_lookup_insert_ne.
  - by apply lookup_take_ge; lia.
Qed.

Lemma removeMin_idx h x : idx_ok (heap h) (indices h) → heap h !! 0%nat = Some x →
  let m := heap h !!! (length (heap h) - 1)%nat in
  idx_ok (removelast (<[0%nat := m]> (heap h))) (zset (zset (indices h) m 0) x (-1)).
Proof.
  intros Hok Hx m. assert (Hl : (0 < length (heap h))%nat) by by eapply lookup_lt_Some.
  assert (Hm : heap h !! (length (heap h) - 1)%nat = Some m).
  { apply list_lookup_lookup_total_lt. lia. }
  destruct (ok_pos _ _ Hok _ _ Hx) as [Hxr _]. destruct (ok_pos _ _ Hok _ _ Hm) as [Hmr _].
  pose proof (removelast_fill_perm (heap h) 0 x Hx) as Hperm. fold m in Hperm.
  pose proof (ok_nodup _ _ Hok) as Hnd. rewrite <- Hperm in Hnd.
  apply NoDup_cons in Hnd as [Hxn Hnd]. split; [done | |].
  - intros j k Hj. pose proof Hj as Hel%list_elem_of_lookup_2. rewrite !length_zset.
    assert (x ≠ k) as Hxk by (intros ->; done).
    rewrite zget_zset_ne by done. rewrite fill_root_lookup in Hj by done.
    repeat case_decide; simplify_eq.
    + split; [done |]. by rewrite zget_zset_eq.
    + destruct (ok_pos _ _ Hok _ _ Hj) as [Hr Hz]. split; [done |].
      rewrite zget_zset_ne; [done |]. intros <-.
      eapply NoDup_lookup in Hj; [| apply Hok | exact Hm]. lia.
  - intros k Hk. destruct (decide (x = k)) as [-> | Hne].
    + rewrite zget_zset_eq; [done |]. by rewrite length_zset.
    + rewrite zget_zset_ne by done.
      assert (k ∉ heap h) as Hkn.
      { rewrite <- Hperm. rewrite not_elem_of_cons. by split. }
      rewrite zget_zset_ne; [by apply (ok_out _ _ Hok) |].
      intros <-. apply Hkn. by eapply list_elem_of_lookup_2.
Qed.

Lemma removeMin_spec h : wf lt h → heap h ≠ [] →
  let '(x, h') := removeMin lt h in
  wf lt h' ∧ heap h ≡ₚ x :: heap h' ∧ ∀ y, y ∈ heap h → lt y x = false.
Proof.
  intros [Hok Ho] Hne. unfold removeMin.
  assert (Hl : (0 < length (heap h))%nat) by (destruct (heap h); simpl; [done | lia]).
  set (x := heap h !!! 0%nat). set (m := heap h !!! (length (heap h) - 1)%nat).
  assert (Hx : heap h !! 0%nat = Some x) by by apply list_lookup_lookup_total_lt.
  set (h1 := MkHeap (removelast (<[0%nat := m]> (heap h))) (zset (zset (indices h) m 0) x (-1))).
  assert (Hperm : heap h ≡ₚ x :: heap h1)
    by (symmetry; apply (removelast_fill_perm (heap h) 0 x Hx)).
  assert (Hok1 : idx_ok (heap h1) (indices h1)) by by apply removeMin_idx.
  assert (Hmin : ∀ y, y ∈ heap h → lt y x = false) by (intros y; by apply ordered_root).
  assert (Hd : ordered_down lt 0 (heap h1) 0).
  { split; [| lia]. intros j a b Hj _ Hp. cbn [heap h1].
    pose proof (parent_lt j Hj). rewrite !fill_root_lookup by done.
    repeat case_decide; try done; try lia. intros Ha Hb. eapply (Ho j); [done | lia | done | done]. }
  destruct (Nat.ltb_spec 1 (length (heap h1))).
  - edestruct (percolateDown_spec lt 0 h1 0) as (H1 & H2 & H3 & _);
      [lia | lia | by apply idx_ok_hole | done |].
    split; [by split |]. split; [by rewrite H3 | done].
  - split; [| by split]. split; [done |]. intros j a b Hj _ Ha.
    apply lookup_lt_Some in Ha. lia.
Qed.

(** *** [build] *)

Lemma reset_none l idx k : (∀ j, j ∈ l → 0 <= j < Z.of_nat (length idx)) →
  zget (-1) (foldl (λ m k, zset m k (-1)) idx l) k =
    if decide (k ∈ l) then -1 else zget (-1) idx k.
Proof.
  revert idx. induction l as [| a l IH]; intros idx Hr; simpl.
  - done.
  - rewrite IH by (intros j Hj; rewrite length_zset; apply Hr; by right).
    rewrite zget_zset by (apply Hr; by left).
    repeat case_decide; try done; rewrite elem_of_cons in *; intuition congruence.
Qed.

Lemma length_reset l idx : length (foldl (λ m k, zset m k (-1)) idx l) = length idx.
Proof. revert idx. induction l as [| a l IH]; intros idx; simpl; [done |]. by rewrite IH, length_zset. Qed.

Lemma load_spec ns i idx :
  NoDup ns → (∀ k, k ∈ ns → 0 <= k < Z.of_nat (length idx)) →
  length (load ns i idx) = length idx ∧
  (∀ j k, ns !! j = Some k → zget (-1) (load ns i idx) k = Z.of_nat (i + j)) ∧
  (∀ k, k ∉ ns → zget (-1) (load ns i idx) k = zget (-1) idx k).
Proof.
  revert i idx. induction ns as [| n ns IH]; intros i idx Hnd Hr; simpl; [done |].
  apply NoDup_cons in Hnd as [Hn Hnd].
  destruct (IH (S i) (zset idx n (Z.of_nat i))) as (H1 & H2 & H3); [done | |].
  { intros k Hk. rewrite length_zset. apply Hr. by right. }
  split; [by rewrite H1, length_zset |]. split.
  - intros [| j] k; simpl; [intros [= <-] | intros Hk].
    + rewrite H3 by done. rewrite zget_zset_eq; [f_equal; lia | apply Hr; by left].
    + rewrite (H2 j k Hk). f_equal; lia.
  - intros k [Hk1 Hk2]%not_elem_of_cons. rewrite H3 by done. by rewrite zget_zset_ne by congruence.
Qed.

Lemma heapify_spec n h : (n <= length (heap h))%nat →
  idx_ok (heap h) (indices h) → ordered_from lt n (heap h) →
  wf lt (heapify lt n h) ∧ heap (heapify lt n h) ≡ₚ heap h.
Proof.
  revert h. induction n as [| i IH]; intros h Hn Hok Ho; simpl; [by split |].
  edestruct (percolateDown_spec lt i h i) as (H1 & H2 & H3 & _);
    [lia | lia | by apply idx_ok_hole | |].
  { split; intros j x y Hj.
    - intros Hb Hp. apply Ho; [done | lia].
    - intros _ Hi Hb. pose proof (parent_lt i Hi). lia. }
  edestruct (IH (percolateDown lt h i)) as [Hw Hp]; [| done | done |].
  - rewrite H3. lia.
  - split; [done | by rewrite Hp].
Qed.

(** The array of [build] before the order is restored. *)
Lemma build_idx_ok h ns : idx_ok (heap h) (indices h) → NoDup ns →
  (∀ k, k ∈ ns → 0 <= k < Z.of_nat (length (indices h))) →
  let idx := load ns 0 (foldl (λ m k, zset m k (-1)) (indices h) (heap h)) in
  idx_ok ns idx ∧ length idx = length (indices h).
Proof.
  intros Hok Hnd Hr. set (idx := foldl _ _ _).
  assert (Hlen : length idx = length (indices h)) by apply length_reset.
  assert (Hidx : ∀ k, zget (-1) idx k = -1).
  { intros k. unfold idx. rewrite reset_none.
    - case_decide; [done | by apply (ok_out _ _ Hok)].
    - intros j (p & Hp)%list_elem_of_lookup_1. by apply (ok_pos _ _ Hok) in Hp as [? _]. }
  destruct (load_spec ns 0 idx Hnd) as (H1 & H2 & H3); [by setoid_rewrite Hlen |].
  split; [| simpl; congruence]. split; [done | |].
  - intros j k Hj. rewrite H1, Hlen. split; [apply Hr; by eapply list_elem_of_lookup_2 |].
    by apply H2.
  - intros k Hk. by rewrite H3.
Qed.

Lemma build_spec h ns : idx_ok (heap h) (indices h) → NoDup ns →
  (∀ k, k ∈ ns → 0 <= k < Z.of_nat (length (indices h))) →
  wf lt (build lt h ns) ∧ heap (build lt h ns) ≡ₚ ns.
Proof.
  intros Hok Hnd Hr. unfold build.
  apply heapify_spec; cbn [heap indices].
  - pose proof (Nat.div_mod_eq (length ns) 2). lia.
  - by apply build_idx_ok.
  - intros j x y Hj Hb Hx. apply lookup_lt_Some in Hx. unfold parent in Hb.
    pose proof (Nat.div2_odd (j - 1)) as E. pose proof (Nat.div_mod_eq (length ns) 2).
    pose proof (Nat.mod_upper_bound (length ns) 2). destruct (Nat.odd _); simpl in E; lia.
Qed.
End Public.

(** ** Any comparator

    Whatever the comparator does, the operations keep the array and [indices]
    inverse to each other and neither lose nor invent keys. *)
Section Any_order.
Context (lt : Z → Z → bool).
Implicit Types (h : Heap).

(** [h'] holds the keys [ks], with an index map of the length of [idx]. *)
Definition holds_keys (h : Heap) (ks idx : list Z) : Prop :=
  idx_ok (heap h) (indices h) ∧ heap h ≡ₚ ks ∧ length (indices h) = length idx.

Lemma close_hole l idx i x : (i < length l)%nat → idx_hole (<[i := x]> l) idx i →
  holds_keys (MkHeap (<[i := x]> l) (zset idx x (Z.of_nat i))) (<[i := x]> l) idx.
Proof.
  intros Hi Hidx. split; [| split; [done | apply length_zset]]. cbn [heap indices].
  eapply idx_hole_close; [done |]. by rewrite list_lookup_insert_eq.
Qed.

(** One step of either loop: the key of [c] moves into the hole at [i]. *)
Lemma move_hole l idx i c x h : (i < length l)%nat → (c < length l)%nat → i ≠ c →
  idx_hole (<[i := x]> l) idx i →
  (idx_hole (<[c := x]> (<[i := l !!! c]> l)) (zset idx (l !!! c) (Z.of_nat i)) c →
   holds_keys h (<[c := x]> (<[i := l !!! c]> l)) (zset idx (l !!! c) (Z.of_nat i))) →
  holds_keys h (<[i := x]> l) idx.
Proof.
  intros Hi Hc Hne Hidx Hrec.
  assert (Hx : <[i := x]> l !! i = Some x) by by rewrite list_lookup_insert_eq.
  assert (Hy : <[i := x]> l !! c = Some (l !!! c)).
  { rewrite list_lookup_insert_ne by done. by apply list_lookup_lookup_total_lt. }
  assert (Heq : <[c := x]> (<[i := l !!! c]> l) = swapped (<[i := x]> l) i c x (l !!! c))
    by (unfold swapped; by rewrite list_insert_insert_eq).
  rewrite Heq in Hrec. destruct Hrec as (H1 & H2 & H3); [by apply idx_hole_swap |].
  split; [done |]. split; [| by rewrite H3, length_zset].
  rewrite H2. by apply swapped_perm.
Qed.

Lemma up_loop_keys fuel x : ∀ l idx i, (i < length l)%nat → idx_hole (<[i := x]> l) idx i →
  holds_keys (up_loop lt fuel x l idx i) (<[i := x]> l) idx.
Proof.
  induction fuel as [| fuel IH]; intros l idx i Hi Hidx; simpl; [by apply close_hole |].
  destruct (negb (i =? 0)%nat && _) eqn:E; [| by apply close_hole].
  zbool. apply Nat.eqb_neq in H. pose proof (parent_lt i ltac:(lia)).
  apply (move_hole l idx i (parent i) x); [done | lia | lia | done |].
  intros Hh. apply IH; [rewrite length_insert; lia | done].
Qed.

Lemma down_loop_keys fuel x : ∀ l idx i, (i < length l)%nat → idx_hole (<[i := x]> l) idx i →
  holds_keys (down_loop lt fuel x l idx i) (<[i := x]> l) idx.
Proof.
  induction fuel as [| fuel IH]; intros l idx i Hi Hidx; simpl; [by apply close_hole |].
  destruct (Nat.ltb_spec (left i) (length l)) as [Hl |]; [| by apply close_hole].
  destruct (negb _); [by apply close_hole |]. destruct (child_gt i).
  assert (i < min_child lt l i < length l)%nat as [].
  { unfold min_child. destruct (Nat.ltb_spec (right i) (length l)); simpl; [case_match_goal |]; lia. }
  apply (move_hole l idx i (min_child lt l i) x); [done | lia | lia | done |].
  intros Hh. apply IH; [rewrite length_insert; lia | done].
Qed.

Lemma percolateUp_keys h i : (i < length (heap h))%nat → idx_hole (heap h) (indices h) i →
  holds_keys (percolateUp lt h i) (heap h) (indices h).
Proof.
  intros Hi Hidx. pose proof (up_loop_keys i (heap h !!! i) (heap h) (indices h) i Hi) as H.
  rewrite list_insert_total in H by done. by apply H.
Qed.

Lemma percolateDown_keys h i : (i < length (heap h))%nat → idx_hole (heap h) (indices h) i →
  holds_keys (percolateDown lt h i) (heap h) (indices h).
Proof.
  intros Hi Hidx.
  pose proof (down_loop_keys (length (heap h)) (heap h !!! i) (heap h) (indices h) i Hi) as H.
  rewrite list_insert_total in H by done. by apply H.
Qed.

Lemma decrease_keys h k : idx_ok (heap h) (indices h) → k ∈ heap h →
  holds_keys (decrease lt h k) (heap h) (indices h).
Proof.
  intros Hok Hk. apply percolateUp_keys; [| by apply idx_ok_hole].
  eapply lookup_lt_Some. by apply idx_ok_position.
Qed.

Lemma insert_keys h k : idx_ok (heap h) (indices h) → k ∉ heap h →
  0 <= k < Z.of_nat (length (indices h)) →
  holds_keys (insert lt h k) (k :: heap h) (indices h).
Proof.
  intros Hok Hk Hr. pose proof (insert_idx_ok h k Hok Hk ltac:(lia)) as H. unfold insert.
  destruct (percolateUp_keys (MkHeap (heap h ++ [k])
    (zset (IntMap.reserve id (indices h) k (-1)) k (Z.of_nat (length (heap h))))) (length (heap h)))
    as (H1 & H2 & H3); simpl in *.
  - rewrite length_app. simpl. lia.
  - by apply idx_ok_hole.
  - split; [done |]. split; [rewrite H2; solve_Permutation |].
    rewrite H3, length_zset. unfold IntMap.reserve. rewrite IntMap.length_grow_to. unfold id. lia.
Qed.

Lemma removeMin_keys h : idx_ok (heap h) (indices h) → heap h ≠ [] →
  let '(x, h') := removeMin lt h in
  idx_ok (heap h') (indices h') ∧ heap h ≡ₚ x :: heap h' ∧ length (indices h') = length (indices h).
Proof.
  intros Hok Hne. unfold removeMin.
  assert (Hl : (0 < length (heap h))%nat) by (destruct (heap h); simpl; [done | lia]).
  assert (Hx : heap h !! 0%nat = Some (heap h !!! 0%nat)) by by apply list_lookup_lookup_total_lt.
  pose proof (removeMin_idx h _ Hok Hx) as Hok1. pose proof (removelast_fill_perm (heap h) 0 _ Hx) as Hp.
  simpl in *. set (l := removelast _) in *. set (idx := zset _ _ (-1)) in *.
  destruct (Nat.ltb_spec 1 (length l)) as [Hlt |].
  - destruct (percolateDown_keys (MkHeap l idx) 0) as (H1 & H2 & H3); simpl in *;
      [lia | by apply idx_ok_hole, Hok1 |].
    split; [done |]. split; [by rewrite H2 | by rewrite H3; unfold idx; rewrite !length_zset].
  - split; [done |]. split; [by symmetry | by simpl; unfold idx; rewrite !length_zset].
Qed.

Lemma heapify_keys n : ∀ h, (n <= length (heap h))%nat → idx_ok (heap h) (indices h) →
  holds_keys (heapify lt n h) (heap h) (indices h).
Proof.
  induction n as [| i IH]; intros h Hn Hok; simpl; [done |].
  destruct (percolateDown_keys h i) as (H1 & H2 & H3); [lia | by apply idx_ok_hole |].
  destruct (IH (percolateDown lt h i)) as (H4 & H5 & H6); [rewrite H2; lia | done |].
  split; [done |]. split; [by rewrite H5 | by rewrite H6].
Qed.

Lemma build_keys h ns : idx_ok (heap h) (indices h) → NoDup ns →
  (∀ k, k ∈ ns → 0 <= k < Z.of_nat (length (indices h))) →
  holds_keys (build lt h ns) ns (indices h).
Proof.
  intros Hok Hnd Hr. destruct (build_idx_ok h ns Hok Hnd Hr) as [Hi Hlen].
  destruct (heapify_keys (length ns / 2) (MkHeap ns (load ns 0
    (foldl (λ m k, zset m k (-1)) (indices h) (heap h))))) as (H1 & H2 & H3); cbn [heap indices] in *;
    [| done |].
  - pose proof (Nat.div_mod_eq (length ns) 2). lia.
  - split; [done |]. split; [done | by etrans].
Qed.
End Any_order.

(** ** Removing an inner key

    [remove] only sinks the key it moves into the freed place; the key can be
    smaller than the new parent when it comes from another subtree. *)
Definition remove_example : Heap :=
  MkHeap [0; 10; 1; 11; 12; 2; 3] [0; 2; 5; 6; -1; -1; -1; -1; -1; -1; 1; 3; 4].

(** ** Draining *)

(** [n] times [removeMin], as a client that empties the heap sees it. *)
Fixpoint drain (lt : Z → Z → bool) (n : nat) (h : Heap) : list Z :=
  match n with
  | O => []
  | S n => let '(x, h) := removeMin lt h in x :: drain lt n h
  end.

Lemma drain_spec (lt : Z → Z → bool) `{!StrictWeakOrder lt} n h : wf lt h → length (heap h) = n →
  drain lt n h ≡ₚ heap h ∧ StronglySorted (λ x y, lt y x = false) (drain lt n h).
Proof.
  revert h. induction n as [| n IH]; intros h Hw Hn; cbn [drain].
  - destruct (heap h); [split; [done | constructor] | done].
  - pose proof (removeMin_spec lt h Hw) as Hr. destruct (removeMin lt h) as [x h'].
    destruct Hr as (Hw' & Hp & Hmin); [by intros E; rewrite E in Hn |].
    destruct (IH h' Hw') as [Hd Hs].
    { apply Permutation_length in Hp. simpl in Hp. lia. }
    split; [by rewrite Hp, Hd |]. constructor; [done |]. rewrite Hd.
    apply Forall_forall. intros y Hy. apply Hmin. rewrite Hp. by right.
Qed.

(** ** The properties *)

(** C35. The heap is a priority queue: [build] from distinct keys and then
    [removeMin] until it is empty gives back exactly these keys, none before a
    smaller one. *)
Theorem heap_drains_sorted (lt : Z → Z → bool) h ns : StrictWeakOrder lt →
  idx_ok (heap h) (indices h) → NoDup ns → (∀ k, k ∈ ns → 0 <= k < Z.of_nat (length (indices h))) →
  drain lt (length ns) (build lt h ns) ≡ₚ ns ∧
  StronglySorted (λ x y, lt y x = false) (drain lt (length ns) (build lt h ns)).
Proof.
  intros HS Hok Hnd Hr. destruct (build_spec lt h ns Hok Hnd Hr) as [Hw Hp].
  destruct (drain_spec lt (length ns) (build lt h ns) Hw) as [H1 H2]; [by apply Permutation_length |].
  split; [by etrans | done].
Qed.

(** [insert] of a new key and [decrease] of a key whose order improved (an
    activity bump) keep the order of the heap and the index of every key, and
    change the keys in no other way. *)
Theorem heap_updates (lt0 lt : Z → Z → bool) h k : StrictWeakOrder lt0 → StrictWeakOrder lt → wf lt0 h → 0 <= k →
  (inHeap h k = false → wf lt0 (insert lt0 h k) ∧ heap (insert lt0 h k) ≡ₚ k :: heap h) ∧
  (inHeap h k = true → (∀ x y, x ≠ k → y ≠ k → lt x y = lt0 x y) →
     (∀ x, x ≠ k → lt0 x k = false → lt x k = false) →
     wf lt (decrease lt h k) ∧ heap (decrease lt h k) ≡ₚ heap h).
Proof.
  intros S0 S1 Hw Hk. split; [by intros; apply insert_spec |].
  intros Hi Hsame Hless. apply inHeap_elem in Hi; [| apply Hw]. by apply (decrease_spec lt lt0).
Qed.

(** [remove] can break the order of the heap: it only sinks the key it
    moves into the freed place, and this one can be smaller than its new
    parent when it comes from another subtree. *)
Theorem heap_remove_breaks_order :
  wf Z.ltb remove_example ∧ inHeap remove_example 11 = true ∧
  ¬ ordered Z.ltb (heap (remove Z.ltb remove_example 11)).
Proof.
  split; [| split; [done |]].
  - split; [split |].
    + by apply (bool_decide_unpack _).
    + intros j k Hj. do 7 (destruct j as [| j]; [injection Hj as <-; vm_compute; by repeat split |]). done.
    + intros k Hk. unfold zget. case_match; [done |]. destruct (Z.ltb_spec k 0); [done |].
      destruct (decide (k < 13)) as [Hlt |]; [| rewrite lookup_ge_None_2; [done | simpl; lia]].
      assert (k ∈ seqZ 0 13) as Hin by (apply elem_of_seqZ; lia).
      repeat (apply elem_of_cons in Hin as [-> | Hin];
        [first [reflexivity | destruct Hk; by apply (bool_decide_unpack _)] |]). by apply elem_of_nil in Hin.
    + intros j x y _ _ Hx Hy.
      do 7 (destruct j as [| j]; [injection Hx as <-; injection Hy as <-; reflexivity |]). done.
  - intros Ho. by specialize (Ho 3%nat 3 10 ltac:(lia) ltac:(lia) eq_refl eq_refl).
Qed.
