(* ===== verification/Alloc.v ===== *)
(** * [Mini::RegionAllocator]

    [mtl/Alloc.h]: the bump allocator behind the clause arena.  All sizes are
    [uint32_t]; the model writes the wrap-around of every addition out. *)
From S2P Require Import Prelude.

Record Region := MkRegion { r_sz : Z; r_cap : Z; r_wasted : Z }.

(** [Ref_Undef = UINT32_MAX]. *)
Definition Ref_Undef : Z := 2 ^ 32 - 1.

Definition empty_region : Region := MkRegion 0 0 0.

(** What [capacity] does: it grows, throws [OutOfMemoryException], or is still
    in its loop when the fuel of the model is used up. *)
Inductive growth := Grown (c : Z) | OutOfMemory | StillLooping.

(** One round of the loop: [delta = ((cap >> 1) + (cap >> 3) + 2) & ~1]. *)
Definition delta (c : Z) : Z :=
  Z.land (u32 (Z.shiftr c 1 + Z.shiftr c 3 + 2)) (2 ^ 32 - 2).

Definition grow_step (c : Z) : Z := u32 (c + delta c).

(** [while (cap < min_cap) { cap += delta; if (cap <= prev_cap) throw }], with
    [prev_cap] the capacity on entry. *)
Fixpoint capacity_loop (fuel : nat) (prev_cap c min_cap : Z) : growth :=
  if c <? min_cap then
    match fuel with
    | O => StillLooping
    | S fuel =>
        let c' := grow_step c in
        if c' <=? prev_cap then OutOfMemory else capacity_loop fuel prev_cap c' min_cap
    end
  else Grown c.

Definition capacity_fuel : nat := 64.

Definition capacity (r : Region) (min_cap : Z) : option Region :=
  match capacity_loop capacity_fuel (r_cap r) (r_cap r) min_cap with
  | Grown c => Some (MkRegion (r_sz r) c (r_wasted r))
  | _ => None
  end.

(** [RegionAllocator(start_cap)]. *)
Definition new_region (start_cap : Z) : option Region := capacity empty_region start_cap.

(** [alloc(size)]: the reference of the new block and the region. *)
Definition alloc (r : Region) (size : Z) : option (Z * Region) :=
  r' ← capacity r (u32 (r_sz r + size));
  let sz := u32 (r_sz r' + size) in
  if sz <? r_sz r' then None
  else Some (r_sz r', MkRegion sz (r_cap r') (r_wasted r')).

(** [free(size)] only counts the wasted words. *)
Definition free (r : Region) (size : Z) : Region :=
  MkRegion (r_sz r) (r_cap r) (u32 (r_wasted r + size)).

(** [moveTo(to)]: the source is left empty. *)
Definition moveTo (r to : Region) : Region * Region := (empty_region, r).

(** The capacities reachable from 0. *)
Definition max_capacity : Z := 4280241450.

Fixpoint cap_seq (n : nat) (c : Z) : list Z :=
  match n with O => [c] | S n => c :: cap_seq n (grow_step c) end.

Definition caps : list Z := cap_seq 44 0.

Definition wf (r : Region) : Prop :=
  r_cap r ∈ caps ∧ 0 <= r_sz r <= r_cap r.

(** ** Growth *)

(** [n] rounds from [c] grow the capacity every time. *)
Fixpoint chain (n : nat) (c : Z) : bool :=
  match n with O => true | S n => (c <? grow_step c) && chain n (grow_step c) end.

Fixpoint chain_end (n : nat) (c : Z) : Z :=
  match n with O => c | S n => chain_end n (grow_step c) end.

Lemma chain_loop n : ∀ c prev m, prev <= c → chain n c = true → m <= chain_end n c →
  ∃ c', capacity_loop n prev c m = Grown c' ∧ c' ∈ cap_seq n c ∧ m <= c' ∧ c <= c'.
Proof.
  induction n as [| n IH]; intros c prev m Hp Hch Hm; simpl in *.
  - destruct (Z.ltb_spec c m); [lia |]. exists c. split; [done |]. split; [by left | lia].
  - zbool. destruct (Z.ltb_spec c m).
    + destruct (Z.leb_spec (grow_step c) prev); [lia |].
      destruct (IH (grow_step c) prev m) as (c' & H3 & H4 & H5 & H6); [lia | done .. |].
      exists c'. split; [done |]. split; [by right | lia].
    + exists c. split; [done |]. split; [by left | lia].
Qed.

Lemma loop_more_fuel n k prev c m c' :
  capacity_loop n prev c m = Grown c' → capacity_loop (n + k) prev c m = Grown c'.
Proof.
  revert c. induction n as [| n IH]; intros c; simpl.
  - destruct (c <? m) eqn:E; [done |]. intros [= <-]. destruct k; simpl; by rewrite E.
  - repeat case_match_goal; try done. apply IH.
Qed.

Lemma caps_suffix n : ∀ c0 c, c ∈ cap_seq n c0 → chain n c0 = true →
  ∃ k, (k <= n)%nat ∧ chain k c = true ∧ chain_end k c = chain_end n c0 ∧
       ∀ x, x ∈ cap_seq k c → x ∈ cap_seq n c0.
Proof.
  induction n as [| n IH]; intros c0 c Hc Hch; simpl in *.
  - apply list_elem_of_singleton in Hc as ->. by exists 0%nat.
  - apply andb_true_iff in Hch as [Hlt Hch]. apply elem_of_cons in Hc as [-> | Hc].
    + exists (S n). simpl. by rewrite Hlt, Hch.
    + destruct (IH _ _ Hc Hch) as (k & H1 & H2 & H3 & H4). exists k.
      split; [lia |]. split; [done |]. split; [done |]. intros x Hx. right. by apply H4.
Qed.

Lemma caps_range c : c ∈ caps → 0 <= c <= max_capacity.
Proof.
  assert (forallb (λ c, (0 <=? c) && (c <=? max_capacity)) caps = true) as E by by vm_compute.
  rewrite forallb_forall in E. intros Hc%list_elem_of_In%E.
  apply andb_true_iff in Hc as [?%Z.leb_le ?%Z.leb_le]. done.
Qed.

Lemma caps_loop c prev m : c ∈ caps → prev <= c → m <= max_capacity →
  ∃ c', capacity_loop capacity_fuel prev c m = Grown c' ∧ c' ∈ caps ∧ m <= c' ∧ c <= c'.
Proof.
  intros Hc Hp Hm. destruct (caps_suffix 44 0 c Hc) as (k & Hk & H1 & H2 & H3); [by vm_compute |].
  assert (chain_end 44 0 = max_capacity) as E by by vm_compute.
  destruct (chain_loop k c prev m) as (c' & H4 & H5 & H6 & H7); [done | done | lia |].
  exists c'. split; [| by auto]. unfold capacity_fuel. replace 64%nat with (k + (64 - k))%nat by lia.
  by apply loop_more_fuel.
Qed.

Lemma capacity_spec r m : wf r → m <= max_capacity →
  ∃ r', capacity r m = Some r' ∧ wf r' ∧ m <= r_cap r' ∧
        r_sz r' = r_sz r ∧ r_wasted r' = r_wasted r ∧ r_cap r <= r_cap r'.
Proof.
  intros [Hc Hs] Hm. unfold capacity.
  destruct (caps_loop (r_cap r) (r_cap r) m Hc) as (c' & -> & H1 & H2 & H3); [lia | done |].
  eexists. split; [done |]. split; [| done]. split; simpl; [done | lia].
Qed.

Lemma alloc_spec r size : wf r → 0 < size → r_sz r + size <= max_capacity →
  ∃ r', alloc r size = Some (r_sz r, r') ∧ wf r' ∧ r_sz r' = r_sz r + size.
Proof.
  intros Hwf Hs Hm. destruct (caps_range _ (proj1 Hwf)) as [_ Hcm].
  destruct Hwf as [Hc Hr]. unfold alloc.
  assert (max_capacity < 2 ^ 32) by done.
  assert (u32 (r_sz r + size) = r_sz r + size) as Hu by (apply Z.mod_small; lia).
  rewrite Hu. destruct (capacity_spec r (r_sz r + size)) as (r1 & -> & H1 & H2 & H3 & H4 & H5);
    [by split | done |].
  simpl. rewrite H3, Hu. destruct (Z.ltb_spec (r_sz r + size) (r_sz r)); [lia |].
  eexists. split; [done |]. split; [| done]. split; simpl; [apply H1 | lia].
Qed.

Lemma capacity_wasted r m r' : capacity r m = Some r' → r_wasted r' = r_wasted r.
Proof.
  unfold capacity. destruct (capacity_loop _ _ _ _); intros E; simplify_eq.
  done.
Qed.

Lemma alloc_wasted r size cid r' : alloc r size = Some (cid, r') → r_wasted r' = r_wasted r.
Proof.
  unfold alloc. destruct (capacity r _) as [r1 |] eqn:E; [| done]. simpl. apply capacity_wasted in E.
  destruct (_ <? _); intros E'; by simplify_eq.
Qed.

(** ** The loop beyond the largest capacity

    [prev_cap] is not updated in the loop, so a wrapped capacity that is still
    above the capacity on entry goes unnoticed. *)

(** [n] rounds from [c] that stay strictly between [prev] and [m]. *)
Fixpoint stays (n : nat) (prev m c : Z) : bool :=
  (c <? m) &&
  match n with O => true | S n => (prev <? grow_step c) && stays n prev m (grow_step c) end.

Lemma stays_loop n fuel prev c m : stays n prev m c = true → (fuel <= n)%nat →
  capacity_loop fuel prev c m = StillLooping.
Proof.
  revert n c. induction fuel as [| fuel IH]; intros [| n] c Hs Hf; simpl in *; zbool; try lia.
  - destruct (Z.ltb_spec c m); [done | lia].
  - destruct (Z.ltb_spec c m); [done | lia].
  - destruct (Z.ltb_spec c m); [| lia]. destruct (Z.leb_spec (grow_step c) prev); [lia |].
    apply (IH n); [done | lia].
Qed.

Lemma stays_app n k prev m c : stays n prev m c = true →
  stays k prev m (chain_end n c) = true → stays (n + k) prev m c = true.
Proof.
  revert c. induction n as [| n IH]; intros c; simpl; [done |]. intros H1 H2.
  zbool. rewrite (proj2 (Z.ltb_lt _ _)) by done. rewrite (proj2 (Z.ltb_lt _ _)) by done.
  simpl. by apply IH.
Qed.

Lemma stays_cycle n k prev m c : stays n prev m c = true → chain_end n c = c →
  stays (k * n) prev m c = true.
Proof.
  intros Hs Hc. induction k as [| k IH]; simpl.
  - destruct n; simpl in *; by zbool; rewrite (proj2 (Z.ltb_lt _ _)).
  - apply stays_app; [done | by rewrite Hc].
Qed.

(** The same rounds with the remainders computed by one comparison. *)
Definition fast_step (c : Z) : Z :=
  let c' := c + 2 * Z.shiftr (Z.shiftr c 1 + Z.shiftr c 3 + 2) 1 in
  if c' <? 4294967296 then c' else c' - 4294967296.

Lemma fast_step_eq c : 0 <= c < 2 ^ 32 → grow_step c = fast_step c.
Proof.
  intros Hc. unfold grow_step, fast_step, delta.
  rewrite !Z.shiftr_div_pow2 by lia. change (2 ^ 1) with 2. change (2 ^ 3) with 8.
  change (2 ^ 32) with 4294967296 in Hc.
  set (d := c / 2 + c / 8 + 2).
  assert (0 <= d < 4294967296) as Hd by (unfold d; Z.div_mod_to_equations; lia).
  assert (u32 d = d) as -> by (by apply Z.mod_small).
  assert (Z.land d (2 ^ 32 - 2) = 2 * (d / 2)) as ->.
  { change (2 ^ 32 - 2) with (Z.shiftl (Z.ones 31) 1).
    apply Z.bits_inj'. intros n Hn. rewrite Z.land_spec, Z.shiftl_spec by done.
    destruct (decide (n = 0)) as [-> | Hn0].
    - rewrite Z.testbit_even_0, (Z.testbit_neg_r (Z.ones 31)) by lia. apply andb_false_r.
    - replace n with (Z.succ (n - 1)) at 3 by lia. rewrite Z.testbit_even_succ by lia.
      change (d / 2) with (d / 2 ^ 1). rewrite <- Z.shiftr_div_pow2, Z.shiftr_spec by lia.
      replace (n - 1 + 1) with n by lia. rewrite Z.testbit_ones by lia.
      destruct (Z.ltb_spec (n - 1) 31).
      + rewrite (proj2 (Z.leb_le 0 (n - 1))) by lia. apply andb_true_r.
      + rewrite andb_false_r, andb_false_r. symmetry. destruct (decide (d = 0)) as [-> | Hd0].
        { apply Z.testbit_0_l. }
        apply Z.bits_above_log2; [lia |].
        apply Z.log2_lt_pow2; [lia |]. apply Z.lt_le_trans with (2 ^ 32); [change (2 ^ 32) with 4294967296; lia |].
        apply Z.pow_le_mono_r; lia. }
  unfold u32. destruct (Z.ltb_spec (c + 2 * (d / 2)) 4294967296).
  - apply Z.mod_small. change (2 ^ 32) with 4294967296. Z.div_mod_to_equations; lia.
  - symmetry. apply Z.mod_unique_pos with 1; change (2 ^ 32) with 4294967296; unfold d in *;
      Z.div_mod_to_equations; lia.
Qed.

Fixpoint fast_run (n : nat) (c : Z) : option Z :=
  if (0 <=? c) && (c <? 4294814371) then
    match n with
    | O => Some c
    | S n => let c' := fast_step c in if 0 <? c' then fast_run n c' else None
    end
  else None.

Lemma fast_run_stays n m c e : 4294814371 <= m → fast_run n c = Some e →
  stays n 0 m c = true ∧ chain_end n c = e.
Proof.
  intros Hm. revert c. induction n as [| n IH]; intros c; simpl;
    destruct ((0 <=? c) && (c <? 4294814371)) eqn:E; try done; zbool;
    rewrite (proj2 (Z.ltb_lt c m)) by lia; simpl.
  - by intros [= ->].
  - rewrite fast_step_eq by lia. destruct (0 <? _) eqn:E; [| done]. intros Hr.
    by destruct (IH _ Hr) as [-> ->].
Qed.

(** A request above 4294814370 words, on a fresh region, loops for ever: the
    capacities enter a cycle of 58393 values. *)
Lemma loop_forever m fuel : 4294814370 < m → capacity_loop fuel 0 0 m = StillLooping.
Proof.
  intros Hm. pose (n := Z.to_nat 40083). pose (k := Z.to_nat 58393).
  destruct (fast_run_stays n m 0 1273401468) as [H1 H2]; [lia | by vm_compute |].
  destruct (fast_run_stays k m 1273401468 1273401468) as [H3 H4]; [lia | by vm_compute |].
  assert (0 < k)%nat as Hk by (apply Nat.ltb_lt; by vm_compute). clearbody n k.
  apply (stays_loop (n + fuel * k)).
  - apply stays_app; [done |]. rewrite H2. by apply stays_cycle.
  - nia.
Qed.

(** ** The properties *)

(** C36. [alloc] of a positive number of words that fit below 4280241450, the
    largest capacity, succeeds: the new block starts at the old end of the
    region, it lies inside the capacity, and the growth neither wraps around
    nor shrinks the capacity. *)
Theorem region_alloc_correct r size : wf r → 0 < size → r_sz r + size <= max_capacity →
  ∃ r', alloc r size = Some (r_sz r, r') ∧ wf r' ∧ r_sz r' = r_sz r + size.
Proof. apply alloc_spec. Qed.

(** A request for more than 4294814370 words on a fresh region never ends:
    the overflow test compares with the capacity on entry only, and the
    capacities run into a cycle of 58393 values below the request. *)
Theorem region_capacity_loops m fuel : 4294814370 < m →
  capacity_loop fuel (r_cap empty_region) (r_cap empty_region) m = StillLooping.
Proof. apply loop_forever. Qed.

Lemma region_alloc_correct_witness : ∃ r', alloc empty_region 100 = Some (0, r') ∧ wf r' ∧ r_sz r' = 100.
Proof.
  apply (region_alloc_correct empty_region 100); [| lia | unfold max_capacity; simpl; lia].
  split; [by left | done].
Defined.

Lemma region_capacity_loops_witness : capacity_loop 1000 0 0 (2 ^ 32 - 1) = StillLooping.
Proof. apply (region_capacity_loops (2 ^ 32 - 1) 1000). lia. Defined.
