(* ===== verification/Double.v ===== *)
(** * IEEE doubles and floats

    The solvers keep activities, limits and rates in [double] (and clause
    activities in [float]).  The arithmetic is the binary64 (binary32)
    arithmetic of the Standard Library's [SpecFloat], rounding to nearest even,
    so the heuristics stay executable. *)
From Stdlib Require Import SpecFloat.
From S2P Require Import Prelude.

Abbreviation double := spec_float (only parsing).

Definition d_add (a b : double) : double := SFadd 53 1024 a b.
Definition d_sub (a b : double) : double := SFsub 53 1024 a b.
Definition d_mul (a b : double) : double := SFmul 53 1024 a b.
Definition d_div (a b : double) : double := SFdiv 53 1024 a b.
Definition d_ltb (a b : double) : bool := SFltb a b.
Definition d_leb (a b : double) : bool := SFleb a b.
Definition d_eqb (a b : double) : bool := SFeqb a b.

(** Conversion of an integer: rounds to nearest even. *)
Definition d_of_Z (z : Z) : double := binary_normalize 53 1024 z 0 false.

(** [m * 2^e], rounded. *)
Definition d_scale (m e : Z) : double := binary_normalize 53 1024 m e false.

(** A decimal constant [n / d] as the compiler reads it, correctly rounded: the
    quotient to 500 bits below the point, with a sticky bit. *)
Definition d_const (n d : Z) : double :=
  let q := Z.div (n * 2 ^ 500) d in
  let sticky := Z.b2z (negb ((n * 2 ^ 500) mod d =? 0)) in
  binary_normalize 53 1024 (2 * q + sticky) (-501) false.

(** [(int) x] truncates towards zero; out of the range of [int] (and for
    infinities and NaN) the conversion is undefined. *)
Definition d_trunc (a : double) : option Z :=
  match a with
  | S754_zero _ => Some 0
  | S754_finite s m e =>
      let v := if 0 <=? e then Zpos m * 2 ^ e else Z.div (Zpos m) (2 ^ (- e)) in
      Some (if s then - v else v)
  | _ => None
  end.

Definition d_to_int (a : double) : option Z :=
  z ← d_trunc a;
  if (- 2 ^ 31 <=? z) && (z <? 2 ^ 31) then Some z else None.

(** Rounding of a double to [float]. *)
Definition f_of_d (a : double) : double :=
  match a with
  | S754_finite s m e => binary_normalize 24 128 (cond_Zopp s (Zpos m)) e s
  | _ => a
  end.

#[export] Instance double_inhabited : Inhabited double := populate (S754_zero false).

(** [pow(y, n)] for an exponent the callers keep a small natural number: with
    [y = 2], the only base of the shipped configuration, every product is
    exact. *)
Fixpoint d_pow (y : double) (n : nat) : double :=
  match n with O => d_of_Z 1 | S n => d_mul (d_pow y n) y end.

(** ** Exact divisions

    A quotient by a power of two is exact, so a ratio is the double 1.0 only
    when numerator and denominator are equal. *)

Lemma digits2_log2 p : Zpos (digits2_pos p) = Z.log2 (Zpos p) + 1.
Proof.
  induction p as [p IH | p IH |]; simpl digits2_pos; [| | done]; rewrite Pos2Z.inj_succ, IH.
  - rewrite Pos2Z.inj_xI. rewrite Z.log2_succ_double by lia. lia.
  - rewrite Pos2Z.inj_xO. rewrite Z.log2_double by lia. lia.
Qed.

Lemma iter_xO p k : Zpos (Pos.iter xO p k) = Zpos p * 2 ^ Zpos k.
Proof.
  induction k as [| k IH] using Pos.peano_ind; [simpl; lia |].
  rewrite Pos.iter_succ, Pos2Z.inj_xO, IH, Pos2Z.inj_succ, Z.pow_succ_r by lia. lia.
Qed.

Lemma round_exact s m e : Zpos (digits2_pos m) = 53 → -1074 <= e <= 971 →
  binary_round_aux 53 1024 s (Zpos m) e loc_Exact = S754_finite s m e.
Proof.
  intros Hd He. unfold binary_round_aux, shr_fexp. cbn [Zdigits2 shr_record_of_loc].
  assert (fexp 53 1024 (Zpos (digits2_pos m) + e) - e = 0) as Hf by (unfold fexp, emin; lia).
  rewrite Hf. cbn [shr shr_m loc_of_shr_record round_nearest_even Zdigits2]. rewrite Hf. cbn [shr shr_m].
  destruct (Z.leb_spec e (1024 - 53)); [done | lia].
Qed.

Lemma d_of_Z_pos p : Zpos p < 2 ^ 53 →
  ∃ m, d_of_Z (Zpos p) = S754_finite false m (Z.log2 (Zpos p) - 52) ∧
    Zpos (digits2_pos m) = 53 ∧ Zpos m = Zpos p * 2 ^ (52 - Z.log2 (Zpos p)).
Proof.
  intros Hp. pose proof (Z.log2_nonneg (Zpos p)). pose proof (Z.log2_lt_pow2 (Zpos p) 53 ltac:(lia)) as Hl.
  unfold d_of_Z, binary_normalize, binary_round. rewrite digits2_log2.
  assert (fexp 53 1024 (Z.log2 (Zpos p) + 1 + 0) = Z.log2 (Zpos p) - 52) as -> by (unfold fexp, emin; lia).
  unfold shl_align. rewrite Z.sub_0_r.
  assert (∀ m, Zpos m = Zpos p * 2 ^ (52 - Z.log2 (Zpos p)) → Zpos (digits2_pos m) = 53) as Hm.
  { intros m E. rewrite digits2_log2, E, Z.log2_mul_pow2; lia. }
  destruct (Z.log2 (Zpos p) - 52) as [| k | k] eqn:Ek; [| lia |].
  - assert (52 - Z.log2 (Zpos p) = 0) as E0 by lia. rewrite E0 in *.
    exists p. rewrite round_exact; [| apply Hm; lia | lia]. split; [done |]. split; [apply Hm |]; lia.
  - assert (52 - Z.log2 (Zpos p) = Zpos k) as E0 by lia. rewrite E0 in *.
    exists (Pos.iter xO p k). pose proof (iter_xO p k).
    rewrite round_exact; [| by apply Hm | lia]. by auto.
Qed.

Lemma d_div_pow2 m1 e1 m2 e2 : Zpos (digits2_pos m1) = 53 → Zpos m2 = 2 ^ 52 →
  -900 <= e1 - e2 <= 900 →
  d_div (S754_finite false m1 e1) (S754_finite false m2 e2) = S754_finite false m1 (e1 - e2 - 52).
Proof.
  intros H1 H2 He. unfold d_div, SFdiv, SFdiv_core_binary.
  assert (Zpos (digits2_pos m2) = 53) as Hd2 by (by rewrite digits2_log2, H2).
  cbn [Zdigits2]. rewrite H1, Hd2.
  assert (Z.min (fexp 53 1024 (53 + e1 - (53 + e2))) (e1 - e2) = e1 - e2 - 53) as ->
    by (unfold fexp, emin; lia).
  replace (e1 - e2 - (e1 - e2 - 53)) with 53 by lia.
  assert (Z.div_eucl (Z.shiftl (Zpos m1) 53) (Zpos m2) = (2 * Zpos m1, 0)) as ->.
  { rewrite H2, Z.shiftl_mul_pow2 by lia.
    pose proof (Z.div_mul (2 * Zpos m1) (2 ^ 52) ltac:(lia)) as Hq.
    pose proof (Z.mod_mul (2 * Zpos m1) (2 ^ 52) ltac:(lia)) as Hr.
    replace (Zpos m1 * 2 ^ 53) with (2 * Zpos m1 * 2 ^ 52) by lia.
    unfold Z.div, Z.modulo in Hq, Hr. destruct (Z.div_eucl _ _). by subst. }
  assert (new_location (Zpos m2) 0 = loc_Exact) as -> by (rewrite H2; done).
  simpl xorb. change (2 * Zpos m1) with (Zpos m1~0).
  unfold binary_round_aux, shr_fexp at 1. cbn [Zdigits2 digits2_pos shr_record_of_loc].
  rewrite Pos2Z.inj_succ, H1.
  assert (fexp 53 1024 (Z.succ 53 + (e1 - e2 - 53)) - (e1 - e2 - 53) = 1) as -> by (unfold fexp, emin; lia).
  cbn [shr SpecFloat.iter_pos shr_1 orb shr_m loc_of_shr_record round_nearest_even].
  replace (e1 - e2 - 53 + 1) with (e1 - e2 - 52) by lia.
  unfold shr_fexp. cbn [Zdigits2 shr_record_of_loc]. rewrite H1.
  assert (fexp 53 1024 (53 + (e1 - e2 - 52)) - (e1 - e2 - 52) = 0) as -> by (unfold fexp, emin; lia).
  cbn [shr shr_m]. destruct (Z.leb_spec (e1 - e2 - 52) (1024 - 53)); [done | lia].
Qed.

Lemma ratio_one c k : 0 <= c < 2 ^ 53 → 0 <= k <= 52 →
  d_eqb (d_div (d_of_Z c) (d_of_Z (2 ^ k))) (d_of_Z 1) = bool_decide (c = 2 ^ k).
Proof.
  intros Hc Hk. pose proof (Z.pow_pos_nonneg 2 k ltac:(lia) ltac:(lia)).
  assert (2 ^ k < 2 ^ 53) by (apply Z.pow_lt_mono_r; lia).
  assert (Z.log2 (2 ^ k) = k) as Hlk by (apply Z.log2_pow2; lia).
  destruct (2 ^ k) as [| p2 | p2] eqn:E2; [lia | | lia].
  destruct (d_of_Z_pos p2 ltac:(lia)) as (m2 & -> & Hd2 & Hm2). rewrite Hlk in *.
  assert (Zpos m2 = 2 ^ 52) as Hm2'.
  { rewrite Hm2, <- E2, <- Z.pow_add_r by lia. f_equal. lia. }
  destruct c as [| p1 | p1]; [| | lia].
  { rewrite bool_decide_eq_false_2 by done. done. }
  destruct (d_of_Z_pos p1 ltac:(lia)) as (m1 & -> & Hd1 & Hm1).
  pose proof (Z.log2_nonneg (Zpos p1)). pose proof (Z.log2_lt_pow2 (Zpos p1) 53 ltac:(lia)).
  rewrite (d_div_pow2 m1 _ m2) by (done || lia).
  assert (∃ q, d_of_Z 1 = S754_finite false q (-52) ∧ Zpos q = 2 ^ 52) as (q & -> & Hq)
    by (eexists; split; [vm_compute; reflexivity | reflexivity]).
  unfold d_eqb, SFeqb. cbn [SFcompare].
  replace (Z.log2 (Zpos p1) - 52 - (k - 52) - 52) with (Z.log2 (Zpos p1) - k - 52) by lia.
  destruct (Z.compare_spec (Z.log2 (Zpos p1) - k - 52) (-52)) as [He | He | He].
  - assert (Z.log2 (Zpos p1) = k) as El by lia. rewrite El in *.
    change (Pos.compare_cont Eq m1 q) with (Pos.compare m1 q).
    pose proof (Z.pow_pos_nonneg 2 (52 - k) ltac:(lia) ltac:(lia)).
    assert (2 ^ 52 = 2 ^ k * 2 ^ (52 - k)) as E52.
    { rewrite <- Z.pow_add_r by lia. replace (k + (52 - k)) with 52 by lia. done. }
    assert (Zpos m1 = Zpos q ↔ Zpos p1 = Zpos p2) as Hiff.
    { rewrite Hm1, Hq, E52, E2. split; [|by intros ->]. intros Hmul. by apply Z.mul_reg_r in Hmul; [| lia]. }
    destruct (Pos.compare_spec m1 q) as [E | E | E]; symmetry.
    + apply bool_decide_eq_true_2, Hiff. by subst.
    + apply bool_decide_eq_false_2. rewrite <- Hiff. lia.
    + apply bool_decide_eq_false_2. rewrite <- Hiff. lia.
  - symmetry. apply bool_decide_eq_false_2. intros [= ->]. lia.
  - symmetry. apply bool_decide_eq_false_2. intros [= ->]. lia.
Qed.
