(* ===== verification/DoubleSpec.v ===== *)
(** * Facts about the floating point arithmetic of the solvers

    The order on doubles; values that are not negative and not NaN, which
    activities and their increments are; and the exact arithmetic on integers
    below [2 ^ 53] that makes the random number generator a linear
    congruential one. *)
From Stdlib Require Import SpecFloat.
From S2P Require Import Prelude Double.

(** ** The order on doubles *)

Definition d_is_nan (x : double) : bool := match x with S754_nan => true | _ => false end.

(** Doubles compare as these triples do, lexicographically. *)
Definition d_key (x : double) : Z * Z * Z :=
  match x with
  | S754_zero _ | S754_nan => (0, 0, 0)
  | S754_infinity s => (if s then -2 else 2, 0, 0)
  | S754_finite s m e => if s then (-1, - e, - Zpos m) else (1, e, Zpos m)
  end.

Definition key_lt (a b : Z * Z * Z) : Prop :=
  a.1.1 < b.1.1 ∨ a.1.1 = b.1.1 ∧ (a.1.2 < b.1.2 ∨ a.1.2 = b.1.2 ∧ a.2 < b.2).

Lemma d_ltb_key x y : d_is_nan x = false → d_is_nan y = false →
  d_ltb x y = true ↔ key_lt (d_key x) (d_key y).
Proof.
  intros Hx Hy. unfold d_ltb, SFltb, key_lt.
  destruct x as [[] | [] | | [] m1 e1], y as [[] | [] | | [] m2 e2]; try done; simpl;
    try (split; [done | lia]); try (split; [lia | done]).
  all: change (Pos.compare_cont Eq m1 m2) with (Pos.compare m1 m2); destruct (Z.compare_spec e1 e2); simpl;
    try (split; [done | lia]); try (split; [lia | done]);
    destruct (Pos.compare_spec m1 m2); simpl; subst; split; try done; lia.
Qed.

Lemma d_ltb_nan x y : d_is_nan x = true ∨ d_is_nan y = true → d_ltb x y = false.
Proof.
  unfold d_ltb, SFltb. destruct x as [[] | [] | | []], y as [[] | [] | | []]; intros []; done.
Qed.

Lemma d_ltb_asym x y : d_ltb x y = true → d_ltb y x = false.
Proof.
  destruct (d_is_nan x) eqn:Hx; [rewrite d_ltb_nan by auto; done |].
  destruct (d_is_nan y) eqn:Hy; [rewrite d_ltb_nan by auto; done |].
  rewrite d_ltb_key by done. intros Hlt. apply not_true_iff_false. rewrite d_ltb_key by done.
  unfold key_lt in *. lia.
Qed.

Lemma d_ltb_ntrans x y z : d_is_nan x = false → d_is_nan y = false → d_is_nan z = false →
  d_ltb x y = false → d_ltb y z = false → d_ltb x z = false.
Proof.
  intros Hx Hy Hz H1 H2. apply not_true_iff_false in H1, H2. apply not_true_iff_false.
  rewrite d_ltb_key in * by done. unfold key_lt in *. lia.
Qed.

(** ** Values that are neither negative nor NaN *)

Definition d_nonneg (a : double) : Prop :=
  match a with
  | S754_zero _ => True
  | S754_infinity s | S754_finite s _ _ => s = false
  | S754_nan => False
  end.

(** A finite positive constant, as a factor. *)
Definition d_factor (a : double) : Prop := match a with S754_finite false _ _ => True | _ => False end.

Lemma shr_1_nonneg r : 0 <= shr_m r → 0 <= shr_m (shr_1 r).
Proof. destruct r as [[| [] |] ? ?]; simpl; lia. Qed.

Lemma shr_nonneg r e n : 0 <= shr_m r → 0 <= shr_m (shr r e n).1.
Proof.
  intros H. destruct n as [| p |]; simpl; try done. revert r H.
  induction p as [p IH | p IH |]; intros r H; simpl; auto using shr_1_nonneg.
Qed.

Lemma even_nonneg m l : 0 <= m → 0 <= round_nearest_even m l.
Proof. intros H. destruct l as [| []]; simpl; try case_match_goal; lia. Qed.

Lemma round_nonneg prec emax m e l : 0 <= m → d_nonneg (binary_round_aux prec emax false m e l).
Proof.
  intros H. unfold binary_round_aux, shr_fexp.
  pose proof (shr_nonneg (shr_record_of_loc m l) e (fexp prec emax (Zdigits2 m + e) - e)) as H1.
  destruct (shr _ _ _) as [r1 e1]. simpl in H1.
  assert (0 <= shr_m r1) as H1' by (apply H1; by destruct l as [| []]). clear H1.
  set (m2 := round_nearest_even _ _).
  assert (0 <= m2) as H2 by by apply even_nonneg.
  pose proof (shr_nonneg (shr_record_of_loc m2 loc_Exact) e1 (fexp prec emax (Zdigits2 m2 + e1) - e1)) as H3.
  destruct (shr _ _ _) as [r2 e2]. simpl in H3. specialize (H3 H2).
  destruct (shr_m r2); [done | by case_match_goal | lia].
Qed.

Lemma normalize_nonneg prec emax m e s : 0 <= m → d_nonneg (binary_normalize prec emax m e s).
Proof.
  intros H. unfold binary_normalize, binary_round. destruct m as [| m |]; [done | | lia].
  destruct (shl_align _ _ _) as [m' e']. apply round_nonneg. lia.
Qed.

Lemma d_add_nonneg a b : d_nonneg a → d_nonneg b → d_nonneg (d_add a b).
Proof.
  destruct a as [[] | [] | | [] ma ea], b as [[] | [] | | [] mb eb]; try done.
  intros _ _. apply normalize_nonneg. simpl. lia.
Qed.

Lemma d_mul_nonneg a b : d_nonneg a → d_factor b → d_nonneg (d_mul a b).
Proof.
  destruct a as [[] | [] | | [] ma ea], b as [[] | [] | | [] mb eb]; try done.
  intros _ _. by apply round_nonneg.
Qed.

Lemma f_of_d_nonneg a : d_nonneg a → d_nonneg (f_of_d a).
Proof.
  destruct a as [[] | [] | | [] ma ea]; try done. intros _. by apply normalize_nonneg.
Qed.

Lemma d_nonneg_nan a : d_nonneg a → d_is_nan a = false.
Proof. by destruct a. Qed.

(** ** Exact arithmetic on integers *)

Lemma iter_shr_exact p : ∀ m, 0 <= m →
  SpecFloat.iter_pos shr_1 p (Build_shr_record (m * 2 ^ Zpos p) false false) = Build_shr_record m false false.
Proof.
  induction p as [p IH | p IH |]; intros m Hm; cbn [SpecFloat.iter_pos].
  - assert (shr_1 (Build_shr_record (m * 2 ^ Zpos p~1) false false) =
      Build_shr_record (m * 2 ^ Zpos p * 2 ^ Zpos p) false false) as ->.
    { replace (m * 2 ^ Zpos p~1) with (2 * (m * 2 ^ Zpos p * 2 ^ Zpos p)).
      - destruct (m * 2 ^ Zpos p * 2 ^ Zpos p); done.
      - rewrite (Pos2Z.inj_xI p). replace (2 * Zpos p + 1) with (Zpos p + Zpos p + 1) by lia.
        rewrite !Z.pow_add_r by lia. lia. }
    rewrite !IH by lia. done.
  - replace (m * 2 ^ Zpos p~0) with (m * 2 ^ Zpos p * 2 ^ Zpos p).
    + rewrite !IH by lia. done.
    + rewrite (Pos2Z.inj_xO p). replace (2 * Zpos p) with (Zpos p + Zpos p) by lia.
      rewrite Z.pow_add_r by lia. lia.
  - replace (m * 2 ^ 1) with (2 * m) by lia. destruct m; done.
Qed.

Lemma shr_exact m e n : 0 <= m → 0 <= n →
  shr (Build_shr_record (m * 2 ^ n) false false) e n = (Build_shr_record m false false, e + n).
Proof.
  intros Hm Hn. destruct n as [| p |]; simpl; [| | lia].
  - by rewrite Z.mul_1_r, Z.add_0_r.
  - by rewrite iter_shr_exact.
Qed.

(** [p * 2 ^ (- e)] with exponent [e], when [p] has at most 53 bits. *)
Lemma round_aux_int p e k : Zpos p < 2 ^ 53 → -1000 <= e <= Z.log2 (Zpos p) - 52 → k = Zpos p * 2 ^ (- e) →
  binary_round_aux 53 1024 false k e loc_Exact = d_of_Z (Zpos p).
Proof.
  intros Hp He ->. destruct (d_of_Z_pos p Hp) as (m & -> & Hd & Hm).
  set (g := Z.log2 (Zpos p)) in *.
  assert (0 <= g <= 52) as Hg.
  { split; [apply Z.log2_nonneg |]. assert (g < 53); [| lia]. apply Z.log2_lt_pow2; lia. }
  assert (Zpos p * 2 ^ (- e) = Zpos m * 2 ^ (g - 52 - e)) as ->.
  { rewrite Hm, <- Z.mul_assoc, <- Z.pow_add_r by lia. do 2 f_equal. lia. }
  assert (Zdigits2 (Zpos m * 2 ^ (g - 52 - e)) = g + 1 - e) as Hdig.
  { pose proof (Z.pow_pos_nonneg 2 (g - 52 - e) ltac:(lia) ltac:(lia)).
    destruct (Zpos m * 2 ^ (g - 52 - e)) as [| x |] eqn:Ex; [lia | | lia]. simpl Zdigits2.
    rewrite digits2_log2, <- Ex, Z.log2_mul_pow2 by lia.
    rewrite digits2_log2 in Hd. lia. }
  unfold binary_round_aux, shr_fexp at 1. rewrite Hdig.
  assert (fexp 53 1024 (g + 1 - e + e) - e = g - 52 - e) as -> by (unfold fexp, emin; lia).
  cbn [shr_record_of_loc]. rewrite shr_exact by lia.
  cbn [shr_m loc_of_shr_record round_nearest_even].
  unfold shr_fexp. cbn [Zdigits2 shr_record_of_loc]. rewrite Hd.
  replace (e + (g - 52 - e)) with (g - 52) by lia.
  assert (fexp 53 1024 (53 + (g - 52)) - (g - 52) = 0) as -> by (unfold fexp, emin; lia).
  cbn [shr shr_m]. destruct (Z.leb_spec (g - 52) (1024 - 53)); [done | lia].
Qed.

Lemma d_of_Z_zero : d_of_Z 0 = S754_zero false.
Proof. done. Qed.

Lemma d_of_Z_nonneg z : 0 <= z → d_nonneg (d_of_Z z).
Proof. apply normalize_nonneg. Qed.

Lemma d_mul_Z a b : 0 <= a < 2 ^ 53 → 0 <= b < 2 ^ 53 → a * b < 2 ^ 53 →
  d_mul (d_of_Z a) (d_of_Z b) = d_of_Z (a * b).
Proof.
  intros Ha Hb Hab. destruct a as [| a |]; [| | lia].
  { rewrite Z.mul_0_l. destruct b as [| b |]; [done | | lia].
    by destruct (d_of_Z_pos b ltac:(lia)) as (m & -> & _). }
  destruct (d_of_Z_pos a ltac:(lia)) as (ma & -> & Hda & Hma).
  destruct b as [| b |]; [done | | lia].
  destruct (d_of_Z_pos b ltac:(lia)) as (mb & -> & Hdb & Hmb).
  unfold d_mul, SFmul. simpl xorb. change (Zpos a * Zpos b) with (Zpos (a * b)) in *.
  assert (∀ p, Zpos p < 2 ^ 53 → 0 <= Z.log2 (Zpos p) <= 52) as Hlg.
  { intros p Hp. split; [apply Z.log2_nonneg |].
    assert (Z.log2 (Zpos p) < 53); [apply Z.log2_lt_pow2; lia | lia]. }
  pose proof (Hlg a ltac:(lia)). pose proof (Hlg b ltac:(lia)). pose proof (Hlg _ Hab).
  pose proof (Z.log2_mul_below (Zpos a) (Zpos b) ltac:(lia) ltac:(lia)) as Hl.
  change (Zpos a * Zpos b) with (Zpos (a * b)) in Hl.
  apply round_aux_int; [done | lia |]. rewrite Pos2Z.inj_mul, Hma, Hmb, Pos2Z.inj_mul.
  replace (- (Z.log2 (Zpos a) - 52 + (Z.log2 (Zpos b) - 52))) with
    (52 - Z.log2 (Zpos a) + (52 - Z.log2 (Zpos b))) by lia.
  rewrite Z.pow_add_r by lia. lia.
Qed.

Lemma shl_align_spec m e e' : let '(m', k) := shl_align m e e' in
  k = Z.min e e' ∧ Zpos m' = Zpos m * 2 ^ (e - k).
Proof.
  unfold shl_align. destruct (e' - e) as [| d | d] eqn:E.
  - split; [lia |]. by rewrite Z.sub_diag, Z.mul_1_r.
  - split; [lia |]. by rewrite Z.sub_diag, Z.mul_1_r.
  - split; [lia |]. rewrite iter_xO. do 2 f_equal. lia.
Qed.

Lemma log2_range p : Zpos p < 2 ^ 53 → 0 <= Z.log2 (Zpos p) <= 52.
Proof.
  intros Hp. split; [apply Z.log2_nonneg |].
  assert (Z.log2 (Zpos p) < 53); [apply Z.log2_lt_pow2; lia | lia].
Qed.

Lemma round_int p m e : Zpos p < 2 ^ 53 → -900 <= e <= 0 → Zpos m = Zpos p * 2 ^ (- e) →
  binary_round 53 1024 false m e = d_of_Z (Zpos p).
Proof.
  intros Hp He Hm. pose proof (log2_range p Hp). unfold binary_round.
  assert (fexp 53 1024 (Zpos (digits2_pos m) + e) = Z.log2 (Zpos p) - 52) as ->.
  { rewrite digits2_log2, Hm, Z.log2_mul_pow2 by lia. unfold fexp, emin. lia. }
  pose proof (shl_align_spec m e (Z.log2 (Zpos p) - 52)) as Hs.
  destruct (shl_align _ _ _) as [m' k]. destruct Hs as [Hk Hm']. apply round_aux_int; [done | lia |].
  rewrite Hm', Hm, <- Z.mul_assoc, <- Z.pow_add_r by lia. do 2 f_equal. lia.
Qed.

Lemma d_sub_Z a b : 0 <= b <= a → a < 2 ^ 53 → d_sub (d_of_Z a) (d_of_Z b) = d_of_Z (a - b).
Proof.
  intros Hb Ha. destruct b as [| b |]; [| | lia].
  { rewrite Z.sub_0_r. destruct a as [| a |]; [done | | lia].
    by destruct (d_of_Z_pos a ltac:(lia)) as (m & -> & _). }
  destruct a as [| a |]; [lia | | lia].
  destruct (d_of_Z_pos a Ha) as (ma & -> & Hda & Hma).
  destruct (d_of_Z_pos b ltac:(lia)) as (mb & -> & Hdb & Hmb).
  pose proof (log2_range a ltac:(lia)) as La. pose proof (log2_range b ltac:(lia)) as Lb.
  unfold d_sub, SFsub. set (ez := Z.min _ _).
  pose proof (shl_align_spec ma (Z.log2 (Zpos a) - 52) ez) as Sa.
  pose proof (shl_align_spec mb (Z.log2 (Zpos b) - 52) ez) as Sb.
  destruct (shl_align ma _ _) as [ma' ka]. destruct (shl_align mb _ _) as [mb' kb]. cbn [fst cond_Zopp].
  destruct Sa as [Ka Ea], Sb as [Kb Eb].
  assert (ka = ez ∧ kb = ez) as [-> ->] by lia.
  assert (Zpos ma' - Zpos mb' = (Zpos a - Zpos b) * 2 ^ (- ez)) as ->.
  { rewrite Ea, Eb, Hma, Hmb, <- !Z.mul_assoc, <- !Z.pow_add_r by lia.
    replace (52 - Z.log2 (Zpos a) + (Z.log2 (Zpos a) - 52 - ez)) with (- ez) by lia.
    replace (52 - Z.log2 (Zpos b) + (Z.log2 (Zpos b) - 52 - ez)) with (- ez) by lia. lia. }
  pose proof (Z.pow_pos_nonneg 2 (- ez) ltac:(lia) ltac:(lia)).
  destruct (Zpos a - Zpos b) as [| d |] eqn:Ed; [done | | lia].
  destruct (Zpos d * 2 ^ (- ez)) as [| m |] eqn:Em; [lia | | lia].
  apply round_int; [lia | lia | done].
Qed.

Lemma d_to_int_Z z : 0 <= z < 2 ^ 31 → d_to_int (d_of_Z z) = Some z.
Proof.
  intros Hz. unfold d_to_int. assert (d_trunc (d_of_Z z) = Some z) as ->.
  { destruct z as [| p |]; [done | | lia].
    destruct (d_of_Z_pos p ltac:(lia)) as (m & -> & _ & Hm). pose proof (log2_range p ltac:(lia)).
    assert (Z.log2 (Zpos p) < 31) by (apply Z.log2_lt_pow2; lia).
    cbn [d_trunc]. destruct (Z.leb_spec 0 (Z.log2 (Zpos p) - 52)); [lia |]. f_equal.
    rewrite Hm. replace (- (Z.log2 (Zpos p) - 52)) with (52 - Z.log2 (Zpos p)) by lia.
    apply Z.div_mul. pose proof (Z.pow_pos_nonneg 2 (52 - Z.log2 (Zpos p)) ltac:(lia) ltac:(lia)). lia. }
  simpl. destruct (Z.leb_spec (- 2 ^ 31) z); [| lia]. by destruct (Z.ltb_spec z (2 ^ 31)); [| lia].
Qed.

(** ** The integer part of a quotient *)

Lemma shr_1_half r : 0 <= shr_m r → shr_m (shr_1 r) = shr_m r / 2.
Proof. destruct r as [[| [] |] ? ?]; simpl; intros; try lia; try done. all: rewrite <- Z.div2_div; done. Qed.

Lemma shr_m_loc m l : shr_m (shr_record_of_loc m l) = m.
Proof. by destruct l as [| []]. Qed.

Lemma even_step m l : round_nearest_even m l = m ∨ round_nearest_even m l = m + 1.
Proof. destruct l as [| []]; simpl; try case_match_goal; auto. Qed.

Lemma digits_range m d : 0 <= d → 2 ^ d <= m < 2 ^ (d + 1) → Zdigits2 m = d + 1.
Proof.
  intros Hd Hm. pose proof (Z.pow_pos_nonneg 2 d ltac:(lia) Hd).
  destruct m as [| p |]; [lia | | lia]. simpl. rewrite digits2_log2. f_equal. by apply Z.log2_unique.
Qed.

(** Rounding a significand of 53 or 54 bits gives one of its two neighbours. *)
Lemma round_aux_near m e l : 2 ^ 52 <= m < 2 ^ 54 → -1000 <= e <= 900 → ∃ m' e' k v,
  binary_round_aux 53 1024 false m e l = S754_finite false m' e' ∧ (k = 0 ∨ k = 1) ∧
  (v = m / 2 ^ k ∨ v = m / 2 ^ k + 1) ∧ e + k <= e' <= e + k + 1 ∧ Zpos m' * 2 ^ (e' - (e + k)) = v.
Proof.
  intros Hm He.
  assert (∃ k, (k = 0 ∨ k = 1) ∧ 2 ^ 52 <= m / 2 ^ k < 2 ^ 53 ∧
    fexp 53 1024 (Zdigits2 m + e) - e = k ∧
    shr_m (shr (shr_record_of_loc m l) e k).1 = m / 2 ^ k ∧
    (shr (shr_record_of_loc m l) e k).2 = e + k) as (k & Hk & Hr & Hf & Hs & Hs2).
  { destruct (Z.ltb_spec m (2 ^ 53)) as [Hlt | Hge].
    - exists 0. rewrite (digits_range m 52) by lia. cbn [shr fst snd]. rewrite shr_m_loc, Z.div_1_r, Z.add_0_r.
      split; [by left |]. split; [lia |]. split; [unfold fexp, emin; lia | done].
    - exists 1. rewrite (digits_range m 53) by lia. cbn [shr SpecFloat.iter_pos fst snd].
      rewrite shr_1_half; rewrite shr_m_loc; [| lia]. change (2 ^ 1) with 2.
      split; [by right |]. split; [| split; [unfold fexp, emin; lia | done]].
      split; [apply Z.div_le_lower_bound; lia | apply Z.div_lt_upper_bound; lia]. }
  unfold binary_round_aux, shr_fexp at 1. rewrite Hf.
  destruct (shr (shr_record_of_loc m l) e k) as [r1 e1]. cbn [fst snd] in *. subst e1. rewrite Hs.
  set (w := loc_of_shr_record r1). pose proof (even_step (m / 2 ^ k) w) as Hv.
  set (v := round_nearest_even _ _) in *. 
  assert (2 ^ 52 <= v < 2 ^ 53 ∨ v = 2 ^ 53) as [Hv2 | Hv2] by lia.
  - exists (Z.to_pos v), (e + k), k, v. unfold shr_fexp. rewrite (digits_range v 52) by lia.
    assert (fexp 53 1024 (52 + 1 + (e + k)) - (e + k) = 0) as -> by (unfold fexp, emin; lia).
    cbn [shr shr_record_of_loc shr_m]. rewrite Z.sub_diag, Z.mul_1_r.
    destruct v as [| p |]; [lia | | lia]. destruct (Z.leb_spec (e + k) (1024 - 53)); [| lia].
    split; [done |]. split; [done |]. split; [done |]. split; [lia | done].
  - exists (2 ^ 52)%positive, (e + k + 1), k, v. rewrite Hv2. unfold shr_fexp.
    assert (fexp 53 1024 (Zdigits2 (2 ^ 53) + (e + k)) - (e + k) = 1) as ->.
    { rewrite (digits_range (2 ^ 53) 53) by lia. unfold fexp, emin. lia. }
    assert (shr (shr_record_of_loc (2 ^ 53) loc_Exact) (e + k) 1 =
      (Build_shr_record (2 ^ 52) false false, e + k + 1)) as -> by done.
    cbn [shr_m]. destruct (Z.leb_spec (e + k + 1) (1024 - 53)); [| lia].
    split; [done |]. split; [done |]. split; [lia |]. split; [lia |].
    replace (e + k + 1 - (e + k)) with 1 by lia. done.
Qed.

(** The quotient of two integers rounds to a double with the right integer part
    when the dividend has at most 52 bits. *)
Lemma d_div_Z a b : 0 <= a < 2 ^ 52 → 1 < b < 2 ^ 53 →
  d_trunc (d_div (d_of_Z a) (d_of_Z b)) = Some (a / b) ∧ d_nonneg (d_div (d_of_Z a) (d_of_Z b)).
Proof.
  intros Ha Hb. destruct b as [| b |]; [lia | | lia].
  destruct a as [| a |]; [| | lia].
  { rewrite Z.div_0_l by lia. by destruct (d_of_Z_pos b ltac:(lia)) as (m & -> & _). }
  destruct (d_of_Z_pos a ltac:(lia)) as (ma & -> & Hda & Hma).
  destruct (d_of_Z_pos b ltac:(lia)) as (mb & -> & Hdb & Hmb).
  set (la := Z.log2 (Zpos a)) in *. set (lb := Z.log2 (Zpos b)) in *.
  pose proof (log2_range a ltac:(lia)) as La. pose proof (log2_range b ltac:(lia)) as Lb.
  fold la in La. fold lb in Lb.
  assert (la < 52) as La' by (apply Z.log2_lt_pow2; lia).
  assert (1 <= lb) as Hlb1 by (apply (Z.log2_le_pow2 (Zpos b) 1); lia).
  assert (Zpos b < 2 ^ (lb + 1)) as Hlb by (apply Z.log2_spec; lia).
  unfold d_div, SFdiv, SFdiv_core_binary. cbn [Zdigits2]. rewrite Hda, Hdb.
  assert (Z.min (fexp 53 1024 (53 + (la - 52) - (53 + (lb - 52)))) (la - 52 - (lb - 52)) = la - lb - 53) as ->
    by (unfold fexp, emin; lia).
  replace (la - 52 - (lb - 52) - (la - lb - 53)) with 53 by lia. rewrite Z.shiftl_mul_pow2 by lia.
  assert (Z.div_eucl (Zpos ma * 2 ^ 53) (Zpos mb) = (Zpos ma * 2 ^ 53 / Zpos mb, Zpos ma * 2 ^ 53 mod Zpos mb)) as ->.
  { unfold Z.div, Z.modulo. by destruct (Z.div_eucl _ _). }
  set (Q := Zpos ma * 2 ^ 53 / Zpos mb). simpl xorb.
  assert (2 ^ 52 <= Zpos ma < 2 ^ 53 ∧ 2 ^ 52 <= Zpos mb < 2 ^ 53) as [Ra Rb].
  { rewrite digits2_log2 in Hda, Hdb. pose proof (Z.log2_spec (Zpos ma) ltac:(lia)) as Sa.
    pose proof (Z.log2_spec (Zpos mb) ltac:(lia)) as Sb.
    replace (Z.log2 (Zpos ma)) with 52 in Sa by lia. replace (Z.log2 (Zpos mb)) with 52 in Sb by lia. done. }
  assert (2 ^ 52 <= Q < 2 ^ 54) as HQ.
  { unfold Q. split; [apply Z.div_le_lower_bound; lia | apply Z.div_lt_upper_bound; lia]. }
  destruct (round_aux_near Q (la - lb - 53) (new_location (Zpos mb) (Zpos ma * 2 ^ 53 mod Zpos mb)) HQ ltac:(lia))
    as (m' & e' & k & v & -> & Hk & Hv & He' & Hm').
  split; [| done]. cbn [d_trunc]. destruct (Z.leb_spec 0 e'); [lia |]. f_equal.
  set (t := - (la - lb - 53 + k)) in *.
  assert (lb + 1 <= t) as Ht by lia.
  assert (Q / 2 ^ k = Zpos a * 2 ^ t / Zpos b) as HK.
  { unfold Q. pose proof (Z.pow_pos_nonneg 2 k ltac:(lia) ltac:(lia)).
    pose proof (Z.pow_pos_nonneg 2 (52 - lb + k) ltac:(lia) ltac:(lia)).
    rewrite Z.div_div by lia. rewrite Hma, Hmb.
    rewrite <- (Z.div_mul_cancel_r (Zpos a * 2 ^ t) (Zpos b) (2 ^ (52 - lb + k))) by lia.
    rewrite <- !Z.mul_assoc, <- !Z.pow_add_r by lia.
    do 2 f_equal; f_equal; unfold t; lia. }
  assert (Zpos m' / 2 ^ (- e') = v / 2 ^ t) as ->.
  { rewrite <- Hm'. pose proof (Z.pow_pos_nonneg 2 (e' - (la - lb - 53 + k)) ltac:(lia) ltac:(lia)).
    pose proof (Z.pow_pos_nonneg 2 (- e') ltac:(lia) ltac:(lia)).
    rewrite <- (Z.div_mul_cancel_r (Zpos m') (2 ^ (- e')) (2 ^ (e' - (la - lb - 53 + k)))) by lia.
    rewrite <- Z.pow_add_r by lia. do 2 f_equal. unfold t. lia. }
  assert (Zpos b < 2 ^ t) as Hbt.
  { eapply Z.lt_le_trans; [exact Hlb |]. apply Z.pow_le_mono_r; lia. }
  rewrite HK in Hv. clear - Hv Hbt.
  set (T := 2 ^ t) in *. set (A := Zpos a) in *. set (B := Zpos b) in *.
  assert (0 < B) as HB by done.
  pose proof (Z.div_mod A B ltac:(lia)) as Hdm. pose proof (Z.mod_pos_bound A B HB) as Hr.
  set (d := A / B) in *. set (r := A mod B) in *.
  assert (A * T / B = d * T + r * T / B) as E.
  { rewrite Hdm, Z.mul_add_distr_r.
    replace (B * d * T + r * T) with (d * T * B + r * T) by lia. by rewrite Z.div_add_l by lia. }
  assert (0 <= r * T / B) as H0 by (apply Z.div_pos; nia).
  assert (r * T / B <= T - 2) as H2.
  { assert (r * T / B < T - 1); [| lia]. apply Z.div_lt_upper_bound; nia. }
  symmetry. apply (Z.div_unique _ _ _ (v - d * T)); lia.
Qed.
