(* ===== verification/Queue.v ===== *)
(** * [Mini::Queue]: the circular buffer

    [mtl/Queue.h].  A queue is its buffer with the positions of the first
    element and of the first free cell; one cell is always free.  [elems] is the
    sequence it stands for, and the operations are those of a sequence.  The
    sizes are not bounded by the width of [int]. *)
From S2P Require Import Prelude.

Record Queue (A : Type) := MkQueue { buf : list A; first : nat; end_ : nat }.

Arguments MkQueue {A}.
Arguments buf {A}.
Arguments first {A}.
Arguments end_ {A}.

Section Ops.
Context {A : Type} `{Inhabited A}.
Implicit Types (q : Queue A).

Definition new_queue : Queue A := MkQueue [inhabitant] 0 0.

(** [clear()]: the elements of the buffer are dropped, one cell is left. *)
Definition q_clear q : Queue A := MkQueue [inhabitant] 0 0.

Definition q_size q : nat :=
  if Nat.leb (first q) (end_ q) then end_ q - first q else end_ q + length (buf q) - first q.

(** [operator[]]. *)
Definition q_at q (i : nat) : A := buf q !!! ((first q + i) mod length (buf q))%nat.

Definition q_peek q : A := buf q !!! first q.

Definition q_pop q : Queue A :=
  MkQueue (buf q) (if Nat.eqb (S (first q)) (length (buf q)) then 0 else S (first q)) (end_ q).

(** [insert(elem)]: a full buffer is unrolled into one of half as many cells
    more, [(size * 3 + 1) >> 1]. *)
Definition q_insert q (x : A) : Queue A :=
  let b := <[end_ q := x]> (buf q) in
  let e := if Nat.eqb (S (end_ q)) (length b) then 0%nat else S (end_ q) in
  if Nat.eqb (first q) e then
    MkQueue (drop (first q) b ++ take e b ++
             replicate ((length b * 3 + 1) / 2 - length b)%nat inhabitant) 0 (length b)
  else MkQueue b (first q) e.

(** ** The sequence *)

Definition elems q : list A :=
  if Nat.leb (first q) (end_ q) then take (end_ q - first q) (drop (first q) (buf q))
  else drop (first q) (buf q) ++ take (end_ q) (buf q).

Definition wf q : Prop := (first q < length (buf q))%nat ∧ (end_ q < length (buf q))%nat.

Lemma new_queue_spec : wf new_queue ∧ elems new_queue = [].
Proof. split; [split; simpl; lia | done]. Qed.

Lemma q_size_spec q : wf q → q_size q = length (elems q).
Proof.
  intros [H1 H2]. unfold q_size, elems. destruct (Nat.leb_spec (first q) (end_ q)).
  - rewrite length_take, length_drop. lia.
  - rewrite length_app, length_take, length_drop. lia.
Qed.

Lemma q_at_spec q i : wf q → (i < q_size q)%nat → elems q !! i = Some (q_at q i).
Proof.
  intros [H1 H2] Hi. unfold q_at, elems. unfold q_size in Hi. destruct (Nat.leb_spec (first q) (end_ q)).
  - rewrite lookup_take_lt, lookup_drop by lia. rewrite Nat.mod_small by lia.
    apply list_lookup_lookup_total_lt. lia.
  - destruct (decide (first q + i < length (buf q))%nat) as [Hlt | Hge].
    + rewrite lookup_app_l by (rewrite length_drop; lia). rewrite lookup_drop, Nat.mod_small by lia.
      by apply list_lookup_lookup_total_lt.
    + rewrite lookup_app_r by (rewrite length_drop; lia). rewrite length_drop, lookup_take_lt by lia.
      assert ((first q + i) mod length (buf q) = first q + i - length (buf q))%nat as ->.
      { symmetry. apply (Nat.mod_unique _ _ 1); lia. }
      replace (i - (length (buf q) - first q))%nat with (first q + i - length (buf q))%nat by lia.
      apply list_lookup_lookup_total_lt. lia.
Qed.

Lemma peek_pop_spec q x r : wf q → elems q = x :: r → q_peek q = x ∧ wf (q_pop q) ∧ elems (q_pop q) = r.
Proof.
  intros [H1 H2] E. pose proof (q_size_spec q (conj H1 H2)) as Hs. rewrite E in Hs. simpl in Hs.
  assert (q_peek q = x) as Hp.
  { pose proof (q_at_spec q 0 (conj H1 H2) ltac:(lia)) as H0. rewrite E in H0. injection H0 as ->.
    unfold q_at, q_peek. by rewrite Nat.add_0_r, Nat.mod_small by lia. }
  split; [done |]. unfold q_peek in Hp.
  assert (drop (first q) (buf q) = x :: drop (S (first q)) (buf q)) as Hd.
  { rewrite <- Hp. apply drop_S. by apply list_lookup_lookup_total_lt. }
  unfold q_size in Hs. unfold q_pop, wf, elems in *. cbn [buf first end_].
  destruct (Nat.eqb_spec (S (first q)) (length (buf q))) as [Ew | Hw].
  - split; [lia |]. destruct (Nat.leb_spec (first q) (end_ q)); [lia |]. cbn [Nat.leb]. rewrite Nat.sub_0_r, drop_0.
    rewrite Hd in E. rewrite (drop_ge (buf q) (S (first q))) in E by lia. simpl in E. by injection E.
  - split; [lia |]. destruct (Nat.leb_spec (first q) (end_ q)), (Nat.leb_spec (S (first q)) (end_ q)); try lia.
    + rewrite Hd in E. replace (end_ q - first q)%nat with (S (end_ q - S (first q))) in E by lia.
      simpl in E. by injection E.
    + rewrite Hd in E. simpl in E. by injection E.
Qed.

Lemma q_insert_spec q x : wf q → wf (q_insert q x) ∧ elems (q_insert q x) = elems q ++ [x].
Proof.
  intros [H1 H2]. unfold q_insert. set (b := <[end_ q := x]> (buf q)).
  assert (length b = length (buf q)) as Hl by apply length_insert.
  assert (b !! end_ q = Some x) as Hx by by apply list_lookup_insert_eq.
  assert (take (S (end_ q)) b = take (end_ q) (buf q) ++ [x]) as Ht.
  { rewrite (take_S_r _ _ x Hx). unfold b. by rewrite take_insert_ge. }
  assert (∀ n, (end_ q < n)%nat → drop n b = drop n (buf q)) as Hd.
  { intros n Hn. unfold b. by rewrite drop_insert_lt. }
  rewrite Hl. set (pad := replicate _ _).
  assert (0 < length pad)%nat as Hpad.
  { unfold pad. rewrite length_replicate. pose proof (Nat.div_mod_eq (length (buf q) * 3 + 1) 2).
    pose proof (Nat.mod_upper_bound (length (buf q) * 3 + 1) 2). lia. }
  clearbody pad. destruct (Nat.eqb_spec (S (end_ q)) (length (buf q))) as [Ew | Hw].
  - destruct (Nat.eqb_spec (first q) 0) as [E0 | Hne].
    + assert (b = take (end_ q) (buf q) ++ [x]) as Eb by (rewrite <- Ht, take_ge; [done | lia]).
      unfold wf, elems. simpl. rewrite E0, drop_0, !length_app, Hl. simpl. split; [lia |].
      rewrite Nat.sub_0_r, !drop_0, take_app_le, take_ge by lia. by rewrite Nat.sub_0_r.
    + unfold wf, elems. simpl. split; [lia |]. destruct (Nat.leb_spec (first q) (end_ q)); [| lia].
      destruct (Nat.leb_spec (first q) 0); [lia |]. rewrite app_nil_r.
      assert (b = take (end_ q) (buf q) ++ [x]) as -> by (rewrite <- Ht, take_ge; [done | lia]).
      rewrite drop_app_le by (rewrite length_take; lia). f_equal.
      rewrite take_drop_commute. by replace (first q + (end_ q - first q))%nat with (end_ q) by lia.
  - destruct (Nat.eqb_spec (first q) (S (end_ q))) as [Ef | Hne].
    + unfold wf, elems. simpl. rewrite !length_app, length_drop, length_take, Hl. split; [lia |].
      destruct (Nat.leb_spec (first q) (end_ q)); [lia |]. rewrite Nat.sub_0_r, drop_0.
      rewrite Hd, Ht by lia. rewrite !(assoc_L (++)), take_app_le.
      * rewrite take_ge; [done |]. rewrite !length_app, length_drop, length_take. simpl. lia.
      * rewrite !length_app, length_drop, length_take. simpl. lia.
    + unfold wf, elems. simpl. split; [lia |].
      destruct (Nat.leb_spec (first q) (end_ q)), (Nat.leb_spec (first q) (S (end_ q))); try lia.
      * rewrite !take_drop_commute. replace (first q + (S (end_ q) - first q))%nat with (S (end_ q)) by lia.
        replace (first q + (end_ q - first q))%nat with (end_ q) by lia.
        rewrite Ht. apply drop_app_le. rewrite length_take. lia.
      * rewrite Hd by lia. rewrite Ht. by rewrite (assoc_L (++)).
Qed.
End Ops.

(** C37. [Queue] refines a sequence: [q_insert] appends, [q_peek] and [q_pop] take the
    first element, [operator[]] and [size] read the sequence, in every state of
    the circular buffer and across the growth of its buffer. *)
Theorem queue_refines {A} `{Inhabited A} (q : Queue A) (x : A) : wf q →
  (wf (q_insert q x) ∧ elems (q_insert q x) = elems q ++ [x]) ∧
  q_size q = length (elems q) ∧ (∀ i, (i < q_size q)%nat → elems q !! i = Some (q_at q i)) ∧
  ∀ y r, elems q = y :: r → q_peek q = y ∧ wf (q_pop q) ∧ elems (q_pop q) = r.
Proof.
  intros Hw. split; [by apply q_insert_spec |]. split; [by apply q_size_spec |].
  split; [intros i; by apply q_at_spec | intros y r; by apply peek_pop_spec].
Qed.

(** A full buffer that has gone round: 2, 3 and then 4. *)
Lemma queue_refines_witness :
  elems (q_insert (MkQueue [3; 0; 2] 2%nat 1%nat) 4) = [2; 3; 4] ∧ length (buf (q_insert (MkQueue [3; 0; 2] 2%nat 1%nat) 4)) = 5%nat.
Proof.
  split; [| reflexivity].
  destruct (queue_refines (MkQueue [3; 0; 2] 2%nat 1%nat) 4) as [[_ E] _]; [split; simpl; lia | exact E].
Defined.
