(* ===== verification/Clause.v ===== *)
(** * Clauses, the clause arena and occurrence lists

    [minisat/core/SolverTypes.h]: [Clause], [ClauseAllocator] and [OccLists].
    A clause is its header bits, its literals and the extra word (an activity
    for learnt clauses, an abstraction of its variables otherwise).  The arena
    is the bump allocator of [Alloc] together with the clauses stored at the
    references it handed out. *)
From Stdlib Require Import SpecFloat.
From S2P Require Import Prelude Lit Vec Alloc Double.

(** ** [Clause] *)

Record Clause := MkClause {
  c_mark : Z;          (* header.mark, two bits *)
  c_learnt : bool;
  c_has_extra : bool;
  c_reloced : bool;
  c_lits : list Lit;   (* data[0 .. header.size).lit *)
  c_act : double;      (* data[header.size].act, a float *)
  c_abs : Z }.         (* data[header.size].abs, a uint32_t *)

Definition c_size (c : Clause) : Z := Z.of_nat (length (c_lits c)).

Definition set_lits (c : Clause) (ls : list Lit) : Clause :=
  MkClause (c_mark c) (c_learnt c) (c_has_extra c) (c_reloced c) ls (c_act c) (c_abs c).

Definition set_mark (c : Clause) (m : Z) : Clause :=
  MkClause m (c_learnt c) (c_has_extra c) (c_reloced c) (c_lits c) (c_act c) (c_abs c).

Definition set_act (c : Clause) (a : double) : Clause :=
  MkClause (c_mark c) (c_learnt c) (c_has_extra c) (c_reloced c) (c_lits c) a (c_abs c).

(** [abstraction |= 1 << (var(data[i].lit) & 31)] for every literal. *)
Definition abstraction (ls : list Lit) : Z :=
  foldl (λ a l, Z.lor a (u32 (Z.shiftl 1 (Z.land (var l) 31)))) 0 ls.

Definition calcAbstraction (c : Clause) : Clause :=
  MkClause (c_mark c) (c_learnt c) (c_has_extra c) (c_reloced c) (c_lits c) (c_act c)
           (abstraction (c_lits c)).

(** [Clause(ps, use_extra, learnt)]. *)
Definition new_clause (ps : list Lit) (use_extra learnt : bool) : Clause :=
  let c := MkClause 0 learnt use_extra false ps (S754_zero false) 0 in
  if use_extra && negb learnt then calcAbstraction c else c.

(** [Clause(from, use_extra)]: the copy may lose the extra word. *)
Definition copy_clause (from : Clause) (use_extra : bool) : Clause :=
  MkClause (c_mark from) (c_learnt from) use_extra (c_reloced from) (c_lits from)
           (if use_extra && c_learnt from then c_act from else S754_zero false)
           (if use_extra && negb (c_learnt from) then c_abs from else 0).

(** [shrink(i)], [pop()]: the extra word moves along with the end. *)
Definition c_shrink (c : Clause) (i : nat) : Clause :=
  set_lits c (take (length (c_lits c) - i) (c_lits c)).

Definition c_pop (c : Clause) : Clause := c_shrink c 1.

Definition c_last (c : Clause) : option Lit := last (c_lits c).

(** [relocate(cr)] overwrites [data[0]] with the forwarding reference, read
    back by [relocation()]. *)
Definition relocate (c : Clause) (cr : Z) : Clause :=
  MkClause (c_mark c) (c_learnt c) (c_has_extra c) true
           (<[0%nat := MkLit cr]> (c_lits c)) (c_act c) (c_abs c).

Definition relocation (c : Clause) : Z := u32 (lit_x (c_lits c !!! 0%nat)).

(** [remove(ts, t)] of [mtl/Alg.h]: shifts the elements behind the first
    occurrence of [t] and drops the last; absent, an assertion fails. *)
Fixpoint remove_first {A} `{EqDecision A} (t : A) (ts : list A) : option (list A) :=
  match ts with
  | [] => None
  | x :: ts => if decide (x = t) then Some ts else cons x <$> remove_first t ts
  end.

(** [find(ts, t)]. *)
Definition find_elem {A} `{EqDecision A} (ts : list A) (t : A) : bool := bool_decide (t ∈ ts).

Definition strengthen (c : Clause) (p : Lit) : option Clause :=
  ls ← remove_first p (c_lits c);
  Some (calcAbstraction (set_lits c ls)).

(** The inner loop of [subsumes]: looks for [ci] or, once, for its negation in
    the other clause. *)
Fixpoint subsumes_find (ret ci : Lit) (d : list Lit) : option Lit :=
  match d with
  | [] => None
  | dj :: d =>
      if lit_eqb ci dj then Some ret
      else if lit_eqb ret lit_Undef && lit_eqb ci (lit_neg dj) then Some ci
      else subsumes_find ret ci d
  end.

Fixpoint subsumes_loop (ret : Lit) (c d : list Lit) : Lit :=
  match c with
  | [] => ret
  | ci :: c =>
      match subsumes_find ret ci d with
      | Some ret => subsumes_loop ret c d
      | None => lit_Error
      end
  end.

Definition subsumes (c other : Clause) : Lit :=
  if (c_size other <? c_size c) || negb (Z.ldiff (c_abs c) (c_abs other) =? 0)
  then lit_Error
  else subsumes_loop lit_Undef (c_lits c) (c_lits other).

(** ** [ClauseAllocator] *)

Definition CRef := Z.

Definition CRef_Undef : CRef := Ref_Undef.

Record Arena := MkArena {
  a_region : Region;
  a_mem : gmap Z Clause;
  a_extra : bool }.      (* extra_clause_field *)

Definition empty_arena : Arena := MkArena empty_region ∅ false.

(** [sizeof(Clause)] is the 4-byte header. *)
Definition clauseWord32Size (size : Z) (has_extra : bool) : Z := 1 + (size + Z.b2z has_extra).

Definition ca_deref (ca : Arena) (cr : CRef) : option Clause := a_mem ca !! cr.

Definition ca_store (ca : Arena) (cr : CRef) (c : Clause) : Arena :=
  MkArena (a_region ca) (<[cr := c]> (a_mem ca)) (a_extra ca).

(** [alloc(ps, learnt)]. *)
Definition ca_alloc (ca : Arena) (ps : list Lit) (learnt : bool) : option (CRef * Arena) :=
  let use_extra := learnt || a_extra ca in
  '(cid, r) ← alloc (a_region ca) (clauseWord32Size (Z.of_nat (length ps)) use_extra);
  Some (cid, MkArena r (<[cid := new_clause ps use_extra learnt]> (a_mem ca)) (a_extra ca)).

(** [alloc(from)]. *)
Definition ca_alloc_copy (ca : Arena) (from : Clause) : option (CRef * Arena) :=
  let use_extra := c_learnt from || a_extra ca in
  '(cid, r) ← alloc (a_region ca) (clauseWord32Size (c_size from) use_extra);
  Some (cid, MkArena r (<[cid := copy_clause from use_extra]> (a_mem ca)) (a_extra ca)).

(** [free(cid)]: only accounts the words; the clause stays readable. *)
Definition ca_free (ca : Arena) (cid : CRef) : option Arena :=
  c ← ca_deref ca cid;
  Some (MkArena (free (a_region ca) (clauseWord32Size (c_size c) (c_has_extra c)))
                (a_mem ca) (a_extra ca)).

(** [reloc(cr, to)]: moves the clause once and leaves a forwarding reference. *)
Definition ca_reloc (ca to : Arena) (cr : CRef) : option (CRef * Arena * Arena) :=
  c ← ca_deref ca cr;
  if c_reloced c then Some (relocation c, ca, to)
  else
    '(cr', to') ← ca_alloc_copy to c;
    Some (cr', ca_store ca cr (relocate c cr'), to').

Definition ca_moveTo (ca : Arena) : Arena := ca.

(** ** [OccLists]: occurrence lists with lazy deletion *)

Record OccLists (V : Type) := MkOcc {
  occs : list (list V);
  dirty : list Z;
  dirties : list Lit }.

Arguments MkOcc {V}.
Arguments occs {V}.
Arguments dirty {V}.
Arguments dirties {V}.

Section Occ.
Context {V : Type}.
Implicit Types (o : OccLists V) (l : Lit).

Definition occ_empty : OccLists V := MkOcc [] [] [].

(** [init(idx)]. *)
Definition occ_init o l : OccLists V :=
  MkOcc (IntMap.set lit_x (IntMap.reserve lit_x (occs o) l []) l [])
        (IntMap.reserve lit_x (dirty o) l 0) (dirties o).

(** [operator[](idx)]. *)
Definition occ_get o l : list V := zget [] (occs o) (lit_x l).

Definition occ_set o l (ws : list V) : OccLists V :=
  MkOcc (zset (occs o) (lit_x l) ws) (dirty o) (dirties o).

Definition occ_push o l (w : V) : OccLists V := occ_set o l (occ_get o l ++ [w]).

Definition is_dirty o l : bool := negb (zget 0 (dirty o) (lit_x l) =? 0).

(** [clean(idx)]: drops the deleted entries. *)
Definition occ_clean (deleted : V → bool) o l : OccLists V :=
  MkOcc (zset (occs o) (lit_x l) (filter (λ w, deleted w = false) (occ_get o l)))
        (zset (dirty o) (lit_x l) 0) (dirties o).

(** [lookup(idx)]: the cleaned list. *)
Definition occ_lookup (deleted : V → bool) o l : OccLists V :=
  if is_dirty o l then occ_clean deleted o l else o.

Definition occ_smudge o l : OccLists V :=
  if zget 0 (dirty o) (lit_x l) =? 0
  then MkOcc (occs o) (zset (dirty o) (lit_x l) 1) (dirties o ++ [l])
  else o.

(** [cleanAll()]. *)
Definition occ_cleanAll (deleted : V → bool) o : OccLists V :=
  let o' := foldl (λ o l, if is_dirty o l then occ_clean deleted o l else o) o (dirties o) in
  MkOcc (occs o') (dirty o') [].
End Occ.

(** ** Specification of subsumption *)

(** The variables of [c] are variables of [d]: what the abstraction filters. *)
Definition vars_within (c d : list Lit) : Prop :=
  ∀ l, l ∈ c → ∃ m, m ∈ d ∧ var m = var l.

(** [c] subsumes [d]. *)
Definition subset_of (c d : list Lit) : Prop := ∀ l, l ∈ c → l ∈ d.

(** Resolving [c] and [d] on [p] subsumes [d]. *)
Definition resolves_on (p : Lit) (c d : list Lit) : Prop :=
  p ∈ c ∧ lit_neg p ∈ d ∧ ∀ l, l ∈ c → l ≠ p → l ∈ d.

Definition non_tautological (c : list Lit) : Prop := ∀ l, l ∈ c → lit_neg l ∉ c.

(** A clause as [addClause_] leaves it. *)
Record clause_ok (c : Clause) : Prop := {
  ok_dup : NoDup (c_lits c);
  ok_taut : non_tautological (c_lits c);
  ok_lits : ∀ l, l ∈ c_lits c → 0 <= lit_x l;
  ok_abs : c_abs c = abstraction (c_lits c) }.

Lemma abstraction_bit ls n : 0 <= n →
  Z.testbit (abstraction ls) n = true ↔ ∃ l, l ∈ ls ∧ Z.land (var l) 31 = n.
Proof.
  intros Hn. unfold abstraction.
  assert (∀ a, Z.testbit (foldl (λ a l, Z.lor a (u32 (Z.shiftl 1 (Z.land (var l) 31)))) a ls) n = true
    ↔ Z.testbit a n = true ∨ ∃ l, l ∈ ls ∧ Z.land (var l) 31 = n) as H.
  { induction ls as [| l ls IH]; intros a; simpl.
    - split; [by left |]. intros [? | (l & Hl & _)]; [done | by apply elem_of_nil in Hl].
    - rewrite IH, Z.lor_spec, orb_true_iff.
      assert (Z.testbit (u32 (Z.shiftl 1 (Z.land (var l) 31))) n = true ↔ Z.land (var l) 31 = n) as Hb.
      { assert (0 <= Z.land (var l) 31 < 32) as Hr.
        { change 31 with (Z.ones 5). rewrite Z.land_ones by lia. by apply Z.mod_pos_bound. }
        rewrite Z.shiftl_mul_pow2, Z.mul_1_l by lia. unfold u32. rewrite Z.mod_small.
        - rewrite Z.pow2_bits_eqb, Z.eqb_eq by lia. done.
        - split; [lia |]. apply Z.pow_lt_mono_r; lia. }
      rewrite Hb. setoid_rewrite elem_of_cons. split.
      + intros [[? | ?] | (m & ? & ?)]; [by left | right .. ]; eauto.
      + intros [? | (m & [-> | ?] & ?)]; eauto. }
  rewrite H. split; [intros [Hz |]; [| done] | by right]. by rewrite Z.testbit_0_l in Hz.
Qed.

Lemma abstraction_filter c d : vars_within c d → Z.ldiff (abstraction c) (abstraction d) = 0.
Proof.
  intros H. apply Z.bits_inj'. intros n Hn. rewrite Z.ldiff_spec, Z.testbit_0_l.
  destruct (Z.testbit (abstraction c) n) eqn:E; [| done].
  apply abstraction_bit in E as (l & Hl & <-); [| done].
  destruct (H l Hl) as (m & Hm & Hv).
  rewrite (proj2 (abstraction_bit d (Z.land (var l) 31) Hn)); [done |].
  exists m. by rewrite Hv.
Qed.

Lemma subsumes_find_spec ret ci d r : subsumes_find ret ci d = Some r →
  (r = ret ∧ ci ∈ d) ∨ (ret = lit_Undef ∧ r = ci ∧ lit_neg ci ∈ d).
Proof.
  induction d as [| dj d IH]; simpl; [done |]. rewrite !lit_eqb_spec.
  case_bool_decide as H1; [intros [= <-]; left; subst; split; [done | by left] |].
  case_bool_decide as H2; simpl.
  - case_bool_decide as H3.
    + intros [= <-]. right. subst. rewrite lit_neg_involutive. repeat split. by left.
    + intros [[? ?] | (? & ? & ?)]%IH; [left | right]; repeat split; try done; by right.
  - intros [[? ?] | (? & ? & ?)]%IH; [left | done]. split; [done | by right].
Qed.

Lemma subsumes_find_complete ret ci d :
  (ci ∈ d → lit_neg ci ∉ d → subsumes_find ret ci d = Some ret) ∧
  (ci ∉ d → lit_neg ci ∈ d → ret = lit_Undef → subsumes_find ret ci d = Some ci).
Proof.
  induction d as [| dj d [IH1 IH2]]; simpl.
  { split; intros H; [by apply elem_of_nil in H |]. intros H'. by apply elem_of_nil in H'. }
  rewrite !lit_eqb_spec, !elem_of_cons. split.
  - intros Hel Hn. case_bool_decide as H1; [done |].
    rewrite (bool_decide_eq_false_2 (ci = lit_neg dj)).
    + rewrite andb_false_r. apply IH1; [naive_solver | naive_solver].
    + intros ->. rewrite lit_neg_involutive in Hn. naive_solver.
  - intros Hn Hel ->. rewrite bool_decide_eq_false_2 by naive_solver.
    rewrite bool_decide_eq_true_2 by done. simpl. case_bool_decide as H3; [done |].
    apply IH2; [naive_solver | | done]. destruct Hel as [<- | ?]; [| done].
    by rewrite lit_neg_involutive in H3.
Qed.

(** With a literal already marked for deletion every other literal must occur. *)
Lemma subsumes_loop_marked p c d r : p ≠ lit_Undef → p ≠ lit_Error →
  subsumes_loop p c d = r → r ≠ lit_Error → r = p ∧ subset_of c d.
Proof.
  intros Hu He. induction c as [| ci c IH]; simpl.
  - intros <- _. split; [done |]. intros l Hl. by apply elem_of_nil in Hl.
  - destruct (subsumes_find p ci d) as [r' |] eqn:E; [| by intros <-].
    apply subsumes_find_spec in E as [[-> Hci] | (? & _)]; [| done].
    intros H Hr. destruct (IH H Hr) as [-> Hs]. split; [done |].
    intros l [-> | Hl]%elem_of_cons; [done | by apply Hs].
Qed.

Lemma subsumes_loop_sound c d r :
  (∀ l, l ∈ c → 0 <= lit_x l) → NoDup c → subsumes_loop lit_Undef c d = r →
  r ≠ lit_Error → (r = lit_Undef ∧ subset_of c d) ∨ (resolves_on r c d).
Proof.
  intros Hv Hnd. revert Hv Hnd. induction c as [| ci c IH]; simpl; intros Hv Hnd.
  - intros <- _. left. split; [done |]. intros l Hl. by apply elem_of_nil in Hl.
  - destruct (subsumes_find lit_Undef ci d) as [r' |] eqn:E; [| by intros <-].
    apply NoDup_cons in Hnd as [Hni Hnd].
    assert (ci ≠ lit_Undef ∧ ci ≠ lit_Error) as [Hcu Hce].
    { specialize (Hv ci ltac:(by left)). split; intros ->; done. }
    apply subsumes_find_spec in E as [[-> Hci] | (_ & -> & Hci)]; intros H Hr.
    + destruct (IH ltac:(intros; apply Hv; by right) Hnd H Hr) as [[-> Hs] | (H1 & H2 & H3)].
      * left. split; [done |]. intros l [-> | Hl]%elem_of_cons; [done | by apply Hs].
      * right. split; [by right |]. split; [done |].
        intros l [-> | Hl]%elem_of_cons Hne; [done | by apply H3].
    + destruct (subsumes_loop_marked _ _ _ _ Hcu Hce H Hr) as [-> Hs]. right.
      split; [by left |]. split; [done |]. intros l [-> | Hl]%elem_of_cons Hne; [done | by apply Hs].
Qed.

Lemma subsumes_loop_subset ret c d : non_tautological d → subset_of c d →
  subsumes_loop ret c d = ret.
Proof.
  intros Ht. induction c as [| ci c IH]; intros Hs; simpl; [done |].
  assert (ci ∈ d) as Hci by (apply Hs; by left).
  rewrite (proj1 (subsumes_find_complete ret ci d) Hci (Ht _ Hci)).
  apply IH. intros l Hl. apply Hs. by right.
Qed.

Lemma subsumes_loop_resolves p c d : non_tautological d → NoDup c → resolves_on p c d →
  subsumes_loop lit_Undef c d = p.
Proof.
  intros Ht. induction c as [| ci c IH]; intros Hnd (Hp & Hn & Ho); simpl.
  - by apply elem_of_nil in Hp.
  - apply NoDup_cons in Hnd as [Hni Hnd]. destruct (decide (ci = p)) as [-> | Hne].
    + assert (p ∉ d) as Hpd by (intros Hx; by apply (Ht p)).
      rewrite (proj2 (subsumes_find_complete lit_Undef p d) Hpd Hn eq_refl).
      apply subsumes_loop_subset; [done |]. intros l Hl. apply Ho; [by right |].
      by intros ->.
    + assert (ci ∈ d) as Hci by (apply Ho; [by left | done]).
      rewrite (proj1 (subsumes_find_complete lit_Undef ci d) Hci (Ht _ Hci)).
      apply IH; [done |]. apply elem_of_cons in Hp as [-> | Hp]; [done |].
      split; [done |]. split; [done |]. intros l Hl. apply Ho. by right.
Qed.

Lemma NoDup_incl_length (c d : list Lit) : NoDup c → subset_of c d → (length c <= length d)%nat.
Proof. intros Hn Hs. apply submseteq_length, NoDup_submseteq; done. Qed.

Lemma resolves_length p c d : NoDup c → non_tautological c → resolves_on p c d →
  (length c <= length d)%nat.
Proof.
  intros Hnd Ht (Hp & Hn & Ho).
  rewrite <- (length_fmap (λ l, if decide (l = p) then lit_neg p else l)).
  apply NoDup_incl_length.
  - apply NoDup_fmap_2_strong; [| done]. intros a b Ha Hb.
    repeat case_decide; subst; try done.
    + intros <-. by destruct (Ht p Hp).
    + intros ->. by destruct (Ht p Hp).
  - intros l (m & -> & Hm)%list_elem_of_fmap_1. case_decide; [by subst | by apply Ho].
Qed.

Lemma resolves_vars p c d : resolves_on p c d → vars_within c d.
Proof.
  intros (Hp & Hn & Ho) l Hl. destruct (decide (l = p)) as [-> | Hne].
  - exists (lit_neg p). split; [done | apply var_neg].
  - exists l. split; [by apply Ho | done].
Qed.

Lemma subset_vars c d : subset_of c d → vars_within c d.
Proof. intros H l Hl. exists l. split; [by apply H | done]. Qed.

(** The pre-tests of [subsumes] reject nothing that subsumes or resolves. *)
Lemma subsumes_pretest c d : clause_ok c → clause_ok d →
  (length (c_lits c) <= length (c_lits d))%nat → vars_within (c_lits c) (c_lits d) →
  subsumes c d = subsumes_loop lit_Undef (c_lits c) (c_lits d).
Proof.
  intros Hc Hd Hlen Hv. unfold subsumes, c_size.
  destruct (Z.ltb_spec (Z.of_nat (length (c_lits d))) (Z.of_nat (length (c_lits c)))); [lia |].
  rewrite (ok_abs _ Hc), (ok_abs _ Hd), abstraction_filter by done. done.
Qed.

Section Subsumes.
Context (c d : Clause) (Hc : clause_ok c) (Hd : clause_ok d).

Lemma subsumes_subset : subset_of (c_lits c) (c_lits d) → subsumes c d = lit_Undef.
Proof using Hc Hd.
  intros Hs. rewrite subsumes_pretest; [| done | done | |].
  - apply subsumes_loop_subset; [apply (ok_taut _ Hd) | done].
  - apply NoDup_incl_length; [apply (ok_dup _ Hc) | done].
  - by apply subset_vars.
Qed.

Lemma subsumes_resolves p : resolves_on p (c_lits c) (c_lits d) → subsumes c d = p.
Proof using Hc Hd.
  intros Hp. rewrite subsumes_pretest; [| done | done | |].
  - apply subsumes_loop_resolves; [apply (ok_taut _ Hd) | apply (ok_dup _ Hc) | done].
  - by eapply resolves_length; [apply (ok_dup _ Hc) | apply (ok_taut _ Hc) |].
  - by eapply resolves_vars.
Qed.

Lemma subsumes_sound : subsumes c d ≠ lit_Error →
  (subsumes c d = lit_Undef ∧ subset_of (c_lits c) (c_lits d)) ∨
  resolves_on (subsumes c d) (c_lits c) (c_lits d).
Proof using Hc.
  unfold subsumes. destruct (_ || _); [done |]. intros Hne.
  apply subsumes_loop_sound; [apply (ok_lits _ Hc) | apply (ok_dup _ Hc) | done | done].
Qed.

Lemma resolves_lit p : resolves_on p (c_lits c) (c_lits d) → p ≠ lit_Undef ∧ p ≠ lit_Error.
Proof using Hc.
  intros (Hp & _). pose proof (ok_lits _ Hc _ Hp). split; intros ->; by compute in *.
Qed.
End Subsumes.

(** ** The property *)

(** C34. [subsumes] decides its three answers exactly, the 32-bit abstraction
    included: [lit_Undef] when the clause is a subset of the other, [p] when
    resolving the two on [p] gives a subset of the other (so that [~p] may be
    removed from it), [lit_Error] when neither holds. *)
Theorem subsumes_correct c d : clause_ok c → clause_ok d →
  (subsumes c d = lit_Undef ↔ subset_of (c_lits c) (c_lits d)) ∧
  (∀ p, p ≠ lit_Undef → p ≠ lit_Error →
     subsumes c d = p ↔ resolves_on p (c_lits c) (c_lits d)) ∧
  (subsumes c d = lit_Error ↔
     ¬ subset_of (c_lits c) (c_lits d) ∧ ∀ p, ¬ resolves_on p (c_lits c) (c_lits d)).
Proof.
  intros Hc Hd. pose proof (subsumes_subset c d Hc Hd) as Hsub.
  pose proof (subsumes_resolves c d Hc Hd) as Hres. pose proof (subsumes_sound c d Hc) as Hback.
  pose proof (resolves_lit c d Hc) as Hlit. split; [| split].
  - split; [| done]. intros E. destruct Hback as [[_ ?] | Hr]; [by rewrite E | done |].
    rewrite E in Hr. by destruct (Hlit _ Hr).
  - intros p Hu He. split; [| apply Hres]. intros E. destruct Hback as [[E' _] | Hr]; [by rewrite E | by destruct Hu; rewrite <- E, E' | by rewrite <- E].
  - split.
    + intros E. split; [intros Hs; apply Hsub in Hs; by rewrite E in Hs |].
      intros p Hp. destruct (Hlit p Hp) as [_ He]. apply Hres in Hp. by rewrite E in Hp.
    + intros [Hs Hr]. destruct (decide (subsumes c d = lit_Error)) as [| Hne]; [done |].
      destruct (Hback Hne) as [[_ ?] | Hp]; [done | by destruct (Hr _ Hp)].
Qed.

Lemma subsumes_correct_witness :
  let c := new_clause [mkLit 0 false; mkLit 1 true] true false in
  let d := new_clause [mkLit 1 true; mkLit 2 false; mkLit 0 true] true false in
  subsumes c d = mkLit 0 false.
Proof.
  apply (subsumes_correct (new_clause [mkLit 0 false; mkLit 1 true] true false)
    (new_clause [mkLit 1 true; mkLit 2 false; mkLit 0 true] true false)).
  - split; [by apply (bool_decide_unpack _) | | | reflexivity].
    + intros l Hl. repeat (apply elem_of_cons in Hl as [-> | Hl]; [by apply (bool_decide_unpack _) |]). set_solver.
    + intros l Hl. repeat (apply elem_of_cons in Hl as [-> | Hl]; [vm_compute; discriminate |]). set_solver.
  - split; [by apply (bool_decide_unpack _) | | | reflexivity].
    + intros l Hl. repeat (apply elem_of_cons in Hl as [-> | Hl]; [by apply (bool_decide_unpack _) |]). set_solver.
    + intros l Hl. repeat (apply elem_of_cons in Hl as [-> | Hl]; [vm_compute; discriminate |]). set_solver.
  - done.
  - done.
  - split; [by apply (bool_decide_unpack _) |]. split; [by apply (bool_decide_unpack _) |].
    intros l Hl Hne. repeat (apply elem_of_cons in Hl as [-> | Hl]; [by apply (bool_decide_unpack _) || done |]). set_solver.
Defined.
