(* ===== verification/Solver.v ===== *)
(** * The state of [Minisat::Solver] and its propagation engine

    [minisat/core/Solver.h] and [minisat/core/Solver.cc].  [Core] is the part
    of the state that unit propagation reads and writes (assignment, trail,
    clause arena, watch lists); [Order] is the part behind the decision
    heuristics; [Solver] is the whole object.  [VMap]s are lists indexed by
    the variable.

    Functions that dereference clauses return an [option]: [None] is a
    dangling clause reference (undefined behaviour in the code) or fuel of the
    model running out; the theorems of [Propagate] show that neither happens. *)
From Stdlib Require Import SpecFloat.
From S2P Require Import Prelude Lit Vec Heap Alloc Double Clause.

(** ** Data *)

Definition Var := Z.

Record VarData := MkVarData { vd_reason : CRef; vd_level : Z }.

#[export] Instance VarData_inhabited : Inhabited VarData := populate (MkVarData 0 0).

Record Watcher := MkWatcher { w_cref : CRef; w_blocker : Lit }.

#[export] Instance Watcher_eq_dec : EqDecision Watcher.
Proof. solve_decision. Defined.

#[export] Instance Watcher_inhabited : Inhabited Watcher :=
  populate (MkWatcher 0 inhabitant).

(** [Watcher::operator==] compares the clause references only. *)
Definition watcher_eqb (a b : Watcher) : bool := w_cref a =? w_cref b.

#[export] Instance Clause_inhabited : Inhabited Clause :=
  populate (MkClause 0 false false false [] (S754_zero false) 0).

Record Core := MkCore {
  assigns : list lbool;
  vardata : list VarData;
  trail : list Lit;
  trail_lim : list nat;
  qhead : nat;
  ca : Arena;
  watches : OccLists Watcher }.

#[export] Instance Core_settable : Settable Core := λ s,
  MkCore (assigns s) (vardata s) (trail s) (trail_lim s) (qhead s) (ca s) (watches s).

(** Decision heuristics. *)
Record Order := MkOrder {
  activity : list double;
  polarity : list bool;
  user_pol : list lbool;
  decision : list bool;
  order_heap : Heap;
  var_inc : double;
  random_seed : double;
  phase_saving : Z;
  dec_vars : Z }.

#[export] Instance Order_settable : Settable Order := λ o,
  MkOrder (activity o) (polarity o) (user_pol o) (decision o) (order_heap o) (var_inc o)
          (random_seed o) (phase_saving o) (dec_vars o).

(** Configuration, never written after construction. *)
Record Params := MkParams {
  var_decay : double;
  clause_decay : double;
  random_var_freq : double;
  luby_restart : bool;
  ccmin_mode : Z;
  rnd_pol : bool;
  rnd_init_act : bool;
  garbage_frac : double;
  min_learnts_lim : Z;
  restart_first : Z;
  restart_inc : double;
  learntsize_factor : double;
  learntsize_inc : double;
  learntsize_adjust_start_confl : Z;
  learntsize_adjust_inc : double;
  remove_satisfied : bool }.

Record Stats := MkStats {
  solves : Z; starts : Z; decisions : Z; rnd_decisions : Z; propagations : Z;
  conflicts : Z; num_clauses : Z; num_learnts : Z; clauses_literals : Z;
  learnts_literals : Z; max_literals : Z; tot_literals : Z }.

#[export] Instance Stats_settable : Settable Stats := λ t,
  MkStats (solves t) (starts t) (decisions t) (rnd_decisions t) (propagations t)
          (conflicts t) (num_clauses t) (num_learnts t) (clauses_literals t)
          (learnts_literals t) (max_literals t) (tot_literals t).

(** One line of the DRAT proof: deletion flag and clause in DIMACS integers. *)
Definition ProofLine : Type := bool * list Z.

Record Solver := MkSolver {
  core : Core;
  order : Order;
  stats : Stats;
  params : Params;
  clauses : list CRef;
  learnts : list CRef;
  assumptions : list Lit;
  ok : bool;
  cla_inc : double;
  simpDB_assigns : Z;
  simpDB_props : Z;
  progress_estimate : double;
  next_var : Var;
  trail_cap : Z;
  released_vars : list Var;
  free_vars : list Var;
  seen : list Z;
  analyze_toclear : list Lit;
  max_learnts : double;
  learntsize_adjust_confl : double;
  learntsize_adjust_cnt : Z;
  conflict_budget : Z;
  propagation_budget : Z;
  asynch_interrupt : bool;
  model : list lbool;
  conflict : IntMap.IntSet Lit;
  proof : option (list ProofLine) }.

#[export] Instance Solver_settable : Settable Solver := λ s,
  MkSolver (core s) (order s) (stats s) (params s) (clauses s) (learnts s) (assumptions s)
    (ok s) (cla_inc s) (simpDB_assigns s) (simpDB_props s) (progress_estimate s) (next_var s)
    (trail_cap s) (released_vars s) (free_vars s) (seen s) (analyze_toclear s) (max_learnts s)
    (learntsize_adjust_confl s) (learntsize_adjust_cnt s) (conflict_budget s)
    (propagation_budget s) (asynch_interrupt s) (model s) (conflict s) (proof s).

(** ** Reading the assignment *)

(** [value(Var)] and [value(Lit)]. *)
Definition value_var (s : Core) (x : Var) : lbool := zget l_Undef (assigns s) x.

Definition value (s : Core) (p : Lit) : lbool := lb_xor (value_var s (var p)) (sign p).

Definition reason (s : Core) (x : Var) : CRef := vd_reason (zget inhabitant (vardata s) x).

Definition level (s : Core) (x : Var) : Z := vd_level (zget inhabitant (vardata s) x).

Definition decisionLevel (s : Core) : nat := length (trail_lim s).

Definition abstractLevel (s : Core) (x : Var) : Z := u32 (Z.shiftl 1 (Z.land (level s x) 31)).

Definition nAssigns (s : Core) : Z := Z.of_nat (length (trail s)).

(** [satisfied(c)]. *)
Definition satisfied (s : Core) (c : Clause) : bool :=
  existsb (λ l, lb_eqb (value s l) l_True) (c_lits c).

(** [locked(c)] for the clause stored at [cr]. *)
Definition locked (s : Core) (cr : CRef) (c : Clause) : bool :=
  let l := c_lits c !!! 0%nat in
  lb_eqb (value s l) l_True && negb (reason s (var l) =? CRef_Undef) &&
  (reason s (var l) =? cr).

Definition isRemoved (s : Core) (cr : CRef) : option bool :=
  c ← ca_deref (ca s) cr; Some (c_mark c =? 1).

(** [WatcherDeleted]. *)
Definition watcher_deleted (a : Arena) (w : Watcher) : bool :=
  match ca_deref a (w_cref w) with Some c => c_mark c =? 1 | None => false end.

(** ** Enqueueing and decision levels *)

Definition newDecisionLevel (s : Core) : Core :=
  s <| trail_lim := trail_lim s ++ [length (trail s)] |>.

Definition uncheckedEnqueue (s : Core) (p : Lit) (from : CRef) : Core :=
  s <| assigns := zset (assigns s) (var p) (lbool_of_bool (negb (sign p))) |>
    <| vardata := zset (vardata s) (var p) (MkVarData from (Z.of_nat (decisionLevel s))) |>
    <| trail := trail s ++ [p] |>.

(** [enqueue(p, from)]. *)
Definition enqueue (s : Core) (p : Lit) (from : CRef) : bool * Core :=
  if lb_neb (value s p) l_Undef then (lb_neb (value s p) l_False, s)
  else (true, uncheckedEnqueue s p from).

(** ** [propagate] *)

(** [c[0] == false_lit] swaps the two watched literals, so that the false
    literal is [c[1]]. *)
Definition false_lit_second (false_lit : Lit) (ls : list Lit) : list Lit :=
  if lit_eqb (ls !!! 0%nat) false_lit
  then <[1%nat := false_lit]> (<[0%nat := ls !!! 1%nat]> ls)
  else ls.

(** The first position from [k] on whose literal is not false. *)
Fixpoint find_watch (s : Core) (ls : list Lit) (k : nat) : option nat :=
  match ls with
  | [] => None
  | l :: ls => if lb_neb (value s l) l_False then Some k else find_watch s ls (S k)
  end.

(** The loop over the watchers [ws] of the true literal [p]: [kept] is what
    [*j++] has written so far.  A moved watch is pushed on another list. *)
Fixpoint propagate_watchers (p : Lit) (s : Core) (ws kept : list Watcher) (confl : CRef) :
    option (Core * list Watcher * CRef) :=
  match ws with
  | [] => Some (s, kept, confl)
  | w :: ws =>
      if lb_eqb (value s (w_blocker w)) l_True then propagate_watchers p s ws (kept ++ [w]) confl
      else
        let cr := w_cref w in
        let false_lit := lit_neg p in
        c ← ca_deref (ca s) cr;
        let c := set_lits c (false_lit_second false_lit (c_lits c)) in
        let s := s <| ca := ca_store (ca s) cr c |> in
        let first := c_lits c !!! 0%nat in
        let w' := MkWatcher cr first in
        if negb (lit_eqb first (w_blocker w)) && lb_eqb (value s first) l_True
        then propagate_watchers p s ws (kept ++ [w']) confl
        else
          match find_watch s (drop 2 (c_lits c)) 2 with
          | Some k =>
              let ck := c_lits c !!! k in
              let c := set_lits c (<[k := false_lit]> (<[1%nat := ck]> (c_lits c))) in
              let s := s <| ca := ca_store (ca s) cr c |>
                         <| watches := occ_push (watches s) (lit_neg ck) w' |> in
              propagate_watchers p s ws kept confl
          | None =>
              if lb_eqb (value s first) l_False
              then Some (s <| qhead := length (trail s) |>, kept ++ w' :: ws, cr)
              else propagate_watchers p (uncheckedEnqueue s first cr) ws (kept ++ [w']) confl
          end
  end.

(** The propagation of one literal: [watches.lookup(p)], the watcher loop, and
    [ws.shrink(i - j)]. *)
Definition propagate_lit (s : Core) (confl : CRef) : option (Core * CRef) :=
  let p := trail s !!! qhead s in
  let s := s <| qhead := S (qhead s) |>
             <| watches := occ_lookup (watcher_deleted (ca s)) (watches s) p |> in
  '(s, ws, confl) ← propagate_watchers p s (occ_get (watches s) p) [] confl;
  Some (s <| watches := occ_set (watches s) p ws |>, confl).

Fixpoint propagate_loop (fuel : nat) (s : Core) (confl : CRef) (num_props : Z) :
    option (Core * CRef * Z) :=
  if Nat.ltb (qhead s) (length (trail s)) then
    match fuel with
    | O => None
    | S fuel =>
        '(s, confl) ← propagate_lit s confl;
        propagate_loop fuel s confl (num_props + 1)
    end
  else Some (s, confl, num_props).

(** Every round advances [qhead] and the trail holds each variable once. *)
Definition propagate_core (s : Core) : option (Core * CRef * Z) :=
  propagate_loop (S (length (assigns s))) s CRef_Undef 0.

Definition propagate (st : Solver) : option (Solver * CRef) :=
  '(s, confl, num_props) ← propagate_core (core st);
  Some (st <| core := s |>
           <| stats := (stats st) <| propagations := u64 (propagations (stats st) + num_props) |> |>
           <| simpDB_props := simpDB_props st - num_props |>,
        confl).

(** ** Backtracking *)

(** The comparator of the heap: [activity[x] > activity[y]]. *)
Definition VarOrderLt (act : list double) (x y : Z) : bool :=
  d_ltb (zget inhabitant act y) (zget inhabitant act x).

Definition insertVarOrder (o : Order) (x : Var) : Order :=
  if negb (inHeap (order_heap o) x) && zget false (decision o) x
  then o <| order_heap := Heap.insert (VarOrderLt (activity o)) (order_heap o) x |>
  else o.

(** The effect of un-assigning [trail[c]] on the heuristics; [last_lim] is
    [trail_lim.last()]. *)
Definition undo_order (last_lim : nat) (o : Order) (c : nat) (p : Lit) : Order :=
  let x := var p in
  let o := if (1 <? phase_saving o) || ((phase_saving o =? 1) && Nat.ltb last_lim c)
           then o <| polarity := zset (polarity o) x (sign p) |> else o in
  insertVarOrder o x.

(** The loop of [cancelUntil] over [trail[c]], from the last position down;
    [ps] is the suffix of the trail from [c0], reversed. *)
Fixpoint undo_loop (last_lim : nat) (a : list lbool) (o : Order) (c0 : nat) (ps : list Lit) :
    list lbool * Order :=
  match ps with
  | [] => (a, o)
  | p :: ps =>
      undo_loop last_lim (zset a (var p) l_Undef)
        (undo_order last_lim o (c0 + length ps) p) c0 ps
  end.

Definition cancelUntil (st : Solver) (lvl : nat) : Solver :=
  let s := core st in
  if Nat.ltb lvl (decisionLevel s) then
    let lim := trail_lim s !!! lvl in
    let last_lim := default 0%nat (last (trail_lim s)) in
    let '(a, o) := undo_loop last_lim (assigns s) (order st) lim (rev (drop lim (trail s))) in
    st <| core := s <| assigns := a |> <| qhead := lim |> <| trail := take lim (trail s) |>
                    <| trail_lim := take lvl (trail_lim s) |> |>
       <| order := o |>
  else st.

(** ** Propagation checks *)

(** The first loop of [prop_check(assumps)]: enqueue until one is false. *)
Fixpoint enqueue_all (s : Core) (ps : list Lit) : Core * bool :=
  match ps with
  | [] => (s, true)
  | p :: ps =>
      if lb_eqb (value s p) l_False then (s, false)
      else if lb_neb (value s p) l_True then enqueue_all (uncheckedEnqueue s p CRef_Undef) ps
      else enqueue_all s ps
  end.

Definition set_phase_saving (st : Solver) (v : Z) : Solver :=
  st <| order := (order st) <| phase_saving := v |> |>.

(** [if (st) confl = propagate();], where [confl] starts as [CRef_Undef]. *)
Definition propagate_if (b : bool) (st : Solver) : option (Solver * CRef) :=
  if b then propagate st else Some (st, CRef_Undef).

(** [bool Solver::prop_check(assumps, psaving)]. *)
Definition prop_check (st : Solver) (assumps : list Lit) (psaving : Z) : option (Solver * bool) :=
  if negb (ok st) then Some (st, false)
  else
    let lvl := decisionLevel (core st) in
    let psaving_copy := phase_saving (order st) in
    let st := set_phase_saving st psaving in
    let '(s, b) := enqueue_all (newDecisionLevel (core st)) assumps in
    '(st, confl) ← propagate_if b (st <| core := s |>);
    let st := if Nat.ltb lvl (decisionLevel (core st)) then cancelUntil st lvl else st in
    Some (set_phase_saving st psaving_copy, b && (confl =? CRef_Undef)).

(** The loop of [prop_check(assumps, prop)]: one decision level per assumption,
    until one is false or propagation fails. *)
Fixpoint assume_each (st : Solver) (ps : list Lit) : option (Solver * bool * CRef) :=
  match ps with
  | [] => Some (st, true, CRef_Undef)
  | p :: ps =>
      if lb_eqb (value (core st) p) l_False then Some (st, false, CRef_Undef)
      else if lb_neb (value (core st) p) l_True then
        '(st, confl) ← propagate
           (st <| core := uncheckedEnqueue (newDecisionLevel (core st)) p CRef_Undef |>);
        if confl =? CRef_Undef then assume_each st ps else Some (st, true, confl)
      else assume_each st ps
  end.

(** [bool Solver::prop_check(assumps, prop, psaving)]: also returns the
    propagated literals. *)
Definition prop_check_propagated (st : Solver) (assumps : list Lit) (psaving : Z) :
    option (Solver * bool * list Lit) :=
  if negb (ok st) then Some (st, false, [])
  else
    let lvl := decisionLevel (core st) in
    let psaving_copy := phase_saving (order st) in
    '(st, b, confl) ← assume_each (set_phase_saving st psaving) assumps;
    '(st, prop) ←
      (if Nat.ltb lvl (decisionLevel (core st)) then
         let prop := drop (trail_lim (core st) !!! lvl) (trail (core st)) in
         prop ← (if negb (confl =? CRef_Undef)
                 then c ← ca_deref (ca (core st)) confl; Some (prop ++ [c_lits c !!! 0%nat])
                 else Some prop);
         Some (cancelUntil st lvl, prop)
       else Some (st, []));
    Some (set_phase_saving st psaving_copy, b && (confl =? CRef_Undef), prop).

(** ** Counting the conflicting leaves of an assignment tree *)

(** One half of the subtree at [vars[index]]: [lit] is the literal tried. *)
Definition subtree_half (rec : Solver → option (Solver * Z)) (st : Solver) (lit : Lit)
    (half_subtree_size : Z) : option (Solver * Z) :=
  let val := value (core st) lit in
  if lb_eqb val l_False then Some (st, half_subtree_size)
  else if lb_eqb val l_Undef then
    let base_level := decisionLevel (core st) in
    '(st, confl) ← propagate
       (st <| core := uncheckedEnqueue (newDecisionLevel (core st)) lit CRef_Undef |>);
    if negb (confl =? CRef_Undef) then Some (cancelUntil st base_level, half_subtree_size)
    else
      '(st, n) ← rec st;
      Some (cancelUntil st base_level, n)
  else rec st.

(** [prop_check_subtree_impl(vars, index)], on the suffix of [vars]. *)
Fixpoint prop_check_subtree_impl (vars : list Lit) (st : Solver) : option (Solver * Z) :=
  match vars with
  | [] => Some (st, 0)
  | v :: vars =>
      let half := u64 (Z.shiftl 1 (Z.of_nat (length vars))) in
      '(st, l) ← subtree_half (prop_check_subtree_impl vars) st (mkLit (var v) true) half;
      '(st, r) ← subtree_half (prop_check_subtree_impl vars) st (mkLit (var v) false) half;
      Some (st, u64 (l + r))
  end.

(** [prop_check_subtree(vars, head_size)]. *)
Definition prop_check_subtree (st : Solver) (vars : list Lit) (head_size : nat) :
    option (Solver * Z) :=
  let subtree_size := u64 (Z.shiftl 1 (Z.of_nat (length vars - head_size))) in
  if negb (ok st) then Some (st, subtree_size)
  else
    let lvl := decisionLevel (core st) in
    let '(s, b) := enqueue_all (newDecisionLevel (core st)) (take head_size vars) in
    '(st, confl) ← propagate_if b (st <| core := s |>);
    '(st, result) ←
      (if negb b || negb (confl =? CRef_Undef) then Some (st, subtree_size)
       else prop_check_subtree_impl (drop head_size vars) st);
    Some (if Nat.ltb lvl (decisionLevel (core st)) then cancelUntil st lvl else st, result).
