(* ===== verification/Propagate.v ===== *)
(** * Correctness of watched-literal propagation

    [Inv q s]: the watched-literal invariant of [Minisat::Solver], where the
    first [q] literals of the trail have been propagated.  The theorems show
    that [propagate] never dereferences a dangling reference and terminates,
    that it enqueues only consequences of unit propagation, and that without a
    conflict it reaches a fixpoint at which unit propagation has no conflict. *)
From S2P Require Import Prelude Lit UnitProp Vec Alloc Clause Solver.

(** ** The invariant, component by component *)

Definition lit_ok (n : Z) (p : Lit) : Prop := 0 <= var p < n.

Abbreviation Mem := (gmap Z Clause).

(** A clause that has not been removed. *)
Definition live (m : Mem) (cr : CRef) (c : Clause) : Prop := m !! cr = Some c ∧ c_mark c ≠ 1.

(** The clauses of the arena as a formula. *)
Definition db (m : Mem) : formula := λ ls, ∃ cr c, live m cr c ∧ c_lits c = ls.

Definition lit_on (tr : list Lit) : litset := λ p, p ∈ tr.

Record TrailOk (n : Z) (a : list lbool) (tr : list Lit) : Prop := {
  tr_size : n = Z.of_nat (length a);
  tr_range : ∀ p, p ∈ tr → lit_ok n p;
  tr_nodup : NoDup (var <$> tr);
  tr_valid : Forall lb_valid a;
  tr_value : ∀ p, lit_ok n p →
    lb_abs (lb_xor (zget l_Undef a (var p)) (sign p)) = Some true ↔ p ∈ tr }.

Record ClausesOk (n : Z) (m : Mem) : Prop := {
  cl_ref : ∀ cr c, m !! cr = Some c → cr ≠ CRef_Undef;
  cl_two : ∀ cr c, live m cr c → (2 <= length (c_lits c))%nat;
  cl_nodup : ∀ cr c, live m cr c → NoDup (c_lits c);
  cl_range : ∀ cr c l, live m cr c → l ∈ c_lits c → lit_ok n l }.

(** [l] is the key of a watch list that [c] has to be in. *)
Definition watched (c : Clause) (l : Lit) : Prop :=
  c_lits c !! 0%nat = Some (lit_neg l) ∨ c_lits c !! 1%nat = Some (lit_neg l).

(** [b] is false at level 0. *)
Definition dead (tr : list Lit) (lims : list nat) (b : Lit) : Prop :=
  ∃ i, tr !! i = Some (lit_neg b) ∧ ∀ m, m ∈ lims → (i < m)%nat.

(** The blocker of a watcher is a literal of the clause, or was one: [simplify]
    drops false literals of level 0, which are in [B]. *)
Record WatchOk (n : Z) (B : Lit → Prop) (m : Mem) (W : Lit → list Watcher) (D : Lit → bool) : Prop := {
  wa_in : ∀ l w, lit_ok n l → w ∈ W l → ∃ c, m !! w_cref w = Some c ∧
    ((c_mark c = 1 ∧ D l = true) ∨
     (c_mark c ≠ 1 ∧ watched c l ∧ (w_blocker w ∈ c_lits c ∨ B (w_blocker w))));
  wa_has : ∀ cr c l, live m cr c → watched c l → cr ∈ (w_cref <$> W l);
  wa_nodup : ∀ l, lit_ok n l → NoDup (w_cref <$> W l) }.

(** The literal at position [j] belongs to no later decision level than the one
    at position [i]. *)
Definition not_later (lims : list nat) (j i : nat) : Prop :=
  ∀ m, m ∈ lims → (m <= j)%nat → (m <= i)%nat.

(** A clause with a watched literal falsified by a propagated literal is
    satisfied, at the same or an earlier decision level. *)
Definition Justified (m : Mem) (tr : list Lit) (lims : list nat) (q : nat) : Prop :=
  ∀ cr c l i, live m cr c → watched c l → (i < q)%nat → tr !! i = Some l →
    ∃ t j, t ∈ c_lits c ∧ tr !! j = Some t ∧ not_later lims j i.

Definition lims_sorted (lims : list nat) : Prop :=
  ∀ i j a b, (i <= j)%nat → lims !! i = Some a → lims !! j = Some b → (a <= b)%nat.

Definition mem (s : Core) : Mem := a_mem (ca s).

Definition nv (s : Core) : Z := Z.of_nat (length (assigns s)).

Record Inv (q : nat) (s : Core) : Prop := {
  inv_trail : TrailOk (nv s) (assigns s) (trail s);
  inv_cls : ClausesOk (nv s) (mem s);
  inv_watch : WatchOk (nv s) (dead (trail s) (trail_lim s)) (mem s) (occ_get (watches s)) (is_dirty (watches s));
  inv_just : Justified (mem s) (trail s) (trail_lim s) q;
  inv_lims : lims_sorted (trail_lim s);
  inv_lims_q : ∀ m, m ∈ trail_lim s → (m <= q)%nat;
  inv_q : (q <= length (trail s))%nat;
  inv_occs : length (occs (watches s)) = (2 * length (assigns s))%nat;
  inv_dirty : length (dirty (watches s)) = (2 * length (assigns s))%nat }.

(** ** Clauses up to the order of their literals *)

Definition clause_perm (c c' : Clause) : Prop :=
  c' = set_lits c (c_lits c') ∧ c_lits c ≡ₚ c_lits c'.

Definition mem_perm (m m' : Mem) : Prop := ∀ cr, option_Forall2 clause_perm (m !! cr) (m' !! cr).

#[export] Instance clause_perm_equiv : Equivalence clause_perm.
Proof.
  split.
  - intros []. by split.
  - intros [] [] [[= -> -> -> -> -> ->] H]. by split.
  - intros [] [] [] [[= -> -> -> -> -> ->] H] [[= -> -> -> -> -> ->] H']. split; [done | by etrans].
Qed.

#[export] Instance mem_perm_equiv : Equivalence mem_perm.
Proof.
  split.
  - intros m cr. reflexivity.
  - intros m m' H cr. symmetry. apply H.
  - intros m m' m'' H H' cr. etrans; [apply H | apply H'].
Qed.

Lemma mem_perm_lookup m m' cr c : mem_perm m m' → m !! cr = Some c →
  ∃ c', m' !! cr = Some c' ∧ clause_perm c c'.
Proof. intros H E. specialize (H cr). rewrite E in H. inversion H; eauto. Qed.

Lemma clause_perm_mark c c' : clause_perm c c' → c_mark c' = c_mark c.
Proof. by intros [-> _]. Qed.

Lemma mem_perm_live m m' cr c : mem_perm m m' → live m cr c →
  ∃ c', live m' cr c' ∧ c_lits c ≡ₚ c_lits c'.
Proof.
  intros H [E Hm]. destruct (mem_perm_lookup _ _ _ _ H E) as (c' & E' & Hp).
  exists c'. rewrite <- (clause_perm_mark _ _ Hp) in Hm. split; [by split | apply Hp].
Qed.

Lemma mem_perm_db m m' : mem_perm m m' → formula_equiv (db m) (db m').
Proof.
  intros H. split.
  - intros ls (cr & c & Hl & <-). destruct (mem_perm_live _ _ _ _ H Hl) as (c' & ? & ?).
    exists (c_lits c'). split; [by exists cr, c' | done].
  - symmetry in H. intros ls (cr & c & Hl & <-).
    destruct (mem_perm_live _ _ _ _ H Hl) as (c' & ? & ?).
    exists (c_lits c'). split; [by exists cr, c' | done].
Qed.

Lemma mem_perm_insert (m : Mem) cr c ls : m !! cr = Some c → c_lits c ≡ₚ ls →
  mem_perm m (<[cr := set_lits c ls]> m).
Proof.
  intros E Hp cr'. destruct (decide (cr = cr')) as [<- | Hne].
  - rewrite lookup_insert_eq, E. constructor. by split.
  - rewrite lookup_insert_ne by done. reflexivity.
Qed.

Lemma mem_perm_clauses n m m' : mem_perm m m' → ClausesOk n m → ClausesOk n m'.
Proof.
  intros H [H1 H2 H3 H4]. symmetry in H. split.
  - intros cr c E. destruct (mem_perm_lookup _ _ _ _ H E) as (c' & E' & _). eauto.
  - intros cr c Hl. destruct (mem_perm_live _ _ _ _ H Hl) as (c' & Hl' & ->). eauto.
  - intros cr c Hl. destruct (mem_perm_live _ _ _ _ H Hl) as (c' & Hl' & ->). eauto.
  - intros cr c l Hl. destruct (mem_perm_live _ _ _ _ H Hl) as (c' & Hl' & ->). eauto.
Qed.

(** ** Literals, values and the trail *)

Lemma lit_ok_neg n p : lit_ok n p → lit_ok n (lit_neg p).
Proof. unfold lit_ok. by rewrite var_neg. Qed.

Lemma lit_ok_x n p : lit_ok n p ↔ 0 <= lit_x p < 2 * n.
Proof. unfold lit_ok. pose proof (lit_x_decomp p). destruct (sign p); simpl in *; lia. Qed.

#[export] Hint Resolve lit_ok_neg : parsat.

Section Trail.
Context (n : Z) (a : list lbool) (tr : list Lit).
Hypothesis T : TrailOk n a tr.

Lemma zget_valid x : lb_valid (zget l_Undef a x).
Proof.
  unfold zget. destruct (x <? 0); [done |].
  destruct (a !! Z.to_nat x) eqn:E; simpl; [| done].
  pose proof (tr_valid _ _ _ T) as H. rewrite Forall_lookup in H. eauto.
Qed.

Lemma trail_consistent p : p ∈ tr → lit_neg p ∉ tr.
Proof.
  intros Hp Hn. pose proof (tr_range _ _ _ T _ Hp) as Hr.
  apply (tr_value _ _ _ T) in Hp, Hn; [| by auto with parsat ..].
  rewrite lb_xor_abs in Hp, Hn by apply zget_valid. rewrite var_neg, sign_neg in Hn.
  destruct (lb_abs _); [| done]. simpl in *. by destruct (sign p), b.
Qed.

Lemma trail_length : (length tr <= length a)%nat.
Proof.
  rewrite <- (length_fmap var).
  transitivity (length (Z.of_nat <$> seq 0 (length a)));
    [| by rewrite length_fmap, length_seq].
  apply submseteq_length, NoDup_submseteq; [apply (tr_nodup _ _ _ T) |].
  intros x (p & -> & Hp)%list_elem_of_fmap_1. apply list_elem_of_fmap.
  apply (tr_range _ _ _ T) in Hp. unfold lit_ok in Hp. rewrite (tr_size _ _ _ T) in Hp.
  exists (Z.to_nat (var p)). split; [lia |]. apply elem_of_seq. lia.
Qed.
End Trail.

Section Values.
Context (s : Core).
Hypothesis T : TrailOk (nv s) (assigns s) (trail s).

Lemma value_valid p : lb_valid (value s p).
Proof. apply lb_xor_valid. by eapply zget_valid. Qed.

Lemma value_true p : lit_ok (nv s) p → lb_abs (value s p) = Some true ↔ p ∈ trail s.
Proof. apply (tr_value _ _ _ T). Qed.

Lemma value_false p : lit_ok (nv s) p → lb_abs (value s p) = Some false ↔ lit_neg p ∈ trail s.
Proof.
  intros Hp. rewrite <- value_true by auto with parsat. unfold value, value_var.
  rewrite var_neg, sign_neg, !lb_xor_abs by (by eapply zget_valid).
  destruct (lb_abs _) as [b |]; [| done]. by destruct (sign p), b.
Qed.

(** The three tests of the code. *)
Lemma value_isTrue p : lit_ok (nv s) p → lb_eqb (value s p) l_True = bool_decide (p ∈ trail s).
Proof.
  intros Hp. rewrite lb_eqb_abs by (done || apply value_valid).
  apply bool_decide_ext. rewrite <- value_true by done. by vm_compute (lb_abs l_True).
Qed.

Lemma value_isFalse p : lit_ok (nv s) p →
  lb_eqb (value s p) l_False = bool_decide (lit_neg p ∈ trail s).
Proof.
  intros Hp. rewrite lb_eqb_abs by (done || apply value_valid).
  apply bool_decide_ext. rewrite <- value_false by done. by vm_compute (lb_abs l_False).
Qed.

Lemma value_isUndef p : lit_ok (nv s) p →
  lb_eqb (value s p) l_Undef = bool_decide ((p ∉ trail s) ∧ lit_neg p ∉ trail s).
Proof.
  intros Hp. rewrite lb_eqb_abs by (done || apply value_valid).
  apply bool_decide_ext. rewrite <- value_true, <- value_false by done.
  change (lb_abs l_Undef) with (@None bool).
  destruct (lb_abs (value s p)) as [[] |]; intuition congruence.
Qed.
End Values.

(** ** Operations on the parts *)

(** Enqueueing an unassigned literal. *)
Lemma trail_enqueue n a tr p : TrailOk n a tr → lit_ok n p → p ∉ tr → lit_neg p ∉ tr →
  TrailOk n (zset a (var p) (lbool_of_bool (negb (sign p)))) (tr ++ [p]).
Proof.
  intros T Hp Hn1 Hn2. assert (Hvar : var p ∉ (var <$> tr)).
  { intros (q & Hv & Hq)%list_elem_of_fmap_1. by apply same_var in Hv as [-> | ->];
      rewrite ?lit_neg_involutive in *. }
  pose proof (tr_size _ _ _ T) as Hs. split.
  - by rewrite length_zset.
  - intros q [Hq | Hq]%elem_of_app; [by apply (tr_range _ _ _ T) |].
    by apply list_elem_of_singleton in Hq as ->.
  - rewrite fmap_app. apply NoDup_app. split; [apply (tr_nodup _ _ _ T) |]. split.
    + intros x Hx Hx'%list_elem_of_singleton. by subst.
    + apply NoDup_singleton.
  - unfold zset. case_match_goal; [apply (tr_valid _ _ _ T) |].
    apply Forall_insert; [apply (tr_valid _ _ _ T) | apply lb_of_bool_valid].
  - intros q Hq. rewrite elem_of_app, list_elem_of_singleton.
    rewrite zget_zset by (unfold lit_ok in Hp; lia). case_decide as Hv.
    + rewrite lb_xor_abs, lb_abs_of_bool by apply lb_of_bool_valid. simpl.
      symmetry in Hv. apply same_var in Hv as [-> | ->].
      * split; [by right |]. intros _. by destruct (sign p).
      * rewrite sign_neg. split.
        -- destruct (sign p); done.
        -- intros [Hi | Hi]; [done |]. by apply lit_neg_ne in Hi.
    + rewrite (tr_value _ _ _ T) by done. split; [by left |].
      intros [? | ->]; done.
Qed.

Lemma zget_undo a x : 0 <= x < Z.of_nat (length a) →
  Forall lb_valid a → Forall lb_valid (zset a x l_Undef).
Proof. intros. unfold zset. case_match_goal; [done |]. by apply Forall_insert. Qed.

(** Un-assigning the last literal of the trail. *)
Lemma trail_undo n a tr p : TrailOk n a (tr ++ [p]) →
  TrailOk n (zset a (var p) l_Undef) tr.
Proof.
  intros T. pose proof (tr_size _ _ _ T) as Hs.
  assert (lit_ok n p) as Hp by (apply (tr_range _ _ _ T), elem_of_app; right; by left).
  pose proof (tr_nodup _ _ _ T) as Hnd. rewrite fmap_app in Hnd. apply NoDup_app in Hnd.
  destruct Hnd as (Hnd & Hdis & _).
  assert (Hnv : ∀ q, q ∈ tr → var q ≠ var p).
  { intros q Hq Hv. apply (Hdis (var q)); [by apply list_elem_of_fmap_2 |].
    rewrite Hv. by left. }
  split.
  - by rewrite length_zset.
  - intros q Hq. apply (tr_range _ _ _ T), elem_of_app. by left.
  - done.
  - apply zget_undo; [unfold lit_ok in Hp; lia | apply (tr_valid _ _ _ T)].
  - intros q Hq. rewrite zget_zset by (unfold lit_ok in Hp; lia). case_decide as Hv.
    + rewrite lb_xor_abs by done. split; [done |]. intros Hin. by destruct (Hnv q Hin).
    + rewrite (tr_value _ _ _ T) by done. rewrite elem_of_app, list_elem_of_singleton.
      split; [intros [? | ->]; done | by left].
Qed.

(** A longer trail keeps the justifications of its prefix. *)
Lemma justified_app m tr news lims q : (q <= length tr)%nat →
  Justified m tr lims q → Justified m (tr ++ news) lims q.
Proof.
  intros Hq J cr c l i Hl Hw Hi E. rewrite lookup_app_l in E by lia.
  destruct (J cr c l i Hl Hw Hi E) as (t & j & Ht & Ej & Hn). exists t, j.
  split; [done |]. split; [| done]. by apply lookup_app_l_Some.
Qed.

(** Changing the literal order of one clause, when the watched literals that
    are new are not falsified by the propagated part. *)
Lemma justified_perm (m : Mem) tr lims q cr c ls : live m cr c → c_lits c ≡ₚ ls →
  (∀ l, watched (set_lits c ls) l → watched c l ∨ l ∉ tr) →
  Justified m tr lims q → Justified (<[cr := set_lits c ls]> m) tr lims q.
Proof.
  intros Hl Hp Hw J cr' c' l i [E Hm] Hw' Hi Ei.
  destruct (decide (cr = cr')) as [<- | Hne].
  - rewrite lookup_insert_eq in E. injection E as <-. destruct (Hw l Hw') as [Hc | Hn].
    + destruct (J cr c l i Hl Hc Hi Ei) as (t & j & Ht & Hj). exists t, j.
      split; [| done]. simpl. by rewrite <- Hp.
    + destruct Hn. by eapply list_elem_of_lookup_2.
  - rewrite lookup_insert_ne in E by done. eapply J; eauto. by split.
Qed.

(** Rewriting one clause [cr] up to the order of its literals, together with
    watch lists that follow its watched literals. *)
Lemma watch_dead n (B B' : Lit → Prop) m W D : (∀ b, B b → B' b) → WatchOk n B m W D → WatchOk n B' m W D.
Proof.
  intros HB [W1 W2 W3]. split; [| done | done]. intros l w Hl Hw.
  destruct (W1 l w Hl Hw) as (c & E & [Hc | (Hm & Hc & Hb)]); exists c; (split; [done |]); [by left |].
  right. split; [done |]. split; [done |]. destruct Hb; auto.
Qed.

Lemma dead_app tr news lims b : dead tr lims b → dead (tr ++ news) lims b.
Proof. intros (i & Hi & H). exists i. split; [by apply lookup_app_l_Some | done]. Qed.

Lemma watch_update n B (m : Mem) W W' D cr c ls : WatchOk n B m W D → live m cr c →
  c_lits c ≡ₚ ls → let c' := set_lits c ls in
  (∀ l w, lit_ok n l → w ∈ W' l → (w ∈ W l ∧ (w_cref w = cr → watched c' l)) ∨
     (w_cref w = cr ∧ watched c' l ∧ w_blocker w ∈ ls)) →
  (∀ l x, x ∈ (w_cref <$> W l) → x ≠ cr → x ∈ (w_cref <$> W' l)) →
  (∀ l, watched c' l → cr ∈ (w_cref <$> W' l)) →
  (∀ l, lit_ok n l → NoDup (w_cref <$> W' l)) →
  WatchOk n B (<[cr := c']> m) W' D.
Proof.
  intros H [E Hm] Hp c' Hin Hkeep Hhas Hnd. split; [| | done].
  - intros l w Hl Hw. destruct (decide (cr = w_cref w)) as [Heq | Hne].
    + rewrite <- Heq, lookup_insert_eq. exists c'. split; [done |]. right. split; [done |].
      destruct (Hin l w Hl Hw) as [[Hw' Hc] | (_ & Hc & Hb)]; [| by split; [| left]].
      split; [by apply Hc |]. destruct (wa_in _ _ _ _ _ H l w Hl Hw') as (c0 & E0 & Hc0).
      rewrite <- Heq, E in E0. injection E0 as <-. simpl. rewrite <- Hp.
      by destruct Hc0 as [[? _] | (_ & _ & ?)].
    + rewrite lookup_insert_ne by done.
      destruct (Hin l w Hl Hw) as [[Hw' Hc] | (Hc & _)]; [| by subst].
      by apply (wa_in _ _ _ _ _ H l w).
  - intros x cx l [Ex Hx] Hwx. destruct (decide (cr = x)) as [<- | Hne].
    + rewrite lookup_insert_eq in Ex. injection Ex as <-. by apply Hhas.
    + rewrite lookup_insert_ne in Ex by done. apply Hkeep; [| done].
      by eapply (wa_has _ _ _ _ _ H); [split |].
Qed.

(** The watch lists while the list of [p] is being rewritten: [L] is what the
    loop has kept so far followed by what it has not visited. *)
Definition Wat (o : OccLists Watcher) (p : Lit) (L : list Watcher) : Lit → list Watcher :=
  λ l, if decide (l = p) then L else occ_get o l.

Lemma Wat_eq o p L : Wat o p L p = L.
Proof. unfold Wat. by rewrite decide_True. Qed.

Lemma Wat_ne o p L l : l ≠ p → Wat o p L l = occ_get o l.
Proof. intros. unfold Wat. by rewrite decide_False. Qed.

Section Watch_steps.
Context (n : Z) (m : Mem) (o : OccLists Watcher) (p : Lit) (kept ws : list Watcher)
  (w : Watcher) (cr : CRef) (c : Clause) (ls : list Lit) (B : Lit → Prop) (D : Lit → bool).
Hypothesis H : WatchOk n B m (Wat o p (kept ++ w :: ws)) D.
Hypothesis Hl : live m cr c.
Hypothesis Hp : c_lits c ≡ₚ ls.
Hypothesis Hcr : w_cref w = cr.
Hypothesis Hpok : lit_ok n p.

Lemma cref_once : (cr ∉ (w_cref <$> kept)) ∧ cr ∉ (w_cref <$> ws).
Proof.
  pose proof (wa_nodup _ _ _ _ _ H p Hpok) as Hnd. rewrite Wat_eq, fmap_app in Hnd.
  apply NoDup_app in Hnd as (_ & Hd & Hn). csimpl in *. rewrite Hcr in *.
  apply NoDup_cons in Hn as [Hn _]. split; [| done]. intros Hk. apply (Hd _ Hk). by left.
Qed.

(** The watcher stays, with another blocker. *)
Lemma watch_keep w' : w_cref w' = cr → w_blocker w' ∈ ls →
  (∀ l, watched (set_lits c ls) l ↔ watched c l) →
  WatchOk n B (<[cr := set_lits c ls]> m) (Wat o p (kept ++ w' :: ws)) D.
Proof.
  intros Hcr' Hb Hw. destruct Hl as [E Hm].
  assert (Hcw : ∀ l x, lit_ok n l → x ∈ Wat o p (kept ++ w :: ws) l → w_cref x = cr →
    watched c l).
  { intros l x Hlo Hx Hxc. destruct (wa_in _ _ _ _ _ H l x Hlo Hx) as (c0 & E0 & Hc0).
    rewrite Hxc, E in E0. injection E0 as <-. by destruct Hc0 as [[? _] | (_ & ? & _)]. }
  assert (Hfm : ∀ l, w_cref <$> Wat o p (kept ++ w' :: ws) l =
                     w_cref <$> Wat o p (kept ++ w :: ws) l).
  { intros l. unfold Wat. case_decide; [| done]. rewrite !fmap_app. csimpl. by rewrite Hcr, Hcr'. }
  eapply watch_update; [exact H | done | done | | | |].
  - intros l x Hlo Hx. destruct (decide (l = p)) as [-> | Hne].
    + rewrite Wat_eq in Hx. apply elem_of_app in Hx. rewrite elem_of_cons in Hx.
      destruct (decide (x = w')) as [-> | Hxw].
      * right. split; [done |]. split; [| done]. apply Hw, (Hcw _ w); [done | | done].
        rewrite Wat_eq. apply elem_of_app. right. by left.
      * left. rewrite Wat_eq. assert (x ∈ kept ++ w :: ws) as Hx'.
        { apply elem_of_app. rewrite elem_of_cons. intuition. }
        split; [done |]. intros Hxc. apply Hw, (Hcw _ x); [done | by rewrite Wat_eq | done].
    + left. rewrite Wat_ne in * by done. split; [done |]. intros Hxc.
      apply Hw, (Hcw _ x); [done | by rewrite Wat_ne | done].
  - intros l x Hx _. by rewrite Hfm.
  - intros l Hwl. rewrite Hfm. eapply (wa_has _ _ _ _ _ H); [done |]. by apply Hw.
  - intros l Hlo. rewrite Hfm. by apply (wa_nodup _ _ _ _ _ H).
Qed.

(** The watch moves to the list of another literal [l2]. *)
Lemma watch_move l2 w' : lit_ok n l2 → l2 ≠ p → ¬ watched c l2 →
  0 <= lit_x l2 < Z.of_nat (length (occs o)) →
  w_cref w' = cr → w_blocker w' ∈ ls →
  (∀ l, watched (set_lits c ls) l ↔ (watched c l ∧ l ≠ p) ∨ l = l2) →
  WatchOk n B (<[cr := set_lits c ls]> m) (Wat (occ_push o l2 w') p (kept ++ ws)) D.
Proof.
  intros Hl2 Hne2 Hnw Hr Hcr' Hb Hw. destruct Hl as [E Hm]. destruct cref_once as [Hk1 Hk2].
  assert (Hcw : ∀ l x, lit_ok n l → x ∈ Wat o p (kept ++ w :: ws) l → w_cref x = cr →
    watched c l).
  { intros l x Hlo Hx Hxc. destruct (wa_in _ _ _ _ _ H l x Hlo Hx) as (c0 & E0 & Hc0).
    rewrite Hxc, E in E0. injection E0 as <-. by destruct Hc0 as [[? _] | (_ & ? & _)]. }
  assert (Hg : ∀ l, l ≠ p → Wat (occ_push o l2 w') p (kept ++ ws) l =
    if decide (l = l2) then Wat o p (kept ++ w :: ws) l ++ [w'] else Wat o p (kept ++ w :: ws) l).
  { intros l Hlp. rewrite !Wat_ne by done. unfold occ_push, occ_get, occ_set; simpl.
    rewrite zget_zset by done. repeat case_decide; try congruence.
    by apply lit_eq in H0. }
  assert (Hnp : ∀ x, x ∈ kept ++ ws → w_cref x ≠ cr).
  { intros x [Hx | Hx]%elem_of_app Hc; [apply Hk1 | apply Hk2]; rewrite <- Hc;
      by apply list_elem_of_fmap_2. }
  eapply watch_update; [exact H | done | done | | | |].
  - intros l x Hlo Hx. destruct (decide (l = p)) as [-> | Hne].
    + rewrite Wat_eq in *. left. split; [| by intros ?%Hnp].
      apply elem_of_app. rewrite elem_of_cons. apply elem_of_app in Hx. tauto.
    + rewrite Hg in Hx by done. case_decide as Hd.
      * apply elem_of_app in Hx as [Hx | Hx%list_elem_of_singleton].
        -- left. split; [done |]. intros _. apply Hw. by right.
        -- right. subst. split; [done |]. split; [apply Hw; by right | done].
      * left. split; [done |]. intros Hxc. apply Hw. left. split; [| done]. by apply (Hcw _ x).
  - intros l x Hx Hxc. destruct (decide (l = p)) as [-> | Hne].
    + rewrite Wat_eq in *. rewrite !fmap_app in *. csimpl in *.
      rewrite elem_of_app, elem_of_cons in Hx. apply elem_of_app. rewrite Hcr in Hx. tauto.
    + rewrite Hg by done. case_decide; [| done]. rewrite fmap_app. apply elem_of_app. by left.
  - intros l [[Hc Hne] | ->]%Hw; rewrite Hg by done.
    + case_decide; [| by eapply (wa_has _ _ _ _ _ H)].
      rewrite fmap_app. apply elem_of_app. left. by eapply (wa_has _ _ _ _ _ H).
    + rewrite decide_True by done. rewrite fmap_app, <- Hcr'. apply elem_of_app. right. by left.
  - intros l Hlo. pose proof (wa_nodup _ _ _ _ _ H l Hlo) as Hnd.
    destruct (decide (l = p)) as [-> | Hne].
    + rewrite Wat_eq in *. rewrite !fmap_app in *. csimpl in *.
      apply NoDup_app in Hnd as (H1 & H2 & H3). apply NoDup_app. apply NoDup_cons in H3 as [_ H3].
      split; [done |]. split; [| done]. intros x Hx Hx'. apply (H2 x Hx). by right.
    + rewrite Hg by done. case_decide; [| done]. subst l. rewrite fmap_app. apply NoDup_app.
      split; [done |]. split; [| apply NoDup_singleton].
      intros x (y & -> & Hy)%list_elem_of_fmap_1 Hc%list_elem_of_singleton.
      apply Hnw, (Hcw _ y); [done | done | congruence].
Qed.
End Watch_steps.

(** ** What propagation leaves unchanged *)

(** The decision level of position [i] of the trail. *)
Definition lvl_at (lims : list nat) (i : nat) : nat := length (filter (λ m, (m <= i)%nat) lims).

Lemma lvl_at_app l1 l2 i : lvl_at (l1 ++ l2) i = (lvl_at l1 i + lvl_at l2 i)%nat.
Proof. unfold lvl_at. by rewrite filter_app, length_app. Qed.

Lemma lvl_at_all lims i : (∀ m, m ∈ lims → (m <= i)%nat) → lvl_at lims i = length lims.
Proof.
  unfold lvl_at. induction lims as [| m lims IH]; intros H; [done |].
  rewrite filter_cons_True by (apply H; by left). simpl. f_equal. apply IH. intros. apply H. by right.
Qed.

Lemma lvl_at_none lims i : (∀ m, m ∈ lims → (i < m)%nat) → lvl_at lims i = 0%nat.
Proof.
  unfold lvl_at. induction lims as [| m lims IH]; intros H; [done |].
  rewrite filter_cons_False by (specialize (H m ltac:(by left)); lia).
  apply IH. intros. apply H. by right.
Qed.

(** What the search adds to [Inv]: levels are right; the reason of a literal is
    a clause that starts with it and whose other literals were falsified before;
    only the first literal of a level has no reason, and it is the assumption
    of that level while there are assumptions; these hold at their levels. *)
Record RInv (assumps : list Lit) (s : Core) : Prop := {
  ri_size : length (vardata s) = length (assigns s);
  ri_level : ∀ i t, trail s !! i = Some t →
    level s (var t) = Z.of_nat (lvl_at (trail_lim s) i);
  ri_reason : ∀ i t, trail s !! i = Some t → reason s (var t) ≠ CRef_Undef →
    ∃ c rest, live (mem s) (reason s (var t)) c ∧ c_lits c = t :: rest ∧
      ∀ l, l ∈ rest → ∃ j, (j < i)%nat ∧ trail s !! j = Some (lit_neg l);
  ri_dec : ∀ i t k, trail s !! i = Some t → reason s (var t) = CRef_Undef →
    lvl_at (trail_lim s) i = S k →
    trail_lim s !! k = Some i ∧ ∀ a, assumps !! k = Some a → t = a;
  ri_assumps : ∀ k a, assumps !! k = Some a → (k < length (trail_lim s))%nat →
    ∃ i, trail s !! i = Some a ∧ (lvl_at (trail_lim s) i <= S k)%nat }.

(** Clauses whose first literal is true are not touched. *)
Definition kept_true (s s' : Core) : Prop :=
  ∀ cr c t rest, live (mem s) cr c → c_lits c = t :: rest → t ∈ trail s → mem s' !! cr = Some c.

Lemma rinv_same assumps s s' : trail s' = trail s → trail_lim s' = trail_lim s →
  length (assigns s') = length (assigns s) → vardata s' = vardata s → kept_true s s' →
  RInv assumps s → RInv assumps s'.
Proof.
  intros Et El Ea Ev K [R1 R2 R3 R4 R5]. unfold level, reason in *.
  split; unfold level, reason; rewrite ?Et, ?El, ?Ea, ?Ev; try done.
  intros i t Hi Hr. destruct (R3 i t Hi Hr) as (c & rest & Hl & Ec & Hrest).
  exists c, rest. split; [| done]. split; [| apply Hl].
  eapply K; [done | done |]. by eapply list_elem_of_lookup_2.
Qed.

(** A literal enqueued with a reason. *)
Lemma rinv_enqueue assumps s p from c rest : RInv assumps s → TrailOk (nv s) (assigns s) (trail s) →
  (∀ m, m ∈ trail_lim s → (m <= length (trail s))%nat) →
  lit_ok (nv s) p → p ∉ trail s → lit_neg p ∉ trail s → from ≠ CRef_Undef →
  live (mem s) from c → c_lits c = p :: rest → (∀ l, l ∈ rest → lit_neg l ∈ trail s) →
  RInv assumps (uncheckedEnqueue s p from).
Proof.
  intros [R1 R2 R3 R4 R5] T Hlim Hp Hn1 Hn2 Hf Hl Ec Hrest. unfold nv, lit_ok in Hp.
  assert (∀ i t, trail s !! i = Some t → var t ≠ var p) as Hne.
  { intros i t Hi%list_elem_of_lookup_2 Hv. by apply same_var in Hv as [-> | ->]. }
  unfold level, reason in *.
  assert (∀ i t, (trail s ++ [p]) !! i = Some t →
    (trail s !! i = Some t ∧ zget inhabitant (vardata (uncheckedEnqueue s p from)) (var t) =
       zget inhabitant (vardata s) (var t)) ∨
    (i = length (trail s) ∧ t = p ∧ zget inhabitant (vardata (uncheckedEnqueue s p from)) (var t) =
       MkVarData from (Z.of_nat (decisionLevel s)))) as Hcase.
  { intros i t [Hi | [Hle Hi]]%lookup_app_Some; simpl.
    - left. split; [done |]. rewrite zget_zset_ne; [done |]. by apply not_eq_sym, (Hne i).
    - apply list_lookup_singleton_Some in Hi as [Hi <-]. right.
      split; [lia |]. split; [done |]. apply zget_zset_eq. lia. }
  split; unfold level, reason.
  - simpl. by rewrite !length_zset.
  - intros i t Hi. destruct (Hcase i t Hi) as [[Ht ->] | (-> & -> & ->)]; simpl; [by apply R2 |].
    by rewrite lvl_at_all.
  - intros i t Hi. destruct (Hcase i t Hi) as [[Ht ->] | (-> & -> & ->)]; simpl.
    + intros Hr. destruct (R3 i t Ht Hr) as (c' & rest' & Hl' & Ec' & Hr'). exists c', rest'.
      split; [done |]. split; [done |]. intros l (j & Hj & Ej)%Hr'. exists j.
      split; [done |]. by apply lookup_app_l_Some.
    + intros _. exists c, rest. split; [done |]. split; [done |].
      intros l (j & Ej)%Hrest%list_elem_of_lookup_1. exists j.
      split; [by eapply lookup_lt_Some |]. by apply lookup_app_l_Some.
  - intros i t k Hi. destruct (Hcase i t Hi) as [[Ht ->] | (-> & -> & ->)]; simpl; [by apply R4 | done].
  - intros k a Ha Hk. simpl in *. destruct (R5 k a Ha Hk) as (i & Hi & Hle). exists i.
    split; [by apply lookup_app_l_Some | done].
Qed.

(** [s'] extends [s] by consequences of unit propagation. *)
Record ext (s s' : Core) : Prop := {
  ext_trail : ∃ news, trail s' = trail s ++ news;
  ext_lims : trail_lim s' = trail_lim s;
  ext_size : length (assigns s') = length (assigns s);
  ext_dirties : dirties (watches s') = dirties (watches s);
  ext_dirty : ∀ l, is_dirty (watches s') l = true → is_dirty (watches s) l = true;
  ext_rinv : ∀ assumps, RInv assumps s → RInv assumps s';
  ext_mem : mem_perm (mem s) (mem s');
  ext_region : a_region (ca s') = a_region (ca s) ∧ a_extra (ca s') = a_extra (ca s);
  ext_up : ∀ l, l ∈ trail s' → UP (db (mem s)) (lit_on (trail s)) l }.

#[export] Instance ext_preorder : PreOrder ext.
Proof.
  split.
  - intros s. split; try done; [exists []; by rewrite app_nil_r | by constructor].
  - intros s1 s2 s3 H1 H2.
    destruct (ext_trail _ _ H1) as [n1 E1], (ext_trail _ _ H2) as [n2 E2]. split.
    + exists (n1 ++ n2). by rewrite E2, E1, (assoc_L (++)).
    + by rewrite (ext_lims _ _ H2), (ext_lims _ _ H1).
    + by rewrite (ext_size _ _ H2), (ext_size _ _ H1).
    + by rewrite (ext_dirties _ _ H2), (ext_dirties _ _ H1).
    + intros l Hl. by apply (ext_dirty _ _ H1), (ext_dirty _ _ H2).
    + intros as_ Hr. by apply (ext_rinv _ _ H2), (ext_rinv _ _ H1).
    + etrans; [apply (ext_mem _ _ H1) | apply (ext_mem _ _ H2)].
    + destruct (ext_region _ _ H1) as [<- <-]. apply (ext_region _ _ H2).
    + intros l Hl. apply (UP_cut _ _ (lit_on (trail s2))); [apply (ext_up _ _ H1) |].
      rewrite (mem_perm_db _ _ (ext_mem _ _ H1)). by apply (ext_up _ _ H2).
Qed.

Lemma ext_same_trail s s' : trail s' = trail s → trail_lim s' = trail_lim s →
  length (assigns s') = length (assigns s) → dirties (watches s') = dirties (watches s) →
  (∀ l, is_dirty (watches s') l = true → is_dirty (watches s) l = true) →
  vardata s' = vardata s → kept_true s s' → mem_perm (mem s) (mem s') →
  a_region (ca s') = a_region (ca s) ∧ a_extra (ca s') = a_extra (ca s) → ext s s'.
Proof.
  intros E. split; try done.
  - exists []. by rewrite app_nil_r.
  - intros assumps. by apply rinv_same.
  - rewrite E. by constructor.
Qed.

(** Only the watch lists and the propagation head change. *)
Lemma ext_same_ca s s' : trail s' = trail s → trail_lim s' = trail_lim s →
  assigns s' = assigns s → dirties (watches s') = dirties (watches s) →
  (∀ l, is_dirty (watches s') l = true → is_dirty (watches s) l = true) →
  vardata s' = vardata s → ca s' = ca s → ext s s'.
Proof.
  intros E1 E2 E3 E4 E5 E6 E7.
  apply ext_same_trail; unfold kept_true, mem; rewrite ?E3, ?E7; try done.
  by intros cr c t rest [? _].
Qed.

(** The literals that propagation put on the trail are consequences. *)
Lemma ext_confl s s' : ext s s' → UPconfl (db (mem s')) (lit_on (trail s')) →
  UPconfl (db (mem s)) (lit_on (trail s)).
Proof.
  intros H. rewrite <- (mem_perm_db _ _ (ext_mem _ _ H)). apply UPconfl_cut, (ext_up _ _ H).
Qed.

(** ** The loop over the watchers of a literal *)

(** The invariant with the list of [p], the literal at position [q], replaced
    by [L]. *)
Record PInv (q : nat) (p : Lit) (s : Core) (L : list Watcher) : Prop := {
  pi_trail : TrailOk (nv s) (assigns s) (trail s);
  pi_p : trail s !! q = Some p;
  pi_cls : ClausesOk (nv s) (mem s);
  pi_watch : WatchOk (nv s) (dead (trail s) (trail_lim s)) (mem s) (Wat (watches s) p L) (is_dirty (watches s));
  pi_live : ∀ w c, w ∈ L → mem s !! w_cref w = Some c → c_mark c ≠ 1;
  pi_just : Justified (mem s) (trail s) (trail_lim s) q;
  pi_lims : lims_sorted (trail_lim s);
  pi_lims_q : ∀ m, m ∈ trail_lim s → (m <= q)%nat;
  pi_occs : length (occs (watches s)) = (2 * length (assigns s))%nat;
  pi_dirty : length (dirty (watches s)) = (2 * length (assigns s))%nat }.

(** The clauses of the watchers that were kept are satisfied. *)
Definition Kept (s : Core) (kept : list Watcher) : Prop :=
  ∀ w c, w ∈ kept → mem s !! w_cref w = Some c → ∃ t, t ∈ c_lits c ∧ t ∈ trail s.

(** A clause all of whose literals are false. *)
Definition falsified (s : Core) (cr : CRef) : Prop :=
  ∃ c, live (mem s) cr c ∧ ∀ l, l ∈ c_lits c → lit_neg l ∈ trail s.

Lemma falsified_confl s cr : ClausesOk (nv s) (mem s) → falsified s cr →
  UPconfl (db (mem s)) (lit_on (trail s)).
Proof.
  intros C (c & Hl & Hf). pose proof (cl_two _ _ C _ _ Hl) as H2.
  destruct (c_lits c) as [| l ls] eqn:E; [simpl in H2; lia |].
  apply (UPconfl_clause _ _ (l :: ls) l).
  - by exists cr, c.
  - by left.
  - intros k Hk. by apply UP_base, Hf.
Qed.

Lemma find_watch_spec s ls k :
  match find_watch s ls k with
  | Some j => ∃ i l, j = (k + i)%nat ∧ ls !! i = Some l ∧ lb_neb (value s l) l_False = true
  | None => ∀ l, l ∈ ls → lb_neb (value s l) l_False = false
  end.
Proof.
  revert k. induction ls as [| l ls IH]; intros k; simpl.
  - intros l Hl. by apply elem_of_nil in Hl.
  - destruct (lb_neb _ _) eqn:E.
    + exists 0%nat, l. repeat split; [lia | done].
    + specialize (IH (S k)). destruct (find_watch _ _ _).
      * destruct IH as (i & x & -> & Hx & ?). exists (S i), x. repeat split; [lia | done | done].
      * intros x [-> | Hx]%elem_of_cons; [done | by apply IH].
Qed.

(** [false_lit_second] on a clause that watches [f]. *)
Lemma false_lit_second_spec f ls : (2 <= length ls)%nat →
  (ls !! 0%nat = Some f ∨ ls !! 1%nat = Some f) →
  ∃ first rest, false_lit_second f ls = first :: f :: rest ∧
    (ls = f :: first :: rest ∨ ls = first :: f :: rest).
Proof.
  destruct ls as [| a [| b rest]]; simpl; try lia. intros _ Hf.
  unfold false_lit_second; csimpl. rewrite lit_eqb_spec. case_bool_decide as Ha; subst.
  - exists b, rest. split; [done | by left].
  - destruct Hf as [[= ?] | [= ->]]; [done |]. exists a, rest. split; [done | by right].
Qed.

Lemma swap_watch (f b : Lit) rest i ck : rest !! i = Some ck →
  b :: f :: rest ≡ₚ b :: ck :: <[i := f]> rest.
Proof.
  intros E. apply Permutation_skip.
  rewrite <- (take_drop_middle rest i ck E) at 1.
  rewrite insert_take_drop by (by eapply lookup_lt_Some).
  rewrite (Permutation_app_comm (take i rest)), (Permutation_app_comm (take i rest)).
  simpl. constructor.
Qed.

Definition store_lits (s : Core) (cr : CRef) (c : Clause) (ls : list Lit) : Core :=
  s <| ca := ca_store (ca s) cr (set_lits c ls) |>.

Section Steps.
Context (q : nat) (p : Lit).

Lemma kept_ext s s' kept : ext s s' → Kept s kept → Kept s' kept.
Proof.
  intros H K w c' Hw E'. pose proof (ext_mem _ _ H) as Hm. symmetry in Hm.
  destruct (mem_perm_lookup _ _ _ _ Hm E') as (c & E & Hp).
  destruct (K w c Hw E) as (t & Ht & Htr). exists t. destruct (ext_trail _ _ H) as [news ->].
  split; [by rewrite (proj2 Hp) | apply elem_of_app; by left].
Qed.

Lemma kept_store s cr c ls : live (mem s) cr c →
  (ls = c_lits c ∨ ∀ t rest, c_lits c = t :: rest → t ∉ trail s) →
  kept_true s (store_lits s cr c ls).
Proof.
  intros [E Hm] Hls cr' c' t rest [E' _] Ec Ht. unfold mem in *. simpl.
  destruct (decide (cr = cr')) as [<- | Hne]; [| by rewrite lookup_insert_ne].
  rewrite lookup_insert_eq. rewrite E in E'. injection E' as <-.
  destruct Hls as [-> | Hls]; [by destruct c | by destruct (Hls t rest Ec)].
Qed.

Lemma ext_store s cr c ls : live (mem s) cr c → c_lits c ≡ₚ ls →
  (ls = c_lits c ∨ ∀ t rest, c_lits c = t :: rest → t ∉ trail s) → ext s (store_lits s cr c ls).
Proof.
  intros Hl Hp Hls. apply ext_same_trail; try done; [by apply kept_store |].
  apply mem_perm_insert, Hp. apply Hl.
Qed.

Lemma live_store (m : Mem) cr c ls (L : list Watcher) :
  c_mark c ≠ 1 → (∀ w c, w ∈ L → m !! w_cref w = Some c → c_mark c ≠ 1) →
  ∀ w c', w ∈ L → <[cr := set_lits c ls]> m !! w_cref w = Some c' → c_mark c' ≠ 1.
Proof.
  intros Hm H w c' Hw E. destruct (decide (cr = w_cref w)) as [Heq | Hne].
  - rewrite <- Heq, lookup_insert_eq in E. by injection E as <-.
  - rewrite lookup_insert_ne in E by done. eauto.
Qed.

(** The head watcher: its clause and what the code reads of it. *)
Lemma pinv_head s kept w ws : PInv q p s (kept ++ w :: ws) → ∃ c,
  live (mem s) (w_cref w) c ∧ watched c p ∧
  (w_blocker w ∈ c_lits c ∨ dead (trail s) (trail_lim s) (w_blocker w)).
Proof.
  intros P. destruct (wa_in _ _ _ _ _ (pi_watch _ _ _ _ P) p w) as (c & E & Hc).
  - apply (tr_range _ _ _ (pi_trail _ _ _ _ P)). eapply list_elem_of_lookup_2, P.
  - rewrite Wat_eq. apply elem_of_app. right. by left.
  - assert (c_mark c ≠ 1) as Hm.
    { apply (pi_live _ _ _ _ P w); [| done]. apply elem_of_app. right. by left. }
    exists c. destruct Hc as [[? _] | (_ & ? & ?)]; [done |]. by repeat split.
Qed.

Lemma pinv_ok s L : PInv q p s L → lit_ok (nv s) p.
Proof.
  intros P. apply (tr_range _ _ _ (pi_trail _ _ _ _ P)). eapply list_elem_of_lookup_2, P.
Qed.

Lemma step_keep s kept w ws c ls w' : PInv q p s (kept ++ w :: ws) →
  live (mem s) (w_cref w) c → c_lits c ≡ₚ ls → w_cref w' = w_cref w → w_blocker w' ∈ ls →
  (∀ l, watched (set_lits c ls) l ↔ watched c l) →
  PInv q p (store_lits s (w_cref w) c ls) (kept ++ w' :: ws).
Proof.
  intros P Hl Hp Hcr Hb Hw. pose proof (pinv_ok _ _ P) as Hpok. destruct P. split; try done.
  - eapply mem_perm_clauses; [| done]. by apply mem_perm_insert, Hp; destruct Hl.
  - by eapply watch_keep.
  - apply live_store; [apply Hl |]. intros x cx Hx. destruct (decide (x = w')) as [-> | Hne].
    + rewrite Hcr. apply pi_live0. apply elem_of_app. right. by left.
    + apply pi_live0. rewrite elem_of_app, elem_of_cons in *. tauto.
  - apply justified_perm; [done .. | | done]. intros l ?%Hw. by left.
Qed.

Lemma step_move s kept w ws c ls l2 w' : PInv q p s (kept ++ w :: ws) →
  live (mem s) (w_cref w) c → c_lits c ≡ₚ ls → lit_ok (nv s) l2 → l2 ≠ p → ¬ watched c l2 →
  l2 ∉ trail s → w_cref w' = w_cref w → w_blocker w' ∈ ls →
  (∀ l, watched (set_lits c ls) l ↔ (watched c l ∧ l ≠ p) ∨ l = l2) →
  let s' := store_lits s (w_cref w) c ls in
  PInv q p (s' <| watches := occ_push (watches s') l2 w' |>) (kept ++ ws).
Proof.
  intros P Hl Hp Hl2 Hne Hnw Hnt Hcr Hb Hw. pose proof (pinv_ok _ _ P) as Hpok.
  destruct P. simpl. split; try done.
  - eapply mem_perm_clauses; [| done]. by apply mem_perm_insert, Hp; destruct Hl.
  - eapply watch_move; eauto. apply lit_ok_x in Hl2. unfold nv in Hl2. lia.
  - apply live_store; [apply Hl |]. intros x cx Hx. apply pi_live0.
    rewrite elem_of_app, elem_of_cons in *. tauto.
  - apply justified_perm; [done .. | | done]. intros l [[? _] | ->]%Hw; [by left | by right].
  - unfold occ_push, occ_set; simpl. by rewrite length_zset.
Qed.

Lemma step_enqueue s L cr c first rest : PInv q p s L → live (mem s) cr c →
  c_lits c = first :: rest →
  first ∉ trail s → lit_neg first ∉ trail s →
  (∀ m, m ∈ c_lits c → m ≠ first → lit_neg m ∈ trail s) →
  PInv q p (uncheckedEnqueue s first cr) L ∧ ext s (uncheckedEnqueue s first cr).
Proof.
  intros P Hl Ec Hn1 Hn2 Ho. assert (first ∈ c_lits c) as Hf by (rewrite Ec; by left).
  assert (nv (uncheckedEnqueue s first cr) = nv s) as Hnv.
  { unfold nv, uncheckedEnqueue; simpl. by rewrite length_zset. }
  split.
  - destruct P. split; rewrite ?Hnv; try done.
    + apply trail_enqueue; eauto using cl_range.
    + simpl. by apply lookup_app_l_Some.
    + eapply watch_dead; [intros b; apply dead_app | done].
    + apply justified_app; [| done]. apply lookup_lt_Some in pi_p0. lia.
    + unfold uncheckedEnqueue; simpl. by rewrite length_zset.
    + unfold uncheckedEnqueue; simpl. by rewrite length_zset.
  - split; simpl; try done.
    + by exists [first].
    + by rewrite length_zset.
    + intros assumps R. pose proof (lookup_lt_Some _ _ _ (pi_p _ _ _ _ P)).
      eapply (rinv_enqueue _ _ _ _ c rest); try done.
      * apply P.
      * intros m Hm. pose proof (pi_lims_q _ _ _ _ P m Hm). lia.
      * eapply cl_range; [apply P | done | done].
      * by apply (cl_ref _ _ (pi_cls _ _ _ _ P) cr c), Hl.
      * pose proof (cl_nodup _ _ (pi_cls _ _ _ _ P) _ _ Hl) as Hnd.
        rewrite Ec in Hnd, Ho. apply NoDup_cons in Hnd as [Hnin _].
        intros l Hlr. apply Ho; [by right |]. by intros ->.
    + intros l [Hi | ->%list_elem_of_singleton]%elem_of_app; [by apply UP_base |].
      apply (UP_unit _ _ (c_lits c)); [by exists cr, c | done |].
      intros m Hm Hne. by apply UP_base, Ho.
Qed.
End Steps.

(** What the watchers of [p] look like after the loop: all kept and satisfied,
    or a falsified clause. *)
Definition Processed (q : nat) (p : Lit) (s s' : Core) (L : list Watcher) (confl confl' : CRef) :
    Prop :=
  ext s s' ∧ PInv q p s' L ∧
  ((confl' = confl ∧ qhead s' = qhead s ∧ Kept s' L) ∨
   (confl' ≠ CRef_Undef ∧ qhead s' = length (trail s') ∧ falsified s' confl')).

Lemma watched_pair c a b rest l : c_lits c = a :: b :: rest →
  watched c l ↔ l = lit_neg a ∨ l = lit_neg b.
Proof.
  intros E. unfold watched. rewrite E. simpl. split.
  - intros [[= ->] | [= ->]]; rewrite lit_neg_involutive; auto.
  - intros [-> | ->]; rewrite lit_neg_involutive; auto.
Qed.

Lemma processed_step q p s s1 s' L confl confl' :
  ext s s1 → qhead s1 = qhead s → Processed q p s1 s' L confl confl' →
  Processed q p s s' L confl confl'.
Proof. intros H E (He & Hp & Hr). split; [by etrans |]. split; [done |]. by rewrite <- E. Qed.

Lemma propagate_watchers_spec q p ws : ∀ s kept confl,
  PInv q p s (kept ++ ws) → Kept s kept →
  ∃ s' L confl', propagate_watchers p s ws kept confl = Some (s', L, confl') ∧
    Processed q p s s' L confl confl'.
Proof.
  induction ws as [| w ws IH]; intros s kept confl P K; simpl.
  { rewrite app_nil_r in P. eexists _, _, _. split; [done |]. split; [done |]. auto. }
  pose proof (pinv_ok _ _ _ _ P) as Hpok.
  destruct (pinv_head _ _ _ _ _ _ P) as (c & Hl & Hw & Hb).
  assert (lit_ok (nv s) (w_blocker w)) as Hbok.
  { destruct Hb as [Hb | (i & Hi & _)].
    - exact (cl_range _ _ (pi_cls _ _ _ _ P) _ _ (w_blocker w) Hl Hb).
    - rewrite <- (lit_neg_involutive (w_blocker w)). apply lit_ok_neg, (tr_range _ _ _ (pi_trail _ _ _ _ P)).
      by eapply list_elem_of_lookup_2. }
  rewrite value_isTrue by (done || apply P). case_bool_decide as Hbt.
  assert (w_blocker w ∈ c_lits c) as Hbc.
  { destruct Hb as [Hb | (i & Hi & _)]; [done |].
    destruct (trail_consistent _ _ _ (pi_trail _ _ _ _ P) (w_blocker w)); [done | by eapply list_elem_of_lookup_2]. }
  { apply IH; [by rewrite <- (assoc_L (++)) |].
    intros x cx [Hx | ->%list_elem_of_singleton]%elem_of_app E; [by eapply K |].
    destruct Hl as [E' _]. rewrite E' in E. injection E as <-. by exists (w_blocker w). }
  pose proof (cl_two _ _ (pi_cls _ _ _ _ P) _ _ Hl) as Htwo.
  pose proof (cl_nodup _ _ (pi_cls _ _ _ _ P) _ _ Hl) as Hnd.
  pose proof (λ l, cl_range _ _ (pi_cls _ _ _ _ P) _ _ l Hl) as Hrg.
  unfold ca_deref. pose proof (proj1 Hl) as E. unfold mem in E. rewrite E. simpl.
  destruct (false_lit_second_spec (lit_neg p) (c_lits c) Htwo Hw) as (first & rest & Efl & Ec).
  rewrite Efl. set (ls := first :: lit_neg p :: rest) in *. simpl (ls !!! 0%nat).
  assert (c_lits c ≡ₚ ls) as Hperm.
  { destruct Ec as [-> | ->]; [apply Permutation_swap | done]. }
  assert (∀ l, watched (set_lits c ls) l ↔ watched c l) as Hwp.
  { intros l. rewrite (watched_pair (set_lits c ls) first (lit_neg p) rest) by done.
    destruct Ec as [Ec | Ec]; rewrite (watched_pair _ _ _ _ _ Ec); tauto. }
  rewrite Hperm in Hnd. setoid_rewrite Hperm in Hrg.
  set (s1 := s <| ca := _ |>). set (w' := MkWatcher (w_cref w) first).
  assert (first ∈ ls) as Hfl by by left.
  assert (PInv q p s1 (kept ++ w' :: ws)) as P1 by (by eapply step_keep).
  assert (ext s s1) as X1.
  { apply ext_store; [done .. |]. destruct Ec as [Ec | Ec]; [right | by left].
    intros t r Et. rewrite Ec in Et. injection Et as <- _.
    apply (trail_consistent _ _ _ (pi_trail _ _ _ _ P)). eapply list_elem_of_lookup_2, P. }
  assert (live (mem s1) (w_cref w) (set_lits c ls)) as Hl1.
  { split; [apply lookup_insert_eq | apply Hl]. }
  assert (Kept s1 kept) as K1 by (by eapply kept_ext).
  rewrite value_isTrue by first [exact (pi_trail _ _ _ _ P1) | by apply Hrg].
  destruct (negb _ && _) eqn:Ekeep.
  { apply andb_true_iff in Ekeep as [_ Hft%bool_decide_eq_true].
    destruct (IH s1 (kept ++ [w']) confl) as (s' & L & confl' & Er & Hs').
    - by rewrite <- (assoc_L (++)).
    - intros x cx [Hx | ->%list_elem_of_singleton]%elem_of_app Ex; [by eapply K1 |].
      rewrite (proj1 Hl1 : mem s1 !! w_cref w' = _) in Ex. injection Ex as <-. by exists first.
    - exists s', L, confl'. split; [done |]. by eapply processed_step. }
  assert (first ∉ trail s) as Hfn.
  { intros Hin. rewrite bool_decide_eq_true_2, andb_true_r in Ekeep by done.
    rewrite negb_false_iff, lit_eqb_spec, bool_decide_eq_true in Ekeep. by subst. }
  change (drop 2 ls) with rest.
  pose proof (find_watch_spec s1 rest 2) as Hfw. destruct (find_watch s1 rest 2) as [j |].
  - destruct Hfw as (i & ck & -> & Eck & Hck).
    assert (ck ∈ rest) as Hckr by (by eapply list_elem_of_lookup_2).
    assert (ck ∈ ls) as Hckl by (do 2 right; done).
    assert (ls !!! (2 + i)%nat = ck) as -> by (by apply list_lookup_total_correct).
    unfold lb_neb in Hck. rewrite value_isFalse in Hck by first [exact (pi_trail _ _ _ _ P1) | by apply Hrg].
    apply negb_true_iff, bool_decide_eq_false in Hck.
    apply NoDup_cons in Hnd as [Hn1 Hnd]. apply NoDup_cons in Hnd as [Hn2 Hnd].
    set (ls2 := <[(2 + i)%nat := _]> _).
    assert (∀ o, dirties o = dirties (watches s1) → dirty o = dirty (watches s1) →
      ext s1 ((store_lits s1 (w_cref w) (set_lits c ls) ls2) <| watches := o |>)) as X2.
    { intros o Ho Hd. apply ext_same_trail; try done.
      - intros l. unfold is_dirty. simpl. by rewrite Hd.
      - apply (kept_store s1 (w_cref w) (set_lits c ls)); [done |]. right. by intros t r [= <- _].
      - apply mem_perm_insert; [apply Hl1 |]. by apply swap_watch. }
    destruct (IH ((store_lits s1 (w_cref w) (set_lits c ls) ls2) <| watches := occ_push (watches s1) (lit_neg ck) w' |>)
      kept confl) as (s' & L & confl' & Er & Hs').
    + eapply (step_move q p s1 kept w' ws (set_lits c ls) ls2 (lit_neg ck) w'); try done.
      * by apply swap_watch.
      * by apply lit_ok_neg, Hrg.
      * intros Hcp. apply Hn2. by rewrite <- Hcp, lit_neg_involutive.
      * rewrite (watched_pair _ first (lit_neg p) rest) by done.
        intros [?%lit_neg_inj | ?%lit_neg_inj]; subst; [| done]. apply Hn1. by right.
      * by left.
      * intros l. rewrite (watched_pair _ first ck (<[i := lit_neg p]> rest)) by done.
        rewrite (watched_pair (set_lits c ls) first (lit_neg p) rest) by done.
        rewrite lit_neg_involutive. split; [| tauto].
        intros [-> | ->]; [| by right]. left. split; [by left |].
        intros Hcp. apply Hn1. rewrite <- Hcp, lit_neg_involutive. by left.
    + eapply kept_ext; [| exact K1]. by apply X2.
    + exists s', L, confl'. split; [done |]. eapply processed_step, Hs'; [| done].
      etrans; [exact X1 | by apply X2].
  - assert (∀ m, m ∈ ls → m ≠ first → lit_neg m ∈ trail s1) as Hof.
    { intros m Hm Hne. unfold ls in Hm. rewrite !elem_of_cons in Hm.
      destruct Hm as [-> | [-> | Hm]]; [done | |].
      - rewrite lit_neg_involutive. eapply list_elem_of_lookup_2, P1.
      - specialize (Hfw m Hm). unfold lb_neb in Hfw.
        rewrite value_isFalse in Hfw by first [exact (pi_trail _ _ _ _ P1) | apply Hrg; do 2 right; done].
        by apply negb_false_iff, bool_decide_eq_true in Hfw. }
    clear Ekeep.
    rewrite value_isFalse by first [exact (pi_trail _ _ _ _ P1) | by apply Hrg]. case_bool_decide as Hff.
    + eexists _, _, _. split; [done |]. split; [| split; [| right]].
      * etrans; [exact X1 |]. by apply ext_same_ca.
      * destruct P1. by split.
      * split; [by eapply (cl_ref _ _ (pi_cls _ _ _ _ P)), Hl |]. split; [done |].
        exists (set_lits c ls). split; [done |]. simpl. intros l Hlin.
        destruct (decide (l = first)) as [-> |]; [done | by apply Hof].
    + destruct (step_enqueue q p s1 _ (w_cref w) (set_lits c ls) first (lit_neg p :: rest) P1) as [P2 X2]; try done.
      destruct (IH (uncheckedEnqueue s1 first (w_cref w)) (kept ++ [w']) confl)
        as (s' & L & confl' & Er & Hs').
      * by rewrite <- (assoc_L (++)).
      * intros x cx [Hx | ->%list_elem_of_singleton]%elem_of_app Ex.
        { by eapply (kept_ext _ _ _ X2). }
        change (mem s1 !! w_cref w = Some cx) in Ex.
        rewrite (proj1 Hl1) in Ex. injection Ex as <-. exists first.
        split; [done |]. simpl. apply elem_of_app. right. by left.
      * exists s', L, confl'. split; [done |]. eapply processed_step, Hs'; [by etrans | done].
Qed.

(** ** One literal *)

Lemma occ_get_set (o : OccLists Watcher) p L l :
  0 <= lit_x p < Z.of_nat (length (occs o)) → occ_get (occ_set o p L) l = Wat o p L l.
Proof.
  intros Hr. unfold Wat, occ_get, occ_set; simpl. rewrite zget_zset by done.
  repeat case_decide; try congruence. by apply lit_eq in H.
Qed.

Lemma is_dirty_clean (o : OccLists Watcher) del p l :
  0 <= lit_x p < Z.of_nat (length (dirty o)) →
  is_dirty (occ_clean del o p) l = if decide (l = p) then false else is_dirty o l.
Proof.
  intros Hr. unfold is_dirty, occ_clean; simpl. rewrite zget_zset by done.
  repeat case_decide; subst; try done. by apply lit_eq in H.
Qed.

(** [watches.lookup(p)] leaves a list without removed clauses. *)
Lemma lookup_spec q s p : Inv q s → trail s !! q = Some p →
  let o := occ_lookup (watcher_deleted (ca s)) (watches s) p in
  PInv q p (s <| watches := o |>) (occ_get o p).
Proof.
  intros [] Ep. assert (lit_ok (nv s) p) as Hp.
  { apply (tr_range _ _ _ inv_trail0). by eapply list_elem_of_lookup_2. }
  pose proof (proj1 (lit_ok_x _ _) Hp) as Hx. unfold nv in Hx.
  unfold occ_lookup. destruct (is_dirty (watches s) p) eqn:Ed; simpl.
  - assert (occ_get (occ_clean (watcher_deleted (ca s)) (watches s) p) p =
      filter (λ w, watcher_deleted (ca s) w = false) (occ_get (watches s) p)) as Eg.
    { unfold occ_get, occ_clean; simpl. by rewrite zget_zset_eq by lia. }
    rewrite Eg. split; try done.
    + split.
      * intros l w Hl Hw. simpl in *. rewrite is_dirty_clean by lia. unfold Wat in Hw. case_decide.
        -- subst. apply list_elem_of_filter in Hw as [Hd Hw].
           destruct (wa_in _ _ _ _ _ inv_watch0 p w Hl Hw) as (c & E & Hc). exists c.
           split; [done |]. right. destruct Hc as [[Hm _] |]; [| done].
           unfold mem in E. unfold watcher_deleted, ca_deref in Hd. rewrite E, Hm in Hd. done.
        -- apply (wa_in _ _ _ _ _ inv_watch0); [done |].
           unfold occ_get, occ_clean in Hw; simpl in Hw. rewrite zget_zset_ne in Hw; [done |].
           intros Hc. by apply lit_eq in Hc.
      * intros cr c l Hl Hw. unfold Wat. case_decide.
        -- subst. pose proof (wa_has _ _ _ _ _ inv_watch0 cr c p Hl Hw) as Hin.
           apply list_elem_of_fmap in Hin as (w & -> & Hin). apply list_elem_of_fmap_2.
           apply list_elem_of_filter. split; [| done]. unfold watcher_deleted, ca_deref.
           destruct Hl as [E Hm]. unfold mem in E. simpl in E. rewrite E. by apply Z.eqb_neq.
        -- unfold occ_get, occ_clean; simpl. rewrite zget_zset_ne.
           ++ by eapply (wa_has _ _ _ _ _ inv_watch0).
           ++ intros Hc. by apply lit_eq in Hc.
      * intros l Hl. unfold Wat. case_decide.
        -- subst. apply (sublist_NoDup _ (w_cref <$> occ_get (watches s) p));
             [by apply (wa_nodup _ _ _ _ _ inv_watch0 p) |].
           apply fmap_sublist, sublist_filter.
        -- unfold occ_get, occ_clean; simpl. rewrite zget_zset_ne.
           ++ by apply (wa_nodup _ _ _ _ _ inv_watch0).
           ++ intros Hc. by apply lit_eq in Hc.
    + intros w c [Hd Hw]%list_elem_of_filter E. simpl in E. unfold mem in E.
      unfold watcher_deleted, ca_deref in Hd. simpl in E. rewrite E in Hd. by apply Z.eqb_neq in Hd.
    + simpl. by rewrite length_zset.
    + simpl. by rewrite length_zset.
  - split; try done.
    + destruct inv_watch0 as [H1 H2 H3]. split.
      * intros l w Hl Hw. apply H1; [done |]. unfold Wat in Hw. by case_decide; subst.
      * intros cr c l Hl Hw. unfold Wat. case_decide; subst; eauto.
      * intros l Hl. unfold Wat. case_decide; subst; eauto.
    + intros w c Hw E. destruct (wa_in _ _ _ _ _ inv_watch0 p w Hp Hw) as (c' & E' & Hc).
      unfold mem in E, E'. simpl in E. rewrite E' in E. injection E as <-.
      destruct Hc as [[_ ?] | [? _]]; [congruence | done].
Qed.

(** Writing the kept watchers back. *)
Lemma pinv_close q p s L : PInv q p s L → TrailOk (nv s) (assigns s) (trail s) →
  let s' := s <| watches := occ_set (watches s) p L |> in
  Inv q s' ∧ (Kept s L → Inv (S q) s').
Proof.
  intros P T s'. pose proof (pinv_ok _ _ _ _ P) as Hp. apply lit_ok_x in Hp. unfold nv in Hp.
  pose proof (lookup_lt_Some _ _ _ (pi_p _ _ _ _ P)) as Hlt. destruct P.
  assert (WatchOk (nv s') (dead (trail s') (trail_lim s')) (mem s') (occ_get (watches s')) (is_dirty (watches s'))) as W.
  { destruct pi_watch0 as [H1 H2 H3]. split.
    - intros l w Hl Hw. apply H1; [done |]. simpl in Hw. rewrite occ_get_set in Hw by lia. done.
    - intros cr c l Hl Hw. simpl. rewrite occ_get_set by lia. eauto.
    - intros l Hl. simpl. rewrite occ_get_set by lia. eauto. }
  assert (∀ k, (k <= length (trail s))%nat → (q <= k)%nat →
    Justified (mem s') (trail s') (trail_lim s') k → Inv k s') as Hk.
  { intros k Hk1 Hk2 J. split; try done; simpl; rewrite ?length_zset; try done.
    intros m Hm. specialize (pi_lims_q0 m Hm). lia. }
  split; [apply Hk; [lia | lia | done] |].
  intros K. apply Hk; [lia | lia |]. intros cr c l i Hl Hw Hi Ei.
  destruct (decide (i = q)) as [-> | Hne]; [| by eapply (pi_just0 cr c l i); [.. | lia |]].
  simpl in Ei. rewrite pi_p0 in Ei. injection Ei as <-.
  pose proof (wa_has _ _ _ _ _ pi_watch0 cr c p Hl Hw) as Hin. rewrite Wat_eq in Hin.
  apply list_elem_of_fmap in Hin as (w & -> & Hin).
  destruct (K w c Hin (proj1 Hl)) as (t & Ht & (j & Hj)%list_elem_of_lookup_1).
  exists t, j. split; [done |]. split; [done |]. intros m Hm _. by apply pi_lims_q0.
Qed.

Lemma propagate_lit_spec s confl : Inv (qhead s) s → (qhead s < length (trail s))%nat →
  ∃ s' confl', propagate_lit s confl = Some (s', confl') ∧ ext s s' ∧
    ((confl' = confl ∧ qhead s' = S (qhead s) ∧ Inv (qhead s') s') ∨
     (confl' ≠ CRef_Undef ∧ qhead s' = length (trail s') ∧ Inv (qhead s) s' ∧
      falsified s' confl')).
Proof.
  intros I Hlt. unfold propagate_lit. cbv zeta.
  destruct (lookup_lt_is_Some_2 _ _ Hlt) as [p Ep].
  rewrite (list_lookup_total_correct _ _ _ Ep).
  pose proof (lookup_spec _ _ _ I Ep) as P. simpl in *.
  set (o := occ_lookup _ _ p) in *.
  set (s0 := s <| qhead := S (qhead s) |> <| watches := o |>).
  assert (PInv (qhead s) p s0 ([] ++ occ_get o p)) as P0 by (destruct P; by split).
  assert (ext s s0) as X0.
  { apply ext_same_ca; try done; simpl; unfold o, occ_lookup; [by case_match_goal |].
    intros l. case_match_goal; [| done]. unfold is_dirty, occ_clean; simpl.
    unfold zget, zset. repeat case_match_goal; try done. destruct (decide (Z.to_nat (lit_x p) = Z.to_nat (lit_x l))) as [-> |].
    - destruct (decide (Z.to_nat (lit_x l) < length (dirty (watches s)))%nat).
      + by rewrite list_lookup_insert_eq.
      + by rewrite list_insert_ge by lia.
    - by rewrite list_lookup_insert_ne. }
  destruct (propagate_watchers_spec (qhead s) p (occ_get o p) s0 [] confl P0) as
    (s1 & L & confl' & -> & X1 & P1 & Hr).
  { intros w c Hw. by apply elem_of_nil in Hw. }
  simpl. destruct (pinv_close _ _ _ _ P1 (pi_trail _ _ _ _ P1)) as [I1 I2].
  eexists _, _. split; [done |]. split.
  { etrans; [exact X0 |]. etrans; [exact X1 |]. by apply ext_same_ca. }
  destruct Hr as [(-> & Hq & K) | (Hc & Hq & F)]; [left | right].
  - simpl. rewrite Hq. split; [done |]. split; [done |]. by apply I2.
  - split; [done |]. split; [done |]. split; [done | exact F].
Qed.

(** ** The whole propagation *)

(** The two outcomes: a fixpoint, or a falsified clause, and then the invariant
    holds for the part of the trail that was propagated completely. *)
Definition Propagated (s s' : Core) (confl : CRef) : Prop :=
  ext s s' ∧ qhead s' = length (trail s') ∧
  ((confl = CRef_Undef ∧ Inv (qhead s') s') ∨
   (confl ≠ CRef_Undef ∧ falsified s' confl ∧ ∃ q, (qhead s <= q)%nat ∧ Inv q s')).

Lemma propagate_loop_spec fuel : ∀ s n, Inv (qhead s) s →
  (length (assigns s) - qhead s < fuel)%nat →
  ∃ s' confl n', propagate_loop fuel s CRef_Undef n = Some (s', confl, n') ∧ Propagated s s' confl.
Proof.
  induction fuel as [| fuel IH]; intros s n I Hf; [lia |]. simpl.
  pose proof (trail_length _ _ _ (inv_trail _ _ I)) as Hlen.
  destruct (Nat.ltb_spec (qhead s) (length (trail s))) as [Hlt | Hge].
  - destruct (propagate_lit_spec s CRef_Undef I Hlt) as (s1 & confl & -> & X & Hr). simpl.
    destruct Hr as [(-> & Hq & I1) | (Hc & Hq & I1 & F)].
    + destruct (IH s1 (n + 1) I1) as (s' & confl & n' & -> & X' & Hq' & Hr').
      { rewrite (ext_size _ _ X). lia. }
      eexists _, _, _. split; [done |]. split; [by etrans |]. split; [done |].
      destruct Hr' as [? | (? & ? & q & ? & ?)]; [by left | right].
      split; [done |]. split; [done |]. exists q. split; [lia | done].
    + assert (propagate_loop fuel s1 confl (n + 1) = Some (s1, confl, n + 1)) as ->.
      { destruct fuel; simpl; by rewrite (proj2 (Nat.ltb_ge _ _)) by lia. }
      eexists _, _, _. split; [done |]. split; [done |]. split; [done |]. right.
      split; [done |]. split; [done |]. exists (qhead s). done.
  - eexists _, _, _. split; [done |]. split; [reflexivity |].
    pose proof (inv_q _ _ I). split; [lia |]. by left.
Qed.

Lemma propagate_core_spec s : Inv (qhead s) s →
  ∃ s' confl n, propagate_core s = Some (s', confl, n) ∧ Propagated s s' confl.
Proof. intros I. apply propagate_loop_spec; [done | lia]. Qed.

(** At a fixpoint every clause is satisfied or has two non-false literals. *)
Lemma fixpoint_clauses s : Inv (length (trail s)) s → ∀ ls, db (mem s) ls →
  (∃ t, t ∈ ls ∧ lit_on (trail s) t) ∨
  (∃ a b, a ∈ ls ∧ b ∈ ls ∧ a ≠ b ∧ ¬ lit_on (trail s) (lit_neg a) ∧ ¬ lit_on (trail s) (lit_neg b)).
Proof.
  intros I ls (cr & c & Hl & <-). pose proof (cl_two _ _ (inv_cls _ _ I) _ _ Hl) as H2.
  pose proof (cl_nodup _ _ (inv_cls _ _ I) _ _ Hl) as Hnd.
  destruct (c_lits c) as [| a [| b rest]] eqn:E; simpl in H2; try lia.
  assert (∀ k, k = a ∨ k = b → lit_neg k ∈ trail s → ∃ t, t ∈ a :: b :: rest ∧ lit_on (trail s) t)
    as Hj.
  { intros k Hk (i & Hi)%list_elem_of_lookup_1.
    destruct (inv_just _ _ I cr c (lit_neg k) i Hl) as (t & j & Ht & Hj & _); [| | done |].
    - rewrite (watched_pair _ _ _ _ _ E). destruct Hk as [-> | ->]; auto.
    - by eapply lookup_lt_Some.
    - rewrite E in Ht. exists t. split; [done | by eapply list_elem_of_lookup_2]. }
  destruct (decide (lit_neg a ∈ trail s)) as [Ha |]; [left; by apply (Hj a); [left |] |].
  destruct (decide (lit_neg b ∈ trail s)) as [Hb |]; [left; by apply (Hj b); [right |] |].
  right. exists a, b. split; [by left |]. split; [right; by left |]. split; [| done].
  apply NoDup_cons in Hnd as [Hn _]. intros ->. apply Hn. by left.
Qed.

(** The trail is then closed under unit propagation, without a conflict. *)
Lemma fixpoint_up s l : Inv (length (trail s)) s →
  UP (db (mem s)) (lit_on (trail s)) l → l ∈ trail s.
Proof.
  intros I. apply (fixpoint_closed _ _ (lit_on (trail s))); [done | | by apply fixpoint_clauses].
  apply (trail_consistent _ _ _ (inv_trail _ _ I)).
Qed.

Lemma fixpoint_consistent s : Inv (length (trail s)) s →
  ¬ UPconfl (db (mem s)) (lit_on (trail s)).
Proof.
  intros I. apply (fixpoint_no_conflict _ _ (lit_on (trail s))); [done | | by apply fixpoint_clauses].
  apply (trail_consistent _ _ _ (inv_trail _ _ I)).
Qed.

(** Propagation finds a conflict exactly when there is one. *)
Lemma propagated_confl s s' confl : Propagated s s' confl →
  confl ≠ CRef_Undef ↔ UPconfl (db (mem s)) (lit_on (trail s)).
Proof.
  intros (X & Hq & Hr). split.
  - intros Hc. destruct Hr as [[? _] | (_ & F & q & _ & I)]; [done |].
    apply (ext_confl _ _ X). eapply falsified_confl; [apply (inv_cls _ _ I) | done].
  - intros U ->. destruct Hr as [[_ I] | [? _]]; [| done]. rewrite Hq in I.
    apply (fixpoint_consistent _ I). rewrite <- (mem_perm_db _ _ (ext_mem _ _ X)).
    eapply UPconfl_mono, U. intros l Hl. destruct (ext_trail _ _ X) as [news E].
    unfold lit_on. rewrite E. apply elem_of_app. by left.
Qed.
