(* ===== verification/PropCheck.v ===== *)
(** * Propagation checks: [prop_check] and [prop_check_subtree]

    The three operations the rest of the program is built on
    ([minisat/core/Solver.cc], 700-916).  Each of them decides under temporary
    assumptions whether unit propagation fails, and gives the solver back with
    the trail, the decision levels and the propagation head it had. *)
From S2P Require Import Prelude Lit UnitProp Vec Heap Alloc Clause Solver Propagate.

(** ** States between operations *)

(** A propagation fixpoint. *)
Definition Stable (st : Solver) : Prop :=
  Inv (qhead (core st)) (core st) ∧ qhead (core st) = length (trail (core st)).

(** The clauses of the solver. *)
Definition db_of (st : Solver) : formula := db (mem (core st)).

(** The part of the state that propagation and backtracking do not touch. *)
Definition rest_of (st : Solver) :=
  (params st, clauses st, learnts st, assumptions st, ok st, cla_inc st, simpDB_assigns st,
   next_var st, trail_cap st, released_vars st, free_vars st, seen st,
   (max_learnts st, learntsize_adjust_confl st, learntsize_adjust_cnt st, conflict_budget st,
    propagation_budget st, asynch_interrupt st), model st, conflict st, proof st).

(** What every operation of this file leaves alone. *)
Record Frame (st st' : Solver) : Prop := {
  fr_rest : rest_of st' = rest_of st;
  fr_phase : phase_saving (order st') = phase_saving (order st);
  fr_size : length (assigns (core st')) = length (assigns (core st));
  fr_mem : mem_perm (mem (core st)) (mem (core st'));
  fr_region : a_region (ca (core st')) = a_region (ca (core st)) ∧
              a_extra (ca (core st')) = a_extra (ca (core st)) }.

(** [st'] is [st] again: same assignment, levels and propagation head; the
    clauses may have permuted literals and other watches. *)
Record Restored (st st' : Solver) : Prop := {
  re_frame : Frame st st';
  re_trail : trail (core st') = trail (core st);
  re_lims : trail_lim (core st') = trail_lim (core st);
  re_qhead : qhead (core st') = qhead (core st);
  re_inv : Inv (qhead (core st')) (core st') }.

(** [st'] is [st] with more decision levels, and with what was enqueued and
    propagated there. *)
Record Above (st st' : Solver) : Prop := {
  ab_frame : Frame st st';
  ab_trail : ∃ news, trail (core st') = trail (core st) ++ news;
  ab_lims : ∃ more, trail_lim (core st') = trail_lim (core st) ++ length (trail (core st)) :: more;
  ab_inv : ∃ q, Inv q (core st') }.

#[export] Instance frame_preorder : PreOrder Frame.
Proof.
  split.
  - intros st. by split.
  - intros s1 s2 s3 [] []. split; try (intuition congruence). by etrans.
Qed.

Lemma restored_refl st : Stable st → Restored st st.
Proof. intros [I _]. by split. Qed.

Lemma restored_trans s1 s2 s3 : Restored s1 s2 → Restored s2 s3 → Restored s1 s3.
Proof. intros [] []. split; try congruence. by etrans. Qed.

Lemma restored_stable st st' : Stable st → Restored st st' → Stable st'.
Proof. intros [_ Hq] []. split; congruence. Qed.

Lemma restored_db st st' : Restored st st' → formula_equiv (db_of st) (db_of st').
Proof. intros R. apply mem_perm_db, R. Qed.

Lemma above_restored s1 s2 s3 : Above s1 s2 → Restored s2 s3 → Above s1 s3.
Proof.
  intros [F1 T1 L1 I1] [F2 T2 L2 Q2 I2]. split; [by etrans | | |].
  - by rewrite T2.
  - by rewrite L2.
  - eauto.
Qed.

(** ** Backtracking *)

Lemma undo_order_phase l o c p : phase_saving (undo_order l o c p) = phase_saving o.
Proof. unfold undo_order, insertVarOrder. by repeat case_match_goal. Qed.

Lemma undo_loop_phase l ps : ∀ a o c, phase_saving (undo_loop l a o c ps).2 = phase_saving o.
Proof. induction ps as [| p ps IH]; intros a o c; [done |]. simpl. by rewrite IH, undo_order_phase. Qed.

Lemma undo_loop_length l ps : ∀ a o c, length (undo_loop l a o c ps).1 = length a.
Proof. induction ps as [| p ps IH]; intros a o c; [done |]. simpl. by rewrite IH, length_zset. Qed.

Lemma undo_loop_trail n l ps tr : ∀ a o c, TrailOk n a (tr ++ rev ps) →
  TrailOk n (undo_loop l a o c ps).1 tr.
Proof.
  induction ps as [| p ps IH]; intros a o c T; simpl in *.
  - by rewrite app_nil_r in T.
  - apply IH, trail_undo. by rewrite <- (assoc_L (++)).
Qed.

Lemma justified_take m tr lims q lvl lim : lims_sorted lims → lims !! lvl = Some lim →
  (lim <= q)%nat → Justified m tr lims q → Justified m (take lim tr) (take lvl lims) lim.
Proof.
  intros Hs Hl Hq J cr c l i Hlv Hw Hi Ei. rewrite lookup_take_lt in Ei by done.
  destruct (J cr c l i Hlv Hw) as (t & j & Ht & Ej & Hn); [lia | done |].
  assert (j < lim)%nat.
  { destruct (decide (lim <= j)%nat) as [Hle |]; [| lia].
    apply Hn in Hle; [lia |]. by eapply list_elem_of_lookup_2. }
  exists t, j. split; [done |]. rewrite lookup_take_lt by done. split; [done |].
  intros k Hk. apply Hn. rewrite <- (take_drop lvl lims). apply elem_of_app. by left.
Qed.

Lemma lims_take lims lvl lim k : lims_sorted lims → lims !! lvl = Some lim →
  k ∈ take lvl lims → (k <= lim)%nat.
Proof.
  intros Hs Hl (i & Hi)%list_elem_of_lookup_1. pose proof (lookup_lt_Some _ _ _ Hi) as Hlt.
  rewrite length_take in Hlt. rewrite lookup_take_lt in Hi by lia.
  apply (Hs i lvl k lim); [lia | done | done].
Qed.

Lemma cancel_inv st lvl lim q : Inv q (core st) → trail_lim (core st) !! lvl = Some lim →
  let s' := core (cancelUntil st lvl) in
  Inv lim s' ∧ trail s' = take lim (trail (core st)) ∧
  trail_lim s' = take lvl (trail_lim (core st)) ∧ qhead s' = lim ∧ ca s' = ca (core st) ∧
  length (assigns s') = length (assigns (core st)).
Proof.
  intros I El. pose proof (lookup_lt_Some _ _ _ El) as Hlt. unfold cancelUntil, decisionLevel.
  destruct (Nat.ltb_spec lvl (length (trail_lim (core st)))); [| lia].
  rewrite (list_lookup_total_correct _ _ _ El).
  destruct (undo_loop _ _ _ _ _) as [a o] eqn:Eu. simpl.
  assert (TrailOk (nv (core st)) a (take lim (trail (core st)))) as T.
  { change a with ((a, o).1). rewrite <- Eu. apply undo_loop_trail.
    rewrite rev_involutive, take_drop. apply (inv_trail _ _ I). }
  assert (length a = length (assigns (core st))) as Hlen.
  { change a with ((a, o).1). by rewrite <- Eu, undo_loop_length. }
  split; [| done]. destruct I.
  assert (lim <= q)%nat as Hq by (apply inv_lims_q; by eapply list_elem_of_lookup_2).
  split; unfold nv; simpl; rewrite ?Hlen; try done.
  - eapply watch_dead; [| done]. intros b (i & Hi & Hd).
    assert (i < lim)%nat by (apply Hd; by eapply list_elem_of_lookup_2).
    exists i. split; [by rewrite lookup_take_lt |]. intros m Hm. apply Hd.
    by eapply sublist_subseteq; [apply sublist_take |].
  - by eapply justified_take.
  - intros i j x y Hij Hi Hj. pose proof (lookup_lt_Some _ _ _ Hi). pose proof (lookup_lt_Some _ _ _ Hj).
    rewrite length_take in *. rewrite lookup_take_lt in Hi, Hj by lia. by apply (inv_lims i j).
  - intros m Hm. by eapply lims_take.
  - rewrite length_take. lia.
Qed.

Lemma cancel_frame st lvl :
  rest_of (cancelUntil st lvl) = rest_of st ∧
  phase_saving (order (cancelUntil st lvl)) = phase_saving (order st).
Proof.
  unfold cancelUntil. case_match_goal; [| done].
  destruct (undo_loop _ _ _ _ _) as [a o] eqn:Eu. split; [done |]. simpl.
  change o with ((a, o).2). by rewrite <- Eu, undo_loop_phase.
Qed.

(** Backtracking over everything above [st] gives [st] back. *)
Lemma cancel_above st st' : Stable st → Above st st' →
  let lvl := decisionLevel (core st) in
  Nat.ltb lvl (decisionLevel (core st')) = true ∧ Restored st (cancelUntil st' lvl).
Proof.
  intros [I Hq] [F [news Et] [more El] [q I']] lvl.
  assert (trail_lim (core st') !! lvl = Some (length (trail (core st)))) as Elim.
  { rewrite El, lookup_app_r by done. by rewrite Nat.sub_diag. }
  split.
  { apply Nat.ltb_lt. unfold decisionLevel. by eapply lookup_lt_Some. }
  destruct (cancel_inv st' lvl _ q I' Elim) as (Ic & Htr & Hlim & Hqh & Hm & Hsz).
  destruct (cancel_frame st' lvl) as [H1 H2]. split.
  - destruct F. split; unfold mem; rewrite ?Hm; (done || congruence).
  - rewrite Htr, Et. by rewrite take_app_length.
  - rewrite Hlim, El. by apply take_app_length.
  - by rewrite Hqh.
  - by rewrite Hqh.
Qed.

(** ** Enqueueing assumptions *)

Lemma inv_enqueue q s p from : Inv q s → lit_ok (nv s) p → p ∉ trail s → lit_neg p ∉ trail s →
  Inv q (uncheckedEnqueue s p from).
Proof.
  intros [] Hp H1 H2. pose proof (trail_enqueue _ _ _ _ inv_trail Hp H1 H2) as T.
  split; unfold nv, uncheckedEnqueue; simpl; rewrite ?length_zset; try done.
  - eapply watch_dead; [intros b; apply dead_app | done].
  - by apply justified_app.
  - rewrite length_app. lia.
Qed.

Lemma inv_new_level s : Inv (length (trail s)) s → Inv (length (trail s)) (newDecisionLevel s).
Proof.
  intros []. split; try done; simpl.
  - eapply watch_dead; [| done]. intros b (i & Hi & Hd). exists i. split; [done |].
    intros m [Hm | ->%list_elem_of_singleton]%elem_of_app; [by apply Hd | by eapply lookup_lt_Some].
  - intros cr c l i Hl Hw Hi Ei. destruct (inv_just cr c l i Hl Hw Hi Ei) as (t & j & Ht & Ej & Hn).
    exists t, j. split; [done |]. split; [done |].
    intros m [Hm | ->%list_elem_of_singleton]%elem_of_app Hle; [by apply Hn |].
    apply lookup_lt_Some in Ej. lia.
  - intros i j a b Hij Hi Hj. destruct (decide (j < length (trail_lim s))%nat) as [Hlt | Hge].
    + rewrite lookup_app_l in Hi, Hj by lia. by apply (inv_lims i j).
    + rewrite lookup_app_r in Hj by lia. apply list_lookup_singleton_Some in Hj as [Hj <-].
      destruct (decide (i < length (trail_lim s))%nat).
      * rewrite lookup_app_l in Hi by lia. apply inv_lims_q. by eapply list_elem_of_lookup_2.
      * rewrite lookup_app_r in Hi by lia. apply list_lookup_singleton_Some in Hi as [_ <-]. lia.
  - intros m [Hm | ->%list_elem_of_singleton]%elem_of_app; [by apply inv_lims_q | lia].
Qed.

Definition lits_ok (s : Core) (ps : list Lit) : Prop := Forall (lit_ok (nv s)) ps.

Lemma enqueue_all_spec q ps : ∀ s, Inv q s → lits_ok s ps →
  let '(s', b) := enqueue_all s ps in
  Inv q s' ∧ (∃ news, trail s' = trail s ++ news) ∧ trail_lim s' = trail_lim s ∧
  qhead s' = qhead s ∧ ca s' = ca s ∧ length (assigns s') = length (assigns s) ∧
  (∀ l, l ∈ trail s' → l ∈ trail s ++ ps) ∧
  (if b then ∀ l, l ∈ ps → l ∈ trail s' else ∃ p, p ∈ ps ∧ lit_neg p ∈ trail s').
Proof.
  induction ps as [| p ps IH]; intros s I Hok; simpl.
  { split; [done |]. split; [exists []; by rewrite app_nil_r |]. do 4 (split; [done |]).
    rewrite app_nil_r. split; [done |]. intros l Hl. by apply elem_of_nil in Hl. }
  apply Forall_cons in Hok as [Hp Hok]. pose proof (inv_trail _ _ I) as T.
  rewrite value_isFalse by done. case_bool_decide as Hf.
  { split; [done |]. split; [exists []; by rewrite app_nil_r |]. do 4 (split; [done |]).
    split; [intros l Hl; apply elem_of_app; by left |]. exists p. split; [by left | done]. }
  unfold lb_neb. rewrite value_isTrue by done. case_bool_decide as Ht; simpl.
  - specialize (IH s I Hok). destruct (enqueue_all s ps) as [s' b].
    destruct IH as (H1 & H2 & H3 & H4 & H5 & H6 & H7 & H8). do 6 (split; [done |]). split.
    + intros l Hl%H7. rewrite elem_of_app, ?elem_of_cons in *. tauto.
    + destruct b.
      * intros l [-> | Hl]%elem_of_cons; [| by apply H8]. destruct H2 as [news ->].
        apply elem_of_app. by left.
      * destruct H8 as (k & Hk & Hn). exists k. split; [by right | done].
  - assert (nv (uncheckedEnqueue s p CRef_Undef) = nv s) as Hnv.
    { unfold nv, uncheckedEnqueue; simpl. by rewrite length_zset. }
    specialize (IH (uncheckedEnqueue s p CRef_Undef)).
    destruct (enqueue_all _ ps) as [s' b].
    destruct IH as (H1 & [news H2] & H3 & H4 & H5 & H6 & H7 & H8).
    { by apply inv_enqueue. }
    { unfold lits_ok. by rewrite Hnv. }
    simpl in *. rewrite length_zset in H6. split; [done |].
    split; [exists (p :: news); by rewrite H2, <- (assoc_L (++)) |].
    do 4 (split; [done |]). split.
    + intros l Hl%H7. rewrite !elem_of_app, ?elem_of_cons in *. rewrite elem_of_nil in Hl. tauto.
    + destruct b.
      * intros l [-> | Hl]%elem_of_cons; [| by apply H8]. rewrite H2. apply elem_of_app. left.
        apply elem_of_app. right. by left.
      * destruct H8 as (k & Hk & Hn). exists k. split; [by right | done].
Qed.

(** ** Propagation at the level of the solver *)

Lemma propagate_spec st : Inv (qhead (core st)) (core st) →
  ∃ st' confl, propagate st = Some (st', confl) ∧ Propagated (core st) (core st') confl ∧
    Frame st st'.
Proof.
  intros I. unfold propagate.
  destruct (propagate_core_spec _ I) as (s' & confl & n & -> & P). simpl.
  eexists _, _. split; [done |]. split; [done |]. destruct P as (X & _).
  split; try done; apply X.
Qed.

Lemma propagated_inv s s' confl : Propagated s s' confl → ∃ q, Inv q s'.
Proof. intros (_ & _ & [[_ ?] | (_ & _ & q & _ & ?)]); eauto. Qed.

Lemma propagated_stable st st' : Propagated (core st) (core st') CRef_Undef → Stable st'.
Proof. intros (_ & Hq & [[_ ?] | [? _]]); by split. Qed.

(** After a fixpoint, the old trail and the new one have the same consequences. *)
Lemma ext_confl_iff s s' ps : ext s s' →
  UPconfl (db (mem s')) (lit_on (trail s' ++ ps)) ↔ UPconfl (db (mem s)) (lit_on (trail s ++ ps)).
Proof.
  intros X. rewrite <- (mem_perm_db _ _ (ext_mem _ _ X)). apply UPconfl_iff; unfold lit_on.
  - intros l Hl. apply UP_base. destruct (ext_trail _ _ X) as [news ->].
    rewrite !elem_of_app in *. tauto.
  - intros l [Hl | Hl]%elem_of_app.
    + eapply UP_mono, (ext_up _ _ X _ Hl). intros k Hk. apply elem_of_app. by left.
    + apply UP_base. apply elem_of_app. by right.
Qed.

(** A new level with the literals [ps] enqueued, before propagation. *)
Lemma assume_above st ps s b : Stable st → lits_ok (core st) ps →
  enqueue_all (newDecisionLevel (core st)) ps = (s, b) →
  Above st (st <| core := s |>) ∧ Inv (qhead s) s ∧
  (∀ l, l ∈ trail s → l ∈ trail (core st) ++ ps) ∧
  (if b then ∀ l, l ∈ ps → l ∈ trail s else ∃ p, p ∈ ps ∧ lit_neg p ∈ trail s).
Proof.
  intros [I Hq] Hok E. rewrite Hq in I.
  pose proof (enqueue_all_spec _ ps _ (inv_new_level _ I) Hok) as H. rewrite E in H.
  destruct H as (H1 & H2 & H3 & H4 & H5 & H6 & H7 & H8). split.
  - split; [| done | by exists [] | by exists (length (trail (core st)))].
    split; unfold mem; simpl; rewrite ?H5; done.
  - split; [| done]. rewrite H4. simpl. by rewrite Hq.
Qed.

(** Assumptions one of which is false at the propagation fixpoint. *)
Lemma false_assumption F (tr tr' ps : list Lit) p : (∀ l, l ∈ tr' → l ∈ tr ++ ps) → p ∈ ps →
  lit_neg p ∈ tr' → UPconfl F (lit_on (tr ++ ps)).
Proof.
  intros H Hp Hn. exists p. split; apply UP_base; [| by apply H].
  apply elem_of_app. by right.
Qed.

Lemma assumed_confl F (tr tr' ps news : list Lit) : tr' = tr ++ news →
  (∀ l, l ∈ tr' → l ∈ tr ++ ps) → (∀ l, l ∈ ps → l ∈ tr') →
  UPconfl F (lit_on tr') ↔ UPconfl F (lit_on (tr ++ ps)).
Proof.
  intros -> H1 H2. apply UPconfl_iff; intros l Hl; apply UP_base.
  - apply elem_of_app in Hl as [Hl | Hl]; [by apply elem_of_app; left | by apply H2].
  - by apply H1.
Qed.

Lemma above_propagated st s0 st1 st2 confl : Above st (st <| core := s0 |>) →
  Propagated s0 (core st2) confl → Frame st1 st2 → core st1 = s0 →
  Frame (st <| core := s0 |>) st1 → Above st st2.
Proof.
  intros [F [news T] [more L] _] P F12 E F1. destruct (propagated_inv _ _ _ P) as [q Iq].
  destruct P as (X & _). split.
  - etrans; [exact F |]. by etrans.
  - destruct (ext_trail _ _ X) as [news' ->]. exists (news ++ news'). simpl in T.
    by rewrite T, (assoc_L (++)).
  - exists more. rewrite (ext_lims _ _ X). exact L.
  - by exists q.
Qed.

Lemma set_phase_frame st v w : phase_saving (order st) = w → 
  Frame st (set_phase_saving (set_phase_saving st v) w).
Proof. intros <-. by split. Qed.

Lemma restored_phase st st' v : Restored (set_phase_saving st v) st' →
  Restored st (set_phase_saving st' (phase_saving (order st))).
Proof. intros [[] ? ? ? ?]. by split; [split |..]. Qed.

(** The boolean answer [b] of a check for the absence of a conflict [U]. *)
Definition answers (b : bool) (U : Prop) : Prop := if b then ¬ U else U.

#[export] Instance answers_proper : Proper (eq ==> iff ==> iff) answers.
Proof. intros [] ? <- U V H; simpl; tauto. Qed.

(** [prop_check]: the core of the proof, for a solver whose phase saving has
    been set. *)
Lemma prop_check_body st ps s b : Stable st → lits_ok (core st) ps →
  enqueue_all (newDecisionLevel (core st)) ps = (s, b) →
  ∃ st2 confl, propagate_if b (st <| core := s |>) = Some (st2, confl) ∧
    Above st st2 ∧
    answers (b && (confl =? CRef_Undef)) (UPconfl (db_of st) (lit_on (trail (core st) ++ ps))).
Proof.
  intros St Hok E. destruct (assume_above _ _ _ _ St Hok E) as (A & I & H1 & H2).
  assert (db_of st = db (mem s)) as Edb.
  { unfold db_of. pose proof (enqueue_all_spec (length (trail (core st))) ps (newDecisionLevel (core st))) as H.
    rewrite E in H. destruct St as [I0 Hq]. rewrite Hq in I0.
    unfold mem. by destruct (H (inv_new_level _ I0) Hok) as (_ & _ & _ & _ & -> & _). }
  destruct b; simpl.
  - pose proof (propagate_spec (st <| core := s |>)) as HP. destruct (HP I) as (st2 & confl & -> & P & F).
    exists st2, confl. split; [done |]. split.
    { by eapply (above_propagated _ _ _ _ _ A P F). }
    pose proof (propagated_confl _ _ _ P) as Hc. simpl in Hc.
    destruct (ab_trail _ _ A) as [news Et]. simpl in Et.
    rewrite Edb, <- (assumed_confl _ _ _ _ _ Et H1 H2), <- Hc.
    destruct (Z.eqb_spec confl CRef_Undef); simpl; tauto.
  - eexists _, _. split; [done |]. split; [done |]. destruct H2 as (p & Hp & Hn). by eapply false_assumption.
Qed.

Lemma prop_check_spec st ps k : ok st = true → Stable st → lits_ok (core st) ps →
  ∃ st' b, prop_check st ps k = Some (st', b) ∧ Restored st st' ∧
    answers b (UPconfl (db_of st) (lit_on (trail (core st) ++ ps))).
Proof.
  intros Hk St Hok. unfold prop_check. rewrite Hk. simpl.
  destruct (enqueue_all _ ps) as [s b] eqn:E.
  set (st0 := set_phase_saving st k).
  assert (Stable st0) as St0 by done.
  destruct (prop_check_body st0 ps s b St0 Hok E) as (st2 & confl & -> & A & Hb). simpl.
  destruct (cancel_above _ _ St0 A) as [Hlt R]. change (core st0) with (core st) in *. rewrite Hlt.
  eexists _, _. split; [done |]. split; [| exact Hb].
  by eapply restored_phase.
Qed.

(** ** One decision and its propagation *)

Lemma closure_iff F (tr tr' ps a : list Lit) :
  (∀ l, l ∈ tr' → UP F (lit_on (tr ++ ps)) l) → (∀ l, l ∈ tr ++ ps → l ∈ tr') →
  UPconfl F (lit_on (tr' ++ a)) ↔ UPconfl F (lit_on (tr ++ ps ++ a)).
Proof.
  intros H1 H2. apply UPconfl_iff; unfold lit_on.
  - intros l Hl. apply UP_base. rewrite (assoc_L (++)), elem_of_app in Hl. apply elem_of_app.
    destruct Hl as [Hl | Hl]; [left; by apply H2 | by right].
  - intros l [Hl | Hl]%elem_of_app.
    + eapply UP_mono, (H1 l Hl). intros k Hk. rewrite (assoc_L (++)). apply elem_of_app. by left.
    + apply UP_base. rewrite !elem_of_app. auto.
Qed.

Lemma decide_spec st p : Stable st → lit_ok (nv (core st)) p →
  p ∉ trail (core st) → lit_neg p ∉ trail (core st) →
  ∃ st' confl,
    propagate (st <| core := uncheckedEnqueue (newDecisionLevel (core st)) p CRef_Undef |>)
      = Some (st', confl) ∧
    Above st st' ∧ (∀ l, l ∈ trail (core st) ++ [p] → l ∈ trail (core st')) ∧
    (∀ l, l ∈ trail (core st') → UP (db_of st) (lit_on (trail (core st) ++ [p])) l) ∧
    ((confl = CRef_Undef ∧ Stable st') ∨
     (confl ≠ CRef_Undef ∧ falsified (core st') confl ∧
      UPconfl (db_of st) (lit_on (trail (core st) ++ [p])))).
Proof.
  intros St Hp H1 H2. set (s := uncheckedEnqueue _ _ _).
  assert (enqueue_all (newDecisionLevel (core st)) [p] = (s, true)) as E.
  { destruct St as [I Hq]. rewrite Hq in I. pose proof (inv_trail _ _ (inv_new_level _ I)) as T.
    simpl. unfold lb_neb. rewrite value_isFalse, value_isTrue by done.
    by rewrite !bool_decide_eq_false_2 by done. }
  destruct (assume_above st [p] s true St (proj2 (Forall_singleton _ _) Hp) E) as (A & I & _).
  pose proof (propagate_spec (st <| core := s |>)) as HP.
  destruct (HP I) as (st' & confl & -> & P & F). exists st', confl. split; [done |].
  assert (Above st st') as A'.
  { by eapply (above_propagated _ _ _ _ _ A P F). }
  pose proof (propagated_confl _ _ _ P) as Hc.
  split; [done |]. destruct P as (X & Hq & Hr). split; [| split].
  - intros l Hl. destruct (ext_trail _ _ X) as [news ->]. apply elem_of_app. by left.
  - apply (ext_up _ _ X).
  - destruct Hr as [[-> I'] | (Hne & Hf & _)]; [left | right].
    + split; [done |]. by split.
    + split; [done |]. split; [done |]. by apply Hc.
Qed.

Lemma stable_no_confl st : Stable st → ¬ UPconfl (db_of st) (lit_on (trail (core st))).
Proof. intros [I Hq]. rewrite Hq in I. by apply fixpoint_consistent. Qed.

Lemma db_frame st st' : Frame st st' → formula_equiv (db_of st) (db_of st').
Proof. intros F. apply mem_perm_db, F. Qed.

Lemma frame_ok st st' : Frame st st' → ok st' = ok st.
Proof. intros [[=] _ _ _ _]. done. Qed.

Lemma frame_nv st st' : Frame st st' → nv (core st') = nv (core st).
Proof. intros F. unfold nv. by rewrite (fr_size _ _ F). Qed.

(** ** Assumptions on one decision level each *)

(** The outcome of the loop of [prop_check_propagated]. *)
Record Assumed (st : Solver) (ps : list Lit) (st' : Solver) (good : bool) (confl : CRef) : Prop := {
  as_state : Restored st st' ∨ Above st st';
  as_up : ∀ l, l ∈ trail (core st') → UP (db_of st) (lit_on (trail (core st) ++ ps)) l;
  as_good : good = true → Stable st' ∧ ∀ l, l ∈ trail (core st) ++ ps → l ∈ trail (core st');
  as_bad : good = false → UPconfl (db_of st) (lit_on (trail (core st) ++ ps));
  as_confl : confl ≠ CRef_Undef → falsified (core st') confl ∧ Above st st' }.

Lemma confl_app F (tr ps a : list Lit) : UPconfl F (lit_on (tr ++ ps)) →
  UPconfl F (lit_on (tr ++ ps ++ a)).
Proof. apply UPconfl_mono. intros l Hl. unfold lit_on. rewrite (assoc_L (++)). apply elem_of_app. by left. Qed.

Lemma trail_perm_up F (tr ps qs : list Lit) l : (∀ k, k ∈ ps → k ∈ tr ++ qs) →
  UP F (lit_on (tr ++ ps)) l → UP F (lit_on (tr ++ qs)) l.
Proof.
  intros H. apply UP_mono. intros k [Hk | Hk]%elem_of_app; [apply elem_of_app; by left | by apply H].
Qed.

(** Processing [ps] after the decision [p] led from [st] to [st1]. *)
Lemma assumed_cons st st1 p ps st' good confl :
  Above st st1 → (∀ l, l ∈ trail (core st) ++ [p] → l ∈ trail (core st1)) →
  (∀ l, l ∈ trail (core st1) → UP (db_of st) (lit_on (trail (core st) ++ [p])) l) →
  Assumed st1 ps st' good confl → Assumed st (p :: ps) st' good confl.
Proof.
  intros A H1 H2 [S U G B C].
  assert (formula_equiv (db_of st1) (db_of st)) as E by (symmetry; apply db_frame, A).
  assert (Above st st') as A'.
  { destruct S as [R | A2]; [by eapply above_restored |]. destruct A as [F1 [n1 T1] [m1 L1] _], A2 as [F2 [n2 T2] [m2 L2] I2].
    split; [by etrans | | | done].
    - exists (n1 ++ n2). by rewrite T2, T1, (assoc_L (++)).
    - rewrite L2, L1. exists (m1 ++ length (trail (core st1)) :: m2).
      by rewrite <- (assoc_L (++)). }
  assert (∀ k, lit_on (trail (core st1) ++ ps) k → UP (db_of st) (lit_on (trail (core st) ++ p :: ps)) k) as HU.
  { intros k [Hk | Hk]%elem_of_app.
    - eapply trail_perm_up, (H2 k Hk). intros j ->%list_elem_of_singleton.
      apply elem_of_app. right. by left.
    - apply UP_base. apply elem_of_app. right. by right. }
  split; [by right | | | |].
  - intros l Hl. apply (UP_cut _ _ _ _ HU). rewrite <- E. by apply U.
  - intros Hg. destruct (G Hg) as [St Hl]. split; [done |].
    intros l Hin. apply Hl. rewrite !elem_of_app, elem_of_cons in *.
    destruct (decide (l ∈ ps)); [by right |]. left. apply H1. apply elem_of_app.
    rewrite list_elem_of_singleton. tauto.
  - intros Hg. eapply UPconfl_cut; [exact HU |]. rewrite <- E. by apply B.
  - intros Hc. destruct (C Hc) as [Hf _]. by split.
Qed.

Lemma assume_each_spec ps : ∀ st, Stable st → lits_ok (core st) ps →
  ∃ st' b confl, assume_each st ps = Some (st', b, confl) ∧
    Assumed st ps st' (b && (confl =? CRef_Undef)) confl.
Proof.
  induction ps as [| p ps IH]; intros st St Hok; simpl.
  { eexists _, _, _. split; [done |]. split; simpl.
    - left. by apply restored_refl.
    - intros l Hl. apply UP_base. apply elem_of_app. by left.
    - intros _. split; [done |]. by rewrite app_nil_r.
    - done.
    - done. }
  apply Forall_cons in Hok as [Hp Hok]. pose proof (inv_trail _ _ (proj1 St)) as T.
  rewrite value_isFalse by done. case_bool_decide as Hf.
  { eexists _, _, _. split; [done |]. split; simpl; try done.
    - left. by apply restored_refl.
    - intros l Hl. apply UP_base. apply elem_of_app. by left.
    - intros _. apply (false_assumption _ _ (trail (core st)) _ p); [| by left | done].
      intros l Hl. apply elem_of_app. by left. }
  unfold lb_neb. rewrite value_isTrue by done. case_bool_decide as Ht; simpl.
  - destruct (IH st St Hok) as (st' & b & confl & -> & [S U G B C]). eexists _, _, _.
    split; [done |].
    assert (∀ l, lit_on (trail (core st) ++ p :: ps) l ↔ lit_on (trail (core st) ++ ps) l) as Hiff.
    { intros l. unfold lit_on. rewrite !elem_of_app, elem_of_cons.
      split; [intros [? | [-> | ?]]; auto | tauto]. }
    split; try done.
    + intros l Hl. eapply UP_mono, (U l Hl). intros k. apply Hiff.
    + intros Hg. destruct (G Hg) as [St' Hl]. split; [done |]. intros l Hin. by apply Hl, Hiff.
    + intros Hg. eapply UPconfl_mono, (B Hg). intros k. apply Hiff.
  - destruct (decide_spec st p St Hp Ht Hf) as (st1 & confl & -> & A & H1 & H2 & Hr). simpl.
    destruct Hr as [[-> St1] | (Hne & Hfa & U)].
    + rewrite Z.eqb_refl.
      destruct (IH st1 St1) as (st' & b & confl & -> & As).
      { unfold lits_ok. by rewrite (frame_nv _ _ (ab_frame _ _ A)). }
      eexists _, _, _. split; [done |]. by eapply assumed_cons.
    + rewrite (proj2 (Z.eqb_neq _ _) Hne). eexists _, _, _. split; [done |]. simpl.
      rewrite (proj2 (Z.eqb_neq _ _) Hne). split.
      * by right.
      * intros l Hl. eapply trail_perm_up, (H2 l Hl). intros j ->%list_elem_of_singleton.
        apply elem_of_app. right. by left.
      * done.
      * intros _. by apply (confl_app _ _ [p] ps).
      * by intros _.
Qed.

(** When all assumptions hold at a fixpoint, its trail is what they derive. *)
Lemma assumed_closure st ps st' confl l : Assumed st ps st' true confl →
  l ∈ trail (core st') ↔ UP (db_of st) (lit_on (trail (core st) ++ ps)) l.
Proof.
  intros As. split; [apply As |]. destruct (as_good _ _ _ _ _ As eq_refl) as [[I Hq] Hl].
  assert (formula_equiv (db_of st) (db_of st')) as E.
  { destruct (as_state _ _ _ _ _ As) as [R | A]; apply db_frame; [apply R | apply A]. }
  intros U. rewrite Hq in I. apply (fixpoint_up _ _ I). change (db (mem (core st'))) with (db_of st').
  rewrite <- E. by eapply UP_mono, U.
Qed.

Lemma assumed_answer st ps st' good confl : Assumed st ps st' good confl →
  answers good (UPconfl (db_of st) (lit_on (trail (core st) ++ ps))).
Proof.
  intros As. destruct good.
  - intros (l & H1 & H2). apply (assumed_closure _ _ _ _ _ As) in H1, H2.
    destruct (as_good _ _ _ _ _ As eq_refl) as [[I _] _].
    by apply (trail_consistent _ _ _ (inv_trail _ _ I) l).
  - by apply (as_bad _ _ _ _ _ As).
Qed.

Lemma prop_check_propagated_spec st ps k : ok st = true → Stable st → lits_ok (core st) ps →
  ∃ st' b prop, prop_check_propagated st ps k = Some (st', b, prop) ∧ Restored st st' ∧
    answers b (UPconfl (db_of st) (lit_on (trail (core st) ++ ps))) ∧
    (b = true → ∀ l, l ∈ trail (core st) ++ prop ↔
                     UP (db_of st) (lit_on (trail (core st) ++ ps)) l).
Proof.
  intros Hk St Hok. unfold prop_check_propagated. rewrite Hk. simpl.
  set (st0 := set_phase_saving st k). assert (Stable st0) as St0 by done.
  destruct (assume_each_spec ps st0 St0 Hok) as (st1 & b & confl & -> & As). simpl.
  pose proof (assumed_answer _ _ _ _ _ As) as Hb.
  assert (∀ tr, b && (confl =? CRef_Undef) = true → trail (core st1) = tr → ∀ l, l ∈ tr ↔
    UP (db_of st) (lit_on (trail (core st) ++ ps)) l) as Hp.
  { intros tr Hg <- l. rewrite Hg in As. exact (assumed_closure _ _ _ _ _ As). }
  destruct (as_state _ _ _ _ _ As) as [R | A].
  - assert (Nat.ltb (decisionLevel (core st)) (decisionLevel (core st1)) = false) as ->.
    { unfold decisionLevel. rewrite (re_lims _ _ R). apply Nat.ltb_irrefl. }
    eexists _, _, []. split; [done |]. split; [by eapply restored_phase |]. split; [done |].
    intros Hg. rewrite app_nil_r. apply (Hp _ Hg). apply R.
  - destruct (cancel_above _ _ St0 A) as [Hlt Rc]. change (core st0) with (core st) in *. rewrite Hlt.
    assert (trail (core st) ++ drop (trail_lim (core st1) !!! decisionLevel (core st)) (trail (core st1))
      = trail (core st1)) as Hd.
    { destruct (ab_lims _ _ A) as [more El], (ab_trail _ _ A) as [news Et].
      change (core st0) with (core st) in *. rewrite El, Et.
      rewrite lookup_total_app_r by done. unfold decisionLevel. rewrite Nat.sub_diag. simpl.
      by rewrite drop_app_length. }
    destruct (decide (confl = CRef_Undef)) as [-> | Hc].
    + simpl. eexists _, _, _. split; [done |]. split; [by eapply restored_phase |]. split; [done |].
      intros Hg. apply (Hp _ Hg). done.
    + destruct (as_confl _ _ _ _ _ As Hc) as [(c & [Ec _] & _) _].
      rewrite (proj2 (Z.eqb_neq _ _) Hc) in *. simpl. unfold mem in Ec. unfold ca_deref. rewrite Ec. simpl.
      eexists _, _, _. split; [done |]. split; [by eapply restored_phase |].
      rewrite andb_false_r in *. by split.
Qed.

(** ** Counting the conflicting leaves *)

(** The leaves (as lists of literals) that conflict with the state [st]. *)
Definition leaf_conflict (st : Solver) (a : list Lit) : Prop :=
  UPconfl (db_of st) (lit_on (trail (core st) ++ a)).

Lemma leaf_conflict_restored st st' a : Restored st st' → leaf_conflict st' a ↔ leaf_conflict st a.
Proof.
  intros R. unfold leaf_conflict. rewrite (re_trail _ _ R). by rewrite <- (restored_db _ _ R).
Qed.

(** What the recursive call on the remaining variables promises. *)
Definition counts_leaves (n : Z) (rec : Solver → option (Solver * Z)) (xs : list (list Lit)) : Prop :=
  ∀ st, Stable st → nv (core st) = n →
    ∃ st' k, rec st = Some (st', k) ∧ Restored st st' ∧ counts (leaf_conflict st) xs k.

Lemma subtree_half_spec n rec xs lit : counts_leaves n rec xs → lit_ok n lit →
  counts_leaves n (λ st, subtree_half rec st lit (Z.of_nat (length xs)))
    (cons lit <$> xs).
Proof.
  intros Hrec Hl st St Hn. pose proof (inv_trail _ _ (proj1 St)) as T. unfold subtree_half.
  rewrite <- Hn in Hl. rewrite value_isFalse by done. case_bool_decide as Hf.
  { eexists _, _. split; [done |]. split; [by apply restored_refl |].
    rewrite <- (length_fmap (cons lit)). apply counts_all. intros x (a & -> & _)%list_elem_of_fmap_1.
    apply (false_assumption _ (trail (core st)) (trail (core st)) _ lit); [| by left | done].
    intros l Hi. apply elem_of_app. by left. }
  rewrite value_isUndef by done. destruct (decide (lit ∈ trail (core st))) as [Ht | Ht].
  - rewrite bool_decide_eq_false_2 by tauto.
    destruct (Hrec st St Hn) as (st' & k & -> & R & C). eexists _, _. split; [done |]. split; [done |].
    apply counts_fmap. eapply counts_ext, C. intros a _. unfold leaf_conflict.
    apply UPconfl_iff; intros l Hi; apply UP_base; unfold lit_on in *;
      rewrite !elem_of_app, ?elem_of_cons in *; [| tauto].
    destruct Hi as [? | [-> | ?]]; auto.
  - rewrite bool_decide_eq_true_2 by done.
    destruct (decide_spec st lit St Hl Ht Hf) as (st1 & confl & -> & A & H1 & H2 & Hr). simpl.
    destruct Hr as [[-> St1] | (Hne & _ & U)].
    + rewrite Z.eqb_refl. simpl. destruct (Hrec st1 St1) as (st2 & k & -> & R & C).
      { by rewrite (frame_nv _ _ (ab_frame _ _ A)). }
      simpl. eexists _, _. split; [done |]. split.
      { by apply cancel_above, (above_restored _ _ _ A R). }
      apply counts_fmap. eapply counts_ext, C. intros a _. unfold leaf_conflict.
      rewrite <- (db_frame _ _ (ab_frame _ _ A)). by apply (closure_iff _ _ _ [lit]).
    + rewrite (proj2 (Z.eqb_neq _ _) Hne). simpl. eexists _, _. split; [done |].
      split; [by apply cancel_above |]. rewrite <- (length_fmap (cons lit)). apply counts_all.
      intros x (a & -> & _)%list_elem_of_fmap_1. by apply (confl_app _ _ [lit]).
Qed.

Lemma half_size {A} (xs : list A) (n : nat) : Z.of_nat (length xs) = 2 ^ Z.of_nat n →
  (n < 64)%nat → u64 (Z.shiftl 1 (Z.of_nat n)) = Z.of_nat (length xs).
Proof.
  intros E Hn. rewrite Z.shiftl_1_l, E. unfold u64. apply Z.mod_small. split; [lia |].
  apply Z.pow_lt_mono_r; lia.
Qed.

Lemma prop_check_subtree_impl_spec n vars : (length vars < 64)%nat →
  Forall (lit_ok n) vars → counts_leaves n (prop_check_subtree_impl vars) (leaves (var <$> vars)).
Proof.
  induction vars as [| v vars IH]; intros Hlen Hok st St Hn; csimpl.
  { eexists _, _. split; [done |]. split; [by apply restored_refl |]. apply counts_no; [| constructor].
    unfold leaf_conflict. rewrite app_nil_r. by apply stable_no_confl. }
  apply Forall_cons in Hok as [Hv Hok]. simpl in Hlen.
  specialize (IH ltac:(lia) Hok). set (xs := leaves (var <$> vars)) in *.
  assert (Z.of_nat (length xs) = 2 ^ Z.of_nat (length vars)) as Hx.
  { unfold xs. by rewrite length_leaves, length_fmap. }
  rewrite (half_size xs) by (done || lia).
  assert (∀ s, lit_ok n (mkLit (var v) s)) as Hl by (intros s; unfold lit_ok; by rewrite var_mkLit).
  destruct (subtree_half_spec n _ xs _ IH (Hl true) st St Hn) as (st1 & l & -> & R1 & C1). simpl.
  destruct (subtree_half_spec n _ xs _ IH (Hl false) st1) as (st2 & r & -> & R2 & C2).
  { by eapply restored_stable. }
  { by rewrite (frame_nv _ _ (re_frame _ _ R1)). }
  simpl. eexists _, _. split; [done |]. split; [by eapply restored_trans |].
  assert (counts (leaf_conflict st) ((cons (mkLit (var v) true) <$> xs) ++
    (cons (mkLit (var v) false) <$> xs)) (l + r)) as C.
  { apply counts_app; [done |]. eapply counts_ext, C2. intros a _. by apply leaf_conflict_restored. }
  pose proof (counts_bounds _ _ _ C) as Hb.
  rewrite length_app, !length_fmap, Nat2Z.inj_add, Hx in Hb.
  unfold u64. rewrite Z.mod_small; [done |].
  assert (2 ^ Z.of_nat (length vars) <= 2 ^ 62 ∨ Z.of_nat (length vars) = 63) as [Hp | Hp].
  { destruct (decide (Z.of_nat (length vars) = 63)); [by right | left]. apply Z.pow_le_mono_r; lia. }
  - lia.
  - lia.
Qed.

Lemma subtree_above st ps s : Stable st → lits_ok (core st) ps →
  enqueue_all (newDecisionLevel (core st)) ps = (s, true) →
  ∀ st2, propagate_if true (st <| core := s |>) = Some (st2, CRef_Undef) →
  Stable st2 ∧ ∀ a, leaf_conflict st2 a ↔ UPconfl (db_of st) (lit_on (trail (core st) ++ ps ++ a)).
Proof.
  intros St Hok E st2 Ep. destruct (assume_above _ _ _ _ St Hok E) as (A & I & H1 & H2).
  pose proof (propagate_spec (st <| core := s |>)) as HP.
  destruct (HP I) as (st2' & confl & Ep' & P & F). simpl in Ep. rewrite Ep' in Ep.
  injection Ep as <- ->. split; [by eapply propagated_stable |]. intros a. unfold leaf_conflict.
  destruct P as (X & _). pose proof (db_frame _ _ F) as E2. pose proof (db_frame _ _ (ab_frame _ _ A)) as E1.
  rewrite <- E2, <- E1. destruct (ab_trail _ _ A) as [news Et]. simpl in Et. apply closure_iff.
  - intros l Hl. apply (ext_up _ _ X) in Hl. simpl in Hl.
    eapply UP_cut; [| rewrite E1; exact Hl]. intros k Hk. by apply UP_base, H1.
  - intros l [Hl | Hl]%elem_of_app; destruct (ext_trail _ _ X) as [n2 ->]; apply elem_of_app; left.
    + simpl. rewrite Et. apply elem_of_app. by left.
    + by apply H2.
Qed.

Lemma prop_check_subtree_spec st vars head : ok st = true → Stable st →
  lits_ok (core st) vars → (length vars - head < 64)%nat →
  ∃ st' n, prop_check_subtree st vars head = Some (st', n) ∧ Restored st st' ∧
    counts (λ a, UPconfl (db_of st) (lit_on (trail (core st) ++ take head vars ++ a)))
           (leaves (var <$> drop head vars)) n.
Proof.
  intros Hk St Hok Hlen. unfold prop_check_subtree. rewrite Hk. simpl.
  assert (lits_ok (core st) (take head vars) ∧ lits_ok (core st) (drop head vars)) as [Hok1 Hok2].
  { apply Forall_app. by rewrite take_drop. }
  destruct (enqueue_all _ _) as [s b] eqn:E.
  destruct (prop_check_body st _ s b St Hok1 E) as (st2 & confl & Ep & A & Hb). rewrite Ep. simpl.
  set (xs := leaves (var <$> drop head vars)).
  assert (u64 (Z.shiftl 1 (Z.of_nat (length vars - head))) = Z.of_nat (length xs)) as ->.
  { apply half_size; [| done]. unfold xs. by rewrite length_leaves, length_fmap, length_drop. }
  destruct b; simpl in *.
  - destruct (decide (confl = CRef_Undef)) as [-> | Hne].
    + destruct (subtree_above _ _ _ St Hok1 E st2 Ep) as [St2 Hc]. simpl.
      destruct (prop_check_subtree_impl_spec (nv (core st2)) (drop head vars)) with (st := st2)
        as (st3 & n & -> & R & C); [by rewrite length_drop | | done | done |].
      { by rewrite (frame_nv _ _ (ab_frame _ _ A)). }
      simpl. destruct (cancel_above _ _ St (above_restored _ _ _ A R)) as [-> R'].
      eexists _, _. split; [done |]. split; [done |]. eapply counts_ext, C. intros a _. apply Hc.
    + rewrite (proj2 (Z.eqb_neq _ _) Hne) in *. simpl.
      destruct (cancel_above _ _ St A) as [-> R']. eexists _, _. split; [done |]. split; [done |].
      apply counts_all. intros a _. by apply confl_app.
  - destruct (cancel_above _ _ St A) as [-> R']. eexists _, _. split; [done |]. split; [done |].
    apply counts_all. intros a _. apply confl_app.
    destruct (assume_above _ _ _ _ St Hok1 E) as (_ & _ & H1 & (p & Hp & Hn)).
    by eapply false_assumption.
Qed.

(** ** The properties *)

(** C13. [propagate] is unit propagation: from a state whose trail is
    propagated up to [qhead] it terminates, reports a conflict exactly when the
    clauses and the trail propagate to one, and otherwise leaves on the trail
    exactly the literals that propagation derives; the clauses only have their
    literals permuted. *)
Theorem propagate_correct st : Inv (qhead (core st)) (core st) →
  ∃ st' confl, propagate st = Some (st', confl) ∧
    (confl ≠ CRef_Undef ↔ UPconfl (db_of st) (lit_on (trail (core st)))) ∧
    (confl = CRef_Undef → Stable st' ∧
       ∀ l, l ∈ trail (core st') ↔ UP (db_of st) (lit_on (trail (core st))) l) ∧
    formula_equiv (db_of st') (db_of st) ∧ trail_lim (core st') = trail_lim (core st).
Proof.
  intros I. destruct (propagate_spec st I) as (st' & confl & E & P & Fr). exists st', confl.
  split; [done |]. split; [by eapply propagated_confl |]. pose proof P as (X & Hq & Hr).
  pose proof (mem_perm_db _ _ (ext_mem _ _ X)) as Hdb. split; [| split; [by symmetry | apply X]].
  intros ->. destruct Hr as [[_ I'] | [? _]]; [| done]. split; [by split |]. intros l. split.
  - apply (ext_up _ _ X).
  - intros H. rewrite Hq in I'. apply (fixpoint_up _ _ I').
    rewrite <- Hdb. eapply UP_mono, H. intros k Hk.
    destruct (ext_trail _ _ X) as [news Et]. unfold lit_on. rewrite Et. apply elem_of_app. by left.
Qed.

(** C20. [prop_check(assumps)] terminates without dereferencing a dangling
    clause reference, answers [true] exactly when unit propagation from the
    trail and the assumptions derives no contradiction, and gives the solver
    back with the trail, decision levels, propagation head and phase saving it
    had. *)
Theorem prop_check_correct st ps k : ok st = true → Stable st → lits_ok (core st) ps →
  ∃ st' b, prop_check st ps k = Some (st', b) ∧ Restored st st' ∧
    answers b (UPconfl (db_of st) (lit_on (trail (core st) ++ ps))).
Proof. apply prop_check_spec. Qed.

(** C21. [prop_check(assumps, prop)]: the answer is that of unit propagation
    under the assumptions; when it is [true], the literals of the trail together with the
    returned ones are exactly those that unit propagation derives; the solver
    is given back as it was. *)
Theorem prop_check_propagated_correct st ps k : ok st = true → Stable st → lits_ok (core st) ps →
  ∃ st' b prop, prop_check_propagated st ps k = Some (st', b, prop) ∧ Restored st st' ∧
    answers b (UPconfl (db_of st) (lit_on (trail (core st) ++ ps))) ∧
    (b = true → ∀ l, l ∈ trail (core st) ++ prop ↔
                     UP (db_of st) (lit_on (trail (core st) ++ ps)) l).
Proof. apply prop_check_propagated_spec. Qed.

(** C5. [prop_check_subtree(vars, head_size)] assumes the first [head_size]
    literals and returns the number of assignments to the variables of the
    others under which unit propagation fails, counted by a tree search that
    prunes; for at most 63 variables the 64-bit counters do not overflow, and
    the solver is given back as it was. *)
Theorem prop_check_subtree_correct st vars head : ok st = true → Stable st →
  lits_ok (core st) vars → (length vars - head < 64)%nat →
  ∃ st' n, prop_check_subtree st vars head = Some (st', n) ∧ Restored st st' ∧
    counts (λ a, UPconfl (db_of st) (lit_on (trail (core st) ++ take head vars ++ a)))
           (leaves (var <$> drop head vars)) n.
Proof. apply prop_check_subtree_spec. Qed.
