(* ===== verification/Setup.v ===== *)
(** * Building a solver: variables and clauses

    [minisat/core/Solver.cc], 46-357, and the inline methods of [Solver.h]:
    construction, [newVar], [addClause], attaching, detaching and removing
    clauses, and the lines of the DRAT proof. *)
From Stdlib Require Import SpecFloat.
From S2P Require Import Prelude Lit Sort UnitProp Vec Heap Alloc Double Clause Solver Propagate.
From S2P Require Import PropCheck.

(** ** Random numbers *)

(** [drand(seed)]: the value and the new seed. *)
Definition drand (seed : double) : option (double * double) :=
  let seed := d_mul seed (d_of_Z 1389796) in
  q ← d_to_int (d_div seed (d_of_Z 2147483647));
  let seed := d_sub seed (d_mul (d_of_Z q) (d_of_Z 2147483647)) in
  Some (d_div seed (d_of_Z 2147483647), seed).

Definition irand (seed : double) (size : Z) : option (Z * double) :=
  '(r, seed) ← drand seed;
  n ← d_to_int (d_mul r (d_of_Z size));
  Some (n, seed).

(** ** Construction *)

(** The defaults of the options. *)
Definition default_params : Params :=
  MkParams (d_const 95 100) (d_const 999 1000) (d_of_Z 0) true 2 false false (d_const 20 100) 0 100
    (d_of_Z 2) (d_div (d_of_Z 1) (d_of_Z 3)) (d_const 11 10) 100 (d_const 15 10) true.

Definition init_core (region : Region) : Core :=
  MkCore [] [] [] [] 0 (MkArena region ∅ false) occ_empty.

Definition init_solver (region : Region) (pa : Params) (seed : double) (psaving : Z) : Solver :=
  MkSolver (init_core region)
    (MkOrder [] [] [] [] (MkHeap [] []) (d_of_Z 1) seed psaving 0)
    (MkStats 0 0 0 0 0 0 0 0 0 0 0 0) pa [] [] [] true (d_of_Z 1) (-1) 0 (d_of_Z 0) 0 0 [] [] []
    [] (d_of_Z 0) (d_of_Z 0) 0 (-1) (-1) false [] IntMap.set_empty None.

#[export] Instance Solver_inhabited : Inhabited Solver :=
  populate (init_solver empty_region default_params (d_of_Z 1) 0).

(** [Solver(...)]: the arena starts with 1024 * 1024 words. *)
Definition new_solver (pa : Params) (seed : double) (psaving : Z) : option Solver :=
  region ← new_region (1024 * 1024);
  Some (init_solver region pa seed psaving).

(** ** Variables *)

Definition setDecisionVar (o : Order) (v : Var) (b : bool) : Order :=
  let d := zget false (decision o) v in
  let n := if b && negb d then u64 (dec_vars o + 1)
           else if negb b && d then u64 (dec_vars o - 1) else dec_vars o in
  insertVarOrder (o <| dec_vars := n |> <| decision := zset (decision o) v b |>) v.

Definition vmap_insert {A} (m : list A) (v : Var) (a pad : A) : list A :=
  IntMap.insert id m v a pad.

(** The variable [newVar] uses: a released one, or the next. *)
Definition fresh_var (st : Solver) : Var * Solver :=
  match last (free_vars st) with
  | Some v => (v, st <| free_vars := removelast (free_vars st) |>)
  | None => (next_var st, st <| next_var := next_var st + 1 |>)
  end.

Definition newVar_core (s : Core) (v : Var) : Core :=
  s <| watches := occ_init (occ_init (watches s) (mkLit v false)) (mkLit v true) |>
    <| assigns := vmap_insert (assigns s) v l_Undef inhabitant |>
    <| vardata := vmap_insert (vardata s) v (MkVarData CRef_Undef 0) inhabitant |>.

(** [activity.insert(v, rnd_init_act ? drand(random_seed) * 0.00001 : 0)]. *)
Definition init_activity (pa : Params) (o : Order) : option (double * Order) :=
  if rnd_init_act pa then
    '(r, seed) ← drand (random_seed o);
    Some (d_mul r (d_const 1 100000), o <| random_seed := seed |>)
  else Some (d_of_Z 0, o).

Definition newVar (st : Solver) (upol : lbool) (dvar : bool) : option (Solver * Var) :=
  let '(v, st) := fresh_var st in
  '(act, o) ← init_activity (params st) (order st);
  let o := o <| activity := vmap_insert (activity o) v act inhabitant |>
             <| polarity := vmap_insert (polarity o) v true false |>
             <| user_pol := vmap_insert (user_pol o) v upol inhabitant |>
             <| decision := IntMap.reserve id (decision o) v false |> in
  t ← Vec.capacity (Vec.MkVec (trail (core st)) (trail_cap st)) (v + 1);
  Some (st <| core := newVar_core (core st) v |>
           <| seen := vmap_insert (seen st) v 0 0 |>
           <| trail_cap := Vec.cap t |>
           <| order := setDecisionVar o v dvar |>, v).

(** [reserveVars(v)]. *)
Definition reserveVars (st : Solver) (v : Var) : option Solver :=
  let s := core st in let o := order st in
  t ← Vec.capacity (Vec.MkVec (trail s) (trail_cap st)) (v + 1);
  Some (st
    <| core := s <| watches := occ_init (occ_init (watches s) (mkLit v false)) (mkLit v true) |>
                 <| assigns := IntMap.reserve id (assigns s) (v + 1) inhabitant |>
                 <| vardata := IntMap.reserve id (vardata s) (v + 1) inhabitant |> |>
    <| seen := IntMap.reserve id (seen st) (v + 1) 0 |>
    <| trail_cap := Vec.cap t |>
    <| order := o <| activity := IntMap.reserve id (activity o) (v + 1) inhabitant |>
                  <| polarity := IntMap.reserve id (polarity o) (v + 1) false |>
                  <| user_pol := IntMap.reserve id (user_pol o) (v + 1) inhabitant |>
                  <| decision := IntMap.reserve id (decision o) v false |> |>).

Definition setPolarity (st : Solver) (v : Var) (b : lbool) : Solver :=
  st <| order := (order st) <| user_pol := zset (user_pol (order st)) v b |> |>.

Definition nVars (st : Solver) : Z := next_var st.

Definition nClauses (st : Solver) : Z := num_clauses (stats st).

Definition nLearnts (st : Solver) : Z := num_learnts (stats st).

Definition nFreeVars (st : Solver) : Z :=
  dec_vars (order st) - Z.of_nat (match trail_lim (core st) with
                                 | [] => length (trail (core st)) | l :: _ => l end).

(** ** The proof *)

(** One DIMACS integer: [(var + 1) * (-2 * sign + 1)]. *)
Definition dimacs (l : Lit) : Z := (var l + 1) * (-2 * Z.b2z (sign l) + 1).

Definition extendProof (st : Solver) (c : list Lit) (remove : bool) (drop : Lit) : Solver :=
  match proof st with
  | None => st
  | Some ls =>
      st <| proof := Some (ls ++ [(remove, dimacs <$> filter (λ l, lit_eqb drop l = false) c)]) |>
  end.

(** ** Attaching and detaching *)

Definition attach_core (s : Core) (cr : CRef) (c : Clause) : Core :=
  let c0 := c_lits c !!! 0%nat in
  let c1 := c_lits c !!! 1%nat in
  s <| watches := occ_push (occ_push (watches s) (lit_neg c0) (MkWatcher cr c1))
                           (lit_neg c1) (MkWatcher cr c0) |>.

(** The counters of attached clauses and literals; [d] is 1 or -1. *)
Definition count_clause (t : Stats) (c : Clause) (d : Z) : Stats :=
  if c_learnt c
  then t <| num_learnts := u64 (num_learnts t + d) |>
         <| learnts_literals := u64 (learnts_literals t + d * c_size c) |>
  else t <| num_clauses := u64 (num_clauses t + d) |>
         <| clauses_literals := u64 (clauses_literals t + d * c_size c) |>.

Definition attachClause (st : Solver) (cr : CRef) : option Solver :=
  c ← ca_deref (ca (core st)) cr;
  Some (st <| core := attach_core (core st) cr c |> <| stats := count_clause (stats st) c 1 |>).

(** [remove(ws, Watcher(cr, _))]: the first watcher with this reference. *)
Fixpoint remove_watcher (cr : CRef) (ws : list Watcher) : option (list Watcher) :=
  match ws with
  | [] => None
  | w :: ws => if w_cref w =? cr then Some ws else cons w <$> remove_watcher cr ws
  end.

Definition remove_watch (o : OccLists Watcher) (l : Lit) (cr : CRef) : option (OccLists Watcher) :=
  occ_set o l <$> remove_watcher cr (occ_get o l).

Definition detachClause (st : Solver) (cr : CRef) (strict : bool) : option Solver :=
  c ← ca_deref (ca (core st)) cr;
  let l0 := lit_neg (c_lits c !!! 0%nat) in
  let l1 := lit_neg (c_lits c !!! 1%nat) in
  let o := watches (core st) in
  o ← (if strict then o ← remove_watch o l0 cr; remove_watch o l1 cr
       else Some (occ_smudge (occ_smudge o l0) l1));
  Some (st <| core := (core st) <| watches := o |> |>
           <| stats := count_clause (stats st) c (-1) |>).

(** [vardata[x].reason = CRef_Undef]. *)
Definition clear_reason (s : Core) (x : Var) : Core :=
  s <| vardata := zset (vardata s) x (MkVarData CRef_Undef (level s x)) |>.

Definition removeClause (st : Solver) (cr : CRef) (remove_from_proof : bool) : option Solver :=
  c ← ca_deref (ca (core st)) cr;
  let st := if remove_from_proof then extendProof st (c_lits c) true lit_Undef else st in
  st ← detachClause st cr false;
  let s := core st in
  let s := if locked s cr c then clear_reason s (var (c_lits c !!! 0%nat)) else s in
  a ← ca_free (ca_store (ca s) cr (set_mark c 1)) cr;
  Some (st <| core := s <| ca := a |> |>).

(** ** [addClause_] *)

(** The loop over the sorted literals: [None] when the clause is satisfied or a
    tautology, otherwise the literals that are kept. *)
Fixpoint simplify_lits (s : Core) (p : Lit) (ps : list Lit) : option (list Lit) :=
  match ps with
  | [] => Some []
  | l :: ps =>
      if lb_eqb (value s l) l_True || lit_eqb l (lit_neg p) then None
      else if lb_neb (value s l) l_False && negb (lit_eqb l p)
           then cons l <$> simplify_lits s l ps
           else simplify_lits s p ps
  end.

(** Whether the clause is logged as modified: some literal has a value or
    follows its negation. *)
Fixpoint modified_lits (s : Core) (prev : Lit) (ps : list Lit) : bool :=
  match ps with
  | [] => false
  | l :: ps =>
      lb_eqb (value s l) l_True || lit_eqb l (lit_neg prev) || lb_eqb (value s l) l_False
      || modified_lits s l ps
  end.

(** The end of [addClause_], for the literals that are left. *)
Definition add_simplified (st : Solver) (ps' : list Lit) : option (Solver * bool) :=
  match ps' with
  | [] => Some (st <| ok := false |>, false)
  | [l] =>
      '(st, confl) ← propagate
         (st <| core := uncheckedEnqueue (core st) l CRef_Undef |>);
      let b := confl =? CRef_Undef in
      Some (st <| ok := b |>, b)
  | _ =>
      '(cr, a) ← ca_alloc (ca (core st)) ps' false;
      st ← attachClause (st <| core := (core st) <| ca := a |> |>
                            <| clauses := clauses st ++ [cr] |>) cr;
      Some (st, true)
  end.

Definition addClause_ (st : Solver) (ps : list Lit) : option (Solver * bool) :=
  if negb (ok st) then Some (st, false)
  else
    ps ← sort lit_ltb ps;
    let modified := modified_lits (core st) (ps !!! 0%nat) ps in
    match simplify_lits (core st) lit_Undef ps with
    | None => Some (st, true)
    | Some ps' =>
        add_simplified
          (if modified then extendProof (extendProof st ps' false lit_Undef) ps true lit_Undef
           else st) ps'
    end.

(** [addClause(ps)], [addEmptyClause()] and the overloads for one to four
    literals copy their literals and call [addClause_]. *)
Definition addClause (st : Solver) (ps : list Lit) : option (Solver * bool) := addClause_ st ps.

Definition addEmptyClause (st : Solver) : option (Solver * bool) := addClause_ st [].

(** [releaseVar(l)]. *)
Definition releaseVar (st : Solver) (l : Lit) : option Solver :=
  if lb_eqb (value (core st) l) l_Undef then
    '(st, _) ← addClause st [l];
    Some (st <| released_vars := released_vars st ++ [var l] |>)
  else Some st.
