(* ===== verification/SetupSpec.v ===== *)
(** * The clause database as a set of models

    The invariant [Ready] of a solver at decision level 0, its preservation by
    [newVar] and [addClause], and the meaning of [addClause]: the solver has
    exactly the models of the clauses it was given. *)
From Stdlib Require Import SpecFloat.
From S2P Require Import Prelude Lit Sort UnitProp Vec Heap Alloc Double Clause Solver Propagate.
From S2P Require Import PropCheck Setup.

(** ** Invariants *)

(** Clauses lie in the allocated part of the region. *)
Definition arena_ok (a : Arena) : Prop :=
  Alloc.wf (a_region a) ∧ ∀ cr c, a_mem a !! cr = Some c → 0 <= cr < r_sz (a_region a).

Record Ready (st : Solver) : Prop := {
  rd_stable : Stable st;
  rd_level : trail_lim (core st) = [];
  rd_next : next_var st = nv (core st);
  rd_free : free_vars st = [];
  rd_arena : arena_ok (ca (core st));
  rd_cap : nv (core st) <= trail_cap st;
  rd_vec : Vec.wf (Vec.MkVec (trail (core st)) (trail_cap st)) }.

(** What holds even after a contradiction has been found. *)
Record Base (st : Solver) : Prop := {
  ba_inv : ∃ q, Inv q (core st);
  ba_next : next_var st = nv (core st);
  ba_free : free_vars st = [];
  ba_cap : nv (core st) <= trail_cap st;
  ba_vec : Vec.wf (Vec.MkVec (trail (core st)) (trail_cap st)) }.

Lemma ready_base st : Ready st → Base st.
Proof. intros [[I _] _ ? ? _ ? ?]. split; eauto. Qed.

(** The models of the clauses and of the literals assigned at level 0. *)
Definition solver_models (σ : Z → bool) (st : Solver) : Prop :=
  models σ (db_of st) ∧ models_lits σ (lit_on (trail (core st))).

Definition clause_true (σ : Z → bool) (ps : list Lit) : Prop := ∃ l, l ∈ ps ∧ lit_true σ l = true.

(** Words for a clause of [n] literals. *)
Definition room_for (st : Solver) (n : nat) : Prop :=
  r_sz (a_region (ca (core st))) + Z.of_nat n + 2 <= max_capacity.

(** ** Appending to vectors indexed by variables *)

Lemma zget_app_l {A} (d : A) l l' k : k < Z.of_nat (length l) → zget d (l ++ l') k = zget d l k.
Proof.
  intros Hk. unfold zget. destruct (Z.ltb_spec k 0); [done |]. by rewrite lookup_app_l by lia.
Qed.

Lemma zget_app_r {A} (d : A) l l' k : Z.of_nat (length l) <= k →
  zget d (l ++ l') k = zget d l' (k - Z.of_nat (length l)).
Proof.
  intros Hk. unfold zget. destruct (Z.ltb_spec k 0); [lia |].
  destruct (Z.ltb_spec (k - Z.of_nat (length l)) 0); [lia |].
  rewrite lookup_app_r by lia. do 2 f_equal. lia.
Qed.

Lemma insert_next {A} (l : list A) n a pad : n = Z.of_nat (length l) →
  zset (grow_to l (Z.to_nat (n + 1)) pad) n a = l ++ [a].
Proof.
  intros ->. unfold zset, grow_to. destruct (Z.ltb_spec (Z.of_nat (length l)) 0); [lia |].
  replace (Z.to_nat (Z.of_nat (length l) + 1) - length l)%nat with 1%nat by lia.
  rewrite Nat2Z.id. simpl. by rewrite insert_app_r_alt, Nat.sub_diag by lia.
Qed.

Lemma reserve_next {A} (l : list A) n pad : n = Z.of_nat (length l) →
  grow_to l (Z.to_nat (n + 1)) pad = l ++ [pad].
Proof.
  intros ->. unfold grow_to.
  by replace (Z.to_nat (Z.of_nat (length l) + 1) - length l)%nat with 1%nat by lia.
Qed.

Lemma occ_init_next {V} (o : OccLists V) l : lit_x l = Z.of_nat (length (occs o)) →
  lit_x l = Z.of_nat (length (dirty o)) →
  occ_init o l = MkOcc (occs o ++ [[]]) (dirty o ++ [0]) (dirties o).
Proof.
  intros H1 H2. unfold occ_init, IntMap.set, IntMap.reserve.
  by rewrite insert_next, reserve_next by done.
Qed.

Lemma occ_init_var {V} (o : OccLists V) v n : v = Z.of_nat n →
  length (occs o) = (2 * n)%nat → length (dirty o) = (2 * n)%nat →
  occ_init (occ_init o (mkLit v false)) (mkLit v true) =
  MkOcc (occs o ++ [[]; []]) (dirty o ++ [0; 0]) (dirties o).
Proof.
  intros Hv H1 H2. rewrite (occ_init_next o) by (simpl; lia).
  rewrite occ_init_next by (simpl; rewrite length_app; simpl; lia). simpl.
  by rewrite <- !(assoc_L (++)).
Qed.

(** ** [newVar] *)

Lemma trail_newvar n a tr : TrailOk n a tr → TrailOk (n + 1) (a ++ [l_Undef]) tr.
Proof.
  intros T. pose proof (tr_size _ _ _ T) as Hs. split.
  - rewrite length_app. simpl. lia.
  - intros p Hp. pose proof (tr_range _ _ _ T p Hp). unfold lit_ok in *. lia.
  - apply T.
  - apply Forall_app. split; [apply T |]. by apply Forall_singleton.
  - intros p Hp. destruct (decide (var p = n)) as [Hv | Hv].
    + rewrite zget_app_r, Hv, Hs, Z.sub_diag by lia.
      rewrite lb_xor_abs by done. split; [done |].
      intros Hin%(tr_range _ _ _ T). unfold lit_ok in Hin. lia.
    + assert (lit_ok n p) as Hp' by (unfold lit_ok in *; lia).
      rewrite zget_app_l by (unfold lit_ok in *; lia). by apply (tr_value _ _ _ T).
Qed.

Lemma watch_newvar n B m (o : OccLists Watcher) : ClausesOk n m → 
  length (occs o) = Z.to_nat (2 * n) → length (dirty o) = Z.to_nat (2 * n) → 0 <= n →
  WatchOk n B m (occ_get o) (is_dirty o) →
  let o' := MkOcc (occs o ++ [[]; []]) (dirty o ++ [0; 0]) (dirties o) in
  WatchOk (n + 1) B m (occ_get o') (is_dirty o').
Proof.
  intros C H1 H2 Hn [W1 W2 W3] o'.
  assert (∀ l, lit_ok n l → occ_get o' l = occ_get o l ∧ is_dirty o' l = is_dirty o l) as Hold.
  { intros l Hl%lit_ok_x. unfold occ_get, is_dirty, o'; simpl.
    by rewrite !zget_app_l by lia. }
  assert (∀ l, lit_ok (n + 1) l → ¬ lit_ok n l → occ_get o' l = []) as Hnew.
  { intros l Hl Hl'. rewrite lit_ok_x in *. unfold occ_get, o'; simpl.
    rewrite zget_app_r by lia. rewrite H1.
    assert (lit_x l - Z.of_nat (Z.to_nat (2 * n)) = 0 ∨ lit_x l - Z.of_nat (Z.to_nat (2 * n)) = 1)
      as [-> | ->] by lia; done. }
  split.
  - intros l w Hl Hw. destruct (decide (0 <= var l < n)) as [Hl' | Hl'].
    + destruct (Hold l Hl') as [E1 E2]. rewrite E2. rewrite E1 in Hw. by apply W1.
    + rewrite (Hnew l Hl Hl') in Hw. by apply elem_of_nil in Hw.
  - intros cr c l Hl Hw. assert (lit_ok n l) as Hlo.
    { rewrite <- (lit_neg_involutive l). apply lit_ok_neg, (cl_range _ _ C cr c); [done |].
      destruct Hw as [Hw | Hw]; by eapply list_elem_of_lookup_2. }
    destruct (Hold l Hlo) as [-> _]. by eapply W2.
  - intros l Hl. destruct (decide (0 <= var l < n)) as [Hl' | Hl'].
    + destruct (Hold l Hl') as [-> _]. by apply W3.
    + rewrite (Hnew l Hl Hl'). apply NoDup_nil_2.
Qed.

Lemma newVar_core_inv q s : Inv q s →
  let s' := newVar_core s (nv s) in
  Inv q s' ∧ nv s' = nv s + 1 ∧ trail s' = trail s ∧ trail_lim s' = trail_lim s ∧
  qhead s' = qhead s ∧ ca s' = ca s.
Proof.
  intros I s'. destruct I as [T C W J L1 L2 L3 O1 O2].
  assert (watches s' = MkOcc (occs (watches s) ++ [[]; []]) (dirty (watches s) ++ [0; 0])
    (dirties (watches s))) as Ew by (by apply (occ_init_var _ _ (length (assigns s)))).
  assert (assigns s' = assigns s ++ [l_Undef]) as Ea.
  { unfold s', newVar_core, vmap_insert, IntMap.insert, IntMap.set, IntMap.reserve; simpl.
    by apply insert_next. }
  assert (nv s' = nv s + 1) as En.
  { unfold nv. rewrite Ea, length_app. simpl. lia. }
  split; [| done]. split; rewrite ?En, ?Ew; try done.
  - rewrite Ea. by apply trail_newvar.
  - destruct C as [C1 C2 C3 C4]. split; [done .. |]. intros cr c l Hl Hin.
    specialize (C4 cr c l Hl Hin). unfold lit_ok in *. lia.
  - apply watch_newvar; [done | | | | done]; unfold nv; lia.
  - rewrite Ea. simpl. rewrite !length_app. simpl. lia.
  - rewrite Ea. simpl. rewrite !length_app. simpl. lia.
Qed.

Lemma vec_capacity_total {A} (v : Vec.vec A) m : Vec.wf v → m <= 2 ^ 30 →
  ∃ v', Vec.capacity v m = Some v'.
Proof.
  intros (H1 & H2 & H3) Hm. unfold Vec.capacity. destruct (Z.leb_spec m (Vec.cap v)); [eauto |].
  destruct (Vec.capacity_add_bounds (Vec.cap v) m) as (B1 & B2 & B3); [lia |].
  destruct (Z.leb_spec (Vec.cap v + Vec.capacity_add (Vec.cap v) m) INT_MAX); [eauto |].
  assert (Vec.cap v / 2 * 2 <= Vec.cap v).
  { pose proof (Z.mul_div_le (Vec.cap v) 2). lia. }
  unfold INT_MAX in *. lia.
Qed.

(** The solver after [newVar]. *)
Definition var_added (st st' : Solver) : Prop :=
  Base st' ∧ (Ready st → Ready st') ∧ nv (core st') = nv (core st) + 1 ∧ ok st' = ok st ∧
  params st' = params st ∧ trail (core st') = trail (core st) ∧ ca (core st') = ca (core st).

Lemma newVar_spec st upol dvar st' v : Base st → newVar st upol dvar = Some (st', v) →
  v = nv (core st) ∧ var_added st st'.
Proof.
  intros [[q I] Hn Hf Hc Hv]. unfold newVar, fresh_var. rewrite Hf. simpl.
  destruct (init_activity _ _) as [[act o] |]; [| done]. simpl.
  destruct (Vec.capacity _ _) as [t |] eqn:Et; [| done]. simpl. intros [= <- <-].
  apply Vec.vec_capacity_spec in Et as (T1 & T2 & T3 & T4); [| done].
  destruct (newVar_core_inv _ _ I) as (I' & En & Etr & Eli & Eq & Eca).
  assert (Vec.wf (Vec.MkVec (trail (core st)) (Vec.cap t))) as Hv'.
  { destruct t as [e c]. simpl in *. by subst e. }
  split; [done |]. unfold var_added. simpl. rewrite Hn in *. split; [| split; [| done]].
  - split; simpl; rewrite ?En, ?Etr; eauto.
  - intros [[I0 Hq] R2 R3 R4 R5 R6 R7].
    destruct (newVar_core_inv _ _ I0) as (I0' & _). split; simpl; rewrite ?En, ?Etr, ?Eli, ?Eca; done.
Qed.

Lemma newVar_total st upol dvar : Base st → rnd_init_act (params st) = false →
  nv (core st) < 2 ^ 30 → ∃ st', newVar st upol dvar = Some (st', nv (core st)).
Proof.
  intros R Hr Hb. unfold newVar, fresh_var. rewrite (ba_free _ R). simpl.
  unfold init_activity. rewrite Hr. simpl. rewrite (ba_next _ R).
  destruct (vec_capacity_total (Vec.MkVec (trail (core st)) (trail_cap st)) (nv (core st) + 1))
    as [t ->]; [apply R | lia |].
  simpl. eauto.
Qed.

Lemma new_region_total : ∃ r, new_region (1024 * 1024) = Some r ∧ Alloc.wf r ∧ r_sz r = 0.
Proof.
  destruct (capacity_spec empty_region (1024 * 1024)) as (r & Er & Hw & _ & Hs & _).
  - split; [left | simpl; lia].
  - unfold max_capacity. lia.
  - exists r. split; [exact Er |]. split; [exact Hw | exact Hs].
Qed.

Lemma new_solver_total pa seed ps : ∃ st, new_solver pa seed ps = Some st.
Proof.
  destruct new_region_total as (r & Er & _). unfold new_solver. rewrite Er. simpl. eauto.
Qed.

Lemma new_solver_ready pa seed ps st : new_solver pa seed ps = Some st →
  Ready st ∧ ok st = true ∧ nv (core st) = 0 ∧ trail (core st) = [] ∧ params st = pa ∧
  a_mem (ca (core st)) = ∅ ∧ r_sz (a_region (ca (core st))) = 0.
Proof.
  unfold new_solver. destruct new_region_total as (r & Er & Hw & Hs).
  rewrite Er. clear Er. simpl. intros [= <-].
  split; [| by do 5 (split; [reflexivity |])].
  split; simpl; [| reflexivity .. | | |].
  - assert (mem (init_core r) = ∅) as Em by done.
    split; [| done]. split; simpl; try done.
    + split; try done; simpl.
      * intros p Hp. by apply elem_of_nil in Hp.
      * apply NoDup_nil_2.
      * intros p Hp. unfold lit_ok, nv in Hp. simpl in Hp. lia.
    + split; [intros cr c E | intros cr c [E _] | intros cr c [E _] | intros cr c l [E _]];
        rewrite Em in E; by apply lookup_empty_Some in E.
    + split; simpl.
      * intros l w Hl. unfold lit_ok, nv in Hl. simpl in Hl. lia.
      * intros cr c l [E _]. rewrite Em in E. by apply lookup_empty_Some in E.
      * intros l Hl. unfold lit_ok, nv in Hl. simpl in Hl. lia.
    + intros m Hm. by apply elem_of_nil in Hm.
  - split; [done |]. simpl. intros cr c E. by apply lookup_empty_Some in E.
  - by unfold nv.
  - split; simpl; [lia |]. split; [by exists 0 | done].
Qed.

(** ** Attaching a clause *)

Lemma occ_get_push (o : OccLists Watcher) p w l : 0 <= lit_x p < Z.of_nat (length (occs o)) →
  occ_get (occ_push o p w) l = occ_get o l ++ (if decide (l = p) then [w] else []).
Proof.
  intros Hr. unfold occ_push. rewrite occ_get_set by done. unfold Wat.
  case_decide; subst; [done | by rewrite app_nil_r].
Qed.

Lemma length_occ_push (o : OccLists Watcher) p w : length (occs (occ_push o p w)) = length (occs o).
Proof. unfold occ_push, occ_set; simpl. by rewrite length_zset. Qed.

Lemma attach_watch n B m (o : OccLists Watcher) cr c a b rest :
  length (occs o) = Z.to_nat (2 * n) → WatchOk n B m (occ_get o) (is_dirty o) →
  m !! cr = None → c_mark c ≠ 1 → c_lits c = a :: b :: rest → a ≠ b →
  lit_ok n a → lit_ok n b →
  let o' := occ_push (occ_push o (lit_neg a) (MkWatcher cr b)) (lit_neg b) (MkWatcher cr a) in
  WatchOk n B (<[cr := c]> m) (occ_get o') (is_dirty o').
Proof.
  intros Ho [W1 W2 W3] Hnone Hm Ec Hab Ha Hb o'.
  assert (lit_neg a ≠ lit_neg b) as Hnab by (by intros ?%lit_neg_inj).
  pose proof (lit_ok_neg _ _ Ha) as Ha'. pose proof (lit_ok_neg _ _ Hb) as Hb'.
  rewrite lit_ok_x in Ha', Hb'.
  assert (∀ l, occ_get o' l = occ_get o l ++ (if decide (l = lit_neg a) then [MkWatcher cr b] else [])
    ++ (if decide (l = lit_neg b) then [MkWatcher cr a] else [])) as Hg.
  { intros l. unfold o'. rewrite occ_get_push.
    - rewrite occ_get_push by lia. by rewrite (assoc_L (++)).
    - rewrite length_occ_push. lia. }
  assert (∀ l, watched c l ↔ l = lit_neg a ∨ l = lit_neg b) as Hw.
  { intros l. by apply watched_pair with rest. }
  assert (∀ l w, lit_ok n l → w ∈ occ_get o l → w_cref w ≠ cr) as Hne.
  { intros l w Hl Hin Hc. destruct (W1 l w Hl Hin) as (c' & E & _). congruence. }
  split.
  - intros l w Hl. rewrite Hg, !elem_of_app. intros [Hin | Hin].
    + rewrite lookup_insert_ne by (apply not_eq_sym; eauto). by apply W1.
    + assert (w_cref w = cr ∧ watched c l ∧ w_blocker w ∈ c_lits c) as (-> & Hwl & Hbl).
      { rewrite Hw, Ec. destruct Hin as [Hin | Hin]; case_decide;
          try (by apply elem_of_nil in Hin); apply list_elem_of_singleton in Hin as ->; simpl.
        - split; [done |]. split; [by left | right; by left].
        - split; [done |]. split; [by right | by left]. }
      rewrite lookup_insert_eq. exists c. split; [done |]. right. auto.
  - intros cr' c' l [E Hlv] Hwl. rewrite Hg, !fmap_app, !elem_of_app.
    destruct (decide (cr = cr')) as [<- | Hcr].
    + rewrite lookup_insert_eq in E. injection E as <-. right.
      apply Hw in Hwl as [-> | ->]; [left | right]; rewrite decide_True by done; by left.
    + rewrite lookup_insert_ne in E by done. left. by eapply W2.
  - intros l Hl. rewrite Hg, fmap_app. apply NoDup_app. split; [by apply W3 |]. split.
    + intros x (w & -> & Hin)%list_elem_of_fmap_1 Hx.
      apply (Hne l w Hl Hin). rewrite fmap_app, elem_of_app in Hx.
      destruct Hx as [Hx | Hx]; case_decide; simpl in Hx;
        try (by apply elem_of_nil in Hx); by apply list_elem_of_singleton in Hx.
    + repeat case_decide; simpl; try apply NoDup_nil_2; try apply NoDup_singleton. congruence.
Qed.

Lemma attach_inv q s a cr c : Inv q s → a_mem a = <[cr := c]> (mem s) → mem s !! cr = None →
  cr ≠ CRef_Undef → c_mark c ≠ 1 → (2 <= length (c_lits c))%nat → NoDup (c_lits c) →
  Forall (lit_ok (nv s)) (c_lits c) →
  (∀ l i, watched c l → (i < q)%nat → trail s !! i = Some l →
    ∃ t j, t ∈ c_lits c ∧ trail s !! j = Some t ∧ not_later (trail_lim s) j i) →
  Inv q (attach_core (s <| ca := a |>) cr c).
Proof.
  intros [T C W J L1 L2 L3 O1 O2] Ea Hnone Hcr Hm H2 Hnd Hok Hj.
  destruct (c_lits c) as [| x [| y rest]] eqn:Ec; simpl in H2; try lia.
  assert (lit_ok (nv s) x ∧ lit_ok (nv s) y) as [Hx Hy].
  { split; eapply Forall_forall; try exact Hok; [by left | right; by left]. }
  assert (x ≠ y) as Hxy by (apply NoDup_cons in Hnd as [Hn _]; intros ->; apply Hn; by left).
  unfold attach_core. rewrite Ec. simpl.
  split; unfold mem; simpl; rewrite ?Ea; try done.
  - destruct C as [C1 C2 C3 C4].
    assert (∀ cr' c', live (<[cr := c]> (mem s)) cr' c' → c' = c ∨ live (mem s) cr' c') as Hlv.
    { intros cr' c' [E Hm']. destruct (decide (cr = cr')) as [<- | Hne].
      - rewrite lookup_insert_eq in E. left. congruence.
      - rewrite lookup_insert_ne in E by done. right. by split. }
    split.
    + intros cr' c' E. destruct (decide (cr = cr')) as [<- | Hne]; [done |].
      rewrite lookup_insert_ne in E by done. eauto.
    + intros cr' c' [-> | Hl]%Hlv; [rewrite Ec; simpl; lia | eauto].
    + intros cr' c' [-> | Hl]%Hlv; [by rewrite Ec | eauto].
    + intros cr' c' l [-> | Hl]%Hlv; [rewrite Ec; by apply Forall_forall | eauto].
  - change (nv _) with (nv s). eapply attach_watch; try done. unfold nv. lia.
  - intros cr' c' l i [E Hm'] Hw Hi Ei. destruct (decide (cr = cr')) as [<- | Hne].
    + rewrite lookup_insert_eq in E. injection E as <-. rewrite Ec. by apply (Hj l i).
    + rewrite lookup_insert_ne in E by done. apply (J cr' c' l i); try done.
  - by rewrite !length_zset.
Qed.

(** ** Simplifying the sorted literals *)

#[export] Instance lit_ltb_order : StrictWeakOrder lit_ltb.
Proof. split; unfold lit_ltb; intros; zbool; lia. Qed.

Lemma sorted_by_cons x ls : sorted_by lit_ltb (x :: ls) →
  (∀ y, y ∈ ls → lit_x x <= lit_x y) ∧ sorted_by lit_ltb ls.
Proof.
  intros H. split.
  - intros y (i & Hi)%list_elem_of_lookup_1.
    specialize (H 0%nat (S i) x y ltac:(lia) eq_refl Hi). unfold lit_ltb in H. zbool. lia.
  - intros i j a b Hij Ha Hb. by apply (H (S i) (S j) a b); [lia | |].
Qed.

Section Simplify.
Context (s : Core) (T : TrailOk (nv s) (assigns s) (trail s)).

Lemma simplify_lits_some ps : ∀ p ps', Forall (lit_ok (nv s)) ps → sorted_by lit_ltb ps →
  (∀ l, l ∈ ps → lit_x p <= lit_x l) → simplify_lits s p ps = Some ps' →
  NoDup ps' ∧ (∀ l, l ∈ ps' → lit_x p < lit_x l ∧ l ∈ ps ∧ (l ∉ trail s) ∧ lit_neg l ∉ trail s) ∧
  (∀ l, l ∈ ps → l = p ∨ l ∈ ps' ∨ lit_neg l ∈ trail s).
Proof using T.
  induction ps as [| l ps IH]; intros p ps' Hok Hs Hp; simpl.
  - intros [= <-]. split; [apply NoDup_nil_2 |].
    split; intros l Hl; by apply elem_of_nil in Hl.
  - apply Forall_cons in Hok as [Hl Hok]. apply sorted_by_cons in Hs as [Hmin Hs].
    unfold lb_neb. rewrite value_isTrue, value_isFalse by done.
    case_bool_decide as Ht; [done |]. simpl. rewrite !lit_eqb_spec.
    case_bool_decide as Hn; [done |]. case_bool_decide as Hf; simpl.
    + intros E. destruct (IH p ps' Hok Hs) as (H1 & H2 & H3); [| done |].
      { intros y Hy. apply Hp. by right. }
      split; [done |]. split.
      * intros y (Hy1 & Hy2 & Hy3)%H2. split; [done |]. split; [by right | done].
      * intros y [-> | Hy]%elem_of_cons; [by right; right | by apply H3].
    + case_bool_decide as He; simpl.
      * subst. intros E. destruct (IH p ps' Hok Hs) as (H1 & H2 & H3); [done | done |].
        split; [done |]. split.
        -- intros y (Hy1 & Hy2 & Hy3)%H2. split; [done |]. split; [by right | done].
        -- intros y [-> | Hy]%elem_of_cons; [by left | by apply H3].
      * destruct (simplify_lits s l ps) as [ps1 |] eqn:E; [| done]. simpl. intros [= <-].
        destruct (IH l ps1 Hok Hs Hmin E) as (H1 & H2 & H3).
        assert (lit_x p < lit_x l) as Hlt.
        { assert (lit_x p <= lit_x l) by (apply Hp; by left).
          assert (lit_x p ≠ lit_x l) by (intros Hx; apply He; by apply lit_eq). lia. }
        split; [apply NoDup_cons; split; [| done]; intros Hin; apply H2 in Hin; lia |]. split.
        -- intros y [-> | Hy]%elem_of_cons; [split; [done |]; split; [by left | done] |].
           apply H2 in Hy as (Hy1 & Hy2 & Hy3). split; [lia |]. split; [by right | done].
        -- intros y [-> | Hy]%elem_of_cons; [right; left; by left |].
           destruct (H3 y Hy) as [-> | [? | ?]]; right; [left; by left | left; by right | by right].
Qed.

Lemma simplify_lits_none ps : ∀ p, Forall (lit_ok (nv s)) ps → simplify_lits s p ps = None →
  (∃ l, l ∈ ps ∧ l ∈ trail s) ∨ ∃ l, l ∈ ps ∧ (l = lit_neg p ∨ lit_neg l ∈ ps).
Proof using T.
  induction ps as [| l ps IH]; intros p Hok; simpl; [done |].
  apply Forall_cons in Hok as [Hl Hok]. unfold lb_neb.
  rewrite value_isTrue, value_isFalse, !lit_eqb_spec by done.
  case_bool_decide as Ht; simpl.
  { intros _. left. exists l. split; [by left | done]. }
  case_bool_decide as Hn; simpl.
  { intros _. right. exists l. split; [by left | by left]. }
  assert (∀ q, simplify_lits s q ps = None → q = p ∨ q = l →
    (∃ k, k ∈ l :: ps ∧ k ∈ trail s) ∨ ∃ k, k ∈ l :: ps ∧ (k = lit_neg p ∨ lit_neg k ∈ l :: ps))
    as Hstep.
  { intros q E Hq. destruct (IH q Hok E) as [(k & Hk & Hkt) | (k & Hk & Hor)].
    - left. exists k. split; [by right | done].
    - right. exists k. split; [by right |]. destruct Hor as [-> | Hor]; [| right; by right].
      destruct Hq as [-> | ->]; [by left | right]. rewrite lit_neg_involutive. by left. }
  case_bool_decide as Hf; simpl; [intros E; apply (Hstep p E); by left |].
  case_bool_decide as He; simpl; [intros E; apply (Hstep p E); by left |].
  destruct (simplify_lits s l ps) eqn:E; [done |]. intros _. apply (Hstep l E). by right.
Qed.
End Simplify.

(** ** [addClause] *)

Lemma clause_true_tauto σ ps l : l ∈ ps → lit_neg l ∈ ps → clause_true σ ps.
Proof.
  intros H1 H2. destruct (lit_true σ l) eqn:E; [by exists l |].
  exists (lit_neg l). split; [done |]. by rewrite lit_true_neg, E.
Qed.

(** A clause is as strong as its literals that are not false. *)
Lemma clause_true_simplify σ (tr ps ps' : list Lit) : models_lits σ (lit_on tr) →
  (∀ l, l ∈ ps' → l ∈ ps) → (∀ l, l ∈ ps → l ∈ ps' ∨ lit_neg l ∈ tr) →
  clause_true σ ps ↔ clause_true σ ps'.
Proof.
  intros Hm H1 H2. split; intros (l & Hl & Ht).
  - destruct (H2 l Hl) as [Hl' | Hn]; [by exists l |].
    specialize (Hm _ Hn). by rewrite lit_true_neg, Ht in Hm.
  - exists l. auto.
Qed.

(** The result of adding the clause [ps]. *)
Definition clause_added (st : Solver) (ps : list Lit) (st' : Solver) (b : bool) : Prop :=
  ok st' = b ∧ Base st' ∧ (b = true → Ready st') ∧ nv (core st') = nv (core st) ∧ params st' = params st ∧
  r_sz (a_region (ca (core st'))) <= r_sz (a_region (ca (core st))) + Z.of_nat (length ps) + 2 ∧
  ∀ σ, (b = true ∧ solver_models σ st') ↔ (solver_models σ st ∧ clause_true σ ps).

Lemma ca_alloc_spec a ps learnt : arena_ok a →
  r_sz (a_region a) + Z.of_nat (length ps) + 2 <= max_capacity →
  let cr := r_sz (a_region a) in
  ∃ a', ca_alloc a ps learnt = Some (cr, a') ∧ arena_ok a' ∧
    a_mem a' = <[cr := new_clause ps (learnt || a_extra a) learnt]> (a_mem a) ∧
    a_mem a !! cr = None ∧ cr ≠ CRef_Undef ∧
    r_sz (a_region a') <= cr + Z.of_nat (length ps) + 2.
Proof.
  intros [Hw Hm] Hr cr. unfold ca_alloc, clauseWord32Size.
  assert (0 <= Z.b2z (learnt || a_extra a) <= 1) by (destruct (learnt || a_extra a); simpl; lia).
  destruct (alloc_spec (a_region a) (1 + (Z.of_nat (length ps) + Z.b2z (learnt || a_extra a))) Hw)
    as (r' & -> & Hw' & Hs); [lia | lia |].
  simpl. eexists. split; [done |]. simpl. split; [| split; [done |]].
  - split; simpl; [done |]. intros x c E. rewrite Hs. fold cr. destruct (decide (cr = x)) as [<- |].
    + pose proof (proj2 Hw). unfold cr in *. lia.
    + rewrite lookup_insert_ne in E by done. apply Hm in E. unfold cr. lia.
  - assert (a_mem a !! cr = None) as Hn.
    { destruct (a_mem a !! cr) eqn:E; [| done]. apply Hm in E. unfold cr in E. lia. }
    split; [done |]. split; [| unfold cr; lia]. unfold cr, CRef_Undef, Ref_Undef.
    unfold max_capacity in Hr. lia.
Qed.

Lemma models_lits_snoc_iff σ F (A : list Lit) l :
  (models σ F ∧ models_lits σ (lit_on A)) ∧ clause_true σ [l] ↔
  models σ F ∧ models_lits σ (lit_on (A ++ [l])).
Proof.
  split.
  - intros [[HF Hm] (k & ->%list_elem_of_singleton & Ht)]. split; [done |].
    intros j [Hj | ->%list_elem_of_singleton]%elem_of_app; [by apply Hm | done].
  - intros [HF Hm]. split; [split; [done |] |].
    + intros j Hj. apply Hm, elem_of_app. by left.
    + exists l. split; [by left |]. apply Hm, elem_of_app. right. by left.
Qed.

Lemma add_unit_spec st l : Ready st → ok st = true → lit_ok (nv (core st)) l →
  l ∉ trail (core st) → lit_neg l ∉ trail (core st) →
  ∃ st' b, add_simplified st [l] = Some (st', b) ∧ clause_added st [l] st' b.
Proof.
  intros R Hk Hl H1 H2. simpl. destruct (rd_stable _ R) as [I Hq].
  pose proof (propagate_spec (st <| core := uncheckedEnqueue (core st) l CRef_Undef |>)) as HP.
  destruct HP as (st1 & confl & -> & P & F); [by apply inv_enqueue |].
  pose proof (propagated_confl _ _ _ P) as Hc. simpl in Hc.
  assert (nv (core st1) = nv (core st)) as Hnv.
  { rewrite (frame_nv _ _ F). unfold nv; simpl. by rewrite length_zset. }
  pose proof (fr_region _ _ F) as [Hreg Hex]. simpl in Hreg, Hex.
  pose proof (ext_mem _ _ (proj1 P)) as Hmem. simpl in Hmem.
  assert (Base st1) as B1.
  { destruct (propagated_inv _ _ _ P) as [q Iq].
    destruct F as [[= F1 F2 F3 F4 F5 F6 F7 F8 F9 F10 F11 F12 F13 F14 F15 F16 F17] _ _ _ _].
    pose proof R as [_ R2 R3 R4 _ R6 R7]. split.
    - by exists q.
    - rewrite Hnv. congruence.
    - congruence.
    - rewrite Hnv, F9. done.
    - destruct R7 as (V1 & V2 & V3). simpl in *. rewrite F9. split; [| done]. simpl.
      pose proof (trail_length _ _ _ (inv_trail _ _ Iq)) as Hlen. unfold nv in *. lia. }
  simpl. eexists _, _. split; [done |]. split; [done |]. split; [by destruct B1 |]. split.
  { intros ->%Z.eqb_eq. pose proof (propagated_stable _ _ P) as St1.
    pose proof R as [_ R2 _ _ [R5 R5'] _ _]. destruct B1. split; simpl; try done.
    - by rewrite (ext_lims _ _ (proj1 P)).
    - split; rewrite Hreg; [done |]. intros cr c E. symmetry in Hmem.
      destruct (mem_perm_lookup _ _ _ _ Hmem E) as (c' & E' & _). by apply (R5' cr c'). }
  split; [done |]. split; [by destruct F as [[=] _ _ _ _] |]. split; [simpl; rewrite Hreg; lia |].
  intros σ. unfold solver_models. change (db_of (_ <| ok := _ |>)) with (db_of st1).
  change (core (_ <| ok := _ |>)) with (core st1). rewrite models_lits_snoc_iff.
  assert (models σ (db_of st1) ↔ models σ (db_of st)) as ->.
  { split; by rewrite (mem_perm_db _ _ Hmem). }
  destruct P as (X & _). split.
  - intros (_ & HF & Htr). split; [done |]. intros k Hin. apply Htr.
    destruct (ext_trail _ _ X) as [news Et]. unfold lit_on. rewrite Et. apply elem_of_app. by left.
  - intros [HF Htr]. split; [| split; [done |]].
    + destruct (Z.eqb_spec confl CRef_Undef) as [| Hne]; [done |].
      apply Hc in Hne. by destruct (UPconfl_unsat _ _ Hne); exists σ.
    + intros k Hin. apply (UP_sound (db_of st) (lit_on (trail (core st) ++ [l]))); [done | done |].
      by apply (ext_up _ _ X).
Qed.

(** A clause of two or more unassigned literals is stored and attached. *)
Lemma add_attach_spec st ps' : Ready st → ok st = true → (2 <= length ps')%nat → NoDup ps' →
  Forall (lit_ok (nv (core st))) ps' → (∀ l, l ∈ ps' → lit_neg l ∉ trail (core st)) →
  room_for st (length ps') →
  ∃ st' b, add_simplified st ps' = Some (st', b) ∧ clause_added st ps' st' b.
Proof.
  intros R Hk H2 Hnd Hok Hun Hroom. destruct (rd_stable _ R) as [I Hq].
  destruct (ca_alloc_spec _ ps' false (rd_arena _ R) Hroom) as (a & Ea & Ha & Em & Hnone & Hcr & Hsz).
  set (cr := r_sz _) in *. set (c := new_clause ps' (false || a_extra (ca (core st))) false) in *.
  assert (c_lits c = ps' ∧ c_mark c = 0) as [Ec Emk].
  { unfold c, new_clause. by case_match_goal. }
  assert (ca_deref a cr = Some c) as Ed by (unfold ca_deref; rewrite Em; apply lookup_insert_eq).
  assert (∃ st', add_simplified st ps' = Some (st', true) ∧
    st' = st <| core := attach_core ((core st) <| ca := a |>) cr c |>
             <| clauses := clauses st ++ [cr] |> <| stats := count_clause (stats st) c 1 |>)
    as (st' & -> & Est).
  { destruct ps' as [| x [| y rest]]; simpl in H2; try lia. cbn [add_simplified].
    rewrite Ea. simpl. unfold attachClause. simpl. rewrite Ed. simpl. eauto. }
  exists st', true. split; [done |].
  assert (Inv (qhead (core st)) (core st')) as I'.
  { subst st'. simpl. apply attach_inv; rewrite ?Ec, ?Emk; try done.
    intros l i Hw _ Ei. exfalso.
    assert (lit_neg l ∈ ps') as Hin.
    { rewrite <- Ec. destruct Hw as [Hw | Hw]; by eapply list_elem_of_lookup_2. }
    apply (Hun _ Hin). rewrite lit_neg_involutive. by eapply list_elem_of_lookup_2. }
  assert (db_of st' = db (<[cr := c]> (mem (core st)))) as Edb.
  { subst st'. unfold db_of, mem. simpl. by rewrite Em. }
  assert (Ready st') as R'.
  { pose proof R as [_ R2 R3 R4 R5 R6 R7]. subst st'. split; simpl; try done. }
  split; [by subst st' |]. split; [by apply ready_base |]. split; [done |].
  split; [by subst st' |]. split; [by subst st' |]. split.
  - subst st'. simpl. exact Hsz.
  - intros σ. unfold solver_models. rewrite Edb.
    assert (trail (core st') = trail (core st)) as -> by by subst st'.
    assert (models σ (db (<[cr := c]> (mem (core st)))) ↔
      models σ (db_of st) ∧ clause_true σ ps') as ->; [| tauto].
    split.
    + intros Hm. split.
      * intros ls (x & cx & [E Hx] & <-). apply Hm. exists x, cx. split; [| done].
        split; [| done]. rewrite lookup_insert_ne; [done |].
        intros Hx'. rewrite <- Hx' in E. by pose proof (eq_trans (eq_sym Hnone) E).
      * apply Hm. exists cr, c. split; [| done]. split; [apply lookup_insert_eq | by rewrite Emk].
    + intros [Hm Ht] ls (x & cx & [E Hx] & <-). destruct (decide (cr = x)) as [<- | Hne].
      * rewrite lookup_insert_eq in E. injection E as <-. by rewrite Ec.
      * rewrite lookup_insert_ne in E by done. apply Hm. by exists x, cx.
Qed.

Lemma add_simplified_spec st ps' : Ready st → ok st = true → NoDup ps' →
  Forall (lit_ok (nv (core st))) ps' → (∀ l, l ∈ ps' → (l ∉ trail (core st)) ∧ lit_neg l ∉ trail (core st)) →
  room_for st (length ps') →
  ∃ st' b, add_simplified st ps' = Some (st', b) ∧ clause_added st ps' st' b.
Proof.
  intros R Hk Hnd Hok Hun Hroom. destruct ps' as [| l [| l2 ps']].
  - eexists _, _. split; [done |]. split; [done |].
    split; [by destruct (ready_base _ R) |]. split; [done |]. split; [done |].
    split; [done |]. split; [simpl; lia |]. intros σ. split; [by intros [? _] |].
    intros [_ (l & Hl & _)]. by apply elem_of_nil in Hl.
  - apply Forall_cons in Hok as [Hl _]. destruct (Hun l ltac:(by left)) as [H1 H2].
    by apply add_unit_spec.
  - apply add_attach_spec; try done; [simpl; lia |]. intros k Hin. by apply Hun.
Qed.

Lemma extendProof_ready st c d x : Ready st → Ready (extendProof st c d x) ∧
  ok (extendProof st c d x) = ok st ∧ params (extendProof st c d x) = params st ∧
  core (extendProof st c d x) = core st.
Proof. unfold extendProof. intros []. by destruct (proof st). Qed.

Lemma addClause_spec st ps : Ready st → ok st = true → Forall (lit_ok (nv (core st))) ps →
  room_for st (length ps) →
  ∃ st' b, addClause_ st ps = Some (st', b) ∧ clause_added st ps st' b.
Proof.
  intros R Hk Hok Hroom. unfold addClause_. rewrite Hk. simpl.
  destruct (sort_spec lit_ltb ps) as (qs & -> & Hp & Hs). simpl.
  pose proof (inv_trail _ _ (proj1 (rd_stable _ R))) as T.
  assert (Forall (lit_ok (nv (core st))) qs) as Hokq by by rewrite Hp.
  destruct (simplify_lits _ _ _) as [ps' |] eqn:E.
  - destruct (simplify_lits_some _ T qs lit_Undef ps' Hokq Hs) as (H1 & H2 & H3); [| done |].
    { intros l Hl. rewrite Forall_forall in Hokq. apply Hokq, lit_ok_x in Hl. simpl. lia. }
    assert (∀ l, l ∈ ps' → l ∈ ps) as Hsub by (intros l Hl; rewrite <- Hp; by apply H2).
    set (st0 := if modified_lits _ _ _ then _ else st).
    assert (Ready st0 ∧ ok st0 = ok st ∧ params st0 = params st ∧ core st0 = core st) as (R0 & E1 & E2 & E3).
    { unfold st0. case_match_goal; [| done].
      destruct (extendProof_ready _ ps' false lit_Undef R) as (A1 & A2 & A3 & A4).
      destruct (extendProof_ready _ qs true lit_Undef A1) as (B1 & B2 & B3 & B4).
      split; [done |]. by rewrite B2, B3, B4. }
    assert (length ps' <= length ps)%nat as Hlen.
    { by apply submseteq_length, NoDup_submseteq. }
    destruct (add_simplified_spec st0 ps' R0) as (st' & b & -> & C1 & C0 & C2 & C3 & C4 & C5 & C6).
    { by rewrite E1. }
    { done. }
    { rewrite E3. apply Forall_forall. intros l Hl. rewrite Forall_forall in Hok. by apply Hok, Hsub. }
    { rewrite E3. intros l Hl. by apply H2. }
    { unfold room_for in *. rewrite E3. lia. }
    rewrite E3 in *. eexists _, _. split; [done |]. split; [done |]. split; [done |].
    split; [done |]. split; [done |]. split; [congruence |]. split; [lia |]. intros σ. rewrite C6.
    unfold solver_models, db_of. rewrite E3. split.
    + intros [[HF Htr] Hc]. split; [done |]. destruct Hc as (l & Hl & Ht). exists l. auto.
    + intros [[HF Htr] Hc]. split; [done |].
      eapply (clause_true_simplify σ _ ps ps'); [exact Htr | done | | done].
      intros l Hl. rewrite <- Hp in Hl. destruct (H3 l Hl) as [-> | ?]; [| done].
      rewrite Forall_forall in Hokq. apply Hokq, lit_ok_x in Hl. simpl in Hl. lia.
  - eexists _, _. split; [done |]. split; [done |]. split; [by apply ready_base |].
    split; [done |]. split; [done |]. split; [done |]. split; [lia |]. intros σ. split; [| tauto]. intros [_ Hm]. split; [done |].
    apply (simplify_lits_none _ T) in E as [(l & Hl & Ht) | (l & Hl & [Hn | Hn])]; [| | | done].
    + exists l. rewrite <- Hp. split; [done |]. by apply Hm.
    + exfalso. rewrite Forall_forall in Hokq. apply Hokq, lit_ok_x in Hl as [Hl _]. subst l. by apply Hl.
    + rewrite Hp in Hl, Hn. by apply (clause_true_tauto σ ps l).
Qed.

(** C17. [addClause] on a solver at decision level 0 always returns; the models
    of the solver afterwards (none when it reports a contradiction) are exactly
    the models it had that satisfy the clause, and the watched-literal and
    arena invariants hold again. *)
Theorem addClause_correct st ps : Ready st → ok st = true → Forall (lit_ok (nv (core st))) ps →
  room_for st (length ps) →
  ∃ st' b, addClause st ps = Some (st', b) ∧ clause_added st ps st' b.
Proof. intros. by apply addClause_spec. Qed.
