(* ===== verification/Reasons.v ===== *)
(** * Decision levels, reasons and the meaning of the clause database

    What [search] relies on between its steps: the lemmas on the levels of
    trail positions, [RInv] under backtracking and new decisions, the literal
    of the current level that every conflict clause has, and the assignments
    [Sat] that satisfy the clauses and the literals of level 0. *)
From Stdlib Require Import SpecFloat.
From S2P Require Import Prelude Lit UnitProp Vec Heap Alloc Clause Solver Propagate PropCheck Setup SetupSpec.

(** ** Levels of positions *)

Lemma lvl_at_le lims i : (lvl_at lims i <= length lims)%nat.
Proof. apply length_filter. Qed.

Lemma lvl_at_mono lims i j : (i <= j)%nat → (lvl_at lims i <= lvl_at lims j)%nat.
Proof.
  intros Hij. unfold lvl_at. induction lims as [| m lims IH]; [done |].
  rewrite !filter_cons. repeat case_decide; simpl; lia.
Qed.

Section Sorted_lims.
Context (lims : list nat).
Hypothesis Hs : lims_sorted lims.

Lemma lims_drop_ge k lim m : lims !! k = Some lim → m ∈ drop k lims → (lim <= m)%nat.
Proof.
  intros Hk (j & Hj)%list_elem_of_lookup_1. rewrite lookup_drop in Hj.
  apply (Hs k (k + j)%nat lim m); [lia | done | done].
Qed.

Lemma lvl_at_take k lim i : lims !! k = Some lim → (i < lim)%nat →
  lvl_at (take k lims) i = lvl_at lims i.
Proof.
  intros Hk Hi. rewrite <- (take_drop k lims) at 2. rewrite lvl_at_app.
  rewrite (lvl_at_none (drop k lims)); [lia |]. intros m Hm. pose proof (lims_drop_ge k lim m Hk Hm). lia.
Qed.

Lemma lvl_at_below k lim i : lims !! k = Some lim → (i < lim)%nat ↔ (lvl_at lims i <= k)%nat.
Proof.
  intros Hk. pose proof (lookup_lt_Some _ _ _ Hk). split.
  - intros Hi. rewrite <- (lvl_at_take k lim) by done.
    etrans; [apply lvl_at_le |]. rewrite length_take. lia.
  - intros Hl. destruct (decide (i < lim)%nat) as [| Hge]; [done |]. exfalso.
    rewrite <- (take_drop (S k) lims) in Hl. rewrite lvl_at_app, (lvl_at_all (take (S k) lims)) in Hl.
    + rewrite length_take in Hl. lia.
    + intros m (j & Hj)%list_elem_of_lookup_1. pose proof (lookup_lt_Some _ _ _ Hj) as Hlt.
      rewrite length_take in Hlt. rewrite lookup_take_lt in Hj by lia.
      pose proof (Hs j k m lim ltac:(lia) Hj Hk). lia.
Qed.

Lemma lvl_at_last L i : last lims = Some L → (L <= i)%nat ↔ lvl_at lims i = length lims.
Proof.
  intros HL. rewrite last_lookup in HL. pose proof (lvl_at_below _ _ i HL) as H.
  pose proof (lookup_lt_Some _ _ _ HL). pose proof (lvl_at_le lims i). lia.
Qed.
End Sorted_lims.

(** ** Positions of literals *)

Section Positions.
Context (n : Z) (a : list lbool) (tr : list Lit).
Hypothesis T : TrailOk n a tr.

Lemma trail_pos i j t u : tr !! i = Some t → tr !! j = Some u → var t = var u → i = j ∧ t = u.
Proof.
  intros Hi Hj Hv.
  assert (i = j) as <-.
  { eapply (NoDup_lookup (var <$> tr)); [apply T | |]; rewrite list_lookup_fmap.
    - by rewrite Hi.
    - rewrite Hj. simpl. by rewrite Hv. }
  split; [done | congruence].
Qed.

(** A variable of the trail and the negation of a literal over it. *)
Lemma trail_neg t q : t ∈ tr → lit_neg q ∈ tr → var t = var q → t = lit_neg q.
Proof.
  intros Ht Hq Hv. apply same_var in Hv as [-> | ->]; [| done].
  by destruct (trail_consistent _ _ _ T q).
Qed.
End Positions.

(** ** Satisfying assignments *)

Definition level0 (s : Core) : litset :=
  λ l, ∃ i, trail s !! i = Some l ∧ lvl_at (trail_lim s) i = 0%nat.

(** [σ] satisfies the clauses and the literals of level 0. *)
Definition Sat (σ : Z → bool) (s : Core) : Prop :=
  models σ (db (mem s)) ∧ models_lits σ (level0 s).

Definition entails (s : Core) (ls : list Lit) : Prop := ∀ σ, Sat σ s → clause_true σ ls.

Lemma sat_live σ s cr c : Sat σ s → live (mem s) cr c → clause_true σ (c_lits c).
Proof. intros [H _] Hl. apply H. by exists cr, c. Qed.

(** At decision level 0 the whole trail is of level 0. *)
Lemma level0_all s l : trail_lim s = [] → level0 s l ↔ l ∈ trail s.
Proof.
  intros E. unfold level0. rewrite E. split.
  - intros (i & Hi & _). by eapply list_elem_of_lookup_2.
  - intros (i & Hi)%list_elem_of_lookup_1. by exists i.
Qed.

(** ** Changes of clause activities only *)

Definition same_lits (c c' : Clause) : Prop :=
  c_lits c' = c_lits c ∧ c_mark c' = c_mark c ∧ c_learnt c' = c_learnt c ∧
  c_has_extra c' = c_has_extra c ∧ c_reloced c' = c_reloced c.

Record act_only (s s' : Core) : Prop := {
  ao_eq : s' = s <| ca := ca s' |>;
  ao_region : a_region (ca s') = a_region (ca s);
  ao_extra : a_extra (ca s') = a_extra (ca s);
  ao_mem : ∀ cr, option_Forall2 same_lits (mem s !! cr) (mem s' !! cr) }.

#[export] Instance same_lits_equiv : Equivalence same_lits.
Proof.
  split; unfold same_lits.
  - intros c. by repeat split.
  - intros c d. intuition congruence.
  - intros c d e. intuition congruence.
Qed.

#[export] Instance act_only_preorder : PreOrder act_only.
Proof.
  split.
  - intros s. split; [by destruct s | done | done |]. intros cr. reflexivity.
  - intros s1 s2 s3 [E1 ?? M1] [E2 ?? M2]. split; try congruence.
    + rewrite E2, E1. done.
    + intros cr. etrans; [apply M1 | apply M2].
Qed.

Lemma act_store s cr c a : mem s !! cr = Some c →
  act_only s (s <| ca := ca_store (ca s) cr (set_act c a) |>).
Proof.
  intros E. split; try done. intros cr'. unfold mem in *. simpl.
  destruct (decide (cr = cr')) as [<- | Hne].
  - rewrite lookup_insert_eq. refine (eq_ind_r (λ x, option_Forall2 same_lits x _) _ E). by constructor.
  - rewrite lookup_insert_ne by done. reflexivity.
Qed.

Section Act_only.
Context (s s' : Core).
Hypothesis H : act_only s s'.

Lemma act_lookup cr c : mem s !! cr = Some c → ∃ c', mem s' !! cr = Some c' ∧ same_lits c c'.
Proof. intros E. pose proof (ao_mem _ _ H cr) as F. rewrite E in F. inversion F; eauto. Qed.

Lemma act_lookup_inv cr c' : mem s' !! cr = Some c' → ∃ c, mem s !! cr = Some c ∧ same_lits c c'.
Proof. intros E. pose proof (ao_mem _ _ H cr) as F. rewrite E in F. inversion F; eauto. Qed.

Lemma act_live cr c : live (mem s) cr c → ∃ c', live (mem s') cr c' ∧ c_lits c' = c_lits c.
Proof.
  intros [(c' & E & S1 & S2 & _)%act_lookup Hm]. exists c'. split; [| done]. split; [done | congruence].
Qed.

Lemma act_live_inv cr c' : live (mem s') cr c' → ∃ c, live (mem s) cr c ∧ c_lits c' = c_lits c.
Proof.
  intros [(c & E & S1 & S2 & _)%act_lookup_inv Hm]. exists c. split; [| done]. split; [done | congruence].
Qed.

Lemma act_fields : assigns s' = assigns s ∧ vardata s' = vardata s ∧ trail s' = trail s ∧
  trail_lim s' = trail_lim s ∧ qhead s' = qhead s ∧ watches s' = watches s.
Proof. by rewrite (ao_eq _ _ H). Qed.

Lemma act_watched c c' l : c_lits c' = c_lits c → watched c' l ↔ watched c l.
Proof. unfold watched. by intros ->. Qed.

Lemma act_inv q : Inv q s → Inv q s'.
Proof using H.
  intros [T [C1 C2 C3 C4] [W1 W2 W3] J L1 L2 L3 O1 O2].
  destruct act_fields as (Ea & Ev & Et & El & Eq & Ew).
  split; unfold nv; rewrite ?Ea, ?Et, ?El, ?Ew; try done.
  - split.
    + intros cr c (c0 & E & _)%act_lookup_inv. eauto.
    + intros cr c (c0 & E & ->)%act_live_inv. eauto.
    + intros cr c (c0 & E & ->)%act_live_inv. eauto.
    + intros cr c l (c0 & E & ->)%act_live_inv. eauto.
  - split; [| | done].
    + intros l w Hl Hw. destruct (W1 l w Hl Hw) as (c & E & Hc).
      destruct (act_lookup _ _ E) as (c' & E' & S1 & S2 & _). exists c'. split; [done |].
      rewrite S1, S2, (act_watched c c') by done. done.
    + intros cr c' l (c & Hl & El')%act_live_inv Hw. rewrite (act_watched c c') in Hw by done. eauto.
  - intros cr c' l i (c & Hl & El')%act_live_inv Hw. rewrite (act_watched c c') in Hw by done.
    rewrite El'. eauto.
Qed.

Lemma act_rinv assumps : RInv assumps s → RInv assumps s'.
Proof using H.
  destruct act_fields as (Ea & Ev & Et & El & _). intros [R1 R2 R3 R4 R5].
  unfold level, reason in *. split; unfold level, reason; rewrite ?Ea, ?Ev, ?Et, ?El; try done.
  intros i t Hi Hr. destruct (R3 i t Hi Hr) as (c & rest & Hl & Ec & Hrest).
  destruct (act_live _ _ Hl) as (c' & Hl' & Ec'). exists c', rest. by rewrite Ec'.
Qed.

Lemma act_db ls : db (mem s') ls ↔ db (mem s) ls.
Proof using H.
  split; intros (cr & c & Hl & <-).
  - apply act_live_inv in Hl as (c0 & ? & ->). by exists cr, c0.
  - apply act_live in Hl as (c0 & ? & <-). by exists cr, c0.
Qed.

Lemma act_sat σ : Sat σ s' ↔ Sat σ s.
Proof using H.
  destruct act_fields as (Ea & Ev & Et & El & _). unfold Sat, models, level0. rewrite Et, El.
  by setoid_rewrite act_db.
Qed.
End Act_only.

(** ** [RInv] under backtracking and decisions *)

Lemma rinv_cancel assumps st lvl lim q : Inv q (core st) → RInv assumps (core st) →
  trail_lim (core st) !! lvl = Some lim → RInv assumps (core (cancelUntil st lvl)).
Proof.
  intros I [R1 R2 R3 R4 R5] El. pose proof (inv_lims _ _ I) as Hs.
  destruct (cancel_inv st lvl lim q I El) as (I' & Et & Elim & _ & Eca & Esz).
  assert (vardata (core (cancelUntil st lvl)) = vardata (core st)) as Ev.
  { unfold cancelUntil. case_match_goal; [| done]. by destruct (undo_loop _ _ _ _ _). }
  assert (∀ i t, trail (core (cancelUntil st lvl)) !! i = Some t →
    (i < lim)%nat ∧ trail (core st) !! i = Some t ∧
    lvl_at (trail_lim (core (cancelUntil st lvl))) i = lvl_at (trail_lim (core st)) i) as Hold.
  { intros i t Hi. rewrite Et in Hi. pose proof (lookup_lt_Some _ _ _ Hi) as Hlt.
    rewrite length_take in Hlt. rewrite lookup_take_lt in Hi by lia. split; [lia |]. split; [done |].
    rewrite Elim. apply (lvl_at_take _ Hs _ lim); [done | lia]. }
  unfold level, reason in *. split; unfold level, reason; rewrite ?Ev.
  - congruence.
  - intros i t (Hlt & Hi & ->)%Hold. by apply R2.
  - intros i t (Hlt & Hi & _)%Hold Hr. destruct (R3 i t Hi Hr) as (c & rest & Hl & Ec & Hrest).
    exists c, rest. unfold mem in *. rewrite Eca. split; [done |]. split; [done |].
    intros l (j & Hj & Ej)%Hrest. exists j. split; [done |]. rewrite Et, lookup_take_lt by lia. done.
  - intros i t k (Hlt & Hi & ->)%Hold Hr Hk. destruct (R4 i t k Hi Hr Hk) as [Hlk Ha].
    split; [| done]. rewrite Elim. apply (lvl_at_below _ Hs _ _ _ El) in Hlt.
    by rewrite lookup_take_lt by lia.
  - intros k a Ha Hk. rewrite Elim, length_take in Hk.
    destruct (R5 k a Ha) as (i & Hi & Hle); [lia |].
    assert (i < lim)%nat as Hlt by (apply (lvl_at_below _ Hs _ _ _ El); lia).
    exists i. rewrite Et, lookup_take_lt by done. split; [done |].
    rewrite Elim, (lvl_at_take _ Hs _ lim) by done. done.
Qed.

(** [newDecisionLevel] and [uncheckedEnqueue(p)]; [p] is the assumption of the
    level if there is one. *)
Lemma lvl_at_new s i t : trail s !! i = Some t →
  lvl_at (trail_lim s ++ [length (trail s)]) i = lvl_at (trail_lim s) i.
Proof.
  intros Hi%lookup_lt_Some. rewrite lvl_at_app, (lvl_at_none [_]); [lia |].
  intros m ->%list_elem_of_singleton. done.
Qed.

(** A new level without a literal of its own: its assumption is true already. *)
Lemma rinv_new_level assumps s : RInv assumps s →
  (∀ a, assumps !! decisionLevel s = Some a → a ∈ trail s) → RInv assumps (newDecisionLevel s).
Proof.
  intros [R1 R2 R3 R4 R5] Hnew.
  split; unfold level, reason, newDecisionLevel in *; simpl in *; try done.
  - intros i t Hi. rewrite (lvl_at_new s i t) by done. by apply R2.
  - intros i t k Hi Hr. rewrite (lvl_at_new s i t) by done. intros Hk.
    destruct (R4 i t k Hi Hr Hk) as [Hl Ha]. split; [| done]. by apply lookup_app_l_Some.
  - intros k a Ha Hk. rewrite length_app in Hk. simpl in Hk.
    destruct (decide (k < length (trail_lim s))%nat) as [Hlt | Hge].
    + destruct (R5 k a Ha Hlt) as (i & Hi & Hle). exists i. split; [done |].
      by rewrite (lvl_at_new s i a).
    + assert (k = decisionLevel s) as -> by (unfold decisionLevel; lia).
      apply Hnew in Ha as (i & Hi)%list_elem_of_lookup_1. exists i. split; [done |].
      rewrite (lvl_at_new s i a) by done. pose proof (lvl_at_le (trail_lim s) i). unfold decisionLevel. lia.
Qed.

(** The level of the position behind the trail is the decision level. *)
Lemma lvl_at_end q s : Inv q s → lvl_at (trail_lim s) (length (trail s)) = decisionLevel s.
Proof.
  intros I. apply lvl_at_all. intros m Hm. pose proof (inv_lims_q _ _ I m Hm). pose proof (inv_q _ _ I). lia.
Qed.

(** Enqueueing [p] without a reason on a level that has no literal yet. *)
Lemma rinv_decide assumps q s p : Inv q s → RInv assumps s →
  (∀ k, decisionLevel s = S k → last (trail_lim s) = Some (length (trail s)) ∧
     ∀ a, assumps !! k = Some a → p = a) →
  lit_ok (nv s) p → p ∉ trail s → lit_neg p ∉ trail s →
  RInv assumps (uncheckedEnqueue s p CRef_Undef).
Proof.
  intros I [R1 R2 R3 R4 R5] Hd Hp Hn1 Hn2. unfold nv, lit_ok in Hp.
  assert (∀ i t, trail s !! i = Some t → var t ≠ var p) as Hne.
  { intros i t Hi%list_elem_of_lookup_2 Hv. by apply same_var in Hv as [-> | ->]. }
  assert (∀ i t, (trail s ++ [p]) !! i = Some t →
    (trail s !! i = Some t ∧ zget inhabitant (vardata (uncheckedEnqueue s p CRef_Undef)) (var t) =
       zget inhabitant (vardata s) (var t)) ∨
    (i = length (trail s) ∧ t = p ∧ zget inhabitant (vardata (uncheckedEnqueue s p CRef_Undef)) (var t) =
       MkVarData CRef_Undef (Z.of_nat (decisionLevel s)))) as Hcase.
  { intros i t [Hi | [Hle Hi]]%lookup_app_Some; simpl.
    - left. split; [done |]. rewrite zget_zset_ne; [done |]. by apply not_eq_sym, (Hne i).
    - apply list_lookup_singleton_Some in Hi as [Hi <-]. right.
      split; [lia |]. split; [done |]. apply zget_zset_eq. lia. }
  unfold level, reason in *. split; unfold level, reason.
  - simpl. by rewrite !length_zset.
  - intros i t Hi. destruct (Hcase i t Hi) as [[Ht ->] | (-> & -> & ->)]; simpl; [by apply R2 |].
    by rewrite (lvl_at_end q).
  - intros i t Hi. destruct (Hcase i t Hi) as [[Ht ->] | (-> & -> & ->)]; simpl; [| done].
    intros Hr. destruct (R3 i t Ht Hr) as (c & rest & Hl & Ec & Hr'). exists c, rest.
    split; [done |]. split; [done |]. intros l (j & Hj & Ej)%Hr'. exists j.
    split; [done |]. by apply lookup_app_l_Some.
  - intros i t k Hi. destruct (Hcase i t Hi) as [[Ht ->] | (-> & -> & ->)]; simpl; [by apply R4 |].
    rewrite (lvl_at_end q) by done. intros _ Hk. destruct (Hd k Hk) as [Hl Ha]. split; [| done].
    unfold decisionLevel in Hk. rewrite last_lookup, Hk in Hl. done.
  - intros k a Ha Hk. simpl in *. destruct (R5 k a Ha Hk) as (i & Hi & Hle). exists i.
    split; [by apply lookup_app_l_Some | done].
Qed.

(** ** Conflicts *)

(** A falsified clause has a literal that was assigned after everything that was
    propagated completely, so on the current level. *)
Lemma conflict_late q s cr c : Inv q s → live (mem s) cr c →
  (∀ l, l ∈ c_lits c → lit_neg l ∈ trail s) →
  ∃ l i, l ∈ c_lits c ∧ trail s !! i = Some (lit_neg l) ∧ lvl_at (trail_lim s) i = decisionLevel s.
Proof.
  intros I Hl Hf. pose proof (cl_two _ _ (inv_cls _ _ I) _ _ Hl) as H2.
  destruct (c_lits c) as [| l rest] eqn:E; simpl in H2; [lia |].
  assert (l ∈ l :: rest) as Hin by by left.
  pose proof (Hf l Hin) as (i & Hi)%list_elem_of_lookup_1. exists l, i.
  split; [done |]. split; [done |].
  apply lvl_at_all. intros m Hm. destruct (decide (i < q)%nat) as [Hq | Hq].
  - exfalso. destruct (inv_just _ _ I cr c (lit_neg l) i Hl) as (t & j & Ht & Ej & _); [| done | done |].
    + left. rewrite E, lit_neg_involutive. done.
    + apply (trail_consistent _ _ _ (inv_trail _ _ I) t); [by eapply list_elem_of_lookup_2 |].
      apply Hf. by rewrite <- E.
  - pose proof (inv_lims_q _ _ I m Hm). lia.
Qed.
