(* ===== verification/Analyze.v ===== *)
(** * Conflict analysis and the decision heuristic

    [minisat/core/Solver.cc], 383-617, and the activity updates of
    [minisat/core/Solver.h]: [pickBranchLit], [analyze] with the clause
    minimisation of [litRedundant], and [analyzeFinal].  [None] is undefined
    behaviour of the code (a dangling reference, a read below the trail) or the
    fuel of [litRedundant] running out; [AnalyzeSpec] shows that neither
    happens. *)
From Stdlib Require Import SpecFloat.
From S2P Require Import Prelude Lit Vec Heap Alloc Double Clause Solver Setup.

(** ** Activities *)

Definition set_var_inc (st : Solver) (d : double) : Solver :=
  st <| order := (order st) <| var_inc := d |> |>.

Definition varDecayActivity (st : Solver) : Solver :=
  set_var_inc st (d_mul (var_inc (order st)) (d_div (d_of_Z 1) (var_decay (params st)))).

(** The loop [for (int i = 0; i < nVars(); i++) activity[i] *= 1e-100]. *)
Definition rescale_activity (nvars : Z) (act : list double) : list double :=
  imap (λ i a, if Z.of_nat i <? nvars then d_mul a (d_const 1 (10 ^ 100)) else a) act.

(** [varBumpActivity(v, inc)]. *)
Definition varBumpActivity_by (nvars : Z) (o : Order) (v : Var) (inc : double) : Order :=
  let a := d_add (zget inhabitant (activity o) v) inc in
  let o := o <| activity := zset (activity o) v a |> in
  let o := if d_ltb (d_const (10 ^ 100) 1) a
           then o <| activity := rescale_activity nvars (activity o) |>
                  <| var_inc := d_mul (var_inc o) (d_const 1 (10 ^ 100)) |>
           else o in
  if inHeap (order_heap o) v
  then o <| order_heap := decrease (VarOrderLt (activity o)) (order_heap o) v |>
  else o.

(** [varBumpActivity(v)]. *)
Definition varBumpActivity (st : Solver) (v : Var) : Solver :=
  st <| order := varBumpActivity_by (nVars st) (order st) v (var_inc (order st)) |>.

Definition claDecayActivity (st : Solver) : Solver :=
  st <| cla_inc := d_mul (cla_inc st) (d_div (d_of_Z 1) (clause_decay (params st))) |>.

(** [c.activity() *= 1e-20] for the clauses of [learnts]. *)
Fixpoint rescale_clauses (a : Arena) (crs : list CRef) : option Arena :=
  match crs with
  | [] => Some a
  | cr :: crs =>
      c ← ca_deref a cr;
      rescale_clauses (ca_store a cr (set_act c (f_of_d (d_mul (c_act c) (d_const 1 (10 ^ 20)))))) crs
  end.

Definition claBumpActivity (st : Solver) (cr : CRef) : option Solver :=
  c ← ca_deref (ca (core st)) cr;
  let act := f_of_d (d_add (c_act c) (cla_inc st)) in
  let a := ca_store (ca (core st)) cr (set_act c act) in
  if d_ltb (d_const (10 ^ 20) 1) act
  then a ← rescale_clauses a (learnts st);
       Some (st <| core := (core st) <| ca := a |> |>
                <| cla_inc := d_mul (cla_inc st) (d_const 1 (10 ^ 20)) |>)
  else Some (st <| core := (core st) <| ca := a |> |>).

(** ** [pickBranchLit] *)

Definition count_rnd_decision (st : Solver) : Solver :=
  st <| stats := (stats st) <| rnd_decisions := u64 (rnd_decisions (stats st) + 1) |> |>.

Definition undecided (st : Solver) (v : Var) : bool :=
  lb_eqb (value_var (core st) v) l_Undef && zget false (decision (order st)) v.

(** The random decision: the candidate, if any. *)
Definition random_decision (st : Solver) : option (Var * Solver) :=
  '(r, seed) ← drand (random_seed (order st));
  let st := st <| order := (order st) <| random_seed := seed |> |> in
  if d_ltb r (random_var_freq (params st)) && negb (heap_empty (order_heap (order st))) then
    '(i, seed) ← irand (random_seed (order st)) (heap_size (order_heap (order st)));
    let st := st <| order := (order st) <| random_seed := seed |> |> in
    let next := zget 0 (heap (order_heap (order st))) i in
    Some (next, if undecided st next then count_rnd_decision st else st)
  else Some (var_Undef, st).

(** [while (next == var_Undef || value(next) != l_Undef || !decision[next])]:
    each round takes a variable from the heap. *)
Fixpoint next_decision (fuel : nat) (st : Solver) (next : Var) : option (Var * Solver) :=
  if (next =? var_Undef) || negb (undecided st next) then
    if heap_empty (order_heap (order st)) then Some (var_Undef, st)
    else
      match fuel with
      | O => None
      | S fuel =>
          let '(v, h) := removeMin (VarOrderLt (activity (order st))) (order_heap (order st)) in
          next_decision fuel (st <| order := (order st) <| order_heap := h |> |>) v
      end
  else Some (next, st).

Definition pickBranchLit (st : Solver) : option (Lit * Solver) :=
  '(next, st) ← random_decision st;
  '(next, st) ← next_decision (length (heap (order_heap (order st)))) st next;
  if next =? var_Undef then Some (lit_Undef, st)
  else
    let up := zget inhabitant (user_pol (order st)) next in
    if lb_neb up l_Undef then Some (mkLit next (lb_eqb up l_True), st)
    else if rnd_pol (params st) then
      '(r, seed) ← drand (random_seed (order st));
      Some (mkLit next (d_ltb r (d_const 1 2)), st <| order := (order st) <| random_seed := seed |> |>)
    else Some (mkLit next (zget false (polarity (order st)) next), st).

(** ** [analyze] *)

Definition set_seen (st : Solver) (x : Var) (b : Z) : Solver := st <| seen := zset (seen st) x b |>.

Definition is_seen (st : Solver) (x : Var) : bool := negb (zget 0 (seen st) x =? 0).

(** The body of the loop over the literals [q] of a clause. *)
Definition analyze_lit (st : Solver) (out_learnt : list Lit) (pathC : Z) (q : Lit) :
    Solver * list Lit * Z :=
  let x := var q in
  if negb (is_seen st x) && (0 <? level (core st) x) then
    let st := set_seen (varBumpActivity st x) x 1 in
    if Z.of_nat (decisionLevel (core st)) <=? level (core st) x
    then (st, out_learnt, pathC + 1)
    else (st, out_learnt ++ [q], pathC)
  else (st, out_learnt, pathC).

Definition analyze_lits (st : Solver) (out_learnt : list Lit) (pathC : Z) (qs : list Lit) :
    Solver * list Lit * Z :=
  foldl (λ '(st, out_learnt, pathC) q, analyze_lit st out_learnt pathC q) (st, out_learnt, pathC) qs.

(** [while (!seen[var(trail[index--])]);], where [n] is [index + 1]: the
    position of the last seen literal below [n]. *)
Fixpoint last_seen (st : Solver) (n : nat) : option nat :=
  match n with
  | O => None
  | S k => if is_seen st (var (trail (core st) !!! k)) then Some k else last_seen st k
  end.

(** The loop that resolves the conflict clause with the reasons of the literals
    of the current level; [p] is [lit_Undef] in the first round. *)
Fixpoint analyze_loop (fuel : nat) (st : Solver) (out_learnt : list Lit) (pathC : Z) (p : Lit)
    (confl : CRef) (n : nat) : option (Solver * list Lit * Lit) :=
  match fuel with
  | O => None
  | S fuel =>
      c ← ca_deref (ca (core st)) confl;
      st ← (if c_learnt c then claBumpActivity st confl else Some st);
      let qs := if lit_eqb p lit_Undef then c_lits c else drop 1 (c_lits c) in
      let '(st, out_learnt, pathC) := analyze_lits st out_learnt pathC qs in
      k ← last_seen st n;
      let p := trail (core st) !!! k in
      let confl := reason (core st) (var p) in
      let st := set_seen st (var p) 0 in
      if 0 <? pathC - 1 then analyze_loop fuel st out_learnt (pathC - 1) p confl k
      else Some (st, <[0%nat := lit_neg p]> out_learnt, p)
  end.

(** ** [litRedundant] *)

Definition seen_undef : Z := 0.
Definition seen_source : Z := 1.
Definition seen_removable : Z := 2.
Definition seen_failed : Z := 3.

Definition seen_at (st : Solver) (x : Var) : Z := zget 0 (seen st) x.

(** Marks [l] unless it has a mark already. *)
Definition mark_undef (st : Solver) (m : Z) (l : Lit) : Solver :=
  if seen_at st (var l) =? seen_undef
  then (set_seen st (var l) m) <| analyze_toclear := analyze_toclear st ++ [l] |>
  else st.

(** The variables of the loop: [analyze_stack] (a [ShrinkStackElem] is a pair),
    [i], [p], with [c] the reason of [p]. *)
Record Shrink := MkShrink { sh_st : Solver; sh_stack : list (nat * Lit); sh_i : nat; sh_p : Lit }.

(** One round of [for (uint32_t i = 1;; i++)]. *)
Definition shrink_step (s : Shrink) : option (Shrink + Solver * bool) :=
  let '(MkShrink st stack i p) := s in
  c ← ca_deref (ca (core st)) (reason (core st) (var p));
  match c_lits c !! i with
  | Some l =>
      let x := var l in
      if (level (core st) x =? 0) || (seen_at st x =? seen_source) || (seen_at st x =? seen_removable)
      then Some (inl (MkShrink st stack (S i) p))
      else if (reason (core st) x =? CRef_Undef) || (seen_at st x =? seen_failed) then
        let stack := stack ++ [(0%nat, p)] in
        Some (inr (foldl (λ st e, mark_undef st seen_failed e.2) st stack, false))
      else Some (inl (MkShrink st (stack ++ [(i, p)]) 1 l))
  | None =>
      let st := mark_undef st seen_removable p in
      match last stack with
      | None => Some (inr (st, true))
      | Some (i, p) => Some (inl (MkShrink st (removelast stack) (S i) p))
      end
  end.

(** A literal is entered from a literal assigned after it, so the rounds are at
    most exponential in the length of the trail. *)
Definition shrink_fuel (s : Core) : nat :=
  S (length (trail s)) * (Nat.log2 (2 * length (assigns s)) + 3).

Definition litRedundant (st : Solver) (p : Lit) : option (Solver * bool) :=
  r ← iter2 shrink_step (shrink_fuel (core st)) (MkShrink st [] 1 p);
  match r with inr b => Some b | inl _ => None end.

(** [reason(var(l)) == CRef_Undef || !litRedundant(l)] keeps [l]. *)
Definition keep_deep (st : Solver) (l : Lit) : option (Solver * bool) :=
  if reason (core st) (var l) =? CRef_Undef then Some (st, true)
  else '(st, b) ← litRedundant st l; Some (st, negb b).

(** [ccmin_mode == 2]: keeps the decisions and the literals that are not
    redundant. *)
Fixpoint minimize_deep (st : Solver) (ls : list Lit) : option (Solver * list Lit) :=
  match ls with
  | [] => Some (st, [])
  | l :: ls =>
      '(st, keep) ← keep_deep st l;
      '(st, ls) ← minimize_deep st ls;
      Some (st, if (keep : bool) then l :: ls else ls)
  end.

(** [ccmin_mode == 1]: some literal of the reason is neither seen nor of level
    0. *)
Definition keep_basic (st : Solver) (l : Lit) : option bool :=
  let r := reason (core st) (var l) in
  if r =? CRef_Undef then Some true
  else
    c ← ca_deref (ca (core st)) r;
    Some (existsb (λ q, negb (is_seen st (var q)) && (0 <? level (core st) (var q)))
                  (drop 1 (c_lits c))).

Fixpoint minimize_basic (st : Solver) (ls : list Lit) : option (list Lit) :=
  match ls with
  | [] => Some []
  | l :: ls => b ← keep_basic st l; ls ← minimize_basic st ls; Some (if (b : bool) then l :: ls else ls)
  end.

(** The minimisation of [out_learnt], of which the first literal stays. *)
Definition minimize (st : Solver) (out_learnt : list Lit) : option (Solver * list Lit) :=
  let head := take 1 out_learnt in
  let tail := drop 1 out_learnt in
  if ccmin_mode (params st) =? 2 then
    '(st, tail) ← minimize_deep st tail; Some (st, head ++ tail)
  else if ccmin_mode (params st) =? 1 then
    tail ← minimize_basic st tail; Some (st, head ++ tail)
  else Some (st, out_learnt).

(** The position of the first literal of the highest level from 1 on; [m] is
    [max_i] and [i] the next position. *)
Fixpoint max_level (s : Core) (ls : list Lit) (m i k : nat) : nat :=
  match k with
  | O => m
  | S k =>
      max_level s ls
        (if level s (var (ls !!! m)) <? level s (var (ls !!! i)) then i else m) (S i) k
  end.

(** The backtrack level, and the literal that gives it swapped to position 1. *)
Definition find_btlevel (s : Core) (ls : list Lit) : list Lit * Z :=
  match ls with
  | [_] => (ls, 0)
  | _ =>
      let m := max_level s ls 1 2 (length ls - 2) in
      let p := ls !!! m in
      (<[1%nat := p]> (<[m := ls !!! 1%nat]> ls), level s (var p))
  end.

Definition count_literals (st : Solver) (before after : nat) : Solver :=
  st <| stats := ((stats st) <| max_literals := u64 (max_literals (stats st) + Z.of_nat before) |>)
                   <| tot_literals := u64 (tot_literals (stats st) + Z.of_nat after) |> |>.

Definition clear_seen (st : Solver) (ls : list Lit) : Solver :=
  foldl (λ st l, set_seen st (var l) 0) st ls.

(** [analyze(confl, out_learnt, out_btlevel)]. *)
Definition analyze (st : Solver) (confl : CRef) : option (Solver * list Lit * Z) :=
  let n := length (trail (core st)) in
  '(st, out_learnt, _) ← analyze_loop (S n) st [lit_Undef] 0 lit_Undef confl n;
  '(st, ls) ← minimize (st <| analyze_toclear := out_learnt |>) out_learnt;
  let st := count_literals st (length out_learnt) (length ls) in
  let '(ls, btlevel) := find_btlevel (core st) ls in
  Some (clear_seen st (analyze_toclear st), ls, btlevel).

(** ** [analyzeFinal] *)

Definition conflict_insert (st : Solver) (p : Lit) : Solver :=
  st <| conflict := IntMap.set_insert lit_x (conflict st) p |>.

(** The body of the loop, for the literal [l] of the trail. *)
Definition final_step (st : Solver) (l : Lit) : option Solver :=
  let x := var l in
  if is_seen st x then
    st ← (if reason (core st) x =? CRef_Undef then Some (conflict_insert st (lit_neg l))
          else
            c ← ca_deref (ca (core st)) (reason (core st) x);
            Some (foldl (λ st q, if 0 <? level (core st) (var q) then set_seen st (var q) 1 else st)
                        st (drop 1 (c_lits c))));
    Some (set_seen st x 0)
  else Some st.

Fixpoint final_loop (st : Solver) (ls : list Lit) : option Solver :=
  match ls with
  | [] => Some st
  | l :: ls => st ← final_step st l; final_loop st ls
  end.

(** [analyzeFinal(p, conflict)]. *)
Definition analyzeFinal (st : Solver) (p : Lit) : option Solver :=
  let st := conflict_insert (st <| conflict := IntMap.set_clear lit_x (conflict st) |>) p in
  match trail_lim (core st) with
  | [] => Some st
  | lim :: _ =>
      st ← final_loop (set_seen st (var p) 1) (rev (drop lim (trail (core st))));
      Some (set_seen st (var p) 0)
  end.
