(* ===== verification/RandomSpec.v ===== *)
(** * The random numbers of [Minisat::Solver]

    [drand] of [minisat/core/Solver.h], 368-373, computes in doubles; all its
    intermediate values are integers below [2 ^ 53] or have the right integer
    part, so it is a linear congruential generator. *)
From Stdlib Require Import SpecFloat.
From S2P Require Import Prelude Double DoubleSpec Setup.

#[local] Opaque d_const d_add d_mul d_sub d_div d_ltb d_of_Z d_trunc.

Definition lcg_modulus : Z := 2147483647.

(** The next seed. *)
Definition lcg (z : Z) : Z := z * 1389796 mod lcg_modulus.

(** The seeds of the generator. *)
Definition seed_ok (d : double) : Prop := ∃ z, 0 <= z < lcg_modulus ∧ d = d_of_Z z.

Lemma lcg_range z : 0 <= lcg z < lcg_modulus.
Proof. by apply Z.mod_pos_bound. Qed.

Lemma drand_spec z : 0 <= z < lcg_modulus →
  drand (d_of_Z z) = Some (d_div (d_of_Z (lcg z)) (d_of_Z lcg_modulus), d_of_Z (lcg z)) ∧
  d_nonneg (d_div (d_of_Z (lcg z)) (d_of_Z lcg_modulus)).
Proof.
  intros Hz. pose proof (lcg_range z). unfold lcg_modulus in *. unfold drand. rewrite d_mul_Z by lia.
  set (a := z * 1389796). assert (0 <= a < 2 ^ 52) as Ha by lia.
  destruct (d_div_Z a 2147483647) as [Ht _]; [lia | lia |].
  pose proof (Z.div_mod a 2147483647 ltac:(lia)). pose proof (Z.mod_pos_bound a 2147483647 ltac:(lia)).
  unfold d_to_int. rewrite Ht. cbn [mbind option_bind].
  assert (0 <= a / 2147483647 < 2 ^ 21) as Hq.
  { split; [apply Z.div_pos; lia | apply Z.div_lt_upper_bound; lia]. }
  destruct (Z.leb_spec (- 2 ^ 31) (a / 2147483647)); [| lia].
  destruct (Z.ltb_spec (a / 2147483647) (2 ^ 31)); [| lia]. cbn [andb mbind option_bind].
  rewrite d_mul_Z by lia. rewrite d_sub_Z by lia.
  assert (a - a / 2147483647 * 2147483647 = lcg z) as -> by (unfold lcg, lcg_modulus; fold a; lia).
  split; [done |]. apply d_div_Z; unfold lcg, lcg_modulus in *; lia.
Qed.

(** Not less than zero. *)
Lemma d_nonneg_ltb d : d_nonneg d → d_ltb d (d_of_Z 0) = false.
Proof. intros H. rewrite d_of_Z_zero. Transparent d_ltb. by destruct d as [[] | [] | | [] m e]. Qed.

(** [drand] never leaves the range of the conversion to [int]; it is the
    linear congruential generator with multiplier 1389796 and modulus
    2147483647, and its value is the new seed over the modulus. *)
Theorem drand_correct z : 0 <= z < 2147483647 →
  let z' := z * 1389796 mod 2147483647 in
  drand (d_of_Z z) = Some (d_div (d_of_Z z') (d_of_Z 2147483647), d_of_Z z') ∧ 0 <= z' < 2147483647 ∧
  d_ltb (d_div (d_of_Z z') (d_of_Z 2147483647)) (d_of_Z 0) = false.
Proof.
  intros Hz. destruct (drand_spec z Hz) as [E Hn]. split; [done |].
  split; [apply lcg_range | by apply d_nonneg_ltb].
Qed.

Lemma drand_correct_witness : 0 <= 91648253 < 2147483647 ∧
  let z' := 91648253 * 1389796 mod 2147483647 in
  drand (d_of_Z 91648253) = Some (d_div (d_of_Z z') (d_of_Z 2147483647), d_of_Z z') ∧
  0 <= z' < 2147483647 ∧ d_ltb (d_div (d_of_Z z') (d_of_Z 2147483647)) (d_of_Z 0) = false.
Proof. split; [lia | apply (drand_correct 91648253); lia]. Defined.
