(* ===== verification/AnalyzeSpec.v ===== *)
(** * Correctness of conflict analysis

    [analyze] terminates, clears [seen] again and learns a clause that follows
    from the clauses and the literals of level 0 and becomes unit after the
    backjump; a literal that [litRedundant] removes was redundant; and
    [analyzeFinal] gives a clause over the negated assumptions. *)
From Stdlib Require Import SpecFloat.
From S2P Require Import Prelude Lit UnitProp Vec Heap Alloc Double DoubleSpec Clause Solver Propagate.
From S2P Require Import Sort PropCheck Setup SetupSpec Reasons Analyze.

#[local] Opaque d_const d_add d_mul d_div d_ltb f_of_d.

(** ** What analysis may change *)

Record order_like (o o' : Order) : Prop := {
  ol_polarity : polarity o' = polarity o;
  ol_user_pol : user_pol o' = user_pol o;
  ol_decision : decision o' = decision o;
  ol_seed : random_seed o' = random_seed o;
  ol_phase : phase_saving o' = phase_saving o;
  ol_heap : idx_ok (heap (order_heap o)) (indices (order_heap o)) →
    holds_keys (order_heap o') (heap (order_heap o)) (indices (order_heap o)) }.

#[export] Instance order_like_preorder : PreOrder order_like.
Proof.
  split.
  - intros o. by split.
  - intros o1 o2 o3 [] []. split; try congruence. intros (H1 & H2 & H3)%ol_heap0.
    destruct (ol_heap1 H1) as (? & E1 & E2). split; [done |]. split; [by rewrite E1 | by rewrite E2].
Qed.

(** Activities are neither negative nor NaN. *)
Definition ActInv (st : Solver) : Prop :=
  d_nonneg (cla_inc st) ∧ ∀ cr c, mem (core st) !! cr = Some c → d_nonneg (c_act c).

(** The fields no step of the analysis writes. *)
Definition fixed_of (st : Solver) :=
  (params st, clauses st, learnts st, assumptions st, ok st, (simpDB_assigns st, simpDB_props st,
   next_var st, trail_cap st, released_vars st, free_vars st), (max_learnts st,
   learntsize_adjust_confl st, learntsize_adjust_cnt st, conflict_budget st,
   propagation_budget st, asynch_interrupt st), model st, conflict st, proof st,
   (conflicts (stats st), propagations (stats st))).

Record AFrame (st st' : Solver) : Prop := {
  af_core : act_only (core st) (core st');
  af_fixed : fixed_of st' = fixed_of st;
  af_order : order_like (order st) (order st');
  af_act : ActInv st → ActInv st';
  af_seen : length (seen st') = length (seen st) }.

#[export] Instance aframe_preorder : PreOrder AFrame.
Proof.
  split.
  - intros st. by split.
  - intros s1 s2 s3 [] []. split; [by etrans | congruence | by etrans | auto | congruence].
Qed.

(** The clauses of [learnts] can be dereferenced. *)
Definition learnts_ok (st : Solver) : Prop := ∀ cr, cr ∈ learnts st → is_Some (mem (core st) !! cr).

(** ** Activities *)

Lemma rescale_spec crs : ∀ s, (∀ cr, cr ∈ crs → is_Some (mem s !! cr)) →
  ∃ a, rescale_clauses (ca s) crs = Some a ∧ act_only s (s <| ca := a |>) ∧
    ((∀ cr c, mem s !! cr = Some c → d_nonneg (c_act c)) →
     ∀ cr c, a_mem a !! cr = Some c → d_nonneg (c_act c)).
Proof.
  induction crs as [| cr crs IH]; intros s H; simpl.
  { exists (ca s). split; [done |]. split; [by destruct s | done]. }
  destruct (H cr ltac:(by left)) as [c E]. unfold ca_deref. unfold mem in E. rewrite E. simpl.
  set (act := f_of_d _).
  pose proof (act_store s cr c act E) as A.
  destruct (IH (s <| ca := ca_store (ca s) cr (set_act c act) |>)) as (a & Ea & A' & N).
  { intros cr' Hin. destruct (H cr' ltac:(by right)) as [c' E'].
    destruct (act_lookup _ _ A _ _ E') as (c2 & E2 & _). eauto. }
  simpl in Ea. exists a. split; [done |]. split.
  { etrans; [exact A |]. exact A'. }
  intros Hn. apply N. intros cr' c' E'. unfold mem in E'. simpl in E'.
  destruct (decide (cr = cr')) as [<- | Hne].
  - rewrite lookup_insert_eq in E'. injection E' as <-. simpl. unfold act.
    apply f_of_d_nonneg, d_mul_nonneg; [by eapply Hn | vm_compute; exact I].
  - rewrite lookup_insert_ne in E' by done. by eapply Hn.
Qed.

Lemma claBump_spec st cr : is_Some (mem (core st) !! cr) → learnts_ok st →
  ∃ st', claBumpActivity st cr = Some st' ∧ AFrame st st' ∧ order st' = order st ∧
    seen st' = seen st ∧ analyze_toclear st' = analyze_toclear st.
Proof.
  intros [c E] Hls. unfold claBumpActivity, ca_deref. unfold mem in E. rewrite E. simpl.
  set (act := f_of_d _). pose proof (act_store (core st) cr c act E) as A.
  assert (ActInv st → ∀ cr' c', <[cr := set_act c act]> (a_mem (ca (core st))) !! cr' = Some c' →
    d_nonneg (c_act c')) as Hn.
  { intros [N1 N2] cr' c' E'. destruct (decide (cr = cr')) as [<- | Hne].
    - rewrite lookup_insert_eq in E'. injection E' as <-. simpl. unfold act.
      apply f_of_d_nonneg, d_add_nonneg; [by eapply N2 | done].
    - rewrite lookup_insert_ne in E' by done. by eapply N2. }
  destruct (d_ltb _ _).
  - destruct (rescale_spec (learnts st) ((core st) <| ca := ca_store (ca (core st)) cr (set_act c act) |>))
      as (a & Ea & A' & N).
    { intros cr' [c' E']%Hls. destruct (act_lookup _ _ A _ _ E') as (c2 & E2 & _). eauto. }
    simpl in Ea. rewrite Ea. simpl. eexists. split; [done |]. split; [| done].
    split; try done; simpl.
    + by etrans.
    + intros HA. split; simpl; [| by apply N, Hn].
      apply d_mul_nonneg; [apply HA | vm_compute; exact I].
  - eexists. split; [done |]. split; [| done]. split; try done; simpl.
    intros HA. split; [apply HA |]. by apply Hn.
Qed.

Lemma varBump_like nvars o v inc : order_like o (varBumpActivity_by nvars o v inc).
Proof.
  unfold varBumpActivity_by. set (o1 := if d_ltb _ _ then _ else _).
  assert (order_like o o1) as H.
  { unfold o1. destruct (d_ltb _ _); split; try reflexivity; by intros. }
  etrans; [exact H |]. destruct (inHeap _ _) eqn:E; [| done].
  split; try done; simpl. intros Hok. apply decrease_keys; [done |]. by apply inHeap_elem.
Qed.

(** ** Updates of [seen] *)

Lemma set_seen_frame st x b : AFrame st (set_seen st x b).
Proof. split; try done. simpl. apply length_zset. Qed.

Lemma varBump_frame st v : AFrame st (varBumpActivity st v).
Proof. split; try done. apply varBump_like. Qed.

Lemma is_seen_at st x : is_seen st x = negb (seen_at st x =? 0).
Proof. done. Qed.

(** [seen] covers the variables. *)
Definition seen_size (st : Solver) : Prop := length (seen st) = length (assigns (core st)).

Lemma seen_at_set st x b y : seen_size st → 0 <= x < nv (core st) →
  seen_at (set_seen st x b) y = if decide (x = y) then b else seen_at st y.
Proof. unfold seen_size, nv, seen_at. intros Hs Hx. simpl. apply zget_zset. lia. Qed.

Lemma is_seen_set st x b y : seen_size st → 0 <= x < nv (core st) →
  is_seen (set_seen st x b) y = if decide (x = y) then negb (b =? 0) else is_seen st y.
Proof. intros Hs Hx. rewrite !is_seen_at, seen_at_set by done. by case_decide. Qed.

(** ** Counting seen literals *)

Definition seen_lits (f : Z → bool) (l : list Lit) : list Lit := filter (λ t, f (var t) = true) l.

Lemma seen_lits_same f g l : (∀ t, t ∈ l → f (var t) = g (var t)) → seen_lits f l = seen_lits g l.
Proof.
  unfold seen_lits. induction l as [| t l IH]; intros H; [done |]. rewrite !filter_cons.
  rewrite H by by left. rewrite IH by (intros; apply H; by right). done.
Qed.

Lemma seen_lits_add f g x l : NoDup (var <$> l) → f x = false → g x = true →
  (∀ y, y ≠ x → g y = f y) →
  length (seen_lits g l) = (length (seen_lits f l) + if decide (x ∈ var <$> l) then 1 else 0)%nat.
Proof.
  intros Hnd Hf Hg Ho. induction l as [| t l IH]; [done |].
  csimpl in *. apply NoDup_cons in Hnd as [Hnt Hnd]. specialize (IH Hnd).
  unfold seen_lits in *. rewrite !filter_cons. destruct (decide (var t = x)) as [<- | Hne].
  - rewrite Hf, Hg. rewrite (decide_True (P := var t ∈ _)) by by left.
    rewrite decide_False in IH by done. simpl. lia.
  - rewrite Ho by done.
    replace (length (filter (λ t, g (var t) = true) l)) with
      (length (filter (λ t, f (var t) = true) l) + if decide (x ∈ var <$> l) then 1 else 0)%nat by lia.
    assert (x ∈ var t :: (var <$> l) ↔ x ∈ var <$> l) as Hiff.
    { rewrite elem_of_cons. split; [intros [-> |]; done | by right]. }
    repeat case_decide; simpl; try lia; tauto.
Qed.

(** ** The analysis of a conflict above level 0 *)

Section Analysis.
Context (assumps : list Lit) (s : Core) (q L : nat).
Hypothesis I : Inv q s.
Hypothesis R : RInv assumps s.
Hypothesis HL : last (trail_lim s) = Some L.

#[local] Abbreviation tr := (trail s).
#[local] Abbreviation lims := (trail_lim s).

Let T : TrailOk (nv s) (assigns s) tr := inv_trail _ _ I.
Let Hs : lims_sorted lims := inv_lims _ _ I.

Lemma pos_level i t : tr !! i = Some t → level s (var t) = Z.of_nat (lvl_at lims i).
Proof using R. apply (ri_level _ _ R). Qed.

Lemma pos_current i t : tr !! i = Some t → (L <= i)%nat ↔ Z.of_nat (decisionLevel s) <= level s (var t).
Proof using I R HL.
  intros Hi. rewrite (pos_level i t Hi), (lvl_at_last lims Hs L i HL). unfold decisionLevel.
  pose proof (lvl_at_le lims i). lia.
Qed.

Lemma dl_pos : (0 < decisionLevel s)%nat.
Proof using HL.
  clear -HL. unfold decisionLevel. destruct (trail_lim s); [done | simpl; lia].
Qed.

(** What the current state still shares with [s]. *)
Lemma act_reads st : act_only s (core st) →
  trail (core st) = tr ∧ trail_lim (core st) = lims ∧ decisionLevel (core st) = decisionLevel s ∧
  nv (core st) = nv s ∧ (∀ x, level (core st) x = level s x) ∧ (∀ x, reason (core st) x = reason s x).
Proof.
  intros A. destruct (act_fields _ _ A) as (Ea & Ev & Et & El & _).
  unfold decisionLevel, nv, level, reason. by rewrite Ea, Ev, Et, El.
Qed.

Lemma act_deref st cr c : act_only s (core st) → live (mem s) cr c →
  ∃ c', ca_deref (ca (core st)) cr = Some c' ∧ c_lits c' = c_lits c.
Proof.
  intros A Hl. destruct (act_live _ _ A _ _ Hl) as (c' & [E _] & Ec). by exists c'.
Qed.

(** The reason of a literal without a position of its own level: only the first
    literal of the current level has none. *)
Lemma current_reason k t : tr !! k = Some t → (L < k)%nat → reason s (var t) ≠ CRef_Undef.
Proof using I R HL.
  intros Hk Hlt Hr. assert (lvl_at lims k = length lims) as Hlv by (apply (lvl_at_last lims Hs L); [done | lia]).
  destruct (length lims) as [| d] eqn:Ed.
  - apply nil_length_inv in Ed. rewrite Ed in HL. done.
  - destruct (ri_dec _ _ R k t d Hk Hr Hlv) as [Hd _].
    rewrite last_lookup, Ed in HL. simpl in HL. rewrite Hd in HL. injection HL as ->. lia.
Qed.

(** The state after the literals of a clause have been looked at; [tail] is
    [out_learnt] without the room for the asserting literal, and all seen
    variables lie below position [m]. *)
Record AI (st : Solver) (tail : list Lit) (pathC : Z) (m : nat) : Prop := {
  ai_core : act_only s (core st);
  ai_size : seen_size st;
  ai_vals : ∀ x, seen_at st x = 0 ∨ seen_at st x = 1;
  ai_seen : ∀ x, is_seen st x = true → ∃ i t, tr !! i = Some t ∧ var t = x ∧ (i < m)%nat ∧ 0 < level s x;
  ai_tail : ∀ l, l ∈ tail → lit_neg l ∈ tr ∧ is_seen st (var l) = true ∧
    level s (var l) < Z.of_nat (decisionLevel s);
  ai_nodup : NoDup tail;
  ai_low : ∀ t, t ∈ tr → is_seen st (var t) = true → level s (var t) < Z.of_nat (decisionLevel s) →
    lit_neg t ∈ tail;
  ai_count : pathC = Z.of_nat (length (seen_lits (is_seen st) (drop L tr))) }.

Lemma trail_range t : t ∈ tr → 0 <= var t < nv s.
Proof using I. apply (tr_range _ _ _ T). Qed.

Lemma nodup_drop k : NoDup (var <$> drop k tr).
Proof using I. rewrite fmap_drop. eapply sublist_NoDup; [apply (tr_nodup _ _ _ T) | apply sublist_drop]. Qed.

(** Marking the variable of an unseen literal. *)
Lemma seen_mark st tail pathC m i l : AI st tail pathC m → is_seen st (var l) = false →
  tr !! i = Some (lit_neg l) → (i < m)%nat → 0 < level s (var l) →
  let cur := Z.of_nat (decisionLevel s) <=? level s (var l) in
  AI (set_seen st (var l) 1) (if cur then tail else tail ++ [l]) (if cur then pathC + 1 else pathC) m.
Proof using I R HL.
  intros [A Z1 V S1 T1 N1 Lo C] Hns Hi Him Hlv cur.
  destruct (act_reads st A) as (_ & _ & _ & Env & _).
  assert (0 <= var l < nv (core st)) as Hx.
  { rewrite Env, <- var_neg. eapply trail_range, list_elem_of_lookup_2, Hi. }
  pose proof (is_seen_set st (var l) 1) as Hset.
  assert (Hcur : (L <= i)%nat ↔ cur = true).
  { unfold cur. rewrite Z.leb_le, <- (var_neg l). by apply pos_current. }
  split; try done.
  - unfold seen_size. simpl. by rewrite length_zset.
  - intros x. rewrite seen_at_set by done. case_decide; [by right | done].
  - intros x. rewrite Hset by done. case_decide as Hd; [| by apply S1]. intros _. subst x.
    exists i, (lit_neg l). by rewrite var_neg.
  - intros k Hk. rewrite Hset by done. destruct cur eqn:Ec.
    + destruct (T1 k Hk) as (? & ? & ?). case_decide; done.
    + apply elem_of_app in Hk as [Hk | ->%list_elem_of_singleton].
      * destruct (T1 k Hk) as (? & ? & ?). case_decide; done.
      * rewrite decide_True by done. split; [by eapply list_elem_of_lookup_2 |]. split; [done |].
        unfold cur in Ec. apply Z.leb_gt in Ec. done.
  - destruct cur; [done |]. apply NoDup_app. split; [done |]. split; [| apply NoDup_singleton].
    intros k Hk ->%list_elem_of_singleton. destruct (T1 l Hk) as (_ & ? & _). congruence.
  - intros t Ht. rewrite Hset by done. case_decide as Hd.
    + intros _ Hlt. rewrite <- Hd in Hlt. destruct cur eqn:Ec; [unfold cur in Ec; lia |].
      rewrite (trail_neg _ _ _ T t l Ht) by (done || by eapply list_elem_of_lookup_2).
      rewrite lit_neg_involutive. apply elem_of_app. right. by left.
    + intros Hsn Hlt. specialize (Lo t Ht Hsn Hlt). destruct cur; [done |].
      apply elem_of_app. by left.
  - rewrite (seen_lits_add (is_seen st) (is_seen (set_seen st (var l) 1)) (var l)).
    + assert (var l ∈ var <$> drop L tr ↔ cur = true) as Hiff.
      { rewrite <- Hcur. split.
        - intros (t & Hv & Ht)%list_elem_of_fmap_1. apply list_elem_of_lookup_1 in Ht as [j Hj].
          rewrite lookup_drop in Hj. destruct (trail_pos _ _ _ T i (L + j) _ _ Hi Hj) as [-> _]; [by rewrite var_neg | lia].
        - intros Hle. rewrite <- (var_neg l). apply list_elem_of_fmap_2.
          apply list_elem_of_lookup_2 with (i := (i - L)%nat). rewrite lookup_drop.
          by replace (L + (i - L))%nat with i by lia. }
      destruct cur; case_decide as Hd; rewrite Hiff in Hd; try done; lia.
    + apply nodup_drop.
    + done.
    + rewrite Hset by done. by rewrite decide_True.
    + intros y Hy. rewrite Hset by done. by rewrite decide_False by congruence.
Qed.

Lemma ai_frame_core st st' tail pathC m : AI st tail pathC m → AFrame st st' → seen st' = seen st →
  AI st' tail pathC m.
Proof using I R HL.
  intros [A Z1 V S1 T1 N1 Lo C] F E. unfold seen_size, is_seen, seen_at in *.
  assert (length (assigns (core st')) = length (assigns (core st))) as Ea.
  { destruct (act_fields _ _ (af_core _ _ F)) as (-> & _). done. }
  split; unfold seen_size, is_seen, seen_at; rewrite ?E, ?Ea; try done.
  etrans; [exact A | apply F].
Qed.

Definition marks (st st' : Solver) (ls : list Lit) : Prop :=
  AFrame st st' ∧ (∀ x, is_seen st x = true → is_seen st' x = true) ∧
  ∀ l, l ∈ ls → 0 < level s (var l) → is_seen st' (var l) = true.

Lemma analyze_lit_spec st tail pathC m i l : AI st tail pathC m →
  tr !! i = Some (lit_neg l) → (i < m)%nat →
  ∃ st' tail' pathC', analyze_lit st (lit_Undef :: tail) pathC l = (st', lit_Undef :: tail', pathC') ∧
    AI st' tail' pathC' m ∧ marks st st' [l].
Proof using I R HL.
  intros HA Hi Him. destruct (act_reads st (ai_core _ _ _ _ HA)) as (_ & _ & Edl & Env & Elv & _).
  unfold analyze_lit. rewrite Elv. destruct (is_seen st (var l)) eqn:Es; cbn [negb andb].
  { exists st, tail, pathC. split; [done |]. split; [done |]. split; [done |]. split; [done |].
    by intros k ->%list_elem_of_singleton. }
  destruct (Z.ltb_spec 0 (level s (var l))) as [Hlv |].
  2:{ exists st, tail, pathC. split; [done |]. split; [done |]. split; [done |]. split; [done |].
      intros k ->%list_elem_of_singleton. lia. }
  set (st1 := varBumpActivity st (var l)).
  assert (AFrame st st1) as F1 by apply varBump_frame.
  assert (AI st1 tail pathC m) as HA1 by (by eapply ai_frame_core).
  pose proof (seen_mark st1 tail pathC m i l HA1 Es Hi Him Hlv) as HA2. simpl in HA2.
  destruct (act_reads st1 (ai_core _ _ _ _ HA1)) as (_ & _ & Edl1 & Env1 & Elv1 & _).
  assert (0 <= var l < nv (core st1)) as Hx.
  { rewrite Env1, <- var_neg. eapply trail_range, list_elem_of_lookup_2, Hi. }
  assert (marks st (set_seen st1 (var l) 1) [l]) as HM.
  { split; [etrans; [exact F1 | apply set_seen_frame] |].
    pose proof (is_seen_set st1 (var l) 1) as Hset. split.
    - intros x Hx'. rewrite Hset by (done || apply HA1). by case_decide.
    - intros k ->%list_elem_of_singleton _. rewrite Hset by (done || apply HA1). by rewrite decide_True. }
  change (decisionLevel (core (set_seen st1 (var l) 1))) with (decisionLevel (core st1)).
  change (level (core (set_seen st1 (var l) 1)) (var l)) with (level (core st1) (var l)).
  rewrite Edl1, Elv1. case_match_goal; eexists _, _, _; (split; [done |]); by split.
Qed.

(** The loop over the literals of a clause, all of them false and below [m]. *)
Lemma analyze_lits_spec qs m : ∀ st tail pathC, AI st tail pathC m →
  (∀ l, l ∈ qs → ∃ i, tr !! i = Some (lit_neg l) ∧ (i < m)%nat) →
  ∃ st' tail' pathC', analyze_lits st (lit_Undef :: tail) pathC qs = (st', lit_Undef :: tail', pathC') ∧
    AI st' tail' pathC' m ∧ marks st st' qs.
Proof using I R HL.
  induction qs as [| l qs IH]; intros st tail pathC HA Hqs.
  { exists st, tail, pathC. split; [done |]. split; [done |]. split; [done |]. split; [done |].
    intros l Hl. by apply elem_of_nil in Hl. }
  destruct (Hqs l ltac:(by left)) as (i & Hi & Him).
  destruct (analyze_lit_spec st tail pathC m i l HA Hi Him) as (st1 & tail1 & pathC1 & E1 & HA1 & F1 & M1 & Q1).
  destruct (IH st1 tail1 pathC1 HA1) as (st' & tail' & pathC' & E & HA' & F' & M' & Q').
  { intros k Hk. apply Hqs. by right. }
  exists st', tail', pathC'. split.
  { unfold analyze_lits. cbn [foldl]. rewrite E1. exact E. }
  split; [done |]. split; [by etrans |]. split; [by auto |].
  intros k [-> | Hk]%elem_of_cons Hlv; [apply M', Q1; [by left | done] | by apply Q'].
Qed.

(** ** Resolution *)

(** Every satisfying assignment contradicts a seen literal: the negations of the
    seen literals are an entailed clause. *)
Definition refutes (st : Solver) (σ : Z → bool) : Prop :=
  ∃ t, t ∈ tr ∧ is_seen st (var t) = true ∧ lit_true σ t = false.

Lemma false_level0 σ i l : Sat σ s → tr !! i = Some (lit_neg l) → level s (var l) <= 0 →
  lit_true σ l = false.
Proof using R.
  intros [_ Hs0] Hi Hlv. rewrite <- var_neg, (pos_level i (lit_neg l) Hi) in Hlv.
  pose proof (Hs0 (lit_neg l)) as H. rewrite lit_true_neg in H.
  apply negb_true_iff, H. exists i. split; [done | lia].
Qed.

Lemma refutes_marks st st' qs σ : marks st st' qs → Sat σ s →
  (∀ l, l ∈ qs → lit_neg l ∈ tr) → refutes st σ ∨ clause_true σ qs → refutes st' σ.
Proof using R.
  intros (_ & M & Q) HS Hqs [(t & Ht & Hsn & Hf) | (l & Hl & Ht)].
  - exists t. auto.
  - exists (lit_neg l). split; [by apply Hqs |]. rewrite var_neg, lit_true_neg, Ht. split; [| done].
    apply Q; [done |]. destruct (Z.ltb_spec 0 (level s (var l))) as [| Hle]; [done |].
    destruct (list_elem_of_lookup_1 _ _ (Hqs l Hl)) as [i Hi].
    rewrite (false_level0 σ i l HS Hi Hle) in Ht. done.
Qed.

Lemma last_seen_spec st n : (∃ j, (j < n)%nat ∧ is_seen st (var (trail (core st) !!! j)) = true) →
  ∃ k, last_seen st n = Some k ∧ (k < n)%nat ∧ is_seen st (var (trail (core st) !!! k)) = true ∧
    ∀ j, (k < j < n)%nat → is_seen st (var (trail (core st) !!! j)) = false.
Proof.
  induction n as [| n IH]; intros (j & Hj & Hsn); simpl; [lia |].
  destruct (is_seen st (var (trail (core st) !!! n))) eqn:E.
  - exists n. split; [done |]. split; [lia |]. split; [done |]. lia.
  - destruct IH as (k & Ek & Hk & Hsk & Ho).
    + exists j. split; [| done]. destruct (decide (j = n)) as [-> |]; [congruence | lia].
    + exists k. split; [done |]. split; [lia |]. split; [done |]. intros i Hi.
      destruct (decide (i = n)) as [-> |]; [done | apply Ho; lia].
Qed.

(** A positive counter means a seen literal on the current level. *)
Lemma count_pos st tail pathC m : AI st tail pathC m →
  0 < pathC ↔ ∃ j t, (L <= j < m)%nat ∧ tr !! j = Some t ∧ is_seen st (var t) = true.
Proof using I.
  intros HA. rewrite (ai_count _ _ _ _ HA). split.
  - intros Hp. destruct (seen_lits _ _) as [| t rest] eqn:E; simpl in Hp; [lia |].
    assert (t ∈ seen_lits (is_seen st) (drop L tr)) as Hin by (rewrite E; by left).
    apply list_elem_of_filter in Hin as [Hsn Hin]. apply list_elem_of_lookup_1 in Hin as [j Hj].
    rewrite lookup_drop in Hj. exists (L + j)%nat, t. split; [| done].
    destruct (ai_seen _ _ _ _ HA (var t) Hsn) as (i & u & Hi & Hv & Him & _).
    destruct (trail_pos _ _ _ T i (L + j) _ _ Hi Hj Hv) as [-> _]. lia.
  - intros (j & t & Hj & Ht & Hsn).
    assert (t ∈ seen_lits (is_seen st) (drop L tr)) as Hin.
    { apply list_elem_of_filter. split; [done |].
      apply list_elem_of_lookup_2 with (i := (j - L)%nat). rewrite lookup_drop.
      by replace (L + (j - L))%nat with j by lia. }
    destruct (seen_lits _ _); [by apply elem_of_nil in Hin | simpl; lia].
Qed.

(** The last seen literal leaves the count. *)
Lemma seen_clear st tail pathC m k p : AI st tail pathC m → tr !! k = Some p → (L <= k < m)%nat →
  is_seen st (var p) = true → (∀ j t, (k < j < m)%nat → tr !! j = Some t → is_seen st (var t) = false) →
  AI (set_seen st (var p) 0) tail (pathC - 1) k.
Proof using I R HL.
  intros [A Z1 V S1 T1 N1 Lo C] Hk Hr Hsn Ho.
  destruct (act_reads st A) as (_ & _ & _ & Env & _).
  assert (0 <= var p < nv (core st)) as Hx.
  { rewrite Env. eapply trail_range, list_elem_of_lookup_2, Hk. }
  pose proof (is_seen_set st (var p) 0) as Hset. simpl in Hset.
  assert (Z.of_nat (decisionLevel s) <= level s (var p)) as Hlv by (apply (pos_current k); [done | lia]).
  split; try done.
  - unfold seen_size. simpl. by rewrite length_zset.
  - intros x. rewrite seen_at_set by done. case_decide; [by left | done].
  - intros x. rewrite Hset by done. case_decide as Hd; [done |]. intros Hx'.
    destruct (S1 x Hx') as (i & t & Hi & <- & Him & Hlt). exists i, t. split; [done |]. split; [done |].
    split; [| done]. destruct (decide (i = k)) as [-> | Hne].
    + rewrite Hk in Hi. injection Hi as ->. done.
    + destruct (decide (k < i)%nat); [| lia]. rewrite (Ho i t) in Hx'; [done | lia | done].
  - intros l Hl. destruct (T1 l Hl) as (? & ? & ?). rewrite Hset by done.
    rewrite decide_False; [done |]. intros Hv. rewrite Hv in Hlv. lia.
  - intros t Ht. rewrite Hset by done. case_decide; [done | by apply Lo].
  - pose proof (seen_lits_add (is_seen (set_seen st (var p) 0)) (is_seen st) (var p) (drop L tr)) as Hc.
    rewrite decide_True in Hc.
    + rewrite C, Hc; [lia | apply nodup_drop | | done |].
      * rewrite Hset by done. by rewrite decide_True.
      * intros y Hy. rewrite Hset by done. by rewrite decide_False by congruence.
    + apply list_elem_of_fmap_2, list_elem_of_lookup_2 with (i := (k - L)%nat). rewrite lookup_drop.
      by replace (L + (k - L))%nat with k by lia.
Qed.

Lemma lit_ok_defined n p : lit_ok n p → lit_eqb p lit_Undef = false.
Proof. intros Hp%lit_ok_x. apply Z.eqb_neq. simpl. lia. Qed.

(** The literals of the clause of the next round. *)
Definition round_lits (p : Lit) (ls : list Lit) : list Lit :=
  if lit_eqb p lit_Undef then ls else drop 1 ls.

(** What a round of the loop needs. *)
Record Round (st : Solver) (tail : list Lit) (pathC : Z) (p : Lit) (confl : CRef) (n : nat) (c : Clause) :
    Prop := {
  ro_ai : AI st tail pathC n;
  ro_len : (n <= length tr)%nat;
  ro_learnts : learnts_ok st;
  ro_live : live (mem s) confl c;
  ro_false : ∀ l, l ∈ round_lits p (c_lits c) → ∃ i, tr !! i = Some (lit_neg l) ∧ (i < n)%nat;
  ro_pos : 0 < pathC ∨ ∃ l i, l ∈ round_lits p (c_lits c) ∧ tr !! i = Some (lit_neg l) ∧ (L <= i)%nat;
  ro_sat : ∀ σ, Sat σ s → refutes st σ ∨ clause_true σ (round_lits p (c_lits c)) }.

(** The end of the loop: [p] is the only literal of the current level, at
    position [k], and the learnt clause is entailed. *)
Record Resolved (st : Solver) (tail : list Lit) (p : Lit) (k : nat) : Prop := {
  rs_ai : AI st tail 0 k;
  rs_at : tr !! k = Some p;
  rs_current : (L <= k)%nat;
  rs_entails : entails s (lit_neg p :: tail) }.

Lemma learnts_frame st st' : AFrame st st' → learnts_ok st → learnts_ok st'.
Proof.
  intros F H cr Hcr. assert (learnts st' = learnts st) as E.
  { pose proof (af_fixed _ _ F) as E. by injection E. }
  rewrite E in Hcr. destruct (H cr Hcr) as [c Ec].
  destruct (act_lookup _ _ (af_core _ _ F) _ _ Ec) as (c' & ? & _). eauto.
Qed.

(** The literals of the clause are marked and the last seen literal is found. *)
Lemma round_marks st tail pathC p confl n c : Round st tail pathC p confl n c →
  ∃ c' st1 st2 tail2 pathC2 k p2,
    ca_deref (ca (core st)) confl = Some c' ∧
    (if c_learnt c' then claBumpActivity st confl else Some st) = Some st1 ∧
    analyze_lits st1 (lit_Undef :: tail) pathC (round_lits p (c_lits c')) = (st2, lit_Undef :: tail2, pathC2) ∧
    AI st2 tail2 pathC2 n ∧ AFrame st st2 ∧ (∀ σ, Sat σ s → refutes st2 σ) ∧
    last_seen st2 n = Some k ∧ trail (core st2) !!! k = p2 ∧ tr !! k = Some p2 ∧ (L <= k < n)%nat ∧
    is_seen st2 (var p2) = true ∧ AI (set_seen st2 (var p2) 0) tail2 (pathC2 - 1) k.
Proof using I R HL.
  intros [HA Hlen Hls Hl Hf Hp Hsat].
  destruct (act_deref st confl c (ai_core _ _ _ _ HA) Hl) as (c' & Ed & Ec).
  assert (∃ st1, (if c_learnt c' then claBumpActivity st confl else Some st) = Some st1 ∧
    AFrame st st1 ∧ seen st1 = seen st) as (st1 & E1 & F1 & Es1).
  { destruct (c_learnt c'); [| by exists st].
    destruct (claBump_spec st confl) as (st1 & ? & ? & _ & ? & _); [by exists c' | done |]. by exists st1. }
  pose proof (ai_frame_core _ _ _ _ _ HA F1 Es1) as HA1.
  destruct (analyze_lits_spec _ n st1 tail pathC HA1 Hf) as (st2 & tail2 & pathC2 & E2 & HA2 & M).
  assert (∀ σ, Sat σ s → refutes st2 σ) as Hr.
  { intros σ HS. eapply refutes_marks; [exact M | done | |].
    - intros l (i & Hi & _)%Hf. by eapply list_elem_of_lookup_2.
    - unfold refutes, is_seen. rewrite Es1. by apply Hsat. }
  assert (0 < pathC2) as Hpos.
  { apply (count_pos st2 tail2 _ n HA2). destruct M as (_ & M1 & M2). destruct Hp as [Hp | (l & i & Hl' & Hi & Hle)].
    - apply (count_pos st1 tail pathC n HA1) in Hp as (j & t & Hj & Ht & Hsn). exists j, t. auto.
    - exists i, (lit_neg l). destruct (Hf l Hl') as (i' & Hi' & Hlt).
      destruct (trail_pos _ _ _ T i i' _ _ Hi Hi' eq_refl) as [<- _]. split; [done |]. split; [done |].
      rewrite var_neg. apply M2; [done |]. apply (pos_current i _ Hi) in Hle.
      rewrite var_neg in Hle. pose proof dl_pos. lia. }
  apply (count_pos st2 tail2 _ n HA2) in Hpos as (j & t & Hj & Ht & Hsn).
  destruct (act_reads st2 (ai_core _ _ _ _ HA2)) as (Etr & _).
  assert (∀ i u, tr !! i = Some u → trail (core st2) !!! i = u) as Hat.
  { intros i u Hi. rewrite Etr. by apply list_lookup_total_correct. }
  destruct (last_seen_spec st2 n) as (k & Ek & Hkn & Hsk & Ho).
  { exists j. split; [lia |]. by rewrite (Hat j t). }
  assert (j <= k)%nat as Hjk.
  { destruct (decide (k < j)%nat) as [Hlt |]; [| lia].
    rewrite <- (Hat j t Ht), (Ho j) in Hsn; [done | lia]. }
  destruct (lookup_lt_is_Some_2 tr k) as [p2 Hp2]; [lia |].
  exists c', st1, st2, tail2, pathC2, k, p2. unfold round_lits in *. rewrite Ec.
  do 4 (split; [done |]). split; [etrans; [exact F1 | apply M] |]. split; [done |]. split; [done |].
  split; [by apply Hat |]. split; [done |]. split; [lia |].
  rewrite (Hat k p2 Hp2) in Hsk. split; [done |].
  eapply seen_clear; [done | done | lia | done |].
  intros i u Hi Hu. rewrite <- (Hat i u Hu). apply Ho. lia.
Qed.

(** The loop resolves until one literal of the current level is left. *)
Lemma analyze_loop_spec fuel : ∀ st tail pathC p confl n c, Round st tail pathC p confl n c →
  (n < fuel)%nat →
  ∃ st' tail' p' k, analyze_loop fuel st (lit_Undef :: tail) pathC p confl n =
      Some (st', lit_neg p' :: tail', p') ∧ AFrame st st' ∧ Resolved st' tail' p' k.
Proof using I R HL.
  induction fuel as [| fuel IH]; intros st tail pathC p confl n c HR Hn; [lia |].
  destruct (round_marks _ _ _ _ _ _ _ HR) as (c' & st1 & st2 & tail2 & pathC2 & k & p2 &
    Ed & E1 & E2 & HA2 & F2 & Hr & Ek & Ep & Hp2 & Hk & Hsn & HA3).
  cbn [analyze_loop]. rewrite Ed. cbn [mbind option_bind]. rewrite E1. cbn [mbind option_bind].
  unfold round_lits in E2. rewrite E2. cbv beta iota. rewrite Ek. cbn [mbind option_bind].
  rewrite Ep. set (st3 := set_seen st2 (var p2) 0) in *.
  assert (AFrame st st3) as F3 by (etrans; [exact F2 | apply set_seen_frame]).
  destruct (act_reads st2 (ai_core _ _ _ _ HA2)) as (_ & _ & _ & Env & _ & Ere).
  assert (lit_ok (nv s) p2) as Hok by (eapply (tr_range _ _ _ T), list_elem_of_lookup_2, Hp2).
  assert (∀ y, is_seen st3 y = if decide (var p2 = y) then false else is_seen st2 y) as Hset.
  { intros y. unfold st3. rewrite is_seen_set; [done | apply HA2 | by rewrite Env]. }
  destruct (Z.ltb_spec 0 (pathC2 - 1)) as [Hpos | Hz].
  - pose proof (proj1 (count_pos _ _ _ _ HA3) Hpos) as (j & t & Hj & Ht & Hsj).
    pose proof (current_reason k p2 Hp2 ltac:(lia)) as Hrs.
    destruct (ri_reason _ _ R k p2 Hp2 Hrs) as (c2 & rest & Hl2 & Ec2 & Hrest).
    rewrite Ere. destruct (IH st3 tail2 (pathC2 - 1) p2 (reason s (var p2)) k c2) as
      (st' & tail' & p' & k' & Er & F' & HR'); [| lia |].
    + assert (round_lits p2 (c_lits c2) = rest) as Erl.
      { unfold round_lits. by rewrite (lit_ok_defined _ _ Hok), Ec2. }
      split; rewrite ?Erl; try done.
      * pose proof (ro_len _ _ _ _ _ _ _ HR). lia.
      * eapply learnts_frame, HR. done.
      * intros l (i & Hi & Et)%Hrest. by exists i.
      * by left.
      * intros σ HS. destruct (Hr σ HS) as (u & Hu & Hsu & Hfu).
        destruct (decide (var u = var p2)) as [Hv | Hv].
        -- right. apply list_elem_of_lookup_1 in Hu as [i Hi].
           destruct (trail_pos _ _ _ T i k _ _ Hi Hp2 Hv) as [_ ->].
           destruct (sat_live σ s _ c2 HS Hl2) as (l & Hl & Ht'). rewrite Ec2 in Hl.
           apply elem_of_cons in Hl as [-> | Hl]; [congruence | by exists l].
        -- left. exists u. split; [done |]. rewrite Hset, decide_False by congruence. done.
    + exists st', tail', p', k'. split; [exact Er |]. split; [by etrans | done].
  - exists st3, tail2, p2, k. split; [done |]. split; [done |].
    pose proof (count_pos _ _ _ _ HA3) as Hc. pose proof (ai_count _ _ _ _ HA3) as Hc0.
    assert (pathC2 - 1 = 0) as Hz0 by lia. rewrite Hz0 in HA3. split; try done; [lia |].
    intros σ HS. destruct (Hr σ HS) as (u & Hu & Hsu & Hfu).
    apply list_elem_of_lookup_1 in Hu as [i Hi].
    destruct (decide (var u = var p2)) as [Hv | Hv].
    + destruct (trail_pos _ _ _ T i k _ _ Hi Hp2 Hv) as [_ ->]. exists (lit_neg p2).
      split; [by left |]. by rewrite lit_true_neg, Hfu.
    + assert (is_seen st3 (var u) = true) as Hsu3 by (rewrite Hset, decide_False by congruence; done).
      exists (lit_neg u). split; [| by rewrite lit_true_neg, Hfu]. right.
      apply (ai_low _ _ _ _ HA3); [by eapply list_elem_of_lookup_2 | done |].
      destruct (Z.ltb_spec (level s (var u)) (Z.of_nat (decisionLevel s))) as [| Hge]; [done |].
      apply (pos_current i u Hi) in Hge.
      destruct (ai_seen _ _ _ _ HA3 _ Hsu3) as (i' & u' & Hi' & Hv' & Hlt & _).
      destruct (trail_pos _ _ _ T i' i _ _ Hi' Hi Hv') as [-> _].
      assert (0 < pathC2 - 1) by (apply Hc; exists i, u; auto). lia.
Qed.

(** ** Redundant literals *)

(** Marks beyond [seen_source], all of them recorded for clearing. *)
Record marked (st st' : Solver) : Prop := {
  mk_frame : AFrame st st';
  mk_seen : ∀ x, seen_at st' x = seen_at st x ∨
    seen_at st x = 0 ∧ (seen_at st' x = 2 ∨ seen_at st' x = 3);
  mk_clear : ∃ more, analyze_toclear st' = analyze_toclear st ++ more ∧
    ∀ x, seen_at st' x ≠ seen_at st x → x ∈ var <$> more }.

#[local] Instance marked_preorder : PreOrder marked.
Proof.
  split.
  - intros st. split; [done | by left |]. exists []. by rewrite app_nil_r.
  - intros s1 s2 s3 [F1 S1 (m1 & E1 & C1)] [F2 S2 (m2 & E2 & C2)]. split; [by etrans | |].
    + intros x. destruct (S1 x) as [<- | (? & ?)], (S2 x) as [-> | (? & ?)]; auto; right; split; auto; lia.
    + exists (m1 ++ m2). split; [by rewrite E2, E1, (assoc_L (++)) |].
      intros x Hx. rewrite fmap_app, elem_of_app.
      destruct (decide (seen_at s2 x = seen_at s1 x)) as [E | E]; [right | left]; auto.
      apply C2. congruence.
Qed.

(** The state during the minimisation, with any mark. *)
Record Shape (st : Solver) : Prop := {
  sp_core : act_only s (core st);
  sp_size : seen_size st;
  sp_vals : ∀ x, 0 <= seen_at st x <= 3 }.

Lemma shape_marked st st' : Shape st → marked st st' → Shape st'.
Proof using.
  intros [A Z1 V] [F S1 _]. pose proof (act_fields _ _ (af_core _ _ F)) as (Ea & _). split.
  - etrans; [done | apply F].
  - unfold seen_size in *. rewrite Ea, (af_seen _ _ F). done.
  - intros x. specialize (V x). destruct (S1 x) as [-> | (_ & [-> | ->])]; lia.
Qed.

Lemma mark_undef_spec st m l : Shape st → var l ∈ var <$> tr → m = 2 ∨ m = 3 →
  marked st (mark_undef st m l) ∧
  (∀ x, x ≠ var l → seen_at (mark_undef st m l) x = seen_at st x) ∧
  seen_at (mark_undef st m l) (var l) = (if seen_at st (var l) =? 0 then m else seen_at st (var l)).
Proof using I.
  intros [A Z1 V] (t & Ev & Ht)%list_elem_of_fmap_1 Hm. unfold mark_undef, seen_undef.
  destruct (Z.eqb_spec (seen_at st (var l)) 0) as [E | E]; [| done].
  set (st' := set_seen st (var l) m).
  assert (0 <= var l < nv (core st)) as Hx.
  { destruct (act_reads st A) as (_ & _ & _ & -> & _). rewrite Ev. by apply trail_range. }
  assert (∀ y, seen_at st' y = if decide (var l = y) then m else seen_at st y) as Hset.
  { intros y. by apply seen_at_set. }
  change (seen_at (st' <| analyze_toclear := analyze_toclear st ++ [l] |>)) with (seen_at st').
  split; [| split].
  - split.
    + split; try done. simpl. apply length_zset.
    + intros x. change (seen_at (st' <| analyze_toclear := analyze_toclear st ++ [l] |>)) with (seen_at st').
      rewrite Hset. case_decide as Hd; [subst x; right; by auto | by left].
    + exists [l]. split; [done |]. intros x.
      change (seen_at (st' <| analyze_toclear := analyze_toclear st ++ [l] |>)) with (seen_at st').
      rewrite Hset. case_decide as Hd; [subst x; intros _; by left | done].
  - intros x Hne. rewrite Hset. by rewrite decide_False by congruence.
  - rewrite Hset. by rewrite decide_True.
Qed.

(** A literal that is false in every satisfying assignment that falsifies the
    marked literals before it. *)
Definition okl (st : Solver) (l : Lit) : Prop :=
  level s (var l) = 0 ∨ seen_at st (var l) = 1 ∨ seen_at st (var l) = 2.

(** The literals of the reason of a variable. *)
Definition rlits (x : Z) : list Lit :=
  match mem s !! reason s x with Some c => c_lits c | None => [] end.

Record has_reason (x : Z) (k : nat) : Prop := {
  hr_reason : reason s x ≠ CRef_Undef;
  hr_live : ∃ c, live (mem s) (reason s x) c ∧ c_lits c = rlits x;
  hr_lits : ∃ t rest, tr !! k = Some t ∧ var t = x ∧ rlits x = t :: rest ∧
    ∀ l, l ∈ rest → ∃ j, (j < k)%nat ∧ tr !! j = Some (lit_neg l) }.

Lemma reason_of k t : tr !! k = Some t → reason s (var t) ≠ CRef_Undef → has_reason (var t) k.
Proof using R.
  intros Hk Hr. destruct (ri_reason _ _ R k t Hk Hr) as (c & rest & Hl & Ec & Hrest).
  assert (rlits (var t) = c_lits c) as E.
  { unfold rlits. destruct Hl as [E _]. by rewrite (E : mem s !! reason s (var t) = Some c). }
  split; [done | by exists c | exists t, rest]. rewrite E. by auto.
Qed.

(** The literals of the reason of [x] below position [i] are fine. *)
Definition checked (st : Solver) (x : Z) (i : nat) : Prop :=
  (1 <= i)%nat ∧ ∀ j l, (1 <= j < i)%nat → rlits x !! j = Some l → okl st l.

Definition just (st : Solver) (x : Z) : Prop :=
  (∃ k, has_reason x k) ∧ ∀ j l, (1 <= j)%nat → rlits x !! j = Some l → okl st l.

(** Every removable variable is justified. *)
Definition good (st : Solver) : Prop := ∀ x, seen_at st x = 2 → just st x.

Lemma okl_mono st st' l : marked st st' → okl st l → okl st' l.
Proof using.
  intros M [? | [H | H]]; [by left | right; left | right; right];
    destruct (mk_seen _ _ M (var l)) as [-> | (? & _)]; congruence.
Qed.

Lemma checked_mono st st' x i : marked st st' → checked st x i → checked st' x i.
Proof using. intros M [? H]. split; [done |]. intros. eapply okl_mono; eauto. Qed.

Lemma just_mono st st' x : marked st st' → just st x → just st' x.
Proof using. intros M [? H]. split; [done |]. intros. eapply okl_mono; eauto. Qed.

Lemma checked_just st x k i : has_reason x k → checked st x i → rlits x !! i = None → just st x.
Proof using.
  intros Hr [_ H] Hi. split; [by exists k |]. intros j l Hj Hl. apply (H j l); [| done].
  apply lookup_ge_None in Hi. apply lookup_lt_Some in Hl. lia.
Qed.

(** The state after marking one literal as removable. *)
Lemma good_mark st l : Shape st → good st → var l ∈ var <$> tr → just st (var l) →
  good (mark_undef st 2 l).
Proof using I.
  intros HS HG Hl HJ x Hx. destruct (mark_undef_spec st 2 l HS Hl) as (M & Ho & _); [by left |].
  apply (just_mono st); [done |]. destruct (decide (x = var l)) as [-> | Hne]; [done |].
  apply HG. by rewrite <- Ho.
Qed.

(** Marking literals as failed. *)
Lemma mark_failed_spec stack : ∀ st, Shape st → good st → (∀ e, e ∈ stack → var e.2 ∈ var <$> tr) →
  let st' := foldl (λ st (e : nat * Lit), mark_undef st 3 e.2) st stack in marked st st' ∧ good st'.
Proof using I.
  induction stack as [| e stack IH]; intros st HS HG Hin; [done |]. simpl.
  destruct (mark_undef_spec st 3 e.2 HS (Hin e ltac:(by left))) as (M & Ho & He); [by right |].
  destruct (IH (mark_undef st 3 e.2)) as [M' HG'].
  - by eapply shape_marked.
  - intros x Hx. apply (just_mono st); [done |]. apply HG.
    destruct (decide (x = var e.2)) as [-> | Hne]; [| by rewrite <- Ho].
    rewrite He in Hx. by destruct (seen_at st (var e.2) =? 0).
  - intros. apply Hin. by right.
  - split; [by etrans | done].
Qed.

(** *** The depth-first search of [litRedundant] *)

Definition pos (x : Z) : nat :=
  match list_find (λ t, var t = x) tr with Some (k, _) => k | None => 0%nat end.

Lemma pos_at k t : tr !! k = Some t → pos (var t) = k.
Proof using I.
  intros Hk. unfold pos. destruct (list_find _ tr) as [[j u] |] eqn:E.
  - apply list_find_Some in E as (Hj & Hv & _). by destruct (trail_pos _ _ _ T j k _ _ Hj Hk Hv).
  - apply list_find_None in E. rewrite Forall_forall in E.
    by destruct (E t (list_elem_of_lookup_2 _ _ _ Hk)).
Qed.

Lemma reason_pos x k : has_reason x k → pos x = k ∧ (k < length tr)%nat ∧ x ∈ var <$> tr.
Proof using I.
  intros [_ _ (t & rest & Hk & <- & _)]. split; [by apply pos_at |].
  split; [by eapply lookup_lt_Some |]. apply list_elem_of_fmap_2. by eapply list_elem_of_lookup_2.
Qed.

(** No clause has more literals than there are. *)
Lemma clause_size cr c : live (mem s) cr c → (length (c_lits c) <= 2 * length (assigns s))%nat.
Proof using I.
  intros Hl. pose proof (cl_nodup _ _ (inv_cls _ _ I) _ _ Hl) as Hnd.
  rewrite <- (length_fmap lit_x).
  transitivity (length (Z.of_nat <$> seq 0 (2 * length (assigns s))));
    [| by rewrite length_fmap, length_seq].
  apply submseteq_length, NoDup_submseteq.
  - apply NoDup_fmap_2; [| done]. intros [] []; simpl. congruence.
  - intros x (l & -> & Hin)%list_elem_of_fmap_1. apply list_elem_of_fmap.
    pose proof (cl_range _ _ (inv_cls _ _ I) _ _ l Hl Hin) as Hr%lit_ok_x. unfold nv in Hr.
    exists (Z.to_nat (lit_x l)). split; [lia |]. apply elem_of_seq. lia.
Qed.

Lemma rlits_size x k : has_reason x k → (length (rlits x) <= 2 * length (assigns s))%nat.
Proof using I. intros [_ (c & Hl & <-) _]. by eapply clause_size. Qed.

(** The literals entered from [r] at [j]: unmarked at the start, and assigned
    before [r]; the search starts at a literal over the variable of [p0]. *)
Fixpoint chain (st0 : Solver) (p0 : Lit) (fs : list (nat * Lit)) : Prop :=
  match fs with
  | [] => False
  | (_, p) :: fs =>
      match fs with
      | [] => var p = var p0
      | (j, r) :: _ => seen_at st0 (var p) = 0 ∧ rlits (var r) !! j = Some p ∧
          (pos (var p) < pos (var r))%nat ∧ chain st0 p0 fs
      end
  end.

Definition frame_ok (st : Solver) (f : nat * Lit) : Prop :=
  (∃ k, has_reason (var f.2) k) ∧ checked st (var f.2) f.1.

(** What is left to do for a frame is at most this many rounds. *)
Definition weight (i : nat) (p : Lit) : nat :=
  ((length (rlits (var p)) - i) * (2 * length (assigns s) + 2) ^ pos (var p) + 1)%nat.

Definition shrink_measure (x : Shrink) : nat :=
  (weight (sh_i x) (sh_p x) + sum_list_with (λ f, weight (S f.1) f.2) (sh_stack x))%nat.

Record ShInv (st0 : Solver) (p0 : Lit) (x : Shrink) : Prop := {
  sh_marked : marked st0 (sh_st x);
  sh_shape : Shape (sh_st x);
  sh_good : good (sh_st x);
  sh_two : ∀ y, seen_at (sh_st x) y = seen_at st0 y ∨ seen_at st0 y = 0 ∧ seen_at (sh_st x) y = 2;
  sh_chain : chain st0 p0 ((sh_i x, sh_p x) :: rev (sh_stack x));
  sh_frames : Forall (frame_ok (sh_st x)) ((sh_i x, sh_p x) :: sh_stack x) }.

Lemma log2_room m : (m + 2 <= 2 ^ (Nat.log2 m + 3))%nat.
Proof.
  rewrite Nat.pow_add_r. change (2 ^ 3)%nat with 8%nat.
  assert (0 < 2 ^ Nat.log2 m)%nat by (apply Nat.neq_0_lt_0, Nat.pow_nonzero; lia).
  destruct (Nat.eq_dec m O) as [-> | Hm]; [simpl; lia |].
  pose proof (Nat.log2_spec m ltac:(lia)) as [_ H1]. rewrite Nat.pow_succ_r' in H1. lia.
Qed.

Definition ShPost (st0 : Solver) (p0 : Lit) (r : Solver * bool) : Prop :=
  marked st0 r.1 ∧ good r.1 ∧ (r.2 = true → just r.1 (var p0)).

(** The next literal of the current reason is fine. *)
Lemma shrink_continue st0 p0 st stack i p l : ShInv st0 p0 (MkShrink st stack i p) →
  rlits (var p) !! i = Some l → okl st l →
  ShInv st0 p0 (MkShrink st stack (S i) p) ∧
  (shrink_measure (MkShrink st stack (S i) p) < shrink_measure (MkShrink st stack i p))%nat.
Proof using.
  intros [M S1 G S2 C F] Hi Ho. simpl in *. apply Forall_cons in F as [[Hr [H1 Hc]] F]. split.
  - split; simpl; try done.
    + apply Forall_cons_2; [| done]. split; [done |]. split; simpl in *; [lia |]. intros j k Hj Hk.
      destruct (decide (j = i)) as [-> | Hne]; [congruence | by apply (Hc j k); [lia |]].
  - unfold shrink_measure, weight. cbn [sh_i sh_p sh_stack]. apply lookup_lt_Some in Hi.
    assert (0 < (2 * length (assigns s) + 2) ^ pos (var p))%nat by (apply Nat.neq_0_lt_0, Nat.pow_nonzero; lia).
    replace (length (rlits (var p)) - i)%nat with (S (length (rlits (var p)) - S i)) by lia. lia.
Qed.

(** A literal [l] of the reason of [p] is entered. *)
Lemma shrink_enter st0 p0 st stack i p l : ShInv st0 p0 (MkShrink st stack i p) →
  rlits (var p) !! i = Some l → reason s (var l) ≠ CRef_Undef → seen_at st (var l) = 0 →
  ShInv st0 p0 (MkShrink st (stack ++ [(i, p)]) 1 l) ∧
  (shrink_measure (MkShrink st (stack ++ [(i, p)]) 1 l) < shrink_measure (MkShrink st stack i p))%nat.
Proof using I R.
  intros [M S1 G S2 C F] Hi Hrl Hz. simpl in *.
  pose proof F as [[[k Hr] [H1 Hc]] F']%Forall_cons. simpl in *.
  destruct (reason_pos _ _ Hr) as (Hpk & Hklt & _).
  assert (∃ j, (j < k)%nat ∧ tr !! j = Some (lit_neg l)) as (j & Hjk & Hj).
  { destruct (hr_lits _ _ Hr) as (t & rest & _ & _ & Er & Hrest). rewrite Er in Hi.
    apply Hrest. destruct i as [| i]; [lia |]. by eapply list_elem_of_lookup_2. }
  assert (pos (var l) = j) as Hpl by (rewrite <- var_neg; by apply pos_at).
  assert (has_reason (var l) j) as Hrj.
  { rewrite <- var_neg. apply reason_of; [done |]. by rewrite var_neg. }
  split.
  - split; simpl; try done.
    + rewrite rev_app_distr. simpl. split.
      * destruct (S2 (var l)) as [<- | [_ ?]]; [done | lia].
      * split; [done |]. split; [lia | done].
    + apply Forall_cons_2.
      * split; [by exists j |]. split; simpl; [done |]. intros a b Ha. lia.
      * apply Forall_app. split; [done |]. apply Forall_cons_2; [| by apply Forall_nil_2].
        split; [by exists k | done].
  - unfold shrink_measure, weight. cbn [sh_i sh_p sh_stack]. rewrite sum_list_with_app.
    cbn [sum_list_with foldr fst snd]. rewrite Hpl, Hpk.
    set (B := (2 * length (assigns s) + 2)%nat). apply lookup_lt_Some in Hi.
    pose proof (rlits_size _ _ Hrj) as Hsz.
    assert (B ^ S j <= B ^ k)%nat as Hpow by (apply Nat.pow_le_mono_r; lia).
    rewrite Nat.pow_succ_r' in Hpow.
    assert (0 < B ^ j)%nat by (apply Nat.neq_0_lt_0, Nat.pow_nonzero; lia).
    assert ((length (rlits (var l)) - 1) * B ^ j + 2 <= B * B ^ j)%nat by nia.
    replace (length (rlits (var p)) - i)%nat with (S (length (rlits (var p)) - S i)) by lia. lia.
Qed.

(** The reason of [p] is done: the search goes on at the literal that entered
    it, or ends. *)
Lemma shrink_leave st0 p0 st stack i p : ShInv st0 p0 (MkShrink st stack i p) →
  rlits (var p) !! i = None →
  let st' := mark_undef st 2 p in
  match last stack with
  | None => ShPost st0 p0 (st', true)
  | Some (j, r) => ShInv st0 p0 (MkShrink st' (removelast stack) (S j) r) ∧
      (shrink_measure (MkShrink st' (removelast stack) (S j) r) < shrink_measure (MkShrink st stack i p))%nat
  end.
Proof using I R.
  intros [M S1 G S2 C F] Hi st'. simpl in *.
  apply Forall_cons in F as [[[k Hr] Hc] F]. simpl in *.
  destruct (reason_pos _ _ Hr) as (Hpk & _ & Hin).
  pose proof (checked_just _ _ _ _ Hr Hc Hi) as HJ.
  destruct (mark_undef_spec st 2 p S1 Hin) as (M2 & Ho & Hp); [by left |].
  pose proof (good_mark st p S1 G Hin HJ) as G2.
  assert (marked st0 st') as M' by (by etrans).
  destruct stack as [| [j r] stack _] using rev_ind.
  { simpl in *. split; [done |]. split; [done |]. intros _.
    apply (just_mono st st'); [exact M2 |]. by rewrite <- C. }
  rewrite last_snoc, removelast_last. rewrite rev_app_distr in C. simpl in C.
  destruct C as (Hz & Hj & Hlt & C). apply Forall_app in F as [F [Fr _]%Forall_cons].
  destruct Fr as [Hrr [H1 Hcr]]. simpl in *. split.
  - split; simpl; try done.
    + by eapply shape_marked.
    + intros y. destruct (decide (y = var p)) as [-> | Hne].
      * right. split; [done |]. unfold st'. rewrite Hp. destruct (S2 (var p)) as [-> | [_ ->]]; by rewrite ?Hz.
      * unfold st'. rewrite Ho by done. apply S2.
    + apply Forall_cons_2.
      * split; [done |]. split; simpl; [lia |]. intros a b Ha Hb.
        destruct (decide (a = j)) as [-> | Hne].
        -- rewrite Hj in Hb. injection Hb as <-. right. right. unfold st'. rewrite Hp.
           destruct (S2 (var p)) as [-> | [_ ->]]; by rewrite ?Hz.
        -- apply (okl_mono st); [done |]. by apply (Hcr a b); [lia |].
      * eapply Forall_impl; [exact F |]. intros f [Hf1 Hf2]. split; [done |].
        exact (checked_mono st st' _ _ M2 Hf2).
  - unfold shrink_measure. cbn [sh_i sh_p sh_stack]. rewrite sum_list_with_app.
    cbn [sum_list_with foldr fst snd]. assert (0 < weight i p)%nat by (unfold weight; rewrite Nat.add_1_r; apply Nat.lt_0_succ). lia.
Qed.

Lemma shrink_step_spec st0 p0 x : ShInv st0 p0 x → ∃ r, shrink_step x = Some r ∧
  match r with
  | inl x' => ShInv st0 p0 x' ∧ (shrink_measure x' < shrink_measure x)%nat
  | inr b => ShPost st0 p0 b
  end.
Proof using I R.
  destruct x as [st stack i p]. intros HI. pose proof HI as [M S1 G S2 C F]. simpl in *.
  pose proof F as [[[k Hr] [H1 Hc]] F']%Forall_cons. simpl in *.
  destruct (act_reads st (sp_core _ S1)) as (_ & _ & _ & _ & Elv & Ere).
  destruct (hr_live _ _ Hr) as (c & Hl & Ec).
  destruct (act_deref st _ c (sp_core _ S1) Hl) as (c' & Ed & Ec').
  unfold shrink_step. rewrite Ere, Ed. cbn [mbind option_bind]. rewrite Ec', Ec.
  destruct (rlits (var p) !! i) as [l |] eqn:Ei.
  2:{ pose proof (shrink_leave _ _ _ _ _ _ HI Ei) as HL'. unfold seen_removable.
      destruct (last stack) as [[j r] |]; eexists; split; try done. }
  rewrite Elv, Ere. unfold seen_source, seen_removable, seen_failed.
  destruct ((level s (var l) =? 0) || _ || _) eqn:E1.
  { eexists. split; [done |]. eapply shrink_continue; [done | done |].
    apply orb_true_iff in E1 as [[E1 | E1]%orb_true_iff | E1]; apply Z.eqb_eq in E1; unfold okl; auto. }
  apply orb_false_iff in E1 as [[Hlv Hn1]%orb_false_iff Hn2]. apply Z.eqb_neq in Hlv, Hn1, Hn2.
  destruct ((reason s (var l) =? CRef_Undef) || _) eqn:E2.
  - eexists. split; [done |]. unfold ShPost. simpl.
    destruct (mark_failed_spec (stack ++ [(0%nat, p)]) st S1 G) as [M' G'].
    + intros e [He | ->%list_elem_of_singleton]%elem_of_app.
      * rewrite Forall_forall in F'. destruct (F' e He) as [[k' Hr'] _]. by eapply reason_pos.
      * by eapply reason_pos.
    + split; [by etrans | done].
  - apply orb_false_iff in E2 as [Hrl%Z.eqb_neq Hn3%Z.eqb_neq].
    eexists. split; [done |]. eapply shrink_enter; try done.
    pose proof (sp_vals _ S1 (var l)). lia.
Qed.

(** [litRedundant] always returns; when it says yes, every other literal of the
    reason is marked or of level 0. *)
Lemma litRedundant_spec st l k : Shape st → good st → has_reason (var l) k → seen_at st (var l) = 1 →
  ∃ st' b, litRedundant st l = Some (st', b) ∧ marked st st' ∧ good st' ∧
    (b = true → just st' (var l)).
Proof using I R.
  intros HS HG Hr Hs1. destruct (reason_pos _ _ Hr) as (Hp & Hk & _).
  destruct (iter2_spec shrink_step (ShInv st l) (ShPost st l) shrink_measure
    (shrink_step_spec st l) (shrink_fuel (core st)) (MkShrink st [] 1 l)) as ([st' b] & E & M & G & J).
  - split; simpl; try done; [by left |]. apply Forall_cons_2; [| by apply Forall_nil_2].
    split; [by exists k |]. split; [done |]. simpl. lia.
  - destruct (act_fields _ _ (sp_core _ HS)) as (Ea & _ & Et & _).
    unfold shrink_measure, weight, shrink_fuel. simpl sh_i. simpl sh_p. simpl sh_stack. rewrite Ea, Et, Hp.
    pose proof (rlits_size _ _ Hr) as Hsz. set (A := length (assigns s)) in *.
    set (B := (2 * A + 2)%nat).
    assert (0 < B ^ k)%nat by (apply Nat.neq_0_lt_0, Nat.pow_nonzero; lia).
    assert ((length (rlits (var l)) - 1) * B ^ k + 1 <= B ^ S k)%nat by (rewrite Nat.pow_succ_r'; nia).
    assert (B ^ S k <= B ^ length tr)%nat by (apply Nat.pow_le_mono_r; lia).
    assert (B <= 2 ^ (Nat.log2 (2 * A) + 3))%nat as HB by apply log2_room.
    assert (B ^ length tr <= 2 ^ ((Nat.log2 (2 * A) + 3) * length tr))%nat.
    { rewrite Nat.pow_mul_r. by apply Nat.pow_le_mono_l. }
    assert (2 ^ ((Nat.log2 (2 * A) + 3) * length tr) < 2 ^ (S (length tr) * (Nat.log2 (2 * A) + 3)))%nat
      by (apply Nat.pow_lt_mono_r; lia).
    unfold sum_list_with. lia.
  - exists st', b. unfold litRedundant. rewrite E. done.
Qed.

(** ** Minimisation *)

(** [ls'] is what is left of [ls]; what is gone is justified. *)
Definition minimized (st' : Solver) (ls ls' : list Lit) : Prop :=
  ls' `sublist_of` ls ∧ ∀ l, l ∈ ls → l ∈ ls' ∨ just st' (var l).

Lemma minimized_cons (b : bool) st' l ls ls' : minimized st' ls ls' →
  (b = false → just st' (var l)) → minimized st' (l :: ls) (if b then l :: ls' else ls').
Proof using.
  intros [H1 H2] HJ. split.
  - destruct b; [by apply sublist_skip | by apply sublist_cons].
  - intros k [-> | Hk]%elem_of_cons.
    + destruct b; [left; by left | right; auto].
    + destruct (H2 k Hk) as [? | ?]; [left | by right]. by destruct b; [right |].
Qed.

Lemma reason_at l : lit_neg l ∈ tr → reason s (var l) ≠ CRef_Undef → ∃ k, has_reason (var l) k.
Proof using R.
  intros (k & Hk)%list_elem_of_lookup_1 Hr. exists k. rewrite <- var_neg. apply reason_of; [done |].
  by rewrite var_neg.
Qed.

Lemma minimize_deep_spec ls : ∀ st, Shape st → good st →
  (∀ l, l ∈ ls → lit_neg l ∈ tr ∧ seen_at st (var l) = 1) →
  ∃ st' ls', minimize_deep st ls = Some (st', ls') ∧ marked st st' ∧ good st' ∧ minimized st' ls ls'.
Proof using I R.
  induction ls as [| l ls IH]; intros st HS HG Hls.
  { exists st, []. split; [done |]. split; [done |]. split; [done |]. split; [done |].
    intros l Hl. by apply elem_of_nil in Hl. }
  destruct (Hls l ltac:(by left)) as [Hl Hs1].
  destruct (act_reads st (sp_core _ HS)) as (_ & _ & _ & _ & _ & Ere).
  assert (∃ st1 b, keep_deep st l = Some (st1, b) ∧ marked st st1 ∧ good st1 ∧
    (b = false → just st1 (var l))) as (st1 & b & Eb & M1 & G1 & J1).
  { unfold keep_deep. rewrite Ere. destruct (Z.eqb_spec (reason s (var l)) CRef_Undef) as [E | E].
    - by exists st, true.
    - destruct (reason_at l Hl E) as [k Hr].
      destruct (litRedundant_spec st l k HS HG Hr Hs1) as (st1 & b & -> & M1 & G1 & J1).
      exists st1, (negb b). split; [done |]. split; [done |]. split; [done |].
      intros Hb%negb_false_iff. auto. }
  destruct (IH st1) as (st' & ls' & E & M & G & Hm).
  - by eapply shape_marked.
  - done.
  - intros k Hk. destruct (Hls k ltac:(by right)) as [? Hk1]. split; [done |].
    destruct (mk_seen _ _ M1 (var k)) as [-> | (? & _)]; [done | congruence].
  - exists st', (if b then l :: ls' else ls'). cbn [minimize_deep]. rewrite Eb. cbn [mbind option_bind].
    rewrite E. split; [done |]. split; [by etrans |]. split; [done |].
    apply minimized_cons; [done |]. intros Hb. by apply (just_mono st1), J1.
Qed.

Lemma minimize_basic_spec ls st : Shape st → (∀ x, seen_at st x = 0 ∨ seen_at st x = 1) →
  (∀ l, l ∈ ls → lit_neg l ∈ tr) →
  ∃ ls', minimize_basic st ls = Some ls' ∧ minimized st ls ls'.
Proof using I R.
  intros HS HV. destruct (act_reads st (sp_core _ HS)) as (_ & _ & _ & _ & Elv & Ere).
  induction ls as [| l ls IH]; intros Hls.
  { exists []. split; [done |]. split; [done |]. intros l Hl. by apply elem_of_nil in Hl. }
  destruct IH as (ls' & E & Hm); [intros; apply Hls; by right |].
  assert (∃ b, keep_basic st l = Some b ∧ (b = false → just st (var l))) as (b & Eb & Hb).
  { unfold keep_basic. rewrite Ere. destruct (Z.eqb_spec (reason s (var l)) CRef_Undef) as [Er | Er].
    - by exists true.
    - destruct (reason_at l (Hls l ltac:(by left)) Er) as [k Hr].
      destruct (hr_live _ _ Hr) as (c & Hc & Ec).
      destruct (act_deref st _ c (sp_core _ HS) Hc) as (c' & Ed & Ec'). rewrite Ed.
      eexists. split; [reflexivity |]. intros Hex. split; [by exists k |]. intros j q' Hj Hq.
      rewrite Ec', Ec in Hex. unfold okl.
      destruct (Z.eq_dec (level s (var q')) 0) as [| Hlv]; [by left | right; left].
      destruct (HV (var q')) as [Hz | ?]; [| done].
      apply not_true_iff_false in Hex. destruct Hex. apply existsb_exists. exists q'. split.
      + apply list_elem_of_In. apply list_elem_of_lookup_2 with (i := (j - 1)%nat).
        rewrite lookup_drop. by replace (1 + (j - 1))%nat with j by lia.
      + rewrite is_seen_at, Hz, Elv. simpl. apply Z.ltb_lt.
        destruct (hr_lits _ _ Hr) as (t & rest & _ & _ & Erl & Hrest). rewrite Erl in Hq.
        destruct (Hrest q') as (i & _ & Hi).
        { destruct j as [| j]; [lia |]. by eapply list_elem_of_lookup_2. }
        pose proof (pos_level i _ Hi) as Hp. rewrite var_neg in Hp. lia. }
  exists (if b then l :: ls' else ls'). cbn [minimize_basic]. rewrite Eb. cbn [mbind option_bind].
  rewrite E. split; [done |]. by apply minimized_cons.
Qed.

Lemma ai_shape st tail pathC m : AI st tail pathC m → Shape st ∧ good st.
Proof using.
  intros HA. split.
  - split; [apply HA | apply HA |]. intros x. destruct (ai_vals _ _ _ _ HA x); lia.
  - intros x Hx. destruct (ai_vals _ _ _ _ HA x); lia.
Qed.

Lemma tail_seen st tail pathC m l : AI st tail pathC m → l ∈ tail →
  lit_neg l ∈ tr ∧ seen_at st (var l) = 1.
Proof using.
  intros HA Hl. destruct (ai_tail _ _ _ _ HA l Hl) as (H1 & H2 & _). split; [done |].
  rewrite is_seen_at in H2. destruct (ai_vals _ _ _ _ HA (var l)) as [E |]; [| done].
  by rewrite E in H2.
Qed.

Lemma minimize_spec st tail pathC m p : AI st tail pathC m →
  ∃ st' tail', minimize st (lit_neg p :: tail) = Some (st', lit_neg p :: tail') ∧
    marked st st' ∧ good st' ∧ minimized st' tail tail'.
Proof using I R.
  intros HA. destruct (ai_shape _ _ _ _ HA) as [HS HG].
  unfold minimize. simpl. rewrite drop_0. destruct (ccmin_mode (params st) =? 2); [| destruct (_ =? 1)].
  - destruct (minimize_deep_spec tail st HS HG) as (st' & ls' & E & M & G & Hm).
    { intros l Hl. by eapply tail_seen. }
    rewrite E. by exists st', ls'.
  - destruct (minimize_basic_spec tail st HS (ai_vals _ _ _ _ HA)) as (ls' & E & Hm).
    { intros l Hl. by eapply tail_seen. }
    rewrite E. by exists st, ls'.
  - exists st, tail. split; [done |]. split; [done |]. split; [done |]. split; [done | by left].
Qed.

(** In an assignment that falsifies the minimised clause the marked literals are
    true, by induction over the trail. *)
Lemma marked_true st st' tail tail' p k σ : Resolved st tail p k → marked st st' → good st' →
  minimized st' tail tail' → Sat σ s → (∀ l, l ∈ tail' → lit_true σ l = false) →
  ∀ i t, tr !! i = Some t → seen_at st' (var t) = 1 ∨ seen_at st' (var t) = 2 → lit_true σ t = true.
Proof using I R HL.
  intros HR M G [_ Hm] HS Hf. pose proof (rs_ai _ _ _ _ HR) as HA.
  induction i as [i IH] using lt_wf_ind. intros t Ht Hsn.
  assert (lit_neg t ∈ tail' ∨ just st' (var t)) as [Hin | HJ].
  { destruct Hsn as [Hs1 | Hs2]; [| right; by apply G].
    assert (seen_at st (var t) = 1) as Hs1'.
    { destruct (mk_seen _ _ M (var t)) as [<- | (_ & [? | ?])]; congruence || lia. }
    assert (is_seen st (var t) = true) as Hsn by (rewrite is_seen_at, Hs1'; done).
    rewrite <- (var_neg t). apply Hm. apply (ai_low _ _ _ _ HA); [by eapply list_elem_of_lookup_2 | done |].
    destruct (Z.ltb_spec (level s (var t)) (Z.of_nat (decisionLevel s))) as [| Hge]; [done |].
    apply (pos_current i t Ht) in Hge.
    destruct (ai_seen _ _ _ _ HA _ Hsn) as (i' & u & Hi' & Hv & Hlt & _).
    destruct (trail_pos _ _ _ T i' i _ _ Hi' Ht Hv) as [-> _].
    assert (0 < 0) as Habs by (apply (count_pos _ _ _ _ HA); exists i, t; auto). lia. }
  - apply Hf in Hin. rewrite lit_true_neg in Hin. by apply negb_false_iff.
  - destruct HJ as [[k' Hr] Hok]. destruct (hr_lits _ _ Hr) as (u & rest & Hu & Hv & Er & Hrest).
    destruct (trail_pos _ _ _ T k' i _ _ Hu Ht Hv) as [-> ->].
    destruct (hr_live _ _ Hr) as (c & Hl & Ec).
    destruct (sat_live σ s _ c HS Hl) as (l & Hl' & Htrue). rewrite Ec, Er in Hl'.
    apply elem_of_cons in Hl' as [-> | Hl']; [done |]. exfalso.
    destruct (Hrest l Hl') as (j & Hj & Hneg).
    assert (lit_true σ l = false) as Hfl; [| congruence].
    apply list_elem_of_lookup_1 in Hl' as [a Ha].
    destruct (Hok (S a) l) as [H0 | Hm']; [lia | by rewrite Er | |].
    + apply (false_level0 σ j); [done | done | lia].
    + apply negb_true_iff. rewrite <- lit_true_neg. apply (IH j Hj); [done |]. by rewrite var_neg.
Qed.

Lemma minimized_entails st st' tail tail' p k : Resolved st tail p k → marked st st' → good st' →
  minimized st' tail tail' → entails s (lit_neg p :: tail').
Proof using I R HL.
  intros HR M G Hm σ HS.
  destruct (existsb (lit_true σ) (lit_neg p :: tail')) eqn:E.
  { apply existsb_exists in E as (l & Hl%list_elem_of_In & Ht). by exists l. }
  exfalso. assert (∀ l, l ∈ lit_neg p :: tail' → lit_true σ l = false) as Hf.
  { intros l Hl. apply not_true_iff_false. intros Ht. apply not_true_iff_false in E.
    apply E, existsb_exists. exists l. by rewrite <- list_elem_of_In. }
  destruct (rs_entails _ _ _ _ HR σ HS) as (l & Hl & Ht).
  apply elem_of_cons in Hl as [-> | Hl]; [rewrite Hf in Ht by left; done |].
  pose proof (rs_ai _ _ _ _ HR) as HA. destruct (tail_seen _ _ _ _ l HA Hl) as [Hneg Hs1].
  apply list_elem_of_lookup_1 in Hneg as [i Hi].
  assert (lit_true σ (lit_neg l) = true) as Hc.
  { eapply (marked_true st st' tail tail' p k σ HR M G Hm HS); [| exact Hi |].
    - intros. apply Hf. by right.
    - left. rewrite var_neg. destruct (mk_seen _ _ M (var l)) as [-> | (? & _)]; [done | congruence]. }
  rewrite lit_true_neg, Ht in Hc. done.
Qed.

(** ** The backtrack level *)

Lemma max_level_spec (st : Solver) ls k : (∀ x, level (core st) x = level s x) → ∀ m i,
  (m < i)%nat → (1 <= m)%nat → (i + k = length ls)%nat →
  (∀ j, (1 <= j < i)%nat → level s (var (ls !!! j)) <= level s (var (ls !!! m))) →
  let m' := max_level (core st) ls m i k in
  (1 <= m' < length ls)%nat ∧
  ∀ j, (1 <= j < length ls)%nat → level s (var (ls !!! j)) <= level s (var (ls !!! m')).
Proof using.
  intros Elv. induction k as [| k IH]; intros m i Hmi Hm Hlen Hmax; simpl.
  - split; [lia |]. intros j Hj. apply Hmax. lia.
  - rewrite !Elv. apply IH; [case_match_goal; lia | case_match_goal; lia | lia |].
    intros j Hj. destruct (Z.ltb_spec (level s (var (ls !!! m))) (level s (var (ls !!! i)))) as [Hlt | Hge].
    + destruct (decide (j = i)) as [-> |]; [lia |]. specialize (Hmax j ltac:(lia)). lia.
    + destruct (decide (j = i)) as [-> |]; [lia |]. apply Hmax. lia.
Qed.

(** The clause after the swap, and the level of its second literal. *)
Definition bt_of (ls : list Lit) (bt : Z) : Prop :=
  match ls with
  | [] => False
  | [_] => bt = 0
  | _ :: l2 :: _ => level s (var l2) = bt
  end.

Lemma find_btlevel_spec (st : Solver) x tail : (∀ x, level (core st) x = level s x) →
  ∃ tail' bt, find_btlevel (core st) (x :: tail) = (x :: tail', bt) ∧ tail' ≡ₚ tail ∧
    bt_of (x :: tail') bt ∧ ∀ l, l ∈ tail' → level s (var l) <= bt.
Proof using.
  intros Elv. destruct tail as [| y rest].
  { exists [], 0. split; [done |]. split; [done |]. split; [done |]. intros l Hl. by apply elem_of_nil in Hl. }
  set (ls := x :: y :: rest).
  assert (find_btlevel (core st) ls = let m := max_level (core st) ls 1 2 (length ls - 2) in
    (<[1%nat := ls !!! m]> (<[m := ls !!! 1%nat]> ls), level (core st) (var (ls !!! m)))) as -> by done.
  destruct (max_level_spec st ls (length ls - 2) Elv 1 2) as [Hm Hmax]; [lia | lia | simpl; lia | |].
  { intros j Hj. by replace j with 1%nat by lia. }
  set (m := max_level _ _ _ _ _) in *. cbv zeta. rewrite Elv.
  assert (<[1%nat := ls !!! m]> (<[m := ls !!! 1%nat]> ls) ≡ₚ ls) as Hp.
  { pose proof (swap_perm ls m 1%nat ltac:(lia) ltac:(simpl; lia)) as Hp. exact Hp. }
  destruct m as [| m]; [lia |]. change (ls !!! S m) with ((y :: rest) !!! m).
  change (<[1%nat := (y :: rest) !!! m]> (<[S m := ls !!! 1%nat]> ls)) with
    (x :: <[0%nat := (y :: rest) !!! m]> (<[m := y]> (y :: rest))).
  eexists _, _. split; [done |].
  assert (<[0%nat := (y :: rest) !!! m]> (<[m := y]> (y :: rest)) ≡ₚ y :: rest) as Hp'.
  { by apply Permutation_cons_inv with (a := x). }
  split; [done |]. split.
  - destruct (<[m := y]> (y :: rest)) as [| z zs] eqn:E; [by destruct m | done].
  - intros l Hl. rewrite Hp' in Hl. apply list_elem_of_lookup_1 in Hl as [j Hj].
    specialize (Hmax (S j)). simpl in Hmax. rewrite (list_lookup_total_correct _ _ _ Hj) in Hmax.
    apply Hmax. apply lookup_lt_Some in Hj. simpl in Hj. lia.
Qed.

(** ** [analyze] *)

Lemma zget_clear (l : list Z) x y : zget 0 (zset l x 0) y = if decide (x = y) then 0 else zget 0 l y.
Proof using.
  case_decide as Hd; [subst y | by apply zget_zset_ne].
  destruct (decide (0 <= x < Z.of_nat (length l))) as [Hr | Hr]; [by apply zget_zset_eq |].
  unfold zget, zset. destruct (Z.ltb_spec x 0); [done |].
  rewrite list_insert_ge by lia. by rewrite lookup_ge_None_2 by lia.
Qed.

Lemma clear_seen_spec ls : ∀ st, let st' := clear_seen st ls in
  AFrame st st' ∧ ∀ x, seen_at st' x = if decide (x ∈ var <$> ls) then 0 else seen_at st x.
Proof using.
  induction ls as [| l ls IH]; intros st; simpl; [done |].
  destruct (IH (set_seen st (var l) 0)) as [F H]. split.
  - etrans; [apply set_seen_frame | exact F].
  - intros x. rewrite H. unfold seen_at. simpl. rewrite zget_clear.
    repeat case_decide; try done; rewrite elem_of_cons in *; intuition congruence.
Qed.

(** What [analyze] gives: an entailed clause of false literals, one of them of
    the current level, in front; the second has the backtrack level, which no
    other exceeds; and [seen] is clear again. *)
Record Learnt (st st' : Solver) (ls : list Lit) (bt : Z) : Prop := {
  le_frame : AFrame st st';
  le_clear : ∀ x, seen_at st' x = 0;
  le_entails : entails s ls;
  le_nodup : NoDup ls;
  le_head : ∃ p tail k, ls = lit_neg p :: tail ∧ tr !! k = Some p ∧ (L <= k)%nat ∧
    ∀ l, l ∈ tail → lit_neg l ∈ tr ∧ 0 < level s (var l) <= bt;
  le_bt : 0 <= bt < Z.of_nat (decisionLevel s) ∧ bt_of ls bt }.

Lemma analyze_spec st confl c : core st = s → learnts_ok st → seen_size st →
  (∀ x, seen_at st x = 0) → live (mem s) confl c → (∀ l, l ∈ c_lits c → lit_neg l ∈ tr) →
  ∃ st' ls bt, analyze st confl = Some (st', ls, bt) ∧ Learnt st st' ls bt.
Proof using I R HL.
  intros Ecore Hls Hsz Hz Hl Hf.
  assert (∀ x, is_seen st x = false) as Hns by (intros x; by rewrite is_seen_at, Hz).
  assert (Round st [] 0 lit_Undef confl (length tr) c) as HR.
  { split; try done.
    - split; rewrite ?Ecore; try done.
      + intros x. left. apply Hz.
      + intros x. by rewrite Hns.
      + intros l Hl'. by apply elem_of_nil in Hl'.
      + apply NoDup_nil_2.
      + intros t _. by rewrite Hns.
      + rewrite (seen_lits_same _ (λ _, false)) by auto. unfold seen_lits.
        by induction (drop L tr) as [| t l' IHl]; [| rewrite filter_cons_False].
    - intros l Hl'. destruct (list_elem_of_lookup_1 _ _ (Hf l Hl')) as [i Hi]. exists i.
      split; [done | by eapply lookup_lt_Some].
    - right. destruct (conflict_late _ _ _ _ I Hl Hf) as (l & i & Hin & Hi & Hlv). exists l, i.
      split; [done |]. split; [done |]. by apply (lvl_at_last lims Hs L i HL).
    - intros σ HS. right. by apply (sat_live σ s confl). }
  unfold analyze. rewrite Ecore.
  destruct (analyze_loop_spec (S (length tr)) _ _ _ _ _ _ _ HR ltac:(lia)) as
    (st1 & tail & p & k & -> & F1 & HRes). cbn [mbind option_bind].
  pose proof (rs_ai _ _ _ _ HRes) as HA.
  set (st1' := st1 <| analyze_toclear := lit_neg p :: tail |>).
  assert (AI st1' tail 0 k) as HA' by (by destruct HA).
  destruct (minimize_spec st1' tail 0 k p HA') as (st2 & tail2 & -> & M2 & G2 & Hmin).
  cbn [mbind option_bind]. set (st3 := count_literals _ _ _).
  pose proof (mk_frame _ _ M2) as F2.
  assert (AFrame st st3) as F3.
  { assert (AFrame st1 st1') as F11 by (by split).
    assert (AFrame st st2) as F12 by (etrans; [exact F1 |]; etrans; [exact F11 | exact F2]).
    destruct F12. by split. }
  destruct (act_reads st3) as (_ & _ & _ & _ & Elv3 & _).
  { rewrite <- Ecore. apply F3. }
  destruct (find_btlevel_spec st3 (lit_neg p) tail2 Elv3) as (tail3 & bt & -> & Hperm & Hbt & Hmax).
  destruct (clear_seen_spec (analyze_toclear st3) st3) as [F4 Hclear].
  eexists _, _, _. split; [done |].
  pose proof (minimized_entails st1' st2 tail tail2 p k ltac:(by destruct HRes) M2 G2 Hmin) as Hent.
  assert (∀ l, l ∈ tail3 → l ∈ tail) as Hsub.
  { intros l Hl'. rewrite Hperm in Hl'. eapply elem_of_sublist; [exact Hl' | apply Hmin]. }
  assert (∀ l, l ∈ tail3 → 0 < level s (var l) < Z.of_nat (decisionLevel s)) as Hlev.
  { intros l Hl'%Hsub. destruct (ai_tail _ _ _ _ HA l Hl') as (_ & Hsn & Hlt).
    destruct (ai_seen _ _ _ _ HA _ Hsn) as (_ & _ & _ & _ & _ & ?). lia. }
  pose proof dl_pos.
  split.
  - etrans; [exact F3 | exact F4].
  - intros x. rewrite Hclear. case_decide as Hd; [done |].
    destruct (mk_clear _ _ M2) as (more & Ec & Hc).
    change (analyze_toclear st3) with (analyze_toclear st2) in Hd. rewrite Ec, fmap_app in Hd.
    change (seen_at st3 x) with (seen_at st2 x).
    destruct (Z.eq_dec (seen_at st2 x) (seen_at st1' x)) as [-> | Hne].
    + destruct (ai_vals _ _ _ _ HA' x) as [| H1]; [done |]. exfalso. apply Hd.
      assert (is_seen st1' x = true) as Hsn by (by rewrite is_seen_at, H1).
      destruct (ai_seen _ _ _ _ HA' _ Hsn) as (i & t & Hi & <- & Hik & _).
      apply elem_of_app. left. right. rewrite <- var_neg. apply list_elem_of_fmap_2.
      apply (ai_low _ _ _ _ HA'); [by eapply list_elem_of_lookup_2 | done |].
      destruct (Z.ltb_spec (level s (var t)) (Z.of_nat (decisionLevel s))) as [| Hge]; [done |].
      apply (pos_current i t Hi) in Hge.
      assert (0 < 0) by (apply (count_pos _ _ _ _ HA'); exists i, t; auto). lia.
    + exfalso. apply Hd, elem_of_app. right. by apply Hc.
  - intros σ HS. destruct (Hent σ HS) as (l & Hl' & Ht). exists l. split; [| done].
    by rewrite Hperm.
  - apply NoDup_cons. split.
    + intros Hin. destruct (Hlev _ Hin) as [_ Hlt]. rewrite var_neg in Hlt.
      pose proof (proj1 (pos_current k p (rs_at _ _ _ _ HRes)) (rs_current _ _ _ _ HRes)). lia.
    + rewrite Hperm. eapply sublist_NoDup; [apply HA | apply Hmin].
  - exists p, tail3, k. split; [done |]. split; [apply HRes |]. split; [apply HRes |].
    intros l Hl'. split; [| specialize (Hlev l Hl'); specialize (Hmax l Hl'); lia].
    by apply (ai_tail _ _ _ _ HA), Hsub.
  - split; [| done]. destruct tail3 as [| l2 rest]; simpl in Hbt; [lia |].
    specialize (Hlev l2 ltac:(by left)). lia.
Qed.
End Analysis.
