(* ===== verification/FinalSpec.v ===== *)
(** * Correctness of [analyzeFinal]

    The conflict set is a clause that every satisfying assignment of the clauses
    and of the literals of level 0 satisfies; besides the given literal it only
    holds negations of literals that were assigned without a reason above level
    0, which during the search over the assumptions are assumptions. *)
From Stdlib Require Import SpecFloat.
From S2P Require Import Prelude Lit UnitProp Vec Heap Alloc Double Clause Solver Propagate PropCheck.
From S2P Require Import Setup SetupSpec Reasons Analyze AnalyzeSpec.

(** A literal assigned without a reason at a level above 0. *)
Definition decided (s : Core) (t : Lit) : Prop :=
  ∃ i, trail s !! i = Some t ∧ reason s (var t) = CRef_Undef ∧ (0 < lvl_at (trail_lim s) i)%nat.

Section Final.
Context (assumps : list Lit) (s : Core) (q lim0 : nat) (P : Lit).
Hypothesis I : Inv q s.
Hypothesis R : RInv assumps s.
Hypothesis H0 : trail_lim s !! 0%nat = Some lim0.
Hypothesis HP : P ∈ trail s.

#[local] Abbreviation tr := (trail s).
#[local] Abbreviation lims := (trail_lim s).

Let T : TrailOk (nv s) (assigns s) tr := inv_trail _ _ I.

Lemma above_lim0 i : (lim0 <= i)%nat ↔ (0 < lvl_at lims i)%nat.
Proof using I H0. pose proof (lvl_at_below lims (inv_lims _ _ I) 0 lim0 i H0). lia. Qed.

(** What [analyzeFinal] writes. *)
Definition final_frame (st st' : Solver) : Prop :=
  ∃ sn cf, st' = (st <| seen := sn |>) <| conflict := cf |> ∧ length sn = length (seen st).

#[local] Instance final_frame_preorder : PreOrder final_frame.
Proof.
  split.
  - intros st. exists (seen st), (conflict st). split; [by destruct st | done].
  - intros s1 s2 s3 (n1 & c1 & -> & E1) (n2 & c2 & -> & E2). exists n2, c2.
    split; [done |]. simpl in E2. congruence.
Qed.

(** The state when the positions from [i] on have been looked at. *)
Record Fin (st : Solver) (i : nat) : Prop := {
  fi_core : core st = s;
  fi_size : seen_size st;
  fi_wf : IntMap.set_wf lit_x (conflict st);
  fi_in : P ∈ IntMap.xs (conflict st);
  fi_lits : ∀ l, l ∈ IntMap.xs (conflict st) → l = P ∨ decided s (lit_neg l);
  fi_seen : ∀ x, is_seen st x = true → x = var P ∨
    ∃ j t, tr !! j = Some t ∧ var t = x ∧ (lim0 <= j < i)%nat;
  fi_sat : ∀ σ, Sat σ s → clause_true σ (IntMap.xs (conflict st)) ∨
    ∃ j t, tr !! j = Some t ∧ (j < i)%nat ∧ is_seen st (var t) = true ∧ lit_true σ t = false }.

Lemma trail_var t : t ∈ tr → 0 <= var t < nv s.
Proof using I. apply (tr_range _ _ _ T). Qed.

(** Marking the literals of a reason. *)
Definition mark_level (st : Solver) (l : Lit) : Solver :=
  if 0 <? level (core st) (var l) then set_seen st (var l) 1 else st.

Lemma mark_levels_spec ls : ∀ st, core st = s → seen_size st → (∀ l, l ∈ ls → lit_neg l ∈ tr) →
  let st' := foldl mark_level st ls in
  core st' = s ∧ seen_size st' ∧ final_frame st st' ∧ conflict st' = conflict st ∧
  ∀ x, is_seen st' x = true ↔ is_seen st x = true ∨ ∃ l, l ∈ ls ∧ 0 < level s (var l) ∧ var l = x.
Proof using I R H0 HP.
  induction ls as [| l ls IH]; intros st Ec Hs Hls.
  { simpl. do 4 (split; [done |]). intros x. split; [by left |].
    intros [? | (l & Hl & _)]; [done | by apply elem_of_nil in Hl]. }
  simpl. assert (0 <= var l < nv (core st)) as Hx.
  { rewrite Ec, <- var_neg. apply trail_var, Hls. by left. }
  unfold mark_level at 2 4 6 8 10. rewrite Ec. destruct (Z.ltb_spec 0 (level s (var l))) as [Hlt | Hge].
  - destruct (IH (set_seen st (var l) 1)) as (A1 & A2 & A3 & A4 & A5); [done | | |].
    + unfold seen_size in *. simpl. by rewrite length_zset.
    + intros. apply Hls. by right.
    + split; [done |]. split; [done |]. split.
      { etrans; [| exact A3]. exists (zset (seen st) (var l) 1), (conflict st).
        split; [by destruct st | apply length_zset]. }
      split; [done |]. intros x. rewrite A5, is_seen_set by done. setoid_rewrite elem_of_cons.
      case_decide as Hd.
      * split; [| by left]. intros _. right. exists l. auto.
      * split; [naive_solver |]. intros [? | (k & [-> | ?] & ? & ?)]; [by left | done | right; eauto].
  - destruct (IH st) as (A1 & A2 & A3 & A4 & A5); [done | done | |].
    + intros. apply Hls. by right.
    + do 4 (split; [done |]). intros x. rewrite A5. setoid_rewrite elem_of_cons.
      split; [naive_solver |]. intros [? | (k & [-> | ?] & ? & ?)]; [by left | lia | right; eauto].
Qed.

(** A literal of the trail at a position above level 0. *)
Lemma final_step_spec st i t : Fin st (S i) → tr !! i = Some t → (lim0 <= i)%nat →
  ∃ st', final_step st t = Some st' ∧ Fin st' i ∧ final_frame st st'.
Proof using I R H0 HP.
  intros [Ec Hsz Hw Hin Hlits Hsn Hsat] Hi Hlim. unfold final_step.
  assert (0 <= var t < nv (core st)) as Hx.
  { rewrite Ec. eapply trail_var, list_elem_of_lookup_2, Hi. }
  assert (0 <= lit_x (lit_neg t)) as Hxt.
  { assert (lit_ok (nv s) (lit_neg t)) as Hok%lit_ok_x; [| lia].
    eapply lit_ok_neg, (tr_range _ _ _ T), list_elem_of_lookup_2, Hi. }
  destruct (is_seen st (var t)) eqn:Et.
  2:{ exists st. split; [done |]. split; [| done]. split; try done.
      - intros x Hx'. destruct (Hsn x Hx') as [? | (j & u & Hj & Hv & Hr)]; [by left | right].
        exists j, u. split; [done |]. split; [done |].
        destruct (decide (j = i)) as [-> |]; [| lia]. rewrite Hi in Hj. injection Hj as ->. congruence.
      - intros σ HS. destruct (Hsat σ HS) as [? | (j & u & Hj & Hr & Hs' & Hf)]; [by left | right].
        exists j, u. split; [done |]. split; [| done].
        destruct (decide (j = i)) as [-> |]; [| lia]. rewrite Hi in Hj. injection Hj as ->. congruence. }
  rewrite Ec. destruct (Z.eqb_spec (reason s (var t)) CRef_Undef) as [Er | Er].
  - (* a decision *)
    cbn [mbind option_bind]. set (st1 := conflict_insert st (lit_neg t)).
    eexists. split; [done |]. split.
    2:{ exists (zset (seen st) (var t) 0), (conflict st1). split; [by destruct st | apply length_zset]. }
    assert (∀ l, l ∈ IntMap.xs (conflict st1) ↔ l = lit_neg t ∨ l ∈ IntMap.xs (conflict st)) as Hel.
    { intros l. by apply IntMap.set_insert_elem. }
    assert (∀ x, is_seen (set_seen st1 (var t) 0) x = if decide (var t = x) then false else is_seen st x) as Hset.
    { intros x. by apply (is_seen_set st (var t) 0). }
    split; try done.
    + unfold seen_size in *. simpl. by rewrite length_zset.
    + apply IntMap.set_insert_wf; [| done | done]. intros [] []; simpl; congruence.
    + apply Hel. by right.
    + intros l [-> | Hl]%Hel; [right | by apply Hlits]. rewrite lit_neg_involutive.
      exists i. split; [done |]. split; [done |]. by apply above_lim0.
    + intros x. rewrite Hset. case_decide as Hd; [done |]. intros Hx'.
      destruct (Hsn x Hx') as [? | (j & u & Hj & Hv & Hr)]; [by left | right].
      exists j, u. split; [done |]. split; [done |].
      destruct (decide (j = i)) as [-> |]; [| lia]. rewrite Hi in Hj. injection Hj as ->. done.
    + intros σ HS. destruct (Hsat σ HS) as [(l & Hl & Ht) | (j & u & Hj & Hr & Hs' & Hf)].
      * left. exists l. split; [| done]. apply Hel. by right.
      * destruct (decide (j = i)) as [-> |].
        -- left. rewrite Hi in Hj. injection Hj as ->. exists (lit_neg u).
           split; [apply Hel; by left | by rewrite lit_true_neg, Hf].
        -- right. exists j, u. split; [done |]. split; [lia |]. split; [| done].
           rewrite Hset, decide_False; [done |]. intros Hv.
           by destruct (trail_pos _ _ _ T i j _ _ Hi Hj Hv).
  - (* a literal with a reason *)
    destruct (ri_reason _ _ R i t Hi Er) as (c & rest & Hl & Ecl & Hrest).
    pose proof (proj1 Hl) as Ed. unfold ca_deref. unfold mem in Ed. rewrite Ed. cbn [mbind option_bind].
    rewrite Ecl. simpl drop. rewrite drop_0.
    destruct (mark_levels_spec rest st Ec Hsz) as (A1 & A2 & A3 & A4 & A5).
    { intros l (j & _ & Hj)%Hrest. by eapply list_elem_of_lookup_2. }
    fold (mark_level). change (foldl _ st rest) with (foldl mark_level st rest).
    set (st1 := foldl mark_level st rest) in *. eexists. split; [done |]. split.
    2:{ etrans; [exact A3 |]. exists (zset (seen st1) (var t) 0), (conflict st1).
        split; [by destruct st1 | apply length_zset]. }
    assert (∀ x, is_seen (set_seen st1 (var t) 0) x = if decide (var t = x) then false else is_seen st1 x) as Hset.
    { intros x. apply is_seen_set; [done |]. by rewrite A1, <- Ec. }
    split; simpl; rewrite ?A4; try done.
    + unfold seen_size in *. simpl. by rewrite length_zset.
    + intros x. rewrite Hset. case_decide as Hd; [done |]. intros [Hx' | (l & Hlr & Hlv & <-)]%A5.
      * destruct (Hsn x Hx') as [? | (j & u & Hj & Hv & Hr)]; [by left | right].
        exists j, u. split; [done |]. split; [done |].
        destruct (decide (j = i)) as [-> |]; [| lia]. rewrite Hi in Hj. injection Hj as ->. done.
      * right. destruct (Hrest l Hlr) as (j & Hji & Hj). exists j, (lit_neg l).
        split; [done |]. split; [apply var_neg |]. split; [| lia].
        apply above_lim0. pose proof (ri_level _ _ R j _ Hj) as Hlj. rewrite var_neg in Hlj. lia.
    + intros σ HS. destruct (Hsat σ HS) as [? | (j & u & Hj & Hr & Hs' & Hf)]; [by left | right].
      destruct (decide (j = i)) as [-> |].
      * rewrite Hi in Hj. injection Hj as ->.
        destruct (sat_live σ s _ c HS Hl) as (l & Hl' & Ht). rewrite Ecl in Hl'.
        apply elem_of_cons in Hl' as [-> | Hl']; [congruence |].
        destruct (Hrest l Hl') as (j & Hji & Hj). exists j, (lit_neg l).
        split; [done |]. split; [done |]. rewrite var_neg, lit_true_neg, Ht. split; [| done].
        rewrite Hset, decide_False.
        -- apply A5. right. exists l. split; [done |]. split; [| done].
           pose proof (ri_level _ _ R j _ Hj) as Hlj. rewrite var_neg in Hlj.
           destruct (lvl_at lims j) eqn:Elv; [exfalso | lia].
           destruct HS as [_ HS0]. specialize (HS0 (lit_neg l) ltac:(by exists j)).
           rewrite lit_true_neg, Ht in HS0. done.
        -- intros Hv. rewrite <- (var_neg l) in Hv.
           destruct (trail_pos _ _ _ T i j _ _ Hi Hj Hv). lia.
      * exists j, u. split; [done |]. split; [lia |]. split; [| done].
        rewrite Hset, decide_False.
        -- apply A5. by left.
        -- intros Hv. by destruct (trail_pos _ _ _ T i j _ _ Hi Hj Hv).
Qed.

Lemma final_loop_spec k : ∀ st, (lim0 + k <= length tr)%nat → Fin st (lim0 + k) →
  ∃ st', final_loop st (rev (take k (drop lim0 tr))) = Some st' ∧ Fin st' lim0 ∧ final_frame st st'.
Proof using I R H0 HP.
  induction k as [| k IH]; intros st Hk HF.
  { exists st. rewrite Nat.add_0_r in HF. done. }
  destruct (lookup_lt_is_Some_2 tr (lim0 + k)) as [t Ht]; [lia |].
  rewrite (take_S_r _ _ t) by (by rewrite lookup_drop). rewrite rev_app_distr. simpl.
  destruct (final_step_spec st (lim0 + k) t) as (st1 & -> & HF1 & F1); [| done | lia |].
  { by replace (S (lim0 + k)) with (lim0 + S k)%nat by lia. }
  cbn [mbind option_bind]. destruct (IH st1) as (st' & E & HF' & F'); [lia | done |].
  exists st'. split; [done |]. split; [done |]. by etrans.
Qed.
End Final.

#[local] Existing Instance final_frame_preorder.

(** What [analyzeFinal] gives. *)
Record Explained (s : Core) (P : Lit) (st st' : Solver) : Prop := {
  ex_frame : final_frame st st';
  ex_clear : ∀ x, seen_at st' x = 0;
  ex_wf : IntMap.set_wf lit_x (conflict st');
  ex_lits : ∀ l, l ∈ IntMap.xs (conflict st') → l = P ∨ decided s (lit_neg l);
  ex_in : P ∈ IntMap.xs (conflict st');
  ex_entails : entails s (IntMap.xs (conflict st')) }.

Lemma analyzeFinal_spec assumps q st P : Inv q (core st) → RInv assumps (core st) → seen_size st →
  (∀ x, seen_at st x = 0) → IntMap.set_wf lit_x (conflict st) → P ∈ trail (core st) →
  ∃ st', analyzeFinal st P = Some st' ∧ Explained (core st) P st st'.
Proof.
  intros I R Hs Hz Hw HP. pose proof (inv_trail _ _ I) as T.
  assert (lit_ok (nv (core st)) P) as Hok by by apply (tr_range _ _ _ T).
  pose proof (proj1 (lit_ok_x _ _) Hok) as Hx.
  assert (∀ a b : Lit, lit_x a = lit_x b → a = b) as Hinj by (intros [] []; simpl; congruence).
  destruct (IntMap.set_clear_wf lit_x (conflict st) Hw) as [Hw1 Hc1].
  unfold analyzeFinal. set (st0 := st <| conflict := _ |>). set (st1 := conflict_insert st0 P).
  assert (IntMap.set_wf lit_x (conflict st1)) as Hw2 by (apply IntMap.set_insert_wf; [done | lia | done]).
  assert (∀ l, l ∈ IntMap.xs (conflict st1) ↔ l = P) as Hel.
  { intros l. unfold st1. simpl. rewrite IntMap.set_insert_elem by (done || lia).
    change (IntMap.xs (IntMap.set_clear lit_x (conflict st))) with (@nil Lit).
    rewrite elem_of_nil. tauto. }
  change (core st1) with (core st). destruct (trail_lim (core st)) as [| lim0 lims] eqn:El.
  - exists st1. split; [done |]. split; try done.
    + exists (seen st), (conflict st1). split; [by destruct st | done].
    + intros l ->%Hel. by left.
    + by apply Hel.
    + intros σ [_ HS]. exists P. split; [by apply Hel |]. apply HS. by apply level0_all.
  - assert (trail_lim (core st) !! 0%nat = Some lim0) as H0 by by rewrite El.
    set (st2 := set_seen st1 (var P) 1).
    assert (∀ y, is_seen st2 y = if decide (var P = y) then true else is_seen st y) as Hset.
    { intros y. by apply (is_seen_set st1 (var P) 1). }
    assert (lim0 <= length (trail (core st)))%nat as Hlim.
    { pose proof (inv_lims_q _ _ I lim0 ltac:(by eapply list_elem_of_lookup_2)). pose proof (inv_q _ _ I). lia. }
    destruct (final_loop_spec assumps (core st) q lim0 P I R H0 HP (length (trail (core st)) - lim0) st2)
      as (st3 & E & HF & F); [lia | |].
    + replace (lim0 + (length (trail (core st)) - lim0))%nat with (length (trail (core st))) by lia.
      split; try done.
      * unfold seen_size. simpl. by rewrite length_zset.
      * by apply Hel.
      * intros l ->%Hel. by left.
      * intros x. rewrite Hset. case_decide; [by left |]. by rewrite is_seen_at, Hz.
      * intros σ HS. destruct (lit_true σ P) eqn:Et.
        -- left. exists P. split; [by apply Hel | done].
        -- right. apply list_elem_of_lookup_1 in HP as [i Hi]. exists i, P. split; [done |].
           split; [by eapply lookup_lt_Some |]. rewrite Hset, decide_True by done. done.
    + rewrite take_ge in E by (rewrite length_drop; lia). rewrite E. cbn [mbind option_bind].
      eexists. split; [done |]. destruct HF as [Ec Hsz Hw3 Hin Hlits Hsn Hsat].
      assert (∀ y, seen_at (set_seen st3 (var P) 0) y = if decide (var P = y) then 0 else seen_at st3 y) as Hset3.
      { intros y. apply seen_at_set; [done |]. by rewrite Ec. }
      assert (∀ y, y ≠ var P → seen_at st3 y = 0) as Hz3.
      { intros y Hne. destruct (is_seen st3 y) eqn:Ey.
        - destruct (Hsn y Ey) as [-> | (j & t & _ & _ & Hr)]; [done | lia].
        - rewrite is_seen_at in Ey. by apply negb_false_iff, Z.eqb_eq in Ey. }
      split; try done.
      * etrans; [| etrans; [exact F |]].
        -- exists (seen st2), (conflict st1). split; [by destruct st |]. simpl. apply length_zset.
        -- exists (zset (seen st3) (var P) 0), (conflict st3). split; [by destruct st3 | apply length_zset].
      * intros y. rewrite Hset3. case_decide as Hd; [done |]. apply Hz3. congruence.
      * intros σ HS. destruct (Hsat σ HS) as [? | (j & t & Hj & Hlt & Hs' & Hf)]; [done |].
        exfalso. destruct HS as [_ HS]. specialize (HS t). rewrite Hf in HS.
        assert (false = true); [| done]. apply HS. exists j. split; [done |].
        pose proof (lvl_at_below _ (inv_lims _ _ I) 0 lim0 j H0). lia.
Qed.
