(* ===== verification/Reduce.v ===== *)
(** * Clause deletion and garbage collection

    [minisat/core/Solver.cc], 919-1047 and 1365-1425: [relocAll] and
    [garbageCollect], [reduceDB], [removeSatisfied], [rebuildOrderHeap] and
    [simplify], with [checkGarbage] of [minisat/core/Solver.h].  [None] is a
    dangling reference, a failing [sort] or the end of the address space; see
    [ReduceSpec]. *)
From Stdlib Require Import SpecFloat.
From S2P Require Import Prelude Lit Sort Vec Heap Alloc Double Clause Solver Setup Analyze.

(** ** Garbage collection *)

(** [ca.reloc(ws[j].cref, to)] for the watchers of one list. *)
Fixpoint reloc_watchers (a to : Arena) (ws : list Watcher) : option (list Watcher * Arena * Arena) :=
  match ws with
  | [] => Some ([], a, to)
  | w :: ws =>
      '(cr, a, to) ← ca_reloc a to (w_cref w);
      '(ws, a, to) ← reloc_watchers a to ws;
      Some (MkWatcher cr (w_blocker w) :: ws, a, to)
  end.

Fixpoint reloc_occs (a to : Arena) (o : OccLists Watcher) (ps : list Lit) :
    option (OccLists Watcher * Arena * Arena) :=
  match ps with
  | [] => Some (o, a, to)
  | p :: ps =>
      '(ws, a, to) ← reloc_watchers a to (occ_get o p);
      reloc_occs a to (occ_set o p ws) ps
  end.

(** The literals in the order of the two nested loops. *)
Definition all_lits (nvars : Z) : list Lit :=
  seq 0 (Z.to_nat nvars) ≫= λ v, [mkLit (Z.of_nat v) false; mkLit (Z.of_nat v) true].

(** The reasons of the variables of the trail; a dangling one is left alone. *)
Fixpoint reloc_reasons (s : Core) (a to : Arena) (ps : list Lit) : option (Core * Arena * Arena) :=
  match ps with
  | [] => Some (s, a, to)
  | p :: ps =>
      let v := var p in
      if reason s v =? CRef_Undef then reloc_reasons s a to ps
      else
        c ← ca_deref a (reason s v);
        if c_reloced c || locked s (reason s v) c then
          '(cr, a, to) ← ca_reloc a to (reason s v);
          reloc_reasons (s <| vardata := zset (vardata s) v (MkVarData cr (level s v)) |>) a to ps
        else reloc_reasons s a to ps
  end.

(** [learnts] and [clauses]: removed clauses are dropped. *)
Fixpoint reloc_clauses (a to : Arena) (crs : list CRef) : option (list CRef * Arena * Arena) :=
  match crs with
  | [] => Some ([], a, to)
  | cr :: crs =>
      c ← ca_deref a cr;
      if c_mark c =? 1 then reloc_clauses a to crs
      else
        '(cr, a, to) ← ca_reloc a to cr;
        '(crs, a, to) ← reloc_clauses a to crs;
        Some (cr :: crs, a, to)
  end.

(** [relocAll(to)]: the solver with the references into [to], and [to]. *)
Definition relocAll (st : Solver) (to : Arena) : option (Solver * Arena) :=
  let s := core st in
  let a := ca s in
  let o := occ_cleanAll (watcher_deleted a) (watches s) in
  '(o, a, to) ← reloc_occs a to o (all_lits (nVars st));
  '(s, a, to) ← reloc_reasons (s <| watches := o |>) a to (trail s);
  '(ls, a, to) ← reloc_clauses a to (learnts st);
  '(cs, a, to) ← reloc_clauses a to (clauses st);
  Some (st <| core := s <| ca := a |> |> <| learnts := ls |> <| clauses := cs |>, to).

(** [ClauseAllocator to(ca.size() - ca.wasted())], and [to.moveTo(ca)]. *)
Definition garbageCollect (st : Solver) : option Solver :=
  let r := a_region (ca (core st)) in
  region ← new_region (u32 (r_sz r - r_wasted r));
  '(st, to) ← relocAll st (MkArena region ∅ false);
  Some (st <| core := (core st) <| ca := ca_moveTo to |> |>).

Definition checkGarbage_frac (st : Solver) (gf : double) : option Solver :=
  let r := a_region (ca (core st)) in
  if d_ltb (d_mul (d_of_Z (r_sz r)) gf) (d_of_Z (r_wasted r)) then garbageCollect st else Some st.

Definition checkGarbage (st : Solver) : option Solver :=
  checkGarbage_frac st (garbage_frac (params st)).

(** ** [reduceDB] *)

Definition clause_at (a : Arena) (cr : CRef) : Clause := default inhabitant (ca_deref a cr).

(** [reduceDB_lt]. *)
Definition reduceDB_lt (a : Arena) (x y : CRef) : bool :=
  let cx := clause_at a x in
  let cy := clause_at a y in
  (2 <? c_size cx) && ((c_size cy =? 2) || d_ltb (c_act cx) (c_act cy)).

(** The loop over the sorted [learnts]; [n] is [learnts.size()]. *)
Fixpoint reduce_loop (st : Solver) (extra_lim : double) (n i : nat) (crs : list CRef) :
    option (Solver * list CRef) :=
  match crs with
  | [] => Some (st, [])
  | cr :: crs =>
      c ← ca_deref (ca (core st)) cr;
      if (2 <? c_size c) && negb (locked (core st) cr c) &&
         (Nat.ltb i (n / 2) || d_ltb (c_act c) extra_lim)
      then st ← removeClause st cr true; reduce_loop st extra_lim n (S i) crs
      else '(st, crs) ← reduce_loop st extra_lim n (S i) crs; Some (st, cr :: crs)
  end.

Definition reduceDB (st : Solver) : option Solver :=
  let n := length (learnts st) in
  let extra_lim := d_div (cla_inc st) (d_of_Z (Z.of_nat n)) in
  crs ← sort (reduceDB_lt (ca (core st))) (learnts st);
  '(st, crs) ← reduce_loop st extra_lim n 0 crs;
  checkGarbage (st <| learnts := crs |>).

(** ** [simplify] *)

(** [c[k--] = c[c.size() - 1]; c.pop();] for the false literals from [k] on. *)
Fixpoint trim_lits (fuel : nat) (s : Core) (ls : list Lit) (k : nat) : list Lit :=
  match fuel, ls !! k with
  | S fuel, Some l =>
      if lb_eqb (value s l) l_False
      then trim_lits fuel s (removelast (<[k := ls !!! (length ls - 1)%nat]> ls)) k
      else trim_lits fuel s ls (S k)
  | _, _ => ls
  end.

(** [removeSatisfied(cs)]: the solver and the clauses that are left in [cs]. *)
Fixpoint removeSatisfied (st : Solver) (cs : list CRef) : option (Solver * list CRef) :=
  match cs with
  | [] => Some (st, [])
  | cr :: cs =>
      let s := core st in
      c ← ca_deref (ca s) cr;
      if satisfied s c then st ← removeClause st cr true; removeSatisfied st cs
      else
        let c := set_lits c (trim_lits (length (c_lits c)) s (c_lits c) 2) in
        '(st, cs) ← removeSatisfied (st <| core := s <| ca := ca_store (ca s) cr c |> |>) cs;
        Some (st, cr :: cs)
  end.

Definition rebuildOrderHeap (st : Solver) : Solver :=
  let vs := filter (λ v, undecided st v = true) (Z.of_nat <$> seq 0 (Z.to_nat (nVars st))) in
  st <| order := (order st) <| order_heap :=
          Heap.build (VarOrderLt (activity (order st))) (order_heap (order st)) vs |> |>.

Definition mark_vars (st : Solver) (vs : list Var) (b : Z) : Solver :=
  foldl (λ st v, set_seen st v b) st vs.

(** The released variables leave the trail and become available. *)
Definition release_trail (st : Solver) : Solver :=
  let st := mark_vars st (released_vars st) 1 in
  let tr := filter (λ l, is_seen st (var l) = false) (trail (core st)) in
  let st := st <| core := ((core st) <| trail := tr |>) <| qhead := length tr |> |> in
  let st := mark_vars st (released_vars st) 0 in
  st <| free_vars := free_vars st ++ released_vars st |> <| released_vars := [] |>.

Definition simplify (st : Solver) : option (Solver * bool) :=
  '(st, good) ← (if ok st then '(st, confl) ← propagate st; Some (st, confl =? CRef_Undef)
                 else Some (st, false));
  if negb good then Some (st <| ok := false |>, false)
  else if (nAssigns (core st) =? simpDB_assigns st) || (0 <? simpDB_props st) then Some (st, true)
  else
    '(st, ls) ← removeSatisfied st (learnts st);
    let st := st <| learnts := ls |> in
    st ← (if remove_satisfied (params st) then
            '(st, cs) ← removeSatisfied st (clauses st);
            Some (release_trail (st <| clauses := cs |>))
          else Some st);
    st ← checkGarbage st;
    let st := rebuildOrderHeap st in
    Some (st <| simpDB_assigns := nAssigns (core st) |>
             <| simpDB_props := s64 (clauses_literals (stats st) + learnts_literals (stats st)) |>, true).
