(* ===== verification/RelocSpec.v ===== *)
(** * Correctness of the garbage collection

    [garbageCollect] copies every clause that is not removed to a fresh region
    and redirects the watchers, the reasons and the clause lists; the watched
    literals, the reasons and the literals of the clauses are as before. *)
From Stdlib Require Import SpecFloat.
From S2P Require Import Prelude Lit UnitProp Vec Heap Alloc Double DoubleSpec Clause Solver Propagate.
From S2P Require Import PropCheck Setup SetupSpec Reasons Analyze Reduce.

(** ** Words of clauses *)

Definition words_of (c : Clause) : Z := clauseWord32Size (c_size c) (c_has_extra c).

(** The words of the clauses at [crs]. *)
Fixpoint sum_words (f : CRef → Z) (crs : list CRef) : Z :=
  match crs with [] => 0 | cr :: crs => f cr + sum_words f crs end.

Lemma words_pos c : 0 < words_of c.
Proof. unfold words_of, clauseWord32Size, c_size. destruct (c_has_extra c); simpl; lia. Qed.

Lemma sum_words_ext f g crs : (∀ cr, cr ∈ crs → f cr = g cr) → sum_words f crs = sum_words g crs.
Proof.
  induction crs as [| cr crs IH]; intros H; simpl; [done |].
  rewrite H by by left. f_equal. apply IH. intros. apply H. by right.
Qed.

Lemma sum_words_mono f g crs : (∀ cr, cr ∈ crs → f cr <= g cr) → sum_words f crs <= sum_words g crs.
Proof.
  induction crs as [| cr crs IH]; intros H; simpl; [done |].
  pose proof (H cr ltac:(by left)). specialize (IH ltac:(intros; apply H; by right)). lia.
Qed.

(** Changing the function at one reference. *)
Lemma sum_words_update f g crs cr : NoDup crs → cr ∈ crs → (∀ x, x ∈ crs → x ≠ cr → g x = f x) →
  sum_words g crs = sum_words f crs - f cr + g cr.
Proof.
  induction crs as [| y crs IH]; intros Hnd Hin H; [by apply elem_of_nil in Hin |].
  apply NoDup_cons in Hnd as [Hy Hnd]. simpl. destruct (decide (y = cr)) as [-> | Hne].
  - rewrite (sum_words_ext g f crs); [lia |]. intros x Hx. apply H; [by right |]. by intros ->.
  - apply elem_of_cons in Hin as [-> | Hin]; [done |].
    rewrite (H y) by (by left || done). rewrite IH; [lia | done | done |].
    intros x Hx. apply H. by right.
Qed.

Lemma sum_words_app f l k : sum_words f (l ++ k) = sum_words f l + sum_words f k.
Proof. induction l as [| x l IH]; simpl; lia. Qed.

Lemma sum_words_perm f l k : l ≡ₚ k → sum_words f l = sum_words f k.
Proof. induction 1; simpl; lia. Qed.

Lemma sum_words_nonneg f l : (∀ x, x ∈ l → 0 <= f x) → 0 <= sum_words f l.
Proof.
  induction l as [| x l IH]; intros H; simpl; [done |].
  pose proof (H x ltac:(by left)). specialize (IH ltac:(intros; apply H; by right)). lia.
Qed.

(** ** Moving clauses *)

Section Moving.
Context (m0 : Mem) (crs : list CRef) (bound : Z).
Hypothesis Hnd : NoDup crs.
Hypothesis Hall : ∀ cr c, live m0 cr c → cr ∈ crs.
Hypothesis Hold : ∀ cr c, live m0 cr c →
  c_reloced c = false ∧ (2 <= length (c_lits c))%nat ∧ (c_learnt c = true → c_has_extra c = true).
Hypothesis Hbound : bound <= max_capacity.

(** The words that [cr] still needs in the new region. *)
Definition left_words (a : Arena) (cr : CRef) : Z :=
  match a_mem a !! cr with Some c => if c_reloced c then 0 else words_of c | None => 0 end.

(** The words that [cr] takes there already. *)
Definition done_words (a : Arena) (cr : CRef) : Z :=
  match a_mem a !! cr with
  | Some c => if c_reloced c then clauseWord32Size (c_size c) (c_learnt c) else 0
  | None => 0
  end.

Definition moved (a : Arena) (cr cr' : CRef) : Prop :=
  ∃ c, live m0 cr c ∧ a_mem a !! cr = Some (relocate c cr').

Definition copied (c : Clause) : Clause := copy_clause c (c_learnt c).

Record Moving (a to : Arena) : Prop := {
  mv_old : ∀ cr c, live m0 cr c → a_mem a !! cr = Some c ∨
    ∃ cr', a_mem a !! cr = Some (relocate c cr') ∧ a_mem to !! cr' = Some (copied c);
  mv_new : ∀ cr' c', a_mem to !! cr' = Some c' → ∃ cr, moved a cr cr';
  mv_inj : ∀ x y cr', moved a x cr' → moved a y cr' → x = y;
  mv_arena : arena_ok to;
  mv_extra : a_extra to = false;
  mv_wasted : r_wasted (a_region to) = 0;
  mv_room : r_sz (a_region to) + sum_words (left_words a) crs <= bound;
  mv_used : sum_words (done_words a) crs = r_sz (a_region to) }.

Lemma relocate_inj c x y : (2 <= length (c_lits c))%nat → relocate c x = relocate c y → x = y.
Proof.
  intros H2 [= E]. destruct (c_lits c) as [| l rest]; simpl in H2; [lia |]. by injection E.
Qed.

Lemma relocation_of c cr : (2 <= length (c_lits c))%nat → 0 <= cr < 2 ^ 32 → relocation (relocate c cr) = cr.
Proof.
  intros H2 Hr. unfold relocation, relocate; simpl.
  destruct (c_lits c) as [| l rest]; simpl in H2; [lia |]. csimpl. by apply Z.mod_small.
Qed.

Lemma moved_fun a x y z : moved a x y → moved a x z → y = z.
Proof using Hold.
  intros (c & Hl & E) (c' & Hl' & E'). assert (c' = c) as -> by (destruct Hl, Hl'; congruence).
  destruct (Hold _ _ Hl) as (_ & H2 & _). apply (relocate_inj c); [done |]. congruence.
Qed.

Lemma moved_copy a to x y c : Moving a to → moved a x y → live m0 x c → a_mem to !! y = Some (copied c).
Proof using Hold.
  intros HM Hm Hl. pose proof Hm as (c' & Hl' & E).
  assert (c' = c) as -> by (destruct Hl, Hl'; congruence).
  destruct (mv_old _ _ HM x c Hl) as [E' | (y' & E' & Et)].
  - destruct (Hold _ _ Hl) as (Hr & _). assert (c = relocate c y) as E2 by congruence. by rewrite E2 in Hr.
  - assert (y' = y) as -> by (apply (moved_fun a x); [by exists c | done]). done.
Qed.

Lemma copied_words c : (c_learnt c = true → c_has_extra c = true) → words_of (copied c) <= words_of c.
Proof.
  unfold words_of, copied, clauseWord32Size, c_size; simpl. intros H.
  destruct (c_learnt c); [rewrite H by done; lia |]. destruct (c_has_extra c); simpl; lia.
Qed.

(** [ca.reloc(cr, to)] of a live clause. *)
Lemma reloc_spec a to cr c : Moving a to → live m0 cr c →
  ∃ cr' a' to', ca_reloc a to cr = Some (cr', a', to') ∧ Moving a' to' ∧ moved a' cr cr' ∧
    ∀ x y, moved a x y → moved a' x y.
Proof using Hnd Hall Hold Hbound.
  intros HM Hl. destruct (Hold _ _ Hl) as (Hr & H2 & Hx). unfold ca_reloc, ca_deref.
  destruct (mv_old _ _ HM cr c Hl) as [E | (cr' & E & Et)].
  - rewrite E. cbn [mbind option_bind]. rewrite Hr.
    assert (left_words a cr = words_of c) as Hlw by (unfold left_words; by rewrite E, Hr).
      pose proof (words_pos c) as Hwp.
    assert (words_of c <= sum_words (left_words a) crs) as Hle.
    { pose proof (sum_words_update (left_words a) (λ x, if decide (x = cr) then 0 else left_words a x) crs cr
        Hnd (Hall _ _ Hl)) as Hu.
      cbv beta in Hu. rewrite decide_True, Hlw in Hu by done. specialize (Hu ltac:(intros; by rewrite decide_False)).
      assert (0 <= sum_words (λ x, if decide (x = cr) then 0 else left_words a x) crs); [| lia].
      apply sum_words_nonneg. intros x _. case_decide; [done |]. unfold left_words.
      destruct (a_mem a !! x) as [cx |]; [| done]. destruct (c_reloced cx); [done |].
      pose proof (words_pos cx). lia. }
    pose proof (mv_room _ _ HM) as Hroom. destruct (mv_arena _ _ HM) as [Hwf Hin].
    pose proof (copied_words c Hx) as Hcw. pose proof (words_pos (copied c)) as Hcp.
    destruct (alloc_spec (a_region to) (words_of (copied c)) Hwf) as (r' & Er & Hwf' & Hsz); [done | lia |].
    pose proof (alloc_wasted _ _ _ _ Er) as Hwst.
    unfold ca_alloc_copy. rewrite (mv_extra _ _ HM), orb_false_r.
    change (clauseWord32Size (c_size c) (c_learnt c)) with (words_of (copied c)). rewrite Er.
    cbn [mbind option_bind]. set (cr' := r_sz (a_region to)) in *.
    eexists _, _, _. split; [done |].
    assert (∀ x y, moved a x y → moved (ca_store a cr (relocate c cr')) x y) as Hmono.
    { intros x y (cx & Hlx & Ex). exists cx. split; [done |]. simpl. rewrite lookup_insert_ne; [done |].
      intros ->. assert (cx = c) as -> by (destruct Hl, Hlx; congruence).
      assert (c = relocate c y) as E2 by congruence. by rewrite E2 in Hr. }
    assert (∀ x y, moved (ca_store a cr (relocate c cr')) x y → (x = cr ∧ y = cr') ∨ moved a x y) as Hinv.
    { intros x y (cx & Hlx & Ex). simpl in Ex. destruct (decide (cr = x)) as [<- | Hne].
      - left. assert (cx = c) as -> by (destruct Hl, Hlx; congruence). rewrite lookup_insert_eq in Ex.
        split; [done |]. apply (relocate_inj c); [done |]. congruence.
      - right. rewrite lookup_insert_ne in Ex by done. by exists cx. }
    assert (∀ x, ¬ moved a x cr') as Hfresh.
    { intros x Hm. pose proof Hm as (cx & Hlx & _). pose proof (moved_copy _ _ _ _ _ HM Hm Hlx) as Ec.
      apply Hin in Ec. unfold cr' in Ec. lia. }
    assert (moved (ca_store a cr (relocate c cr')) cr cr') as Hmc.
    { exists c. split; [done |]. simpl. by rewrite lookup_insert_eq. }
    split; [| by split]. split; simpl.
    + intros x cx Hlx. destruct (decide (cr = x)) as [<- | Hne].
      * right. exists cr'. assert (cx = c) as -> by (destruct Hl, Hlx; congruence).
        by rewrite !lookup_insert_eq.
      * rewrite lookup_insert_ne by done. destruct (mv_old _ _ HM x cx Hlx) as [? | (y & Ey & Et)]; [by left |].
        right. exists y. split; [done |]. rewrite lookup_insert_ne; [done |]. intros <-.
        by apply (Hfresh x); exists cx.
    + intros y cy. destruct (decide (cr' = y)) as [<- | Hne].
      * intros _. by exists cr.
      * rewrite lookup_insert_ne by done. intros (x & Hm)%(mv_new _ _ HM). exists x. auto.
    + intros x y z [[-> ->] | Hx1]%Hinv [[-> ?] | Hy1]%Hinv; try done.
      * by destruct (Hfresh y).
      * subst. by destruct (Hfresh x).
      * by apply (mv_inj _ _ HM x y z).
    + split; [done |]. simpl. intros y cy. rewrite Hsz. destruct (decide (cr' = y)) as [<- | Hne].
      * intros _. destruct Hwf. unfold cr'. lia.
      * rewrite lookup_insert_ne by done. intros Hy%Hin. lia.
    + done.
    + rewrite Hwst. exact (mv_wasted _ _ HM).
    + rewrite (sum_words_update (left_words a) (left_words (ca_store a cr (relocate c cr'))) crs cr Hnd (Hall _ _ Hl)).
      * rewrite Hlw. unfold left_words at 2. simpl. rewrite lookup_insert_eq. simpl. lia.
      * intros x _ Hne. unfold left_words. simpl. by rewrite lookup_insert_ne.
    + rewrite (sum_words_update (done_words a) (done_words (ca_store a cr (relocate c cr'))) crs cr Hnd (Hall _ _ Hl)).
      * unfold done_words at 2 3. simpl. rewrite lookup_insert_eq, E, Hr. simpl.
        unfold c_size. simpl. rewrite length_insert. rewrite (mv_used _ _ HM), Hsz. unfold words_of. simpl. unfold c_size. simpl. lia.
      * intros x _ Hne. unfold done_words. simpl. by rewrite lookup_insert_ne.
  - rewrite E. cbn [mbind option_bind]. simpl c_reloced. cbv iota.
    destruct (proj2 (mv_arena _ _ HM) _ _ Et) as [Hc1 Hc2].
    destruct (mv_arena _ _ HM) as [[Hcap Hsz] _]. pose proof (caps_range _ Hcap) as Hcr.
    rewrite relocation_of; [| done | unfold max_capacity in *; lia].
    eexists _, _, _. split; [done |]. split; [done |]. split; [by exists c | done].
Qed.

(** The four kinds of references in turn; [mono] is what they have in common. *)
Definition mono (a a' : Arena) : Prop := ∀ x y, moved a x y → moved a' x y.

#[local] Instance mono_preorder : PreOrder mono.
Proof. split; [by intros a x y | intros a b c H1 H2 x y Hm; by apply H2, H1]. Qed.

Definition wmoved (a : Arena) (w w' : Watcher) : Prop :=
  moved a (w_cref w) (w_cref w') ∧ w_blocker w' = w_blocker w.

Lemma wmoved_mono a a' ws ws' : mono a a' → Forall2 (wmoved a) ws ws' → Forall2 (wmoved a') ws ws'.
Proof using. intros M H. eapply Forall2_impl; [exact H |]. intros w w' [H1 H2]. split; [by apply M | done]. Qed.

Definition live_at (cr : CRef) : Prop := ∃ c, live m0 cr c.

Lemma reloc_watchers_spec ws : ∀ a to, Moving a to → (∀ w, w ∈ ws → live_at (w_cref w)) →
  ∃ ws' a' to', reloc_watchers a to ws = Some (ws', a', to') ∧ Moving a' to' ∧ mono a a' ∧
    Forall2 (wmoved a') ws ws'.
Proof using Hnd Hall Hold Hbound.
  induction ws as [| w ws IH]; intros a to HM Hws; simpl.
  { exists [], a, to. split; [done |]. split; [done |]. split; [reflexivity |]. constructor. }
  destruct (Hws w ltac:(by left)) as [c Hl].
  destruct (reloc_spec a to _ c HM Hl) as (cr' & a1 & to1 & -> & HM1 & Hm & M1). simpl.
  destruct (IH a1 to1 HM1) as (ws' & a2 & to2 & -> & HM2 & M2 & F); [intros; apply Hws; by right |].
  simpl. eexists _, a2, to2. split; [done |]. split; [done |]. split; [by etrans |].
  constructor; [| done]. split; [by apply M2 | done].
Qed.

Definition in_occs (o : OccLists Watcher) (l : Lit) : Prop := 0 <= lit_x l < Z.of_nat (length (occs o)).

Lemma reloc_occs_spec ps : ∀ a to o, Moving a to → NoDup ps → (∀ l, l ∈ ps → in_occs o l) →
  (∀ l w, l ∈ ps → w ∈ occ_get o l → live_at (w_cref w)) →
  ∃ o' a' to', reloc_occs a to o ps = Some (o', a', to') ∧ Moving a' to' ∧ mono a a' ∧
    (∀ l, l ∈ ps → Forall2 (wmoved a') (occ_get o l) (occ_get o' l)) ∧
    (∀ l, l ∉ ps → occ_get o' l = occ_get o l) ∧
    dirty o' = dirty o ∧ dirties o' = dirties o ∧ length (occs o') = length (occs o).
Proof using Hnd Hall Hold Hbound.
  induction ps as [| p ps IH]; intros a to o HM Hps Hin Hws; simpl.
  { exists o, a, to. split; [done |]. split; [done |]. split; [reflexivity |].
    split; [| done]. intros l Hl. by apply elem_of_nil in Hl. }
  apply NoDup_cons in Hps as [Hp Hps].
  destruct (reloc_watchers_spec (occ_get o p) a to HM) as (ws' & a1 & to1 & -> & HM1 & M1 & F1).
  { intros w. apply Hws. by left. }
  simpl. pose proof (Hin p ltac:(by left)) as Hr.
  assert (∀ l, occ_get (occ_set o p ws') l = if decide (l = p) then ws' else occ_get o l) as Hg.
  { intros l. by rewrite occ_get_set. }
  destruct (IH a1 to1 (occ_set o p ws') HM1 Hps) as (o' & a2 & to2 & -> & HM2 & M2 & F2 & K & E1 & E2 & E3).
  - intros l Hl. unfold in_occs, occ_set; simpl. rewrite length_zset. apply Hin. by right.
  - intros l w Hl. rewrite Hg, decide_False by (by intros ->). apply Hws. by right.
  - exists o', a2, to2. split; [done |]. split; [done |]. split; [by etrans |]. split.
    + intros l [-> | Hl]%elem_of_cons.
      * rewrite K by done. rewrite Hg, decide_True by done. by eapply wmoved_mono.
      * specialize (F2 l Hl). rewrite Hg, decide_False in F2; [done | by intros ->].
    + split; [| by rewrite E1, E2, E3; unfold occ_set; simpl; rewrite length_zset].
      intros l Hl. rewrite not_elem_of_cons in Hl. rewrite K by tauto. rewrite Hg. by rewrite decide_False by tauto.
Qed.

Lemma reloc_clauses_spec cs : ∀ a to, Moving a to → (∀ cr, cr ∈ cs → live_at cr) →
  ∃ cs' a' to', reloc_clauses a to cs = Some (cs', a', to') ∧ Moving a' to' ∧ mono a a' ∧
    Forall2 (moved a') cs cs'.
Proof using Hnd Hall Hold Hbound.
  induction cs as [| cr cs IH]; intros a to HM Hcs; simpl.
  { exists [], a, to. split; [done |]. split; [done |]. split; [reflexivity |]. constructor. }
  destruct (Hcs cr ltac:(by left)) as [c Hl].
  assert (∃ c', ca_deref a cr = Some c' ∧ c_mark c' = c_mark c) as (c' & -> & Em).
  { destruct (mv_old _ _ HM cr c Hl) as [E | (x & E & _)]; eexists; split; by try exact E. }
  simpl. rewrite (proj2 (Z.eqb_neq _ _)) by (rewrite Em; apply Hl).
  destruct (reloc_spec a to cr c HM Hl) as (cr' & a1 & to1 & -> & HM1 & Hm & M1). simpl.
  destruct (IH a1 to1 HM1) as (cs' & a2 & to2 & -> & HM2 & M2 & F); [intros; apply Hcs; by right |].
  simpl. eexists _, a2, to2. split; [done |]. split; [done |]. split; [by etrans |].
  constructor; [by apply M2 | done].
Qed.

(** What the loop over the trail changes: the references, not the levels. *)
Record reasons_moved (a : Arena) (ps : list Lit) (s s' : Core) : Prop := {
  rm_eq : s' = s <| vardata := vardata s' |>;
  rm_size : length (vardata s') = length (vardata s);
  rm_level : ∀ x, level s' x = level s x;
  rm_undef : ∀ t, t ∈ ps → reason s (var t) = CRef_Undef → reason s' (var t) = CRef_Undef;
  rm_reason : ∀ t, t ∈ ps → reason s (var t) ≠ CRef_Undef →
    moved a (reason s (var t)) (reason s' (var t));
  rm_other : ∀ x, x ∉ var <$> ps → reason s' x = reason s x }.

(** The clause of the reason of a true literal starts with it. *)
Definition reason_ok (s : Core) (t : Lit) : Prop :=
  0 <= var t < Z.of_nat (length (vardata s)) ∧ lb_eqb (value s t) l_True = true ∧
  (reason s (var t) ≠ CRef_Undef → ∃ c rest, live m0 (reason s (var t)) c ∧ c_lits c = t :: rest).

Lemma reloc_reasons_spec ps : ∀ s a to, Moving a to → NoDup (var <$> ps) →
  (∀ t, t ∈ ps → reason_ok s t) →
  ∃ s' a' to', reloc_reasons s a to ps = Some (s', a', to') ∧ Moving a' to' ∧ mono a a' ∧
    reasons_moved a' ps s s'.
Proof using Hnd Hall Hold Hbound.
  induction ps as [| p ps IH]; intros s a to HM Hps Hok; simpl.
  { exists s, a, to. split; [done |]. split; [done |]. split; [reflexivity |].
    split; try done; first [by destruct s | intros t Ht; by apply elem_of_nil in Ht]. }
  csimpl in Hps. apply NoDup_cons in Hps as [Hp Hps].
  destruct (Hok p ltac:(by left)) as (Hr & Hv & Hrs).
  destruct (Z.eqb_spec (reason s (var p)) CRef_Undef) as [Eu | Eu].
  - destruct (IH s a to HM Hps) as (s' & a' & to' & -> & HM' & M & K); [intros; apply Hok; by right |].
    exists s', a', to'. split; [done |]. split; [done |]. split; [done |]. destruct K. split; try done.
    + intros t [-> | Ht]%elem_of_cons; [| by apply rm_undef0]. intros _. by rewrite rm_other0.
    + intros t [-> | Ht]%elem_of_cons; [done | by apply rm_reason0].
    + intros x Hx. apply rm_other0. csimpl in Hx. rewrite not_elem_of_cons in Hx. tauto.
  - destruct (Hrs Eu) as (c & rest & Hl & Ec).
    destruct (reloc_spec a to _ c HM Hl) as (cr' & a1 & to1 & Er & HM1 & Hm & M1).
    set (s1 := s <| vardata := zset (vardata s) (var p) (MkVarData cr' (level s (var p))) |>).
    assert (∀ x, reason s1 x = if decide (var p = x) then cr' else reason s x) as Hre.
    { intros x. unfold reason, s1; simpl. rewrite zget_zset by done. by case_decide. }
    assert (∀ x, level s1 x = level s x) as Hle.
    { intros x. unfold level at 1, s1; simpl. rewrite zget_zset by done. case_decide; [by subst | done]. }
    assert (∃ c', ca_deref a (reason s (var p)) = Some c' ∧
      c_reloced c' || locked s (reason s (var p)) c' = true) as (c' & -> & Hloc).
    { destruct (mv_old _ _ HM _ c Hl) as [E | (x & E & _)]; eexists; (split; [exact E |]); [| done].
      apply orb_true_iff. right. unfold locked. rewrite Ec. csimpl.
      rewrite Hv, (proj2 (Z.eqb_neq _ _) Eu). simpl. by apply Z.eqb_eq. }
    cbn [mbind option_bind]. rewrite Hloc, Er. cbn [mbind option_bind]. fold s1.
    destruct (IH s1 a1 to1 HM1 Hps) as (s' & a' & to' & -> & HM' & M & K).
    { intros t Ht. destruct (Hok t ltac:(by right)) as (H1 & H2 & H3). split; [| split; [done |]].
      - unfold s1; simpl. by rewrite length_zset.
      - rewrite Hre. rewrite decide_False; [done |]. intros E. apply Hp. rewrite E.
        by apply list_elem_of_fmap_2. }
    exists s', a', to'. split; [done |]. split; [done |]. split; [by etrans |]. destruct K. split.
    + rewrite rm_eq0. done.
    + rewrite rm_size0. unfold s1; simpl. by rewrite length_zset.
    + intros x. by rewrite rm_level0.
    + intros t [-> | Ht]%elem_of_cons; [done |]. intros E. apply rm_undef0; [done |].
      rewrite Hre, decide_False; [done |]. intros E'. apply Hp. rewrite E'. by apply list_elem_of_fmap_2.
    + intros t [-> | Ht]%elem_of_cons Ht'.
      * rewrite (rm_other0 (var p)) by done. rewrite Hre, decide_True by done. by apply M.
      * specialize (rm_reason0 t Ht). rewrite Hre, decide_False in rm_reason0; [by apply rm_reason0 |].
        intros E'. apply Hp. rewrite E'. by apply list_elem_of_fmap_2.
    + intros x Hx. csimpl in Hx. rewrite not_elem_of_cons in Hx. rewrite rm_other0 by tauto.
      rewrite Hre. rewrite decide_False; [done |]. intros E. by destruct Hx as [[] _].
Qed.
End Moving.
