(* ===== verification/CollectSpec.v ===== *)
(** * Correctness of the garbage collection: the solver

    [DbInv]: what holds of the clause lists and the arena between the steps of
    the search; [garbageCollect] keeps it, the watched-literal invariant, the
    reasons and the literals of every clause, and the region does not grow. *)
From Stdlib Require Import SpecFloat.
From S2P Require Import Prelude Lit UnitProp Vec Heap Alloc Double DoubleSpec Clause Solver Propagate.
From S2P Require Import PropCheck Setup SetupSpec Reasons Analyze Reduce RelocSpec.

(** ** [cleanAll] *)

Section CleanAll.
Context (del : Watcher → bool).
Implicit Types (o : OccLists Watcher) (l p : Lit).

Definition sizes_ok o : Prop := length (dirty o) = length (occs o).

(** The list of [l] without deleted entries, if it has any. *)
Definition cleaned o l : list Watcher :=
  if is_dirty o l then filter (λ w, del w = false) (occ_get o l) else occ_get o l.

Definition clean_step o l := if is_dirty o l then occ_clean del o l else o.

Lemma clean_step_spec o p : sizes_ok o → in_occs o p →
  sizes_ok (clean_step o p) ∧ length (occs (clean_step o p)) = length (occs o) ∧
  ∀ l, in_occs o l →
    occ_get (clean_step o p) l = (if decide (l = p) then cleaned o p else occ_get o l) ∧
    is_dirty (clean_step o p) l = (if decide (l = p) then false else is_dirty o l).
Proof.
  unfold sizes_ok, clean_step, cleaned. intros Hs Hp. destruct (is_dirty o p) eqn:Ed.
  - split; [unfold occ_clean; simpl; by rewrite !length_zset |].
    split; [unfold occ_clean; simpl; by rewrite length_zset |].
    intros l Hl. split.
    + change (occ_clean del o p) with
        (MkOcc (occs (occ_set o p (filter (λ w, del w = false) (occ_get o p))))
               (zset (dirty o) (lit_x p) 0) (dirties o)).
      by apply (occ_get_set o p).
    + apply is_dirty_clean. unfold in_occs in Hp. lia.
  - split; [done |]. split; [done |]. intros l Hl. split; by case_decide; subst.
Qed.

Lemma not_in_occs o l : sizes_ok o → ¬ in_occs o l → is_dirty o l = false.
Proof.
  unfold sizes_ok, in_occs, is_dirty, zget. intros Hs Hl. destruct (Z.ltb_spec (lit_x l) 0); [done |].
  by rewrite (lookup_ge_None_2 (dirty o)) by lia.
Qed.

Lemma clean_fold D : ∀ o, sizes_ok o → let o' := foldl clean_step o D in
  sizes_ok o' ∧ length (occs o') = length (occs o) ∧
  ∀ l, in_occs o l →
    occ_get o' l = (if decide (l ∈ D) then cleaned o l else occ_get o l) ∧
    is_dirty o' l = (if decide (l ∈ D) then false else is_dirty o l).
Proof.
  induction D as [| p D IH]; intros o Hs; cbn [foldl].
  { split; [done |]. split; [done |]. intros l Hl. by rewrite !decide_False by apply not_elem_of_nil. }
  destruct (decide (in_occs o p)) as [Hp | Hp].
  - destruct (clean_step_spec o p Hs Hp) as (Hs1 & El1 & H1).
    destruct (IH _ Hs1) as (Hs2 & El2 & H2). split; [done |]. split; [lia |].
    intros l Hl. destruct (H1 l Hl) as [G1 D1].
    destruct (H2 l) as [-> ->]; [unfold in_occs in *; lia |].
    unfold cleaned at 1. rewrite G1, D1. destruct (decide (l = p)) as [-> | Hne].
    + rewrite !(decide_True (P := p ∈ p :: D)) by by left. split; by case_decide.
    + assert (l ∈ p :: D ↔ l ∈ D) as Hiff by (rewrite elem_of_cons; naive_solver).
      unfold cleaned. split; repeat case_decide; tauto.
  - assert (clean_step o p = o) as -> by (unfold clean_step; by rewrite not_in_occs).
    destruct (IH _ Hs) as (Hs2 & El2 & H2). split; [done |]. split; [done |]. intros l Hl.
    assert (l ∈ p :: D ↔ l ∈ D) as Hiff.
    { rewrite elem_of_cons. split; [intros [-> |]; done | by right]. }
    destruct (H2 l Hl) as [-> ->]. split; repeat case_decide; tauto.
Qed.

Lemma cleanAll_spec o : sizes_ok o → (∀ l, is_dirty o l = true → l ∈ dirties o) →
  let o' := occ_cleanAll del o in
  sizes_ok o' ∧ length (occs o') = length (occs o) ∧ dirties o' = [] ∧
  (∀ l, in_occs o l → occ_get o' l = cleaned o l) ∧ (∀ l, is_dirty o' l = false).
Proof.
  intros Hs Hd o'. destruct (clean_fold (dirties o) o Hs) as (Hs' & El & H).
  change (foldl clean_step o (dirties o)) with
    (foldl (λ o l, if is_dirty o l then occ_clean del o l else o) o (dirties o)) in *.
  assert (∀ l, in_occs o l → occ_get o' l = cleaned o l ∧ is_dirty o' l = false) as H'.
  { intros l Hl. destruct (H l Hl) as [G1 D1].
    change (occ_get o' l) with (occ_get (foldl clean_step o (dirties o)) l).
    change (is_dirty o' l) with (is_dirty (foldl clean_step o (dirties o)) l).
    unfold clean_step. rewrite G1, D1. case_decide as E; [done |].
    destruct (is_dirty o l) eqn:Ed; [by destruct E; apply Hd |]. unfold cleaned. by rewrite Ed. }
  split; [exact Hs' |]. split; [exact El |]. split; [done |]. split; [intros l Hl; by apply H' |].
  intros l. destruct (decide (in_occs o l)) as [Hl | Hl]; [by apply H' |].
  apply not_in_occs; [exact Hs' |]. unfold in_occs in *. unfold o', occ_cleanAll; simpl. by rewrite El.
Qed.
End CleanAll.

(** After [cleanAll] the lists have watchers of live clauses only. *)
Lemma cleaned_watch n B a (o : OccLists Watcher) :
  WatchOk n B (a_mem a) (occ_get o) (is_dirty o) →
  (∀ l w, lit_ok n l → w ∈ cleaned (watcher_deleted a) o l → ∃ c, live (a_mem a) (w_cref w) c ∧
     watched c l ∧ (w_blocker w ∈ c_lits c ∨ B (w_blocker w))) ∧
  (∀ cr c l, live (a_mem a) cr c → watched c l → cr ∈ (w_cref <$> cleaned (watcher_deleted a) o l)) ∧
  (∀ l, lit_ok n l → NoDup (w_cref <$> cleaned (watcher_deleted a) o l)).
Proof.
  intros [W1 W2 W3]. unfold cleaned. split; [| split].
  - intros l w Hl Hw.
    assert (w ∈ occ_get o l ∧ (is_dirty o l = true → watcher_deleted a w = false)) as [Hin Hd].
    { destruct (is_dirty o l); [| done]. by apply list_elem_of_filter in Hw as [? ?]. }
    destruct (W1 l w Hl Hin) as (c & E & [[Hm Hd'] | (Hm & H1 & H2)]).
    + specialize (Hd Hd'). unfold watcher_deleted, ca_deref in Hd. rewrite E, Hm in Hd. done.
    + exists c. done.
  - intros cr c l Hl Hw. pose proof (W2 cr c l Hl Hw) as Hin. destruct (is_dirty o l); [| done].
    apply list_elem_of_fmap in Hin as (w & -> & Hin). apply list_elem_of_fmap_2, list_elem_of_filter.
    split; [| done]. unfold watcher_deleted, ca_deref. destruct Hl as [-> Hm]. by apply Z.eqb_neq.
  - intros l Hl. destruct (is_dirty o l); [| by apply W3].
    eapply sublist_NoDup; [by apply W3 |]. apply fmap_sublist, sublist_filter.
Qed.
