(* ===== verification/GarbageSpec.v ===== *)
(** * [garbageCollect]

    [DbInv]: what holds of the clause lists and the arena between the steps of
    the search.  [garbageCollect] keeps it, the watched-literal invariant, the
    reasons and the literals of every clause, and the region does not grow. *)
From Stdlib Require Import SpecFloat.
From S2P Require Import Prelude Lit UnitProp Vec Heap Alloc Double DoubleSpec Clause Solver Propagate.
From S2P Require Import PropCheck Setup SetupSpec Reasons Analyze Reduce RelocSpec CollectSpec.

(** ** The clause lists and the arena *)

(** The words of the clause at [cr]. *)
Definition mem_words (m : Mem) (cr : CRef) : Z :=
  match m !! cr with Some c => words_of c | None => 0 end.

(** [crs] are the clauses that are not removed; their words and the wasted ones
    fit in the region; a list with removed clauses is in [dirties]. *)
Record DbInv (s : Core) (crs : list CRef) : Prop := {
  db_nodup : NoDup crs;
  db_live : ∀ cr, cr ∈ crs ↔ ∃ c, live (mem s) cr c;
  db_clause : ∀ cr c, mem s !! cr = Some c →
    c_reloced c = false ∧ (c_learnt c = true → c_has_extra c = true);
  db_arena : arena_ok (ca s);
  db_extra : a_extra (ca s) = false;
  db_wasted : 0 <= r_wasted (a_region (ca s));
  db_words : sum_words (mem_words (mem s)) crs + r_wasted (a_region (ca s)) <= r_sz (a_region (ca s));
  db_dirty : ∀ l, is_dirty (watches s) l = true → l ∈ dirties (watches s) }.

Lemma live_fun m cr c c' : live m cr c → live m cr c' → c' = c.
Proof. intros [E _] [E' _]. rewrite E in E'. by injection E'. Qed.

Lemma sum_words_Forall2 f g (P : CRef → CRef → Prop) l k : (∀ x y, P x y → g y = f x) →
  Forall2 P l k → sum_words g k = sum_words f l.
Proof. intros H. induction 1 as [| x y l k Hp F IH]; simpl; [done |]. by rewrite IH, (H x y). Qed.

Lemma region_range r : Alloc.wf r → 0 <= r_sz r <= max_capacity.
Proof. intros [Hc Hs]. pose proof (caps_range _ Hc). lia. Qed.

(** The literals of the nested loops over variables and signs. *)
Lemma all_lits_spec n l : l ∈ all_lits (Z.of_nat n) ↔ lit_ok (Z.of_nat n) l.
Proof.
  unfold all_lits. rewrite Nat2Z.id, list_elem_of_bind. unfold lit_ok. split.
  - intros (v & Hl & Hv%elem_of_seq). rewrite !elem_of_cons, elem_of_nil in Hl.
    destruct Hl as [-> | [-> | []]]; rewrite var_mkLit; lia.
  - intros Hr. exists (Z.to_nat (var l)). rewrite Z2Nat.id by lia. split; [| apply elem_of_seq; lia].
    rewrite !elem_of_cons. rewrite <- (mkLit_var_sign l) at 1 3. destruct (sign l); tauto.
Qed.

Lemma nodup_all_lits n : NoDup (all_lits n).
Proof.
  unfold all_lits. apply NoDup_bind.
  - intros v w l _ _. rewrite !elem_of_cons, elem_of_nil. intros Hv Hw.
    assert (var l = Z.of_nat v ∧ var l = Z.of_nat w) as [? ?]; [| lia].
    destruct Hv as [-> | [-> | []]], Hw as [E | [E | []]]; apply (f_equal var) in E;
      rewrite !var_mkLit in *; lia.
  - intros v _. apply NoDup_cons. split; [| apply NoDup_singleton].
    intros E%list_elem_of_singleton. apply (f_equal sign) in E. by rewrite !sign_mkLit in E.
  - apply NoDup_seq.
Qed.

(** ** The solver after the references were redirected *)

Section Redirected.
Context (s : Core) (crs : list CRef) (q : nat) (assumps : list Lit).
Hypothesis I : Inv q s.
Hypothesis R : RInv assumps s.
Hypothesis D : DbInv s crs.

Let bound : Z := r_sz (a_region (ca s)) - r_wasted (a_region (ca s)).

Lemma old_ok cr c : live (mem s) cr c →
  c_reloced c = false ∧ (2 <= length (c_lits c))%nat ∧ (c_learnt c = true → c_has_extra c = true).
Proof using I D.
  intros Hl. destruct (db_clause _ _ D cr c (proj1 Hl)) as [H1 H2]. split; [done |]. split; [| done].
  by apply (cl_two _ _ (inv_cls _ _ I) cr).
Qed.

Lemma old_all cr c : live (mem s) cr c → cr ∈ crs.
Proof using D. intros Hl. apply (db_live _ _ D). by exists c. Qed.

Lemma bound_range : 0 <= bound <= r_sz (a_region (ca s)) ∧ r_sz (a_region (ca s)) <= max_capacity.
Proof using D.
  pose proof (db_words _ _ D). pose proof (db_wasted _ _ D).
  pose proof (region_range _ (proj1 (db_arena _ _ D))).
  assert (0 <= sum_words (mem_words (mem s)) crs).
  { apply sum_words_nonneg. intros x _. unfold mem_words. destruct (mem s !! x) as [c |]; [| done].
    pose proof (words_pos c). lia. }
  unfold bound. lia.
Qed.

(** [a] is the old arena with its forwarding references, [s'] the solver with
    the new arena [ca s']. *)
Record Redirected (a : Arena) (s' : Core) : Prop := {
  re_moving : Moving (mem s) crs bound a (ca s');
  re_assigns : assigns s' = assigns s;
  re_trail : trail s' = trail s;
  re_lims : trail_lim s' = trail_lim s;
  re_size : length (vardata s') = length (vardata s);
  re_level : ∀ x, level s' x = level s x;
  re_undef : ∀ t, t ∈ trail s → reason s (var t) = CRef_Undef → reason s' (var t) = CRef_Undef;
  re_reason : ∀ t, t ∈ trail s → reason s (var t) ≠ CRef_Undef →
    moved (mem s) a (reason s (var t)) (reason s' (var t));
  re_watch : ∀ l, lit_ok (nv s) l →
    Forall2 (wmoved (mem s) a) (cleaned (watcher_deleted (ca s)) (watches s) l) (occ_get (watches s') l);
  re_dirty : ∀ l, is_dirty (watches s') l = false;
  re_occs : length (occs (watches s')) = (2 * length (assigns s))%nat;
  re_dirties : length (dirty (watches s')) = (2 * length (assigns s))%nat }.

Section After.
Context (a : Arena) (s' : Core).
Hypothesis Re : Redirected a s'.

Lemma moved_live x y : moved (mem s) a x y → ∃ c, live (mem s) x c ∧ live (mem s') y (copied c).
Proof using I D Re.
  intros Hm. pose proof Hm as (c & Hl & _). exists c. split; [done |].
  split; [| apply Hl]. eapply moved_copy; [exact old_ok | apply Re | exact Hm | done].
Qed.

Lemma new_moved y c' : mem s' !! y = Some c' →
  ∃ x c, moved (mem s) a x y ∧ live (mem s) x c ∧ live (mem s') y c' ∧ c' = copied c.
Proof using I D Re.
  intros E. destruct (mv_new _ _ _ _ _ (re_moving _ _ Re) y c' E) as [x Hm].
  destruct (moved_live x y Hm) as (c & Hl & Hl'). exists x, c.
  destruct Hl' as [E' Hm']. assert (c' = copied c) as -> by congruence. done.
Qed.

Lemma moved_same x y z : moved (mem s) a x y → moved (mem s) a x z → y = z.
Proof using I D. apply moved_fun. exact old_ok. Qed.

Lemma moved_range x y : moved (mem s) a x y → 0 <= y < CRef_Undef.
Proof using I D Re.
  intros (c & _ & [E _])%moved_live. destruct (mv_arena _ _ _ _ _ (re_moving _ _ Re)) as [Hwf Hin].
  specialize (Hin y (copied c) E). pose proof (region_range _ Hwf).
  assert (max_capacity < CRef_Undef) by done. lia.
Qed.

Lemma redirected_clauses : ClausesOk (nv s') (mem s').
Proof using I D Re.
  assert (nv s' = nv s) as -> by (unfold nv; by rewrite (re_assigns _ _ Re)).
  destruct (inv_cls _ _ I) as [C1 C2 C3 C4]. split.
  - intros y c (x & c0 & Hm & _)%new_moved. pose proof (moved_range _ _ Hm). lia.
  - intros y c [(x & c0 & _ & Hl & _ & ->)%new_moved _]. by apply (C2 x c0).
  - intros y c [(x & c0 & _ & Hl & _ & ->)%new_moved _]. by apply (C3 x c0).
  - intros y c l [(x & c0 & _ & Hl & _ & ->)%new_moved _]. by apply (C4 x c0).
Qed.

Lemma redirected_watch : WatchOk (nv s') (dead (trail s') (trail_lim s')) (mem s') (occ_get (watches s')) (is_dirty (watches s')).
Proof using I D Re.
  assert (nv s' = nv s) as -> by (unfold nv; by rewrite (re_assigns _ _ Re)).
  rewrite (re_trail _ _ Re), (re_lims _ _ Re).
  destruct (cleaned_watch (nv s) _ (ca s) (watches s) (inv_watch _ _ I)) as (W1 & W2 & W3). split.
  - intros l w' Hl Hw'. pose proof (re_watch _ _ Re l Hl) as F.
    apply list_elem_of_lookup_1 in Hw' as [j Hj].
    destruct (Forall2_lookup_r _ _ _ _ _ F Hj) as (w & Hw & Hm & Hb).
    destruct (W1 l w Hl) as (c & Hlc & Hwc & Hbc); [by eapply list_elem_of_lookup_2 |].
    destruct (moved_live _ _ Hm) as (c' & Hlc' & Hn).
    assert (c' = c) as -> by (by eapply live_fun).
    exists (copied c). split; [apply Hn |]. right. split; [apply Hn |]. by rewrite Hb.
  - intros y c' l [(x & c & Hm & Hl & _ & ->)%new_moved _] Hw.
    assert (watched c l) as Hw0 by exact Hw.
    assert (lit_ok (nv s) l) as Hlo.
    { rewrite <- (lit_neg_involutive l). apply lit_ok_neg, (cl_range _ _ (inv_cls _ _ I) x c); [done |].
      destruct Hw0 as [Hw0 | Hw0]; by eapply list_elem_of_lookup_2. }
    pose proof (W2 x c l Hl Hw0) as (w & -> & Hin)%list_elem_of_fmap.
    apply list_elem_of_lookup_1 in Hin as [j Hj].
    destruct (Forall2_lookup_l _ _ _ _ _ (re_watch _ _ Re l Hlo) Hj) as (w' & Hw' & Hm' & _).
    rewrite (moved_same _ _ _ Hm Hm'). apply list_elem_of_fmap_2. by eapply list_elem_of_lookup_2.
  - intros l Hl. apply NoDup_alt. intros i j y Hi Hj. rewrite list_lookup_fmap in Hi, Hj.
    apply fmap_Some in Hi as (w1 & Hi & ->), Hj as (w2 & Hj & Ew).
    pose proof (re_watch _ _ Re l Hl) as F.
    destruct (Forall2_lookup_r _ _ _ _ _ F Hi) as (v1 & Hv1 & Hm1 & _).
    destruct (Forall2_lookup_r _ _ _ _ _ F Hj) as (v2 & Hv2 & Hm2 & _).
    rewrite Ew in Hm1. pose proof (mv_inj _ _ _ _ _ (re_moving _ _ Re) _ _ _ Hm1 Hm2) as E.
    eapply (NoDup_lookup _ i j); [by apply (W3 l) | |]; rewrite list_lookup_fmap.
    + rewrite Hv1. simpl. reflexivity.
    + rewrite Hv2. simpl. by rewrite E.
Qed.

Lemma redirected_inv : Inv q s'.
Proof using I D Re.
  pose proof redirected_clauses as C. pose proof redirected_watch as W.
  assert (nv s' = nv s) as En by (unfold nv; by rewrite (re_assigns _ _ Re)).
  destruct Re as [HM Ea Et El _ _ _ _ _ _ O1 O2].
  split; rewrite ?Et, ?El, ?Ea, ?En in *; try done; try apply I.
  intros y c' l i [(x & c & Hm & Hl & _ & ->)%new_moved _] Hw. by apply (inv_just _ _ I x c).
Qed.

Lemma redirected_rinv : RInv assumps s'.
Proof using I R D Re.
  destruct R as [R1 R2 R3 R4 R5]. pose proof (re_trail _ _ Re) as Et. pose proof (re_lims _ _ Re) as El.
  split; rewrite ?Et, ?El, ?(re_assigns _ _ Re); try done.
  - by rewrite (re_size _ _ Re).
  - intros i t Hi. rewrite (re_level _ _ Re). by apply R2.
  - intros i t Hi Hr. assert (t ∈ trail s) as Ht by (by eapply list_elem_of_lookup_2).
    destruct (decide (reason s (var t) = CRef_Undef)) as [E | E].
    { by destruct Hr; apply (re_undef _ _ Re). }
    destruct (R3 i t Hi E) as (c & rest & Hl & Ec & Hrest).
    destruct (moved_live _ _ (re_reason _ _ Re t Ht E)) as (c' & Hl' & Hn).
    assert (c' = c) as -> by (by eapply live_fun). by exists (copied c), rest.
  - intros i t k Hi Hr. apply R4; [done |]. assert (t ∈ trail s) as Ht by (by eapply list_elem_of_lookup_2).
    destruct (decide (reason s (var t) = CRef_Undef)) as [E | E]; [done |]. exfalso.
    pose proof (moved_range _ _ (re_reason _ _ Re t Ht E)). rewrite Hr in *. lia.
Qed.

Lemma redirected_db crs' : Forall2 (moved (mem s) a) crs crs' → DbInv s' crs'.
Proof using I D Re.
  intros F. pose proof (re_moving _ _ Re) as HM. split.
  - apply NoDup_alt. intros i j y Hi Hj.
    destruct (Forall2_lookup_r _ _ _ _ _ F Hi) as (x1 & H1 & Hm1).
    destruct (Forall2_lookup_r _ _ _ _ _ F Hj) as (x2 & H2 & Hm2).
    pose proof (mv_inj _ _ _ _ _ HM _ _ _ Hm1 Hm2) as E. rewrite E in H1.
    eapply (NoDup_lookup crs); [apply D | done | done].
  - intros y. split.
    + intros [j Hj]%list_elem_of_lookup_1. destruct (Forall2_lookup_r _ _ _ _ _ F Hj) as (x & _ & Hm).
      destruct (moved_live _ _ Hm) as (c & _ & Hl). by exists (copied c).
    + intros (c' & [E _]). destruct (new_moved _ _ E) as (x & c & Hm & Hl & _).
      pose proof (old_all _ _ Hl) as [j Hj]%list_elem_of_lookup_1.
      destruct (Forall2_lookup_l _ _ _ _ _ F Hj) as (y' & Hy & Hm'). rewrite (moved_same _ _ _ Hm Hm').
      by eapply list_elem_of_lookup_2.
  - intros y c' (x & c & _ & Hl & _ & ->)%new_moved. by destruct (old_ok _ _ Hl).
  - apply HM.
  - apply HM.
  - by rewrite (mv_wasted _ _ _ _ _ HM).
  - rewrite (mv_wasted _ _ _ _ _ HM), <- (mv_used _ _ _ _ _ HM), Z.add_0_r.
    apply Z.eq_le_incl, (sum_words_Forall2 _ _ (moved (mem s) a)); [| done]. intros x y Hm.
    pose proof Hm as (c0 & Hl0 & Ea). destruct (moved_live _ _ Hm) as (c & Hl & [E _]).
    assert (c0 = c) as -> by (by eapply live_fun).
    unfold mem_words, done_words. rewrite E, Ea. unfold words_of, copied, relocate, c_size. simpl.
    by rewrite length_insert.
  - intros l. by rewrite (re_dirty _ _ Re).
Qed.

Lemma redirected_sat crs' σ : Forall2 (moved (mem s) a) crs crs' → Sat σ s' ↔ Sat σ s.
Proof using I D Re.
  intros F. unfold Sat, level0. rewrite (re_trail _ _ Re), (re_lims _ _ Re).
  assert (models σ (db (mem s')) ↔ models σ (db (mem s))); [| tauto]. split.
  - intros H ls (x & c & Hl & <-).
    pose proof (old_all _ _ Hl) as [j Hj]%list_elem_of_lookup_1.
    destruct (Forall2_lookup_l _ _ _ _ _ F Hj) as (y & _ & Hm).
    destruct (moved_live _ _ Hm) as (c' & Hl' & Hn). apply H. exists y, (copied c').
    split; [done |]. by rewrite (live_fun _ _ _ _ Hl Hl').
  - intros H ls (y & c' & [E _] & <-). destruct (new_moved _ _ E) as (x & c & _ & Hl & _ & ->).
    apply H. by exists x, c.
Qed.
End After.
End Redirected.

(** ** [garbageCollect] *)

(** The clause at [y] is the one that was at [x]. *)
Definition same_clause (s s' : Core) (x y : CRef) : Prop :=
  ∃ c, live (mem s) x c ∧ live (mem s') y (copied c).

Record Collected (assumps : list Lit) (q : nat) (st st' : Solver) : Prop := {
  co_inv : Inv q (core st');
  co_rinv : RInv assumps (core st');
  co_db : DbInv (core st') (clauses st' ++ learnts st');
  co_clauses : Forall2 (same_clause (core st) (core st')) (clauses st) (clauses st');
  co_learnts : Forall2 (same_clause (core st) (core st')) (learnts st) (learnts st');
  co_sat : ∀ σ, Sat σ (core st') ↔ Sat σ (core st);
  co_new : ∀ y c', mem (core st') !! y = Some c' → ∃ x c, mem (core st) !! x = Some c ∧ c' = copied c;
  co_frame : st' = st <| core := core st' |> <| learnts := learnts st' |> <| clauses := clauses st' |>;
  co_core : assigns (core st') = assigns (core st) ∧ trail (core st') = trail (core st) ∧
    trail_lim (core st') = trail_lim (core st) ∧ qhead (core st') = qhead (core st);
  co_level : ∀ x, level (core st') x = level (core st) x;
  co_room : r_sz (a_region (ca (core st'))) <= r_sz (a_region (ca (core st))) }.

Section Collect.
Context (assumps : list Lit) (q : nat) (st : Solver).
Hypothesis I : Inv q (core st).
Hypothesis R : RInv assumps (core st).
Hypothesis D : DbInv (core st) (clauses st ++ learnts st).
Hypothesis Hvars : nVars st = nv (core st).

#[local] Abbreviation s := (core st).
#[local] Abbreviation crs := (clauses st ++ learnts st).
#[local] Abbreviation bound := (r_sz (a_region (ca s)) - r_wasted (a_region (ca s))).
#[local] Abbreviation moving := (Moving (mem s) crs bound).

Lemma moving_start r : Alloc.wf r → r_sz r = 0 → r_wasted r = 0 → moving (ca s) (MkArena r ∅ false).
Proof using I D.
  intros Hwf Hsz Hw. split; simpl.
  - by intros cr c [E _]; left.
  - intros y c' E. by apply lookup_empty_Some in E.
  - intros x y z (c & Hl & E) _. pose proof (old_ok _ _ _ I D x c Hl) as (Hr & _).
    destruct Hl as [E' _]. unfold mem in E'. rewrite E in E'. injection E' as E'. by rewrite <- E' in Hr.
  - split; [done |]. intros cr c E. simpl in E. by apply lookup_empty_Some in E.
  - done.
  - done.
  - rewrite Hsz. pose proof (db_words _ _ D) as Hd.
    rewrite (sum_words_ext _ (mem_words (mem s))); [lia |]. intros x (c & [E _])%(db_live _ _ D).
    unfold left_words, mem_words. unfold mem in *. rewrite E. by destruct (db_clause _ _ D x c E) as [-> _].
  - rewrite Hsz. rewrite (sum_words_ext _ (λ _, 0)).
    + clear. induction (clauses st ++ learnts st); simpl; lia.
    + intros x (c & [E _])%(db_live _ _ D). unfold done_words. unfold mem in E. rewrite E.
      by destruct (db_clause _ _ D x c E) as [-> _].
Qed.

Lemma reasons_ok s1 t : assigns s1 = assigns s → vardata s1 = vardata s → t ∈ trail s →
  reason_ok (mem s) s1 t.
Proof using I R.
  intros Ea Ev Ht. pose proof (tr_range _ _ _ (inv_trail _ _ I) t Ht) as Hr.
  unfold reason_ok, reason, value, value_var. rewrite Ea, Ev. split; [| split].
  - rewrite (ri_size _ _ R). exact Hr.
  - pose proof (value_isTrue s (inv_trail _ _ I) t Hr) as Hv. unfold value, value_var in Hv.
    rewrite Hv. by apply bool_decide_eq_true_2.
  - intros Hu. apply list_elem_of_lookup_1 in Ht as [i Hi].
    destruct (ri_reason _ _ R i t Hi Hu) as (c & rest & Hl & Ec & _). by exists c, rest.
Qed.

Lemma listed_live cr : cr ∈ crs → live_at (mem s) cr.
Proof using D. apply (db_live _ _ D). Qed.

Lemma garbageCollect_spec : ∃ st', garbageCollect st = Some st' ∧ Collected assumps q st st'.
Proof using All.
  pose proof (db_nodup _ _ D) as Hnd.
  pose proof (λ cr c, old_all _ _ D cr c) as Hall. pose proof (old_ok _ _ _ I D) as Hold.
  destruct (bound_range _ _ D) as [Hb Hmax].
  assert (bound <= max_capacity) as Hbound by lia.
  unfold garbageCollect.
  destruct (capacity_spec empty_region (u32 bound)) as (r & Er & Hwf & _ & Hsz & Hw & _).
  { split; [left | simpl; lia]. }
  { assert (max_capacity < 2 ^ 32) by done. unfold u32. rewrite Z.mod_small by lia. lia. }
  unfold new_region. rewrite Er. clear Er. cbn [mbind option_bind].
  unfold relocAll. set (o := occ_cleanAll _ _).
  assert (sizes_ok (watches s)) as Hso.
  { unfold sizes_ok. by rewrite (inv_occs _ _ I), (inv_dirty _ _ I). }
  destruct (cleanAll_spec (watcher_deleted (ca s)) (watches s) Hso (db_dirty _ _ D)) as
    (Hso' & Elo & Edo & Hg & Hd). fold o in Hso', Elo, Edo, Hg, Hd.
  assert (∀ l, lit_ok (nv s) l ↔ in_occs (watches s) l) as Hin.
  { intros l. unfold in_occs. rewrite (inv_occs _ _ I). rewrite lit_ok_x. unfold nv. lia. }
  destruct (cleaned_watch (nv s) _ (ca s) (watches s) (inv_watch _ _ I)) as (W1 & _).
  destruct (reloc_occs_spec (mem s) crs bound Hnd Hall Hold Hbound (all_lits (nVars st)) (ca s)
    (MkArena r ∅ false) o) as (o1 & a1 & to1 & -> & HM1 & M1 & F1 & _ & Ed1 & Eds1 & El1).
  { by apply moving_start. }
  { apply nodup_all_lits. }
  { intros l Hl. rewrite Hvars in Hl. apply all_lits_spec, Hin in Hl. unfold in_occs in *. by rewrite Elo. }
  { intros l w Hl Hw'. rewrite Hvars in Hl. apply all_lits_spec in Hl.
    rewrite Hg in Hw' by by apply Hin. destruct (W1 l w Hl Hw') as (c & Hc & _). by exists c. }
  cbn [mbind option_bind].
  set (s1 := s <| watches := o1 |>).
  destruct (reloc_reasons_spec (mem s) crs bound Hnd Hall Hold Hbound (trail s) s1 a1 to1 HM1)
    as (s2 & a2 & to2 & -> & HM2 & M2 & K2).
  { apply (inv_trail _ _ I). }
  { intros t Ht. by apply reasons_ok. }
  cbn [mbind option_bind].
  destruct (reloc_clauses_spec (mem s) crs bound Hnd Hall Hold Hbound (learnts st) a2 to2 HM2)
    as (ls & a3 & to3 & -> & HM3 & M3 & F3).
  { intros cr Hcr. apply listed_live, elem_of_app. by right. }
  cbn [mbind option_bind].
  destruct (reloc_clauses_spec (mem s) crs bound Hnd Hall Hold Hbound (clauses st) a3 to3 HM3)
    as (cs & a4 & to4 & -> & HM4 & M4 & F4).
  { intros cr Hcr. apply listed_live, elem_of_app. by left. }
  cbn [mbind option_bind]. unfold ca_moveTo.
  set (s' := s2 <| ca := to4 |>).
  assert (mono (mem s) a1 a4) as M14 by (intros x y Hm; by apply M4, M3, M2).
  assert (mono (mem s) a2 a4) as M24 by (intros x y Hm; by apply M4, M3).
  destruct K2 as [E1 E2 E3 E4 E5 E6].
  assert (assigns s2 = assigns s ∧ trail s2 = trail s ∧ trail_lim s2 = trail_lim s ∧
    qhead s2 = qhead s ∧ watches s2 = o1) as (Ea2 & Et2 & El2 & Eq2 & Ew2) by (by rewrite E1).
  assert (Redirected s crs a4 s') as Re.
  { split; unfold s'; simpl; rewrite ?Ea2, ?Et2, ?El2, ?Ew2; try done.
    - intros t Ht Hr. by apply M24, E5.
    - intros l Hl. assert (l ∈ all_lits (nVars st)) as Hl' by (rewrite Hvars; by apply all_lits_spec).
      specialize (F1 l Hl'). rewrite Hg in F1 by by apply Hin. eapply wmoved_mono; [exact M14 | exact F1].
    - intros l. unfold is_dirty. rewrite Ed1. apply Hd.
    - rewrite El1, Elo. apply I.
    - rewrite Ed1. unfold sizes_ok in Hso'. rewrite Hso', Elo. apply I. }
  assert (Forall2 (moved (mem s) a4) (clauses st) cs ∧ Forall2 (moved (mem s) a4) (learnts st) ls) as [Fc Fl].
  { split; [done |]. eapply Forall2_impl; [exact F3 |]. intros x y. apply M4. }
  assert (Forall2 (moved (mem s) a4) crs (cs ++ ls)) as F by by apply Forall2_app.
  assert (∀ x y, moved (mem s) a4 x y → same_clause s s' x y) as Hsame.
  { intros x y Hm. destruct (moved_live _ _ _ I D _ _ Re x y Hm) as (c & H1 & H2). by exists c. }
  eexists. split; [done |].
  change (Collected assumps q st (st <| core := s' |> <| learnts := ls |> <| clauses := cs |>)).
  split; simpl; try done.
  - by eapply redirected_inv.
  - by eapply redirected_rinv.
  - by eapply redirected_db.
  - eapply Forall2_impl; [exact Fc | done].
  - eapply Forall2_impl; [exact Fl | done].
  - intros σ. by eapply redirected_sat.
  - intros y c' E. destruct (new_moved _ _ _ I D _ _ Re y c' E) as (x & c & _ & Hl & _ & ->).
    exists x, c. by destruct Hl.
  - pose proof (mv_room _ _ _ _ _ HM4).
    assert (0 <= sum_words (left_words a4) crs); [| lia].
    apply sum_words_nonneg. intros x _. unfold left_words. destruct (a_mem a4 !! x) as [c |]; [| done].
    destruct (c_reloced c); [done |]. pose proof (words_pos c). lia.
Qed.
End Collect.
