(* ===== verification/SearchInv.v ===== *)
(** * The invariant of the search

    [CInv F]: the watched-literal invariant, the reasons, the clause lists and
    what the clauses mean: every model of the formula [F] satisfies all clauses
    and the literals of level 0, and the problem clauses with the literals of
    level 0 imply [F].  The lemmas say that propagation, backtracking, new
    levels, decisions and the bookkeeping of the analysis keep it. *)
From Stdlib Require Import SpecFloat.
From S2P Require Import Prelude Lit UnitProp Vec Heap Alloc Double DoubleSpec Clause Solver Propagate.
From S2P Require Import PropCheck Setup SetupSpec Reasons Analyze AnalyzeSpec Reduce RelocSpec CollectSpec.
From S2P Require Import GarbageSpec.

(** The clauses at [cs] that are not removed, as a formula. *)
Definition problem (m : Mem) (cs : list CRef) : formula :=
  λ ls, ∃ cr c, cr ∈ cs ∧ live m cr c ∧ c_lits c = ls.

Definition acts_ok (m : Mem) : Prop := ∀ cr c, m !! cr = Some c → d_nonneg (c_act c).

Record CInv (F : formula) (assumps : list Lit) (q : nat) (cs ls : list CRef) (s : Core) : Prop := {
  ci_inv : Inv q s;
  ci_rinv : RInv assumps s;
  ci_db : DbInv s (cs ++ ls);
  ci_sound : ∀ σ, models σ F → Sat σ s;
  ci_complete : ∀ σ, models σ (problem (mem s) cs) → models_lits σ (level0 s) → models σ F;
  ci_acts : acts_ok (mem s) }.

(** ** Clauses that keep their words *)

(** The clauses of two memories correspond, with the same flags, words and
    literals up to their order. *)
Definition like_clause (c c' : Clause) : Prop :=
  c_mark c' = c_mark c ∧ c_reloced c' = c_reloced c ∧ c_learnt c' = c_learnt c ∧
  c_has_extra c' = c_has_extra c ∧ c_lits c ≡ₚ c_lits c'.

Definition mem_like (m m' : Mem) : Prop := ∀ cr : CRef, option_Forall2 like_clause (m !! cr) (m' !! cr).

#[export] Instance like_clause_sym : Symmetric like_clause.
Proof. intros c c' (? & ? & ? & ? & ?). by repeat split. Qed.

Lemma mem_like_sym m m' : mem_like m m' → mem_like m' m.
Proof. intros H cr. symmetry. apply H. Qed.

Lemma option_Forall2_weaken {A} (P Q : A → A → Prop) (x y : option A) :
  option_Forall2 P x y → (∀ a b, P a b → Q a b) → option_Forall2 Q x y.
Proof. intros [a b H |] HPQ; constructor. auto. Qed.

Lemma mem_perm_like m m' : mem_perm m m' → mem_like m m'.
Proof.
  intros H cr. refine (option_Forall2_weaken _ _ _ _ (H cr) _). intros c c' [-> Hp]. by repeat split.
Qed.

Lemma act_like s s' : act_only s s' → mem_like (mem s) (mem s').
Proof.
  intros H cr. refine (option_Forall2_weaken _ _ _ _ (ao_mem _ _ H cr) _).
  intros c c' (E & ? & ? & ? & ?). repeat split; try done. by rewrite E.
Qed.

Lemma like_lookup m m' (cr : CRef) c : mem_like m m' → m !! cr = Some c → ∃ c', m' !! cr = Some c' ∧ like_clause c c'.
Proof. intros H E. specialize (H cr). rewrite E in H. inversion H; eauto. Qed.

Lemma like_live m m' cr c : mem_like m m' → live m cr c → ∃ c', live m' cr c' ∧ c_lits c ≡ₚ c_lits c'.
Proof.
  intros H [E Hm]. destruct (like_lookup _ _ _ _ H E) as (c' & E' & M & _ & _ & _ & P).
  exists c'. split; [| done]. split; [done | congruence].
Qed.

Lemma like_words m m' cr : mem_like m m' → mem_words m' cr = mem_words m cr.
Proof.
  intros H. unfold mem_words. specialize (H cr).
  destruct (m !! cr) as [c |], (m' !! cr) as [c' |]; inversion H as [x y (_ & _ & _ & X & P) |]; [| done].
  unfold words_of, c_size. by rewrite X, P.
Qed.

Lemma like_problem m m' cs : mem_like m m' → formula_equiv (problem m cs) (problem m' cs).
Proof.
  intros H. split.
  - intros ls (cr & c & Hin & Hl & <-). destruct (like_live _ _ _ _ H Hl) as (c' & ? & ?).
    exists (c_lits c'). split; [by exists cr, c' | done].
  - apply mem_like_sym in H. intros ls (cr & c & Hin & Hl & <-).
    destruct (like_live _ _ _ _ H Hl) as (c' & ? & ?). exists (c_lits c'). split; [by exists cr, c' | done].
Qed.

Lemma like_db m m' : mem_like m m' → formula_equiv (db m) (db m').
Proof.
  intros H. split.
  - intros ls (cr & c & Hl & <-). destruct (like_live _ _ _ _ H Hl) as (c' & ? & ?).
    exists (c_lits c'). split; [by exists cr, c' | done].
  - apply mem_like_sym in H. intros ls (cr & c & Hl & <-).
    destruct (like_live _ _ _ _ H Hl) as (c' & ? & ?). exists (c_lits c'). split; [by exists cr, c' | done].
Qed.

Lemma like_arena (s s' : Core) : mem_like (mem s) (mem s') → a_region (ca s') = a_region (ca s) →
  arena_ok (ca s) → arena_ok (ca s').
Proof.
  intros H E [Hwf Hin]. split; rewrite E; [done |]. intros cr c' E'.
  destruct (like_lookup _ _ _ _ (mem_like_sym _ _ H) E') as (c & Ec & _). by apply (Hin cr c).
Qed.

Lemma dbinv_like s s' crs : DbInv s crs → mem_like (mem s) (mem s') →
  a_region (ca s') = a_region (ca s) → a_extra (ca s') = a_extra (ca s) →
  (∀ l, is_dirty (watches s') l = true → is_dirty (watches s) l = true) →
  dirties (watches s') = dirties (watches s) → DbInv s' crs.
Proof.
  intros [D1 D2 D3 D4 D5 D6 D7 D8] H Er Ex Hd Ed. split; rewrite ?Er, ?Ex; try done.
  - intros cr. rewrite D2. split; intros (c & Hl).
    + destruct (like_live _ _ _ _ H Hl) as (c' & ? & _). by exists c'.
    + destruct (like_live _ _ _ _ (mem_like_sym _ _ H) Hl) as (c' & ? & _). by exists c'.
  - intros cr c' E'. destruct (like_lookup _ _ _ _ (mem_like_sym _ _ H) E') as (c & E & _ & R & L & X & _).
    destruct (D3 cr c E) as [H1 H2]. split; [congruence |].
    rewrite <- X, <- L. done.
  - by apply (like_arena s).
  - rewrite (sum_words_ext _ (mem_words (mem s))); [done |]. intros cr _. by apply like_words.
  - intros l Hl. rewrite Ed. auto.
Qed.

(** ** Literals of level 0 *)

Section Level0.
Context (s : Core) (q : nat).
Hypothesis I : Inv q s.

(** A position behind the propagated part is on the current level. *)
Lemma late_level i : (q <= i)%nat → lvl_at (trail_lim s) i = decisionLevel s.
Proof using I. intros Hi. apply lvl_at_all. intros m Hm. pose proof (inv_lims_q _ _ I m Hm). lia. Qed.

(** More literals on the trail: new ones of level 0 only at level 0. *)
Lemma level0_more s' news l : trail s' = trail s ++ news → trail_lim s' = trail_lim s →
  level0 s' l → level0 s l ∨ (trail_lim s = [] ∧ l ∈ news).
Proof using I.
  intros Et El (i & Hi & H0). rewrite Et in Hi. rewrite El in H0.
  apply lookup_app_Some in Hi as [Hi | [Hge Hi]]; [left; by exists i |]. right.
  pose proof (inv_q _ _ I). rewrite late_level in H0 by lia.
  split; [by apply nil_length_inv |]. by eapply list_elem_of_lookup_2.
Qed.

Lemma level0_kept s' news l : trail s' = trail s ++ news → trail_lim s' = trail_lim s →
  level0 s l → level0 s' l.
Proof using.
  intros Et El (i & Hi & H0). exists i. rewrite Et, El. split; [by apply lookup_app_l_Some | done].
Qed.

(** Backtracking keeps them. *)
Lemma level0_cut s' lvl lim l : trail_lim s !! lvl = Some lim → trail s' = take lim (trail s) →
  trail_lim s' = take lvl (trail_lim s) → level0 s' l ↔ level0 s l.
Proof using I.
  intros El Et Elim. pose proof (inv_lims _ _ I) as Hs. unfold level0. rewrite Et, Elim. split.
  - intros (i & Hi & H0). pose proof (lookup_lt_Some _ _ _ Hi) as Hlt. rewrite length_take in Hlt.
    rewrite lookup_take_lt in Hi by lia. exists i. split; [done |].
    rewrite <- (lvl_at_take _ Hs lvl lim) by (done || lia). done.
  - intros (i & Hi & H0).
    assert (i < lim)%nat as Hlt by (apply (lvl_at_below _ Hs lvl lim i El); lia).
    exists i. rewrite lookup_take_lt by done. split; [done |]. by rewrite (lvl_at_take _ Hs lvl lim).
Qed.
End Level0.

(** ** The invariant under the steps of the search *)

Section Steps.
Context (F : formula) (assumps : list Lit) (cs ls : list CRef).

#[local] Abbreviation CI q s := (CInv F assumps q cs ls s).

(** Propagation. *)
Lemma cinv_ext q q' s s' : CI q s → ext s s' → Inv q' s' → CI q' s'.
Proof.
  intros [I R D S C A] X I'. destruct (ext_trail _ _ X) as [news Et]. pose proof (ext_lims _ _ X) as El.
  pose proof (ext_mem _ _ X) as P. pose proof (mem_perm_like _ _ P) as L.
  destruct (ext_region _ _ X) as [Er Ex]. split; [done | | | | |].
  - by apply (ext_rinv _ _ X).
  - eapply dbinv_like; [done | done | done | done | apply X | apply X].
  - intros σ Hσ. destruct (S σ Hσ) as [S1 S2]. split; [by rewrite <- (mem_perm_db _ _ P) |].
    intros l [Hl | [E0 Hl]]%(level0_more s q I s' news); [by apply S2 | | done | done].
    apply (UP_sound (db (mem s)) (lit_on (trail s))); [done | |].
    + intros k Hk. by apply S2, level0_all.
    + apply (ext_up _ _ X). rewrite Et. apply elem_of_app. by right.
  - intros σ H1 H2. apply C; [by rewrite (like_problem _ _ cs L) |].
    intros l Hl. by apply H2, (level0_kept s s' news).
  - intros cr c' E'. destruct (mem_perm_lookup _ _ _ _ (symmetry P) E') as (c & E & [Ec _]).
    pose proof (A _ _ E) as HA. by rewrite Ec in HA.
Qed.

(** The analysis of a conflict. *)
Lemma cinv_act q s s' : CI q s → act_only s s' → acts_ok (mem s') → CI q s'.
Proof.
  intros [I R D S C A] X A'. pose proof (act_like _ _ X) as L.
  destruct (act_fields _ _ X) as (Ea & Ev & Et & El & Eq & Ew). split.
  - by apply (act_inv s).
  - by apply (act_rinv s).
  - eapply dbinv_like; [done | done | apply X | apply X | by rewrite Ew | by rewrite Ew].
  - intros σ Hσ. rewrite (act_sat s s' X). auto.
  - intros σ H1 H2. apply C; [by rewrite (like_problem _ _ cs L) |].
    intros l Hl. apply H2. unfold level0 in *. by rewrite Et, El.
  - done.
Qed.

(** Backtracking. *)
Lemma cinv_cancel q st lvl lim : CI q (core st) → trail_lim (core st) !! lvl = Some lim →
  CI lim (core (cancelUntil st lvl)).
Proof.
  intros [I R D S C A] El. destruct (cancel_inv st lvl lim q I El) as (I' & Et & Elim & _ & Eca & Esz).
  assert (watches (core (cancelUntil st lvl)) = watches (core st)) as Ew.
  { unfold cancelUntil. case_match_goal; [| done]. by destruct (undo_loop _ _ _ _ _). }
  assert (∀ l, level0 (core (cancelUntil st lvl)) l ↔ level0 (core st) l) as H0.
  { intros l. by eapply level0_cut. }
  split; unfold mem in *; rewrite ?Eca; try done.
  - by eapply rinv_cancel.
  - destruct D. split; unfold mem in *; rewrite ?Eca, ?Ew; done.
  - intros σ Hσ. destruct (S σ Hσ) as [S1 S2]. split; [unfold mem; by rewrite Eca |].
    intros l Hl. by apply S2, H0.
  - intros σ H1 H2. apply C; [done |]. intros l Hl. by apply H2, H0.
Qed.

(** A new level without a literal of its own. *)
Lemma cinv_new_level s : CI (length (trail s)) s →
  (∀ a, assumps !! decisionLevel s = Some a → a ∈ trail s) →
  CI (length (trail s)) (newDecisionLevel s).
Proof.
  intros [I R D S C A] Ha.
  assert (∀ l, level0 (newDecisionLevel s) l ↔ level0 s l) as H0.
  { intros l. unfold level0, newDecisionLevel; simpl. split; intros (i & Hi & H); exists i;
      (split; [done |]); by rewrite (lvl_at_new s i l) in *. }
  split; try done.
  - by apply inv_new_level.
  - by apply rinv_new_level.
  - by destruct D.
  - intros σ Hσ. destruct (S σ Hσ) as [S1 S2]. split; [done |]. intros l Hl. by apply S2, H0.
  - intros σ H1 H2. apply C; [done |]. intros l Hl. by apply H2, H0.
Qed.

(** A literal enqueued without a reason, on a level above 0 or implied. *)
Lemma cinv_enqueue q s p : CI q s →
  (∀ k, decisionLevel s = S k → last (trail_lim s) = Some (length (trail s)) ∧
     ∀ a, assumps !! k = Some a → p = a) →
  (trail_lim s = [] → ∀ σ, models σ F → lit_true σ p = true) →
  lit_ok (nv s) p → p ∉ trail s → lit_neg p ∉ trail s →
  CI q (uncheckedEnqueue s p CRef_Undef).
Proof.
  intros [I R D S C A] Hd H0 Hp Hn1 Hn2. split; try done.
  - by apply inv_enqueue.
  - by eapply rinv_decide.
  - by destruct D.
  - intros σ Hσ. destruct (S σ Hσ) as [S1 S2]. split; [done |].
    intros l [Hl | [E0 Hl%list_elem_of_singleton]]%(level0_more s q I _ [p]); [by apply S2 | | done | done].
    subst. auto.
  - intros σ H1 H2. apply C; [done |]. intros l Hl. by apply H2, (level0_kept s _ [p]).
Qed.
End Steps.
