(* ===== verification/LearnSpec.v ===== *)
(** * Attaching a learnt clause

    The new clause goes to the end of the arena and is attached, then its first
    literal is enqueued with the clause as its reason: the invariant of the
    search holds again when all of this is done. *)
From Stdlib Require Import SpecFloat.
From S2P Require Import Prelude Lit UnitProp Vec Heap Alloc Double DoubleSpec Clause Solver Propagate.
From S2P Require Import PropCheck Setup SetupSpec Reasons Analyze AnalyzeSpec Reduce RelocSpec CollectSpec.
From S2P Require Import GarbageSpec SearchInv.

(** ** The arena *)

Lemma ca_alloc_region a ps learnt cr a' : arena_ok a → 
  r_sz (a_region a) + Z.of_nat (length ps) + 2 <= max_capacity → ca_alloc a ps learnt = Some (cr, a') →
  a_extra a' = a_extra a ∧ r_wasted (a_region a') = r_wasted (a_region a) ∧
  r_sz (a_region a') = r_sz (a_region a) + clauseWord32Size (Z.of_nat (length ps)) (learnt || a_extra a).
Proof.
  intros [Hwf _] Hroom. unfold ca_alloc. set (w := clauseWord32Size _ _).
  assert (0 < w <= Z.of_nat (length ps) + 2) as Hw.
  { unfold w, clauseWord32Size. destruct (learnt || a_extra a); simpl; lia. }
  destruct (alloc_spec (a_region a) w Hwf) as (r & E & _ & Hs); [lia | lia |].
  rewrite E. simpl. intros [= <- <-]. simpl. split; [done |]. split; [by eapply alloc_wasted | done].
Qed.

(** A clause at a fresh reference. *)
Lemma dbinv_add s s' crs crs' cr c : DbInv s crs → mem s !! cr = None → cr ≠ CRef_Undef →
  mem s' = <[cr := c]> (mem s) → c_mark c ≠ 1 → c_reloced c = false →
  (c_learnt c = true → c_has_extra c = true) → arena_ok (ca s') → a_extra (ca s') = a_extra (ca s) →
  r_wasted (a_region (ca s')) = r_wasted (a_region (ca s)) →
  r_sz (a_region (ca s')) = r_sz (a_region (ca s)) + words_of c →
  dirty (watches s') = dirty (watches s) → dirties (watches s') = dirties (watches s) →
  crs' ≡ₚ cr :: crs → DbInv s' crs'.
Proof.
  intros [D1 D2 D3 D4 D5 D6 D7 D8] Hn Hu Em Hm Hr Hx Ha Ex Ew Es Ed Eds Hp.
  assert (cr ∉ crs) as Hnin.
  { intros (c' & E & _)%D2. rewrite Hn in E. done. }
  assert (∀ x cx, live (mem s') x cx ↔ (x = cr ∧ cx = c) ∨ (x ≠ cr ∧ live (mem s) x cx)) as Hl.
  { intros x cx. unfold live. rewrite Em. destruct (decide (cr = x)) as [<- | Hne].
    - rewrite lookup_insert_eq. split; [intros [[= <-] _]; by left |]. by intros [[_ ->] | [[] _]].
    - rewrite lookup_insert_ne by done. split; [by right; split; [intros -> |] |].
      by intros [[-> _] | [_ ?]]. }
  split; rewrite ?Ex, ?Ew, ?Es; try done.
  - rewrite Hp. by apply NoDup_cons.
  - intros x. rewrite Hp, elem_of_cons, D2. setoid_rewrite Hl. split.
    + intros [-> | (cx & Hlx)]; [exists c; by left |]. exists cx. right. split; [| done]. intros ->.
      destruct Hlx as [E _]. by rewrite Hn in E.
    + intros (cx & [[-> _] | [_ Hlx]]); [by left | right; by exists cx].
  - intros x cx E. rewrite Em in E. destruct (decide (cr = x)) as [<- | Hne].
    + rewrite lookup_insert_eq in E. by injection E as <-.
    + rewrite lookup_insert_ne in E by done. by apply (D3 x).
  - rewrite (sum_words_perm _ _ _ Hp). cbn [sum_words].
    assert (mem_words (mem s') cr = words_of c) as ->.
    { unfold mem_words. by rewrite Em, lookup_insert_eq. }
    rewrite (sum_words_ext _ (mem_words (mem s))); [lia |]. intros x Hx'. unfold mem_words.
    rewrite Em, lookup_insert_ne; [done |]. by intros ->.
  - intros l Hl'. rewrite Eds. apply D8. unfold is_dirty in *. by rewrite Ed in Hl'.
Qed.

Lemma lvl_at_full lims i m : lvl_at lims i = length lims → m ∈ lims → (m <= i)%nat.
Proof.
  unfold lvl_at. induction lims as [| n lims IH]; intros E Hm; [by apply elem_of_nil in Hm |].
  rewrite filter_cons in E. case_decide as Hn; simpl in E.
  - apply elem_of_cons in Hm as [-> | Hm]; [done |]. apply IH; [lia | done].
  - pose proof (length_filter (λ m, (m <= i)%nat) lims). lia.
Qed.

(** ** The learnt clause and its first literal *)

Section Learn.
Context (F : formula) (assumps : list Lit) (cs ls : list CRef) (s : Core) (p l2 : Lit) (rest : list Lit).
Context (cr : CRef) (a : Arena).

#[local] Abbreviation q := (length (trail s)).
#[local] Abbreviation c := (new_clause (p :: l2 :: rest) true true).
#[local] Abbreviation s1 := (attach_core (s <| ca := a |>) cr c).

Hypothesis C : CInv F assumps q cs ls s.
Hypothesis Ealloc : ca_alloc (ca s) (p :: l2 :: rest) true = Some (cr, a).
Hypothesis Hroom : r_sz (a_region (ca s)) + Z.of_nat (length (p :: l2 :: rest)) + 2 <= max_capacity.
Hypothesis Hnd : NoDup (p :: l2 :: rest).
Hypothesis Hok : Forall (lit_ok (nv s)) (p :: l2 :: rest).
Hypothesis Hp : p ∉ trail s.
Hypothesis Hnp : lit_neg p ∉ trail s.
Hypothesis Hrest : ∀ l, l ∈ l2 :: rest → lit_neg l ∈ trail s.
Hypothesis Hl2 : ∀ i, trail s !! i = Some (lit_neg l2) → lvl_at (trail_lim s) i = decisionLevel s.
Hypothesis Hdl : trail_lim s ≠ [].
Hypothesis Hent : ∀ σ, models σ F → clause_true σ (p :: l2 :: rest).

Lemma learn_fresh : mem s !! cr = None ∧ a_mem a = <[cr := c]> (mem s) ∧ cr ≠ CRef_Undef ∧ arena_ok a ∧
  a_extra a = a_extra (ca s) ∧ r_wasted (a_region a) = r_wasted (a_region (ca s)) ∧
  r_sz (a_region a) = r_sz (a_region (ca s)) + words_of c.
Proof using C Ealloc Hroom.
  pose proof (db_arena _ _ (ci_db _ _ _ _ _ _ C)) as Ha.
  destruct (ca_alloc_spec (ca s) (p :: l2 :: rest) true Ha Hroom) as (a' & E & H1 & H2 & H3 & H4 & _).
  destruct (ca_alloc_region _ _ _ _ _ Ha Hroom Ealloc) as (H5 & H6 & H7).
  rewrite Ealloc in E. injection E as E1 E2. subst a'. rewrite <- E1 in H2, H3, H4.
  split; [exact H3 |]. split; [exact H2 |]. split; [exact H4 |]. split; [exact H1 |].
  split; [exact H5 |]. split; [exact H6 | exact H7].
Qed.

Lemma learn_enqueued : CInv F assumps q cs (ls ++ [cr]) (uncheckedEnqueue s1 p cr).
Proof using All.
  destruct C as [I R D S Co A]. destruct learn_fresh as (Hn & Em & Hu & Ha & Hx & Hw & Hs).
  pose proof (inv_trail _ _ I) as T.
  pose proof Hok as [Hpo [Hl2o _]%Forall_cons]%Forall_cons.
  set (s0 := uncheckedEnqueue s p cr).
  assert (Inv q s0) as I0 by by apply inv_enqueue.
  assert (nv s0 = nv s) as Env by (unfold nv, s0; simpl; by rewrite length_zset).
  assert (Inv q (uncheckedEnqueue s1 p cr)) as I1.
  { change (uncheckedEnqueue s1 p cr) with (attach_core (s0 <| ca := a |>) cr c).
    apply attach_inv; try done; [simpl; lia | by rewrite Env |].
    intros l i Hwl Hi Ei. rewrite (watched_pair c p l2 rest) in Hwl by done.
    simpl in Ei. rewrite lookup_app_l in Ei by done. destruct Hwl as [-> | ->].
    - by destruct Hnp; eapply list_elem_of_lookup_2.
    - exists p, q. split; [by left |]. split; [simpl; by rewrite lookup_app_r, Nat.sub_diag by lia |].
      intros m Hm _. eapply lvl_at_full; [by apply Hl2 | done]. }
  assert (mem s1 = <[cr := c]> (mem s)) as Em1 by exact Em.
  assert (∀ x cx, live (mem s) x cx → live (mem s1) x cx) as Hlv.
  { intros x cx [E Hm]. split; [| done]. rewrite Em1, lookup_insert_ne; [done |]. intros <-.
    by rewrite Hn in E. }
  assert (RInv assumps s1) as R1.
  { apply (rinv_same _ s); try done. intros x cx t k Hlx _ _. by apply Hlv. }
  split; [done | | | | |].
  - apply (rinv_enqueue _ _ _ _ c (l2 :: rest)); try done.
    + intros m Hm. by apply (inv_lims_q _ _ I).
    + split; [| done]. by rewrite Em1, lookup_insert_eq.
  - eapply (dbinv_add s _ _ _ cr c); try done. rewrite (assoc_L (++)). symmetry. apply Permutation_cons_append.
  - intros σ Hσ. destruct (S σ Hσ) as [S1 S2]. split.
    + intros k (x & cx & [E Hm] & <-). change (mem (uncheckedEnqueue s1 p cr)) with (mem s1) in E.
      rewrite Em1 in E. destruct (decide (cr = x)) as [<- | Hne].
      * rewrite lookup_insert_eq in E. injection E as <-. by apply Hent.
      * rewrite lookup_insert_ne in E by done. apply S1. by exists x, cx.
    + intros l [Hl | [E0 _]]%(level0_more s q I _ [p]); [by apply S2 | done | done | done].
  - intros σ H1 H2. apply Co.
    + intros k (x & cx & Hin & Hlx & <-). apply H1. exists x, cx. split; [done |]. split; [by apply Hlv | done].
    + intros l Hl. by apply H2, (level0_kept s _ [p]).
  - intros x cx E. change (mem (uncheckedEnqueue s1 p cr)) with (mem s1) in E. rewrite Em1 in E.
    destruct (decide (cr = x)) as [<- | Hne].
    + rewrite lookup_insert_eq in E. by injection E as <-.
    + rewrite lookup_insert_ne in E by done. by apply (A x).
Qed.

(** With the activity of the clause bumped in between. *)
Lemma cinv_learn s2 : act_only s1 s2 → acts_ok (mem s2) →
  CInv F assumps q cs (ls ++ [cr]) (uncheckedEnqueue s2 p cr).
Proof using All.
  intros A HA. apply (cinv_act _ _ _ _ _ (uncheckedEnqueue s1 p cr)); [by apply learn_enqueued | | done].
  pose proof A as [E1 E2 E3 E4]. split; try done. rewrite E1 at 1. done.
Qed.
End Learn.
