(* ===== verification/RemoveSpec.v ===== *)
(** * Removing a clause

    [removeClause] marks the clause, smudges the two lists that watch it, clears
    the reason it is and counts its words as wasted.  The invariant of the
    search survives if the clause is no reason above level 0 and, for a problem
    clause, true at level 0. *)
From Stdlib Require Import SpecFloat.
From S2P Require Import Prelude Lit UnitProp Vec Heap Alloc Double DoubleSpec Clause Solver Propagate.
From S2P Require Import PropCheck Setup SetupSpec Reasons Analyze AnalyzeSpec Reduce RelocSpec CollectSpec.
From S2P Require Import GarbageSpec SearchInv.

(** ** [smudge] *)

Lemma smudge_spec (o : OccLists Watcher) l : 0 <= lit_x l < Z.of_nat (length (dirty o)) →
  (∀ x, is_dirty o x = true → x ∈ dirties o) →
  let o' := occ_smudge o l in
  occs o' = occs o ∧ length (dirty o') = length (dirty o) ∧
  (∀ x, is_dirty o' x = true ↔ x = l ∨ is_dirty o x = true) ∧
  (∀ x, is_dirty o' x = true → x ∈ dirties o').
Proof.
  intros Hr Hd o'. unfold o', occ_smudge. destruct (Z.eqb_spec (zget 0 (dirty o) (lit_x l)) 0) as [E | E]; simpl.
  - split; [done |]. split; [apply length_zset |].
    assert (∀ x, is_dirty (MkOcc (occs o) (zset (dirty o) (lit_x l) 1) (dirties o ++ [l])) x = true ↔
      x = l ∨ is_dirty o x = true) as H.
    { intros x. unfold is_dirty; simpl. rewrite zget_zset by done. case_decide as Hx.
      - apply lit_eq in Hx as <-. split; [by left | done].
      - split; [by right |]. intros [-> |]; done. }
    split; [done |]. intros x. rewrite H, elem_of_app. intros [-> | ?%Hd]; [right; by left | by left].
  - split; [done |]. split; [done |]. split; [| done]. intros x. split; [by right |].
    intros [-> |]; [| done]. unfold is_dirty. by apply negb_true_iff, Z.eqb_neq.
Qed.

(** ** The solver afterwards *)

Definition smudged (o : OccLists Watcher) (c : Clause) : OccLists Watcher :=
  occ_smudge (occ_smudge o (lit_neg (c_lits c !!! 0%nat))) (lit_neg (c_lits c !!! 1%nat)).

Definition removed_core (s : Core) (cr : CRef) (c : Clause) : Core :=
  let s1 := s <| watches := smudged (watches s) c |> in
  let s2 := if locked s cr c then clear_reason s1 (var (c_lits c !!! 0%nat)) else s1 in
  s2 <| ca := MkArena (free (a_region (ca s)) (words_of c)) (<[cr := set_mark c 1]> (a_mem (ca s))) (a_extra (ca s)) |>.

(** Only the clauses, their counters and the proof change. *)
Definition db_frame (st st' : Solver) : Prop :=
  st' = ((st <| core := core st' |>) <| stats := stats st' |>) <| proof := proof st' |> ∧
  conflicts (stats st') = conflicts (stats st) ∧ propagations (stats st') = propagations (stats st).

#[export] Instance db_frame_preorder : PreOrder db_frame.
Proof.
  split.
  - intros st. split; [by destruct st | done].
  - intros s1 s2 s3 (E1 & A1 & B1) (E2 & A2 & B2). split; [| split; congruence].
    rewrite E2, E1. done.
Qed.

Lemma removeClause_eq st cr c : mem (core st) !! cr = Some c → ∃ st', removeClause st cr true = Some st' ∧
  core st' = removed_core (core st) cr c ∧ db_frame st st'.
Proof.
  intros E. unfold mem in E. unfold removeClause, ca_deref. rewrite E. simpl.
  set (st1 := extendProof st (c_lits c) true lit_Undef).
  assert (core st1 = core st ∧ db_frame st st1 ∧ stats st1 = stats st) as (E1 & F1 & G1).
  { unfold st1, extendProof, db_frame. destruct (proof st) eqn:Ep; simpl; [done |].
    split; [done |]. split; [| done]. split; [by destruct st | done]. }
  unfold detachClause, ca_deref. rewrite E1, E. simpl. fold (smudged (watches (core st)) c).
  set (st2 := st1 <| core := _ |> <| stats := _ |>).
  set (w := (core st) <| watches := smudged (watches (core st)) c |>).
  change (locked w cr c) with (locked (core st) cr c).
  set (s3 := if locked (core st) cr c then clear_reason w (var (c_lits c !!! 0%nat)) else w).
  assert (ca s3 = ca (core st)) as E3 by (unfold s3; by case_match_goal).
  unfold ca_free, ca_deref. rewrite E3. simpl. rewrite lookup_insert_eq. simpl.
  eexists. split; [done |]. split; [reflexivity |].
  destruct F1 as (F1 & F2 & F3). split.
  - unfold st2. rewrite F1. reflexivity.
  - simpl. unfold count_clause. rewrite G1. by destruct (c_learnt c).
Qed.

(** ** The invariant *)

Section Removed.
Context (F : formula) (assumps : list Lit) (q : nat) (cs ls : list CRef) (s : Core) (cr : CRef) (c : Clause).
Hypothesis C : CInv F assumps q cs ls s.
Hypothesis Hlive : live (mem s) cr c.
Hypothesis Hlock : locked s cr c = true → trail_lim s = [].

#[local] Abbreviation s' := (removed_core s cr c).

Lemma removed_fields : assigns s' = assigns s ∧ trail s' = trail s ∧ trail_lim s' = trail_lim s ∧
  qhead s' = qhead s ∧ mem s' = <[cr := set_mark c 1]> (mem s) ∧
  a_region (ca s') = free (a_region (ca s)) (words_of c) ∧ a_extra (ca s') = a_extra (ca s) ∧
  watches s' = smudged (watches s) c.
Proof using. clear C Hlive Hlock. unfold removed_core. by destruct (locked s cr c). Qed.

Lemma removed_live x cx : live (mem s') x cx ↔ x ≠ cr ∧ live (mem s) x cx.
Proof using.
  clear C Hlive Hlock. destruct removed_fields as (_ & _ & _ & _ & Em & _). unfold live. rewrite Em.
  destruct (decide (cr = x)) as [<- | Hne].
  - rewrite lookup_insert_eq. split; [| by intros [[] _]]. by intros [[= <-] []].
  - rewrite lookup_insert_ne by done. split; [by intros ?; split; [intros -> |] | by intros [_ ?]].
Qed.

Lemma removed_level x : level s' x = level s x.
Proof using.
  clear C Hlive Hlock. unfold removed_core. destruct (locked s cr c); [| done]. unfold clear_reason, level; simpl.
  set (v := var _). unfold zset, zget. destruct (Z.ltb_spec v 0); [done |].
  destruct (Z.ltb_spec x 0); [done |]. destruct (decide (Z.to_nat v = Z.to_nat x)) as [E | E].
  - rewrite E. assert (v = x) as -> by lia.
    destruct (decide (Z.to_nat x < length (vardata s))%nat) as [Hlt | Hge].
    + rewrite list_lookup_insert_eq by done. done.
    + by rewrite !lookup_ge_None_2 by (rewrite ?length_insert; lia).
  - by rewrite list_lookup_insert_ne.
Qed.

Lemma clause_two : ∃ a b rest, c_lits c = a :: b :: rest ∧ lit_ok (nv s) a ∧ lit_ok (nv s) b.
Proof using C Hlive.
  clear Hlock.
  pose proof (inv_cls _ _ (ci_inv _ _ _ _ _ _ C)) as K. pose proof (cl_two _ _ K _ _ Hlive) as H2.
  pose proof (λ l, cl_range _ _ K _ _ l Hlive) as Hr.
  destruct (c_lits c) as [| a [| b rest]]; simpl in H2; try lia. exists a, b, rest.
  split; [done |]. split; apply Hr; [by left | right; by left].
Qed.

(** A clause that is a reason is locked. *)
Lemma reason_locked i t : trail s !! i = Some t → reason s (var t) = cr → locked s cr c = true.
Proof using C Hlive.
  clear Hlock.
  intros Hi Hr. pose proof (ci_inv _ _ _ _ _ _ C) as I. pose proof (ci_rinv _ _ _ _ _ _ C) as R.
  pose proof (cl_ref _ _ (inv_cls _ _ I) _ _ (proj1 Hlive)) as Hu.
  destruct (ri_reason _ _ R i t Hi) as (c' & rest & Hl & Ec & _); [by rewrite Hr |].
  rewrite Hr in Hl. pose proof (live_fun _ _ _ _ Hlive Hl) as ->. unfold locked. rewrite Ec. csimpl.
  rewrite Hr, Z.eqb_refl, (proj2 (Z.eqb_neq _ _) Hu).
  rewrite (value_isTrue s (inv_trail _ _ I)).
  - rewrite bool_decide_eq_true_2; [done |]. by eapply list_elem_of_lookup_2.
  - apply (tr_range _ _ _ (inv_trail _ _ I)). by eapply list_elem_of_lookup_2.
Qed.

Lemma removed_reason i t : trail s !! i = Some t → reason s' (var t) ≠ CRef_Undef →
  reason s' (var t) = reason s (var t) ∧ reason s (var t) ≠ cr.
Proof using C Hlive.
  clear Hlock.
  intros Hi Hr. pose proof (reason_locked i t Hi) as HL. revert Hr. unfold removed_core.
  destruct (locked s cr c) eqn:Elk; [| intros _; split; [done | intros E; by apply HL in E]].
  pose proof (ci_inv _ _ _ _ _ _ C) as I. pose proof (ci_rinv _ _ _ _ _ _ C) as R.
  destruct clause_two as (a & b & rest & Ec & Ha & _). rewrite Ec. csimpl.
  assert (∀ x, reason (clear_reason s (var a)) x = if decide (var a = x) then CRef_Undef else reason s x) as Hre.
  { intros x. unfold reason, clear_reason; simpl. rewrite zget_zset by (rewrite (ri_size _ _ R); exact Ha).
    by case_decide. }
  change (reason _ (var t)) with (reason (clear_reason s (var a)) (var t)) at 1 2.
  rewrite Hre. case_decide as Hv; [done |]. intros Hr. split; [done |]. intros E.
  destruct (ri_reason _ _ R i t Hi Hr) as (c' & rest' & Hl & Ec' & _). rewrite E in Hl.
  pose proof (live_fun _ _ _ _ Hlive Hl) as ->. rewrite Ec in Ec'. congruence.
Qed.

Lemma removed_undef i t : trail s !! i = Some t → reason s' (var t) = CRef_Undef →
  reason s (var t) = CRef_Undef ∨ trail_lim s = [].
Proof using Hlock.
  intros Hi. unfold removed_core. destruct (locked s cr c) eqn:Elk; [right; auto | left; done].
Qed.

Lemma removed_watch : WatchOk (nv s) (dead (trail s) (trail_lim s)) (mem s') (occ_get (watches s')) (is_dirty (watches s')) ∧
  occs (watches s') = occs (watches s) ∧ length (dirty (watches s')) = length (dirty (watches s)) ∧
  ∀ x, is_dirty (watches s') x = true → x ∈ dirties (watches s').
Proof using C Hlive.
  clear Hlock.
  pose proof (ci_inv _ _ _ _ _ _ C) as I. pose proof (ci_db _ _ _ _ _ _ C) as D.
  destruct clause_two as (a & b & rest & Ec & Ha & Hb).
  destruct removed_fields as (_ & _ & _ & _ & Em & _ & _ & Ew).
  pose proof (lit_ok_neg _ _ Ha) as Ha'. pose proof (lit_ok_neg _ _ Hb) as Hb'.
  rewrite lit_ok_x in Ha', Hb'. pose proof (inv_dirty _ _ I) as Hdl. unfold nv in Ha', Hb'.
  destruct (smudge_spec (watches s) (lit_neg a)) as (O1 & L1 & D1 & K1); [lia | apply (db_dirty _ _ D) |].
  destruct (smudge_spec (occ_smudge (watches s) (lit_neg a)) (lit_neg b)) as (O2 & L2 & D2 & K2);
    [lia | done |].
  assert (watches s' = occ_smudge (occ_smudge (watches s) (lit_neg a)) (lit_neg b)) as Ew'.
  { rewrite Ew. unfold smudged. by rewrite Ec. }
  rewrite Ew', O2, O1, L2, L1. split; [| done].
  assert (∀ l, occ_get (occ_smudge (occ_smudge (watches s) (lit_neg a)) (lit_neg b)) l = occ_get (watches s) l) as Hg.
  { intros l. unfold occ_get. by rewrite O2, O1. }
  assert (∀ l, is_dirty (watches s) l = true →
    is_dirty (occ_smudge (occ_smudge (watches s) (lit_neg a)) (lit_neg b)) l = true) as Hd.
  { intros l Hl. apply D2. right. apply D1. by right. }
  destruct (inv_watch _ _ I) as [W1 W2 W3]. split.
  - intros l w Hl. rewrite Hg. intros Hw. destruct (W1 l w Hl Hw) as (cx & E & Hc). rewrite Em.
    destruct (decide (cr = w_cref w)) as [Ex | Hne].
    + exists (set_mark c 1). rewrite <- Ex, lookup_insert_eq. split; [done |]. left. split; [done |].
      assert (cx = c) as -> by (rewrite <- Ex in E; apply (live_fun (mem s) cr); [done |]; split; [done |];
        destruct Hlive as [E' Hm]; assert (cx = c) as -> by congruence; done).
      destruct Hc as [[Hm _] | (_ & Hwl & _)]; [by destruct Hlive |].
      apply (watched_pair _ _ _ _ _ Ec) in Hwl as [-> | ->]; apply D2; [right; apply D1 |]; by left.
    + exists cx. rewrite lookup_insert_ne by done. split; [done |].
      destruct Hc as [[Hm Hdx] | Hc]; [left; auto | by right].
  - intros x cx l [Hx Hlx]%removed_live Hw. rewrite Hg. by eapply W2.
  - intros l Hl. rewrite Hg. by apply W3.
Qed.

Lemma removed_inv : Inv q s'.
Proof using C Hlive.
  clear Hlock.
  pose proof (ci_inv _ _ _ _ _ _ C) as I. destruct removed_watch as (W & O1 & O2 & _).
  destruct removed_fields as (Ea & Et & El & Eq & Em & _).
  assert (nv s' = nv s) as En by (unfold nv; by rewrite Ea).
  split; rewrite ?En, ?Ea, ?Et, ?El, ?O1, ?O2; try done; try apply I.
  - destruct (inv_cls _ _ I) as [C1 C2 C3 C4]. split.
    + intros x cx E. rewrite Em in E. destruct (decide (cr = x)) as [<- | Hne].
      * by apply (C1 cr c), Hlive.
      * rewrite lookup_insert_ne in E by done. by apply (C1 x cx).
    + intros x cx [_ Hl]%removed_live. eauto.
    + intros x cx [_ Hl]%removed_live. eauto.
    + intros x cx l [_ Hl]%removed_live. eauto.
  - intros x cx l i [_ Hl]%removed_live. by apply (inv_just _ _ I x cx).
Qed.

Lemma removed_rinv : RInv assumps s'.
Proof using C Hlive Hlock.
  destruct removed_fields as (Ea & Et & El & Eq & Em & _).
  pose proof (ci_rinv _ _ _ _ _ _ C) as R. pose proof R as [R1 R2 R3 R4 R5].
  split; rewrite ?Ea, ?Et, ?El; try done.
  - rewrite <- R1. unfold removed_core. destruct (locked s cr c); [| done].
    unfold clear_reason; simpl. apply length_zset.
  - intros i t Hi. rewrite removed_level. by apply R2.
  - intros i t Hi Hr. destruct (removed_reason i t Hi Hr) as [-> Hne].
    destruct (decide (reason s (var t) = CRef_Undef)) as [E | E].
    + destruct (removed_reason i t Hi Hr) as [E' _]. congruence.
    + destruct (R3 i t Hi E) as (c' & rest & Hl & Ec & Hrest). exists c', rest.
      split; [by apply removed_live | done].
  - intros i t k Hi Hr Hk. destruct (removed_undef i t Hi Hr) as [Hu | E0]; [by apply R4 |].
    by rewrite E0 in Hk.
Qed.

Lemma removed_db crs : cs ++ ls ≡ₚ cr :: crs → DbInv s' crs.
Proof using C Hlive.
  clear Hlock. intros Hp. destruct removed_watch as (_ & _ & _ & K).
  destruct removed_fields as (_ & _ & _ & _ & Em & Er & Ex & _).
  destruct (ci_db _ _ _ _ _ _ C) as [D1 D2 D3 D4 D5 D6 D7 D8].
  rewrite Hp in D1. apply NoDup_cons in D1 as [Hnin Hnd].
  destruct Hlive as [E Hm].
  assert (words_of c + sum_words (mem_words (mem s)) crs + r_wasted (a_region (ca s)) <= r_sz (a_region (ca s))) as D7'.
  { rewrite (sum_words_perm _ _ _ Hp) in D7. cbn [sum_words] in D7. unfold mem_words at 1 in D7. by rewrite E in D7. }
  pose proof (region_range _ (proj1 D4)) as [_ Hmax]. assert (max_capacity < 2 ^ 32) by done.
  pose proof (words_pos c) as Hw.
  assert (0 <= sum_words (mem_words (mem s)) crs) as Hs.
  { apply sum_words_nonneg. intros x _. unfold mem_words. destruct (mem s !! x) as [cx |]; [| done].
    pose proof (words_pos cx). lia. }
  assert (r_wasted (a_region (ca s')) = r_wasted (a_region (ca s)) + words_of c) as Ew.
  { rewrite Er. unfold free. simpl. unfold u32. apply Z.mod_small. lia. }
  assert (r_sz (a_region (ca s')) = r_sz (a_region (ca s))) as Es by (by rewrite Er).
  split; rewrite ?Ew, ?Es, ?Ex; try done; try lia.
  - intros x. setoid_rewrite removed_live. split.
    + intros Hx. assert (x ∈ cs ++ ls) as (cx & Hcx)%D2 by (rewrite Hp; by right).
      exists cx. split; [by intros -> | done].
    + intros (cx & Hne & Hl). assert (x ∈ cs ++ ls) as Hin by (apply D2; by exists cx).
      rewrite Hp in Hin. by apply elem_of_cons in Hin as [? | ?].
  - intros x cx E'. rewrite Em in E'. destruct (decide (cr = x)) as [<- | Hne].
    + rewrite lookup_insert_eq in E'. injection E' as <-. by apply (D3 cr c).
    + rewrite lookup_insert_ne in E' by done. by apply (D3 x).
  - destruct D4 as [Hwf Hin]. split.
    + rewrite Er. exact Hwf.
    + intros x cx E'. rewrite Es. change (mem s' !! x = Some cx) in E'. rewrite Em in E'.
      destruct (decide (cr = x)) as [<- | Hne]; [by apply (Hin cr c) |].
      rewrite lookup_insert_ne in E' by done. by apply (Hin x cx).
  - rewrite (sum_words_ext _ (mem_words (mem s))); [lia |]. intros x Hx. unfold mem_words.
    rewrite Em, lookup_insert_ne; [done |]. by intros ->.
Qed.

(** [cs'] and [ls'] are the lists without the clause; a problem clause has to be
    true at level 0. *)
Lemma cinv_remove cs' ls' : cs ++ ls ≡ₚ cr :: cs' ++ ls' → (∀ x, x ∈ cs' ↔ x ∈ cs ∧ x ≠ cr) →
  (cr ∈ cs → ∀ σ, models_lits σ (level0 s) → clause_true σ (c_lits c)) →
  CInv F assumps q cs' ls' s'.
Proof using All.
  intros Hp Hcs Htrue. destruct removed_fields as (_ & Et & El & _ & Em & _).
  assert (∀ l, level0 s' l ↔ level0 s l) as H0 by (intros l; unfold level0; by rewrite Et, El).
  pose proof C as [I R D S Co A]. split.
  - by apply removed_inv.
  - by apply removed_rinv.
  - by apply removed_db.
  - intros σ Hσ. destruct (S σ Hσ) as [S1 S2]. split; [| intros l Hl; by apply S2, H0].
    intros k (x & cx & [_ Hl]%removed_live & <-). apply S1. by exists x, cx.
  - intros σ H1 H2. assert (models_lits σ (level0 s)) as H2' by (intros l Hl; by apply H2, H0).
    apply Co; [| done]. intros k (x & cx & Hin & Hl & <-). destruct (decide (x = cr)) as [-> | Hne].
    + rewrite (live_fun _ _ _ _ Hlive Hl). by apply Htrue.
    + apply H1. exists x, cx. split; [by apply Hcs |]. split; [by apply removed_live | done].
  - intros x cx E. rewrite Em in E. destruct (decide (cr = x)) as [<- | Hne].
    + rewrite lookup_insert_eq in E. injection E as <-. by apply (A cr c), Hlive.
    + rewrite lookup_insert_ne in E by done. by apply (A x cx).
Qed.
End Removed.
