(* ===== verification/TrimSpec.v ===== *)
(** * Dropping false literals of level 0

    The inner loop of [removeSatisfied]: what it drops is false, and the two
    watched literals stay; the invariant of the search survives at a
    propagation fixpoint of level 0. *)
From Stdlib Require Import SpecFloat.
From S2P Require Import Prelude Lit UnitProp Vec Heap Alloc Double DoubleSpec Clause Solver Propagate.
From S2P Require Import PropCheck Setup SetupSpec Reasons Analyze AnalyzeSpec Reduce RelocSpec CollectSpec.
From S2P Require Import GarbageSpec SearchInv.

Lemma trim_lits_spec s fuel : ∀ ls k, ∃ dropped,
  ls ≡ₚ dropped ++ trim_lits fuel s ls k ∧
  (∀ l, l ∈ dropped → lb_eqb (value s l) l_False = true) ∧
  ∀ i, (i < k)%nat → trim_lits fuel s ls k !! i = ls !! i.
Proof.
  induction fuel as [| fuel IH]; intros ls k; simpl.
  { exists []. split; [done |]. split; [intros l Hl; by apply elem_of_nil in Hl | done]. }
  destruct (ls !! k) as [l |] eqn:E.
  2:{ exists []. split; [done |]. split; [intros l Hl; by apply elem_of_nil in Hl | done]. }
  destruct (lb_eqb (value s l) l_False) eqn:Ef.
  - destruct (IH (removelast (<[k := ls !!! (length ls - 1)%nat]> ls)) k) as (dr & Hp & Hd & Hk).
    exists (l :: dr). split.
    + simpl. rewrite <- Hp. symmetry. by apply removelast_fill_perm.
    + split; [intros x [-> | Hx]%elem_of_cons; auto |]. intros i Hi. rewrite Hk by done.
      pose proof (lookup_lt_Some _ _ _ E). rewrite removelast_take, length_insert.
      rewrite lookup_take_lt by lia. apply list_lookup_insert_ne. lia.
  - destruct (IH ls (S k)) as (dr & Hp & Hd & Hk). exists dr. split; [done |]. split; [done |].
    intros i Hi. apply Hk. lia.
Qed.

Section Trim.
Context (F : formula) (assumps : list Lit) (cs ls : list CRef) (s : Core) (cr : CRef) (c : Clause).
Context (a b : Lit) (rest rest' : list Lit).
Hypothesis C : CInv F assumps (length (trail s)) cs ls s.
Hypothesis H0 : trail_lim s = [].
Hypothesis Hlive : live (mem s) cr c.
Hypothesis Ec : c_lits c = a :: b :: rest.
Hypothesis Hsub : ∃ dropped, rest ≡ₚ dropped ++ rest' ∧ ∀ l, l ∈ dropped → lit_neg l ∈ trail s.

#[local] Abbreviation ls' := (a :: b :: rest').
#[local] Abbreviation s' := (s <| ca := ca_store (ca s) cr (set_lits c ls') |>).

Lemma trim_keeps l : l ∈ ls' → l ∈ c_lits c.
Proof using Ec Hsub.
  destruct Hsub as (dr & Hp & _). rewrite Ec, !elem_of_cons, Hp, elem_of_app. tauto.
Qed.

Lemma trim_drops l : l ∈ c_lits c → l ∈ ls' ∨ lit_neg l ∈ trail s.
Proof using Ec Hsub.
  destruct Hsub as (dr & Hp & Hd). rewrite Ec, !elem_of_cons, Hp, elem_of_app. intuition.
Qed.

Lemma trim_live x cx' : live (mem s') x cx' → ∃ cx, live (mem s) x cx ∧
  ((x = cr ∧ cx = c ∧ cx' = set_lits c ls') ∨ (x ≠ cr ∧ cx' = cx)).
Proof using Hlive.
  intros [E Hm]. unfold mem in E. simpl in E. destruct (decide (cr = x)) as [<- | Hne].
  - rewrite lookup_insert_eq in E. injection E as <-. exists c. split; [done |]. by left.
  - rewrite lookup_insert_ne in E by done. exists cx'. split; [by split |]. by right.
Qed.

Lemma trim_live_inv x cx : live (mem s) x cx → ∃ cx', live (mem s') x cx' ∧
  ((x = cr ∧ cx = c ∧ cx' = set_lits c ls') ∨ (x ≠ cr ∧ cx' = cx)).
Proof using Hlive.
  intros Hl. destruct (decide (cr = x)) as [<- | Hne].
  - pose proof (live_fun _ _ _ _ Hlive Hl) as ->. exists (set_lits c ls'). split; [| by left].
    split; [| apply Hlive]. unfold mem; simpl. by rewrite lookup_insert_eq.
  - exists cx. split; [| by right]. split; [| apply Hl]. unfold mem; simpl.
    rewrite lookup_insert_ne by done. apply Hl.
Qed.

Lemma trim_watched l : watched (set_lits c ls') l ↔ watched c l.
Proof using Ec. unfold watched. by rewrite Ec. Qed.

Lemma trim_watch : WatchOk (nv s) (dead (trail s) (trail_lim s)) (mem s') (occ_get (watches s)) (is_dirty (watches s)).
Proof using C H0 Hlive Ec Hsub.
  destruct (inv_watch _ _ (ci_inv _ _ _ _ _ _ C)) as [W1 W2 W3]. split; [| | done].
  - intros l w Hl Hw. destruct (W1 l w Hl Hw) as (cx & E & Hc).
    destruct (decide (cr = w_cref w)) as [Ex | Hne].
    + exists (set_lits c ls'). unfold mem; simpl. rewrite <- Ex, lookup_insert_eq. split; [done |].
      rewrite <- Ex in E. destruct Hlive as [Elv Hm].
      assert (cx = c) as -> by (apply (live_fun (mem s) cr); [done |]; split; [done |];
        by assert (cx = c) as -> by congruence).
      right. split; [done |]. destruct Hc as [[? _] | (_ & Hwl & Hb)]; [done |].
      split; [by apply trim_watched |]. destruct Hb as [Hb | Hb]; [| by right].
      destruct (trim_drops _ Hb) as [? | Hd]; [by left | right].
      apply list_elem_of_lookup_1 in Hd as [i Hi]. exists i. split; [done |].
      rewrite H0. intros m Hm'. by apply elem_of_nil in Hm'.
    + exists cx. unfold mem in *; simpl. by rewrite lookup_insert_ne.
  - intros x cx' l (cx & Hl & [(-> & -> & ->) | (Hne & ->)])%trim_live Hw.
    + eapply W2; [done |]. by apply trim_watched.
    + by eapply W2.
Qed.

Lemma cinv_trim : CInv F assumps (length (trail s)) cs ls s'.
Proof using All.
  pose proof trim_keeps as Kp. pose proof trim_drops as Dp. pose proof trim_watched as Wp.
  pose proof trim_live as Lv. pose proof trim_live_inv as Lvi.
  pose proof C as [I R D S Co A]. pose proof (inv_cls _ _ I) as [C1 C2 C3 C4]. 
  assert (NoDup ls') as Hnd.
  { destruct Hsub as (dr & Hp & _). pose proof (C3 _ _ Hlive) as Hn. rewrite Ec, Hp in Hn.
    assert (a :: b :: dr ++ rest' ≡ₚ dr ++ ls') as Hp' by solve_Permutation.
    rewrite Hp' in Hn. by apply NoDup_app in Hn as (_ & _ & ?). }
  assert (∀ x cx, mem s' !! x = Some cx → ∃ cx0, mem s !! x = Some cx0 ∧
    (cx = cx0 ∨ x = cr ∧ cx = set_lits c ls' ∧ cx0 = c)) as Hmem.
  { intros x cx E. unfold mem in E. simpl in E. destruct (decide (cr = x)) as [<- | Hne].
    - rewrite lookup_insert_eq in E. injection E as <-. exists c. split; [apply Hlive | by right].
    - rewrite lookup_insert_ne in E by done. exists cx. split; [done | by left]. }
  split.
  - destruct I. split; try done.
    + split.
      * intros x cx (cx0 & E & _)%Hmem. by apply (C1 x cx0).
      * intros x cx' (cx & Hl & [(-> & -> & ->) | (Hne & ->)])%Lv; [simpl; lia | eauto].
      * intros x cx' (cx & Hl & [(-> & -> & ->) | (Hne & ->)])%Lv; [done | eauto].
      * intros x cx' l (cx & Hl & [(-> & -> & ->) | (Hne & ->)])%Lv; [| eauto].
        intros Hin%Kp. eauto.
    + apply trim_watch.
    + intros x cx' l i (cx & Hl & [(-> & -> & ->) | (Hne & ->)])%Lv Hw Hi Ei.
      * apply Wp in Hw. destruct (inv_just cr c l i Hl Hw Hi Ei) as (t & j & Ht & Ej & Hn).
        exists t, j. split; [| done]. destruct (Dp _ Ht) as [? | Hd]; [done |].
        destruct (trail_consistent _ _ _ inv_trail t); [by eapply list_elem_of_lookup_2 | done].
      * by eapply inv_just.
  - destruct R as [R1 R2 R3 R4 R5]. split; try done. intros i t Hi Hr.
    destruct (R3 i t Hi Hr) as (cx & k & Hl & Ek & Hk).
    destruct (Lvi _ _ Hl) as (cx' & Hl' & [(Er & -> & ->) | (Hne & ->)]); [| by exists cx, k].
    change (reason s' (var t)) with (reason s (var t)). exists (set_lits c ls'), (b :: rest').
    split; [done |]. rewrite Ec in Ek. injection Ek as -> <-. split; [done |].
    intros l Hl0. apply Hk. assert (l ∈ c_lits c) as Hlc by (apply Kp; by right).
    rewrite Ec in Hlc. apply elem_of_cons in Hlc as [-> | ?]; [| done].
    apply NoDup_cons in Hnd as [[] _]. done.
  - destruct D as [D1 D2 D3 D4 D5 D6 D7 D8]. split; try done.
    + intros x. rewrite D2. split.
      * intros (cx & (cx' & Hl' & _)%Lvi). by exists cx'.
      * intros (cx & (cx' & Hl' & _)%Lv). by exists cx'.
    + intros x cx (cx0 & E & [-> | (-> & -> & ->)])%Hmem; [by apply (D3 x) |].
      by apply (D3 cr c).
    + destruct D4 as [Hwf Hin]. split; [done |]. intros x cx (cx0 & E & _)%Hmem. by apply (Hin x cx0).
    + etrans; [| exact D7]. apply Z.add_le_mono_r, sum_words_mono. intros x Hx. unfold mem_words.
      unfold mem; simpl. destruct (decide (cr = x)) as [<- | Hne].
      * rewrite lookup_insert_eq. destruct Hlive as [E _]. unfold mem in E. rewrite E.
        unfold words_of, clauseWord32Size, c_size. rewrite Ec. simpl.
        destruct Hsub as (dr & Hp & _). rewrite Hp, length_app. lia.
      * by rewrite lookup_insert_ne.
  - intros σ Hσ. destruct (S σ Hσ) as [S1 S2]. split; [| done].
    intros k (x & cx' & (cx & Hl & [(-> & -> & ->) | (Hne & ->)])%Lv & <-); [| apply S1; by exists x, cx].
    destruct (S1 (c_lits c)) as (l & Hl' & Ht); [by exists cr, c |]. exists l. split; [| done].
    destruct (Dp _ Hl') as [? | Hd]; [done |].
    assert (lit_true σ (lit_neg l) = true) as Ht' by by apply S2, level0_all.
    by rewrite lit_true_neg, Ht in Ht'.
  - intros σ H1 H2. apply Co; [| done]. intros k (x & cx & Hin & Hl & <-).
    destruct (Lvi _ _ Hl) as (cx' & Hl' & Hcase).
    destruct (H1 (c_lits cx')) as (l & Hlin & Ht); [by exists x, cx' |]. exists l. split; [| done].
    destruct Hcase as [(-> & -> & ->) | (_ & ->)]; [by apply Kp | done].
  - intros x cx (cx0 & E & [-> | (-> & -> & ->)])%Hmem; [by apply (A x) | by apply (A cr c)].
Qed.
End Trim.
