(* ===== verification/ReduceSpec.v ===== *)
(** * Correctness of clause deletion

    [reduceDB] and [removeSatisfied] keep the invariant of the search and the
    assignment; garbage collection included. *)
From Stdlib Require Import SpecFloat.
From S2P Require Import Prelude Lit Sort UnitProp Vec Heap Alloc Double DoubleSpec Clause Solver Propagate.
From S2P Require Import PropCheck Setup SetupSpec Reasons Analyze AnalyzeSpec Reduce RelocSpec CollectSpec.
From S2P Require Import GarbageSpec SearchInv RemoveSpec TrimSpec.

#[local] Opaque d_const d_add d_mul d_div d_ltb f_of_d.

(** ** What deletion leaves alone *)

Record core_frame (s s' : Core) : Prop := {
  cf_assigns : assigns s' = assigns s;
  cf_trail : trail s' = trail s;
  cf_lims : trail_lim s' = trail_lim s;
  cf_qhead : qhead s' = qhead s;
  cf_level : ∀ x, level s' x = level s x;
  cf_room : r_sz (a_region (ca s')) <= r_sz (a_region (ca s)) }.

#[export] Instance core_frame_preorder : PreOrder core_frame.
Proof.
  split; [by intros s |]. intros s1 s2 s3 [? ? ? ? V ?] [? ? ? ? W ?].
  split; try congruence; try lia; intros x; by rewrite W.
Qed.

Definition search_frame (st st' : Solver) : Prop :=
  st' = ((((st <| core := core st' |>) <| stats := stats st' |>) <| proof := proof st' |>)
    <| learnts := learnts st' |>) <| clauses := clauses st' |> ∧
  conflicts (stats st') = conflicts (stats st) ∧ propagations (stats st') = propagations (stats st) ∧
  core_frame (core st) (core st').

#[export] Instance search_frame_preorder : PreOrder search_frame.
Proof.
  split.
  - intros st. split; [by destruct st |]. split; [done |]. split; [done | reflexivity].
  - intros s1 s2 s3 (E1 & A1 & B1 & C1) (E2 & A2 & B2 & C2). split; [| split; [congruence | split; [congruence |]]].
    + rewrite E2, E1. done.
    + by etrans.
Qed.

Lemma removed_frame s cr c : core_frame s (removed_core s cr c).
Proof.
  destruct (removed_fields s cr c) as (Ea & Et & El & Eq & Em & Er & _). split; try done.
  apply removed_level.
Qed.

Lemma db_search_frame st st' : db_frame st st' → core_frame (core st) (core st') → search_frame st st'.
Proof. intros (E & H1 & H2) H. split; [| done]. rewrite E. reflexivity. Qed.

Lemma db_frame_fields st st' : db_frame st st' → assumptions st' = assumptions st ∧
  clauses st' = clauses st ∧ learnts st' = learnts st ∧ order st' = order st ∧ seen st' = seen st ∧
  released_vars st' = released_vars st ∧ params st' = params st ∧ next_var st' = next_var st ∧
  cla_inc st' = cla_inc st ∧ conflict st' = conflict st.
Proof. intros (E & _). by rewrite E. Qed.

Lemma listed_clause s crs cr : DbInv s crs → cr ∈ crs → ∃ c, live (mem s) cr c ∧ ca_deref (ca s) cr = Some c.
Proof. intros D (c & Hl)%(db_live _ _ D). exists c. split; [done | apply Hl]. Qed.

(** Removing the clause behind [pre] in one of the two lists. *)
Lemma remove_learnt F assumps q cs pre crs st cr c : CInv F assumps q cs (pre ++ cr :: crs) (core st) →
  live (mem (core st)) cr c → (locked (core st) cr c = true → trail_lim (core st) = []) →
  ∃ st', removeClause st cr true = Some st' ∧ CInv F assumps q cs (pre ++ crs) (core st') ∧
    db_frame st st' ∧ core_frame (core st) (core st').
Proof.
  intros C Hl Hk. destruct (removeClause_eq st cr c (proj1 Hl)) as (st' & E & Ec & Fr).
  exists st'. split; [done |]. rewrite Ec. split; [| split; [done | apply removed_frame]].
  pose proof (db_nodup _ _ (ci_db _ _ _ _ _ _ C)) as Hnd.
  assert (cs ++ pre ++ cr :: crs ≡ₚ cr :: cs ++ pre ++ crs) as Hp by solve_Permutation.
  rewrite Hp in Hnd. apply NoDup_cons in Hnd as [Hn _].
  assert (cr ∉ cs) as Hncs by (intros Hin; apply Hn, elem_of_app; by left).
  eapply cinv_remove; try done.
  intros x. split; [| by intros [? _]]. intros Hx. split; [done |]. by intros ->.
Qed.

Lemma remove_problem F assumps q pre crs ls st cr c : CInv F assumps q (pre ++ cr :: crs) ls (core st) →
  live (mem (core st)) cr c → (locked (core st) cr c = true → trail_lim (core st) = []) →
  (∀ σ, models_lits σ (level0 (core st)) → clause_true σ (c_lits c)) →
  ∃ st', removeClause st cr true = Some st' ∧ CInv F assumps q (pre ++ crs) ls (core st') ∧
    db_frame st st' ∧ core_frame (core st) (core st').
Proof.
  intros C Hl Hk Ht. destruct (removeClause_eq st cr c (proj1 Hl)) as (st' & E & Ec & Fr).
  exists st'. split; [done |]. rewrite Ec. split; [| split; [done | apply removed_frame]].
  pose proof (db_nodup _ _ (ci_db _ _ _ _ _ _ C)) as Hnd.
  assert ((pre ++ cr :: crs) ++ ls ≡ₚ cr :: (pre ++ crs) ++ ls) as Hp by solve_Permutation.
  rewrite Hp in Hnd. apply NoDup_cons in Hnd as [Hn _].
  assert (cr ∉ pre ++ crs) as Hncs by (intros Hin; apply Hn, elem_of_app; by left).
  eapply cinv_remove; try done.
  intros x. rewrite !elem_of_app, elem_of_cons. rewrite not_elem_of_app in Hncs. split.
  - intros Hx. split; [tauto |]. intros ->. tauto.
  - intros [[? | [? | ?]] ?]; [by left | done | by right].
Qed.

(** ** [reduceDB] *)

Lemma reduce_loop_spec F assumps q cs lim n crs : ∀ st i pre,
  CInv F assumps q cs (pre ++ crs) (core st) →
  ∃ st' crs', reduce_loop st lim n i crs = Some (st', crs') ∧
    CInv F assumps q cs (pre ++ crs') (core st') ∧ db_frame st st' ∧ core_frame (core st) (core st').
Proof.
  induction crs as [| cr crs IH]; intros st i pre C; simpl.
  { exists st, []. split; [done |]. split; [done |]. split; reflexivity. }
  destruct (listed_clause _ _ cr (ci_db _ _ _ _ _ _ C)) as (c & Hl & ->).
  { apply elem_of_app. right. apply elem_of_app. right. by left. }
  cbn [mbind option_bind]. destruct ((2 <? c_size c) && negb (locked (core st) cr c) && _) eqn:Eb.
  - apply andb_true_iff in Eb as [[_ Hk%negb_true_iff]%andb_true_iff _].
    destruct (remove_learnt F assumps q cs pre crs st cr c C Hl) as (st1 & -> & C1 & F1 & K1); [by rewrite Hk |].
    cbn [mbind option_bind]. destruct (IH st1 (S i) pre C1) as (st' & crs' & -> & C' & F' & K').
    exists st', crs'. split; [done |]. split; [done |]. split; by etrans.
  - destruct (IH st (S i) (pre ++ [cr])) as (st' & crs' & -> & C' & F' & K').
    { by rewrite <- (assoc_L (++)). }
    exists st', (cr :: crs'). split; [done |]. rewrite <- (assoc_L (++)) in C'. done.
Qed.

(** A comparator on clauses of at least two literals whose activity is a number. *)
Definition clause_lt (cx cy : Clause) : bool :=
  (2 <? c_size cx) && ((c_size cy =? 2) || d_ltb (c_act cx) (c_act cy)).

Definition lt_ok (c : Clause) : Prop := 2 <= c_size c ∧ d_is_nan (c_act c) = false.

Lemma clause_lt_order (f : CRef → Clause) : (∀ x, lt_ok (f x)) →
  StrictWeakOrder (λ x y, clause_lt (f x) (f y)).
Proof.
  intros Hf. unfold clause_lt. split.
  - intros x y H. destruct (Hf x) as [Hx _], (Hf y) as [Hy _].
    apply andb_true_iff in H as [H1%Z.ltb_lt [H2%Z.eqb_eq | H2]%orb_true_iff].
    + rewrite H2. done.
    + rewrite (d_ltb_asym _ _ H2), orb_false_r. rewrite (proj2 (Z.eqb_neq (c_size (f x)) 2)) by lia.
      apply andb_false_r.
  - intros x y z H1 H2. destruct (Hf x) as [Hx Nx], (Hf y) as [Hy Ny], (Hf z) as [Hz Nz].
    apply andb_false_iff. apply andb_false_iff in H1 as [H1 | [H1%Z.eqb_neq H1']%orb_false_iff]; [by left |].
    right. apply andb_false_iff in H2 as [H2%Z.ltb_ge | [H2 H2']%orb_false_iff]; [lia |].
    apply orb_false_iff. split; [done |]. by apply (d_ltb_ntrans _ (c_act (f y))).
Qed.

Definition order_clause (a : Arena) (x : CRef) : Clause :=
  if decide (lt_ok (clause_at a x)) then clause_at a x
  else MkClause 0 false false false [lit_Undef; lit_Undef] (S754_zero false) 0.

Lemma order_clause_ok a x : lt_ok (order_clause a x).
Proof. unfold order_clause. by case_decide. Qed.

Lemma dbinv_perm s crs crs' : crs ≡ₚ crs' → DbInv s crs → DbInv s crs'.
Proof.
  intros Hp [D1 D2 D3 D4 D5 D6 D7 D8]. split; try done.
  - by rewrite <- Hp.
  - intros cr. by rewrite <- Hp.
  - by rewrite <- (sum_words_perm _ _ _ Hp).
Qed.

Lemma cinv_perm F assumps q cs ls ls' s : ls ≡ₚ ls' → CInv F assumps q cs ls s → CInv F assumps q cs ls' s.
Proof. intros Hp [I R D S Co A]. split; try done. eapply dbinv_perm; [| done]. by rewrite Hp. Qed.

(** The comparator is a strict weak order on the clauses of the solver. *)
Lemma learnts_sorted F assumps q cs ls s : CInv F assumps q cs ls s →
  ∃ ls', sort (reduceDB_lt (ca s)) ls = Some ls' ∧ ls' ≡ₚ ls ∧
    ∀ i j x y, (i < j)%nat → ls' !! i = Some x → ls' !! j = Some y → reduceDB_lt (ca s) y x = false.
Proof.
  intros C. pose proof (ci_inv _ _ _ _ _ _ C) as I.
  assert (∀ x, x ∈ ls → order_clause (ca s) x = clause_at (ca s) x) as Hx.
  { intros x Hx. destruct (listed_clause _ _ x (ci_db _ _ _ _ _ _ C)) as (c & Hl & E).
    { apply elem_of_app. by right. }
    unfold order_clause. rewrite decide_True; [done |]. unfold clause_at. rewrite E. simpl. split.
    - pose proof (cl_two _ _ (inv_cls _ _ I) _ _ Hl). unfold c_size. lia.
    - apply d_nonneg_nan, (ci_acts _ _ _ _ _ _ C x c), Hl. }
  pose proof (clause_lt_order (order_clause (ca s)) (order_clause_ok (ca s))) as Hord.
  assert (agree (reduceDB_lt (ca s)) (λ x y, clause_lt (order_clause (ca s) x) (order_clause (ca s) y)) ls) as Ha.
  { intros x y H1 H2. by rewrite !Hx. }
  destruct (sort_spec_on _ _ ls Ha) as (ls' & E & Hp & Hs). exists ls'. split; [done |]. split; [done |].
  intros i j x y Hij Hi Hj. rewrite <- (Hs i j x y Hij Hi Hj). apply Ha; rewrite <- Hp;
    by eapply list_elem_of_lookup_2.
Qed.

(** ** Garbage collection *)

Lemma same_problem s s' cs cs' : Forall2 (same_clause s s') cs cs' →
  ∀ k, problem (mem s) cs k → problem (mem s') cs' k.
Proof.
  intros F k (x & c & Hin & Hl & <-). apply list_elem_of_lookup_1 in Hin as [j Hj].
  destruct (Forall2_lookup_l _ _ _ _ _ F Hj) as (y & Hy & c' & Hl1 & Hl2).
  exists y, (copied c'). split; [by eapply list_elem_of_lookup_2 |]. split; [done |].
  by rewrite (live_fun _ _ _ _ Hl Hl1).
Qed.

Lemma cinv_garbage F assumps q st : CInv F assumps q (clauses st) (learnts st) (core st) →
  nVars st = nv (core st) → ∃ st', garbageCollect st = Some st' ∧
    CInv F assumps q (clauses st') (learnts st') (core st') ∧ search_frame st st'.
Proof.
  intros [I R D S Co A] Hv. destruct (garbageCollect_spec assumps q st I R D Hv) as (st' & E & K).
  destruct K as [I' R' D' Fc Fl Sa Nw Fr (E1 & E2 & E3 & E4) Lv Rm].
  exists st'. split; [done |]. split; [split |]; try done.
  - intros σ Hσ. apply Sa. by apply S.
  - intros σ H1 H2. apply Co.
    + intros k Hk. apply H1. by eapply same_problem.
    + intros l Hl. apply H2. unfold level0 in *. by rewrite E2, E3.
  - intros y c' (x & c & Ex & ->)%Nw. unfold copied, copy_clause. simpl.
    destruct (c_learnt c); simpl; [| done]. by apply (A x).
  - assert (stats st' = stats st ∧ proof st' = proof st) as [Est Ep] by (by rewrite Fr).
    split; [| by rewrite Est]. rewrite Est, Ep. rewrite Fr at 1. done.
Qed.

Lemma cinv_check F assumps q st : CInv F assumps q (clauses st) (learnts st) (core st) →
  nVars st = nv (core st) → ∃ st', checkGarbage st = Some st' ∧
    CInv F assumps q (clauses st') (learnts st') (core st') ∧ search_frame st st'.
Proof.
  intros C Hv. unfold checkGarbage, checkGarbage_frac. case_match_goal; [by apply cinv_garbage |].
  exists st. split; [done |]. split; [done | reflexivity].
Qed.

Lemma search_frame_learnts st ls : search_frame st (st <| learnts := ls |>).
Proof. split; [by destruct st |]. split; [done |]. split; [done | reflexivity]. Qed.

Lemma search_frame_clauses st cs : search_frame st (st <| clauses := cs |>).
Proof. split; [by destruct st |]. split; [done |]. split; [done | reflexivity]. Qed.

Lemma search_frame_fields st st' : search_frame st st' → assumptions st' = assumptions st ∧
  order st' = order st ∧ seen st' = seen st ∧ released_vars st' = released_vars st ∧
  params st' = params st ∧ nVars st' = nVars st ∧ cla_inc st' = cla_inc st ∧ conflict st' = conflict st ∧
  nv (core st') = nv (core st).
Proof.
  intros (E & _ & _ & K). unfold nv, nVars. rewrite (cf_assigns _ _ K). by rewrite E.
Qed.

(** [reduceDB] returns and keeps the invariant. *)
Lemma reduceDB_spec F q st : CInv F (assumptions st) q (clauses st) (learnts st) (core st) →
  nVars st = nv (core st) → ∃ st', reduceDB st = Some st' ∧
    CInv F (assumptions st) q (clauses st') (learnts st') (core st') ∧ search_frame st st'.
Proof.
  intros C Hv. unfold reduceDB.
  destruct (learnts_sorted _ _ _ _ _ _ C) as (ls & -> & Hp & _). cbn [mbind option_bind].
  symmetry in Hp. apply (cinv_perm _ _ _ _ _ _ _ Hp) in C.
  destruct (reduce_loop_spec F (assumptions st) q (clauses st)
    (d_div (cla_inc st) (d_of_Z (Z.of_nat (length (learnts st))))) (length (learnts st)) ls st 0 [] C)
    as (st1 & ls1 & -> & C1 & F1 & K1). cbn [mbind option_bind]. simpl in C1.
  pose proof (db_search_frame _ _ F1 K1) as G1.
  destruct (db_frame_fields _ _ F1) as (_ & Ecs & _).
  destruct (search_frame_fields _ _ G1) as (_ & _ & _ & _ & _ & Evs & _ & _ & Env).
  destruct (cinv_check F (assumptions st) q (st1 <| learnts := ls1 |>)) as (st' & E & C' & G').
  - simpl. by rewrite Ecs.
  - change (nVars (st1 <| learnts := ls1 |>)) with (nVars st1). simpl. congruence.
  - exists st'. split; [done |]. split; [done |].
    etrans; [exact G1 |]. etrans; [apply search_frame_learnts | exact G'].
Qed.
