(* ===== verification/BranchSpec.v ===== *)
(** * The decision heap

    [OrdOk]: the heap and its index map are inverse to each other, and every
    variable is a decision variable.  [waiting]: the heap holds every variable
    without a value.  Backtracking, [rebuildOrderHeap] and [pickBranchLit] keep
    both; [pickBranchLit] finds a variable without a value if there is one. *)
From Stdlib Require Import SpecFloat.
From S2P Require Import Prelude Lit UnitProp Vec Heap Alloc Double DoubleSpec Clause Solver Propagate.
From S2P Require Import PropCheck Setup SetupSpec Analyze AnalyzeSpec RandomSpec Reduce.

#[local] Opaque d_const d_add d_mul d_div d_ltb f_of_d d_of_Z.

Definition keys (o : Order) : list Z := heap (order_heap o).

Record OrdOk (n : Z) (o : Order) : Prop := {
  oo_idx : idx_ok (heap (order_heap o)) (indices (order_heap o));
  oo_keys : ∀ v, v ∈ keys o → 0 <= v < n;
  oo_size : n <= Z.of_nat (length (indices (order_heap o)));
  oo_decision : ∀ v, 0 <= v < n → zget false (decision o) v = true;
  oo_seed : seed_ok (random_seed o) }.

Definition waiting (s : Core) (o : Order) : Prop :=
  ∀ v, 0 <= v < nv s → v ∉ var <$> trail s → v ∈ keys o.

(** ** Steps of the analysis *)

Lemma ordok_like n o o' : OrdOk n o → order_like o o' → OrdOk n o' ∧ keys o' ≡ₚ keys o.
Proof.
  intros [H1 H2 H3 H4 H5] L. destruct (ol_heap _ _ L H1) as (K1 & K2 & K3). split; [| done].
  split.
  - done.
  - intros v Hv. apply H2. unfold keys in *. by rewrite K2 in Hv.
  - by rewrite K3.
  - by rewrite (ol_decision _ _ L).
  - by rewrite (ol_seed _ _ L).
Qed.

(** ** Backtracking *)

Lemma insertVarOrder_spec n o x : OrdOk n o → 0 <= x < n →
  OrdOk n (insertVarOrder o x) ∧ ∀ v, v ∈ keys (insertVarOrder o x) ↔ v = x ∨ v ∈ keys o.
Proof.
  intros H Hx. pose proof H as [H1 H2 H3 H4 H5]. unfold insertVarOrder. rewrite H4, andb_true_r by done.
  destruct (inHeap (order_heap o) x) eqn:E; simpl.
  - apply inHeap_elem in E; [| done]. split; [done |]. intros v. split; [by right | by intros [-> |]].
  - assert (x ∉ heap (order_heap o)) as Hn.
    { intros Hin. apply (inHeap_elem (order_heap o) x H1) in Hin. congruence. }
    destruct (insert_keys (VarOrderLt (activity o)) (order_heap o) x H1 Hn) as (K1 & K2 & K3); [lia |].
    assert (∀ v, v ∈ keys (o <| order_heap := Heap.insert (VarOrderLt (activity o)) (order_heap o) x |>) ↔
      v = x ∨ v ∈ keys o) as Hk.
    { intros v. unfold keys; simpl. by rewrite K2, elem_of_cons. }
    split; [| done]. split; simpl; try done.
    + intros v [-> | Hv]%Hk; [done | by apply H2].
    + by rewrite K3.
Qed.

Lemma undo_order_spec n l o c p : OrdOk n o → 0 <= var p < n →
  OrdOk n (undo_order l o c p) ∧ ∀ v, v ∈ keys (undo_order l o c p) ↔ v = var p ∨ v ∈ keys o.
Proof.
  intros H Hp. unfold undo_order. case_match_goal; [| by apply insertVarOrder_spec].
  destruct (insertVarOrder_spec n (o <| polarity := zset (polarity o) (var p) (sign p) |>) (var p));
    [by destruct H | done | done].
Qed.

Lemma undo_loop_order n l ps : ∀ a o c, OrdOk n o → (∀ p, p ∈ ps → 0 <= var p < n) →
  let o' := (undo_loop l a o c ps).2 in
  OrdOk n o' ∧ ∀ v, v ∈ keys o' ↔ v ∈ var <$> ps ∨ v ∈ keys o.
Proof.
  induction ps as [| p ps IH]; intros a o c H Hps; simpl.
  { split; [done |]. intros v. rewrite elem_of_nil. tauto. }
  destruct (undo_order_spec n l o (c + length ps) p H) as [H1 K1]; [apply Hps; by left |].
  destruct (IH (zset a (var p) l_Undef) _ c H1) as [H2 K2]; [intros; apply Hps; by right |].
  split; [done |]. intros v. rewrite K2, K1, elem_of_cons. tauto.
Qed.

Lemma cancel_order st lvl lim q : Inv q (core st) → trail_lim (core st) !! lvl = Some lim →
  OrdOk (nv (core st)) (order st) → waiting (core st) (order st) →
  OrdOk (nv (core (cancelUntil st lvl))) (order (cancelUntil st lvl)) ∧
  waiting (core (cancelUntil st lvl)) (order (cancelUntil st lvl)).
Proof.
  intros I El H W. destruct (cancel_inv st lvl lim q I El) as (_ & Et & _ & _ & _ & Esz).
  unfold waiting, nv in *. rewrite Et, Esz. clear Et Esz.
  pose proof (lookup_lt_Some _ _ _ El) as Hlt. unfold cancelUntil, decisionLevel.
  destruct (Nat.ltb_spec lvl (length (trail_lim (core st)))); [| lia].
  rewrite (list_lookup_total_correct _ _ _ El).
  destruct (undo_loop_order (Z.of_nat (length (assigns (core st)))) (default 0%nat (last (trail_lim (core st))))
    (rev (drop lim (trail (core st)))) (assigns (core st)) (order st) lim H) as [H1 K1].
  { intros p Hp. apply (tr_range _ _ _ (inv_trail _ _ I)). rewrite list_elem_of_In, <- in_rev, <- list_elem_of_In in Hp.
    rewrite <- (take_drop lim (trail (core st))). apply elem_of_app. by right. }
  destruct (undo_loop _ _ _ _ _) as [a o]. cbn [snd] in *. split; [exact H1 |].
  intros v Hv Hn. apply K1. destruct (decide (v ∈ var <$> trail (core st))) as [Hin | Hout]; [| right; by apply W].
  left. rewrite <- (take_drop lim (trail (core st))), fmap_app, elem_of_app in Hin.
  destruct Hin as [? | Hin]; [done |]. change (var <$> rev (drop lim (trail (core st)))) with (map var (rev (drop lim (trail (core st))))).
  rewrite map_rev, list_elem_of_In, <- in_rev, <- list_elem_of_In. exact Hin.
Qed.

Lemma all_nil_perm {A} (l : list A) : length l = 0%nat → l = [].
Proof. by destruct l. Qed.

Lemma lb_xor_false a : lb_valid a → lb_xor a false = a.
Proof.
  intros H. destruct a as [a]. unfold lb_valid in H. simpl in H. unfold lb_xor, u8. simpl.
  rewrite Z.lxor_0_r, Z.mod_small by lia. done.
Qed.

(** ** [pickBranchLit] *)

Section Pick.
Context (s : Core).
Hypothesis T : TrailOk (nv s) (assigns s) (trail s).

Lemma undecided_iff st v : core st = s → OrdOk (nv s) (order st) → 0 <= v < nv s →
  undecided st v = true ↔ v ∉ var <$> trail s.
Proof using T.
  intros Ec O Hv. unfold undecided. rewrite (oo_decision _ _ O), andb_true_r, Ec by done.
  assert (value_var s v = value s (mkLit v false)) as ->.
  { unfold value. rewrite var_mkLit, sign_mkLit, lb_xor_false; [done |]. eapply zget_valid, T. }
  rewrite (value_isUndef s T) by (unfold lit_ok; by rewrite var_mkLit).
  rewrite bool_decide_eq_true. split.
  - intros [H1 H2] (p & -> & Hp)%list_elem_of_fmap.
    assert (var p = var (mkLit (var p) false)) as Hs by by rewrite var_mkLit.
    apply same_var in Hs as [E | E]; [apply H1 | apply H2]; by rewrite <- E.
  - intros H. split; intros Hp; apply H; apply list_elem_of_fmap; eexists; (split; [| exact Hp]);
      by rewrite ?var_neg, var_mkLit.
Qed.

Definition order_only (st st' : Solver) : Prop := st' = st <| order := order st' |>.

Lemma next_decision_spec fuel : ∀ st next, core st = s → OrdOk (nv s) (order st) →
  (length (keys (order st)) <= fuel)%nat → next = var_Undef ∨ 0 <= next < nv s →
  (∀ v, 0 <= v < nv s → v ∉ var <$> trail s → v = next ∨ v ∈ keys (order st)) →
  ∃ v st', next_decision fuel st next = Some (v, st') ∧ order_only st st' ∧ OrdOk (nv s) (order st') ∧
    ((v = var_Undef ∧ ∀ u, 0 <= u < nv s → u ∈ var <$> trail s) ∨
     (0 <= v < nv s ∧ v ∉ var <$> trail s ∧
      ∀ u, 0 <= u < nv s → u ∉ var <$> trail s → u = v ∨ u ∈ keys (order st'))).
Proof using T.
  induction fuel as [| fuel IH]; intros st next Ec O Hf Hn W; unfold next_decision; fold next_decision;
    (destruct ((next =? var_Undef) || negb (undecided st next)) eqn:Eb;
     [| apply orb_false_iff in Eb as [En%Z.eqb_neq Eu%negb_false_iff]; destruct Hn as [-> | Hn]; [done |];
        exists next, st; split; [done |]; split; [by destruct st |]; split; [done |]; right;
        split; [done |]; split; [by apply (undecided_iff st) | done]]).
  all: assert (∀ v, 0 <= v < nv s → v ∉ var <$> trail s → v ∈ keys (order st)) as W'
    by (intros v Hv Ht; destruct (W v Hv Ht) as [-> | ?]; [| done];
        apply orb_true_iff in Eb as [E%Z.eqb_eq | E%negb_true_iff];
        [unfold var_Undef in E; lia | apply (undecided_iff st) in Ht; [congruence | done | done | done]]).
  all: unfold heap_empty, heap_size; fold (keys (order st)).
  - rewrite (all_nil_perm (keys (order st))) by lia. simpl. exists var_Undef, st.
    split; [done |]. split; [by destruct st |]. split; [done |]. left. split; [done |].
    intros u Hu. destruct (decide (u ∈ var <$> trail s)) as [| Ht]; [done |]. apply (W' u Hu) in Ht.
    rewrite (all_nil_perm (keys (order st))) in Ht by lia. by apply elem_of_nil in Ht.
  - destruct (Z.eqb_spec (Z.of_nat (length (keys (order st)))) 0) as [E0 | E0].
    + exists var_Undef, st. split; [done |]. split; [by destruct st |]. split; [done |]. left. split; [done |].
      intros u Hu. destruct (decide (u ∈ var <$> trail s)) as [| Ht]; [done |]. apply (W' u Hu) in Ht.
      rewrite (all_nil_perm (keys (order st))) in Ht by lia. by apply elem_of_nil in Ht.
    + pose proof (removeMin_keys (VarOrderLt (activity (order st))) (order_heap (order st)) (oo_idx _ _ O)) as K.
      destruct (removeMin _ _) as [x h]. destruct K as (K1 & K2 & K3).
      { intros E. unfold keys in E0. by rewrite E in E0. }
      destruct (IH (st <| order := (order st) <| order_heap := h |> |>) x) as (v & st' & -> & Ho & O' & Hr).
      * done.
      * destruct O as [H1 H2 H3 H4 H5]. split; simpl; try done; [| by rewrite K3].
        intros v Hv. apply H2. unfold keys in *. rewrite K2. by right.
      * unfold keys in *. simpl. rewrite K2 in Hf. simpl in Hf. lia.
      * right. apply (oo_keys _ _ O). unfold keys. rewrite K2. by left.
      * intros v Hv Ht. specialize (W' v Hv Ht). unfold keys in *. simpl. rewrite K2 in W'.
        by apply elem_of_cons in W'.
      * exists v, st'. split; [done |]. split; [| done]. unfold order_only in *. rewrite Ho. done.
Qed.

(** The literal picked is over a variable without a value, which leaves the
    heap; there is none only when all variables have a value. *)
Lemma pickBranchLit_spec st : core st = s → OrdOk (nv s) (order st) → waiting s (order st) →
  random_var_freq (params st) = d_of_Z 0 → rnd_pol (params st) = false →
  ∃ p st', pickBranchLit st = Some (p, st') ∧ order_only st st' ∧ OrdOk (nv s) (order st') ∧
    ((p = lit_Undef ∧ ∀ u, 0 <= u < nv s → u ∈ var <$> trail s) ∨
     (lit_ok (nv s) p ∧ var p ∉ var <$> trail s ∧
      ∀ u, 0 <= u < nv s → u ∉ var <$> trail s → u = var p ∨ u ∈ keys (order st'))).
Proof using T.
  intros Ec O W Hfreq Hpol. unfold pickBranchLit, random_decision.
  destruct (oo_seed _ _ O) as (z & Hz & ->). destruct (drand_spec z Hz) as [-> Hn].
  cbn [mbind option_bind]. change (params (st <| order := _ |>)) with (params st).
  rewrite Hfreq, (d_nonneg_ltb _ Hn). cbn [andb mbind option_bind].
  set (st1 := st <| order := _ |>).
  assert (OrdOk (nv s) (order st1)) as O1.
  { destruct O. split; try done. exists (lcg z). split; [apply lcg_range | done]. }
  destruct (next_decision_spec (length (heap (order_heap (order st1)))) st1 var_Undef) as
    (v & st2 & -> & Ho & O2 & Hr); [done | done | done | by left | |].
  { intros u Hu Ht. right. by apply W. }
  assert (order_only st st2) as Ho2 by (unfold order_only in *; by rewrite Ho).
  cbn [mbind option_bind]. destruct Hr as [[-> Hall] | (Hv & Ht & Hw)].
  - rewrite Z.eqb_refl. exists lit_Undef, st2. split; [done |]. split; [done |]. split; [done |]. by left.
  - destruct (Z.eqb_spec v var_Undef) as [-> | _]; [by unfold var_Undef in Hv; lia |].
    assert (params st2 = params st) as -> by by rewrite Ho2.
    rewrite Hpol. case_match_goal; eexists _, st2; (split; [done |]); (split; [done |]); (split; [done |]);
      right; unfold lit_ok; rewrite var_mkLit; done.
Qed.
End Pick.

(** ** [rebuildOrderHeap] *)

Lemma rebuild_spec st : TrailOk (nv (core st)) (assigns (core st)) (trail (core st)) →
  OrdOk (nv (core st)) (order st) → nVars st = nv (core st) →
  let st' := rebuildOrderHeap st in
  order_only st st' ∧ OrdOk (nv (core st)) (order st') ∧ waiting (core st) (order st').
Proof.
  intros T O Hv. unfold rebuildOrderHeap. set (vs := filter _ _).
  assert (∀ v, v ∈ vs ↔ 0 <= v < nv (core st) ∧ undecided st v = true) as Hvs.
  { intros v. unfold vs. rewrite list_elem_of_filter, list_elem_of_fmap. split.
    - intros [Hu (n & -> & Hn%elem_of_seq)]. split; [lia | done].
    - intros [Hr Hu]. split; [done |]. exists (Z.to_nat v). split; [lia |]. apply elem_of_seq. lia. }
  destruct (build_keys (VarOrderLt (activity (order st))) (order_heap (order st)) vs (oo_idx _ _ O)) as (K1 & K2 & K3).
  { unfold vs. apply NoDup_filter. apply NoDup_fmap_2; [intros x y; lia | apply NoDup_seq]. }
  { intros v [Hr _]%Hvs. pose proof (oo_size _ _ O). lia. }
  simpl. split; [by destruct st |]. split.
  - destruct O. split; simpl; try done; [| by rewrite K3].
    intros v Hin. unfold keys in Hin. simpl in Hin. rewrite K2 in Hin. by apply Hvs.
  - intros v Hr Ht. unfold keys. simpl. rewrite K2. apply Hvs. split; [done |].
    by apply (undecided_iff (core st) T st).
Qed.
