(* ===== verification/SimplifySpec.v ===== *)
(** * Correctness of [simplify]

    At a propagation fixpoint of level 0, [removeSatisfied] drops clauses that
    are true there and literals that are false there, and [simplify] keeps the
    invariant of the search and the assignment. *)
From Stdlib Require Import SpecFloat.
From S2P Require Import Prelude Lit Sort UnitProp Vec Heap Alloc Double DoubleSpec Clause Solver Propagate.
From S2P Require Import PropCheck Setup SetupSpec Reasons Analyze AnalyzeSpec Reduce RelocSpec CollectSpec.
From S2P Require Import GarbageSpec SearchInv RemoveSpec TrimSpec ReduceSpec RandomSpec BranchSpec.

#[local] Opaque d_const d_add d_mul d_div d_ltb f_of_d d_of_Z.

(** ** [removeSatisfied] *)

(** The literals that stay, when the first two are not looked at. *)
Lemma trim_tail s a b rest : TrailOk (nv s) (assigns s) (trail s) → Forall (lit_ok (nv s)) (a :: b :: rest) →
  ∃ rest' dropped, trim_lits (length (a :: b :: rest)) s (a :: b :: rest) 2 = a :: b :: rest' ∧
    rest ≡ₚ dropped ++ rest' ∧ ∀ l, l ∈ dropped → lit_neg l ∈ trail s.
Proof.
  intros T Hok. destruct (trim_lits_spec s (length (a :: b :: rest)) (a :: b :: rest) 2) as (dr & Hp & Hd & Hk).
  pose proof (Hk 0%nat ltac:(lia)) as K0. pose proof (Hk 1%nat ltac:(lia)) as K1.
  destruct (trim_lits _ _ _ _) as [| x [| y rest']]; [done | done |]. simpl in K0, K1.
  injection K0 as ->. injection K1 as ->. exists rest', dr. split; [done |].
  assert (a :: b :: rest ≡ₚ a :: b :: dr ++ rest') as Hp'.
  { etrans; [exact Hp |]. solve_Permutation. }
  split; [by apply Permutation_cons_inv, Permutation_cons_inv in Hp' |].
  intros l Hl. assert (lit_ok (nv s) l) as Hlo.
  { rewrite Forall_forall in Hok. apply Hok. rewrite Hp. apply elem_of_app. by left. }
  specialize (Hd l Hl). rewrite (value_isFalse s T) in Hd by done. by apply bool_decide_eq_true in Hd.
Qed.

(** A satisfied clause has a true literal. *)
Lemma satisfied_true s c : TrailOk (nv s) (assigns s) (trail s) → Forall (lit_ok (nv s)) (c_lits c) →
  satisfied s c = true → ∃ l, l ∈ c_lits c ∧ l ∈ trail s.
Proof.
  intros T Hok (l & Hin & Hv)%existsb_exists. apply list_elem_of_In in Hin. exists l. split; [done |].
  rewrite Forall_forall in Hok. rewrite (value_isTrue s T) in Hv by auto. by apply bool_decide_eq_true in Hv.
Qed.

(** [J crs s]: the invariant, with [crs] in place of one of the two lists. *)
Section Satisfied.
Context (F : formula) (assumps : list Lit) (place : list CRef → list CRef * list CRef).

Definition J (crs : list CRef) (s : Core) : Prop :=
  trail_lim s = [] ∧ CInv F assumps (length (trail s)) (place crs).1 (place crs).2 s.

Hypothesis Hin : ∀ crs cr, cr ∈ crs → cr ∈ (place crs).1 ++ (place crs).2.
Hypothesis Hremove : ∀ pre cr crs st c, J (pre ++ cr :: crs) (core st) → live (mem (core st)) cr c →
  (∃ l, l ∈ c_lits c ∧ l ∈ trail (core st)) →
  ∃ st', removeClause st cr true = Some st' ∧ J (pre ++ crs) (core st') ∧ db_frame st st' ∧
    core_frame (core st) (core st').

Lemma removeSatisfied_place crs : ∀ st pre, J (pre ++ crs) (core st) →
  ∃ st' crs', removeSatisfied st crs = Some (st', crs') ∧ J (pre ++ crs') (core st') ∧
    db_frame st st' ∧ core_frame (core st) (core st').
Proof using Hin Hremove.
  induction crs as [| cr crs IH]; intros st pre HJ; simpl.
  { exists st, []. split; [done |]. split; [done |]. split; reflexivity. }
  pose proof HJ as [H0 C]. pose proof (ci_inv _ _ _ _ _ _ C) as I. pose proof (inv_trail _ _ I) as T.
  destruct (listed_clause _ _ cr (ci_db _ _ _ _ _ _ C)) as (c & Hl & ->).
  { apply Hin, elem_of_app. right. by left. }
  cbn [mbind option_bind].
  assert (Forall (lit_ok (nv (core st))) (c_lits c)) as Hok.
  { apply Forall_forall. intros l. by apply (cl_range _ _ (inv_cls _ _ I) cr c). }
  destruct (satisfied (core st) c) eqn:Es.
  - destruct (Hremove pre cr crs st c HJ Hl) as (st1 & -> & J1 & F1 & K1); [by apply satisfied_true |].
    cbn [mbind option_bind]. destruct (IH st1 pre J1) as (st' & crs' & -> & J' & F' & K').
    exists st', crs'. split; [done |]. split; [done |]. split; by etrans.
  - destruct (clause_two F assumps _ _ _ _ _ _ C Hl) as (a & b & rest & Ec & _). rewrite Ec in *.
    destruct (trim_tail (core st) a b rest T Hok) as (rest' & dr & -> & Hp & Hd).
    set (st1 := st <| core := _ |>).
    assert (J (pre ++ cr :: crs) (core st1)) as J1.
    { split; [done |]. eapply (cinv_trim F assumps _ _ (core st) cr c a b rest rest'); try done. by exists dr. }
    destruct (IH st1 (pre ++ [cr])) as (st' & crs' & -> & J' & F' & K').
    { by rewrite <- (assoc_L (++)). }
    exists st', (cr :: crs'). split; [done |]. rewrite <- (assoc_L (++)) in J'. split; [done |].
    split; [etrans; [| exact F'] | etrans; [| exact K']].
    + split; [by destruct st | done].
    + by split.
Qed.
End Satisfied.

Lemma removeSatisfied_learnts F assumps cs ls st : trail_lim (core st) = [] →
  CInv F assumps (length (trail (core st))) cs ls (core st) →
  ∃ st' ls', removeSatisfied st ls = Some (st', ls') ∧
    CInv F assumps (length (trail (core st))) cs ls' (core st') ∧ db_frame st st' ∧ core_frame (core st) (core st').
Proof.
  intros H0 C. destruct (removeSatisfied_place F assumps (λ l, (cs, l))) with (crs := ls) (st := st) (pre := @nil CRef)
    as (st' & ls' & E & [_ J'] & F' & K').
  - intros l cr Hl. simpl. apply elem_of_app. by right.
  - intros pre cr crs s c [H0' HJ] Hl Ht. simpl in HJ.
    destruct (remove_learnt _ _ _ _ pre crs s cr c HJ Hl) as (s' & E & C' & F' & K'); [done |].
    exists s'. split; [done |]. split; [| done]. unfold J. rewrite (cf_trail _ _ K'), (cf_lims _ _ K'). done.
  - done.
  - exists st', ls'. split; [done |]. rewrite (cf_trail _ _ K') in J'. done.
Qed.

Lemma removeSatisfied_clauses F assumps cs ls st : trail_lim (core st) = [] →
  CInv F assumps (length (trail (core st))) cs ls (core st) →
  ∃ st' cs', removeSatisfied st cs = Some (st', cs') ∧
    CInv F assumps (length (trail (core st))) cs' ls (core st') ∧ db_frame st st' ∧ core_frame (core st) (core st').
Proof.
  intros H0 C. destruct (removeSatisfied_place F assumps (λ l, (l, ls))) with (crs := cs) (st := st) (pre := @nil CRef)
    as (st' & cs' & E & [_ J'] & F' & K').
  - intros l cr Hl. simpl. apply elem_of_app. by left.
  - intros pre cr crs s c [H0' HJ] Hl (l & Hl1 & Hl2). simpl in HJ.
    destruct (remove_problem _ _ _ pre crs _ s cr c HJ Hl) as (s' & E & C' & F' & K'); [done | |].
    { intros σ Hσ. exists l. split; [done |]. by apply Hσ, level0_all. }
    exists s'. split; [done |]. split; [| done]. unfold J. rewrite (cf_trail _ _ K'), (cf_lims _ _ K'). done.
  - done.
  - exists st', cs'. split; [done |]. rewrite (cf_trail _ _ K') in J'. done.
Qed.

(** ** [simplify] *)

(** Without released variables only the propagation head is written. *)
Lemma release_nothing st : released_vars st = [] → (∀ x, seen_at st x = 0) →
  qhead (core st) = length (trail (core st)) → release_trail st = st.
Proof.
  intros Hr Hs Hq. unfold release_trail, mark_vars. rewrite Hr. cbn [foldl].
  assert (filter (λ l, is_seen st (var l) = false) (trail (core st)) = trail (core st)) as ->.
  { clear Hq. induction (trail (core st)) as [| l tr IH]; [done |].
    rewrite filter_cons_True, IH; [done |]. by rewrite is_seen_at, Hs. }
  destruct st as [s]; destruct s. cbn in *. subst. cbn. by rewrite app_nil_r.
Qed.

Lemma propagate_fixpoint st : qhead (core st) = length (trail (core st)) →
  propagate st = Some (st <| stats := (stats st) <| propagations := u64 (propagations (stats st)) |> |>, CRef_Undef).
Proof.
  intros Hq. unfold propagate, propagate_core. cbn [propagate_loop]. rewrite Hq, Nat.ltb_irrefl.
  cbn [mbind option_bind]. rewrite Z.add_0_r. do 2 f_equal. destruct st. cbn. by rewrite Z.sub_0_r.
Qed.
