(* ===== verification/SolverInv.v ===== *)
(** * The invariant of the solver between the steps of [search]

    [SInv F q st]: the invariant of the clauses, assignment and reasons with
    respect to the formula [F], the decision heap, the clear marks of the
    analysis, the set of failed assumptions, and a bound on the number of
    decision levels.  [q] literals of the trail have been propagated. *)
From Stdlib Require Import SpecFloat.
From S2P Require Import Prelude Lit UnitProp Vec Heap Alloc Double DoubleSpec Clause Solver Propagate.
From S2P Require Import PropCheck Setup SetupSpec Reasons Analyze AnalyzeSpec RandomSpec Reduce BranchSpec.
From S2P Require Import GarbageSpec SearchInv ReduceSpec SimplifySpec.

#[local] Opaque d_const d_add d_mul d_div d_ltb f_of_d d_of_Z.

(** No random decisions, and activities grow by a finite factor. *)
Record ParamsOk (pa : Params) : Prop := {
  pa_freq : random_var_freq pa = d_of_Z 0;
  pa_pol : rnd_pol pa = false;
  pa_decay : d_factor (d_div (d_of_Z 1) (clause_decay pa)) }.

Lemma default_params_ok : ParamsOk default_params.
Proof. split; [done | done |]. vm_compute. done. Qed.

(** At most [A] levels have no literal of their own. *)
Record levels_ok (A : nat) (s : Core) : Prop := {
  lv_lims : ∀ k m, trail_lim s !! k = Some m → (k <= A + m)%nat;
  lv_last : (decisionLevel s <= A + length (trail s))%nat }.

Record SInv (F : formula) (q : nat) (st : Solver) : Prop := {
  si_cinv : CInv F (assumptions st) q (clauses st) (learnts st) (core st);
  si_act : d_nonneg (cla_inc st);
  si_size : seen_size st;
  si_seen : ∀ x, seen_at st x = 0;
  si_conflict : IntMap.set_wf lit_x (conflict st);
  si_order : OrdOk (nv (core st)) (order st);
  si_waiting : waiting (core st) (order st);
  si_next : nVars st = nv (core st);
  si_released : released_vars st = [];
  si_params : ParamsOk (params st);
  si_assumps : Forall (lit_ok (nv (core st))) (assumptions st);
  si_levels : levels_ok (length (assumptions st)) (core st) }.

Section Fields.
Context (F : formula) (q : nat) (st : Solver).
Hypothesis H : SInv F q st.

Lemma si_inv : Inv q (core st).
Proof using H. apply (ci_inv _ _ _ _ _ _ (si_cinv _ _ _ H)). Qed.

Lemma si_trail : TrailOk (nv (core st)) (assigns (core st)) (trail (core st)).
Proof using H. apply (inv_trail _ _ si_inv). Qed.

Lemma si_rinv : RInv (assumptions st) (core st).
Proof using H. apply (ci_rinv _ _ _ _ _ _ (si_cinv _ _ _ H)). Qed.

Lemma si_learnts : learnts_ok st.
Proof using H.
  intros cr Hin. destruct (listed_clause _ _ cr (ci_db _ _ _ _ _ _ (si_cinv _ _ _ H))) as (c & [E _] & _).
  - apply elem_of_app. by right.
  - by exists c.
Qed.

(** The statistics, the proof and other numbers do not matter. *)
Lemma sinv_same st' : core st' = core st → order st' = order st → clauses st' = clauses st →
  learnts st' = learnts st → assumptions st' = assumptions st → seen st' = seen st →
  conflict st' = conflict st → next_var st' = next_var st → released_vars st' = released_vars st →
  params st' = params st → d_nonneg (cla_inc st') → SInv F q st'.
Proof using H.
  destruct H. intros E1 E2 E3 E4 E5 E6 E7 E8 E9 E10 N.
  split; unfold seen_size, seen_at, nVars in *; rewrite ?E1, ?E2, ?E3, ?E4, ?E5, ?E6, ?E7, ?E8, ?E9, ?E10; done.
Qed.

(** A new heap. *)
Lemma sinv_order st' : order_only st st' → OrdOk (nv (core st)) (order st') →
  waiting (core st) (order st') → SInv F q st'.
Proof using H. intros E. destruct H. rewrite E. by split. Qed.

(** Clause deletion and garbage collection. *)
Lemma sinv_search st' : search_frame st st' →
  CInv F (assumptions st) q (clauses st') (learnts st') (core st') → SInv F q st'.
Proof using H.
  intros G C. destruct (search_frame_fields _ _ G) as (E1 & E2 & E3 & E4 & E5 & E6 & E7 & E8 & E9).
  destruct G as (_ & _ & _ & [K1 K2 K3 K4 K5 K6]). destruct H as [A B S0 S1 Cf O W N R P As L].
  split; unfold seen_size, seen_at, waiting, decisionLevel in *;
    rewrite ?E1, ?E2, ?E3, ?E4, ?E5, ?E6, ?E7, ?E8, ?E9, ?K1, ?K2, ?K3; try done.
  destruct L as [L1 L2]. split; unfold decisionLevel in *; by rewrite ?K2, ?K3.
Qed.
End Fields.

(** ** [reduceDB] *)

Lemma sinv_reduce F q st : SInv F q st → ∃ st', reduceDB st = Some st' ∧ SInv F q st' ∧ search_frame st st'.
Proof.
  intros H. destruct (reduceDB_spec F q st (si_cinv _ _ _ H) (si_next _ _ _ H)) as (st' & E & C & G).
  exists st'. split; [done |]. split; [by apply (sinv_search F q st) | done].
Qed.

(** ** [simplify] *)

(** What [simplify] leaves alone. *)
Record simplified (st st' : Solver) : Prop := {
  sf_assumps : assumptions st' = assumptions st;
  sf_core : core_frame (core st) (core st');
  sf_conflicts : conflicts (stats st') = conflicts (stats st);
  sf_ok : ok st' = ok st;
  sf_conflict : conflict st' = conflict st;
  sf_params : params st' = params st;
  sf_budget : conflict_budget st' = conflict_budget st ∧ propagation_budget st' = propagation_budget st ∧
    asynch_interrupt st' = asynch_interrupt st;
  sf_adjust : learntsize_adjust_cnt st' = learntsize_adjust_cnt st ∧
    learntsize_adjust_confl st' = learntsize_adjust_confl st }.

#[export] Instance simplified_preorder : PreOrder simplified.
Proof.
  split; [by intros st; split |]. intros s1 s2 s3 [] [].
  split; try congruence; [by etrans | intuition congruence | intuition congruence].
Qed.

Lemma search_simplified st st' : search_frame st st' → simplified st st'.
Proof. intros (E & C & _ & K). split; try done; by rewrite E. Qed.

(** [simplify] with the removal of learnt and problem clauses, up to the heap. *)
Definition simplify_db (st : Solver) : option Solver :=
  '(st, ls) ← removeSatisfied st (learnts st);
  let st := st <| learnts := ls |> in
  st ← (if remove_satisfied (params st) then
          '(st, cs) ← removeSatisfied st (clauses st);
          Some (release_trail (st <| clauses := cs |>))
        else Some st);
  checkGarbage st.

Lemma sinv_satisfied F st : SInv F (length (trail (core st))) st → trail_lim (core st) = [] →
  qhead (core st) = length (trail (core st)) →
  ∃ st', simplify_db st = Some st' ∧ SInv F (length (trail (core st))) st' ∧ search_frame st st'.
Proof.
  intros H H0 Hq. unfold simplify_db.
  destruct (removeSatisfied_learnts _ _ _ _ st H0 (si_cinv _ _ _ H)) as (st1 & ls & -> & C1 & F1 & K1).
  cbn [mbind option_bind]. set (st2 := st1 <| learnts := ls |>).
  destruct (db_frame_fields _ _ F1) as (Eas & Ecs & _).
  assert (search_frame st st2) as G2.
  { etrans; [by apply db_search_frame | apply search_frame_learnts]. }
  pose proof (cf_trail _ _ K1) as Et. pose proof (cf_lims _ _ K1) as El.
  assert (SInv F (length (trail (core st))) st2) as H2.
  { apply (sinv_search F _ st H st2 G2). simpl. by rewrite Ecs. }
  assert (∃ st3, (if remove_satisfied (params st2) then
      '(st, cs) ← removeSatisfied st2 (clauses st2); Some (release_trail (st <| clauses := cs |>))
    else Some st2) = Some st3 ∧ SInv F (length (trail (core st))) st3 ∧ search_frame st2 st3) as (st3 & -> & H3 & G3).
  { case_match_goal; [| by exists st2].
    destruct (removeSatisfied_clauses F (assumptions st2) (clauses st2) (learnts st2) st2) as (st3 & cs & -> & C3 & F3 & K3).
    - simpl. by rewrite El.
    - simpl. rewrite Et. apply (si_cinv _ _ _ H2).
    - cbn [mbind option_bind]. destruct (db_frame_fields _ _ F3) as (_ & _ & Els & _).
      assert (search_frame st2 (st3 <| clauses := cs |>)) as G3.
      { etrans; [by apply db_search_frame | apply search_frame_clauses]. }
      assert (SInv F (length (trail (core st))) (st3 <| clauses := cs |>)) as H3.
      { apply (sinv_search F _ st2 H2 _ G3). simpl. rewrite Els. rewrite <- Et. exact C3. }
      rewrite release_nothing; [by exists (st3 <| clauses := cs |>) | | |].
      + apply (si_released _ _ _ H3).
      + apply (si_seen _ _ _ H3).
      + simpl. rewrite (cf_qhead _ _ K3), (cf_trail _ _ K3). simpl. rewrite (cf_qhead _ _ K1). congruence. }
  cbn [mbind option_bind].
  destruct (cinv_check F (assumptions st3) (length (trail (core st))) st3) as (st4 & -> & C4 & G4).
  - apply (si_cinv _ _ _ H3).
  - apply (si_next _ _ _ H3).
  - exists st4. split; [done |]. split; [by apply (sinv_search F _ st3) |].
    etrans; [exact G2 |]. etrans; [exact G3 | exact G4].
Qed.

Lemma simplify_eq st : ok st = true → qhead (core st) = length (trail (core st)) →
  let st1 := st <| stats := (stats st) <| propagations := u64 (propagations (stats st)) |> |> in
  simplify st =
    if (nAssigns (core st) =? simpDB_assigns st) || (0 <? simpDB_props st) then Some (st1, true)
    else
      st' ← simplify_db st1;
      let st' := rebuildOrderHeap st' in
      Some (st' <| simpDB_assigns := nAssigns (core st') |>
        <| simpDB_props := s64 (clauses_literals (stats st') + learnts_literals (stats st')) |>, true).
Proof.
  intros Ho Hq st1. unfold simplify. rewrite Ho, propagate_fixpoint by done. cbn [mbind option_bind].
  rewrite Z.eqb_refl. cbn [negb mbind option_bind]. fold st1.
  change (nAssigns (core st1) =? simpDB_assigns st1) with (nAssigns (core st) =? simpDB_assigns st).
  change (simpDB_props st1) with (simpDB_props st). destruct (_ || _); [done |]. unfold simplify_db.
  destruct (removeSatisfied st1 (learnts st1)) as [[st2 ls] |]; [| done]. cbn [mbind option_bind].
  destruct (if remove_satisfied _ then _ else _) as [st3 |]; [| done]. done.
Qed.

(** At a fixpoint of level 0, [simplify] finds no contradiction. *)
Lemma simplify_spec F st : SInv F (length (trail (core st))) st → trail_lim (core st) = [] →
  qhead (core st) = length (trail (core st)) → ok st = true →
  ∃ st', simplify st = Some (st', true) ∧ SInv F (length (trail (core st))) st' ∧ simplified st st'.
Proof.
  intros H H0 Hq Ho. rewrite simplify_eq by done. cbv zeta. set (st1 := st <| stats := _ |>).
  assert (SInv F (length (trail (core st))) st1) as H1.
  { apply (sinv_same F _ st H); try done. apply (si_act _ _ _ H). }
  assert (simplified st st1) as S1 by (split; try done; reflexivity).
  case_match_goal; [by exists st1 |].
  destruct (sinv_satisfied F st1 H1 H0 Hq) as (st2 & -> & H2 & G2). cbn [mbind option_bind].
  destruct (rebuild_spec st2 (si_trail _ _ _ H2) (si_order _ _ _ H2) (si_next _ _ _ H2)) as (Ho3 & O3 & W3).
  pose proof (sinv_order F _ st2 H2 _ Ho3 O3 W3) as H3.
  set (st3 := rebuildOrderHeap st2) in *. eexists. split; [done |]. split.
  - apply (sinv_same F _ st3 H3); try done. apply (si_act _ _ _ H3).
  - etrans; [exact S1 |]. etrans; [exact (search_simplified _ _ G2) |].
    rewrite Ho3. split; try done.
Qed.
