(* ===== verification/CDCL.v ===== *)
(** * The search loop of [Minisat::Solver]

    [minisat/core/Solver.cc], 1050-1345, and the budgets and [solve] methods of
    [minisat/core/Solver.h], 537-597: [search], the restart sequence and
    [solve_].  The loops of [search] and [solve_] take their
    fuel as an argument: [n] allows [2 ^ n] rounds.  [CDCLSpec] states how much
    is enough. *)
From Stdlib Require Import SpecFloat.
From S2P Require Import Prelude Lit Vec Heap Alloc Double Clause Solver Setup Analyze Reduce.

(** ** Budgets *)

Definition setConfBudget (st : Solver) (x : Z) : Solver :=
  st <| conflict_budget := s64 (conflicts (stats st) + x) |>.

Definition setPropBudget (st : Solver) (x : Z) : Solver :=
  st <| propagation_budget := s64 (propagations (stats st) + x) |>.

Definition interrupt (st : Solver) : Solver := st <| asynch_interrupt := true |>.

Definition clearInterrupt (st : Solver) : Solver := st <| asynch_interrupt := false |>.

Definition budgetOff (st : Solver) : Solver :=
  st <| conflict_budget := -1 |> <| propagation_budget := -1 |>.

Definition withinBudget (st : Solver) : bool :=
  negb (asynch_interrupt st) &&
  ((conflict_budget st <? 0) || (conflicts (stats st) <? u64 (conflict_budget st))) &&
  ((propagation_budget st <? 0) || (propagations (stats st) <? u64 (propagation_budget st))).

(** ** [search] *)

(** [progress += pow(F, i) * (end - beg)] for the levels from [i] on; [begs] are
    their first positions. *)
Fixpoint progress_sum (F progress : double) (i : nat) (beg : nat) (lims : list nat) (size : nat) : double :=
  let add stop := d_add progress (d_mul (d_pow F i) (d_of_Z (Z.of_nat stop - Z.of_nat beg))) in
  match lims with
  | [] => add size
  | l :: lims => progress_sum F (add l) (S i) l lims size
  end.

Definition progressEstimate (st : Solver) : double :=
  let s := core st in
  let F := d_div (d_of_Z 1) (d_of_Z (nVars st)) in
  d_div (progress_sum F (d_of_Z 0) 0 0 (trail_lim s) (length (trail s))) (d_of_Z (nVars st)).

(** The learnt clause is attached and its first literal enqueued. *)
Definition learn (st : Solver) (ls : list Lit) : option Solver :=
  match ls with
  | [l] => Some (st <| core := uncheckedEnqueue (core st) l CRef_Undef |>)
  | _ =>
      '(cr, a) ← ca_alloc (ca (core st)) ls true;
      st ← attachClause (st <| core := (core st) <| ca := a |> |> <| learnts := learnts st ++ [cr] |>) cr;
      st ← claBumpActivity st cr;
      Some (st <| core := uncheckedEnqueue (core st) (ls !!! 0%nat) cr |>)
  end.

(** [if (--learntsize_adjust_cnt == 0)] ... *)
Definition adjust_learntsize (st : Solver) : option Solver :=
  let st := st <| learntsize_adjust_cnt := learntsize_adjust_cnt st - 1 |> in
  if learntsize_adjust_cnt st =? 0 then
    let confl := d_mul (learntsize_adjust_confl st) (learntsize_adjust_inc (params st)) in
    cnt ← d_to_int confl;
    Some (st <| learntsize_adjust_confl := confl |> <| learntsize_adjust_cnt := cnt |>
             <| max_learnts := d_mul (max_learnts st) (learntsize_inc (params st)) |>)
  else Some st.

Definition count_conflict (st : Solver) : Solver :=
  st <| stats := (stats st) <| conflicts := u64 (conflicts (stats st) + 1) |> |>.

(** A conflict above level 0. *)
Definition handle_conflict (st : Solver) (confl : CRef) : option Solver :=
  '(st, learnt_clause, backtrack_level) ← analyze st confl;
  st ← learn (cancelUntil st (Z.to_nat backtrack_level)) learnt_clause;
  adjust_learntsize (claDecayActivity (varDecayActivity (extendProof st learnt_clause false lit_Undef))).

(** The result of the loop over the assumptions. *)
Inductive assumed := AFailed | ANext (p : Lit).

(** [while (decisionLevel() < assumptions.size())]; [k] is the difference. *)
Fixpoint assume_loop (k : nat) (st : Solver) : option (Solver * assumed) :=
  match k with
  | O => Some (st, ANext lit_Undef)
  | S k =>
      let p := assumptions st !!! decisionLevel (core st) in
      if lb_eqb (value (core st) p) l_True
      then assume_loop k (st <| core := newDecisionLevel (core st) |>)
      else if lb_eqb (value (core st) p) l_False
      then st ← analyzeFinal st (lit_neg p); Some (st, AFailed)
      else Some (st, ANext p)
  end.

Definition count_decision (st : Solver) : Solver :=
  st <| stats := (stats st) <| decisions := u64 (decisions (stats st) + 1) |> |>.

(** The end of a round without conflict: assumptions, then a decision. *)
Definition decide_next (st : Solver) : option (Solver + Solver * lbool) :=
  '(st, a) ← assume_loop (length (assumptions st) - decisionLevel (core st)) st;
  match a with
  | AFailed => Some (inr (st, l_False))
  | ANext p =>
      '(next, st) ← (if lit_eqb p lit_Undef then pickBranchLit (count_decision st) else Some (p, st));
      if lit_eqb next lit_Undef then Some (inr (st, l_True))
      else Some (inl (st <| core := uncheckedEnqueue (newDecisionLevel (core st)) next CRef_Undef |>))
  end.

(** A round without conflict. *)
Definition no_conflict (st : Solver) (nof_conflicts conflictC : Z) : option (Solver + Solver * lbool) :=
  if ((0 <=? nof_conflicts) && (nof_conflicts <=? conflictC)) || negb (withinBudget st) then
    Some (inr (cancelUntil (st <| progress_estimate := progressEstimate st |>) 0, l_Undef))
  else
    '(st, good) ← (if Nat.eqb (decisionLevel (core st)) 0 then simplify st else Some (st, true));
    if negb good then Some (inr (st, l_False))
    else
      st ← (if d_leb (max_learnts st) (d_of_Z (Z.of_nat (length (learnts st)) - nAssigns (core st)))
            then reduceDB st else Some st);
      decide_next st.

(** A round of the loop, with [conflictC]. *)
Definition search_step (nof_conflicts : Z) (x : Solver * Z) :
    option ((Solver * Z) + Solver * lbool) :=
  let '(st, conflictC) := x in
  '(st, confl) ← propagate st;
  if confl =? CRef_Undef then
    r ← no_conflict st nof_conflicts conflictC;
    Some (match r with inl st => inl (st, conflictC) | inr r => inr r end)
  else
    let st := count_conflict st in
    if Nat.eqb (decisionLevel (core st)) 0 then Some (inr (st, l_False))
    else st ← handle_conflict st confl; Some (inl (st, conflictC + 1)).

Definition count_start (st : Solver) : Solver :=
  st <| stats := (stats st) <| starts := u64 (starts (stats st) + 1) |> |>.

Definition search (fuel : nat) (st : Solver) (nof_conflicts : Z) : option (Solver * lbool) :=
  r ← iter2 (search_step nof_conflicts) fuel (count_start st, 0);
  match r with inr b => Some b | inl _ => None end.

(** ** The restart sequence *)

(** [for (size = 1, seq = 0; size < x + 1; seq++, size = 2 * size + 1);] *)
Fixpoint luby_size (fuel : nat) (x size seq : Z) : option (Z * Z) :=
  match fuel with
  | O => None
  | S fuel =>
      if size <? x + 1 then
        if 2 * size + 1 <=? INT_MAX then luby_size fuel x (2 * size + 1) (seq + 1) else None
      else Some (size, seq)
  end.

(** [while (size - 1 != x)] ... *)
Fixpoint luby_seq (fuel : nat) (x size seq : Z) : option Z :=
  match fuel with
  | O => None
  | S fuel =>
      if size - 1 =? x then Some seq
      else let size := Z.shiftr (size - 1) 1 in luby_seq fuel (Z.rem x size) size (seq - 1)
  end.

(** The exponent [seq] of [luby(y, x)]; 32 rounds are enough for an [int]. *)
Definition luby_exp (x : Z) : option Z :=
  '(size, seq) ← luby_size 32 x 1 0;
  luby_seq 32 x size seq.

Definition luby (y : double) (x : Z) : option double :=
  seq ← luby_exp x; Some (d_pow y (Z.to_nat seq)).

(** ** [solve_] *)

(** [rest_base * restart_first], converted to the [int] argument of [search]. *)
Definition restart_limit (st : Solver) (curr_restarts : Z) : option Z :=
  rest_base ← (if luby_restart (params st) then luby (restart_inc (params st)) curr_restarts
               else Some (d_pow (restart_inc (params st)) (Z.to_nat curr_restarts)));
  d_to_int (d_mul rest_base (d_of_Z (restart_first (params st)))).

Definition solve_step (fuel : nat) (x : Solver * Z) : option ((Solver * Z) + Solver * lbool) :=
  let '(st, curr_restarts) := x in
  nof_conflicts ← restart_limit st curr_restarts;
  '(st, status) ← search fuel st nof_conflicts;
  if negb (withinBudget st) || lb_neb status l_Undef then Some (inr (st, status))
  else Some (inl (st, curr_restarts + 1)).

(** What [solve_] sets up before the search. *)
Definition solve_start (st : Solver) : option Solver :=
  let ml := d_mul (d_of_Z (nClauses st)) (learntsize_factor (params st)) in
  let lim := d_of_Z (min_learnts_lim (params st)) in
  let confl := d_of_Z (learntsize_adjust_start_confl (params st)) in
  cnt ← d_to_int confl;
  Some (st <| stats := (stats st) <| solves := u64 (solves (stats st) + 1) |> |>
           <| max_learnts := if d_ltb ml lim then lim else ml |>
           <| learntsize_adjust_confl := confl |> <| learntsize_adjust_cnt := cnt |>).

(** The model is copied, or the contradiction recorded. *)
Definition solve_end (st : Solver) (status : lbool) : Solver :=
  let st :=
    if lb_eqb status l_True
    then st <| model := (λ v, value_var (core st) (Z.of_nat v)) <$> seq 0 (Z.to_nat (nVars st)) |>
    else if lb_eqb status l_False && (IntMap.set_size (conflict st) =? 0) then st <| ok := false |>
    else st in
  cancelUntil st 0.

(** [solve_()]: [fuel] bounds the restarts, [search_fuel] each search. *)
Definition solve_ (fuel search_fuel : nat) (st : Solver) : option (Solver * lbool) :=
  let st := st <| model := [] |> <| conflict := IntMap.set_clear lit_x (conflict st) |> in
  if negb (ok st) then Some (st, l_False)
  else
    st ← solve_start st;
    r ← iter2 (solve_step search_fuel) fuel (st, 0);
    match r with inr (st, status) => Some (solve_end st status, status) | inl _ => None end.

(** [solveLimited(assumps)] and [solve(assumps)]; the other overloads pass their
    literals as assumptions. *)
Definition solveLimited (fuel search_fuel : nat) (st : Solver) (assumps : list Lit) :
    option (Solver * lbool) :=
  solve_ fuel search_fuel (st <| assumptions := assumps |>).

Definition solve (fuel search_fuel : nat) (st : Solver) (assumps : list Lit) : option (Solver * bool) :=
  '(st, status) ← solve_ fuel search_fuel ((budgetOff st) <| assumptions := assumps |>);
  Some (st, lb_eqb status l_True).

(** [modelValue(p)]. *)
Definition modelValue (st : Solver) (p : Lit) : lbool :=
  lb_xor (zget inhabitant (model st) (var p)) (sign p).
