(* ===== verification/Simp.v ===== *)
(** * [Minisat::SimpSolver]: variable elimination

    [minisat/simp/SimpSolver.h] and [minisat/simp/SimpSolver.cc].  A [Simp] is
    the base solver with the occurrence lists, the heap of candidates, the
    subsumption queue and the stack of eliminated clauses.  The temporary unit
    clause, which lives in the arena but in no list of clauses, is the field
    [tmp_clause] at the reference [bwdsub_tmpunit].

    [bool] methods give the state and the result.  [None] is a dangling
    reference, the end of the address space, a search with the simplification
    still on, or the end of the fuel of a loop; a loop with fuel [n] runs for up
    to [2 ^ n] rounds.  The counters for the
    statistics and the verbose output are left out. *)
From Stdlib Require Import SpecFloat.
From S2P Require Import Prelude Lit Sort Vec Heap Alloc Double Queue Clause Solver Setup Analyze Reduce CDCL.

(** ** The state *)

Record Simp := MkSimp {
  base : Solver;
  parsing : bool;
  grow : Z;
  clause_lim : Z;
  subsumption_lim : Z;
  simp_garbage_frac : double;
  use_asymm : bool;
  use_rcheck : bool;
  use_elim : bool;
  extend_model : bool;
  use_simplification : bool;
  max_simp_var : Var;
  elimclauses : list Z;
  touched : list Z;
  occurs : OccLists CRef;
  n_occ : list Z;
  elim_heap : Heap;
  subsumption_queue : Queue CRef;
  frozen : list bool;
  frozen_vars : list Var;
  eliminated : list bool;
  bwdsub_assigns : nat;
  n_touched : Z;
  bwdsub_tmpunit : CRef;
  tmp_clause : Clause }.

#[export] Instance Simp_settable : Settable Simp := λ t,
  MkSimp (base t) (parsing t) (grow t) (clause_lim t) (subsumption_lim t) (simp_garbage_frac t)
    (use_asymm t) (use_rcheck t) (use_elim t) (extend_model t) (use_simplification t)
    (max_simp_var t) (elimclauses t) (touched t) (occurs t) (n_occ t) (elim_heap t)
    (subsumption_queue t) (frozen t) (frozen_vars t) (eliminated t) (bwdsub_assigns t)
    (n_touched t) (bwdsub_tmpunit t) (tmp_clause t).

(** [remove_satisfied = b], a parameter that the elimination writes. *)
Definition set_remove_satisfied (st : Solver) (b : bool) : Solver :=
  let p := params st in
  st <| params := MkParams (var_decay p) (clause_decay p) (random_var_freq p) (luby_restart p)
    (ccmin_mode p) (rnd_pol p) (rnd_init_act p) (garbage_frac p) (min_learnts_lim p) (restart_first p)
    (restart_inc p) (learntsize_factor p) (learntsize_inc p) (learntsize_adjust_start_confl p)
    (learntsize_adjust_inc p) b |>.

Definition set_extra (a : Arena) (b : bool) : Arena := MkArena (a_region a) (a_mem a) b.

(** The options of the constructor. *)
Record SimpParams := MkSimpParams {
  p_grow : Z; p_clause_lim : Z; p_subsumption_lim : Z; p_garbage_frac : double;
  p_use_asymm : bool; p_use_rcheck : bool; p_use_elim : bool }.

Definition default_simp : SimpParams := MkSimpParams 0 20 1000 (d_const 5 10) false false true.

(** [SimpSolver(...)]: the dummy clause is the first of the arena. *)
Definition new_simp (sp : SimpParams) (pa : Params) (seed : double) (psaving : Z) : option Simp :=
  st ← new_solver pa seed psaving;
  let a := set_extra (ca (core st)) true in
  '(cr, r) ← alloc (a_region a) (clauseWord32Size 1 true);
  let st := st <| core := (core st) <| ca := MkArena r (a_mem a) true |> |> in
  Some (MkSimp (set_remove_satisfied st false) false (p_grow sp) (p_clause_lim sp) (p_subsumption_lim sp)
    (p_garbage_frac sp) (p_use_asymm sp) (p_use_rcheck sp) (p_use_elim sp) true true 0 [] [] occ_empty []
    (MkHeap [] []) new_queue [] [] [] 0 0 cr (new_clause [lit_Undef] true false)).

(** ** Clauses, occurrences and the heap *)

Definition set_core (t : Simp) (s : Core) : Simp := t <| base := (base t) <| core := s |> |>.

(** The temporary clause is abandoned, and its reference dangles, when the
    simplification is turned off. *)
Definition is_tmp (t : Simp) (cr : CRef) : bool := use_simplification t && (cr =? bwdsub_tmpunit t).

(** [ca[cr]]. *)
Definition clause_of (t : Simp) (cr : CRef) : option Clause :=
  if is_tmp t cr then Some (tmp_clause t) else ca_deref (ca (core (base t))) cr.

Definition set_clause (t : Simp) (cr : CRef) (c : Clause) : Simp :=
  if is_tmp t cr then t <| tmp_clause := c |>
  else set_core t ((core (base t)) <| ca := ca_store (ca (core (base t))) cr c |>).

(** The lists of [occurs] are indexed by the variable itself. *)
Definition vkey (v : Var) : Lit := MkLit v.

(** [ClauseDeleted]. *)
Definition clause_deleted (a : Arena) (cr : CRef) : bool :=
  match ca_deref a cr with Some c => c_mark c =? 1 | None => false end.

Definition occurs_of (t : Simp) (v : Var) : list CRef := occ_get (occurs t) (vkey v).

(** [occurs.lookup(v)] cleans the list first. *)
Definition occurs_lookup (t : Simp) (v : Var) : Simp :=
  t <| occurs := occ_lookup (clause_deleted (ca (core (base t)))) (occurs t) (vkey v) |>.

Definition isEliminated (t : Simp) (v : Var) : bool := zget false (eliminated t) v.

Definition is_frozen (t : Simp) (v : Var) : bool := zget false (frozen t) v.

Definition get_n_occ (t : Simp) (l : Lit) : Z := zget 0 (n_occ t) (lit_x l).

Definition add_n_occ (t : Simp) (l : Lit) (d : Z) : Simp :=
  t <| n_occ := zset (n_occ t) (lit_x l) (get_n_occ t l + d) |>.

(** [ElimLt]: the product in 64 bits. *)
Definition elim_cost (occ : list Z) (x : Var) : Z :=
  u64 (u64 (zget 0 occ (lit_x (mkLit x false))) * u64 (zget 0 occ (lit_x (lit_neg (mkLit x false))))).

Definition ElimLt (occ : list Z) (x y : Var) : bool := elim_cost occ x <? elim_cost occ y.

Definition updateElimHeap (t : Simp) (v : Var) : Simp :=
  if inHeap (elim_heap t) v ||
     (negb (is_frozen t v) && negb (isEliminated t v) && lb_eqb (value_var (core (base t)) v) l_Undef)
  then t <| elim_heap := Heap.update (ElimLt (n_occ t)) (elim_heap t) v |>
  else t.

Definition setFrozen (t : Simp) (v : Var) (b : bool) : Simp :=
  let t := t <| frozen := zset (frozen t) v b |> in
  if use_simplification t && negb b then updateElimHeap t v else t.

Definition freezeVar (t : Simp) (v : Var) : Simp :=
  if is_frozen t v then t
  else t <| frozen := zset (frozen t) v true |> <| frozen_vars := frozen_vars t ++ [v] |>.

Definition thaw (t : Simp) : Simp :=
  let t := foldl (λ t v,
    let t := t <| frozen := zset (frozen t) v false |> in
    if use_simplification t then updateElimHeap t v else t) t (frozen_vars t) in
  t <| frozen_vars := [] |>.

(** ** Variables and clauses *)

Definition simp_newVar (t : Simp) (upol : lbool) (dvar : bool) : option (Simp * Var) :=
  '(st, v) ← newVar (base t) upol dvar;
  let t := t <| base := st |> <| frozen := vmap_insert (frozen t) v false false |>
             <| eliminated := vmap_insert (eliminated t) v false false |> in
  if use_simplification t then
    let t := t <| n_occ := IntMap.insert lit_x (n_occ t) (mkLit v false) 0 0 |> in
    let t := t <| n_occ := IntMap.insert lit_x (n_occ t) (lit_neg (mkLit v false)) 0 0 |>
               <| occurs := occ_init (occurs t) (vkey v) |>
               <| touched := vmap_insert (touched t) v 0 0 |> in
    Some (t <| elim_heap := Heap.insert (ElimLt (n_occ t)) (elim_heap t) v |>, v)
  else Some (t, v).

(** [Solver::releaseVar] only when no eliminated clause can mention it. *)
Definition simp_releaseVar (t : Simp) (l : Lit) : option Simp :=
  if negb (use_simplification t) && (max_simp_var t <=? var l)
  then st ← releaseVar (base t) l; Some (t <| base := st |>)
  else '(st, _) ← addClause (base t) [l]; Some (t <| base := st |>).

(** The loop of [implied]: whether a literal is true. *)
Fixpoint enqueue_negated (s : Core) (ls : list Lit) : Core * bool :=
  match ls with
  | [] => (s, false)
  | l :: ls =>
      if lb_eqb (value s l) l_True then (s, true)
      else enqueue_negated (if lb_neb (value s l) l_False then uncheckedEnqueue s (lit_neg l) CRef_Undef else s) ls
  end.

Definition implied (t : Simp) (c : list Lit) : option (Simp * bool) :=
  let '(s, b) := enqueue_negated (newDecisionLevel (core (base t))) c in
  let st := (base t) <| core := s |> in
  if b : bool then Some (t <| base := cancelUntil st 0 |>, true)
  else
    '(st, confl) ← propagate st;
    Some (t <| base := cancelUntil st 0 |>, negb (confl =? CRef_Undef)).

(** The new clause [c] at [cr] enters the queue and the lists. *)
Definition touch_lit (cr : CRef) (t : Simp) (l : Lit) : Simp :=
  let v := var l in
  let t := t <| occurs := occ_push (occurs t) (vkey v) cr |> in
  let t := add_n_occ t l 1 in
  let t := t <| touched := zset (touched t) v 1 |> <| n_touched := n_touched t + 1 |> in
  if inHeap (elim_heap t) v then t <| elim_heap := Heap.increase (ElimLt (n_occ t)) (elim_heap t) v |> else t.

Definition simp_addClause_ (t : Simp) (ps : list Lit) : option (Simp * bool) :=
  let nclauses := length (clauses (base t)) in
  '(t, b) ← (if use_rcheck t then implied t ps else Some (t, false));
  if b : bool then Some (t, true)
  else
    let t := if parsing t then t else t <| base := extendProof (base t) ps false lit_Undef |> in
    '(st, b) ← addClause_ (base t) ps;
    let t := t <| base := st |> in
    if negb b then Some (t, false)
    else if use_simplification t && Nat.eqb (length (clauses st)) (nclauses + 1) then
      cr ← last (clauses st);
      c ← clause_of t cr;
      let t := t <| subsumption_queue := q_insert (subsumption_queue t) cr |> in
      Some (foldl (touch_lit cr) t (c_lits c), true)
    else Some (t, true).

Definition untouch_lit (t : Simp) (l : Lit) : Simp :=
  let t := updateElimHeap (add_n_occ t l (-1)) (var l) in
  t <| occurs := occ_smudge (occurs t) (vkey (var l)) |>.

Definition simp_removeClause (t : Simp) (cr : CRef) (remove_from_proof : bool) : option Simp :=
  c ← clause_of t cr;
  let t := if use_simplification t then foldl untouch_lit t (c_lits c) else t in
  st ← removeClause (base t) cr remove_from_proof;
  Some (t <| base := st |>).

(** [enqueue(l) && propagate() == CRef_Undef]. *)
Definition enqueue_propagate (t : Simp) (l : Lit) : option (Simp * bool) :=
  let '(b, s) := enqueue (core (base t)) l CRef_Undef in
  if b : bool then
    '(st, confl) ← propagate ((base t) <| core := s |>);
    Some (t <| base := st |>, confl =? CRef_Undef)
  else Some (t, false).

Definition strengthenClause (t : Simp) (cr : CRef) (l : Lit) : option (Simp * bool) :=
  c ← clause_of t cr;
  let t := t <| subsumption_queue := q_insert (subsumption_queue t) cr |>
             <| base := extendProof (base t) (c_lits c) false l |> in
  t ← (if c_size c =? 2 then
         t ← simp_removeClause t cr true;
         c ← clause_of t cr;
         c ← strengthen c l;
         Some (set_clause t cr c)
       else
         let t := t <| base := extendProof (base t) (c_lits c) true lit_Undef |> in
         st ← detachClause (base t) cr true;
         c ← strengthen c l;
         let t := set_clause (t <| base := st |>) cr c in
         st ← attachClause (base t) cr;
         os ← remove_first cr (occurs_of t (var l));
         let t := t <| base := st |> <| occurs := occ_set (occurs t) (vkey (var l)) os |> in
         Some (updateElimHeap (add_n_occ t l (-1)) (var l)));
  c ← clause_of t cr;
  if c_size c =? 1 then enqueue_propagate t (c_lits c !!! 0%nat) else Some (t, true).

(** ** Resolvents *)

(** What the loop over [ps] finds for the literal [q]: the first literal over
    its variable. *)
Definition same_var_lit (ps : list Lit) (q : Lit) : option Lit :=
  List.find (λ p, var p =? var q) ps.

(** The literals of [qs] that [ps] does not have; [None] when the resolvent is
    a tautology. *)
Fixpoint merge_loop (ps qs : list Lit) (v : Var) : option (list Lit) :=
  match qs with
  | [] => Some []
  | q :: qs =>
      if var q =? v then merge_loop ps qs v
      else match same_var_lit ps q with
           | Some p => if lit_eqb p (lit_neg q) then None else merge_loop ps qs v
           | None => cons q <$> merge_loop ps qs v
           end
  end.

(** The longer clause, and the other. *)
Definition longer_first (_ps _qs : list Lit) : list Lit * list Lit :=
  if Nat.ltb (length _ps) (length _qs) then (_qs, _ps) else (_ps, _qs).

(** [merge(_ps, _qs, v, out_clause)]. *)
Definition merge (_ps _qs : list Lit) (v : Var) : option (list Lit) :=
  let '(ps, qs) := longer_first _ps _qs in
  out ← merge_loop ps qs v;
  Some (out ++ filter (λ p, var p ≠ v) ps).

(** [merge(_ps, _qs, v, size)] only counts. *)
Fixpoint merge_count (ps qs : list Lit) (v : Var) (size : Z) : option Z :=
  match qs with
  | [] => Some size
  | q :: qs =>
      if var q =? v then merge_count ps qs v size
      else match same_var_lit ps q with
           | Some p => if lit_eqb p (lit_neg q) then None else merge_count ps qs v size
           | None => merge_count ps qs v (size + 1)
           end
  end.

Definition merge_size (_ps _qs : list Lit) (v : Var) : option Z :=
  let '(ps, qs) := longer_first _ps _qs in
  merge_count ps qs v (Z.of_nat (length ps) - 1).

(** ** Subsumption *)

(** [if (ca[cr].mark() == from) ca[cr].mark(to)] for the clauses of a list. *)
Fixpoint remark (t : Simp) (from to : Z) (crs : list CRef) : option Simp :=
  match crs with
  | [] => Some t
  | cr :: crs =>
      c ← clause_of t cr;
      remark (if c_mark c =? from then set_clause t cr (set_mark c to) else t) from to crs
  end.

(** The clauses of a touched variable that are not in the queue yet. *)
Fixpoint gather_list (t : Simp) (crs : list CRef) : option Simp :=
  match crs with
  | [] => Some t
  | cr :: crs =>
      c ← clause_of t cr;
      gather_list (if c_mark c =? 0
                   then set_clause (t <| subsumption_queue := q_insert (subsumption_queue t) cr |>)
                          cr (set_mark c 2)
                   else t) crs
  end.

Fixpoint gather_vars (t : Simp) (vs : list Var) : option Simp :=
  match vs with
  | [] => Some t
  | v :: vs =>
      if zget 0 (touched t) v =? 0 then gather_vars t vs
      else
        let t := occurs_lookup t v in
        t ← gather_list t (occurs_of t v);
        gather_vars (t <| touched := zset (touched t) v 0 |>) vs
  end.

Definition all_vars (t : Simp) : list Var := Z.of_nat <$> seq 0 (Z.to_nat (nVars (base t))).

Definition gatherTouchedClauses (t : Simp) : option Simp :=
  if n_touched t =? 0 then Some t
  else
    t ← remark t 0 2 (Queue.elems (subsumption_queue t));
    t ← gather_vars t (all_vars t);
    t ← remark t 2 0 (Queue.elems (subsumption_queue t));
    Some (t <| n_touched := 0 |>).

(** The variable of the clause with the shortest list. *)
Definition best_var (t : Simp) (ls : list Lit) : Var :=
  foldl (λ best l, if Nat.ltb (length (occurs_of t (var l))) (length (occurs_of t best)) then var l else best)
    (var (ls !!! 0%nat)) (drop 1 ls).

(** The candidates from position [j] of the list of [best] on. *)
Fixpoint bwd_candidates (fuel : nat) (t : Simp) (cr : CRef) (best : Var) (j : nat) : option (Simp * bool) :=
  let cs := occurs_of t best in
  if Nat.ltb j (length cs) then
    match fuel with
    | O => None
    | S fuel =>
        c ← clause_of t cr;
        if negb (c_mark c =? 0) then Some (t, true)
        else
          let dr := cs !!! j in
          d ← clause_of t dr;
          if (c_mark d =? 0) && negb (dr =? cr) &&
             ((subsumption_lim t =? -1) || (c_size d <? subsumption_lim t)) then
            let l := subsumes c d in
            if lit_eqb l lit_Undef then
              t ← simp_removeClause t dr true;
              bwd_candidates fuel t cr best (S j)
            else if lit_eqb l lit_Error then bwd_candidates fuel t cr best (S j)
            else
              '(t, b) ← strengthenClause t dr (lit_neg l);
              if negb b then Some (t, false)
              else bwd_candidates fuel t cr best (if var l =? best then j else S j)
          else bwd_candidates fuel t cr best (S j)
    end
  else Some (t, true).

(** The next assigned literal as a unit clause. *)
Definition enqueue_unit (t : Simp) : Simp :=
  let l := trail (core (base t)) !!! bwdsub_assigns t in
  let c := calcAbstraction (set_lits (tmp_clause t) (<[0%nat := l]> (c_lits (tmp_clause t)))) in
  t <| bwdsub_assigns := S (bwdsub_assigns t) |> <| tmp_clause := c |>
    <| subsumption_queue := q_insert (subsumption_queue t) (bwdsub_tmpunit t) |>.

(** A round of [backwardSubsumptionCheck]. *)
Definition bwd_step (t : Simp) : option (Simp + Simp * bool) :=
  let n := length (trail (core (base t))) in
  if Nat.ltb 0 (q_size (subsumption_queue t)) || Nat.ltb (bwdsub_assigns t) n then
    if asynch_interrupt (base t) then
      Some (inr (t <| subsumption_queue := q_clear (subsumption_queue t) |> <| bwdsub_assigns := n |>, true))
    else
      let t := if Nat.eqb (q_size (subsumption_queue t)) 0 && Nat.ltb (bwdsub_assigns t) n
               then enqueue_unit t else t in
      let cr := q_peek (subsumption_queue t) in
      let t := t <| subsumption_queue := q_pop (subsumption_queue t) |> in
      c ← clause_of t cr;
      if negb (c_mark c =? 0) then Some (inl t)
      else
        let best := best_var t (c_lits c) in
        let t := occurs_lookup t best in
        '(t, b) ← bwd_candidates (2 * length (occurs_of t best)) t cr best 0;
        Some (if b : bool then inl t else inr (t, false))
  else Some (inr (t, true)).

Definition backwardSubsumptionCheck (fuel : nat) (t : Simp) : option (Simp * bool) :=
  r ← iter2 bwd_step fuel t;
  match r with inr b => Some b | inl _ => None end.

(** ** Asymmetric branching *)

(** The literals other than that of [v] are made false, the last of the others
    is the one to be removed. *)
Fixpoint asymm_lits (s : Core) (v : Var) (l : Lit) (ls : list Lit) : Core * Lit :=
  match ls with
  | [] => (s, l)
  | x :: ls =>
      if negb (var x =? v) && lb_neb (value s x) l_False
      then asymm_lits (uncheckedEnqueue s (lit_neg x) CRef_Undef) v l ls
      else asymm_lits s v x ls
  end.

Definition asymm (t : Simp) (v : Var) (cr : CRef) : option (Simp * bool) :=
  c ← clause_of t cr;
  if negb (c_mark c =? 0) || satisfied (core (base t)) c then Some (t, true)
  else
    let '(s, l) := asymm_lits (newDecisionLevel (core (base t))) v lit_Undef (c_lits c) in
    '(st, confl) ← propagate ((base t) <| core := s |>);
    let t := t <| base := cancelUntil st 0 |> in
    if confl =? CRef_Undef then Some (t, true) else strengthenClause t cr l.

(** The clauses of [v] from position [i] on; the list may lose elements. *)
Fixpoint asymm_loop (fuel : nat) (t : Simp) (v : Var) (i : nat) : option (Simp * bool) :=
  let cls := occurs_of t v in
  if Nat.ltb i (length cls) then
    match fuel with
    | O => None
    | S fuel =>
        '(t, b) ← asymm t v (cls !!! i);
        if negb b then Some (t, false) else asymm_loop fuel t v (S i)
    end
  else Some (t, true).

Definition asymmVar (fuel : nat) (t : Simp) (v : Var) : option (Simp * bool) :=
  let t := occurs_lookup t v in
  let cls := occurs_of t v in
  if lb_neb (value_var (core (base t)) v) l_Undef || Nat.eqb (length cls) 0 then Some (t, true)
  else
    '(t, b) ← asymm_loop (length cls) t v 0;
    if negb b then Some (t, false) else backwardSubsumptionCheck fuel t.

(** ** Elimination of a variable *)

(** [mkElimClause(elimclauses, x)]. *)
Definition mkElimUnit (es : list Z) (x : Lit) : list Z := es ++ [lit_x x; 1].

(** The last position with a literal of [v]. *)
Fixpoint var_pos (ls : list Lit) (v : Var) (i : nat) (pos : option nat) : option nat :=
  match ls with
  | [] => pos
  | l :: ls => var_pos ls v (S i) (if var l =? v then Some i else pos)
  end.

(** [mkElimClause(elimclauses, v, c)]: the literal of [v] comes first and the
    length last. *)
Definition mkElimClause (es : list Z) (v : Var) (c : list Lit) : option (list Z) :=
  k ← var_pos c v 0 None;
  let ls := <[0%nat := c !!! k]> (<[k := c !!! 0%nat]> c) in
  Some (es ++ (lit_x <$> ls) ++ [Z.of_nat (length c)]).

Fixpoint mkElimClauses (es : list Z) (v : Var) (cs : list (list Lit)) : option (list Z) :=
  match cs with
  | [] => Some es
  | c :: cs => es ← mkElimClause es v c; mkElimClauses es v cs
  end.

(** The literals of the clauses [crs]. *)
Definition lits_of (t : Simp) (crs : list CRef) : option (list (list Lit)) :=
  mapM (λ cr, c_lits <$> clause_of t cr) crs.

(** [(find(ca[cls[i]], mkLit(v)) ? pos : neg).push(cls[i])]. *)
Fixpoint split_occurs (t : Simp) (v : Var) (crs : list CRef) : option (list CRef * list CRef) :=
  match crs with
  | [] => Some ([], [])
  | cr :: crs =>
      c ← clause_of t cr;
      '(pos, neg) ← split_occurs t v crs;
      Some (if find_elem (c_lits c) (mkLit v false) then (cr :: pos, neg) else (pos, cr :: neg))
  end.

(** The pairs in the order of the two nested loops. *)
Definition pairs {A B} (xs : list A) (ys : list B) : list (A * B) := xs ≫= λ x, pair x <$> ys.

(** Whether too many or too long clauses would be added. *)
Fixpoint too_costly (t : Simp) (v : Var) (n cnt : Z) (ps : list (list Lit * list Lit)) : bool :=
  match ps with
  | [] => false
  | (p, q) :: ps =>
      match merge_size p q v with
      | None => too_costly t v n cnt ps
      | Some size =>
          (n + grow t <? cnt + 1) || (negb (clause_lim t =? -1) && (clause_lim t <? size)) ||
          too_costly t v n (cnt + 1) ps
      end
  end.

Fixpoint simp_removeClauses (t : Simp) (crs : list CRef) : option Simp :=
  match crs with
  | [] => Some t
  | cr :: crs => t ← simp_removeClause t cr false; simp_removeClauses t crs
  end.

(** The clauses in the cross product, of clauses already marked as removed. *)
Fixpoint add_resolvents (t : Simp) (v : Var) (ps : list (CRef * CRef)) : option (Simp * bool) :=
  match ps with
  | [] => Some (t, true)
  | (x, y) :: ps =>
      p ← clause_of t x;
      q ← clause_of t y;
      match merge (c_lits p) (c_lits q) v with
      | None => add_resolvents t v ps
      | Some resolvent =>
          '(t, b) ← simp_addClause_ t resolvent;
          if negb b then Some (t, false) else add_resolvents t v ps
      end
  end.

Fixpoint proof_removed (t : Simp) (crs : list CRef) : option Simp :=
  match crs with
  | [] => Some t
  | cr :: crs =>
      c ← clause_of t cr;
      proof_removed (t <| base := extendProof (base t) (c_lits c) true lit_Undef |>) crs
  end.

(** The clauses of the smaller side and the unit clause of the other. *)
Definition store_clauses (es : list Z) (v : Var) (pos neg : list (list Lit)) : option (list Z) :=
  if Nat.ltb (length neg) (length pos)
  then es ← mkElimClauses es v neg; Some (mkElimUnit es (mkLit v false))
  else es ← mkElimClauses es v pos; Some (mkElimUnit es (lit_neg (mkLit v false))).

(** [eliminateVar(v)]; releasing the memory of the emptied lists of watchers
    changes nothing here. *)
Definition eliminateVar (fuel : nat) (t : Simp) (v : Var) : option (Simp * bool) :=
  let t := occurs_lookup t v in
  let cls := occurs_of t v in
  '(pos, neg) ← split_occurs t v cls;
  pls ← lits_of t pos;
  nls ← lits_of t neg;
  if too_costly t v (Z.of_nat (length cls)) 0 (pairs pls nls) then Some (t, true)
  else
    es ← store_clauses (elimclauses t) v pls nls;
    let st := (base t) <| order := setDecisionVar (order (base t)) v false |> in
    let t := t <| eliminated := zset (eliminated t) v true |> <| base := st |> <| elimclauses := es |> in
    t ← simp_removeClauses t cls;
    '(t, b) ← add_resolvents t v (pairs pos neg);
    if negb b then Some (t, false)
    else
      t ← proof_removed t cls;
      backwardSubsumptionCheck fuel (t <| occurs := occ_set (occurs t) (vkey v) [] |>).

(** [x ^ b] on literals. *)
Definition lit_flip (x : Lit) (b : bool) : Lit := if b then lit_neg x else x.

Fixpoint substitute_loop (t : Simp) (v : Var) (x : Lit) (crs : list CRef) : option (Simp * bool) :=
  match crs with
  | [] => Some (t, true)
  | cr :: crs =>
      c ← clause_of t cr;
      let subst_clause := (λ p, if var p =? v then lit_flip x (sign p) else p) <$> c_lits c in
      t ← simp_removeClause t cr true;
      '(t, b) ← simp_addClause_ t subst_clause;
      if negb b then Some (t <| base := (base t) <| ok := false |> |>, false)
      else substitute_loop t v x crs
  end.

Definition substitute (t : Simp) (v : Var) (x : Lit) : option (Simp * bool) :=
  if negb (ok (base t)) then Some (t, false)
  else
    let st := (base t) <| order := setDecisionVar (order (base t)) v false |> in
    let t := occurs_lookup (t <| eliminated := zset (eliminated t) v true |> <| base := st |>) v in
    substitute_loop t v x (occurs_of t v).

(** ** Extension of a model *)

Definition model_value (m : list lbool) (p : Lit) : lbool := lb_xor (zget inhabitant m (var p)) (sign p).

(** The literals of one stored clause, from position [i] down; [j] counts them.
    The first is made true when no other is. *)
Fixpoint extend_clause (j : nat) (es : list Z) (m : list lbool) (i : Z) : list lbool * Z * Z :=
  match j with
  | S (S _ as k) =>
      if lb_neb (model_value m (MkLit (zget 0 es i))) l_False then (m, i, Z.of_nat j)
      else extend_clause k es m (i - 1)
  | _ =>
      let x := MkLit (zget 0 es i) in
      (zset m (var x) (lbool_of_bool (negb (sign x))), i, Z.of_nat j)
  end.

Fixpoint extend_loop (fuel : nat) (es : list Z) (m : list lbool) (i : Z) : option (list lbool) :=
  if 0 <? i then
    match fuel with
    | O => None
    | S fuel =>
        let '(m, i, j) := extend_clause (Z.to_nat (zget 0 es i)) es m (i - 1) in
        extend_loop fuel es m (i - j)
    end
  else Some m.

Definition extend_list (es : list Z) (m : list lbool) : option (list lbool) :=
  extend_loop (length es) es m (Z.of_nat (length es) - 1).

Definition extendModel (t : Simp) : option Simp :=
  m ← extend_list (elimclauses t) (model (base t));
  Some (t <| base := (base t) <| model := m |> |>).

(** ** Garbage collection *)

(** [ca.reloc(cr, to)] with the temporary clause [tmp] and its copy. *)
Record Moving := MkMoving { mv_from : Arena; mv_tmp : Clause; mv_copy : Clause; mv_to : Arena }.

Definition simp_reloc (t : Simp) (m : Moving) (cr : CRef) : option (CRef * Moving) :=
  if cr =? bwdsub_tmpunit t then
    let c := mv_tmp m in
    if c_reloced c then Some (relocation c, m)
    else
      let to := mv_to m in
      let use_extra := c_learnt c || a_extra to in
      '(cr', r) ← alloc (a_region to) (clauseWord32Size (c_size c) use_extra);
      Some (cr', MkMoving (mv_from m) (relocate c cr') (copy_clause c use_extra)
                          (MkArena r (a_mem to) (a_extra to)))
  else
    '(cr', a, to) ← ca_reloc (mv_from m) (mv_to m) cr;
    Some (cr', MkMoving a (mv_tmp m) (mv_copy m) to).

Fixpoint simp_reloc_list (t : Simp) (m : Moving) (crs : list CRef) : option (list CRef * Moving) :=
  match crs with
  | [] => Some ([], m)
  | cr :: crs =>
      '(cr, m) ← simp_reloc t m cr;
      '(crs, m) ← simp_reloc_list t m crs;
      Some (cr :: crs, m)
  end.

Fixpoint reloc_occurs (t : Simp) (m : Moving) (vs : list Var) : option (Simp * Moving) :=
  match vs with
  | [] => Some (t, m)
  | v :: vs =>
      let t := t <| occurs := occ_clean (clause_deleted (mv_from m)) (occurs t) (vkey v) |> in
      '(cs, m) ← simp_reloc_list t m (occurs_of t v);
      reloc_occurs (t <| occurs := occ_set (occurs t) (vkey v) cs |>) m vs
  end.

(** The queue turns once around; removed clauses are dropped. *)
Fixpoint reloc_queue (n : nat) (t : Simp) (m : Moving) (q : Queue CRef) : option (Queue CRef * Moving) :=
  match n with
  | O => Some (q, m)
  | S n =>
      let cr := q_peek q in
      let q := q_pop q in
      c ← (if cr =? bwdsub_tmpunit t then Some (mv_tmp m) else ca_deref (mv_from m) cr);
      if negb (c_mark c =? 0) then reloc_queue n t m q
      else '(cr, m) ← simp_reloc t m cr; reloc_queue n t m (q_insert q cr)
  end.

Definition simp_relocAll (t : Simp) (m : Moving) : option (Simp * Moving) :=
  if negb (use_simplification t) then Some (t, m)
  else
    '(t, m) ← reloc_occurs t m (all_vars t);
    '(q, m) ← reloc_queue (q_size (subsumption_queue t)) t m (subsumption_queue t);
    '(cr, m) ← simp_reloc t m (bwdsub_tmpunit t);
    Some (t <| subsumption_queue := q |> <| bwdsub_tmpunit := cr |> <| tmp_clause := mv_copy m |>, m).

Definition simp_garbageCollect (t : Simp) : option Simp :=
  let a := ca (core (base t)) in
  let r := a_region a in
  region ← new_region (u32 (r_sz r - r_wasted r));
  '(t, m) ← simp_relocAll t (MkMoving a (tmp_clause t) (tmp_clause t) (MkArena region ∅ (a_extra a)));
  '(st, to) ← relocAll ((base t) <| core := (core (base t)) <| ca := mv_from m |> |>) (mv_to m);
  Some (t <| base := st <| core := (core st) <| ca := ca_moveTo to |> |> |>).

(** [checkGarbage(gf)] calls the overriding [garbageCollect]. *)
Definition simp_checkGarbage (t : Simp) (gf : double) : option Simp :=
  let r := a_region (ca (core (base t))) in
  if d_ltb (d_mul (d_of_Z (r_sz r)) gf) (d_of_Z (r_wasted r)) then simp_garbageCollect t else Some t.

(** [Solver::simplify()] as the derived class runs it. *)
Definition simp_simplify (t : Simp) : option (Simp * bool) :=
  '(st, good) ← (if ok (base t) then '(st, confl) ← propagate (base t); Some (st, confl =? CRef_Undef)
                 else Some (base t, false));
  if negb good then Some (t <| base := st <| ok := false |> |>, false)
  else if (nAssigns (core st) =? simpDB_assigns st) || (0 <? simpDB_props st) then Some (t <| base := st |>, true)
  else
    '(st, ls) ← removeSatisfied st (learnts st);
    let st := st <| learnts := ls |> in
    st ← (if remove_satisfied (params st) then
            '(st, cs) ← removeSatisfied st (clauses st);
            Some (release_trail (st <| clauses := cs |>))
          else Some st);
    t ← simp_checkGarbage (t <| base := st |>) (garbage_frac (params st));
    let st := rebuildOrderHeap (base t) in
    let st := st <| simpDB_assigns := nAssigns (core st) |>
                 <| simpDB_props := s64 (clauses_literals (stats st) + learnts_literals (stats st)) |> in
    Some (t <| base := st |>, true).

(** ** [eliminate] *)

Definition set_ok (t : Simp) (b : bool) : Simp := t <| base := (base t) <| ok := b |> |>.

(** Asymmetric branching on the temporarily frozen variable. *)
Definition asymm_frozen (fuel : nat) (t : Simp) (v : Var) : option (Simp * bool) :=
  if use_asymm t then
    let was_frozen := is_frozen t v in
    '(t, b) ← asymmVar fuel (t <| frozen := zset (frozen t) v true |>) v;
    Some (if b : bool then t <| frozen := zset (frozen t) v was_frozen |> else t, b)
  else Some (t, true).

(** A round of the loop over the heap; the result tells whether to go on. *)
Definition elim_step (fuel : nat) (t : Simp) : option (Simp + Simp * bool) :=
  if heap_empty (elim_heap t) then Some (inr (t, true))
  else
    let '(elim, h) := removeMin (ElimLt (n_occ t)) (elim_heap t) in
    let t := t <| elim_heap := h |> in
    if asynch_interrupt (base t) then Some (inr (t, true))
    else if isEliminated t elim || lb_neb (value_var (core (base t)) elim) l_Undef then Some (inl t)
    else
      '(t, b) ← asymm_frozen fuel t elim;
      if negb b then Some (inr (set_ok t false, false))
      else
        '(t, b) ← (if use_elim t && lb_eqb (value_var (core (base t)) elim) l_Undef && negb (is_frozen t elim)
                   then eliminateVar fuel t elim else Some (t, true));
        if negb b then Some (inr (set_ok t false, false))
        else t ← simp_checkGarbage t (simp_garbage_frac t); Some (inl t).

(** A round of the main loop; [inr] is the jump to [cleanup] or its end. *)
Definition main_step (fuel : nat) (t : Simp) : option (Simp + Simp) :=
  let n t := length (trail (core (base t))) in
  if (0 <? n_touched t) || Nat.ltb (bwdsub_assigns t) (n t) || negb (heap_empty (elim_heap t)) then
    t ← gatherTouchedClauses t;
    '(t, b) ← (if Nat.ltb 0 (q_size (subsumption_queue t)) || Nat.ltb (bwdsub_assigns t) (n t)
               then backwardSubsumptionCheck fuel t else Some (t, true));
    if negb b then Some (inr (set_ok t false))
    else if asynch_interrupt (base t) then Some (inr (t <| elim_heap := Heap.clear (elim_heap t) |>))
    else
      r ← iter2 (elim_step fuel) fuel t;
      match r with
      | inl _ => None
      | inr (t, b) => Some (if b : bool then inl t else inr t)
      end
  else Some (inr t).

Definition turn_off (t : Simp) : option Simp :=
  let a := set_extra (ca (core (base t))) false in
  let st := set_remove_satisfied (base t) true in
  let st := rebuildOrderHeap (st <| core := (core st) <| ca := a |> |>) in
  simp_garbageCollect
    (t <| base := st |> <| touched := [] |> <| occurs := occ_empty |> <| n_occ := [] |>
       <| elim_heap := Heap.clear (elim_heap t) |> <| subsumption_queue := q_clear (subsumption_queue t) |>
       <| use_simplification := false |> <| max_simp_var := nVars (base t) |>).

Definition eliminate (fuel : nat) (t : Simp) (turn_off_elim : bool) : option (Simp * bool) :=
  '(t, b) ← simp_simplify t;
  if negb b then Some (t, false)
  else if negb (use_simplification t) then Some (t, true)
  else
    r ← iter2 (main_step fuel) fuel t;
    match r with
    | inl _ => None
    | inr t =>
        t ← (if turn_off_elim then turn_off t
             else simp_checkGarbage t (garbage_frac (params (base t))));
        Some (t, ok (base t))
    end.

(** ** Solving *)

(** The assumptions are frozen during the elimination. *)
Fixpoint freeze_assumptions (t : Simp) (extra : list Var) (ps : list Lit) : Simp * list Var :=
  match ps with
  | [] => (t, extra)
  | p :: ps =>
      let v := var p in
      if is_frozen t v then freeze_assumptions t extra ps
      else freeze_assumptions (setFrozen t v true) (extra ++ [v]) ps
  end.

(** [Solver::solve_()].  While the simplification is on, the garbage collections
    of the search relocate the occurrence lists too; this search is [None]. *)
Definition base_solve (restarts search_fuel : nat) (t : Simp) : option (Simp * lbool) :=
  if use_simplification t then None
  else '(st, r) ← solve_ restarts search_fuel (base t); Some (t <| base := st |>, r).

Definition simp_solve_ (fuel restarts search_fuel : nat) (t : Simp) (do_simp turn_off_simp : bool) :
    option (Simp * lbool) :=
  t ← simp_garbageCollect t;
  let do_simp := do_simp && use_simplification t in
  let '(t, extra_frozen) := if do_simp then freeze_assumptions t [] (assumptions (base t)) else (t, []) in
  '(t, b) ← (if do_simp then eliminate fuel t turn_off_simp else Some (t, true));
  '(t, result) ← (if b : bool then base_solve restarts search_fuel t else Some (t, l_False));
  t ← (if lb_eqb result l_True && extend_model t then extendModel t else Some t);
  Some (foldl (λ t v, setFrozen t v false) t extra_frozen, result).

Definition simp_solveLimited (fuel restarts search_fuel : nat) (t : Simp) (assumps : list Lit)
    (do_simp turn_off_simp : bool) : option (Simp * lbool) :=
  simp_solve_ fuel restarts search_fuel (t <| base := (base t) <| assumptions := assumps |> |>) do_simp turn_off_simp.

Definition simp_solve (fuel restarts search_fuel : nat) (t : Simp) (assumps : list Lit)
    (do_simp turn_off_simp : bool) : option (Simp * bool) :=
  '(t, r) ← simp_solve_ fuel restarts search_fuel
              (t <| base := (budgetOff (base t)) <| assumptions := assumps |> |>) do_simp turn_off_simp;
  Some (t, lb_eqb r l_True).

(** ** The remaining clauses, renamed *)

(** [mapVar(x, map, max)]. *)
Definition mapVar (x : Var) (map : list Z) (max : Z) : Z * list Z * Z :=
  if (Z.of_nat (length map) <=? x) || (zget (-1) map x =? -1)
  then (max, zset (grow_to map (Z.to_nat (x + 1)) (-1)) x max, max + 1)
  else (zget (-1) map x, map, max).

Fixpoint map_lits (s : Core) (map : list Z) (max : Z) (ls : list Lit) : list Lit * list Z * Z :=
  match ls with
  | [] => ([], map, max)
  | l :: ls =>
      if lb_neb (value s l) l_False then
        let '(x, map, max) := mapVar (var l) map max in
        let '(out, map, max) := map_lits s map max ls in
        (mkLit x (sign l) :: out, map, max)
      else map_lits s map max ls
  end.

(** The first pass over the clauses, for the order of the new names. *)
Fixpoint map_clauses (s : Core) (map : list Z) (max : Z) (cs : list Clause) : list Z * Z :=
  match cs with
  | [] => (map, max)
  | c :: cs =>
      if satisfied s c then map_clauses s map max cs
      else let '(_, map, max) := map_lits s map max (c_lits c) in map_clauses s map max cs
  end.

(** The second pass: clauses without literals are left out. *)
Fixpoint out_clauses (s : Core) (map : list Z) (max : Z) (cs : list Clause) : list (list Lit) * list Z * Z :=
  match cs with
  | [] => ([], map, max)
  | c :: cs =>
      if satisfied s c then out_clauses s map max cs
      else
        let '(lits, map, max) := map_lits s map max (c_lits c) in
        let '(out, map, max) := out_clauses s map max cs in
        (match lits with [] => out | _ => lits :: out end, map, max)
  end.

(** [toDimacs(out_cls, map)]. *)
Definition toDimacs (t : Simp) (map : list Z) : option (list (list Lit) * list Z) :=
  cs ← mapM (clause_of t) (clauses (base t));
  let s := core (base t) in
  let '(map, max) := map_clauses s map 0 cs in
  let '(out, map, _) := out_clauses s map max cs in
  Some (out, map).
