(* ===== verification/ElimSpec.v ===== *)
(** * Resolution and the extension of a model

    The two directions of variable elimination on clauses: [merge] computes the
    resolvents, which every model satisfies; and [extendModel], run over what
    [store_clauses] saved of the eliminated clauses, turns a model of the
    resolvents into a model of the clauses. *)
From S2P Require Import Prelude Lit UnitProp Vec Queue Clause Solver Propagate Setup SetupSpec Reduce Simp.

(** ** [merge] *)

Lemma same_var_some ps q p : same_var_lit ps q = Some p → p ∈ ps ∧ var p = var q.
Proof.
  intros H. apply List.find_some in H as [H1 H2]. apply Z.eqb_eq in H2. split; [by apply list_elem_of_In | done].
Qed.

Lemma same_var_none ps q : same_var_lit ps q = None → ∀ p, p ∈ ps → var p ≠ var q.
Proof.
  intros H p Hp. apply list_elem_of_In in Hp. pose proof (List.find_none _ _ H p Hp) as Hn.
  by apply Z.eqb_neq in Hn.
Qed.

(** A clause has at most one literal over a variable. *)
Definition var_once (ls : list Lit) : Prop := NoDup (var <$> ls).

Lemma var_once_eq ls l k : var_once ls → l ∈ ls → k ∈ ls → var l = var k → l = k.
Proof.
  intros Hn Hl Hk E. apply list_elem_of_lookup_1 in Hl as [i Hi]. apply list_elem_of_lookup_1 in Hk as [j Hj].
  assert (i = j) as <-; [| congruence].
  apply (NoDup_lookup (var <$> ls) i j (var l)); [done | by rewrite list_lookup_fmap, Hi |].
  by rewrite list_lookup_fmap, Hj, E.
Qed.

Lemma merge_loop_some ps qs v out : merge_loop ps qs v = Some out →
  (∀ l, l ∈ out → l ∈ qs ∧ var l ≠ v ∧ ∀ p, p ∈ ps → var p ≠ var l) ∧
  (∀ q, q ∈ qs → var q ≠ v → q ∈ out ∨ ∃ p, p ∈ ps ∧ p = q) ∧ sublist out qs.
Proof.
  revert out. induction qs as [| q qs IH]; simpl; intros out.
  { intros [= <-]. split; [intros l Hl; by apply elem_of_nil in Hl |].
    split; [intros l Hl; by apply elem_of_nil in Hl | constructor]. }
  assert (∀ out, merge_loop ps qs v = Some out → (var q = v ∨ q ∈ ps) →
    (∀ l, l ∈ out → l ∈ q :: qs ∧ var l ≠ v ∧ ∀ p, p ∈ ps → var p ≠ var l) ∧
    (∀ x, x ∈ q :: qs → var x ≠ v → x ∈ out ∨ ∃ p, p ∈ ps ∧ p = x) ∧ sublist out (q :: qs)) as Hskip.
  { intros out' H Hq. destruct (IH out' H) as (H1 & H2 & H3). split; [| split; [| by constructor]].
    - intros l Hl. destruct (H1 l Hl) as (? & ? & ?). split; [by right | done].
    - intros x [-> | Hx]%elem_of_cons Hv; [| by apply H2]. destruct Hq as [? | Hq]; [done |]. right. by exists q. }
  destruct (Z.eqb_spec (var q) v) as [Ev | Ev]; [intros H; apply Hskip; auto |].
  destruct (same_var_lit ps q) as [p |] eqn:Es.
  - destruct (same_var_some _ _ _ Es) as [Hp Epq]. rewrite lit_eqb_spec. case_bool_decide as Hn; [done |].
    intros H. apply Hskip; [done |]. right. destruct (same_var _ _ Epq) as [<- | ->]; [done |]. done.
  - destruct (merge_loop ps qs v) as [out' |]; [| done]. simpl. intros [= <-].
    destruct (IH out' eq_refl) as (H1 & H2 & H3). split; [| split; [| by constructor]].
    + intros l [-> | Hl]%elem_of_cons.
      * split; [by left |]. split; [done |]. by apply same_var_none.
      * destruct (H1 l Hl) as (? & ? & ?). split; [by right | done].
    + intros x [-> | Hx]%elem_of_cons Hv; [left; by left |].
      destruct (H2 x Hx Hv) as [? | ?]; [left; by right | by right].
Qed.

Lemma merge_loop_none ps qs v : merge_loop ps qs v = None → ∃ q, q ∈ qs ∧ var q ≠ v ∧ lit_neg q ∈ ps.
Proof.
  induction qs as [| q qs IH]; simpl; [done |].
  destruct (Z.eqb_spec (var q) v) as [Ev | Ev].
  - intros (x & Hx & Hr)%IH. exists x. split; [by right | done].
  - destruct (same_var_lit ps q) as [p |] eqn:Es.
    + destruct (same_var_some _ _ _ Es) as [Hp Epq]. rewrite lit_eqb_spec. case_bool_decide as Hn.
      * intros _. exists q. split; [by left |]. split; [done |]. by rewrite <- Hn.
      * intros (x & Hx & Hr)%IH. exists x. split; [by right | done].
    + destruct (merge_loop ps qs v) as [out' |]; [done |].
      intros _. destruct (IH eq_refl) as (x & Hx & Hr). exists x. split; [by right | done].
Qed.

Lemma merge_loop_taut ps qs v q : var_once ps → q ∈ qs → var q ≠ v → lit_neg q ∈ ps → merge_loop ps qs v = None.
Proof.
  intros Hp. induction qs as [| x qs IH]; intros Hq Hv Hn; [by apply elem_of_nil in Hq |]. simpl.
  apply elem_of_cons in Hq as [<- | Hq].
  - destruct (Z.eqb_spec (var q) v); [done |]. destruct (same_var_lit ps q) as [p |] eqn:Es.
    + destruct (same_var_some _ _ _ Es) as [Hin Epq]. rewrite lit_eqb_spec, bool_decide_eq_true_2; [done |].
      apply (var_once_eq ps); try done. by rewrite var_neg.
    + destruct (same_var_none _ _ Es _ Hn). by rewrite var_neg.
  - rewrite (IH Hq Hv Hn). destruct (var x =? v); [done |]. destruct (same_var_lit ps x) as [p |]; [| done].
    by destruct (lit_eqb p (lit_neg x)).
Qed.

(** The size counted is the length of the literals merged. *)
Lemma merge_count_spec ps qs v n : merge_count ps qs v n = (λ out, n + Z.of_nat (length out)) <$> merge_loop ps qs v.
Proof.
  revert n. induction qs as [| q qs IH]; intros n; simpl; [f_equal; lia |].
  destruct (var q =? v); [done |]. destruct (same_var_lit ps q) as [p |].
  - by destruct (lit_eqb p (lit_neg q)).
  - rewrite IH. destruct (merge_loop ps qs v) as [out |]; simpl; [f_equal; lia | done].
Qed.

Lemma filter_all {A} (P : A → Prop) `{∀ x, Decision (P x)} (l : list A) : (∀ x, x ∈ l → P x) → filter P l = l.
Proof.
  induction l as [| x l IH]; intros Hl; [done |]. rewrite filter_cons_True by (apply Hl; by left).
  f_equal. apply IH. intros y Hy. apply Hl. by right.
Qed.

Section Merge.
Context (p q : list Lit) (v : Var) (a b : Lit).
Hypothesis Hp : var_once p.
Hypothesis Hq : var_once q.
Hypothesis Ha : a ∈ p.
Hypothesis Hb : b ∈ q.
Hypothesis Eav : var a = v.
Hypothesis Ebv : var b = v.

(** What a resolvent is, whichever clause is longer. *)
Lemma merge_spec : match merge p q v with
  | Some r => var_once r ∧ (∀ l, l ∈ r ↔ (l ∈ p ∨ l ∈ q) ∧ var l ≠ v) ∧ merge_size p q v = Some (Z.of_nat (length r))
  | None => merge_size p q v = None ∧ ∃ l, var l ≠ v ∧ l ∈ p ∧ lit_neg l ∈ q
  end.
Proof using All.
  assert (∀ ps qs x, var_once ps → var_once qs → x ∈ ps → var x = v →
    match merge_loop ps qs v with
    | Some out => var_once (out ++ filter (λ p, var p ≠ v) ps) ∧
        (∀ l, l ∈ out ++ filter (λ p, var p ≠ v) ps ↔ (l ∈ ps ∨ l ∈ qs) ∧ var l ≠ v) ∧
        Z.of_nat (length ps) - 1 + Z.of_nat (length out) = Z.of_nat (length (out ++ filter (λ p, var p ≠ v) ps))
    | None => ∃ l, var l ≠ v ∧ l ∈ ps ∧ lit_neg l ∈ qs
    end) as Hmain.
  { intros ps qs x H1 H2 Hx Ex. destruct (merge_loop ps qs v) as [out |] eqn:E.
    - destruct (merge_loop_some _ _ _ _ E) as (M1 & M2 & M3). split; [| split].
      + unfold var_once. rewrite fmap_app. apply NoDup_app. split; [| split].
        * eapply sublist_NoDup; [exact H2 | by apply fmap_sublist].
        * intros y (l & -> & Hl)%list_elem_of_fmap (k & Ek & [_ Hk]%list_elem_of_filter)%list_elem_of_fmap.
          destruct (M1 l Hl) as (_ & _ & Hne). by apply (Hne k Hk).
        * eapply sublist_NoDup; [exact H1 | apply fmap_sublist, sublist_filter].
      + intros l. rewrite elem_of_app, list_elem_of_filter. split.
        * intros [Hl%M1 | [? ?]]; [| tauto]. destruct Hl as (? & ? & _). tauto.
        * intros [[Hl | Hl] Hv]; [tauto |]. destruct (M2 l Hl Hv) as [? | (k & Hk & ->)]; tauto.
      + rewrite length_app. enough (Z.of_nat (length ps) - 1 = Z.of_nat (length (filter (λ p, var p ≠ v) ps))) by lia.
        clear E M1 M2 M3 H2. induction ps as [| y ps IH]; [by apply elem_of_nil in Hx |].
        unfold var_once in H1. simpl in H1. apply NoDup_cons in H1 as [Hn H1]. rewrite filter_cons.
        apply elem_of_cons in Hx as [<- | Hx].
        * rewrite decide_False by (intros H; by apply H). rewrite filter_all; [simpl; lia |].
          intros k Hk Ek. apply Hn. rewrite Ex, <- Ek. by apply list_elem_of_fmap_2.
        * rewrite decide_True; [rewrite !length_cons; pose proof (IH H1 Hx); lia |].
          intros Ey. apply Hn. rewrite Ey, <- Ex. by apply list_elem_of_fmap_2.
    - destruct (merge_loop_none _ _ _ E) as (l & Hl & Hv & Hin). exists (lit_neg l).
      rewrite var_neg, lit_neg_involutive. done. }
  unfold merge, merge_size, longer_first. destruct (Nat.ltb _ _).
  - specialize (Hmain q p b Hq Hp Hb Ebv). rewrite merge_count_spec. destruct (merge_loop q p v) as [out |]; simpl.
    + destruct Hmain as (H1 & H2 & H3). split; [done |]. split; [| by f_equal]. intros l. rewrite H2. tauto.
    + destruct Hmain as (l & H1 & H2 & H3). split; [done |]. exists (lit_neg l). rewrite var_neg, lit_neg_involutive. done.
  - specialize (Hmain p q a Hp Hq Ha Eav). rewrite merge_count_spec. destruct (merge_loop p q v) as [out |]; simpl.
    + destruct Hmain as (H1 & H2 & H3). split; [done |]. split; [| by f_equal]. intros l. rewrite H2. tauto.
    + destruct Hmain as (l & H1 & H2 & H3). split; [done |]. by exists l.
Qed.
End Merge.

(** ** One entry of the stack, on assignments and on models *)

Definition fn_set (σ : Z → bool) (v : Z) (b : bool) : Z → bool := λ u, if decide (u = v) then b else σ u.

(** The first literal becomes true when the others are false. *)
Definition extend1 (e : list Lit) (σ : Z → bool) : Z → bool :=
  match e with
  | [] => σ
  | x :: rest => if forallb (λ l, negb (lit_true σ l)) rest then fn_set σ (var x) (negb (sign x)) else σ
  end.

(** The last entry comes first. *)
Definition extend_stack (es : list (list Lit)) (σ : Z → bool) : Z → bool := foldr extend1 σ es.

Definition extend1_list (e : list Lit) (m : list lbool) : list lbool :=
  match e with
  | [] => m
  | x :: rest => if forallb (λ l, lb_eqb (model_value m l) l_False) rest
                 then zset m (var x) (lbool_of_bool (negb (sign x))) else m
  end.

(** How [elimclauses] holds the entries. *)
Definition enc (e : list Lit) : list Z := (lit_x <$> e) ++ [Z.of_nat (length e)].

Definition enc_stack (es : list (list Lit)) : list Z := es ≫= enc.

Lemma lit_eta l : MkLit (lit_x l) = l.
Proof. by destruct l. Qed.

Lemma zget_middle (pre suf : list Z) (a d : Z) : zget d (pre ++ a :: suf) (Z.of_nat (length pre)) = a.
Proof. rewrite zget_of_nat, lookup_app_r, Nat.sub_diag by lia. done. Qed.

Lemma extend_clause_spec pre x rest : ∀ suf m, ∃ i j,
  extend_clause (S (length rest)) (pre ++ (lit_x <$> x :: rest) ++ suf) m (Z.of_nat (length pre + length rest)) =
    (extend1_list (x :: rest) m, i, j) ∧ i - j = Z.of_nat (length pre) - 1.
Proof.
  induction rest as [| l rest IH] using rev_ind; intros suf m.
  - simpl. rewrite Nat.add_0_r, zget_middle, lit_eta. eexists _, _. split; [done |]. lia.
  - rewrite length_app. simpl length. rewrite (Nat.add_1_r (length rest)).
    set (es := pre ++ _). cbn [extend_clause].
    assert (es = (pre ++ (lit_x <$> x :: rest)) ++ lit_x l :: suf) as Ees.
    { unfold es. rewrite app_comm_cons, fmap_app. simpl. by rewrite <- !(assoc_L (++)). }
    assert (MkLit (zget 0 es (Z.of_nat (length pre + S (length rest)))) = l) as ->.
    { rewrite Ees. replace (length pre + S (length rest))%nat with (length (pre ++ (lit_x <$> x :: rest)))
        by (rewrite length_app, length_fmap; simpl; lia).
      by rewrite zget_middle, lit_eta. }
    unfold lb_neb. simpl extend1_list. rewrite forallb_app. simpl forallb. rewrite andb_true_r.
    destruct (lb_eqb (model_value m l) l_False); simpl negb.
    + rewrite andb_true_r. destruct (IH (lit_x l :: suf) m) as (i & j & E & Hij). exists i, j. split; [| done].
      replace (Z.of_nat (length pre + S (length rest)) - 1) with (Z.of_nat (length pre + length rest)) by lia.
      rewrite Ees, <- (assoc_L (++)). exact E.
    + rewrite andb_false_r. eexists _, _. split; [done |]. lia.
Qed.

Lemma length_enc e : length (enc e) = S (length e).
Proof. unfold enc. rewrite length_app, length_fmap. simpl. lia. Qed.

Lemma enc_stack_app es e : enc_stack (es ++ [e]) = enc_stack es ++ enc e.
Proof. unfold enc_stack. rewrite bind_app. simpl. by rewrite app_nil_r. Qed.

Lemma extend_loop_spec es : ∀ fuel suf m, Forall (λ e, e ≠ []) es → (length es <= fuel)%nat →
  extend_loop fuel (enc_stack es ++ suf) m (Z.of_nat (length (enc_stack es)) - 1) =
    Some (foldr extend1_list m es).
Proof.
  induction es as [| e es IH] using rev_ind; intros fuel suf m Hne Hf.
  { destruct fuel; done. }
  apply Forall_app in Hne as [Hne He]. rewrite Forall_singleton in He. rewrite length_app in Hf. simpl in Hf.
  destruct e as [| x rest]; [done |]. destruct fuel as [| fuel]; [lia |].
  rewrite enc_stack_app, length_app, length_enc. cbn [length extend_loop]. set (P := enc_stack es) in *.
  destruct (Z.ltb_spec 0 (Z.of_nat (length P + S (S (length rest))) - 1)); [| lia].
  assert ((P ++ enc (x :: rest)) ++ suf = P ++ (lit_x <$> x :: rest) ++ (Z.of_nat (S (length rest)) :: suf)) as ->.
  { unfold enc. simpl. rewrite <- !(assoc_L (++)). simpl. by rewrite <- (assoc_L (++)). }
  assert (zget 0 (P ++ (lit_x <$> x :: rest) ++ Z.of_nat (S (length rest)) :: suf)
    (Z.of_nat (length P + S (S (length rest))) - 1) = Z.of_nat (S (length rest))) as ->.
  { rewrite (assoc_L (++)). replace (Z.of_nat (length P + S (S (length rest))) - 1)
      with (Z.of_nat (length (P ++ (lit_x <$> x :: rest)))) by (rewrite length_app, length_fmap; simpl; lia).
    apply zget_middle. }
  rewrite Nat2Z.id.
  destruct (extend_clause_spec P x rest (Z.of_nat (S (length rest)) :: suf) m) as (i & j & E & Hij).
  replace (Z.of_nat (length P + S (S (length rest))) - 1 - 1) with (Z.of_nat (length P + length rest)) by lia.
  rewrite E, Hij, (IH fuel _ _ Hne) by lia. by rewrite foldr_app.
Qed.

(** [extendModel] runs over the entries from the last one on. *)
Lemma extend_list_spec es m : Forall (λ e, e ≠ []) es →
  extend_list (enc_stack es) m = Some (foldr extend1_list m es).
Proof.
  intros Hne. unfold extend_list. rewrite <- (app_nil_r (enc_stack es)) at 2. apply extend_loop_spec; [done |].
  clear. induction es as [| e es IH]; [done |]. unfold enc_stack in *. rewrite bind_cons, length_app, length_enc. simpl. lia.
Qed.

(** ** Models that follow an assignment on some variables *)

Definition follows (m : list lbool) (σ : Z → bool) (D : Z → Prop) : Prop :=
  ∀ u, D u → 0 <= u < Z.of_nat (length m) ∧ zget inhabitant m u = lbool_of_bool (σ u).

Lemma follows_value m σ (D : Z → Prop) l : follows m σ D → D (var l) →
  lb_eqb (model_value m l) l_False = negb (lit_true σ l).
Proof.
  intros H Hl. destruct (H _ Hl) as [_ E]. unfold model_value, lit_true. rewrite E.
  by destruct (σ (var l)), (sign l).
Qed.

(** The variables with a value behind the entries. *)
Fixpoint stack_dom (es : list (list Lit)) (D : Z → Prop) : Z → Prop :=
  match es with
  | [] => D
  | e :: es => λ u, stack_dom es D u ∨ ∃ x, e = [x] ∧ u = var x
  end.

(** Every entry only needs variables that have a value by then. *)
Fixpoint stack_ok (n : Z) (D : Z → Prop) (es : list (list Lit)) : Prop :=
  match es with
  | [] => True
  | e :: es => stack_ok n D es ∧
      match e with
      | [] => False
      | x :: rest => 0 <= var x < n ∧ (∀ l, l ∈ rest → stack_dom es D (var l)) ∧
                     (rest ≠ [] → stack_dom es D (var x))
      end
  end.

Lemma stack_ok_ne n D es : stack_ok n D es → Forall (λ e, e ≠ []) es.
Proof.
  induction es as [| e es IH]; simpl; [intros _; apply Forall_nil_2 |].
  intros [H He]. apply Forall_cons. split; [by destruct e | by apply IH].
Qed.

Lemma extend_follows n es : ∀ D m σ, stack_ok n D es → Z.of_nat (length m) = n → follows m σ D →
  follows (foldr extend1_list m es) (extend_stack es σ) (stack_dom es D) ∧
  length (foldr extend1_list m es) = length m.
Proof.
  induction es as [| e es IH]; intros D m σ Hok Hn H; simpl in *; [done |].
  destruct Hok as [Hok He]. destruct (IH D m σ Hok Hn H) as [H1 H2].
  set (m1 := foldr extend1_list m es) in *. set (σ1 := extend_stack es σ) in *.
  destruct e as [| x rest]; [done |]. destruct He as (Hx & Hr & Hd). simpl.
  assert (forallb (λ l, lb_eqb (model_value m1 l) l_False) rest = forallb (λ l, negb (lit_true σ1 l)) rest) as ->.
  { clear Hd. induction rest as [| l rest IHr]; [done |]. simpl.
    rewrite (follows_value m1 σ1 (stack_dom es D)) by (done || apply Hr; by left).
    f_equal. apply IHr. intros k Hk. apply Hr. by right. }
  destruct (forallb _ rest) eqn:Ef.
  - rewrite length_zset. split; [| done]. intros u Hu. rewrite length_zset.
    rewrite zget_zset by lia. unfold fn_set. destruct (decide (var x = u)) as [<- | Hne].
    + rewrite decide_True by done. split; [lia | done].
    + rewrite decide_False by congruence. destruct Hu as [Hu | (y & [= <- _] & ->)]; [by apply H1 | done].
  - split; [| done]. intros u [Hu | (y & [= <- ->] & ->)]; [by apply H1 | done].
Qed.

(** ** What [store_clauses] saves *)

Lemma swap_first (ls : list Lit) k x : ls !! k = Some x →
  ∃ rest, <[0%nat := x]> (<[k := ls !!! 0%nat]> ls) = x :: rest ∧ x :: rest ≡ₚ ls.
Proof.
  intros Hk. destruct ls as [| y ls]; [done |]. destruct k as [| k].
  - injection Hk as <-. by exists ls.
  - simpl in *. eexists. split; [done |]. rewrite <- (take_drop_middle _ _ _ Hk) at 2.
    assert (k < length ls)%nat as Hlt by by apply lookup_lt_Some in Hk.
    rewrite insert_take_drop by done. solve_Permutation.
Qed.

Lemma var_pos_spec v ls : ∀ i pos k, var_pos ls v i pos = Some k →
  (∃ l, ls !! (k - i)%nat = Some l ∧ var l = v ∧ (i <= k)%nat) ∨ pos = Some k.
Proof.
  induction ls as [| l ls IH]; intros i pos k; simpl; [by right |].
  intros [(x & Hx & Ex & Hi) | H]%IH.
  - left. exists x. replace (k - i)%nat with (S (k - S i)) by lia. split; [done |]. split; [done | lia].
  - destruct (Z.eqb_spec (var l) v) as [Ev |]; [| by right]. injection H as <-. left.
    exists l. by rewrite Nat.sub_diag.
Qed.

Lemma var_pos_exists v ls : ∀ i pos, (∃ l, l ∈ ls ∧ var l = v) ∨ is_Some pos → is_Some (var_pos ls v i pos).
Proof.
  induction ls as [| l ls IH]; intros i pos; simpl.
  - intros [(l & Hl & _) | H]; [by apply elem_of_nil in Hl | done].
  - intros [(x & [-> | Hx]%elem_of_cons & Ev) | H]; apply IH.
    + right. rewrite (proj2 (Z.eqb_eq _ _) Ev). eauto.
    + left. eauto.
    + right. destruct (_ =? _); eauto.
Qed.

Lemma mkElimClause_spec es v c : (∃ l, l ∈ c ∧ var l = v) →
  ∃ x rest, mkElimClause es v c = Some (es ++ enc (x :: rest)) ∧ var x = v ∧ x :: rest ≡ₚ c.
Proof.
  intros H. destruct (var_pos_exists v c 0 None (or_introl H)) as [k Hk].
  destruct (var_pos_spec _ _ _ _ _ Hk) as [(x & Hx & Ex & _) | ?]; [| done]. rewrite Nat.sub_0_r in Hx.
  destruct (swap_first c k x Hx) as (rest & E & Hp). exists x, rest. split; [| done].
  unfold mkElimClause. rewrite Hk. cbn [mbind option_bind]. rewrite (list_lookup_total_correct _ _ _ Hx), E.
  unfold enc. by rewrite (Permutation_length Hp).
Qed.

(** The entry of a clause, with its literal [y] in front. *)
Definition entry_of (y : Lit) (c g : list Lit) : Prop := ∃ rest, g = y :: rest ∧ g ≡ₚ c.

Lemma mkElimClauses_spec y cs : ∀ es, (∀ c, c ∈ cs → var_once c ∧ y ∈ c) →
  ∃ gs, mkElimClauses es (var y) cs = Some (es ++ enc_stack gs) ∧ Forall2 (entry_of y) cs gs.
Proof.
  induction cs as [| c cs IH]; intros es Hc; simpl.
  { exists []. by rewrite app_nil_r. }
  destruct (Hc c ltac:(by left)) as [Ho Hy].
  destruct (mkElimClause_spec es (var y) c) as (x & rest & -> & Ex & Hp); [by exists y |]. cbn [mbind option_bind].
  assert (x = y) as ->.
  { apply (var_once_eq c); [done | rewrite <- Hp; by left | done | done]. }
  destruct (IH (es ++ enc (y :: rest))) as (gs & -> & HF); [intros d Hd; apply Hc; by right |].
  exists ((y :: rest) :: gs). unfold enc_stack. rewrite bind_cons, <- (assoc_L (++)). split; [done |].
  constructor; [by exists rest | done].
Qed.

(** The stored side, with its pivot [y], and the other one. *)
Definition stored_side (v : Var) (pos neg : list (list Lit)) : Lit * list (list Lit) * list (list Lit) :=
  if Nat.ltb (length neg) (length pos) then (lit_neg (mkLit v false), neg, pos) else (mkLit v false, pos, neg).

Lemma store_clauses_spec es v pos neg :
  (∀ c, c ∈ pos → var_once c ∧ mkLit v false ∈ c) → (∀ c, c ∈ neg → var_once c ∧ lit_neg (mkLit v false) ∈ c) →
  let '(y, cs, _) := stored_side v pos neg in
  ∃ gs, store_clauses es v pos neg = Some (es ++ enc_stack (gs ++ [[lit_neg y]])) ∧ Forall2 (entry_of y) cs gs.
Proof.
  intros Hp Hn. unfold stored_side, store_clauses. destruct (Nat.ltb _ _).
  - destruct (mkElimClauses_spec (lit_neg (mkLit v false)) neg es Hn) as (gs & E & HF).
    rewrite var_neg, var_mkLit in E. rewrite E. exists gs. cbn [mbind option_bind].
    rewrite lit_neg_involutive. split; [| done]. unfold mkElimUnit. rewrite enc_stack_app. unfold enc. simpl.
    by rewrite <- (assoc_L (++)).
  - destruct (mkElimClauses_spec (mkLit v false) pos es Hp) as (gs & E & HF).
    rewrite var_mkLit in E. rewrite E. exists gs. cbn [mbind option_bind]. split; [| done].
    unfold mkElimUnit. rewrite enc_stack_app. unfold enc. simpl. by rewrite <- (assoc_L (++)).
Qed.

(** ** The resolvents say all there is to say about the other variables *)

Lemma fn_set_ne σ v b u : u ≠ v → fn_set σ v b u = σ u.
Proof. intros. unfold fn_set. by rewrite decide_False. Qed.

Lemma lit_true_ext σ τ l : σ (var l) = τ (var l) → lit_true σ l = lit_true τ l.
Proof. intros E. unfold lit_true. by rewrite E. Qed.

Lemma fn_set_lit σ l : lit_true (fn_set σ (var l) (negb (sign l))) l = true.
Proof. unfold lit_true, fn_set. rewrite decide_True by done. by destruct (sign l). Qed.

(** Entries with the literal [y] in front change at most the value of [y], and
    make it true only when they have to. *)
Lemma extend_entries y gs σ : Forall (λ g, var_once g ∧ ∃ rest, g = y :: rest) gs → lit_true σ y = false →
  let τ := extend_stack gs σ in
  (∀ u, u ≠ var y → τ u = σ u) ∧ (∀ g, g ∈ gs → clause_true τ g) ∧
  (lit_true τ y = true → ∃ rest, (y :: rest) ∈ gs ∧ ∀ l, l ∈ rest → lit_true σ l = false).
Proof.
  intros Hg Hy. induction gs as [| g gs IH]; simpl.
  { split; [done |]. split; [intros g Hin; by apply elem_of_nil in Hin |]. rewrite Hy. done. }
  apply Forall_cons in Hg as [[Ho (rest & ->)] Hg]. destruct (IH Hg) as (H1 & H2 & H3). clear IH.
  set (τ := extend_stack gs σ) in *.
  assert (∀ l, l ∈ rest → var l ≠ var y) as Hrest.
  { intros l Hl E. unfold var_once in Ho. simpl in Ho. apply NoDup_cons in Ho as [Hn _]. apply Hn.
    rewrite <- E. by apply list_elem_of_fmap_2. }
  simpl. destruct (forallb (λ l, negb (lit_true τ l)) rest) eqn:Ef.
  - rewrite forallb_forall in Ef. split; [| split].
    + intros u Hu. rewrite fn_set_ne by done. by apply H1.
    + intros g [-> | Hin]%elem_of_cons; [exists y; split; [by left | apply fn_set_lit] |].
      assert (∃ rest, g = y :: rest) as (r & ->).
      { rewrite Forall_forall in Hg. by destruct (Hg g Hin) as [_ ?]. }
      exists y. split; [by left | apply fn_set_lit].
    + intros _. exists rest. split; [by left |]. intros l Hl. specialize (Ef l (proj1 (list_elem_of_In _ _) Hl)).
      apply negb_true_iff in Ef. rewrite <- Ef. apply lit_true_ext. symmetry. by apply H1, Hrest.
  - split; [done |]. split.
    + intros g [-> | Hin]%elem_of_cons; [| by apply H2].
      apply not_true_iff_false in Ef. destruct (existsb (lit_true τ) rest) eqn:Ex.
      * apply existsb_exists in Ex as (l & Hl & Ht). exists l. split; [right; by apply list_elem_of_In | done].
      * destruct Ef. apply forallb_forall. intros l Hl. apply negb_true_iff, not_true_iff_false. intros Ht.
        apply not_true_iff_false in Ex. apply Ex. apply existsb_exists. by exists l.
    + intros Ht. destruct (H3 Ht) as (r & Hr & Hall). exists r. split; [by right | done].
Qed.

Section Resolution.
Context (v : Var) (pos neg : list (list Lit)).
Hypothesis Hpos : ∀ c, c ∈ pos → var_once c ∧ mkLit v false ∈ c.
Hypothesis Hneg : ∀ c, c ∈ neg → var_once c ∧ lit_neg (mkLit v false) ∈ c.

(** The assignment satisfies every resolvent. *)
Definition resolved (σ : Z → bool) : Prop :=
  ∀ p q r, p ∈ pos → q ∈ neg → merge p q v = Some r → clause_true σ r.

Lemma merge_pair p q : p ∈ pos → q ∈ neg → match merge p q v with
  | Some r => var_once r ∧ (∀ l, l ∈ r ↔ (l ∈ p ∨ l ∈ q) ∧ var l ≠ v) ∧ merge_size p q v = Some (Z.of_nat (length r))
  | None => merge_size p q v = None ∧ ∃ l, var l ≠ v ∧ l ∈ p ∧ lit_neg l ∈ q
  end.
Proof using Hpos Hneg.
  intros Hp Hq. destruct (Hpos p Hp) as [Op Ip]. destruct (Hneg q Hq) as [Oq Iq].
  apply (merge_spec p q v (mkLit v false) (lit_neg (mkLit v false))); try done; by rewrite ?var_neg, var_mkLit.
Qed.

Lemma pivot_only c l : (c ∈ pos ∨ c ∈ neg) → l ∈ c → var l = v →
  (c ∈ pos ∧ l = mkLit v false) ∨ (c ∈ neg ∧ l = lit_neg (mkLit v false)).
Proof using Hpos Hneg.
  intros [Hc | Hc] Hl Ev; [left | right]; (split; [done |]).
  - destruct (Hpos c Hc) as [Ho Hi]. apply (var_once_eq c); try done. by rewrite var_mkLit.
  - destruct (Hneg c Hc) as [Ho Hi]. apply (var_once_eq c); try done. by rewrite var_neg, var_mkLit.
Qed.

(** Models satisfy the resolvents. *)
Lemma resolution_sound σ : (∀ c, c ∈ pos ∨ c ∈ neg → clause_true σ c) → resolved σ.
Proof using Hpos Hneg.
  intros H p q r Hp Hq Er. pose proof (merge_pair p q Hp Hq) as Hm. rewrite Er in Hm. destruct Hm as (_ & Hr & _).
  destruct (H p (or_introl Hp)) as (l & Hl & Ht). destruct (H q (or_intror Hq)) as (k & Hk & Hu).
  destruct (decide (var l = v)) as [El |]; [| exists l; split; [apply Hr; tauto | done]].
  destruct (decide (var k = v)) as [Ek |]; [| exists k; split; [apply Hr; tauto | done]].
  destruct (Hpos p Hp) as [Op Ip]. destruct (Hneg q Hq) as [Oq Iq].
  assert (l = mkLit v false) as -> by (apply (var_once_eq p); try done; by rewrite var_mkLit).
  assert (k = lit_neg (mkLit v false)) as -> by (apply (var_once_eq q); try done; by rewrite var_neg, var_mkLit).
  by rewrite lit_true_neg, Ht in Hu.
Qed.

(** A pair of clauses, one of which has all other literals false. *)
Lemma resolve_other σ y c d : resolved σ →
  ((y = mkLit v false ∧ c ∈ pos ∧ d ∈ neg) ∨ (y = lit_neg (mkLit v false) ∧ c ∈ neg ∧ d ∈ pos)) →
  (∀ l, l ∈ c → l ≠ y → lit_true σ l = false) → ∃ l, l ∈ d ∧ var l ≠ v ∧ lit_true σ l = true.
Proof using Hpos Hneg.
  intros Hr Hcd Hf.
  assert (∀ l, l ∈ c → var l ≠ v → lit_true σ l = false) as Hf'.
  { intros l Hl Hv. apply Hf; [done |]. intros ->. apply Hv. destruct Hcd as [[-> _] | [-> _]]; by rewrite ?var_neg, var_mkLit. }
  destruct Hcd as [(-> & Hc & Hd) | (-> & Hc & Hd)].
  - pose proof (merge_pair c d Hc Hd) as Hm. destruct (merge c d v) as [r |] eqn:Er.
    + destruct Hm as (_ & Hm & _). destruct (Hr c d r Hc Hd Er) as (l & Hl & Ht). apply Hm in Hl as [[Hl | Hl] Hv].
      * by rewrite Hf' in Ht.
      * by exists l.
    + destruct Hm as (_ & l & Hv & Hl & Hn). exists (lit_neg l). rewrite var_neg, lit_true_neg, Hf' by done. done.
  - pose proof (merge_pair d c Hd Hc) as Hm. destruct (merge d c v) as [r |] eqn:Er.
    + destruct Hm as (_ & Hm & _). destruct (Hr d c r Hd Hc Er) as (l & Hl & Ht). apply Hm in Hl as [[Hl | Hl] Hv].
      * by exists l.
      * by rewrite Hf' in Ht.
    + destruct Hm as (_ & l & Hv & Hl & Hn). exists l. split; [done |]. split; [done |].
      rewrite <- (lit_neg_involutive l), lit_true_neg, Hf' by (by rewrite ?var_neg). done.
Qed.

(** A model of the resolvents extends to the eliminated clauses. *)
Lemma resolution_complete y cs ds gs σ : stored_side v pos neg = (y, cs, ds) → Forall2 (entry_of y) cs gs →
  resolved σ → let τ := extend_stack (gs ++ [[lit_neg y]]) σ in
  (∀ u, u ≠ v → τ u = σ u) ∧ ∀ c, c ∈ pos ∨ c ∈ neg → clause_true τ c.
Proof using Hpos Hneg.
  intros Hside HF Hr.
  assert ((y = mkLit v false ∧ cs = pos ∧ ds = neg) ∨ (y = lit_neg (mkLit v false) ∧ cs = neg ∧ ds = pos)) as Hyc.
  { unfold stored_side in Hside. destruct (Nat.ltb _ _); injection Hside as <- <- <-; auto. }
  assert (var y = v) as Ey by (destruct Hyc as [[-> _] | [-> _]]; by rewrite ?var_neg, var_mkLit).
  assert (∀ c, c ∈ cs → var_once c ∧ y ∈ c) as Hcs by (destruct Hyc as [(-> & -> & _) | (-> & -> & _)]; done).
  assert (∀ d, d ∈ ds → lit_neg y ∈ d) as Hds.
  { destruct Hyc as [(-> & _ & ->) | (-> & _ & ->)]; rewrite ?lit_neg_involutive; intros d Hd;
      [by apply Hneg | by apply Hpos]. }
  unfold extend_stack. rewrite foldr_app. cbn [foldr]. set (σ0 := extend1 [lit_neg y] σ).
  assert (∀ u, u ≠ v → σ0 u = σ u) as H0 by (intros u Hu; unfold σ0; simpl; by rewrite fn_set_ne by by rewrite var_neg, Ey).
  assert (lit_true σ0 y = false) as Hy0.
  { assert (lit_true σ0 (lit_neg y) = true) as H by apply fn_set_lit.
    rewrite lit_true_neg in H. by apply negb_true_iff. }
  destruct (extend_entries y gs σ0) as (H1 & H2 & H3); [| done |].
  { apply Forall_forall. intros g Hg. apply list_elem_of_lookup_1 in Hg as [i Hi].
    destruct (Forall2_lookup_r _ _ _ _ _ HF Hi) as (c & Hc & rest & -> & Hp). split; [| eauto].
    unfold var_once. rewrite Hp. apply Hcs. by eapply list_elem_of_lookup_2. }
  change (foldr extend1 σ0 gs) with (extend_stack gs σ0). set (τ := extend_stack gs σ0) in *.
  assert (∀ u, u ≠ v → τ u = σ u) as Hout by (intros u Hu; rewrite H1, H0 by congruence; done).
  split; [done |]. intros c Hc.
  assert (c ∈ cs ∨ c ∈ ds) as [Hin | Hin] by (destruct Hyc as [(_ & -> & ->) | (_ & -> & ->)]; tauto).
  - apply list_elem_of_lookup_1 in Hin as [i Hi]. destruct (Forall2_lookup_l _ _ _ _ _ HF Hi) as (g & Hg & rest & -> & Hp).
    destruct (H2 (y :: rest)) as (l & Hl & Ht); [by eapply list_elem_of_lookup_2 |]. exists l. by rewrite <- Hp.
  - destruct (lit_true τ y) eqn:Et.
    + destruct (H3 eq_refl) as (rest & Hg & Hf). apply list_elem_of_lookup_1 in Hg as [i Hi].
      destruct (Forall2_lookup_r _ _ _ _ _ HF Hi) as (c' & Hc' & rest' & [= <-] & Hp).
      apply list_elem_of_lookup_2 in Hc'. destruct (Hcs c' Hc') as [Ho _].
      destruct (resolve_other σ y c' c Hr) as (l & Hl & Hv & Ht).
      * destruct Hyc as [(-> & -> & ->) | (-> & -> & ->)]; tauto.
      * intros l Hl Hne. rewrite <- Hp in Hl. apply elem_of_cons in Hl as [-> | Hl]; [done |].
        rewrite <- (Hf l Hl). apply lit_true_ext. symmetry. apply H0. intros Ev.
        apply Hne. apply (var_once_eq c'); [done | rewrite <- Hp; by right | rewrite <- Hp; by left | congruence].
      * exists l. split; [done |]. rewrite <- Ht. apply lit_true_ext. by apply Hout.
    + exists (lit_neg y). split; [by apply Hds |]. by rewrite lit_true_neg, Et.
Qed.
End Resolution.

(** ** Elimination of a sequence of variables *)

Definition resolvents (v : Var) (pos neg : list (list Lit)) : list (list Lit) :=
  omap (λ pq : list Lit * list Lit, merge pq.1 pq.2 v) (pairs pos neg).

Definition with_lit (l : Lit) (F : list (list Lit)) : list (list Lit) := filter (λ c, l ∈ c) F.

(** The clauses after the elimination of [v], and the store. *)
Definition dp_step (F : list (list Lit)) (es : list Z) (v : Var) : option (list (list Lit) * list Z) :=
  let pos := with_lit (mkLit v false) F in
  let neg := with_lit (lit_neg (mkLit v false)) F in
  es ← store_clauses es v pos neg;
  Some (filter (λ c, v ∉ var <$> c) F ++ resolvents v pos neg, es).

Fixpoint dp (F : list (list Lit)) (es : list Z) (vs : list Var) : option (list (list Lit) * list Z) :=
  match vs with
  | [] => Some (F, es)
  | v :: vs => '(F, es) ← dp_step F es v; dp F es vs
  end.

(** The variable occurs in the clauses. *)
Definition occ_in (F : list (list Lit)) (u : Var) : Prop := ∃ c, c ∈ F ∧ u ∈ var <$> c.

Lemma elem_of_pairs {A B} (xs : list A) (ys : list B) x y : (x, y) ∈ pairs xs ys ↔ x ∈ xs ∧ y ∈ ys.
Proof.
  unfold pairs. rewrite list_elem_of_bind. split.
  - intros (x' & (y' & [= -> ->] & Hy)%list_elem_of_fmap & Hx). done.
  - intros [Hx Hy]. exists x. split; [by apply list_elem_of_fmap_2 | done].
Qed.

Lemma elem_of_resolvents v pos neg r :
  r ∈ resolvents v pos neg ↔ ∃ p q, p ∈ pos ∧ q ∈ neg ∧ merge p q v = Some r.
Proof.
  unfold resolvents. rewrite list_elem_of_omap. split.
  - intros ([p q] & [Hp Hq]%elem_of_pairs & E). by exists p, q.
  - intros (p & q & Hp & Hq & E). exists (p, q). by rewrite elem_of_pairs.
Qed.

Lemma stack_dom_app es1 es2 D u : stack_dom (es1 ++ es2) D u ↔ stack_dom es1 (stack_dom es2 D) u.
Proof. induction es1 as [| e es1 IH]; simpl; [done |]. by rewrite IH. Qed.

Lemma stack_ok_app n D es1 es2 : stack_ok n (stack_dom es2 D) es1 → stack_ok n D es2 → stack_ok n D (es1 ++ es2).
Proof.
  intros H1 H2. induction es1 as [| e es1 IH]; simpl in *; [done |]. destruct H1 as [H1 He].
  split; [by apply IH |]. destruct e as [| x rest]; [done |]. destruct He as (? & Hr & Hd).
  split; [done |]. split; [intros l Hl; by apply stack_dom_app, Hr | intros Hn; by apply stack_dom_app, Hd].
Qed.

Lemma stack_dom_incl es D u : D u → stack_dom es D u.
Proof. induction es as [| e es IH]; simpl; auto. Qed.

(** The entries of one variable. *)
Lemma stack_ok_var n (D : Z → Prop) y cs gs : (∀ c, c ∈ cs → y ∈ c) → Forall2 (entry_of y) cs gs →
  0 <= var y < n → (∀ u, u ≠ var y → occ_in cs u → D u) → stack_ok n D (gs ++ [[lit_neg y]]).
Proof.
  intros Hc HF Hy HD. apply stack_ok_app.
  2:{ simpl. rewrite var_neg. split; [done |]. split; [done |]. split; [intros l Hl; by apply elem_of_nil in Hl | done]. }
  assert (∀ u, u = var y ∨ occ_in cs u → stack_dom [[lit_neg y]] D u) as Hall.
  { intros u Hu. simpl. destruct (decide (u = var y)) as [-> |]; [right; exists (lit_neg y); by rewrite var_neg |].
    left. destruct Hu; [done | by apply HD]. }
  revert Hall. generalize (stack_dom [[lit_neg y]] D) as D'. clear HD. intros D' Hall.
  induction HF as [| c g cs gs (rest & -> & Hp) HF IH]; simpl; [done |]. split.
  - apply IH; [intros d Hd; apply Hc; by right |]. intros u [-> | (d & Hd & Hu)]; apply Hall; [by left | right].
    exists d. split; [by right | done].
  - split; [done |]. split; [intros l Hl | intros _]; apply stack_dom_incl, Hall; [| by left].
    right. exists c. split; [by left |]. apply list_elem_of_fmap_2. rewrite <- Hp. by right.
Qed.

Lemma clause_pivot v (c : list Lit) : v ∈ var <$> c → mkLit v false ∈ c ∨ lit_neg (mkLit v false) ∈ c.
Proof.
  intros (l & -> & Hl)%list_elem_of_fmap.
  destruct (same_var l (mkLit (var l) false)) as [E | E]; [by rewrite var_mkLit | left; by rewrite <- E |].
  right. by rewrite <- E.
Qed.

Lemma pivots_ok F v : Forall var_once F →
  (∀ c, c ∈ with_lit (mkLit v false) F → var_once c ∧ mkLit v false ∈ c) ∧
  (∀ c, c ∈ with_lit (lit_neg (mkLit v false)) F → var_once c ∧ lit_neg (mkLit v false) ∈ c).
Proof.
  rewrite Forall_forall. intros HF. split; intros c [Hl Hc]%list_elem_of_filter; (split; [by apply HF | done]).
Qed.

(** A step keeps the models, produces well-formed clauses without [v], and
    stores what turns a model of the new clauses into one of the old. *)
Lemma dp_step_spec n F es v : Forall var_once F → 0 <= v < n →
  ∃ F' E, dp_step F es v = Some (F', es ++ enc_stack E) ∧ Forall var_once F' ∧
    (∀ u, occ_in F' u → occ_in F u ∧ u ≠ v) ∧
    (∀ σ, (∀ c, c ∈ F → clause_true σ c) → ∀ c, c ∈ F' → clause_true σ c) ∧
    (∀ D : Z → Prop, (∀ u, u ≠ v → occ_in F u → D u) → stack_ok n D E ∧ stack_dom E D v) ∧
    (∀ σ, (∀ c, c ∈ F' → clause_true σ c) →
      (∀ u, u ≠ v → extend_stack E σ u = σ u) ∧ ∀ c, c ∈ F → clause_true (extend_stack E σ) c).
Proof.
  intros HF Hv. destruct (pivots_ok F v HF) as [Hpos Hneg]. unfold dp_step.
  set (pos := with_lit (mkLit v false) F) in *. set (neg := with_lit (lit_neg (mkLit v false)) F) in *.
  rewrite Forall_forall in HF.
  pose proof (store_clauses_spec es v pos neg Hpos Hneg) as Hst.
  destruct (stored_side v pos neg) as [[y cs] ds] eqn:Eside. destruct Hst as (gs & -> & Hgs). cbn [mbind option_bind].
  assert (var y = v ∧ ∀ c, c ∈ cs → c ∈ F ∧ y ∈ c) as [Ey Hcs].
  { unfold stored_side in Eside. destruct (Nat.ltb _ _); injection Eside as <- <- <-; rewrite ?var_neg, var_mkLit;
      (split; [done |]); intros c Hc; apply list_elem_of_filter in Hc as [? ?]; auto. }
  assert (∀ r, r ∈ resolvents v pos neg → var_once r ∧ (∀ l, l ∈ r → var l ≠ v ∧ ∃ c, c ∈ F ∧ l ∈ c)) as Hres.
  { intros r (p & q & Hp & Hq & E)%elem_of_resolvents. pose proof (merge_pair v pos neg Hpos Hneg p q Hp Hq) as Hm.
    rewrite E in Hm. destruct Hm as (Ho & Hr & _).
    apply list_elem_of_filter in Hp as [_ Hp]. apply list_elem_of_filter in Hq as [_ Hq].
    split; [done |]. intros l [[Hl | Hl] Hn]%Hr; split; eauto. }
  assert (∀ c, c ∈ F → v ∈ var <$> c → c ∈ pos ∨ c ∈ neg) as Hsplit.
  { intros c Hc Hin. destruct (clause_pivot v c) as [? | ?]; [done | left | right]; by apply list_elem_of_filter. }
  exists (filter (λ c, v ∉ var <$> c) F ++ resolvents v pos neg), (gs ++ [[lit_neg y]]).
  split; [done |]. split; [| split; [| split; [| split]]].
  - apply Forall_forall. intros c [Hc | Hc]%elem_of_app; [| by apply Hres]. apply list_elem_of_filter in Hc as [_ Hc]. by apply HF.
  - intros u (c & [Hc | Hc]%elem_of_app & Hu).
    + apply list_elem_of_filter in Hc as [Hv' Hc]. split; [by exists c | intros ->; done].
    + apply list_elem_of_fmap in Hu as (l & -> & Hl). destruct (Hres c Hc) as [_ H].
      destruct (H l Hl) as (Hne & d & Hd & Hld). split; [exists d; split; [done | by apply list_elem_of_fmap_2] | done].
  - intros σ Hσ c [Hc | Hc]%elem_of_app; [apply list_elem_of_filter in Hc as [_ Hc]; by apply Hσ |].
    apply elem_of_resolvents in Hc as (p & q & Hp & Hq & E).
    apply (resolution_sound v pos neg Hpos Hneg σ) with p q; [| done | done | done].
    intros d [Hd | Hd]; apply list_elem_of_filter in Hd as [_ Hd]; by apply Hσ.
  - intros D HD. split.
    + apply (stack_ok_var n D y cs gs); [intros c Hc; by apply Hcs | done | congruence |].
      intros u Hu (c & Hc & Hin). apply HD; [congruence |]. exists c. split; [by apply Hcs | done].
    + apply stack_dom_app, stack_dom_incl. simpl. right. exists (lit_neg y). by rewrite var_neg.
  - intros σ Hσ. destruct (resolution_complete v pos neg Hpos Hneg y cs ds gs σ Eside Hgs) as [H1 H2].
    { intros p q r Hp Hq E. apply Hσ, elem_of_app. right. apply elem_of_resolvents. by exists p, q. }
    split; [done |]. intros c Hc. destruct (decide (v ∈ var <$> c)) as [Hin | Hn]; [by apply H2, Hsplit |].
    destruct (Hσ c) as (l & Hl & Ht); [apply elem_of_app; left; by apply list_elem_of_filter |].
    exists l. split; [done |]. rewrite <- Ht. apply lit_true_ext, H1. intros El. apply Hn. rewrite <- El.
    by apply list_elem_of_fmap_2.
Qed.

Lemma dp_spec n vs : ∀ F es, Forall var_once F → Forall (λ v, 0 <= v < n) vs →
  ∃ F' E, dp F es vs = Some (F', es ++ enc_stack E) ∧
    (∀ u, occ_in F' u → occ_in F u ∧ u ∉ vs) ∧
    (∀ σ, (∀ c, c ∈ F → clause_true σ c) → ∀ c, c ∈ F' → clause_true σ c) ∧
    (∀ D : Z → Prop, (∀ u, u ∉ vs → occ_in F u → D u) → stack_ok n D E ∧ ∀ u, u ∈ vs → stack_dom E D u) ∧
    (∀ σ, (∀ c, c ∈ F' → clause_true σ c) →
      (∀ u, u ∉ vs → extend_stack E σ u = σ u) ∧ ∀ c, c ∈ F → clause_true (extend_stack E σ) c).
Proof.
  induction vs as [| v vs IH]; intros F es HF Hvs; simpl.
  { exists F, []. rewrite app_nil_r. split; [done |].
    split; [intros u Hu; split; [done | intros H; by apply elem_of_nil in H] |].
    split; [done |]. split; [| done]. intros D HD. split; [done | intros u Hu; by apply elem_of_nil in Hu]. }
  apply Forall_cons in Hvs as [Hv Hvs].
  destruct (dp_step_spec n F es v HF Hv) as (F1 & E1 & -> & HF1 & Ho1 & Hs1 & Hd1 & Hr1). cbn [mbind option_bind].
  destruct (IH F1 (es ++ enc_stack E1) HF1 Hvs) as (F' & E2 & -> & Ho2 & Hs2 & Hd2 & Hr2).
  exists F', (E1 ++ E2). split; [unfold enc_stack; by rewrite bind_app, <- (assoc_L (++)) |].
  split; [| split; [| split]].
  - intros u [[Hu Hne]%Ho1 Hn]%Ho2. split; [done |]. by apply not_elem_of_cons.
  - intros σ Hσ. by apply Hs2, Hs1.
  - intros D HD. destruct (Hd2 D) as [Hok2 Hdom2].
    { intros u Hn [Hu Hne]%Ho1. apply HD; [by apply not_elem_of_cons | done]. }
    destruct (Hd1 (stack_dom E2 D)) as [Hok1 Hdom1].
    { intros u Hne Hu. destruct (decide (u ∈ vs)) as [Hin | Hn]; [by apply Hdom2 |].
      apply stack_dom_incl, HD; [by apply not_elem_of_cons | done]. }
    split; [by apply stack_ok_app |]. intros u [-> | Hu]%elem_of_cons; apply stack_dom_app; [done |].
    by apply stack_dom_incl, Hdom2.
  - intros σ Hσ. destruct (Hr2 σ Hσ) as [H1 H2]. destruct (Hr1 _ H2) as [H3 H4].
    unfold extend_stack in *. rewrite foldr_app. split; [| done].
    intros u [Hn1 Hn2]%not_elem_of_cons. rewrite H3, H1 by done. done.
Qed.

(** C4. Eliminating any sequence of variables from clauses without repeated
    variables: the stored entries are always built, the clauses left say
    nothing about the eliminated variables and follow from the original ones,
    and [extendModel], run over the entries on values that satisfy the clauses
    left, ends, keeps every value of the other variables, and makes each
    original clause true. *)
Theorem elimination_recovers n F vs : Forall var_once F → Forall (λ v, 0 <= v < n) vs →
  ∃ F' es, dp F [] vs = Some (F', es) ∧
    (∀ u, occ_in F' u → occ_in F u ∧ u ∉ vs) ∧
    (∀ σ, (∀ c, c ∈ F → clause_true σ c) → ∀ c, c ∈ F' → clause_true σ c) ∧
    (∀ m σ, Z.of_nat (length m) = n → (∀ c, c ∈ F' → clause_true σ c) →
      follows m σ (λ u, occ_in F u ∧ u ∉ vs) →
      ∃ m', extend_list es m = Some m' ∧ length m' = length m ∧
        (∀ u, u ∉ vs → occ_in F u → zget inhabitant m' u = zget inhabitant m u) ∧
        ∀ c, c ∈ F → ∃ l, l ∈ c ∧ model_value m' l = l_True).
Proof.
  intros HF Hvs. destruct (dp_spec n vs F [] HF Hvs) as (F' & E & Edp & Ho & Hs & Hd & Hr).
  exists F', (enc_stack E). split; [done |]. split; [done |]. split; [done |]. intros m σ Hm Hσ Hf.
  destruct (Hd (λ u, occ_in F u ∧ u ∉ vs)) as [Hok Hdom]; [done |]. destruct (Hr σ Hσ) as [Hsame Htrue].
  destruct (extend_follows n E _ m σ Hok Hm Hf) as [Hfol Hlen]. eexists.
  split; [by apply extend_list_spec, (stack_ok_ne n (λ u, occ_in F u ∧ u ∉ vs)) |]. split; [done |]. split.
  - intros u Hn Hu. destruct (Hf u) as [_ ->]; [done |]. destruct (Hfol u) as [_ ->]; [by apply stack_dom_incl |].
    by rewrite Hsame.
  - intros c Hc. destruct (Htrue c Hc) as (l & Hl & Ht). exists l. split; [done |].
    destruct (Hfol (var l)) as [_ Hv].
    { destruct (decide (var l ∈ vs)); [by apply Hdom |]. apply stack_dom_incl. split; [| done].
      exists c. split; [done | by apply list_elem_of_fmap_2]. }
    unfold model_value. rewrite Hv. unfold lit_true in Ht. by destruct (extend_stack E σ (var l)), (sign l).
Qed.

(** (x0 or x1) and (not x0 or x2). *)
Definition pair_cs : list (list Lit) :=
  [[mkLit 0 false; mkLit 1 false]; [mkLit 0 true; mkLit 2 false]].

Lemma elimination_recovers_witness : ∃ F' es, dp pair_cs [] [0] = Some (F', es) ∧
  ∀ m σ, Z.of_nat (length m) = 3 → (∀ c, c ∈ F' → clause_true σ c) →
    follows m σ (λ u, occ_in pair_cs u ∧ u ∉ [0]) →
    ∃ m', extend_list es m = Some m' ∧ ∀ c, c ∈ pair_cs → ∃ l, l ∈ c ∧ model_value m' l = l_True.
Proof.
  destruct (elimination_recovers 3 pair_cs [0]) as (F' & es & E & _ & _ & H).
  - repeat (apply Forall_cons; split); [| | apply Forall_nil_2];
      unfold var_once; apply (bool_decide_unpack _); vm_compute; exact I.
  - apply Forall_singleton. lia.
  - exists F', es. split; [exact E |]. intros m σ Hm Hσ Hf. destruct (H m σ Hm Hσ Hf) as (m' & E' & _ & _ & Ht).
    exists m'. exact (conj E' Ht).
Defined.

(** [merge] on two clauses with a variable in common: the resolvent has no
    variable twice and consists of the literals of both over other variables,
    and [merge] fails just when both contain some other literal with opposite
    signs; the version that only counts agrees with it and gives the size. *)
Theorem merge_correct p q v : var_once p → var_once q → v ∈ var <$> p → v ∈ var <$> q →
  match merge p q v with
  | Some r => var_once r ∧ (∀ l, l ∈ r ↔ (l ∈ p ∨ l ∈ q) ∧ var l ≠ v) ∧ merge_size p q v = Some (Z.of_nat (length r))
  | None => merge_size p q v = None ∧ ∃ l, var l ≠ v ∧ l ∈ p ∧ lit_neg l ∈ q
  end.
Proof.
  intros Hp Hq (a & Ea & Ha)%list_elem_of_fmap (b & Eb & Hb)%list_elem_of_fmap. by apply (merge_spec p q v a b).
Qed.

Lemma merge_correct_witness : ∃ r, merge [mkLit 0 false; mkLit 1 false] [mkLit 0 true; mkLit 2 false] 0 = Some r ∧
  var_once r ∧ merge_size [mkLit 0 false; mkLit 1 false] [mkLit 0 true; mkLit 2 false] 0 = Some (Z.of_nat (length r)).
Proof.
  assert (∀ c, c ∈ pair_cs → var_once c ∧ 0 ∈ var <$> c) as Hp.
  { intros c Hc. unfold var_once.
    repeat (apply elem_of_cons in Hc as [-> | Hc]; [split; apply (bool_decide_unpack _); vm_compute; exact I |]).
    by apply elem_of_nil in Hc. }
  destruct (Hp [mkLit 0 false; mkLit 1 false]) as [A1 A2]; [by left |].
  destruct (Hp [mkLit 0 true; mkLit 2 false]) as [B1 B2]; [by right; left |].
  pose proof (merge_correct [mkLit 0 false; mkLit 1 false] [mkLit 0 true; mkLit 2 false] 0 A1 B1 A2 B2) as H.
  exists [mkLit 2 false; mkLit 1 false]. split; [reflexivity |]. destruct H as (H1 & _ & H2). exact (conj H1 H2).
Defined.
