(* ===== verification/ConflictSpec.v ===== *)
(** * A round of [search] with a conflict

    Propagation keeps the invariant of the solver; a conflict above level 0 is
    analysed, the solver jumps back, and the learnt clause is attached, which
    keeps the invariant on a lower level. *)
From Stdlib Require Import SpecFloat.
From S2P Require Import Prelude Lit UnitProp Vec Heap Alloc Double DoubleSpec Clause Solver Propagate.
From S2P Require Import PropCheck Setup SetupSpec Reasons Analyze AnalyzeSpec FinalSpec RandomSpec Reduce BranchSpec.
From S2P Require Import RelocSpec GarbageSpec SearchInv LearnSpec ReduceSpec SimplifySpec SolverInv CDCL.

#[local] Opaque d_const d_add d_mul d_div d_ltb f_of_d d_of_Z.

(** ** What the rounds leave alone *)

Record Kept (st st' : Solver) : Prop := {
  kp_assumps : assumptions st' = assumptions st;
  kp_params : params st' = params st;
  kp_ok : ok st' = ok st;
  kp_conflict : conflict st' = conflict st;
  kp_budget : (conflict_budget st', propagation_budget st', asynch_interrupt st') =
              (conflict_budget st, propagation_budget st, asynch_interrupt st);
  kp_nv : nv (core st') = nv (core st) }.

#[export] Instance kept_preorder : PreOrder Kept.
Proof. split; [by intros st; split |]. intros s1 s2 s3 [] []. split; congruence. Qed.

Lemma simplified_kept st st' : simplified st st' → Kept st st'.
Proof.
  intros [A K C O Cf P (B1 & B2 & B3) _]. split; try congruence. unfold nv. by rewrite (cf_assigns _ _ K).
Qed.

(** The fields [adjust_learntsize] counts with. *)
Definition adjust_of (st : Solver) := (learntsize_adjust_confl st, learntsize_adjust_cnt st).

Lemma simplified_adjust st st' : simplified st st' → adjust_of st' = adjust_of st.
Proof. intros [_ _ _ _ _ _ _ [A1 A2]]. unfold adjust_of. congruence. Qed.

(** ** Propagation *)

Lemma levels_ext A s s' : ext s s' → levels_ok A s → levels_ok A s'.
Proof.
  intros X [L1 L2]. destruct (ext_trail _ _ X) as [news Et]. unfold decisionLevel in *.
  split; unfold decisionLevel; rewrite (ext_lims _ _ X); [done |]. rewrite Et, length_app. lia.
Qed.

(** [propagate] changes the core and two counters. *)
Definition prop_frame (st st' : Solver) : Prop :=
  st' = ((st <| core := core st' |>) <| stats := stats st' |>) <| simpDB_props := simpDB_props st' |> ∧
  conflicts (stats st') = conflicts (stats st).

Lemma propagate_eq st st' confl : propagate st = Some (st', confl) → prop_frame st st'.
Proof.
  unfold propagate. destruct (propagate_core (core st)) as [[[s c] n] |]; [| done].
  intros [= <- <-]. split; [| done]. by destruct st.
Qed.

Lemma prop_kept st st' : prop_frame st st' → ext (core st) (core st') → Kept st st'.
Proof.
  intros [E _] X. pose proof (ext_size _ _ X) as Es. rewrite E. split; try done.
  unfold nv. simpl. by rewrite Es.
Qed.

Lemma sinv_ext F q q' st st' : SInv F q st → prop_frame st st' → ext (core st) (core st') →
  Inv q' (core st') → SInv F q' st'.
Proof.
  intros H E X I'. pose proof (prop_kept _ _ E X) as K.
  pose proof (cinv_ext _ _ _ _ q q' _ _ (si_cinv _ _ _ H) X I') as C.
  destruct (ext_trail _ _ X) as [news Et]. destruct E as [E _]. rewrite E.
  destruct H as [_ A S0 S1 Cf O W N R P As L]. split; simpl; try done.
  - unfold seen_size in *. simpl. by rewrite (ext_size _ _ X).
  - by rewrite (kp_nv _ _ K).
  - intros v Hv Hn. apply W; [by rewrite <- (kp_nv _ _ K) |]. intros Hin. apply Hn.
    rewrite Et, fmap_app. apply elem_of_app. by left.
  - unfold nVars in *. simpl. by rewrite (kp_nv _ _ K).
  - by rewrite (kp_nv _ _ K).
  - by eapply levels_ext.
Qed.

(** A fixpoint, or a clause of which all literals are false. *)
Lemma sinv_propagate F st : SInv F (qhead (core st)) st → ∃ st' confl,
  propagate st = Some (st', confl) ∧ prop_frame st st' ∧ ext (core st) (core st') ∧
  qhead (core st') = length (trail (core st')) ∧
  ((confl = CRef_Undef ∧ SInv F (length (trail (core st'))) st') ∨
   (confl ≠ CRef_Undef ∧ falsified (core st') confl ∧ ∃ q, SInv F q st')).
Proof.
  intros H. destruct (propagate_spec st (si_inv _ _ _ H)) as (st' & confl & E & (X & Hq & Hr) & _).
  pose proof (propagate_eq _ _ _ E) as Fr. exists st', confl. split; [done |]. split; [done |].
  split; [done |]. split; [done |]. destruct Hr as [[-> I'] | (Hc & Hf & q' & _ & I')].
  - left. split; [done |]. rewrite Hq in I'. by eapply sinv_ext.
  - right. split; [done |]. split; [done |]. exists q'. by eapply sinv_ext.
Qed.

(** A falsified clause at level 0 refutes the formula. *)
Lemma conflict_unsat F q st confl σ : SInv F q st → falsified (core st) confl →
  trail_lim (core st) = [] → ¬ models σ F.
Proof.
  intros H (c & Hl & Hf) H0 Hσ. destruct (ci_sound _ _ _ _ _ _ (si_cinv _ _ _ H) σ Hσ) as [S1 S2].
  destruct (S1 (c_lits c)) as (l & Hin & Ht); [by exists confl, c |].
  assert (lit_true σ (lit_neg l) = true) as Hn by (apply S2, level0_all; auto).
  by rewrite lit_true_neg, Ht in Hn.
Qed.

(** ** The analysis *)

Definition count_frame (st st' : Solver) : Prop :=
  Kept st st' ∧ conflicts (stats st') = conflicts (stats st) ∧ adjust_of st' = adjust_of st.

#[export] Instance count_frame_preorder : PreOrder count_frame.
Proof.
  split; [by intros st; split |]. intros s1 s2 s3 (K1 & A1 & B1) (K2 & A2 & B2).
  split; [by etrans | split; congruence].
Qed.

Lemma aframe_count st st' : AFrame st st' → count_frame st st'.
Proof.
  intros [A Fx _ _ _]. destruct (act_fields _ _ A) as (Ea & _). unfold fixed_of in Fx.
  split; [| split; unfold adjust_of; congruence].
  split; try congruence. unfold nv. by rewrite Ea.
Qed.

Lemma sinv_analyze F q st st' : SInv F q st → AFrame st st' → (∀ x, seen_at st' x = 0) → SInv F q st'.
Proof.
  intros H Fr Hs. pose proof (aframe_count _ _ Fr) as ([K1 K2 K3 K4 K5 K6] & _).
  destruct Fr as [A Fx Or Ac Sz]. destruct (act_fields _ _ A) as (Ea & _ & Et & El & _).
  assert (ActInv st') as [Ac1 Ac2] by (apply Ac; split; [apply (si_act _ _ _ H) | apply (ci_acts _ _ _ _ _ _ (si_cinv _ _ _ H))]).
  unfold fixed_of in Fx. destruct H as [C N S0 S1 Cf O W Nx R P As L].
  destruct (ordok_like _ _ _ O Or) as [O' Ek].
  assert (clauses st' = clauses st ∧ learnts st' = learnts st ∧ next_var st' = next_var st ∧
    released_vars st' = released_vars st) as (E1 & E2 & E3 & E4) by (repeat split; congruence).
  split; rewrite ?K1, ?K2, ?K4, ?K6, ?E1, ?E2, ?E4; try done.
  - by apply (cinv_act _ _ _ _ _ (core st)).
  - unfold seen_size in *. congruence.
  - intros v Hv Hn. rewrite Ek. rewrite Et in Hn. apply W; [by rewrite <- K6 | done].
  - unfold nVars in *. congruence.
  - destruct L as [L1 L2]. split; unfold decisionLevel in *; by rewrite ?El, ?Et.
Qed.

(** ** Backtracking *)

Lemma cancel_count st lvl lim q : Inv q (core st) → trail_lim (core st) !! lvl = Some lim →
  count_frame st (cancelUntil st lvl).
Proof.
  intros I El. destruct (cancel_inv st lvl lim q I El) as (_ & _ & _ & _ & _ & Esz).
  unfold cancelUntil in *. destruct (Nat.ltb _ _); [| done].
  destruct (undo_loop _ _ _ _ _) as [a o]. split; [| done]. split; try done. unfold nv. by rewrite Esz.
Qed.

Lemma cancel_fields st lvl : let st' := cancelUntil st lvl in
  st' = (st <| core := core st' |>) <| order := order st' |>.
Proof.
  unfold cancelUntil. destruct (Nat.ltb _ _); [| by destruct st].
  destruct (undo_loop _ _ _ _ _) as [a o]. by destruct st.
Qed.

Lemma sinv_cancel F q st lvl lim : SInv F q st → trail_lim (core st) !! lvl = Some lim →
  SInv F lim (cancelUntil st lvl).
Proof.
  intros H El. pose proof (si_inv _ _ _ H) as I.
  destruct (cancel_count st lvl lim q I El) as ([_ _ _ _ _ Env] & _).
  pose proof (cinv_cancel _ _ _ _ q st lvl lim (si_cinv _ _ _ H) El) as C.
  destruct (cancel_order st lvl lim q I El (si_order _ _ _ H) (si_waiting _ _ _ H)) as [O W].
  destruct (cancel_inv st lvl lim q I El) as (_ & Et & Elim & _ & _ & Esz).
  rewrite cancel_fields. destruct H as [_ A S0 S1 Cf _ _ N R P As L]. split; simpl; try done.
  - unfold seen_size in *. simpl. by rewrite Esz.
  - unfold nVars in *. simpl. by rewrite Env.
  - by rewrite Env.
  - pose proof (lookup_lt_Some _ _ _ El) as Hlt. destruct L as [L1 L2].
    assert (lim <= length (trail (core st)))%nat as Hlim.
    { pose proof (inv_lims_q _ _ I lim ltac:(by eapply list_elem_of_lookup_2)). pose proof (inv_q _ _ I). lia. }
    split; unfold decisionLevel in *; simpl; rewrite Elim.
    + intros k m Hk. pose proof (lookup_lt_Some _ _ _ Hk) as Hkl. rewrite length_take in Hkl.
      rewrite lookup_take_lt in Hk by lia. by apply L1.
    + rewrite Et, !length_take. specialize (L1 lvl lim El). lia.
Qed.

(** ** The learnt clause after the jump *)

Record Asserting (F : formula) (s : Core) (ls : list Lit) : Prop := {
  as_nodup : NoDup ls;
  as_ok : Forall (lit_ok (nv s)) ls;
  as_entails : ∀ σ, models σ F → clause_true σ ls;
  as_unit : ∃ p rest, ls = p :: rest ∧ p ∉ trail s ∧ lit_neg p ∉ trail s ∧
    (∀ l, l ∈ rest → lit_neg l ∈ trail s) ∧
    match rest with
    | [] => trail_lim s = []
    | l2 :: _ => trail_lim s ≠ [] ∧
        ∀ i, trail s !! i = Some (lit_neg l2) → lvl_at (trail_lim s) i = decisionLevel s
    end }.

Lemma neg_inj (l k : Lit) : lit_neg l = lit_neg k → l = k.
Proof. intros E. by rewrite <- (lit_neg_involutive l), E, lit_neg_involutive. Qed.

(** Different false literals are not more than the trail has. *)
Lemma false_count (tr ls : list Lit) : NoDup ls → (∀ l, l ∈ ls → lit_neg l ∈ tr) → (length ls <= length tr)%nat.
Proof.
  intros Hn Hf. rewrite <- (length_fmap lit_neg). apply submseteq_length, NoDup_submseteq.
  - apply NoDup_fmap_2; [intros x y; apply neg_inj | done].
  - intros x (l & -> & Hl)%list_elem_of_fmap. auto.
Qed.

Lemma backjump_spec F q st st1 L ls bt : SInv F q st → last (trail_lim (core st)) = Some L →
  Learnt (core st) L st st1 ls bt →
  let st2 := cancelUntil st1 (Z.to_nat bt) in
  SInv F (length (trail (core st2))) st2 ∧ Asserting F (core st2) ls ∧ (length ls <= length (assigns (core st)))%nat ∧
  qhead (core st2) = length (trail (core st2)) ∧ (decisionLevel (core st2) < decisionLevel (core st))%nat ∧
  a_region (ca (core st2)) = a_region (ca (core st)) ∧ count_frame st st2.
Proof.
  intros H HL [Fr Hclr Hent Hnd (p & tail & k & -> & Hk & HLk & Htail) [Hbt Hbo]].
  pose proof (sinv_analyze F q st st1 H Fr Hclr) as H1.
  pose proof (si_inv _ _ _ H) as I. pose proof (si_trail _ _ _ H) as T.
  destruct (act_fields _ _ (af_core _ _ Fr)) as (Ea1 & _ & Et1 & El1 & _).
  destruct (lookup_lt_is_Some_2 (trail_lim (core st)) (Z.to_nat bt)) as [lim El]; [unfold decisionLevel in Hbt; lia |].
  assert (trail_lim (core st1) !! Z.to_nat bt = Some lim) as El' by by rewrite El1.
  pose proof (sinv_cancel F q st1 _ lim H1 El') as H2.
  destruct (cancel_inv st1 _ lim q (si_inv _ _ _ H1) El') as (_ & Et & Elim & Eq & Eca & Esz).
  rewrite Et1 in Et. rewrite El1 in Elim. rewrite Ea1 in Esz. intros st2. fold st2 in Et, Elim, Eq, Eca, Esz, H2.
  pose proof (inv_lims _ _ I) as Hs.
  assert (lim <= length (trail (core st)))%nat as Hlim.
  { pose proof (inv_lims_q _ _ I lim ltac:(by eapply list_elem_of_lookup_2)). pose proof (inv_q _ _ I). lia. }
  assert (length (trail (core st2)) = lim) as Elen by (rewrite Et, length_take; lia).
  assert (lim <= k)%nat as Hlk.
  { rewrite last_lookup in HL. pose proof (lookup_lt_Some _ _ _ El).
    pose proof (Hs (Z.to_nat bt) (pred (length (trail_lim (core st)))) lim L ltac:(lia) El HL). lia. }
  assert (∀ t, t ∈ trail (core st2) → t ∈ trail (core st)) as Hsub.
  { intros t Ht. rewrite Et in Ht. rewrite <- (take_drop lim (trail (core st))).
    apply elem_of_app. by left. }
  assert (∀ i t, trail (core st2) !! i = Some t → (i < lim)%nat ∧ trail (core st) !! i = Some t) as Hpos.
  { intros i t Hi. pose proof (lookup_lt_Some _ _ _ Hi). rewrite Elen in *. rewrite Et in Hi.
    by rewrite lookup_take_lt in Hi by lia. }
  assert (∀ i l, trail (core st) !! i = Some (lit_neg l) → level (core st) (var l) = Z.of_nat (lvl_at (trail_lim (core st)) i)) as Hlv.
  { intros i l Hi. rewrite <- var_neg. by apply (ri_level _ _ (si_rinv _ _ _ H)). }
  assert (nv (core st2) = nv (core st)) as Env by (unfold nv; by rewrite Esz).
  rewrite Elen. split; [done |]. split; [| split; [| split; [done |]]].
  - split; [done | | |].
    + rewrite Env. apply Forall_forall. intros l [-> | Hl]%elem_of_cons.
      * apply lit_ok_neg, (tr_range _ _ _ T). by eapply list_elem_of_lookup_2.
      * apply Htail in Hl as [Hl _]. rewrite <- (lit_neg_involutive l). by apply lit_ok_neg, (tr_range _ _ _ T).
    + intros σ Hσ. by apply Hent, (ci_sound _ _ _ _ _ _ (si_cinv _ _ _ H)).
    + exists (lit_neg p), tail. split; [done |]. split; [| split].
      * intros Hin%Hsub. apply (trail_consistent _ _ _ T (lit_neg p)); [done |].
        rewrite lit_neg_involutive. by eapply list_elem_of_lookup_2.
      * rewrite lit_neg_involutive. intros (i & Hi)%list_elem_of_lookup_1. apply Hpos in Hi as [Hi Hp].
        destruct (trail_pos _ _ _ T i k p p Hp Hk) as [-> _]; [done | lia].
      * split.
        -- intros l Hl. destruct (Htail l Hl) as [(i & Hi)%list_elem_of_lookup_1 Hle].
           rewrite (Hlv i l Hi) in Hle. rewrite Et.
           apply (list_elem_of_lookup_2 _ i). rewrite lookup_take_lt; [done |]. apply (lvl_at_below _ Hs _ _ _ El). lia.
        -- destruct tail as [| l2 rest].
           ++ simpl in Hbo. rewrite Elim, Hbo. done.
           ++ simpl in Hbo. pose proof (Htail l2 ltac:(by left)) as [_ Hle].
              assert (length (trail_lim (core st2)) = Z.to_nat bt) as Edl.
              { rewrite Elim, length_take. unfold decisionLevel in Hbt. lia. }
              split; [intros E; rewrite E in Edl; simpl in Edl; lia |].
              intros i Hi. apply Hpos in Hi as [Hi Hp]. unfold decisionLevel. rewrite Edl.
              rewrite Elim, (lvl_at_take _ Hs _ _ _ El Hi). pose proof (Hlv i l2 Hp). lia.
  - cbn [length]. apply NoDup_cons in Hnd as [Hn Hnd].
    pose proof (false_count (filter (λ t, t ≠ p) (trail (core st))) tail Hnd) as Hc.
    assert (length tail <= length (filter (λ t, t ≠ p) (trail (core st))))%nat as Hc'.
    { apply Hc. intros l Hl. apply list_elem_of_filter. split; [| by apply Htail].
      intros E. apply Hn. by rewrite <- E, lit_neg_involutive. }
    assert (length (filter (λ t, t ≠ p) (trail (core st))) < length (trail (core st)))%nat as Hlt.
    { rewrite <- (take_drop_middle _ _ _ Hk) at 2. rewrite <- (take_drop_middle _ _ _ Hk) at 1.
      rewrite filter_app, filter_cons_False by (intros []; done). rewrite !length_app. cbn [length].
      pose proof (length_filter (λ t, t ≠ p) (take k (trail (core st)))).
      pose proof (length_filter (λ t, t ≠ p) (drop (S k) (trail (core st)))). lia. }
    pose proof (trail_length _ _ _ T). lia.
  - split; [| split].
    + unfold decisionLevel in *. rewrite Elim, length_take. lia.
    + rewrite Eca. apply (ao_region _ _ (af_core _ _ Fr)).
    + etrans; [by apply aframe_count |]. eapply cancel_count; [apply (si_inv _ _ _ H1) | done].
Qed.

(** ** Learning *)

(** What learning does to the trail and the arena. *)
Record learned (s s' : Core) (ls : list Lit) : Prop := {
  ld_trail : ∃ p, trail s' = trail s ++ [p];
  ld_lims : trail_lim s' = trail_lim s;
  ld_qhead : qhead s' = qhead s;
  ld_room : r_sz (a_region (ca s')) <= r_sz (a_region (ca s)) + Z.of_nat (length ls) + 2 }.

Lemma learned_waiting s s' o ls : learned s s' ls → nv s' = nv s → waiting s o → waiting s' o.
Proof.
  intros [[p Et] _ _ _] En W v Hv Hn. apply W; [by rewrite <- En |]. intros Hin. apply Hn.
  rewrite Et, fmap_app. apply elem_of_app. by left.
Qed.

Lemma learned_levels A s s' ls : learned s s' ls → levels_ok A s → levels_ok A s'.
Proof.
  intros [[p Et] El _ _] [L1 L2]. unfold decisionLevel in *.
  split; unfold decisionLevel; rewrite El; [done |]. rewrite Et, length_app. lia.
Qed.

(** A unit clause. *)
Lemma learn_unit F st p : SInv F (length (trail (core st))) st → Asserting F (core st) [p] →
  let st' := st <| core := uncheckedEnqueue (core st) p CRef_Undef |> in
  SInv F (length (trail (core st))) st' ∧ learned (core st) (core st') [p] ∧ count_frame st st'.
Proof.
  intros H [_ Hok Hent (p' & rest & [= <- <-] & Hp & Hn & _ & H0)] st'.
  rewrite Forall_singleton in Hok.
  assert (learned (core st) (core st') [p]) as Ld by (split; [by exists p | done | done | simpl; lia]).
  assert (nv (core st') = nv (core st)) as En by (unfold nv, st'; simpl; by rewrite length_zset).
  assert (CInv F (assumptions st) (length (trail (core st))) (clauses st) (learnts st) (core st')) as C'.
  { apply cinv_enqueue; try done.
    - apply (si_cinv _ _ _ H).
    - unfold decisionLevel. by rewrite H0.
    - intros _ σ Hσ. destruct (Hent σ Hσ) as (l & ->%list_elem_of_singleton & Ht). done. }
  split; [| split; [done |]].
  - destruct H as [_ A S0 S1 Cf O W N R P As L]. split; rewrite ?En; try done.
    + unfold seen_size, st' in *. simpl. by rewrite length_zset.
    + by eapply (learned_waiting (core st)).
    + by eapply (learned_levels _ (core st)).
  - split; [| done]. by split.
Qed.

(** A clause of at least two literals. *)
Lemma learn_clause F st p l2 rest : SInv F (length (trail (core st))) st → Asserting F (core st) (p :: l2 :: rest) →
  r_sz (a_region (ca (core st))) + Z.of_nat (length (p :: l2 :: rest)) + 2 <= max_capacity →
  ∃ st', learn st (p :: l2 :: rest) = Some st' ∧ SInv F (length (trail (core st))) st' ∧
    learned (core st) (core st') (p :: l2 :: rest) ∧ count_frame st st'.
Proof.
  intros H [Hnd Hok Hent (p' & rest' & [= <- <-] & Hp & Hn & Hrest & Hd0 & Hl2)] Hroom.
  pose proof (si_cinv _ _ _ H) as C. unfold learn.
  destruct (ca_alloc_spec (ca (core st)) (p :: l2 :: rest) true (db_arena _ _ (ci_db _ _ _ _ _ _ C)) Hroom)
    as (a & Ea & Ha & Em & Hfresh & Hu & Hsz).
  set (cr := r_sz (a_region (ca (core st))) : CRef) in *. rewrite Ea. cbn [mbind option_bind].
  set (c := new_clause (p :: l2 :: rest) (true || a_extra (ca (core st))) true) in *.
  set (st1 := st <| core := _ |> <| learnts := _ |>).
  assert (mem (core st1) !! (cr : CRef) = Some c) as E1.
  { unfold mem, st1. simpl. by rewrite Em, lookup_insert_eq. }
  unfold attachClause, ca_deref. unfold mem in E1. rewrite E1. cbn [mbind option_bind].
  set (st2 := st1 <| core := _ |> <| stats := _ |>).
  assert (core st2 = attach_core ((core st) <| ca := a |>) cr c) as Ecore2 by done.
  assert (learnts_ok st2) as Hls.
  { intros x Hx. change (mem (core st2)) with (a_mem a). change (learnts st2) with (learnts st ++ [cr]) in Hx.
    rewrite Em. destruct (decide (cr = x)) as [<- | Hne]; [by rewrite lookup_insert_eq; exists c |].
    rewrite lookup_insert_ne by done. apply elem_of_app in Hx as [Hx | Hx%list_elem_of_singleton]; [| done].
    by apply (si_learnts _ _ _ H). }
  destruct (claBump_spec st2 cr) as (st3 & -> & Fr & Eo & Es & _); [by exists c | done |].
  cbn [mbind option_bind]. destruct (aframe_count _ _ Fr) as ([K1 K2 K3 K4 K5 K6] & K7 & K8).
  destruct (act_fields _ _ (af_core _ _ Fr)) as (Ea3 & _ & Et3 & El3 & Eq3 & _).
  assert (ActInv st3) as [N3 A3].
  { apply (af_act _ _ Fr). split; [apply (si_act _ _ _ H) |]. intros x cx. change (mem (core st2)) with (a_mem a).
    rewrite Em. destruct (decide (cr = x)) as [<- | Hne].
    - rewrite lookup_insert_eq. by intros [= <-].
    - rewrite lookup_insert_ne by done. apply (ci_acts _ _ _ _ _ _ C). }
  eexists. split; [done |]. set (st4 := st3 <| core := _ |>).
  assert (CInv F (assumptions st) (length (trail (core st))) (clauses st) (learnts st ++ [cr]) (core st4)) as C4.
  { unfold st4. cbn [core]. eapply (cinv_learn F _ _ _ (core st) p l2 rest cr a); try done. apply Fr. }
  assert (learned (core st) (core st4) (p :: l2 :: rest)) as Ld.
  { split.
    - exists p. unfold st4. simpl. by rewrite Et3.
    - unfold st4. simpl. by rewrite El3.
    - unfold st4. simpl. by rewrite Eq3.
    - unfold st4. simpl. rewrite (ao_region _ _ (af_core _ _ Fr)). simpl. exact Hsz. }
  assert (nv (core st4) = nv (core st)) as En by (unfold nv, st4; simpl; by rewrite length_zset, Ea3).
  assert (clauses st3 = clauses st ∧ learnts st3 = learnts st ++ [cr] ∧ next_var st3 = next_var st ∧
    released_vars st3 = released_vars st) as (E5 & E6 & E7 & E8).
  { pose proof (af_fixed _ _ Fr) as Fx. unfold fixed_of in Fx.
    assert (clauses st3 = clauses st2 ∧ learnts st3 = learnts st2 ∧ next_var st3 = next_var st2 ∧
      released_vars st3 = released_vars st2) as Hx by (repeat split; congruence). exact Hx. }
  split; [| split; [done |]].
  - destruct H as [_ A S0 S1 Cf O W N R P As L].
    assert (assumptions st4 = assumptions st ∧ params st4 = params st ∧ conflict st4 = conflict st ∧
      clauses st4 = clauses st ∧ learnts st4 = learnts st ++ [cr] ∧ nVars st4 = nVars st ∧
      released_vars st4 = released_vars st ∧ order st4 = order st ∧ seen st4 = seen st)
      as (X1 & X2 & X3 & X4 & X5 & X6 & X7 & X8 & X9) by (repeat split; assumption).
    split; unfold seen_size, seen_at in *; rewrite ?En, ?X1, ?X2, ?X3, ?X4, ?X5, ?X6, ?X7, ?X8, ?X9; try done.
    + rewrite S0. unfold nv in En. lia.
    + by eapply (learned_waiting (core st)).
    + by eapply (learned_levels _ (core st)).
  - split; [| split; [exact K7 | exact K8]]. split; try done.
Qed.

Lemma learn_spec F st ls : SInv F (length (trail (core st))) st → Asserting F (core st) ls →
  r_sz (a_region (ca (core st))) + Z.of_nat (length ls) + 2 <= max_capacity →
  ∃ st', learn st ls = Some st' ∧ SInv F (length (trail (core st))) st' ∧
    learned (core st) (core st') ls ∧ count_frame st st'.
Proof.
  intros H As Hroom. destruct (as_unit _ _ _ As) as (p & rest & -> & _). destruct rest as [| l2 rest].
  - destruct (learn_unit F st p H As) as (H' & Ld & K). eexists. split; [done |]. done.
  - by apply learn_clause.
Qed.

(** ** The bookkeeping after a conflict *)

(** The conversions to [int] of the next [n] conflicts are defined. *)
Fixpoint adjust_ok (n : nat) (st : Solver) : Prop :=
  match n with
  | O => True
  | S n => ∃ st', adjust_learntsize st = Some st' ∧ adjust_ok n st'
  end.

Definition adjust_frame (st st' : Solver) : Prop :=
  st' = (st <| learntsize_adjust_confl := learntsize_adjust_confl st' |>
            <| learntsize_adjust_cnt := learntsize_adjust_cnt st' |>) <| max_learnts := max_learnts st' |>.

Lemma adjust_eq st st' : adjust_learntsize st = Some st' → adjust_frame st st'.
Proof.
  unfold adjust_learntsize. case_match_goal.
  - destruct (d_to_int _) as [cnt |]; [| done]. intros [= <-]. by destruct st.
  - intros [= <-]. by destruct st.
Qed.

Lemma adjust_same st1 st2 st1' : adjust_of st2 = adjust_of st1 → params st2 = params st1 →
  adjust_learntsize st1 = Some st1' → ∃ st2', adjust_learntsize st2 = Some st2' ∧ adjust_of st2' = adjust_of st1'.
Proof.
  unfold adjust_of, adjust_learntsize. intros [= E1 E2] Ep. cbn -[d_mul d_to_int]. rewrite E1, E2, Ep.
  destruct (_ =? 0).
  - destruct (d_to_int _) as [cnt |]; [| done]. intros [= <-]. eexists. split; [done |]. done.
  - intros [= <-]. eexists. split; [done |]. cbn. by rewrite E1, ?E2.
Qed.

Lemma adjust_ok_same n : ∀ st1 st2, adjust_of st2 = adjust_of st1 → params st2 = params st1 →
  adjust_ok n st1 → adjust_ok n st2.
Proof.
  induction n as [| n IH]; intros st1 st2 Ea Ep; [done |]. intros (st1' & E1 & H1).
  destruct (adjust_same st1 st2 st1' Ea Ep E1) as (st2' & E2 & Ea'). exists st2'. split; [done |].
  apply (IH st1'); [done | | done].
  apply adjust_eq in E1 as ->. apply adjust_eq in E2 as ->. done.
Qed.

Lemma adjust_ok_le n m st : (m <= n)%nat → adjust_ok n st → adjust_ok m st.
Proof.
  revert n st. induction m as [| m IH]; intros n st Hle; [done |]. destruct n as [| n]; [lia |].
  intros (st' & E & H). exists st'. split; [done |]. apply (IH n); [lia | done].
Qed.

Lemma sinv_decay F q st ls : SInv F q st →
  let st' := claDecayActivity (varDecayActivity (extendProof st ls false lit_Undef)) in
  SInv F q st' ∧ core st' = core st ∧ count_frame st st'.
Proof.
  intros H st'. set (st1 := extendProof st ls false lit_Undef).
  assert (SInv F q st1 ∧ core st1 = core st ∧ count_frame st st1 ∧ cla_inc st1 = cla_inc st) as (H1 & E1 & K1 & N1).
  { unfold st1, extendProof. destruct (proof st); [| done]. split; [| done].
    apply (sinv_same F q st H); try done. apply (si_act _ _ _ H). }
  set (st2 := varDecayActivity st1). assert (SInv F q st2) as H2.
  { pose proof (si_order _ _ _ H1) as [O1 O2 O3 O4 O5].
    apply (sinv_order F q st1 H1); [by destruct st1 | by split | apply (si_waiting _ _ _ H1)]. }
  split; [| split; [exact E1 |]].
  - apply (sinv_same F q st2 H2); try done. apply d_mul_nonneg; [apply (si_act _ _ _ H2) |].
    apply (pa_decay _ (si_params _ _ _ H2)).
  - etrans; [exact K1 |]. by split.
Qed.

(** A conflict above level 0: the solver is on a lower level afterwards, with at
    most [nv + 2] more words in the arena. *)
Lemma handle_conflict_spec F q st confl : SInv F q st → falsified (core st) confl → trail_lim (core st) ≠ [] →
  r_sz (a_region (ca (core st))) + nv (core st) + 2 <= max_capacity → adjust_ok 1 st →
  ∃ st', handle_conflict st confl = Some st' ∧ SInv F (qhead (core st')) st' ∧
    (decisionLevel (core st') < decisionLevel (core st))%nat ∧
    r_sz (a_region (ca (core st'))) <= r_sz (a_region (ca (core st))) + nv (core st) + 2 ∧
    Kept st st' ∧ conflicts (stats st') = conflicts (stats st) ∧
    ∀ n, adjust_ok (S n) st → adjust_ok n st'.
Proof.
  intros H (c & Hl & Hf) H0 Hroom Hadj.
  destruct (last (trail_lim (core st))) as [L |] eqn:HL; [| by apply last_None in HL].
  destruct (analyze_spec (assumptions st) (core st) q L (si_inv _ _ _ H) (si_rinv _ _ _ H) HL st confl c)
    as (st1 & ls & bt & E & Hle); [done | by eapply si_learnts | apply H | apply H | done | done |].
  unfold handle_conflict. rewrite E. cbn [mbind option_bind]. clear E.
  destruct (backjump_spec F q st st1 L ls bt H HL Hle) as (H2 & As & Hlen & Eq2 & Hdl & Ereg & K2).
  set (st2 := cancelUntil st1 (Z.to_nat bt)) in *.
  destruct (learn_spec F st2 ls H2 As) as (st3 & -> & H3 & Ld & K3).
  { rewrite Ereg. unfold nv in Hroom. lia. }
  cbn [mbind option_bind].
  destruct (sinv_decay F _ st3 ls H3) as (H4 & E4 & K4). set (st4 := claDecayActivity _) in *.
  assert (count_frame st st4) as K24 by (etrans; [exact K2 |]; etrans; [exact K3 | exact K4]).
  destruct K24 as (K & Kc & Ka).
  destruct (adjust_ok_same 1 st st4 Ka (kp_params _ _ K) Hadj) as (st5 & E5 & _).
  rewrite E5. exists st5. split; [done |]. pose proof (adjust_eq _ _ E5) as Fr.
  assert (core st5 = core st3) as Ec5 by (rewrite Fr; exact E4).
  assert (qhead (core st5) = length (trail (core st2))) as -> by (rewrite Ec5, (ld_qhead _ _ _ Ld); done).
  assert (Kept st4 st5) as K5 by (rewrite Fr; by split).
  split; [| split; [| split; [| split; [by etrans | split]]]].
  - apply (sinv_same F _ st4 H4); try (rewrite Fr; done). rewrite Fr. apply (si_act _ _ _ H4).
  - unfold decisionLevel in *. by rewrite Ec5, (ld_lims _ _ _ Ld).
  - rewrite Ec5. etrans; [apply (ld_room _ _ _ Ld) |]. rewrite Ereg. unfold nv. lia.
  - rewrite Fr. exact Kc.
  - intros n Hn. apply (adjust_ok_same _ st st4 Ka (kp_params _ _ K)) in Hn as (st5' & E5' & Hn).
    rewrite E5 in E5'. by injection E5' as <-.
Qed.
