(* ===== verification/CDCLSpec.v ===== *)
(** * Correctness of [search]

    A round of the loop of [search] keeps the invariant of the solver.  The loop
    ends: between two conflicts a round puts a literal on the trail, conflicts
    are bounded by the limit of the restart (or the budget), and the conflicts
    behind the limit follow each other on lower and lower levels.  Its answers
    are right. *)
From Stdlib Require Import SpecFloat.
From S2P Require Import Prelude Lit UnitProp Vec Heap Alloc Double DoubleSpec Clause Solver Propagate.
From S2P Require Import PropCheck Setup SetupSpec Reasons Analyze AnalyzeSpec FinalSpec RandomSpec Reduce BranchSpec.
From S2P Require Import GarbageSpec SearchInv ReduceSpec SimplifySpec SolverInv CDCL ConflictSpec.

#[local] Opaque d_const d_add d_mul d_div d_ltb d_leb f_of_d d_of_Z.

(** ** Answers *)

(** The set of failed assumptions is a clause of their negations that follows
    from the formula. *)
Definition explains (F : formula) (assumps : list Lit) (cf : IntMap.IntSet Lit) : Prop :=
  IntMap.xs cf ≠ [] ∧ (∀ l, l ∈ IntMap.xs cf → lit_neg l ∈ assumps) ∧
  ∀ σ, models σ F → clause_true σ (IntMap.xs cf).

(** Every variable has a value, and the assumptions are true. *)
Definition complete (st : Solver) : Prop :=
  (∀ v, 0 <= v < nv (core st) → v ∈ var <$> trail (core st)) ∧
  ∀ a, a ∈ assumptions st → a ∈ trail (core st).

Inductive Answer (F : formula) (cf : IntMap.IntSet Lit) (st : Solver) : lbool → Prop :=
| answer_sat : SInv F (length (trail (core st))) st → qhead (core st) = length (trail (core st)) →
    complete st → Answer F cf st l_True
| answer_unsat q : SInv F q st → trail_lim (core st) = [] → conflict st = cf → (∀ σ, ¬ models σ F) →
    Answer F cf st l_False
| answer_failed : SInv F (length (trail (core st))) st → qhead (core st) = length (trail (core st)) →
    explains F (assumptions st) (conflict st) →
    Answer F cf st l_False
| answer_undef : SInv F (qhead (core st)) st → trail_lim (core st) = [] → conflict st = cf → Answer F cf st l_Undef.

(** ** What a round without conflict leaves alone *)

Definition room (st : Solver) : Z := r_sz (a_region (ca (core st))).

Definition quiet (st st' : Solver) : Prop := count_frame st st' ∧ room st' <= room st.

#[export] Instance quiet_preorder : PreOrder quiet.
Proof.
  split; [intros st; split; [reflexivity | lia] |].
  intros s1 s2 s3 [A1 B1] [A2 B2]. split; [by etrans | lia].
Qed.

Lemma simplified_quiet st st' : simplified st st' → quiet st st'.
Proof.
  intros S. split; [| apply (cf_room _ _ (sf_core _ _ S))].
  split; [by apply simplified_kept |]. split; [apply S | by apply simplified_adjust].
Qed.

Lemma cancel_quiet F q st lvl : SInv F q st → quiet st (cancelUntil st lvl).
Proof.
  intros H. destruct (trail_lim (core st) !! lvl) as [lim |] eqn:El.
  - split; [eapply cancel_count; [by eapply si_inv | done] |].
    destruct (cancel_inv st lvl lim q (si_inv _ _ _ H) El) as (_ & _ & _ & _ & Eca & _).
    unfold room. by rewrite Eca.
  - apply lookup_ge_None_1 in El. unfold cancelUntil.
    assert (Nat.ltb lvl (decisionLevel (core st)) = false) as -> by (apply Nat.ltb_ge; done). reflexivity.
Qed.

(** Back at level 0. *)
Lemma sinv_cancel0 F st : SInv F (length (trail (core st))) st → qhead (core st) = length (trail (core st)) →
  let st' := cancelUntil st 0 in SInv F (qhead (core st')) st' ∧ trail_lim (core st') = [].
Proof.
  intros H Hq st'. destruct (trail_lim (core st)) as [| lim lims] eqn:El.
  - assert (st' = st) as -> by (unfold st', cancelUntil, decisionLevel; by rewrite El).
    rewrite Hq. done.
  - assert (trail_lim (core st) !! 0%nat = Some lim) as E0 by by rewrite El.
    destruct (cancel_inv st 0 lim _ (si_inv _ _ _ H) E0) as (_ & _ & Elim & Eq & _). fold st' in Elim, Eq.
    rewrite Eq, Elim. split; [by apply (sinv_cancel F _ st 0 lim H) | done].
Qed.

(** ** The assumptions *)

(** A new decision level: it starts behind the trail. *)
Lemma levels_new A s : levels_ok A s → (decisionLevel s < A)%nat → levels_ok A (newDecisionLevel s).
Proof.
  intros [L1 L2] Hd. unfold decisionLevel in *. split; unfold decisionLevel, newDecisionLevel; simpl.
  - intros k m [Hk | [Hge Hk]]%lookup_app_Some; [by apply L1 |].
    apply list_lookup_singleton_Some in Hk as [Hk <-]. lia.
  - rewrite length_app. simpl. lia.
Qed.

Lemma sinv_new_level F st : SInv F (length (trail (core st))) st →
  (decisionLevel (core st) < length (assumptions st))%nat →
  assumptions st !!! decisionLevel (core st) ∈ trail (core st) →
  SInv F (length (trail (core st))) (st <| core := newDecisionLevel (core st) |>).
Proof.
  intros H Hd Ha.
  assert (CInv F (assumptions st) (length (trail (core st))) (clauses st) (learnts st) (newDecisionLevel (core st))) as C.
  { apply cinv_new_level; [apply H |]. intros a Ea. by rewrite (list_lookup_total_correct _ _ _ Ea) in Ha. }
  destruct H as [_ A S0 S1 Cf O W N R P As L]. split; try done. by apply levels_new.
Qed.

(** What the loop over the assumptions may change. *)
Record deeper (st st' : Solver) : Prop := {
  dp_quiet : quiet st st';
  dp_trail : trail (core st') = trail (core st);
  dp_qhead : qhead (core st') = qhead (core st);
  dp_level : (decisionLevel (core st) <= decisionLevel (core st') <=
              Nat.max (decisionLevel (core st)) (length (assumptions st)))%nat;
  dp_rest : ok st' = ok st ∧ stats st' = stats st }.

Inductive AResult (F : formula) (st : Solver) : Solver → assumed → Prop :=
| ares_failed st' : SInv F (length (trail (core st'))) st' → explains F (assumptions st') (conflict st') →
    quiet (st <| conflict := conflict st' |>) st' →
    qhead (core st') = qhead (core st) ∧ trail (core st') = trail (core st) → AResult F st st' AFailed
| ares_next st' p : SInv F (length (trail (core st'))) st' → deeper st st' →
    (p = lit_Undef ∧ (length (assumptions st) <= decisionLevel (core st'))%nat) ∨
    (assumptions st !! decisionLevel (core st') = Some p ∧ p ∉ trail (core st') ∧ lit_neg p ∉ trail (core st')) →
    AResult F st st' (ANext p).

Lemma final_quiet st st' : final_frame st st' → quiet (st <| conflict := conflict st' |>) st'.
Proof. intros (sn & cf & -> & _). split; [| done]. by split. Qed.

(** An assumption that is false: the clause of the failed assumptions. *)
Lemma assume_failed F st p : SInv F (length (trail (core st))) st →
  assumptions st !! decisionLevel (core st) = Some p → lit_neg p ∈ trail (core st) →
  ∃ st', analyzeFinal st (lit_neg p) = Some st' ∧ AResult F st st' AFailed.
Proof.
  intros H Ep Hp.
  destruct (analyzeFinal_spec (assumptions st) _ st (lit_neg p) (si_inv _ _ _ H) (si_rinv _ _ _ H)
    (si_size _ _ _ H) (si_seen _ _ _ H) (si_conflict _ _ _ H) Hp) as (st' & E & [Fr Hz Hw Hl Hin Hent]).
  exists st'. split; [done |]. destruct Fr as (sn & cf & E' & Elen).
  assert (core st' = core st ∧ assumptions st' = assumptions st) as [Ec Ea] by (by rewrite E').
  apply ares_failed.
  - rewrite Ec. rewrite E' in Hz, Hw |- *. destruct H as [C A S0 S1 Cf O W N R P As L].
    split; try done. unfold seen_size in *. simpl. congruence.
  - rewrite Ea. split; [intros E0; rewrite E0 in Hin; by apply elem_of_nil in Hin |]. split.
    + intros l [-> | (i & Hi & Hr & Hlv)]%Hl.
      * rewrite lit_neg_involutive. by eapply list_elem_of_lookup_2.
      * destruct (lvl_at (trail_lim (core st)) i) as [| k] eqn:Ek; [lia |].
        assert (k < length (assumptions st))%nat as Hk.
        { pose proof (lvl_at_le (trail_lim (core st)) i). apply lookup_lt_Some in Ep. unfold decisionLevel in Ep. lia. }
        destruct (lookup_lt_is_Some_2 _ _ Hk) as [a Ea'].
        destruct (ri_dec _ _ (si_rinv _ _ _ H) i (lit_neg l) k Hi Hr Ek) as [_ Hd].
        rewrite (Hd a Ea'). by eapply list_elem_of_lookup_2.
    + intros σ Hσ. by apply Hent, (ci_sound _ _ _ _ _ _ (si_cinv _ _ _ H)).
  - apply final_quiet. by exists sn, cf.
  - by rewrite Ec.
Qed.

Lemma assume_loop_spec F k : ∀ st, SInv F (length (trail (core st))) st →
  k = (length (assumptions st) - decisionLevel (core st))%nat →
  ∃ st' a, assume_loop k st = Some (st', a) ∧ AResult F st st' a.
Proof.
  induction k as [| k IH]; intros st H Hk; simpl.
  { exists st, (ANext lit_Undef). split; [done |]. apply ares_next; [done | | left; split; [done | lia]].
    split; try done; lia. }
  assert (decisionLevel (core st) < length (assumptions st))%nat as Hd by lia.
  destruct (lookup_lt_is_Some_2 _ _ Hd) as [p Ep]. rewrite (list_lookup_total_correct _ _ _ Ep).
  assert (lit_ok (nv (core st)) p) as Hp.
  { pose proof (si_assumps _ _ _ H) as As. rewrite Forall_lookup in As. eauto. }
  rewrite (value_isTrue _ (si_trail _ _ _ H)), (value_isFalse _ (si_trail _ _ _ H)) by done.
  case_bool_decide as Ht; [| case_bool_decide as Hf].
  - set (st1 := st <| core := newDecisionLevel (core st) |>).
    assert (decisionLevel (core st1) = S (decisionLevel (core st))) as Ed.
    { unfold decisionLevel, st1. simpl. rewrite length_app. simpl. lia. }
    assert (SInv F (length (trail (core st))) st1) as H1.
    { apply sinv_new_level; [done | done |]. by rewrite (list_lookup_total_correct _ _ _ Ep). }
    destruct (IH st1 H1) as (st' & a & -> & Hr); [rewrite Ed; simpl; lia |].
    exists st', a. split; [done |]. inversion Hr as [s2 G1 G2 G3 G4 | s2 p2 G1 [D1 D2 D3 D4 D5] G3]; subst.
    + apply ares_failed; [done | done | | done]. etrans; [| exact G3]. split; [| done]. split; [by split | done].
    + apply ares_next; [done | | done]. rewrite Ed in D4. change (assumptions st1) with (assumptions st) in D4.
      split; try done; [| lia]. etrans; [| exact D1]. split; [| done]. split; [by split | done].
  - destruct (assume_failed F st p H Ep Hf) as (st' & -> & Hr). cbn [mbind option_bind].
    by exists st', AFailed.
  - exists st, (ANext p). split; [done |]. apply ares_next; [done | | by right].
    split; try done; lia.
Qed.

(** ** Decisions *)

(** The new level and its literal together: between the two steps the
    assumption of the level does not hold yet. *)
Lemma rinv_take assumps k s : RInv assumps s → RInv (take k assumps) s.
Proof.
  intros [R1 R2 R3 R4 R5]. split; try done.
  - intros i t j Hi Hr Hj. destruct (R4 i t j Hi Hr Hj) as [Hl Ha]. split; [done |].
    intros a [Hk Ea]%lookup_take_Some. auto.
  - intros j a [Ea Hk]%lookup_take_Some. eauto.
Qed.

Lemma cinv_decide F assumps cs ls s p : CInv F assumps (length (trail s)) cs ls s → lit_ok (nv s) p →
  p ∉ trail s → lit_neg p ∉ trail s → (∀ a, assumps !! decisionLevel s = Some a → p = a) →
  CInv F assumps (length (trail s)) cs ls (uncheckedEnqueue (newDecisionLevel s) p CRef_Undef).
Proof.
  intros [I R D So C A] Hp Hn1 Hn2 Ha.
  assert (∀ a, take (decisionLevel s) assumps !! decisionLevel s = Some a → False) as Hno.
  { intros a [_ Hlt]%lookup_take_Some. lia. }
  assert (CInv F (take (decisionLevel s) assumps) (length (trail s)) cs ls (newDecisionLevel s)) as C1.
  { apply cinv_new_level; [split; try done; by apply rinv_take |]. intros a Ea; by apply Hno in Ea. }
  assert (decisionLevel (newDecisionLevel s) = S (decisionLevel s)) as Ed.
  { unfold decisionLevel. simpl. rewrite length_app. simpl. lia. }
  assert (last (trail_lim (newDecisionLevel s)) = Some (length (trail s))) as El by (simpl; by rewrite last_snoc).
  pose proof (cinv_enqueue _ _ _ _ _ _ p C1) as C2. destruct C2 as [I2 R2 D2 S2 Co2 A2]; try done.
  { intros k Ek. rewrite Ed in Ek. injection Ek as <-. split; [done |]. intros a Ea; by apply Hno in Ea. }
  { intros E0. simpl in E0. by apply app_eq_nil in E0 as [_ ?]. }
  set (s' := uncheckedEnqueue _ p _) in *. split; try done.
  assert (trail s' = trail s ++ [p]) as Et by done.
  assert (trail_lim s' = trail_lim s ++ [length (trail s)]) as Elim by done.
  destruct R2 as [Q1 Q2 Q3 Q4 Q5]. split; try done.
  - intros i t k Hi Hr Hk. destruct (Q4 i t k Hi Hr Hk) as [Hl Hq]. split; [done |]. intros a Ea.
    destruct (decide (k < decisionLevel s)%nat) as [Hlt | Hge]; [by apply Hq, lookup_take_Some |].
    rewrite Elim in Hl. apply lookup_app_Some in Hl as [Hl | [_ Hl]].
    + apply lookup_lt_Some in Hl. unfold decisionLevel in Hge. lia.
    + apply list_lookup_singleton_Some in Hl as [Hk0 <-].
      assert (k = decisionLevel s) as -> by (unfold decisionLevel; unfold decisionLevel in Hge; lia).
      rewrite Et, lookup_app_r, Nat.sub_diag in Hi by lia. injection Hi as <-. by apply Ha.
  - intros k a Ea Hk. destruct (decide (k < decisionLevel s)%nat) as [Hlt | Hge].
    + apply Q5; [by apply lookup_take_Some | done].
    + rewrite Elim, length_app in Hk. simpl in Hk.
      assert (k = decisionLevel s) as -> by (unfold decisionLevel; unfold decisionLevel in Hge; lia).
      exists (length (trail s)). rewrite Et, lookup_app_r, Nat.sub_diag by lia. rewrite (Ha a Ea).
      split; [done |]. rewrite <- Ed. apply lvl_at_le.
Qed.

Lemma sinv_decide F st o p : SInv F (length (trail (core st))) st → OrdOk (nv (core st)) o →
  (∀ u, 0 <= u < nv (core st) → u ∉ var <$> trail (core st) → u = var p ∨ u ∈ keys o) →
  lit_ok (nv (core st)) p → p ∉ trail (core st) → lit_neg p ∉ trail (core st) →
  (∀ a, assumptions st !! decisionLevel (core st) = Some a → p = a) →
  SInv F (length (trail (core st)))
    (st <| order := o |> <| core := uncheckedEnqueue (newDecisionLevel (core st)) p CRef_Undef |>).
Proof.
  intros H O Hw Hp Hn1 Hn2 Ha.
  pose proof (cinv_decide F _ _ _ _ p (si_cinv _ _ _ H) Hp Hn1 Hn2 Ha) as C.
  destruct H as [_ A S0 S1 Cf _ _ N R P As L].
  set (s' := uncheckedEnqueue _ _ _) in *.
  assert (nv s' = nv (core st)) as En by (unfold nv, s'; simpl; by rewrite length_zset).
  split; try done; simpl; rewrite ?En; try done.
  - unfold seen_size in *. simpl. by rewrite length_zset.
  - intros v Hv Hn. rewrite En in Hv. simpl in Hn. rewrite fmap_app, not_elem_of_app in Hn. destruct Hn as [Hn Hvp].
    destruct (Hw v Hv Hn) as [-> |]; [| done]. simpl in Hvp. rewrite not_elem_of_cons in Hvp. by destruct Hvp.
  - destruct L as [L1 L2]. unfold decisionLevel in *. split; unfold decisionLevel, s'; simpl.
    + intros k m [Hk | [Hge Hk]]%lookup_app_Some; [by apply L1 |].
      apply list_lookup_singleton_Some in Hk as [Hk <-]. lia.
    + rewrite !length_app. simpl. lia.
Qed.

(** A round that goes on: one more literal on the trail. *)
Record decided_next (st st' : Solver) : Prop := {
  dn_quiet : quiet st st';
  dn_trail : length (trail (core st')) = S (length (trail (core st)));
  dn_level : (decisionLevel (core st') <= decisionLevel (core st) + length (assumptions st) + 1)%nat }.

Definition RoundOk (F : formula) (st : Solver) (r : Solver + Solver * lbool) : Prop :=
  match r with
  | inl st' => SInv F (qhead (core st')) st' ∧ decided_next st st'
  | inr (st', status) => Answer F (conflict st) st' status ∧ quiet (st <| conflict := conflict st' |>) st'
  end.

Lemma var_notin (s : Core) p : var p ∉ var <$> trail s → p ∉ trail s ∧ lit_neg p ∉ trail s.
Proof.
  intros H. split; intros Hin; apply H; apply list_elem_of_fmap; eexists; (split; [| exact Hin]); by rewrite ?var_neg.
Qed.

(** The decision itself. *)
Lemma decided_spec F st st1 st2 p : SInv F (length (trail (core st1))) st1 → deeper st st1 →
  qhead (core st1) = length (trail (core st1)) → 
  order_only (st1 <| stats := stats st2 |>) st2 → conflicts (stats st2) = conflicts (stats st1) →
  OrdOk (nv (core st1)) (order st2) →
  (∀ u, 0 <= u < nv (core st1) → u ∉ var <$> trail (core st1) → u = var p ∨ u ∈ keys (order st2)) →
  lit_ok (nv (core st1)) p → p ∉ trail (core st1) → lit_neg p ∉ trail (core st1) →
  (∀ a, assumptions st1 !! decisionLevel (core st1) = Some a → p = a) →
  RoundOk F st (inl (st2 <| core := uncheckedEnqueue (newDecisionLevel (core st2)) p CRef_Undef |>)).
Proof.
  intros H Dp Hq Ho Hc O Hw Hp Hn1 Hn2 Ha.
  pose proof (sinv_decide F st1 (order st2) p H O Hw Hp Hn1 Hn2 Ha) as H'.
  assert (core st2 = core st1) as Ec by (by rewrite Ho). rewrite Ec.
  set (st' := st2 <| core := _ |>). simpl. rewrite Hq. destruct Dp as [D1 D2 D3 D4 D5]. split.
  - apply (sinv_same F _ _ H'); try (unfold st'; rewrite Ho; done). unfold st'. rewrite Ho. apply (si_act _ _ _ H).
  - split.
    + etrans; [exact D1 |]. unfold st'. rewrite Ho. split; [| done]. split; [| done].
      split; try done. unfold nv. simpl. by rewrite length_zset.
    + unfold st'. simpl. rewrite length_app, D2. simpl. lia.
    + unfold st', decisionLevel in *. simpl. rewrite length_app. simpl. lia.
Qed.

Lemma decide_next_spec F st : SInv F (length (trail (core st))) st → qhead (core st) = length (trail (core st)) →
  ∃ r, decide_next st = Some r ∧ RoundOk F st r ∧
    match r with inl _ => True | inr (_, status) => status ≠ l_Undef end.
Proof.
  intros H Hq. unfold decide_next.
  destruct (assume_loop_spec F _ st H eq_refl) as (st1 & a & -> & Hr). cbn [mbind option_bind].
  destruct Hr as [st1 H1 Hex Qt [Eq1 Et1] | st1 p H1 Dp Hp].
  { eexists. split; [done |]. split; [| done]. split; [| done]. apply answer_failed; [done | congruence | done]. }
  pose proof (dp_quiet _ _ Dp) as ((K & Kc & Ka) & _).
  assert (qhead (core st1) = length (trail (core st1))) as Hq1 by (rewrite (dp_qhead _ _ Dp), (dp_trail _ _ Dp); done).
  assert (assumptions st1 = assumptions st) as Eas by apply K.
  destruct Hp as [[-> Hd] | (Ep & Hn1 & Hn2)].
  - change (lit_eqb lit_Undef lit_Undef) with true. cbn [mbind option_bind].
    destruct (pickBranchLit_spec (core st1) (si_trail _ _ _ H1) (count_decision st1)) as (p & st2 & -> & Ho & O & Hp);
      [done | apply H1 | apply H1 | apply (pa_freq _ (si_params _ _ _ H1)) | apply (pa_pol _ (si_params _ _ _ H1)) |].
    cbn [mbind option_bind].
    assert (stats st2 = stats (count_decision st1)) as Est by (by rewrite Ho).
    assert (order_only (st1 <| stats := stats st2 |>) st2) as Ho2 by (unfold order_only; rewrite Est; exact Ho).
    assert (conflicts (stats st2) = conflicts (stats st1)) as Hc2 by (by rewrite Ho).
    destruct Hp as [[-> Hall] | (Hok & Hv & Hw)].
    + change (lit_eqb lit_Undef lit_Undef) with true. eexists. split; [done |].
      assert (core st2 = core st1 ∧ assumptions st2 = assumptions st1 ∧ conflict st2 = conflict st1) as (Ec & Ea & Ecf)
        by (by rewrite Ho).
      split; [| done]. split.
      * apply answer_sat.
        -- rewrite Ec. assert (SInv F (length (trail (core st1))) (st1 <| order := order st2 |>)) as H2.
           { apply (sinv_order F _ st1 H1); [done | done |]. intros v Hv Hn. by destruct Hn; apply Hall. }
           apply (sinv_same F _ _ H2); try (rewrite Ho; done). rewrite Ho. apply (si_act _ _ _ H1).
        -- by rewrite Ec.
        -- split; rewrite Ec; [exact Hall |]. intros a (k & Ek)%list_elem_of_lookup_1. rewrite Ea, Eas in Ek.
           pose proof (lookup_lt_Some _ _ _ Ek).
           destruct (ri_assumps _ _ (si_rinv _ _ _ H1) k a) as (i & Hi & _); [by rewrite Eas | unfold decisionLevel in Hd; lia |].
           by eapply list_elem_of_lookup_2.
      * destruct (dp_quiet _ _ Dp) as (_ & Hroom).
        assert (quiet st st1) as Qt by apply Dp.
        split; [| unfold room; rewrite Ec; exact Hroom]. split; [| split].
        -- rewrite Ho. destruct K as [K1 K2 K3 K4 K5 K6]. by split.
        -- rewrite Hc2. exact Kc.
        -- rewrite Ho. exact Ka.
    + rewrite (lit_ok_defined _ _ Hok). eexists. split; [done |].
      destruct (var_notin _ _ Hv) as [Hn1 Hn2].
      split; [| done]. apply (decided_spec F st st1 st2 p); try done. intros a Ea. rewrite Eas in Ea. apply lookup_lt_Some in Ea. lia.
  - assert (lit_ok (nv (core st1)) p) as Hok.
    { pose proof (si_assumps _ _ _ H1) as As. rewrite Forall_lookup, Eas in As. eauto. }
    rewrite (lit_ok_defined _ _ Hok). cbn [mbind option_bind]. rewrite (lit_ok_defined _ _ Hok).
    eexists. split; [done |]. split; [| done]. apply (decided_spec F st st1 st1 p); try done.
    + by destruct st1.
    + apply H1.
    + intros u Hu Hn. right. by apply (si_waiting _ _ _ H1).
    + intros a. rewrite Eas, Ep. by intros [= <-].
Qed.

(** [simplify] and [reduceDB] before the decision. *)
Lemma round_simplified F st st1 r : simplified st st1 → RoundOk F st1 r → RoundOk F st r.
Proof.
  intros Sf. pose proof (simplified_quiet _ _ Sf) as Q. destruct Sf as [A K C O Cf P B Ad].
  destruct r as [st' | [st' status]]; simpl.
  - intros [H [D1 D2 D3]]. split; [done |]. split; [by etrans | |].
    + by rewrite D2, (cf_trail _ _ K).
    + unfold decisionLevel in *. by rewrite (cf_lims _ _ K), A in D3.
  - intros [Ha Q']. rewrite Cf in Ha. split; [done |]. etrans; [| exact Q'].
    destruct Q as [([K1 K2 K3 K4 K5 K6] & Q2 & Q3) Q4]. split; [| exact Q4]. split; [by split | done].
Qed.

Lemma no_conflict_spec F st nof conflictC : SInv F (length (trail (core st))) st →
  qhead (core st) = length (trail (core st)) → ok st = true →
  ∃ r, no_conflict st nof conflictC = Some r ∧ RoundOk F st r ∧
    match r with
    | inl _ => ¬ (0 <= nof <= conflictC) ∧ withinBudget st = true
    | inr (st', status) => status = l_Undef → 0 <= nof <= conflictC ∨ withinBudget st' = false
    end.
Proof.
  intros H Hq Ho. unfold no_conflict. destruct (((0 <=? nof) && (nof <=? conflictC)) || negb (withinBudget st)) eqn:Eb.
  - eexists. split; [done |]. set (st1 := st <| progress_estimate := _ |>).
    assert (SInv F (length (trail (core st1))) st1) as H1.
    { apply (sinv_same F _ st H); try done. apply (si_act _ _ _ H). }
    destruct (sinv_cancel0 F st1 H1 Hq) as [H2 E0]. pose proof (cancel_quiet F _ st1 0 H1) as Qt.
    split; [split |].
    + apply answer_undef; [done | done |]. destruct Qt as ([[_ _ _ Kc _ _] _] & _). exact Kc.
    + etrans; [| etrans; [exact Qt |]].
      * split; [| done]. split; [| done]. split; try done. destruct Qt as ([[_ _ _ Kc _ _] _] & _). rewrite Kc. done.
      * reflexivity.
    + intros _. apply orb_true_iff in Eb as [[? ?]%andb_true_iff | Eb%negb_true_iff]; [left; lia | right].
      rewrite cancel_fields. exact Eb.
  - apply orb_false_iff in Eb as [E1 E2%negb_false_iff].
    assert (¬ (0 <= nof <= conflictC)) as E1' by (intros ?; apply andb_false_iff in E1; lia).
    assert (∃ st1, (if (decisionLevel (core st) =? 0)%nat then simplify st else Some (st, true)) = Some (st1, true) ∧
      SInv F (length (trail (core st1))) st1 ∧ simplified st st1 ∧ qhead (core st1) = length (trail (core st1)))
      as (st1 & -> & H1 & S1 & Q1).
    { destruct (Nat.eqb_spec (decisionLevel (core st)) 0) as [E0 | _]; [| by exists st].
      destruct (simplify_spec F st H) as (st1 & E & H1 & S1); [by apply nil_length_inv | done | done |].
      exists st1. split; [done |]. rewrite (cf_trail _ _ (sf_core _ _ S1)), (cf_qhead _ _ (sf_core _ _ S1)). done. }
    cbn [mbind option_bind negb].
    assert (∃ st2, (if d_leb (max_learnts st1) (d_of_Z (Z.of_nat (length (learnts st1)) - nAssigns (core st1)))
        then reduceDB st1 else Some st1) = Some st2 ∧
      SInv F (length (trail (core st2))) st2 ∧ simplified st1 st2 ∧ qhead (core st2) = length (trail (core st2)))
      as (st2 & -> & H2 & S2 & Q2).
    { destruct (d_leb _ _); [| by exists st1].
      destruct (sinv_reduce F _ st1 H1) as (st2 & E & H2 & G2). exists st2. split; [done |].
      pose proof (search_simplified _ _ G2) as S2.
      rewrite (cf_trail _ _ (sf_core _ _ S2)), (cf_qhead _ _ (sf_core _ _ S2)). done. }
    cbn [mbind option_bind].
    destruct (decide_next_spec F st2 H2 Q2) as (r & -> & Hr & Hn). exists r. split; [done |].
    split; [eapply (round_simplified F st st1); [done |]; by eapply round_simplified |].
    destruct r as [st' | [st' status]]; [done |]. intros E. by destruct Hn.
Qed.

(** ** The loop *)

Section Search.
Context (F : formula) (G nof : Z) (st0 : Solver).
Hypothesis HK0 : 0 <= conflicts (stats st0).
Hypothesis HG : G < 2 ^ 64.
Hypothesis Hnof : 0 <= nof.

#[local] Abbreviation A := (Z.of_nat (length (assumptions st0))).
#[local] Abbreviation N := (nv (core st0)).

Definition confls (st : Solver) : Z := conflicts (stats st).

Definition dlevel (st : Solver) : Z := Z.of_nat (decisionLevel (core st)).

(** The conflicts up to the limit of the restart and to the budget. *)
Definition left_of (st : Solver) (conflictC : Z) : Z :=
  if conflict_budget st <? 0 then nof - conflictC
  else Z.min (nof - conflictC) (conflict_budget st - confls st).

(** A bound on the conflicts to come: behind the limit each is on a lower level,
    and the last one may be at level 0. *)
Definition conflicts_left (st : Solver) (conflictC : Z) : Z :=
  (if 0 <? left_of st conflictC then left_of st conflictC + A + N else dlevel st) + 1.

Definition round_cost : Z := N * (A + 2) + 1.

Definition rounds_left (st : Solver) (conflictC : Z) : Z :=
  if 0 <? left_of st conflictC
  then left_of st conflictC * round_cost + (N - Z.of_nat (length (trail (core st)))) * (A + 2) + dlevel st
  else dlevel st.

(** What stays for the conflicts up to [G]. *)
Record Reserve (st : Solver) : Prop := {
  rs_count : confls st0 <= confls st <= G;
  rs_room : room st + (G - confls st) * (N + 2) <= max_capacity;
  rs_adjust : adjust_ok (Z.to_nat (G - confls st)) st }.

Record Running (x : Solver * Z) : Prop := {
  ru_inv : SInv F (qhead (core x.1)) x.1;
  ru_ok : ok x.1 = true;
  ru_kept : Kept st0 x.1;
  ru_count : confls x.1 = confls st0 + x.2;
  ru_left : conflicts_left x.1 x.2 <= G - confls x.1;
  ru_reserve : Reserve x.1 }.

Record Ended (r : Solver * lbool) : Prop := {
  en_answer : Answer F (conflict st0) r.1 r.2;
  en_kept : Kept (st0 <| conflict := conflict r.1 |>) r.1;
  en_reserve : Reserve r.1;
  en_limit : r.2 = l_Undef → withinBudget r.1 = true → confls st0 + nof <= confls r.1 }.

Lemma reserve_quiet st st' : quiet (st <| conflict := conflict st' |>) st' → Reserve st → Reserve st'.
Proof using.
  intros [(K & Kc & Ka) Kr] [R1 R2 R3]. unfold confls, room in *. simpl in *.
  split; unfold confls, room; rewrite ?Kc; [done | lia |].
  apply (adjust_ok_same _ st); [done | | done]. pose proof (kp_params _ _ K) as Ep. exact Ep.
Qed.

Lemma quiet_conflict st st' : quiet st st' → quiet (st <| conflict := conflict st' |>) st'.
Proof using.
  intros [([K1 K2 K3 K4 K5 K6] & Kc & Ka) Kr]. split; [| done]. split; [by split | done].
Qed.

Lemma left_quiet st st' C : count_frame st st' → left_of st' C = left_of st C.
Proof using.
  intros ([_ _ _ _ K5 _] & Kc & _). unfold left_of, confls. injection K5 as -> _ _. by rewrite Kc.
Qed.

(** Propagation. *)
Lemma prop_quiet st st' : prop_frame st st' → ext (core st) (core st') → quiet st st'.
Proof using.
  intros Fr X. pose proof (prop_kept _ _ Fr X) as K. destruct Fr as [E Ec]. split.
  - split; [done |]. split; [done |]. by rewrite E.
  - unfold room. by rewrite (proj1 (ext_region _ _ X)).
Qed.

Lemma trail_bound st q : SInv F q st → Kept st0 st → Z.of_nat (length (trail (core st))) <= N.
Proof using.
  intros H K. pose proof (trail_length _ _ _ (si_trail _ _ _ H)). rewrite <- (kp_nv _ _ K). unfold nv. lia.
Qed.

Lemma level_bound st q : SInv F q st → Kept st0 st → dlevel st <= A + N.
Proof using.
  intros H K. pose proof (trail_bound st q H K). pose proof (lv_last _ _ (si_levels _ _ _ H)) as L.
  rewrite (kp_assumps _ _ K) in L. unfold dlevel. lia.
Qed.

Lemma within_left st C : ¬ (0 <= nof <= C) → withinBudget st = true → 0 < left_of st C.
Proof using Hnof.
  intros Hc Hb. unfold withinBudget in Hb. apply andb_true_iff in Hb as [[_ Hb]%andb_true_iff _].
  unfold left_of. destruct (Z.ltb_spec (conflict_budget st) 0) as [| Hge]; [lia |].
  simpl in Hb. apply Z.ltb_lt in Hb. unfold confls.
  pose proof (Z.mod_le (conflict_budget st) (2 ^ 64) Hge ltac:(lia)). unfold u64 in Hb. lia.
Qed.

Lemma dlevel_nonneg st : 0 <= dlevel st.
Proof using. unfold dlevel. lia. Qed.

Lemma nv_nonneg : 0 <= N.
Proof using. unfold nv. lia. Qed.

(** A round without conflict that goes on. *)
Lemma quiet_next st st1 st' C : Running (st, C) → quiet st st1 →
  trail_lim (core st1) = trail_lim (core st) → (length (trail (core st)) <= length (trail (core st1)))%nat →
  0 < left_of st1 C → SInv F (qhead (core st')) st' → decided_next st1 st' →
  Running (st', C) ∧ (Z.to_nat (rounds_left st' C) < Z.to_nat (rounds_left st C))%nat.
Proof using.
  intros [R1 R2 R3 R4 R5 R6] Q El Et Hleft H' [D1 D2 D3]. simpl in *.
  assert (quiet st st') as Q' by (etrans; [exact Q | exact D1]).
  pose proof (left_quiet st st1 C (proj1 Q)) as E1. pose proof (left_quiet st st' C (proj1 Q')) as E2.
  pose proof (proj1 Q') as (K' & Kc & _). assert (Kept st0 st') as K0 by (etrans; [exact R3 | exact K']).
  split.
  - split; simpl; [done | by rewrite (kp_ok _ _ K') | done | by unfold confls in *; rewrite Kc | |].
    + unfold conflicts_left in *. rewrite E2. rewrite E1 in Hleft. destruct (Z.ltb_spec 0 (left_of st C)); [| lia].
      unfold confls in *. by rewrite Kc.
    + by apply (reserve_quiet st), R6; apply quiet_conflict.
  - unfold rounds_left. rewrite E2. rewrite E1 in Hleft. destruct (Z.ltb_spec 0 (left_of st C)); [| lia].
    pose proof (trail_bound st' _ H' K0). rewrite D2 in *.
    assert (Z.of_nat (length (assumptions st1)) = A) as EA.
    { rewrite (kp_assumps _ _ (proj1 (proj1 Q))), (kp_assumps _ _ R3). done. }
    unfold dlevel, decisionLevel in *. rewrite El in D3.
    assert (0 <= left_of st C * round_cost).
    { apply Z.mul_nonneg_nonneg; [lia |]. unfold round_cost. pose proof nv_nonneg. nia. }
    apply Z2Nat.inj_lt; nia.
Qed.

(** A round with a conflict above level 0. *)
Lemma conflict_next st st1 st2 q confl C : Running (st, C) → prop_frame st st1 → ext (core st) (core st1) →
  SInv F q st1 → falsified (core st1) confl → trail_lim (core st1) ≠ [] → st2 = count_conflict st1 →
  ∃ st', handle_conflict st2 confl = Some st' ∧
    Running (st', C + 1) ∧ (Z.to_nat (rounds_left st' (C + 1)) < Z.to_nat (rounds_left st C))%nat.
Proof using HK0 HG.
  intros [R1 R2 R3 R4 R5 R6] Fr X H1 Hf Hne ->. simpl in *.
  pose proof (prop_quiet _ _ Fr X) as Q1. pose proof (proj1 Q1) as (K1 & Kc1 & Ka1).
  pose proof (reserve_quiet st st1 (quiet_conflict _ _ Q1) R6) as [V1 V2 V3].
  assert (Kept st0 st1) as K01 by (etrans; [exact R3 | exact K1]).
  assert (dlevel st1 = dlevel st) as Edl by (unfold dlevel, decisionLevel; by rewrite (ext_lims _ _ X)).
  assert (0 < dlevel st) as Hd.
  { rewrite <- Edl. unfold dlevel, decisionLevel. destruct (trail_lim (core st1)); [done | simpl; lia]. }
  assert (confls st1 = confls st) as Ec1 by exact Kc1.
  pose proof nv_nonneg as HN. pose proof (level_bound st1 q H1 K01) as HD. rewrite Edl in HD.
  assert (1 <= G - confls st) as Hg.
  { unfold conflicts_left in R5. destruct (Z.ltb_spec 0 (left_of st C)); lia. }
  set (st2 := count_conflict st1).
  assert (confls st2 = confls st + 1) as Ec2.
  { unfold confls, st2, count_conflict. simpl. unfold confls in *. rewrite Ec1. unfold u64. apply Z.mod_small. lia. }
  assert (SInv F q st2) as H2.
  { apply (sinv_same F q st1 H1); try done. apply (si_act _ _ _ H1). }
  assert (nv (core st2) = N) as En2 by (apply (kp_nv _ _ K01)).
  destruct (handle_conflict_spec F q st2 confl H2 Hf Hne) as (st' & E & H' & Hdl & Hr & K' & Kc' & Ad).
  { rewrite En2. change (r_sz (a_region (ca (core st2)))) with (room st1). nia. }
  { apply (adjust_ok_same _ st1); [done | done |]. eapply adjust_ok_le; [| exact V3]. lia. }
  exists st'. split; [done |].
  assert (confls st' = confls st + 1) as Ec' by (unfold confls in *; by rewrite Kc').
  assert (Kept st0 st') as K0' by (etrans; [exact K01 |]; etrans; [| exact K']; by split).
  assert (dlevel st' < dlevel st) as Hlt.
  { rewrite <- Edl. unfold dlevel. change (decisionLevel (core st2)) with (decisionLevel (core st1)) in Hdl. lia. }
  assert (left_of st' (C + 1) = left_of st C - 1) as El.
  { unfold left_of. rewrite Ec'. pose proof (kp_budget _ _ K0') as B'. pose proof (kp_budget _ _ R3) as B.
    injection B' as -> _ _. injection B as -> _ _. destruct (_ <? 0); lia. }
  pose proof (dlevel_nonneg st'). pose proof (trail_bound st' _ H' K0').
  split.
  - split; simpl; [done | | done | lia | |].
    + rewrite (kp_ok _ _ K0'). by rewrite <- (kp_ok _ _ R3).
    + unfold conflicts_left in *. rewrite El, Ec'.
      destruct (Z.ltb_spec 0 (left_of st C)), (Z.ltb_spec 0 (left_of st C - 1)); lia.
    + split; [unfold confls in *; lia | |].
      * rewrite Ec'. rewrite En2 in Hr. change (r_sz (a_region (ca (core st2)))) with (room st1) in Hr.
        change (r_sz (a_region (ca (core st')))) with (room st') in Hr. rewrite Ec1 in V2. nia.
      * apply Ad. apply (adjust_ok_same _ st1); [done | done |].
        assert (S (Z.to_nat (G - confls st')) = Z.to_nat (G - confls st1)) as -> by lia. done.
  - assert (Z.of_nat (length (trail (core st))) <= N) as HT.
    { pose proof (ext_trail _ _ X) as [news Et]. pose proof (trail_bound st1 q H1 K01) as Hb.
      rewrite Et, length_app in Hb. lia. }
    unfold rounds_left. rewrite El.
    assert (0 <= (N - Z.of_nat (length (trail (core st)))) * (A + 2)) by (apply Z.mul_nonneg_nonneg; lia).
    assert (0 <= (N - Z.of_nat (length (trail (core st')))) * (A + 2) <= N * (A + 2)) as [].
    { split; [apply Z.mul_nonneg_nonneg; lia | apply Z.mul_le_mono_nonneg_r; lia]. }
    assert (0 <= N * (A + 2)) by (apply Z.mul_nonneg_nonneg; lia).
    assert (left_of st C * round_cost = (left_of st C - 1) * round_cost + (N * (A + 2) + 1)) as ->
      by (unfold round_cost; lia).
    assert (0 < left_of st C → 0 <= (left_of st C - 1) * round_cost).
    { intros. apply Z.mul_nonneg_nonneg; [lia |]. unfold round_cost. lia. }
    destruct (Z.ltb_spec 0 (left_of st C)), (Z.ltb_spec 0 (left_of st C - 1)); try lia; apply Z2Nat.inj_lt; lia.
Qed.

(** The end of a round. *)
Lemma ended_spec st st1 st' status C : Running (st, C) → quiet st st1 → Answer F (conflict st1) st' status →
  quiet (st1 <| conflict := conflict st' |>) st' →
  (status = l_Undef → 0 <= nof <= C ∨ withinBudget st' = false) → Ended (st', status).
Proof using.
  intros [R1 R2 R3 R4 R5 R6] Q Ha Q' Hu. simpl in *.
  pose proof (proj1 Q) as (K & Kc & _). pose proof (proj1 Q') as (K' & Kc' & _).
  split; simpl.
  - by rewrite (kp_conflict _ _ K), (kp_conflict _ _ R3) in Ha.
  - etrans; [| exact K'].
    destruct K as [A1 A2 A3 A4 A5 A6], R3 as [B1 B2 B3 B4 B5 B6]. split; simpl; congruence.
  - apply (reserve_quiet st1 st' Q'). by apply (reserve_quiet st), R6; apply quiet_conflict.
  - intros Es Hb. destruct (Hu Es) as [Hn | Hw]; [| congruence].
    unfold confls in *. simpl in Kc'. rewrite Kc', Kc. lia.
Qed.

Lemma search_step_spec x : Running x → ∃ r, search_step nof x = Some r ∧
  match r with
  | inl x' => Running x' ∧ (Z.to_nat (rounds_left x'.1 x'.2) < Z.to_nat (rounds_left x.1 x.2))%nat
  | inr b => Ended b
  end.
Proof using HK0 HG Hnof.
  intros R. destruct x as [st C]. pose proof R as [R1 R2 R3 R4 R5 R6]. simpl in *. unfold search_step.
  destruct (sinv_propagate F st R1) as (st1 & confl & -> & Fr & X & Hq & Hr). cbn [mbind option_bind].
  pose proof (prop_quiet _ _ Fr X) as Q. pose proof (proj1 Q) as (K & _ & _).
  destruct Hr as [[-> H1] | (Hc & Hf & q & H1)].
  - rewrite Z.eqb_refl.
    destruct (no_conflict_spec F st1 nof C H1 Hq) as (r & -> & Hr & Hx); [by rewrite (kp_ok _ _ K) |].
    cbn [mbind option_bind]. destruct r as [st' | [st' status]].
    + eexists. split; [done |]. destruct Hr as [H' D']. destruct Hx as [Hn Hw].
      apply (quiet_next st st1 st' C R Q); [apply (ext_lims _ _ X) | | | done | done].
      * destruct (ext_trail _ _ X) as [news ->]. rewrite length_app. lia.
      * by apply within_left.
    + eexists. split; [done |]. destruct Hr as [Ha Q']. by apply (ended_spec st st1 st' status C).
  - rewrite (proj2 (Z.eqb_neq _ _) Hc). cbv zeta.
    change (decisionLevel (core (count_conflict st1))) with (decisionLevel (core st1)).
    destruct (Nat.eqb_spec (decisionLevel (core st1)) 0) as [E0 | E0].
    + eexists. split; [done |]. apply nil_length_inv in E0. set (st2 := count_conflict st1).
      assert (SInv F q st2) as H2 by (apply (sinv_same F q st1 H1); try done; apply (si_act _ _ _ H1)).
      destruct (reserve_quiet st st1 (quiet_conflict _ _ Q) R6) as [V1 V2 V3].
      assert (confls st + 1 <= G) as Hg.
      { unfold conflicts_left in R5. pose proof (dlevel_nonneg st). pose proof nv_nonneg.
        destruct (Z.ltb_spec 0 (left_of st C)); lia. }
      assert (confls st1 = confls st) as Ec1 by (apply Q).
      assert (confls st2 = confls st + 1) as Ec2.
      { unfold confls, st2, count_conflict. simpl. unfold confls in *. rewrite Ec1. unfold u64. apply Z.mod_small. lia. }
      assert (conflict st1 = conflict st0) as Ecf by (by rewrite (kp_conflict _ _ K), (kp_conflict _ _ R3)).
      split; [| | | done].
      * apply (answer_unsat F _ st2 q); [done | done | exact Ecf |]. intros σ. by apply (conflict_unsat F q st1 confl).
      * simpl. change (conflict st2) with (conflict st1). rewrite Ecf.
        assert (Kept st0 st1) as [A1 A2 A3 A4 A5 A6] by (by etrans). by split.
      * pose proof nv_nonneg. split; simpl; [lia | |].
        -- rewrite Ec2. change (room st2) with (room st1). rewrite Ec1 in V2. nia.
        -- apply (adjust_ok_same _ st1); [done | done |]. eapply adjust_ok_le; [| exact V3]. lia.
    + destruct (conflict_next st st1 (count_conflict st1) q confl C R Fr X H1 Hf) as (st' & -> & R' & Hm).
      { intros E. apply E0. unfold decisionLevel. by rewrite E. }
      { done. }
      cbn [mbind option_bind]. eexists. split; [done |]. done.
Qed.

(** [search] from level 0 ends after at most [2 ^ fuel] rounds. *)
Lemma search_spec fuel : SInv F (qhead (core st0)) st0 → ok st0 = true → trail_lim (core st0) = [] →
  Reserve st0 → conflicts_left st0 0 <= G - confls st0 →
  nof * round_cost + N * (A + 2) < 2 ^ Z.of_nat fuel →
  ∃ st' status, search fuel st0 nof = Some (st', status) ∧ Ended (st', status).
Proof using HK0 HG Hnof.
  intros H Hok H0 Hr Hg Hf. unfold search. set (st := count_start st0).
  assert (quiet st0 st) as Q by (split; [| done]; split; [by split | done]).
  assert (left_of st 0 <= nof) as Hle by (unfold left_of; destruct (_ <? 0); lia).
  assert (dlevel st = 0) as Ed by (unfold dlevel, decisionLevel; change (core st) with (core st0); by rewrite H0).
  pose proof nv_nonneg.
  assert (Running (st, 0)) as R.
  { split; simpl; [| done | apply Q | unfold confls; simpl; lia | | by apply (reserve_quiet st0 st), Hr; apply quiet_conflict].
    - apply (sinv_same F _ st0 H); try done. apply (si_act _ _ _ H).
    - exact Hg. }
  destruct (iter2_spec (search_step nof) Running Ended (λ x, Z.to_nat (rounds_left x.1 x.2)) search_step_spec fuel (st, 0) R)
    as ([st' status] & -> & He).
  { cbn [fst snd]. unfold rounds_left. rewrite Ed. change (core st) with (core st0).
    pose proof (trail_bound st0 _ H ltac:(reflexivity)).
    assert (Z.of_nat (2 ^ fuel) = 2 ^ Z.of_nat fuel) as E2 by (by rewrite Nat2Z.inj_pow).
    pose proof (Nat.pow_nonzero 2 fuel).
    destruct (Z.ltb_spec 0 (left_of st 0)); [| simpl; lia].
    assert (left_of st 0 * round_cost <= nof * round_cost).
    { apply Z.mul_le_mono_nonneg_r; [| done]. unfold round_cost. nia. }
    assert ((N - Z.of_nat (length (trail (core st0)))) * (A + 2) <= N * (A + 2)) by nia.
    rewrite <- E2 in Hf. lia. }
  by exists st', status.
Qed.
End Search.
