(* ===== verification/RestartSpec.v ===== *)
(** * The restart sequence and the growth of the learnt clause limit

    [luby] computes the reluctant doubling sequence of Luby, Sinclair and
    Zuckerman without overflow; with the default parameters the limit of a
    restart is an [int], and so is the number of conflicts up to the next change
    of the limit of learnt clauses for more than [2 ^ 32] conflicts. *)
From Stdlib Require Import SpecFloat.
From S2P Require Import Prelude Lit Vec Heap Alloc Double DoubleSpec Clause Solver Setup Analyze Reduce CDCL ConflictSpec.

(** ** The sequence *)

(** [Luby x e]: the member at [x], counted from 0, is [2 ^ e].  The first
    [2 ^ (k + 1) - 1] members are two copies of the first [2 ^ k - 1] and then
    [2 ^ k]. *)
Inductive Luby : Z → Z → Prop :=
| luby_end k : 0 <= k → Luby (2 ^ (k + 1) - 2) k
| luby_copy k x e : 0 <= k → 2 ^ k - 1 <= x < 2 ^ (k + 1) - 2 → Luby (x - (2 ^ k - 1)) e → Luby x e.

Lemma luby_bound x e : Luby x e → 0 <= e ∧ 2 ^ e <= x + 1.
Proof.
  induction 1 as [k Hk | k x e Hk Hx H [He IH]].
  - rewrite Z.pow_add_r by lia. pose proof (Z.pow_pos_nonneg 2 k ltac:(lia) Hk). lia.
  - pose proof (Z.pow_pos_nonneg 2 k ltac:(lia) Hk). lia.
Qed.

Lemma luby_size_spec fuel : ∀ x seq, 0 <= x < 2 ^ 30 → 0 <= seq → 2 ^ seq - 1 <= x →
  (seq + Z.of_nat fuel > 30) → (0 < fuel)%nat →
  ∃ k, luby_size fuel x (2 ^ (seq + 1) - 1) seq = Some (2 ^ (k + 1) - 1, k) ∧ seq <= k <= 30 ∧
    2 ^ k - 1 <= x <= 2 ^ (k + 1) - 2.
Proof.
  induction fuel as [| fuel IH]; intros x seq Hx Hs Hlo Hf H0; [lia |]. cbn [luby_size].
  assert (seq <= 30) as Hs30.
  { destruct (Z.le_gt_cases seq 30) as [| Hgt]; [done |].
    pose proof (Z.pow_le_mono_r 2 31 seq ltac:(lia) ltac:(lia)). lia. }
  destruct (Z.ltb_spec (2 ^ (seq + 1) - 1) (x + 1)) as [Hlt | Hge].
  - assert (seq < 30) as Hs29.
    { destruct (Z.lt_ge_cases seq 30) as [| Hgt]; [done |].
      pose proof (Z.pow_le_mono_r 2 31 (seq + 1) ltac:(lia) ltac:(lia)). lia. }
    assert (2 * (2 ^ (seq + 1) - 1) + 1 = 2 ^ (seq + 1 + 1) - 1) as ->.
    { rewrite (Z.pow_add_r 2 (seq + 1) 1) by lia. lia. }
    pose proof (Z.pow_le_mono_r 2 (seq + 1 + 1) 31 ltac:(lia) ltac:(lia)).
    assert (2 ^ (seq + 1 + 1) - 1 <=? INT_MAX = true) as -> by (apply Z.leb_le; unfold INT_MAX; lia).
    destruct (IH x (seq + 1)) as (k & -> & Hk & Hr); [done | lia | lia | lia | lia |].
    exists k. split; [done |]. split; [lia | done].
  - exists seq. split; [done |]. split; [lia |]. lia.
Qed.

Lemma luby_seq_spec fuel : ∀ x seq, 0 <= seq → 0 <= x <= 2 ^ (seq + 1) - 2 → seq < Z.of_nat fuel →
  ∃ e, luby_seq fuel x (2 ^ (seq + 1) - 1) seq = Some e ∧ Luby x e.
Proof.
  induction fuel as [| fuel IH]; intros x seq Hs Hx Hf; [lia |]. cbn [luby_seq].
  destruct (Z.eqb_spec (2 ^ (seq + 1) - 1 - 1) x) as [E | Hne].
  - exists seq. split; [done |]. replace x with (2 ^ (seq + 1) - 2) by lia. by apply luby_end.
  - assert (0 < seq) as Hs0.
    { destruct (Z.eq_dec seq 0) as [-> |]; [simpl in *; lia | lia]. }
    rewrite Z.pow_add_r in * by lia. pose proof (Z.pow_pos_nonneg 2 seq ltac:(lia) Hs).
    assert (Z.shiftr (2 ^ seq * 2 ^ 1 - 1 - 1) 1 = 2 ^ (seq - 1 + 1) - 1) as ->.
    { rewrite Z.shiftr_div_pow2 by lia. replace (2 ^ seq * 2 ^ 1 - 1 - 1) with ((2 ^ seq - 1) * 2 ^ 1) by lia.
      rewrite Z.div_mul by lia. do 2 f_equal. lia. }
    assert (seq - 1 + 1 = seq) as Es by lia.
    assert (2 <= 2 ^ seq) as H2 by (apply (Z.pow_le_mono_r 2 1 seq); lia).
    destruct (Z.lt_ge_cases x (2 ^ seq - 1)) as [Hlt | Hge].
    + assert (Z.rem x (2 ^ (seq - 1 + 1) - 1) = x) as -> by (rewrite Es; apply Z.rem_small; lia).
      apply IH; [lia | rewrite Es; lia | lia].
    + assert (Z.rem x (2 ^ (seq - 1 + 1) - 1) = x - (2 ^ seq - 1)) as ->.
      { rewrite Es, Z.rem_mod_nonneg by lia. symmetry. apply (Z.mod_unique _ _ 1); lia. }
      destruct (IH (x - (2 ^ seq - 1)) (seq - 1)) as (e & E & Hl); [lia | rewrite Es; lia | lia |].
      rewrite E. exists e. split; [done |]. apply (luby_copy seq); [lia | | done].
      rewrite Z.pow_add_r by lia. lia.
Qed.

Lemma luby_exp_spec x : 0 <= x < 2 ^ 30 → ∃ e, luby_exp x = Some e ∧ Luby x e.
Proof.
  intros Hx. unfold luby_exp.
  destruct (luby_size_spec 32 x 0) as (k & E & Hk & Hr); [done | lia | simpl; lia | lia | lia |].
  change (2 ^ (0 + 1) - 1) with 1 in E. rewrite E. cbn [mbind option_bind].
  apply luby_seq_spec; lia.
Qed.

#[local] Opaque d_const d_add d_mul d_div d_ltb d_leb f_of_d d_of_Z.

Lemma d_pow_two n : (n <= 52)%nat → d_pow (d_of_Z 2) n = d_of_Z (2 ^ Z.of_nat n).
Proof.
  induction n as [| n IH]; intros Hn; [done |]. cbn [d_pow]. rewrite IH by lia.
  pose proof (Z.pow_pos_nonneg 2 (Z.of_nat n) ltac:(lia) ltac:(lia)).
  pose proof (Z.pow_le_mono_r 2 (Z.of_nat n) 51 ltac:(lia) ltac:(lia)).
  rewrite d_mul_Z by lia. f_equal. rewrite Nat2Z.inj_succ, Z.pow_succ_r by lia. lia.
Qed.

Lemma luby_exp_small x e : 0 <= x < 2 ^ 30 → Luby x e → 0 <= e <= 30.
Proof.
  intros Hx H. pose proof (luby_bound x e H) as [He Hb]. split; [done |].
  destruct (Z.le_gt_cases e 30) as [| Hgt]; [done |].
  pose proof (Z.pow_le_mono_r 2 31 e ltac:(lia) ltac:(lia)). lia.
Qed.

Lemma luby_two x : 0 <= x < 2 ^ 30 → ∃ e, luby (d_of_Z 2) x = Some (d_of_Z (2 ^ e)) ∧ Luby x e ∧ 0 <= e <= 30.
Proof.
  intros Hx. destruct (luby_exp_spec x Hx) as (e & E & H). exists e. unfold luby. rewrite E.
  cbn [mbind option_bind]. pose proof (luby_exp_small x e Hx H).
  rewrite d_pow_two by lia. rewrite Z2Nat.id by lia. done.
Qed.

(** The limit of the restart with number [x]: between 100 and [100 * (x + 1)]. *)
Lemma restart_limit_spec st x : params st = default_params → 0 <= x < 2 ^ 24 →
  ∃ e, restart_limit st x = Some (100 * 2 ^ e) ∧ Luby x e ∧ 100 <= 100 * 2 ^ e <= 100 * (x + 1).
Proof.
  intros Hp Hx. unfold restart_limit. rewrite Hp. cbn [luby_restart restart_inc restart_first default_params].
  destruct (luby_two x) as (e & -> & H & He); [lia |]. cbn [mbind option_bind].
  pose proof (luby_bound x e H) as [_ Hb]. pose proof (Z.pow_pos_nonneg 2 e ltac:(lia) ltac:(lia)).
  rewrite d_mul_Z by lia. rewrite d_to_int_Z by lia.
  exists e. split; [f_equal; lia |]. split; [done | lia].
Qed.

(** ** Adjusting the number of learnt clauses *)

Definition adjust_inc : double := d_const 15 10.

(** The conflicts of the next [m] intervals. *)
Fixpoint adjust_total (m : nat) (c : double) : option Z :=
  match m with
  | O => Some 0
  | S m =>
      let c := d_mul c adjust_inc in
      n ← d_to_int c;
      if 0 <? n then t ← adjust_total m c; Some (n + t) else None
  end.

Lemma adjust_ok_total n : ∀ m t st, learntsize_adjust_inc (params st) = adjust_inc →
  adjust_total m (learntsize_adjust_confl st) = Some t → 0 < learntsize_adjust_cnt st →
  Z.of_nat n < learntsize_adjust_cnt st + t → adjust_ok n st.
Proof.
  induction n as [| n IH]; intros m t st Hp Ht Hc Hn; [done |]. cbn [adjust_ok]. unfold adjust_learntsize.
  set (st1 := st <| learntsize_adjust_cnt := _ |>).
  change (learntsize_adjust_cnt st1) with (learntsize_adjust_cnt st - 1).
  destruct (Z.eqb_spec (learntsize_adjust_cnt st - 1) 0) as [E | Hne].
  - change (params st1) with (params st). rewrite Hp.
    change (learntsize_adjust_confl st1) with (learntsize_adjust_confl st).
    destruct m as [| m]; [simpl in Ht; injection Ht as <-; lia |]. cbn [adjust_total] in Ht.
    destruct (d_to_int (d_mul (learntsize_adjust_confl st) adjust_inc)) as [k |] eqn:Ek; [| done].
    cbn [mbind option_bind] in *. destruct (Z.ltb_spec 0 k) as [Hk |]; [| done].
    destruct (adjust_total m _) as [t' |] eqn:Et; [| done]. injection Ht as <-.
    eexists. split; [done |]. apply (IH m t'); [done | exact Et | exact Hk | ].
    cbn [learntsize_adjust_cnt]. change (Z.of_nat n < k + t'). lia.
  - exists st1. split; [done |]. apply (IH m t); [done | done | | ]; simpl; lia.
Qed.

#[local] Transparent d_const d_mul d_of_Z.

Lemma adjust_total_default : ∃ t, adjust_total 41 (d_of_Z 100) = Some t ∧ 2 ^ 32 <= t.
Proof. eexists. split; [vm_compute; reflexivity | done]. Qed.
