(* ===== verification/SolverSpec.v ===== *)
(** * The solver as a formula

    [Holds F st]: the solver [st] at level 0 stands for the formula [F].
    [solveLimited] with a conflict budget ends, answers right with respect to
    [F] and the assumptions, and leaves a solver that stands for [F] again. *)
From Stdlib Require Import SpecFloat.
From S2P Require Import Prelude Lit UnitProp Vec Heap Alloc Double DoubleSpec Clause Solver Propagate.
From S2P Require Import PropCheck Setup SetupSpec Reasons Analyze AnalyzeSpec RandomSpec Reduce BranchSpec.
From S2P Require Import GarbageSpec SearchInv ReduceSpec SimplifySpec SolverInv CDCL ConflictSpec CDCLSpec RestartSpec.

#[local] Opaque d_const d_add d_mul d_div d_ltb d_leb f_of_d d_of_Z.

(** ** Between two calls *)

Record Idle (F : formula) (st : Solver) : Prop := {
  id_inv : SInv F (qhead (core st)) st;
  id_level : trail_lim (core st) = [] }.

(** Without a contradiction found so far, or with one. *)
Definition Holds (F : formula) (st : Solver) : Prop :=
  if ok st then Idle F st else ∀ σ, ¬ models σ F.

(** Assumptions do not matter at level 0. *)
Lemma rinv_level0 assumps assumps' s : trail_lim s = [] → RInv assumps s → RInv assumps' s.
Proof.
  intros E [R1 R2 R3 R4 R5]. split; try done; rewrite E.
  - intros i t k _ _ Hk. done.
  - intros k a _ Hk. simpl in Hk. lia.
Qed.

Lemma idle_assume F st assumps : Idle F st → Forall (lit_ok (nv (core st))) assumps →
  Idle F (st <| assumptions := assumps |>).
Proof.
  intros [H E] Ha. split; [| done]. destruct H as [[I R D So C A] B S0 S1 Cf O W N Re P As L].
  split; try done.
  - split; try done. by apply (rinv_level0 (assumptions st)).
  - split; unfold decisionLevel; simpl; rewrite E; [| simpl; lia]. intros k m Hk. done.
Qed.

(** The assignment of a model list. *)
Definition model_of (m : list lbool) (v : Z) : bool := lb_eqb (zget inhabitant m v) l_True.

(** ** The model *)

Section Model.
Context (F : formula) (st : Solver).
Hypothesis H : SInv F (length (trail (core st))) st.
Hypothesis Hall : complete st.

Definition full_model : list lbool := (λ v, value_var (core st) (Z.of_nat v)) <$> seq 0 (Z.to_nat (nVars st)).

Lemma model_true l : l ∈ trail (core st) → lit_true (model_of full_model) l = true.
Proof using H.
  intros Hl. pose proof (tr_range _ _ _ (si_trail _ _ _ H) l Hl) as Hr. unfold lit_ok in Hr.
  assert (zget inhabitant full_model (var l) = value_var (core st) (var l)) as E.
  { unfold full_model, zget. destruct (Z.ltb_spec (var l) 0); [lia |].
    rewrite list_lookup_fmap, lookup_seq_lt by (rewrite (si_next _ _ _ H); lia). simpl. by rewrite Z2Nat.id by lia. }
  unfold lit_true, model_of. rewrite E.
  pose proof (zget_valid _ _ _ (si_trail _ _ _ H) (var l)) as Hv. fold (value_var (core st) (var l)) in Hv.
  rewrite lb_eqb_abs by done.
  pose proof (proj2 (value_true _ (si_trail _ _ _ H) l Hr) Hl) as Ht. unfold value in Ht.
  rewrite lb_xor_abs in Ht by done. destruct (lb_abs (value_var (core st) (var l))) as [b |] eqn:Eb; [| done].
  simpl in Ht. injection Ht as Ht. change (lb_abs l_True) with (Some true).
  destruct (sign l), b; simpl in Ht; try done; by rewrite ?bool_decide_eq_true_2, ?bool_decide_eq_false_2.
Qed.

Lemma model_false l : l ∉ trail (core st) → lit_ok (nv (core st)) l → lit_neg l ∈ trail (core st).
Proof using Hall.
  intros Hn Hok. destruct Hall as [Hv _]. apply Hv in Hok as (p & E & Hp)%list_elem_of_fmap.
  apply same_var in E as [-> | ->]; [done |]. by rewrite lit_neg_involutive.
Qed.

(** A complete assignment at a fixpoint is a model of the formula. *)
Lemma model_spec : models (model_of full_model) F ∧ ∀ a, a ∈ assumptions st → lit_true (model_of full_model) a = true.
Proof using H Hall.
  split; [| intros a Ha; by apply model_true, Hall].
  pose proof (si_cinv _ _ _ H) as C. pose proof (si_inv _ _ _ H) as I. apply (ci_complete _ _ _ _ _ _ C).
  - intros ls (cr & c & _ & Hl & <-).
    destruct (fixpoint_clauses (core st) I (c_lits c)) as [(t & Ht & Hin) | (a & b & Ha & _ & _ & Hna & _)]; [by exists cr, c | |].
    + exists t. split; [done |]. by apply model_true.
    + exists a. split; [done |]. apply model_true. destruct (decide (a ∈ trail (core st))) as [| Hn]; [done |].
      destruct Hna. apply model_false; [done |]. by apply (cl_range _ _ (inv_cls _ _ I) cr c).
  - intros l (i & Hi & _). by apply model_true; eapply list_elem_of_lookup_2.
Qed.
End Model.

(** ** The restarts *)

Lemma within_budget st : 0 <= conflict_budget st → withinBudget st = true → confls st < conflict_budget st.
Proof.
  intros H0 Hb. unfold withinBudget in Hb. apply andb_true_iff in Hb as [[_ Hb]%andb_true_iff _].
  destruct (Z.ltb_spec (conflict_budget st) 0); [lia |]. simpl in Hb. apply Z.ltb_lt in Hb.
  pose proof (Z.mod_le (conflict_budget st) (2 ^ 64) ltac:(lia) ltac:(lia)). unfold u64, confls in *. lia.
Qed.

(** The rounds of a search with at most [n] conflicts before its limit. *)
Definition search_rounds (st : Solver) (n : Z) : Z :=
  n * round_cost st + nv (core st) * (Z.of_nat (length (assumptions st)) + 2).

Section Restarts.
Context (F : formula) (st1 : Solver) (fuel : nat).

#[local] Abbreviation A := (Z.of_nat (length (assumptions st1))).
#[local] Abbreviation N := (nv (core st1)).
#[local] Abbreviation budget := (conflict_budget st1).
#[local] Abbreviation G := (budget + A + N + 1).

Hypothesis HK0 : 0 <= confls st1.
Hypothesis Hbudget : confls st1 <= budget < confls st1 + 2 ^ 24.
Hypothesis HG : G < 2 ^ 64.
Hypothesis Hparams : params st1 = default_params.
Hypothesis Hfuel : search_rounds st1 (budget - confls st1 + 100) < 2 ^ Z.of_nat fuel.

Record Restarting (x : Solver * Z) : Prop := {
  re_inv : SInv F (qhead (core x.1)) x.1;
  re_level : trail_lim (core x.1) = [];
  re_ok : ok x.1 = true;
  re_kept : Kept st1 x.1;
  re_number : 0 <= x.2 ∧ 100 * x.2 <= confls x.1 - confls st1;
  re_count : confls x.1 = confls st1 ∨ confls x.1 < budget;
  re_reserve : Reserve G st1 x.1 }.

Record Solved (r : Solver * lbool) : Prop := {
  sd_answer : Answer F (conflict st1) r.1 r.2;
  sd_kept : Kept (st1 <| conflict := conflict r.1 |>) r.1;
  sd_reserve : Reserve G st1 r.1;
  sd_budget : r.2 = l_Undef → withinBudget r.1 = false }.

Lemma solve_step_spec x : Restarting x → ∃ r, solve_step fuel x = Some r ∧
  match r with
  | inl x' => Restarting x' ∧ (Z.to_nat (budget - confls x'.1) < Z.to_nat (budget - confls x.1))%nat
  | inr b => Solved b
  end.
Proof using HK0 Hbudget HG Hparams Hfuel.
  intros R. destruct x as [st x]. pose proof R as [R1 R2 R3 R4 [R5 R5'] R6 R7]. simpl in *. unfold solve_step.
  assert (x < 2 ^ 24) as Hx by (destruct R6; lia).
  destruct (restart_limit_spec st x) as (e & -> & _ & He); [by rewrite (kp_params _ _ R4) | lia |].
  cbn [mbind option_bind]. set (nof := 100 * 2 ^ e) in *.
  assert (nof <= budget - confls st1 + 100) as Hnof by (destruct R6; lia).
  assert (Z.of_nat (length (assumptions st)) = A) as EA by (by rewrite (kp_assumps _ _ R4)).
  assert (nv (core st) = N) as EN by apply (kp_nv _ _ R4).
  assert (0 <= N) as HN by (unfold nv; lia).
  destruct R7 as [C1 C2 C3].
  assert (0 <= confls st) as HK by lia.
  destruct (search_spec F G nof st HK HG ltac:(lia) fuel R1 R3 R2) as (st' & status & E & [An K' [D1 D2 D3] Hl]).
  { split; [unfold confls in *; lia | by rewrite EN | done]. }
  { unfold conflicts_left, left_of. rewrite EA, EN. pose proof (kp_budget _ _ R4) as Eb. injection Eb as -> _ _.
    assert (dlevel st = 0) as -> by (unfold dlevel, decisionLevel; by rewrite R2).
    destruct (Z.ltb_spec budget 0); [lia |].
    destruct (Z.ltb_spec 0 (Z.min (nof - 0) (budget - confls st))); destruct R6; lia. }
  { eapply Z.le_lt_trans; [| exact Hfuel]. unfold search_rounds, round_cost. rewrite EA, EN.
    apply Z.add_le_mono_r, Z.mul_le_mono_nonneg_r; [| done]. nia. }
  rewrite E. cbn [mbind option_bind]. simpl in An, K', D1, D2, D3, Hl.
  assert (Kept (st1 <| conflict := conflict st' |>) st') as K1.
  { destruct R4, K'. split; simpl in *; congruence. }
  assert (Reserve G st1 st') as Rs by (split; [lia | by rewrite EN in D2 | done]).
  assert (Solved (st', status) ∨ (status = l_Undef ∧ withinBudget st' = true)) as [Hs | [-> Hw]].
  { destruct (withinBudget st') eqn:Ew; [| left; split; try done; by rewrite (kp_conflict _ _ R4) in An].
    inversion An; subst; [left | left | left | by right]; (split; try done; by rewrite (kp_conflict _ _ R4) in An). }
  - destruct (negb (withinBudget st') || lb_neb status l_Undef) eqn:Ec.
    + eexists. by split.
    + exfalso. apply orb_false_iff in Ec as [Ew%negb_false_iff Es].
      pose proof (sd_budget _ Hs) as Hb. simpl in Hb. inversion An; subst; try done.
      rewrite Hb in Ew; done.
  - rewrite Hw. cbn [negb orb]. change (lb_neb l_Undef l_Undef) with false. eexists. split; [done |].
    specialize (Hl eq_refl Hw).
    inversion An as [| | | H' E0 Ecf]; subst; [].
    assert (Kept st st') as Kst.
    { destruct K'. split; simpl in *; congruence. }
    assert (conflict_budget st' = budget) as Eb.
    { pose proof (kp_budget _ _ K1) as Eb. by injection Eb. }
    pose proof (within_budget st' ltac:(lia) Hw) as Hlt. rewrite Eb in Hlt.
    split; [| simpl; apply Z2Nat.inj_lt; lia].
    split; simpl; try done; [by rewrite (kp_ok _ _ Kst) | by etrans | lia | by right].
Qed.

Lemma restarts_spec rfuel st : Restarting (st, 0) → budget - confls st < 2 ^ Z.of_nat rfuel →
  ∃ r, iter2 (solve_step fuel) rfuel (st, 0) = Some (inr r) ∧ Solved r.
Proof using HK0 Hbudget HG Hparams Hfuel.
  intros R Hf. apply (iter2_spec (solve_step fuel) Restarting Solved (λ x, Z.to_nat (budget - confls x.1)) solve_step_spec);
    [done |].
  simpl. assert (Z.of_nat (2 ^ rfuel) = 2 ^ Z.of_nat rfuel) as E2 by (by rewrite Nat2Z.inj_pow).
  pose proof (Nat.pow_nonzero 2 rfuel). lia.
Qed.
End Restarts.

(** ** [solveLimited] *)

(** Room for [n] conflicts: the budget, the arena and the counters. *)
Record Affords (st : Solver) (assumps : list Lit) (n : Z) : Prop := {
  ff_params : params st = default_params;
  ff_assumps : Forall (lit_ok (nv (core st))) assumps;
  ff_budget : conflict_budget st = confls st + n;
  ff_small : 0 <= n < 2 ^ 24;
  ff_count : 0 <= confls st < 2 ^ 63;
  ff_room : room st + (n + Z.of_nat (length assumps) + nv (core st) + 1) * (nv (core st) + 2) <= max_capacity }.

(** What an answer says. *)
Definition Outcome (F : formula) (assumps : list Lit) (st' : Solver) (status : lbool) : Prop :=
  (status = l_True ∧ models (model_of (model st')) F ∧
     (∀ a, a ∈ assumps → lit_true (model_of (model st')) a = true) ∧ Z.of_nat (length (model st')) = nv (core st')) ∨
  (status = l_False ∧ if ok st' then explains F assumps (conflict st') else ∀ σ, ¬ models σ F) ∨
  (status = l_Undef ∧ withinBudget st' = false).

Lemma start_spec F st : SInv F (qhead (core st)) st → params st = default_params →
  ∃ st1, solve_start st = Some st1 ∧ SInv F (qhead (core st)) st1 ∧ core st1 = core st ∧ Kept st st1 ∧
    confls st1 = confls st ∧ learntsize_adjust_confl st1 = d_of_Z 100 ∧ learntsize_adjust_cnt st1 = 100.
Proof.
  intros H Hp. unfold solve_start. rewrite Hp. cbn [learntsize_adjust_start_confl default_params].
  rewrite d_to_int_Z by done. cbn [mbind option_bind]. eexists. split; [done |]. split; [| by split].
  apply (sinv_same F _ st H); try done. apply (si_act _ _ _ H).
Qed.

Lemma room_nonneg F q st : SInv F q st → 0 <= room st.
Proof.
  intros H. apply (region_range (a_region (ca (core st)))), (db_arena _ _ (ci_db _ _ _ _ _ _ (si_cinv _ _ _ H))).
Qed.

(** The end of [solve_]: the model, the contradiction, and level 0. *)
Lemma end_spec F cf st status : ok st = true → IntMap.set_size cf = 0 → Answer F cf st status →
  (status = l_Undef → withinBudget st = false) →
  let st' := solve_end st status in
  Holds F st' ∧ Outcome F (assumptions st) st' status ∧ quiet (st <| ok := ok st' |>) st'.
Proof.
  intros Hok Hcf Ha Hu. unfold solve_end.
  assert (∀ st2, core st2 = core st → conflict st2 = conflict st → stats st2 = stats st → params st2 = params st →
    assumptions st2 = assumptions st → adjust_of st2 = adjust_of st →
    (conflict_budget st2, propagation_budget st2, asynch_interrupt st2) =
      (conflict_budget st, propagation_budget st, asynch_interrupt st) →
    quiet st2 (cancelUntil st2 0) → quiet (st <| ok := ok (cancelUntil st2 0) |>) (cancelUntil st2 0)) as Hquiet.
  { intros st2 E1 E2 E3 E4 E5 E6 E7 [([K1 K2 K3 K4 K5 K6] & Kc & Ka) Kr].
    split; [split; [split; simpl |] |]; try congruence.
    - split; [by rewrite Kc, E3 | by rewrite Ka, E6].
    - unfold room in *. by rewrite E1 in Kr. }
  destruct Ha as [H Hq Hc | q H H0 Ecf Hn | H Hq Hx | H H0 Ecf].
  - change (lb_eqb l_True l_True) with true. cbv iota. fold (full_model st).
    set (st2 := st <| model := full_model st |>).
    assert (SInv F (length (trail (core st2))) st2) as H2 by (apply (sinv_same F _ st H); try done; apply (si_act _ _ _ H)).
    destruct (sinv_cancel0 F st2 H2 Hq) as [H3 E3]. pose proof (cancel_quiet F _ st2 0 H2) as Q.
    pose proof (Hquiet st2 eq_refl eq_refl eq_refl eq_refl eq_refl eq_refl eq_refl Q) as Q'.
    assert (model (cancelUntil st2 0) = full_model st) as Em by (by rewrite cancel_fields).
    destruct (proj1 (proj1 Q)) as [K1 K2 K3 K4 K5 K6].
    split; [| split; [| done]].
    + unfold Holds. rewrite K3. change (ok st2) with (ok st). rewrite Hok. by split.
    + left. rewrite Em, K6. change (nv (core st2)) with (nv (core st)). destruct (model_spec F st H Hc) as [M1 M2].
      split; [done |]. split; [done |]. split; [done |]. unfold full_model.
      rewrite length_fmap, length_seq, (si_next _ _ _ H). unfold nv. lia.
  - change (lb_eqb l_False l_True) with false. change (lb_eqb l_False l_False) with true. cbv iota.
    rewrite Ecf, Hcf. cbn [Z.eqb andb]. set (st2 := st <| ok := false |>).
    assert (SInv F q st2) as H2 by (apply (sinv_same F _ st H); try done; apply (si_act _ _ _ H)).
    pose proof (cancel_quiet F _ st2 0 H2) as Q.
    pose proof (Hquiet st2 eq_refl eq_refl eq_refl eq_refl eq_refl eq_refl eq_refl Q) as Q'.
    destruct (proj1 (proj1 Q)) as [K1 K2 K3 K4 K5 K6].
    split; [| split; [| done]].
    + unfold Holds. rewrite K3. done.
    + right. left. split; [done |]. by rewrite K3.
  - change (lb_eqb l_False l_True) with false. change (lb_eqb l_False l_False) with true. cbv iota.
    destruct (Z.eqb_spec (IntMap.set_size (conflict st)) 0) as [Ez | _].
    { exfalso. apply (proj1 Hx). unfold IntMap.set_size in Ez. apply nil_length_inv. lia. }
    cbn [andb]. destruct (sinv_cancel0 F st H Hq) as [H3 E3]. pose proof (cancel_quiet F _ st 0 H) as Q.
    pose proof (Hquiet st eq_refl eq_refl eq_refl eq_refl eq_refl eq_refl eq_refl Q) as Q'.
    destruct (proj1 (proj1 Q)) as [K1 K2 K3 K4 K5 K6].
    split; [| split; [| done]].
    + unfold Holds. rewrite K3, Hok. by split.
    + right. left. split; [done |]. rewrite K3, Hok, K4. exact Hx.
  - change (lb_eqb l_Undef l_True) with false. change (lb_eqb l_Undef l_False) with false. cbn [andb].
    assert (cancelUntil st 0 = st) as -> by (unfold cancelUntil, decisionLevel; by rewrite H0).
    split; [| split].
    + unfold Holds. rewrite Hok. by split.
    + right. right. auto.
    + split; [| done]. split; [by split | done].
Qed.

(** [solveLimited] with room for [n] conflicts: it ends, its answer is right,
    and the solver stands for the same formula. *)
Lemma solveLimited_spec F st assumps n fuel search_fuel : Holds F st → Affords st assumps n →
  n < 2 ^ Z.of_nat fuel → search_rounds (st <| assumptions := assumps |>) (n + 100) < 2 ^ Z.of_nat search_fuel →
  ∃ st' status, solveLimited fuel search_fuel st assumps = Some (st', status) ∧
    Outcome F assumps st' status ∧ Holds F st' ∧ params st' = params st ∧ nv (core st') = nv (core st) ∧
    confls st <= confls st' ∧ (conflict_budget st', propagation_budget st', asynch_interrupt st') =
      (conflict_budget st, propagation_budget st, asynch_interrupt st) ∧ room st' <= max_capacity.
Proof.
  intros HF [P1 P2 P3 P4 P5 P6] Hf Hsf. unfold solveLimited, solve_.
  set (st0 := st <| assumptions := assumps |> <| model := [] |> <| conflict := _ |>).
  change (ok st0) with (ok st). unfold Holds in HF. destruct (ok st) eqn:Eok; cbn [negb].
  2:{ exists st0, l_False. split; [done |]. unfold Holds, Outcome. change (ok st0) with (ok st). rewrite Eok.
      split; [right; left; done |]. split; [done |]. split; [done |]. split; [done |].
      change (confls st0) with (confls st). change (room st0) with (room st).
      assert (0 <= nv (core st)) by (unfold nv; lia). split; [done |]. split; [done |]. nia. }
  assert (SInv F (qhead (core st)) st0 ∧ trail_lim (core st0) = []) as [H0 E0].
  { destruct (idle_assume F st assumps HF P2) as [[C A S0 S1 Cf O W N R P As L] E]. split; [| exact E].
    split; try done. by apply IntMap.set_clear_wf. }
  destruct (start_spec F st0 H0 P1) as (st1 & -> & H1 & Ec & K1 & Ek & Ead1 & Ead2). cbn [mbind option_bind].
  assert (nv (core st1) = nv (core st)) as EN by (by rewrite Ec).
  assert (conflict_budget st1 = confls st + n) as Eb.
  { pose proof (kp_budget _ _ K1) as Eb. injection Eb as -> _ _. exact P3. }
  assert (assumptions st1 = assumps) as Eas by apply K1.
  change (confls st0) with (confls st) in Ek.
  pose proof (room_nonneg F _ st0 H0) as Hr0. change (room st0) with (room st) in Hr0.
  assert (0 <= nv (core st)) as HN by (unfold nv; lia). assert (max_capacity < 2 ^ 32) as Hmax by done.
  set (A := Z.of_nat (length assumps)) in *. assert (0 <= A) as HA by lia.
  assert (n + A + nv (core st) + 1 < 2 ^ 32) as Hsmall by nia.
  set (G := conflict_budget st1 + Z.of_nat (length (assumptions st1)) + nv (core st1) + 1).
  assert (G - confls st1 = n + A + nv (core st) + 1) as EG.
  { unfold G. rewrite Eb, Eas, EN, Ek. fold A. lia. }
  assert (Reserve G st1 st1) as Rs.
  { split; [lia | rewrite EG, EN; unfold room in *; by rewrite Ec |].
    destruct adjust_total_default as (t & Et & Ht). rewrite <- Ead1 in Et.
    apply (adjust_ok_total _ 41 t); [| exact Et | by rewrite Ead2 | rewrite Ead2, EG; lia].
    rewrite (kp_params _ _ K1). change (params st0) with (params st). by rewrite P1. }
  destruct (restarts_spec F st1 search_fuel) with (rfuel := fuel) (st := st1) as ([st2 status] & -> & [An K2 R2 Hu]).
  - lia.
  - lia.
  - fold G. lia.
  - rewrite (kp_params _ _ K1). exact P1.
  - eapply Z.le_lt_trans; [| exact Hsf]. unfold search_rounds, round_cost.
    change (assumptions (st <| assumptions := assumps |>)) with assumps.
    change (core (st <| assumptions := assumps |>)) with (core st). rewrite Eb, Ek, EN, Eas.
    apply Z.eq_le_incl. do 2 f_equal. lia.
  - split; simpl; [by rewrite Ec | by rewrite Ec | by rewrite (kp_ok _ _ K1) | done | lia | by left | exact Rs].
  - lia.
  - simpl in An, K2, R2, Hu. cbn [mbind option_bind]. eexists _, _. split; [done |].
    assert (conflict st1 = conflict st0) as Ecf by apply K1.
    destruct (end_spec F (conflict st1) st2 status) as (Hh & Ho & Q).
    + rewrite (kp_ok _ _ K2). simpl. by rewrite (kp_ok _ _ K1).
    + by rewrite Ecf.
    + done.
    + done.
    + pose proof (proj1 (proj1 Q)) as K3. destruct K2 as [A1 A2 A3 A4 A5 A6]. simpl in A1, A2, A5, A6.
      rewrite A1, Eas in Ho. split; [done |]. split; [done |]. split; [| split; [| split; [| split]]].
      * rewrite (kp_params _ _ K3). simpl. rewrite A2. apply K1.
      * rewrite (kp_nv _ _ K3). simpl. by rewrite A6.
      * unfold confls. rewrite (proj1 (proj2 (proj1 Q))). simpl. pose proof (rs_count _ _ _ R2). unfold confls in *. lia.
      * rewrite (kp_budget _ _ K3). simpl. rewrite A5. apply K1.
      * etrans; [apply (proj2 Q) |]. change (room (st2 <| ok := _ |>)) with (room st2).
        pose proof (rs_room _ _ _ R2) as Hrm. pose proof (rs_count _ _ _ R2).
        assert (0 <= (G - confls st2) * (nv (core st1) + 2)); [| lia]. apply Z.mul_nonneg_nonneg; lia.
Qed.
