(* ===== verification/BuildSpec.v ===== *)
(** * Building a solver that stands for a formula

    [Stands F st]: a solver without learnt clauses at a propagation fixpoint of
    level 0, the clauses of which are equivalent to [F].  A new solver stands
    for the empty formula, [newVar] changes nothing and [addClause] adds its
    clause; what it stands for is what [solveLimited] decides. *)
From Stdlib Require Import SpecFloat.
From S2P Require Import Prelude Lit Sort UnitProp Vec Heap Alloc Double DoubleSpec Clause Solver Propagate.
From S2P Require Import PropCheck Setup SetupSpec Reasons Analyze AnalyzeSpec RandomSpec Reduce BranchSpec.
From S2P Require Import RelocSpec GarbageSpec SearchInv LearnSpec ReduceSpec SimplifySpec SolverInv CDCL ConflictSpec.
From S2P Require Import CDCLSpec RestartSpec SolverSpec.

#[local] Opaque d_const d_add d_mul d_div d_ltb d_leb f_of_d d_of_Z.

(** ** The formula of a state *)

Record Stands (F : formula) (st : Solver) : Prop := {
  st_ready : Ready st;
  st_ok : ok st = true;
  st_sinv : SInv F (length (trail (core st))) st;
  st_learnts : learnts st = [];
  st_assumps : assumptions st = [] }.

(** The clauses and the assigned literals. *)
Definition self (s : Core) : formula := λ c, db (mem s) c ∨ ∃ l, l ∈ trail s ∧ c = [l].

Lemma models_self σ s : models σ (self s) ↔ models σ (db (mem s)) ∧ models_lits σ (lit_on (trail s)).
Proof.
  split.
  - intros H. split; [intros c Hc; apply H; by left |]. intros l Hl.
    destruct (H [l]) as (k & ->%list_elem_of_singleton & Ht); [right; eauto | done].
  - intros [H1 H2] c [Hc | (l & Hl & ->)]; [by apply H1 |]. exists l. split; [by left | by apply H2].
Qed.

Lemma cinv_self q cs s : Inv q s → RInv [] s → DbInv s cs → acts_ok (mem s) → trail_lim s = [] →
  CInv (self s) [] q cs [] s.
Proof.
  intros I R D A E. split; try done; [by rewrite app_nil_r | |].
  - intros σ [H1 H2]%models_self. split; [done |]. intros l Hl. by apply H2, level0_all.
  - intros σ H1 H2. apply models_self. split; [| intros l Hl; by apply H2, level0_all].
    intros ls (cr & c & Hl & <-). apply H1. exists cr, c. split; [| done].
    apply (db_live _ _ D). by exists c.
Qed.

Lemma sinv_formula F F' q st : (∀ σ, models σ F ↔ models σ F') → SInv F q st → SInv F' q st.
Proof.
  intros E H. destruct H as [[I R D So C A] B S0 S1 Cf O W N Re P As L]. split; try done.
  split; try done.
  - intros σ Hσ. by apply So, E.
  - intros σ H1 H2. by apply E, C.
Qed.

(** Without learnt clauses the formula and the state have the same models. *)
Lemma sinv_self F q st σ : SInv F q st → learnts st = [] → trail_lim (core st) = [] →
  models σ F ↔ solver_models σ st.
Proof.
  intros H Hls E. pose proof (si_cinv _ _ _ H) as C. split.
  - intros Hσ. destruct (ci_sound _ _ _ _ _ _ C σ Hσ) as [H1 H2]. split; [done |].
    intros l Hl. by apply H2, level0_all.
  - intros [H1 H2]. apply (ci_complete _ _ _ _ _ _ C).
    + intros ls (cr & c & _ & Hl & <-). apply H1. by exists cr, c.
    + intros l Hl. by apply H2, level0_all.
Qed.

Lemma stands_models F st σ : Stands F st → models σ F ↔ solver_models σ st.
Proof. intros [R _ H Hl _]. apply (sinv_self F (length (trail (core st))) st); [exact H | done | apply R]. Qed.

Lemma stands_holds F st : Stands F st → Holds F st.
Proof.
  intros [R Hok H _ _]. unfold Holds. rewrite Hok. split; [| apply R]. by rewrite (proj2 (rd_stable _ R)).
Qed.

(** ** A new solver *)

Lemma new_region_wasted r : new_region (1024 * 1024) = Some r → r_wasted r = 0.
Proof.
  intros E. destruct (capacity_spec empty_region (1024 * 1024)) as (r' & E' & _ & _ & _ & Hw & _).
  - split; [left | simpl; lia].
  - unfold max_capacity. lia.
  - unfold new_region in E. rewrite E in E'. by injection E' as <-.
Qed.

Lemma new_solver_eq pa seed ps st : new_solver pa seed ps = Some st →
  ∃ r, st = init_solver r pa seed ps ∧ r_wasted r = 0 ∧ r_sz r = 0.
Proof.
  unfold new_solver. destruct new_region_total as (r & Er & _ & Hs).
  pose proof (new_region_wasted r Er). rewrite Er. clear Er. simpl. intros [= <-]. by exists r.
Qed.

Lemma new_solver_stands z ps st : 0 <= z < lcg_modulus → new_solver default_params (d_of_Z z) ps = Some st →
  Stands (λ _, False) st ∧ nv (core st) = 0 ∧ room st = 0 ∧ params st = default_params.
Proof.
  intros Hz E. destruct (new_solver_ready _ _ _ _ E) as (R & Hok & Hn & Ht & Hp & Hm & Hr).
  destruct (new_solver_eq _ _ _ _ E) as (r & -> & Hwst & Hs). clear E. simpl in Hn, Ht, Hp, Hm, Hr.
  split; [| split; [exact Hn | split; [exact Hs | exact Hp]]].
  clear Hn Ht Hp Hm Hr. refine (Build_Stands _ _ R Hok _ eq_refl eq_refl). clear Hok.
  assert (∀ (cr : CRef) c, mem (init_core r) !! cr = Some c → False) as Hno.
  { intros cr c Ec. change (mem (init_core r)) with (∅ : Mem) in Ec. by apply lookup_empty_Some in Ec. }
  assert (CInv (self (init_core r)) [] 0 [] [] (init_core r)) as C.
  { apply cinv_self; try done.
    - apply (proj1 (rd_stable _ R)).
    - split; simpl; try done.
      + apply NoDup_nil_2.
      + intros cr. rewrite elem_of_nil. split; [done |]. intros (c & [Ec _]); by apply Hno in Ec.
      + apply R.
      + rewrite Hwst. done.
      + rewrite Hs, Hwst. done.
      + intros l Hl. unfold is_dirty in Hl. simpl in Hl. unfold zget in Hl. by destruct (_ <? 0). }
  assert (∀ σ, models σ (self (init_core r)) ↔ models σ (λ _, False)) as Hself.
  { intros σ. split; [by intros _ c [] |]. intros _ c [(cr & cx & [Ec _] & _) | (l & Hl & _)].
    - by apply Hno in Ec.
    - by apply elem_of_nil in Hl. }
  apply (sinv_formula (self (init_core r))); [exact Hself |].
  split.
  - exact C.
  - by apply d_of_Z_nonneg.
  - reflexivity.
  - intros x. unfold seen_at. simpl. unfold zget. by destruct (_ <? 0).
  - split; [apply NoDup_nil_2 |]. split; intros k Hk; simpl in *; [by apply elem_of_nil in Hk |].
    unfold IntMap.get, zget. split; [by destruct (_ <? 0) | intros Hx; by apply elem_of_nil in Hx].
  - split.
    + split; [apply NoDup_nil_2 | done |]. intros k _. simpl. unfold zget. by destruct (_ <? 0).
    + intros v Hv. by apply elem_of_nil in Hv.
    + reflexivity.
    + intros v Hv. unfold nv in Hv. simpl in Hv. lia.
    + by exists z.
  - intros v Hv. unfold nv in Hv. simpl in Hv. lia.
  - reflexivity.
  - reflexivity.
  - apply default_params_ok.
  - apply Forall_nil_2.
  - split; [done | unfold decisionLevel; simpl; lia].
Qed.

(** ** [newVar] *)

(** A key the index map may not have room for yet. *)
Lemma insert_keys_grow lt h k : idx_ok (heap h) (indices h) → k ∉ heap h → 0 <= k →
  let h' := Heap.insert lt h k in
  idx_ok (heap h') (indices h') ∧ heap h' ≡ₚ k :: heap h ∧
  Z.of_nat (length (indices h')) = Z.max (Z.of_nat (length (indices h))) (k + 1).
Proof.
  intros Hok Hk Hr. pose proof (insert_idx_ok h k Hok Hk Hr) as H. unfold Heap.insert.
  destruct (percolateUp_keys lt (MkHeap (heap h ++ [k])
    (zset (IntMap.reserve id (indices h) k (-1)) k (Z.of_nat (length (heap h))))) (length (heap h)))
    as (H1 & H2 & H3); simpl in *.
  - rewrite length_app. simpl. lia.
  - by apply idx_ok_hole.
  - split; [done |]. split; [rewrite H2; solve_Permutation |].
    rewrite H3, length_zset. unfold IntMap.reserve. rewrite IntMap.length_grow_to. unfold id. lia.
Qed.

Lemma ordok_new n o act pol up : OrdOk n o → 0 <= n →
  let o' := o <| activity := act |> <| polarity := pol |> <| user_pol := up |>
              <| decision := IntMap.reserve id (decision o) n false |> in
  OrdOk (n + 1) (setDecisionVar o' n true) ∧ ∀ v, v ∈ keys (setDecisionVar o' n true) ↔ v = n ∨ v ∈ keys o.
Proof.
  intros [H1 H2 H3 H4 H5] Hn o'. unfold setDecisionVar, insertVarOrder. simpl.
  assert (n ∉ heap (order_heap o)) as Hni by (intros Hin; apply H2 in Hin; lia).
  assert (inHeap (order_heap o) n = false) as ->.
  { apply not_true_iff_false. by rewrite (inHeap_elem _ _ H1). }
  assert (∀ u, zget false (zset (IntMap.reserve id (decision o) n false) n true) u =
    if decide (n = u) then true else zget false (decision o) u) as Hd.
  { intros u. rewrite zget_zset by (unfold IntMap.reserve, id; rewrite IntMap.length_grow_to; lia).
    case_decide; [done |]. unfold IntMap.reserve. rewrite IntMap.zget_grow_to. case_decide as Hu; [| done].
    unfold zget. destruct (u <? 0); [done |]. by rewrite lookup_ge_None_2 by lia. }
  rewrite Hd, decide_True by done. cbn [negb andb]. rewrite ?Hd, ?decide_True by done.
  destruct (insert_keys_grow (VarOrderLt act) (order_heap o) n H1 Hni Hn) as (K1 & K2 & K3).
  assert (∀ v, v ∈ heap (Heap.insert (VarOrderLt act) (order_heap o) n) ↔ v = n ∨ v ∈ heap (order_heap o)) as Hk.
  { intros v. by rewrite K2, elem_of_cons. }
  split; [| exact Hk]. split; simpl; try done.
  - intros v [-> | Hv%H2]%Hk; lia.
  - lia.
  - intros v Hv. rewrite Hd. case_decide; [done |]. apply H4. lia.
Qed.

Lemma newVar_stands F st upol st' v : Stands F st → rnd_init_act (params st) = false →
  newVar st upol true = Some (st', v) →
  Stands F st' ∧ v = nv (core st) ∧ nv (core st') = nv (core st) + 1 ∧ room st' = room st ∧ params st' = params st.
Proof.
  intros [R Hok H Hls Has] Hrnd E.
  destruct (newVar_spec st upol true st' v (ready_base _ R) E) as (-> & _ & R' & En & Ek & Ep & Et & Eca).
  specialize (R' R). pose proof (si_next _ _ _ H) as Hnx.
  unfold newVar, fresh_var in E. rewrite (rd_free _ R) in E. cbn [last mbind option_bind] in E.
  unfold init_activity in E. change (params (st <| next_var := _ |>)) with (params st) in E.
  rewrite Hrnd in E. cbn [mbind option_bind] in E. unfold nVars in Hnx. rewrite Hnx in E.
  destruct (Vec.capacity _ _) as [t |]; [| done]. simpl in E.
  destruct (newVar_core_inv _ _ (si_inv _ _ _ H)) as (I' & _ & _ & El & Eq & _).
  pose proof (si_cinv _ _ _ H) as [I Rv D So C A].
  assert (0 <= nv (core st)) as Hnv by (unfold nv; lia).
  destruct (ordok_new (nv (core st)) (order st) (vmap_insert (activity (order st)) (nv (core st)) (d_of_Z 0) inhabitant)
    (vmap_insert (polarity (order st)) (nv (core st)) true false)
    (vmap_insert (user_pol (order st)) (nv (core st)) upol inhabitant) (si_order _ _ _ H) Hnv) as [O' Ko].
  set (o' := setDecisionVar _ _ true) in *. injection E as E.
  assert (core st' = newVar_core (core st) (nv (core st))) as Ec by (by rewrite <- E).
  assert (order st' = o' ∧ seen st' = vmap_insert (seen st) (nv (core st)) 0 0) as [Eo Es] by (by rewrite <- E).
  assert (assumptions st' = assumptions st ∧ clauses st' = clauses st ∧ learnts st' = learnts st ∧
    cla_inc st' = cla_inc st ∧ conflict st' = conflict st ∧ released_vars st' = released_vars st ∧
    next_var st' = nv (core st) + 1) as (E1 & E2 & E3 & E4 & E5 & E6 & E7) by (by rewrite <- E).
  clear E. split; [| split; [done | split; [done | split; [unfold room; by rewrite Eca | done]]]].
  assert (∀ l, level0 (core st') l ↔ level0 (core st) l) as H0 by (intros l; unfold level0; by rewrite Et, Ec, El).
  assert (watches (core st') = MkOcc (occs (watches (core st)) ++ [[]; []]) (dirty (watches (core st)) ++ [0; 0])
    (dirties (watches (core st)))) as Ew.
  { rewrite Ec. apply (occ_init_var _ _ (length (assigns (core st)))); [done | apply I | apply I]. }
  split; [done | congruence | | congruence | congruence].
  rewrite Et. split; unfold seen_size, seen_at, nVars; rewrite ?E1, ?E2, ?E3, ?E4, ?E5, ?E6, ?E7, ?Eo, ?Es, ?En, ?Ep;
    try (by apply H).
  - split; [rewrite Ec; exact I' | | | | |].
    + rewrite Ec. destruct Rv as [R1 R2 R3 R4 R5].
      assert (∀ u, u ∈ trail (core st) → zget inhabitant (vardata (newVar_core (core st) (nv (core st)))) (var u) =
        zget inhabitant (vardata (core st)) (var u)) as Hvd.
      { intros u Ht. pose proof (tr_range _ _ _ (si_trail _ _ _ H) u Ht) as Hr. unfold lit_ok in Hr. simpl.
        unfold vmap_insert, IntMap.insert, IntMap.set, IntMap.reserve, id.
        rewrite insert_next by (unfold nv; by rewrite R1). rewrite zget_app_l; [done |]. rewrite R1. unfold nv in Hr. lia. }
      split; unfold level, reason.
      * simpl. unfold vmap_insert, IntMap.insert, IntMap.set, IntMap.reserve, id.
        rewrite !insert_next by (unfold nv; by rewrite ?R1). rewrite !length_app. simpl. lia.
      * intros i u Hi. rewrite Hvd by (by eapply list_elem_of_lookup_2). by apply R2.
      * intros i u Hi. rewrite Hvd by (by eapply list_elem_of_lookup_2). by apply R3.
      * intros i u k Hi. rewrite Hvd by (by eapply list_elem_of_lookup_2). by apply R4.
      * intros k a Ha. by apply R5.
    + eapply dbinv_like; [exact D | | by rewrite Eca | by rewrite Eca | |].
      * unfold mem. rewrite Eca. intros cr. destruct (a_mem (ca (core st)) !! cr); constructor. by repeat split.
      * intros l. rewrite Ew. unfold is_dirty.
        simpl. destruct (Z.ltb_spec (lit_x l) (Z.of_nat (length (dirty (watches (core st)))))) as [Hlt | Hge].
        -- by rewrite zget_app_l.
        -- rewrite zget_app_r by done. unfold zget. destruct (_ <? 0); [done |].
           destruct (Z.to_nat _) as [| [| n]]; done.
      * by rewrite Ew.
    + intros σ Hσ. destruct (So σ Hσ) as [S1 S2]. unfold Sat, mem. rewrite Eca. split; [done |].
      intros l Hl. by apply S2, H0.
    + intros σ Q1 Q2. apply C; [unfold mem in *; by rewrite Eca in Q1 |]. intros l Hl. by apply Q2, H0.
    + unfold mem. by rewrite Eca.
  - unfold vmap_insert, IntMap.insert, IntMap.set, IntMap.reserve, id. rewrite length_zset, IntMap.length_grow_to.
    pose proof (si_size _ _ _ H) as Hs. unfold seen_size in Hs. unfold nv in En. unfold nv. lia.
  - intros x. unfold vmap_insert, IntMap.insert, IntMap.set, IntMap.reserve, id.
    rewrite zget_zset by (rewrite IntMap.length_grow_to; lia). case_decide; [done |].
    rewrite IntMap.zget_grow_to. case_decide; [done |]. apply (si_seen _ _ _ H).
  - done.
  - intros u Hu Hn. rewrite Et in Hn. rewrite En in Hu. apply Ko. destruct (decide (u = nv (core st))); [by left | right].
    apply (si_waiting _ _ _ H); [lia | done].
  - done.
  - rewrite Has. apply Forall_nil_2.
  - destruct (si_levels _ _ _ H) as [L1 L2]. unfold decisionLevel in *.
    split; unfold decisionLevel; rewrite ?Et, Ec, El; done.
Qed.

(** ** [addClause] *)

(** The parts of the invariant without the formula. *)
Lemma sinv_rebuild F st st' : Stands F st → Inv (length (trail (core st'))) (core st') → RInv [] (core st') →
  DbInv (core st') (clauses st') → acts_ok (mem (core st')) → trail_lim (core st') = [] →
  (∀ l, l ∈ trail (core st) → l ∈ trail (core st')) → nv (core st') = nv (core st) →
  learnts st' = [] → assumptions st' = [] → order st' = order st → cla_inc st' = cla_inc st → seen st' = seen st →
  conflict st' = conflict st → nVars st' = nVars st → released_vars st' = released_vars st → params st' = params st →
  SInv (self (core st')) (length (trail (core st'))) st'.
Proof.
  intros [_ _ H _ _] I R D A E Ht En E1 E2 E3 E4 E5 E6 E7 E8 E9.
  split; unfold seen_size, seen_at; rewrite ?E1, ?E2, ?E3, ?E4, ?E5, ?E6, ?E7, ?E8, ?E9, ?En; try by apply H.
  - by apply cinv_self.
  - pose proof (si_size _ _ _ H) as Hs. unfold seen_size in Hs. unfold nv in En. lia.
  - intros v Hv Hn. apply (si_waiting _ _ _ H); [by rewrite <- En |]. intros Hin. apply Hn.
    apply list_elem_of_fmap in Hin as (p & -> & Hp). apply list_elem_of_fmap. eauto.
  - apply Forall_nil_2.
  - split; unfold decisionLevel; rewrite E; [done | simpl; lia].
Qed.

Lemma stands_rinv F st : Stands F st → RInv [] (core st).
Proof. intros [_ _ H _ E]. rewrite <- E. apply (si_rinv _ _ _ H). Qed.

Lemma stands_db F st : Stands F st → DbInv (core st) (clauses st).
Proof. intros [_ _ H E _]. pose proof (ci_db _ _ _ _ _ _ (si_cinv _ _ _ H)) as D. by rewrite E, app_nil_r in D. Qed.

(** A literal enqueued at level 0. *)
Lemma unit_struct F st l st' : Stands F st → lit_ok (nv (core st)) l → l ∉ trail (core st) →
  lit_neg l ∉ trail (core st) → add_simplified st [l] = Some (st', true) →
  SInv (self (core st')) (length (trail (core st'))) st' ∧ learnts st' = [] ∧ assumptions st' = [].
Proof.
  intros St Hl H1 H2 E. pose proof St as [R Hok H Hls Has]. cbn [add_simplified] in E.
  set (st0 := st <| core := uncheckedEnqueue (core st) l CRef_Undef |>) in *.
  pose proof (rd_level _ R) as H0. pose proof (rd_stable _ R) as [_ Hq].
  assert (SInv (self (core st0)) (qhead (core st0)) st0) as Hs0.
  { assert (nv (core st0) = nv (core st)) as En by (unfold nv, st0; simpl; by rewrite length_zset).
    assert (CInv (self (core st0)) [] (length (trail (core st))) (clauses st) [] (core st0)) as C0.
    { apply cinv_self.
      - by apply inv_enqueue; [apply (si_inv _ _ _ H) | | |].
      - apply (rinv_decide [] (length (trail (core st)))); try done; [apply (si_inv _ _ _ H) | by eapply stands_rinv |].
        unfold decisionLevel. by rewrite H0.
      - destruct (stands_db _ _ St). by split.
      - apply (ci_acts _ _ _ _ _ _ (si_cinv _ _ _ H)).
      - done. }
    change (qhead (core st0)) with (qhead (core st)). rewrite Hq.
    split; unfold seen_size, seen_at; rewrite ?En; try by apply H.
    - change (CInv (self (core st0)) (assumptions st) (length (trail (core st))) (clauses st) (learnts st) (core st0)).
      by rewrite Hls, Has.
    - pose proof (si_size _ _ _ H) as Hs. unfold seen_size in Hs. unfold nv in En. change (seen st0) with (seen st). lia.
    - intros v Hv Hn. apply (si_waiting _ _ _ H); [by rewrite <- En |]. intros Hin. apply Hn. simpl.
      rewrite fmap_app. apply elem_of_app. by left.
    - split; unfold decisionLevel, st0; simpl; rewrite H0; [done | simpl; lia]. }
  destruct (sinv_propagate _ st0 Hs0) as (st1 & confl & Ep & Fr & X & Hq1 & Hr). rewrite Ep in E.
  cbn [mbind option_bind] in E. injection E as E Ec. apply Z.eqb_eq in Ec.
  destruct Hr as [[_ Hs1] | [Hc _]]; [| done].
  assert (core st' = core st1) as Ecore by (by rewrite <- E).
  assert (learnts st' = [] ∧ assumptions st' = []) as [E1 E2] by (rewrite <- E, (proj1 Fr); done).
  split; [| done]. rewrite Ecore.
  apply (sinv_formula (self (core st0))).
  - intros σ. rewrite (models_self σ (core st1)). apply (sinv_self _ _ st1 σ Hs1).
    + by rewrite (proj1 Fr).
    + by rewrite (ext_lims _ _ X).
  - apply (sinv_same _ _ st1 Hs1); try (by rewrite <- E). rewrite <- E. apply (si_act _ _ _ Hs1).
Qed.

(** A clause attached at level 0. *)
Lemma attach_struct F st x y rest st' : Stands F st → NoDup (x :: y :: rest) → Forall (lit_ok (nv (core st))) (x :: y :: rest) →
  (∀ l, l ∈ x :: y :: rest → lit_neg l ∉ trail (core st)) → room_for st (length (x :: y :: rest)) →
  add_simplified st (x :: y :: rest) = Some (st', true) →
  SInv (self (core st')) (length (trail (core st'))) st' ∧ learnts st' = [] ∧ assumptions st' = [].
Proof.
  intros St Hnd Hok Hun Hroom E. pose proof St as [R Hk H Hls Has].
  destruct (ca_alloc_spec _ (x :: y :: rest) false (rd_arena _ R) Hroom) as (a & Ea & Ha & Em & Hnone & Hcr & Hsz).
  destruct (ca_alloc_region _ _ _ _ _ (rd_arena _ R) Hroom Ea) as (Hx & Hw & Hs).
  set (cr := r_sz _ : CRef) in *.
  assert (a_extra (ca (core st)) = false) as Ex by apply (db_extra _ _ (stands_db _ _ St)).
  rewrite Ex in Em, Hs. cbn [orb] in Em, Hs. set (c := new_clause (x :: y :: rest) false false) in *.
  cbn [add_simplified] in E. rewrite Ea in E. cbn [mbind option_bind] in E. unfold attachClause, ca_deref in E.
  set (st0 := st <| core := _ |> <| clauses := _ |>) in E.
  assert (a_mem (ca (core st0)) !! (cr : CRef) = Some c) as Ed.
  { change (a_mem (ca (core st0))) with (a_mem a). rewrite Em. apply lookup_insert_eq. }
  rewrite Ed in E. cbn [mbind option_bind] in E. injection E as E.
  assert (core st' = attach_core ((core st) <| ca := a |>) cr c) as Ecore by (by rewrite <- E).
  assert (mem (core st') = <[cr := c]> (mem (core st))) as Em' by (rewrite Ecore; exact Em).
  assert (learnts st' = learnts st ∧ assumptions st' = assumptions st ∧ clauses st' = clauses st ++ [cr] ∧
    trail (core st') = trail (core st) ∧ trail_lim (core st') = trail_lim (core st)) as (E1 & E2 & E3 & E4 & E5) by (by rewrite <- E).
  split; [| by rewrite E1, E2].
  apply (sinv_rebuild F st st' St); try (by rewrite <- E); try congruence.
  - rewrite E4, Ecore. apply attach_inv; try done; [apply (si_inv _ _ _ H) | simpl; lia |].
    intros l i Hwl _ Ei. exfalso.
    assert (lit_neg l ∈ x :: y :: rest) as Hin by (destruct Hwl as [Hwl | Hwl]; by eapply list_elem_of_lookup_2).
    apply (Hun _ Hin). rewrite lit_neg_involutive. by eapply list_elem_of_lookup_2.
  - rewrite Ecore. apply (rinv_same _ (core st)); try done; [| by eapply stands_rinv].
    intros z cz t k [Ez Hm] _ _. change (a_mem a !! z = Some cz). rewrite Em, lookup_insert_ne; [done |].
    intros Ezz. rewrite <- Ezz in Ez. by pose proof (eq_trans (eq_sym Hnone) Ez).
  - rewrite Ecore. eapply (dbinv_add (core st) _ (clauses st) _ cr c); try done; [by eapply stands_db |].
    rewrite E3. symmetry. apply Permutation_cons_append.
  - intros z cz. rewrite Em'. destruct (decide (cr = z)) as [<- | Hne].
    + rewrite lookup_insert_eq. by intros [= <-].
    + rewrite lookup_insert_ne by done. apply (ci_acts _ _ _ _ _ _ (si_cinv _ _ _ H)).
  - rewrite E5. apply R.
Qed.

Lemma extendProof_core st c d x : core (extendProof st c d x) = core st.
Proof. unfold extendProof. by destruct (proof st). Qed.

Lemma stands_proof F st c d x : Stands F st → Stands F (extendProof st c d x).
Proof.
  intros [R Hok H Hls Has]. destruct (extendProof_ready st c d x R) as (R' & E1 & E2 & E3).
  assert (extendProof st c d x = st <| proof := proof (extendProof st c d x) |>) as E.
  { unfold extendProof. destruct st. cbn. by case_match_goal. }
  split; [done | congruence | | by rewrite E | by rewrite E].
  rewrite E3. apply (sinv_same F _ st H); try (by rewrite E). rewrite E. apply (si_act _ _ _ H).
Qed.

(** The formula with one more clause. *)
Definition add_formula (F : formula) (ps : list Lit) : formula := λ c, F c ∨ c = ps.

Lemma models_add σ F ps : models σ (add_formula F ps) ↔ models σ F ∧ clause_true σ ps.
Proof.
  split.
  - intros H. split; [intros c Hc; apply H; by left | apply H; by right].
  - intros [H1 H2] c [Hc | ->]; [by apply H1 | done].
Qed.

(** [addClause] adds its clause, or finds a contradiction. *)
Lemma addClause_stands F st ps : Stands F st → Forall (lit_ok (nv (core st))) ps → room_for st (length ps) →
  ∃ st' b, addClause st ps = Some (st', b) ∧ ok st' = b ∧ nv (core st') = nv (core st) ∧ params st' = params st ∧
    room st' <= room st + Z.of_nat (length ps) + 2 ∧
    if b then Stands (add_formula F ps) st' else ∀ σ, ¬ models σ (add_formula F ps).
Proof.
  intros St Hok Hroom. pose proof St as [R Hk H Hls Has].
  destruct (addClause_spec st ps R Hk Hok Hroom) as (st' & b & E & K1 & _ & K3 & K4 & K5 & K6 & K7).
  exists st', b. split; [done |]. split; [done |]. split; [done |]. split; [done |]. split; [done |].
  assert (∀ σ, models σ (add_formula F ps) ↔ b = true ∧ solver_models σ st') as HF.
  { intros σ. by rewrite K7, models_add, (stands_models F st). }
  destruct b; [| intros σ [? _]%HF; done]. specialize (K3 eq_refl).
  unfold addClause_ in E. rewrite Hk in E. cbn [negb] in E.
  destruct (sort_spec lit_ltb ps) as (qs & Eq & Hp & Hs). rewrite Eq in E. cbn [mbind option_bind] in E.
  pose proof (si_trail _ _ _ H) as T.
  assert (Forall (lit_ok (nv (core st))) qs) as Hokq by by rewrite Hp.
  destruct (simplify_lits _ _ _) as [ps' |] eqn:Es.
  - destruct (simplify_lits_some _ T qs lit_Undef ps' Hokq Hs) as (H1 & H2 & H3); [| done |].
    { intros l Hl. rewrite Forall_forall in Hokq. apply Hokq, lit_ok_x in Hl. simpl. lia. }
    assert (∀ l, l ∈ ps' → l ∈ ps) as Hsub by (intros l Hl; rewrite <- Hp; by apply H2).
    set (st0 := if modified_lits _ _ _ then _ else st) in E.
    assert (Stands F st0 ∧ core st0 = core st) as [St0 Ec].
    { unfold st0. destruct (modified_lits _ _ _); [| done]. split; [by apply stands_proof, stands_proof |].
      by rewrite !extendProof_core. }
    assert (SInv (self (core st')) (length (trail (core st'))) st' ∧ learnts st' = [] ∧ assumptions st' = [])
      as (Hself & Els & Eas).
    { assert (Forall (lit_ok (nv (core st))) ps') as Hok'.
      { apply Forall_forall. intros l Hl. rewrite Forall_forall in Hok. by apply Hok, Hsub. }
      assert (length ps' <= length ps)%nat as Hlen by by apply submseteq_length, NoDup_submseteq.
      destruct ps' as [| l [| y rest]]; [done | |].
      - pose proof (proj1 (Forall_cons _ _ _) Hok') as [Hl _]. destruct (H2 l ltac:(by left)) as (_ & _ & N1 & N2).
        apply (unit_struct F st0 l); rewrite ?Ec; done.
      - apply (attach_struct F st0 l y rest); rewrite ?Ec; try done.
        + intros k Hin. by apply H2.
        + unfold room_for in *. rewrite Ec. lia. }
    split; try done. apply (sinv_formula (self (core st'))); [| done].
    intros σ. rewrite models_self, HF. unfold solver_models, db_of. tauto.
  - injection E as <-. split; try done. apply (sinv_formula F); [| done].
    intros σ. rewrite HF, (stands_models F st) by done. tauto.
Qed.
