(* ===== verification/SolverProps.v ===== *)
(** * What the minisat solver guarantees

    The theorems about [Minisat::Solver], one per public operation or per step
    of the search, over the states with the invariant [SInv] or between two
    calls with [Holds]: conflict analysis, failed assumptions, decisions, clause
    deletion, garbage collection, [simplify], the restarts and
    [solveLimited]. *)
From Stdlib Require Import SpecFloat.
From S2P Require Import Prelude Lit UnitProp Vec Heap Alloc Double DoubleSpec Clause Solver Propagate.
From S2P Require Import PropCheck Setup SetupSpec Reasons Analyze AnalyzeSpec FinalSpec RandomSpec Reduce BranchSpec.
From S2P Require Import GarbageSpec SearchInv ReduceSpec SimplifySpec SolverInv CDCL ConflictSpec CDCLSpec RestartSpec.
From S2P Require Import SolverSpec BuildSpec.

#[local] Opaque d_const d_add d_mul d_div d_ltb d_leb f_of_d d_of_Z.

(** C6. [solveLimited] under assumptions, with room for [n] conflicts, always
    returns.  [l_True] comes with a model of the formula and the assumptions
    over all variables, [l_False] with an entailed clause over negated
    assumptions or when there is no model at all, [l_Undef] only when the
    budget is used.  The solver then stands for the same formula, so that the
    call can be repeated with other assumptions. *)
Theorem solveLimited_correct F st assumps n fuel search_fuel : Holds F st → Affords st assumps n →
  n < 2 ^ Z.of_nat fuel → search_rounds (st <| assumptions := assumps |>) (n + 100) < 2 ^ Z.of_nat search_fuel →
  ∃ st' status, solveLimited fuel search_fuel st assumps = Some (st', status) ∧
    Outcome F assumps st' status ∧ Holds F st' ∧ params st' = params st ∧ nv (core st') = nv (core st).
Proof.
  intros HF HA Hf Hs. destruct (solveLimited_spec F st assumps n fuel search_fuel HF HA Hf Hs)
    as (st' & status & E & Ho & Hh & Hp & Hn & _). eauto 10.
Qed.

(** C8. Conflict analysis above level 0 returns a clause that the formula
    entails, all literals of which are false, and a lower level; there the
    clause is asserting: the first literal has no value, the others are false
    and the second is of that level.  The marks of the variables are clear
    again and the invariant of the search holds. *)
Theorem analyze_correct F q st confl : SInv F q st → falsified (core st) confl → trail_lim (core st) ≠ [] →
  ∃ st1 ls bt, analyze st confl = Some (st1, ls, bt) ∧
    (∀ σ, models σ F → clause_true σ ls) ∧ (∀ l, l ∈ ls → lit_neg l ∈ trail (core st)) ∧
    0 <= bt < Z.of_nat (decisionLevel (core st)) ∧ (∀ x, seen_at st1 x = 0) ∧
    let st2 := cancelUntil st1 (Z.to_nat bt) in
    Asserting F (core st2) ls ∧ SInv F (length (trail (core st2))) st2.
Proof.
  intros H (c & Hl & Hf) H0. destruct (last (trail_lim (core st))) as [L |] eqn:HL; [| by apply last_None in HL].
  destruct (analyze_spec (assumptions st) (core st) q L (si_inv _ _ _ H) (si_rinv _ _ _ H) HL st confl c)
    as (st1 & ls & bt & E & Hle); [done | by eapply si_learnts | apply H | apply H | done | done |].
  destruct (backjump_spec F q st st1 L ls bt H HL Hle) as (H2 & As & _).
  exists st1, ls, bt. split; [done |]. split; [apply As |]. split; [| split; [apply Hle | split; [apply Hle | done]]].
  destruct (le_head _ _ _ _ _ _ Hle) as (p & tail & k & -> & Hk & _ & Ht).
  intros l [-> | Hin]%elem_of_cons; [| by apply Ht].
  rewrite lit_neg_involutive. by eapply list_elem_of_lookup_2.
Qed.

(** C16. A conflict above level 0 is handled: the solver learns its clause,
    propagates its first literal on a strictly lower level, keeps the invariant
    and needs at most [nv + 2] words of the arena. *)
Theorem handle_conflict_correct F q st confl : SInv F q st → falsified (core st) confl → trail_lim (core st) ≠ [] →
  room st + nv (core st) + 2 <= max_capacity → adjust_ok 1 st →
  ∃ st', handle_conflict st confl = Some st' ∧ SInv F (qhead (core st')) st' ∧
    (decisionLevel (core st') < decisionLevel (core st))%nat ∧ room st' <= room st + nv (core st) + 2.
Proof.
  intros H Hf H0 Hr Ha. destruct (handle_conflict_spec F q st confl H Hf H0 Hr Ha) as (st' & E & H' & Hd & Hr' & _).
  eauto 10.
Qed.

(** C22. [analyzeFinal] explains a true literal [P] by assumptions: the clause
    it leaves in [conflict] contains [P], otherwise only negated decisions, and
    is entailed by the formula; everything else but the marks is unchanged, and
    these are clear again. *)
Theorem analyzeFinal_correct F q st P : SInv F q st → P ∈ trail (core st) →
  ∃ st', analyzeFinal st P = Some st' ∧ core st' = core st ∧ (∀ x, seen_at st' x = 0) ∧
    P ∈ IntMap.xs (conflict st') ∧
    (∀ l, l ∈ IntMap.xs (conflict st') → l = P ∨ decided (core st) (lit_neg l)) ∧
    ∀ σ, models σ F → clause_true σ (IntMap.xs (conflict st')).
Proof.
  intros H HP. destruct (analyzeFinal_spec (assumptions st) q st P (si_inv _ _ _ H) (si_rinv _ _ _ H)
    (si_size _ _ _ H) (si_seen _ _ _ H) (si_conflict _ _ _ H) HP) as (st' & E & [Fr Hc Hw Hl Hi He]).
  exists st'. split; [done |]. split; [by destruct Fr as (sn & cf & -> & _) |]. split; [done |]. split; [done |].
  split; [done |]. intros σ Hσ. by apply He, (ci_sound _ _ _ _ _ _ (si_cinv _ _ _ H)).
Qed.

(** [pickBranchLit] always returns a literal over a variable without a
    value, or [lit_Undef] when all have one; the variables without a value are
    in the heap of decisions again, but for the one returned. *)
Theorem pickBranchLit_correct F q st : SInv F q st →
  ∃ p st', pickBranchLit st = Some (p, st') ∧ core st' = core st ∧ OrdOk (nv (core st)) (order st') ∧
    ((p = lit_Undef ∧ ∀ u, 0 <= u < nv (core st) → u ∈ var <$> trail (core st)) ∨
     (lit_ok (nv (core st)) p ∧ var p ∉ var <$> trail (core st) ∧
      ∀ u, 0 <= u < nv (core st) → u ∉ var <$> trail (core st) → u = var p ∨ u ∈ keys (order st'))).
Proof.
  intros H. destruct (pickBranchLit_spec (core st) (si_trail _ _ _ H) st) as (p & st' & E & Ho & O & Hp);
    [done | apply H | apply H | apply H | apply H |].
  exists p, st'. split; [done |]. split; [by rewrite Ho |]. by split.
Qed.

(** C19. [garbageCollect] moves all clauses: those of [clauses] and [learnts]
    are copied in their order, nothing else of the assignment changes, the
    arena does not grow, and the invariant of watches and reasons holds at the
    new references. *)
Theorem garbageCollect_correct F q st : SInv F q st →
  ∃ st', garbageCollect st = Some st' ∧ SInv F q st' ∧
    Forall2 (same_clause (core st) (core st')) (clauses st) (clauses st') ∧
    Forall2 (same_clause (core st) (core st')) (learnts st) (learnts st') ∧
    trail (core st') = trail (core st) ∧ trail_lim (core st') = trail_lim (core st) ∧ room st' <= room st.
Proof.
  intros H. pose proof (si_cinv _ _ _ H) as C.
  destruct (garbageCollect_spec (assumptions st) q st (si_inv _ _ _ H) (si_rinv _ _ _ H) (ci_db _ _ _ _ _ _ C)
    (si_next _ _ _ H)) as (st' & E & K).
  destruct (cinv_garbage F (assumptions st) q st C (si_next _ _ _ H)) as (st2 & E2 & C2 & G2).
  rewrite E in E2. injection E2 as <-. destruct K as [_ _ _ Fc Fl _ _ _ (_ & E2 & E3 & _) _ Rm].
  exists st'. split; [done |]. split; [by apply (sinv_search F q st) | done].
Qed.

(** [reduceDB] only removes learnt clauses: the search goes on from the same
    assignment with the invariant (no reason was removed and the formula is the
    same), and the arena does not grow. *)
Theorem reduceDB_correct F q st : SInv F q st →
  ∃ st', reduceDB st = Some st' ∧ SInv F q st' ∧ trail (core st') = trail (core st) ∧
    trail_lim (core st') = trail_lim (core st) ∧ qhead (core st') = qhead (core st) ∧ room st' <= room st.
Proof.
  intros H. destruct (sinv_reduce F q st H) as (st' & E & H' & _ & _ & _ & K).
  exists st'. split; [done |]. split; [done |]. destruct K. done.
Qed.

Lemma simplify_again st st1 : ok st = true → propagate st = Some (st1, CRef_Undef) →
  qhead (core st1) = length (trail (core st1)) → ok st1 = true → simplify st = simplify st1.
Proof.
  intros Ho E Hq Ho1. unfold simplify. rewrite Ho, Ho1, E, propagate_fixpoint by done.
  assert (st1 <| stats := (stats st1) <| propagations := u64 (propagations (stats st1)) |> |> = st1) as ->; [| done].
  unfold propagate in E. destruct (propagate_core (core st)) as [[[s c] n] |]; [| done].
  cbn [mbind option_bind] in E. injection E as <- _. unfold u64. simpl. by rewrite Z.mod_mod.
Qed.

(** C18. [simplify] between two calls: it returns whether a contradiction was not
    found, in which case the solver is at a propagation fixpoint of level 0 and
    stands for the same formula although satisfied clauses are gone; a
    contradiction means that the formula has no model. *)
Theorem simplify_correct F st : Holds F st →
  ∃ st' b, simplify st = Some (st', b) ∧ ok st' = b ∧ Holds F st' ∧
    (b = true → nv (core st') = nv (core st) ∧ qhead (core st') = length (trail (core st'))).
Proof.
  unfold Holds at 1. destruct (ok st) eqn:Ho.
  2:{ intros HF. exists (st <| ok := false |>), false. unfold simplify. rewrite Ho. by repeat split. }
  intros [H H0]. destruct (sinv_propagate F st H) as (st1 & confl & E & Fr & X & Hq & Hr).
  assert (trail_lim (core st1) = []) as H1 by (by rewrite (ext_lims _ _ X)).
  destruct Hr as [[-> H'] | (Hc & Hf & q & H')].
  - assert (ok st1 = true) as Ho1 by (by rewrite (proj1 Fr)).
    rewrite (simplify_again st st1) by done.
    destruct (simplify_spec F st1 H' H1 Hq Ho1) as (st' & Es & Hs & [_ K _ Eo _ _ _ _]).
    exists st', true. split; [done |]. split; [congruence |]. destruct K as [Ka Kt Kl Kq _ _].
    unfold Holds. rewrite Eo, Ho1. split; [split; [| congruence] |].
    + rewrite Kq, Hq. done.
    + intros _. split; [| congruence]. unfold nv. rewrite Ka. apply (kp_nv _ _ (prop_kept _ _ Fr X)).
  - exists (st1 <| ok := false |>), false. unfold simplify. rewrite Ho, E. cbn [mbind option_bind].
    destruct (Z.eqb_spec confl CRef_Undef); [done |]. cbn [negb]. split; [done |]. split; [done |].
    unfold Holds. simpl. split; [| done]. intros σ. by eapply conflict_unsat.
Qed.

(** C31. [luby(2, x)] is the Luby sequence 1, 1, 2, 1, 1, 2, 4, ...: for every
    restart number below [2 ^ 30] the loops end without overflow and the power
    is exact in double precision. *)
Theorem luby_correct x : 0 <= x < 2 ^ 30 →
  ∃ e, luby (d_of_Z 2) x = Some (d_of_Z (2 ^ e)) ∧ Luby x e ∧ 0 <= e <= 30.
Proof. apply luby_two. Qed.

(** C27. [newVar] keeps a solver well formed and succeeds below [2 ^ 30]
    variables: the new variable is the next one, in range of every array that is
    indexed by variables or literals, and the solver stands for the same
    formula. *)
Theorem newVar_correct F st upol : Stands F st → rnd_init_act (params st) = false → nv (core st) < 2 ^ 30 →
  ∃ st', newVar st upol true = Some (st', nv (core st)) ∧ Stands F st' ∧
    nv (core st') = nv (core st) + 1 ∧ room st' = room st.
Proof.
  intros H Hr Hn. destruct (newVar_total st upol true (ready_base _ (st_ready _ _ H)) Hr Hn) as [st' E].
  destruct (newVar_stands F st upol st' _ H Hr E) as (H' & _ & En & Er & _). eauto.
Qed.
