(* ===== verification/Load.v ===== *)
(** * Reading formulas

    [minisat/core/Dimacs.h] and [utils/ParseUtils.h] (the DIMACS parser),
    [SimpSolver::loadClauses], and the text that [toDimacs] writes.  The parser
    is a template over the solver class; here it is a function of a [Sink],
    the three methods it calls, and the theorems are proved for every sink that
    satisfies [LawfulSink], of which the solver of [Solver] is an instance.

    An input stream is the list of its remaining bytes.  [exit(3)] on a parse
    error and the undefined overflow of [parseInt] are [None]. *)
From S2P Require Import Prelude Lit Sort UnitProp Vec Heap Alloc Double Clause Solver Propagate.
From S2P Require Import PropCheck Setup SetupSpec.

(** ** What the readers ask of a solver *)

Record Sink (S : Type) := MkSink {
  sk_nVars : S → Z;
  sk_newVar : S → option S;
  sk_addClause : S → list Lit → option S }.

Arguments MkSink {S}.
Arguments sk_nVars {S}.
Arguments sk_newVar {S}.
Arguments sk_addClause {S}.

(** [inv]: the states reached by the two operations; [used]: words of memory in
    use; [means]: the models of the clauses added so far. *)
Class LawfulSink {S} (K : Sink S) (inv : S → Prop) (used : S → Z) (means : S → (Z → bool) → Prop) := {
  snk_range s : inv s → 0 <= sk_nVars K s;
  snk_newVar s : inv s → sk_nVars K s < 2 ^ 30 →
    ∃ s', sk_newVar K s = Some s' ∧ inv s' ∧ sk_nVars K s' = sk_nVars K s + 1 ∧
      used s' = used s ∧ ∀ σ, means s' σ ↔ means s σ;
  snk_addClause s ps : inv s → Forall (lit_ok (sk_nVars K s)) ps →
    used s + Z.of_nat (length ps) + 2 <= max_capacity →
    ∃ s', sk_addClause K s ps = Some s' ∧ inv s' ∧ sk_nVars K s' = sk_nVars K s ∧
      used s' <= used s + Z.of_nat (length ps) + 2 ∧
      ∀ σ, means s' σ ↔ means s σ ∧ clause_true σ ps }.

(** ** The readers *)

Section Readers.
Context {S : Type} (K : Sink S).
Implicit Types (s : S) (input : list Z).

(** [while (var >= nVars()) newVar();] *)
Fixpoint ensure_var_fuel (fuel : nat) s (v : Z) : option S :=
  if v <? sk_nVars K s then Some s
  else match fuel with
       | O => None
       | Datatypes.S fuel => s ← sk_newVar K s; ensure_var_fuel fuel s v
       end.

Definition ensure_var s (v : Z) : option S :=
  ensure_var_fuel (Z.to_nat (v + 1 - sk_nVars K s)) s v.

(** The loop over the literals of one clause. *)
Fixpoint ensure_lits s (ps : list Lit) : option S :=
  match ps with
  | [] => Some s
  | p :: ps => s ← ensure_var s (var p); ensure_lits s ps
  end.

(** [loadClauses(in_cls)]. *)
Fixpoint loadClauses s (cs : list (list Lit)) : option S :=
  match cs with
  | [] => Some s
  | c :: cs => s ← ensure_lits s c; s ← sk_addClause K s c; loadClauses s cs
  end.

(** [*in]: the next byte, or [EOF = -1]. *)
Definition peek input : Z := match input with [] => -1 | c :: _ => c end.

Definition is_space (c : Z) : bool := ((9 <=? c) && (c <=? 13)) || (c =? 32).

Definition is_digit (c : Z) : bool := (48 <=? c) && (c <=? 57).

Fixpoint skipWhitespace input : list Z :=
  match input with
  | [] => []
  | c :: input' => if is_space c then skipWhitespace input' else input
  end.

Fixpoint skipLine input : list Z :=
  match input with
  | [] => []
  | c :: input' => if c =? 10 then input' else skipLine input'
  end.

(** [while (isdigit) val = val * 10 + digit]; overflow of [int] is undefined. *)
Fixpoint parse_digits (val : Z) input : option (Z * list Z) :=
  match input with
  | [] => Some (val, [])
  | c :: input' =>
      if is_digit c then
        let val := val * 10 + (c - 48) in
        if val <=? INT_MAX then parse_digits val input' else None
      else Some (val, input)
  end.

(** The sign: [neg] and the rest. *)
Definition parse_sign input : bool * list Z :=
  match input with
  | [] => (false, [])
  | c :: input' => if c =? 45 then (true, input') else if c =? 43 then (false, input') else (false, input)
  end.

Definition parseInt input : option (Z * list Z) :=
  let '(neg, input) := parse_sign (skipWhitespace input) in
  if is_digit (peek input) then
    '(val, input) ← parse_digits 0 input;
    Some (if neg : bool then - val else val, input)
  else None.

(** [eagerMatch(in, str)]: consumes while it matches. *)
Fixpoint eagerMatch input (str : list Z) : bool * list Z :=
  match str with
  | [] => (true, input)
  | c :: str => if peek input =? c then eagerMatch (tail input) str else (false, input)
  end.

(** [readClause]: integers up to 0; every round consumes at least a digit. *)
Fixpoint readClause (fuel : nat) input s (lits : list Lit) : option (list Z * S * list Lit) :=
  match fuel with
  | O => None
  | Datatypes.S fuel =>
      '(n, input) ← parseInt input;
      if n =? 0 then Some (input, s, lits)
      else
        let v := Z.abs n - 1 in
        s ← ensure_var s v;
        readClause fuel input s (lits ++ [if 0 <? n then mkLit v false else lit_neg (mkLit v false)])
  end.

(** [parse_DIMACS_main] without [strictp]; "p cnf" is the bytes 112 ... *)
Definition p_cnf : list Z := [112; 32; 99; 110; 102].

Fixpoint parse_DIMACS_main (fuel : nat) input s : option S :=
  match fuel with
  | O => None
  | Datatypes.S fuel =>
      let input := skipWhitespace input in
      if peek input =? -1 then Some s
      else if peek input =? 112 then
        let '(b, input) := eagerMatch input p_cnf in
        if b : bool then
          '(_, input) ← parseInt input;
          '(_, input) ← parseInt input;
          parse_DIMACS_main fuel input s
        else None
      else if peek input =? 99 then parse_DIMACS_main fuel (skipLine input) s
      else if peek input =? 37 then Some s
      else
        '(input, s, lits) ← readClause (Datatypes.S (length input)) input s [];
        s ← sk_addClause K s lits;
        parse_DIMACS_main fuel input s
  end.

(** [parse_DIMACS]. *)
Definition parse_DIMACS input s : option S := parse_DIMACS_main (Datatypes.S (length input)) input s.
End Readers.

(** ** Writing

    [fprintf(f, "%s%d ", ...)]: the decimal digits of a non-negative number. *)

Fixpoint digits_fuel (fuel : nat) (n : Z) (acc : list Z) : list Z :=
  match fuel with
  | O => acc
  | S fuel => let acc := (48 + n mod 10) :: acc in
              if n <? 10 then acc else digits_fuel fuel (n / 10) acc
  end.

(** Ten digits are enough for an [int]. *)
Definition digits (n : Z) : list Z := digits_fuel 10 n [].

(** ["%s%d "] of a literal over the variable [v]. *)
Definition print_lit (l : Lit) : list Z :=
  (if sign l then [45] else []) ++ digits (var l + 1) ++ [32].

(** The line of a clause, ["...0\n"]. *)
Definition print_clause (c : list Lit) : list Z := (c ≫= print_lit) ++ [48; 10].

(** ["p cnf %d %d\n"] and the clauses. *)
Definition print_dimacs (vars : Z) (cs : list (list Lit)) : list Z :=
  p_cnf ++ [32] ++ digits vars ++ [32] ++ digits (Z.of_nat (length cs)) ++ [10] ++ (cs ≫= print_clause).

(** ** Loading adds the clauses *)

Section Facts.
Context {S : Type} (K : Sink S) (inv : S → Prop) (used : S → Z) (means : S → (Z → bool) → Prop).
Context `{!LawfulSink K inv used means}.
Implicit Types (s : S).

(** [s'] has the clauses of [s], and at least its variables. *)
Definition more_vars s s' : Prop :=
  inv s' ∧ sk_nVars K s <= sk_nVars K s' ∧ used s' = used s ∧ ∀ σ, means s' σ ↔ means s σ.

Lemma more_vars_refl s : inv s → more_vars s s.
Proof. intros. split; [done |]. split; [lia |]. done. Qed.

Lemma more_vars_trans s1 s2 s3 : more_vars s1 s2 → more_vars s2 s3 → more_vars s1 s3.
Proof.
  intros (A1 & A2 & A3 & A4) (B1 & B2 & B3 & B4). split; [done |]. split; [lia |].
  split; [lia |]. intros σ. by rewrite B4.
Qed.

Lemma ensure_var_spec s v : inv s → 0 <= v < 2 ^ 30 →
  ∃ s', ensure_var K s v = Some s' ∧ more_vars s s' ∧ v < sk_nVars K s'.
Proof.
  unfold ensure_var. remember (Z.to_nat (v + 1 - sk_nVars K s)) as n eqn:En.
  revert s En. induction n as [| n IH]; intros s En Hi Hv; simpl.
  - destruct (Z.ltb_spec v (sk_nVars K s)); [| lia]. exists s. split; [done |].
    split; [by apply more_vars_refl | done].
  - destruct (Z.ltb_spec v (sk_nVars K s)); [lia |].
    destruct (snk_newVar s Hi) as (s1 & -> & I1 & N1 & U1 & M1); [lia |]. simpl.
    destruct (IH s1) as (s' & -> & Hm & Hlt); [lia | done | done |].
    exists s'. split; [done |]. split; [| done]. eapply more_vars_trans; [| done].
    split; [done |]. split; [lia |]. done.
Qed.

Lemma ensure_lits_spec ps : ∀ s, inv s → Forall (lit_ok (2 ^ 30)) ps →
  ∃ s', ensure_lits K s ps = Some s' ∧ more_vars s s' ∧ Forall (lit_ok (sk_nVars K s')) ps.
Proof.
  induction ps as [| p ps IH]; intros s Hi Hok; simpl.
  { exists s. split; [done |]. split; [by apply more_vars_refl | done]. }
  apply Forall_cons in Hok as [Hp Hok].
  destruct (ensure_var_spec s (var p) Hi Hp) as (s1 & -> & H1 & H1v). simpl.
  destruct (IH s1 (proj1 H1) Hok) as (s' & -> & H2 & H2v). exists s'. split; [done |].
  split; [by eapply more_vars_trans |]. apply Forall_cons. split; [| done].
  destruct H2 as (_ & Hle & _). unfold lit_ok in *. lia.
Qed.

(** Words for all the clauses. *)
Fixpoint words (cs : list (list Lit)) : Z :=
  match cs with [] => 0 | c :: cs => Z.of_nat (length c) + 2 + words cs end.

Lemma words_nonneg cs : 0 <= words cs.
Proof. induction cs; simpl; lia. Qed.

Lemma loadClauses_spec cs : ∀ s, inv s → Forall (Forall (lit_ok (2 ^ 30))) cs →
  used s + words cs <= max_capacity →
  ∃ s', loadClauses K s cs = Some s' ∧ inv s' ∧
    ∀ σ, means s' σ ↔ means s σ ∧ ∀ c, c ∈ cs → clause_true σ c.
Proof.
  induction cs as [| c cs IH]; intros s Hi Hok Hw; simpl in *.
  { exists s. split; [done |]. split; [done |]. intros σ. split; [| by intros []].
    intros H. split; [done |]. intros c Hc. by apply elem_of_nil in Hc. }
  apply Forall_cons in Hok as [Hc Hok]. pose proof (words_nonneg cs).
  destruct (ensure_lits_spec c s Hi Hc) as (s1 & -> & (I1 & N1 & U1 & M1) & L1). simpl.
  destruct (snk_addClause s1 c I1 L1) as (s2 & -> & I2 & N2 & U2 & M2); [lia |]. simpl.
  destruct (IH s2 I2 Hok) as (s' & -> & I' & M'); [lia |]. exists s'. split; [done |].
  split; [done |]. intros σ. rewrite M', M2, M1. setoid_rewrite elem_of_cons. split.
  - intros [[Hs Hc1] Hcs]. split; [done |]. intros d [-> | Hd]; auto.
  - intros [Hs Hall]. auto.
Qed.
End Facts.

(** ** The solver as a sink *)

Definition solver_sink : Sink Solver :=
  MkSink nVars (λ st, fst <$> newVar st l_Undef true) (λ st ps, fst <$> addClause_ st ps).

Definition sink_inv (st : Solver) : Prop :=
  Base st ∧ (ok st = true → Ready st) ∧ rnd_init_act (params st) = false.

Definition sink_used (st : Solver) : Z := r_sz (a_region (ca (core st))).

Definition sink_means (st : Solver) (σ : Z → bool) : Prop := ok st = true ∧ solver_models σ st.

#[export] Instance solver_sink_lawful : LawfulSink solver_sink sink_inv sink_used sink_means.
Proof.
  split.
  - intros st (B & _ & _). simpl. unfold nVars. rewrite (ba_next _ B). unfold nv. lia.
  - intros st (B & R & P) Hn. simpl in *. unfold nVars in *. rewrite (ba_next _ B) in Hn.
    destruct (newVar_total st l_Undef true B P Hn) as [st' E]. rewrite E. exists st'.
    split; [done |]. apply newVar_spec in E as (_ & B' & R' & N & O & Pa & T & C); [| done].
    split; [split; [done |]; split; [rewrite O; auto | by rewrite Pa] |].
    split; [rewrite (ba_next _ B), (ba_next _ B'); done |].
    unfold sink_used, sink_means, solver_models, db_of, mem. rewrite C, O, T. done.
  - intros st ps (B & R & P) Hok Hw. simpl in *. unfold nVars in *. rewrite (ba_next _ B) in Hok.
    destruct (ok st) eqn:Ek.
    + destruct (addClause_spec st ps (R eq_refl) Ek Hok Hw) as (st' & b & E & O & B' & R' & N & Pa & U & M).
      rewrite E. exists st'. split; [done |].
      split; [split; [done |]; split; [rewrite O; auto | by rewrite Pa] |].
      split; [rewrite (ba_next _ B), (ba_next _ B'); done |]. split; [exact U |].
      intros σ. unfold sink_means. rewrite O, Ek, M. tauto.
    + unfold addClause_. rewrite Ek. simpl. exists st. split; [done |].
      split; [split; [done |]; split; [congruence | done] |]. split; [done |]. split; [unfold sink_used; lia |].
      intros σ. unfold sink_means. rewrite Ek. split; [by intros [? _] | by intros [[? _] _]].
Qed.

(** A fresh solver. *)
Lemma new_sink seed ps st : new_solver default_params seed ps = Some st →
  sink_inv st ∧ sink_used st = 0 ∧ ∀ σ, sink_means st σ.
Proof.
  intros H. apply new_solver_ready in H as (R & O & N & T & P & M & U). split.
  - split; [by apply ready_base |]. split; [done | by rewrite P].
  - split; [done |]. intros σ. split; [done |]. unfold solver_models, db_of, mem.
    rewrite M, T. split.
    + intros c (cr & d & [E _] & _). by apply lookup_empty_Some in E.
    + intros l Hl. by apply elem_of_nil in Hl.
Qed.

(** ** Round trip of the DIMACS text *)

Lemma digits_fuel_spec fuel : ∀ n acc, 0 <= n < 10 ^ Z.of_nat fuel → (0 < fuel)%nat →
  ∃ ds, digits_fuel fuel n acc = ds ++ acc ∧ ds ≠ [] ∧ Forall (λ c, is_digit c = true) ds ∧
    ∀ v r, 0 <= v → v * 10 ^ Z.of_nat (length ds) + n <= INT_MAX →
      parse_digits v (ds ++ r) = parse_digits (v * 10 ^ Z.of_nat (length ds) + n) r.
Proof.
  induction fuel as [| fuel IH]; intros n acc Hn Hf; [lia |]. cbn [digits_fuel].
  pose proof (Z.mod_pos_bound n 10 ltac:(lia)) as Hm. pose proof (Z.div_mod n 10 ltac:(lia)) as Hd.
  assert (is_digit (48 + n mod 10) = true) as Hdig.
  { unfold is_digit. apply andb_true_iff. split; apply Z.leb_le; lia. }
  assert (∀ v r, 0 <= v → v * 10 + n mod 10 <= INT_MAX →
    parse_digits v ((48 + n mod 10) :: r) = parse_digits (v * 10 + n mod 10) r) as Hstep.
  { intros v r Hv Hb. cbn [parse_digits]. rewrite Hdig.
    replace (48 + n mod 10 - 48) with (n mod 10) by lia.
    by rewrite (proj2 (Z.leb_le _ _)) by lia. }
  destruct (Z.ltb_spec n 10).
  - exists [48 + n mod 10]. split; [done |]. split; [done |]. split; [by apply Forall_singleton |].
    intros v r Hv Hb. change (10 ^ Z.of_nat (length [_])) with 10 in *. rewrite Z.mod_small in * by lia.
    simpl app. by rewrite Hstep.
  - destruct fuel as [| fuel]; [simpl in Hn; lia |].
    destruct (IH (n / 10) ((48 + n mod 10) :: acc)) as (ds & E & Hne & Hall & Hp); [| lia |].
    { split; [apply Z.div_pos; lia |]. apply Z.div_lt_upper_bound; [lia |].
      rewrite (Nat2Z.inj_succ (S fuel)), Z.pow_succ_r in Hn by lia. lia. }
    exists (ds ++ [48 + n mod 10]). split; [by rewrite E, <- (assoc_L (++)) |].
    split; [by destruct ds |]. split; [apply Forall_app; split; [done | by apply Forall_singleton] |].
    intros v r Hv. rewrite length_app. simpl length.
    rewrite Nat2Z.inj_add, Z.pow_add_r by lia. change (10 ^ Z.of_nat 1) with 10. intros Hb.
    set (P := 10 ^ Z.of_nat (length ds)) in *. assert (0 < P) by (apply Z.pow_pos_nonneg; lia).
    rewrite <- (assoc_L (++)). rewrite Hp by nia. simpl app. rewrite Hstep by nia.
    f_equal. lia.
Qed.

Definition non_digit (r : list Z) : Prop := is_digit (peek r) = false.

Lemma digits_parse n r : 0 <= n <= INT_MAX → non_digit r →
  ∃ d ds, digits n = d :: ds ∧ is_digit d = true ∧ parse_digits 0 (digits n ++ r) = Some (n, r).
Proof.
  intros Hn Hr. destruct (digits_fuel_spec 10 n []) as (ds & E & Hne & Hall & Hp); [| lia |].
  { unfold INT_MAX in Hn. change (10 ^ Z.of_nat 10) with 10000000000. lia. }
  rewrite app_nil_r in E. change (digits_fuel 10 n []) with (digits n) in E.
  rewrite E. destruct ds as [| d ds]; [done |]. apply Forall_cons in Hall as [Hd _].
  exists d, ds. split; [done |]. split; [done |]. rewrite Hp by lia. rewrite Z.mul_0_l, Z.add_0_l.
  destruct r as [| c r]; [done |]. unfold non_digit in Hr. simpl in Hr |- *. by rewrite Hr.
Qed.

Lemma skip_digit d ds : is_digit d = true → skipWhitespace (d :: ds) = d :: ds.
Proof.
  intros H. unfold is_digit in H. zbool. simpl. unfold is_space.
  destruct (Z.leb_spec 9 d), (Z.leb_spec d 13), (Z.eqb_spec d 32); simpl; lia || done.
Qed.

Lemma parse_sign_digit d ds : is_digit d = true → parse_sign (d :: ds) = (false, d :: ds).
Proof.
  intros H. unfold is_digit in H. zbool. simpl.
  destruct (Z.eqb_spec d 45), (Z.eqb_spec d 43); lia || done.
Qed.

Lemma parseInt_digits n r : 0 <= n <= INT_MAX → non_digit r →
  parseInt (digits n ++ r) = Some (n, r).
Proof.
  intros Hn Hr. destruct (digits_parse n r Hn Hr) as (d & ds & E & Hd & Hp).
  unfold parseInt. rewrite E in *. simpl app in *.
  rewrite skip_digit, parse_sign_digit by done. simpl peek. rewrite Hd, Hp. done.
Qed.

Lemma parseInt_space r : parseInt (32 :: r) = parseInt r.
Proof. done. Qed.

Lemma parseInt_neg n r : 0 <= n <= INT_MAX → non_digit r →
  parseInt (45 :: digits n ++ r) = Some (- n, r).
Proof.
  intros Hn Hr. destruct (digits_parse n r Hn Hr) as (d & ds & E & Hd & Hp).
  unfold parseInt. rewrite E in *. simpl app in *.
  change (skipWhitespace (45 :: d :: ds ++ r)) with (45 :: d :: ds ++ r).
  change (parse_sign (45 :: d :: ds ++ r)) with (true, d :: ds ++ r). cbv beta iota. cbn [peek]. by rewrite Hd, Hp.
Qed.

Lemma parseInt_lit l r : lit_ok (2 ^ 30) l →
  parseInt (print_lit l ++ r) = Some (if sign l then - (var l + 1) else var l + 1, 32 :: r).
Proof.
  intros Hl. unfold lit_ok, print_lit in *. rewrite <- !(assoc_L (++)). simpl app.
  assert (0 <= var l + 1 <= INT_MAX) by (unfold INT_MAX; lia).
  destruct (sign l); simpl app; [by apply parseInt_neg | by apply parseInt_digits].
Qed.

Lemma length_print_lit l : (0 < length (print_lit l))%nat.
Proof. unfold print_lit. rewrite !length_app. simpl. lia. Qed.

Section Roundtrip.
Context {S : Type} (K : Sink S).
Implicit Types (s : S).

Lemma skip_print_lit l r : lit_ok (2 ^ 30) l →
  skipWhitespace (print_lit l ++ r) = print_lit l ++ r ∧
  (sign l = true ∧ peek (print_lit l ++ r) = 45 ∨ is_digit (peek (print_lit l ++ r)) = true).
Proof.
  intros Hl. unfold lit_ok in Hl.
  destruct (digits_parse (var l + 1) [32]) as (d & ds & E & Hd & _); [unfold INT_MAX; lia | done |].
  unfold print_lit. rewrite E. destruct (sign l); simpl app.
  - split; [done | by left].
  - split; [by apply skip_digit | by right].
Qed.

Lemma readClause_print c r : ∀ fuel s lits, Forall (lit_ok (2 ^ 30)) c → (length c < fuel)%nat →
  readClause K fuel (print_clause c ++ r) s lits =
  (λ s, (10 :: r, s, lits ++ c)) <$> ensure_lits K s c.
Proof.
  induction c as [| l c IH]; intros fuel s lits Hok Hf; destruct fuel as [| fuel]; simpl in Hf; try lia.
  - cbn [readClause]. unfold print_clause. simpl app.
    change (48 :: 10 :: r) with (digits 0 ++ 10 :: r). rewrite parseInt_digits by done.
    simpl. by rewrite app_nil_r.
  - apply Forall_cons in Hok as [Hl Hok]. cbn [readClause ensure_lits].
    assert (print_clause (l :: c) ++ r = print_lit l ++ (print_clause c ++ r)) as ->.
    { unfold print_clause. csimpl. by rewrite <- !(assoc_L (++)). }
    rewrite parseInt_lit by done. simpl. unfold lit_ok in Hl.
    set (n := if sign l then _ else _).
    assert (n ≠ 0 ∧ Z.abs n - 1 = var l ∧
      (if 0 <? n then mkLit (Z.abs n - 1) false else lit_neg (mkLit (Z.abs n - 1) false)) = l)
      as (Hn0 & Hv & Hlit).
    { unfold n. destruct (sign l) eqn:Es.
      - assert (Z.abs (- (var l + 1)) - 1 = var l) as -> by lia.
        destruct (Z.ltb_spec 0 (- (var l + 1))); [lia |]. split; [lia |]. split; [done |].
        rewrite lit_neg_mkLit, var_mkLit, sign_mkLit. simpl negb. rewrite <- Es. apply mkLit_var_sign.
      - assert (Z.abs (var l + 1) - 1 = var l) as -> by lia.
        destruct (Z.ltb_spec 0 (var l + 1)); [| lia]. split; [lia |]. split; [done |].
        rewrite <- Es. apply mkLit_var_sign. }
    rewrite (proj2 (Z.eqb_neq _ _) Hn0), Hlit, Hv.
    destruct (ensure_var K s (var l)) as [s1 |]; [| done]. simpl.
    assert (∀ f, readClause K f (32 :: print_clause c ++ r) s1 (lits ++ [l]) =
      readClause K f (print_clause c ++ r) s1 (lits ++ [l])) as ->.
    { intros [| f]; [done |]. cbn [readClause]. by rewrite parseInt_space. }
    rewrite IH by (done || lia). destruct (ensure_lits K s1 c); simpl; [| done].
    by rewrite <- (assoc_L (++)).
Qed.
Lemma print_clause_first c r : Forall (lit_ok (2 ^ 30)) c →
  skipWhitespace (print_clause c ++ r) = print_clause c ++ r ∧
  (peek (print_clause c ++ r) = 45 ∨ is_digit (peek (print_clause c ++ r)) = true).
Proof.
  intros Hok. destruct c as [| l c]; [split; [done | by right] |].
  apply Forall_cons in Hok as [Hl _].
  assert (print_clause (l :: c) ++ r = print_lit l ++ (print_clause c ++ r)) as ->.
  { unfold print_clause. csimpl. by rewrite <- !(assoc_L (++)). }
  destruct (skip_print_lit l (print_clause c ++ r) Hl) as [-> [[_ H] | H]]; auto.
Qed.

Lemma length_print_clause c : (length c < length (print_clause c))%nat.
Proof.
  unfold print_clause. rewrite length_app. simpl.
  induction c as [| l c IH]; csimpl; [lia |]. rewrite length_app.
  pose proof (length_print_lit l). lia.
Qed.

Lemma parse_clauses cs : ∀ fuel s pre, Forall (Forall (lit_ok (2 ^ 30))) cs →
  (length cs < fuel)%nat → pre = [] ∨ pre = [10] →
  parse_DIMACS_main K fuel (pre ++ (cs ≫= print_clause)) s = loadClauses K s cs.
Proof.
  induction cs as [| c cs IH]; intros fuel s pre Hok Hf Hpre; destruct fuel as [| fuel];
    simpl in Hf; try lia; cbn [parse_DIMACS_main]; cbv zeta.
  - by destruct Hpre as [-> | ->].
  - apply Forall_cons in Hok as [Hc Hok].
    change ((c :: cs) ≫= print_clause) with (print_clause c ++ (cs ≫= print_clause)).
    cbn [loadClauses]. set (input := print_clause c ++ (cs ≫= print_clause)).
    destruct (print_clause_first c (cs ≫= print_clause) Hc) as [Hskip Hpeek]. fold input in Hskip, Hpeek.
    assert (skipWhitespace (pre ++ input) = input) as ->.
    { by destruct Hpre as [-> | ->]. }
    assert (45 <= peek input <= 57 ∧ peek input ≠ 37) as [Hp1 Hp2].
    { destruct Hpeek as [-> | Hp]; [lia |]. unfold is_digit in Hp. zbool. lia. }
    rewrite !(proj2 (Z.eqb_neq _ _)) by lia.
    assert (∀ f, readClause K f input s [] =
      readClause K f (print_clause c ++ (cs ≫= print_clause)) s []) as -> by done.
    rewrite readClause_print; [| done |].
    + destruct (ensure_lits K s c) as [s1 |]; [| done]. simpl.
      destruct (sk_addClause K s1 c) as [s2 |]; [| done]. simpl.
      by apply (IH fuel s2 [10]); [| lia | right].
    + pose proof (length_print_clause c). unfold input. rewrite length_app. lia.
Qed.

Lemma parse_print v cs s : 0 <= v <= INT_MAX → Z.of_nat (length cs) <= INT_MAX →
  Forall (Forall (lit_ok (2 ^ 30))) cs →
  parse_DIMACS K (print_dimacs v cs) s = loadClauses K s cs.
Proof.
  intros Hv Hcs Hok. unfold parse_DIMACS, print_dimacs. set (body := cs ≫= print_clause).
  assert (length cs <= length body)%nat as Hlen.
  { unfold body. clear. induction cs as [| c cs IH]; csimpl; [lia |]. rewrite length_app.
    pose proof (length_print_clause c). lia. }
  set (fuel := length _). assert (length cs < fuel)%nat as Hf.
  { unfold fuel. rewrite !length_app. simpl. lia. }
  clearbody fuel. cbn [parse_DIMACS_main]. cbv zeta. simpl app.
  change (skipWhitespace (112 :: ?r)) with (112 :: r). cbn [peek].
  change (112 =? -1) with false. change (112 =? 112) with true. cbv iota.
  set (r := 32 :: digits v ++ _).
  change (eagerMatch (112 :: 32 :: 99 :: 110 :: 102 :: r) p_cnf) with (true, r).
  cbv beta iota. unfold r. rewrite parseInt_space, parseInt_digits by done. simpl.
  rewrite parseInt_space, parseInt_digits by (done || lia). simpl.
  apply (parse_clauses cs fuel s [10]); [done | done | by right].
Qed.
End Roundtrip.

(** C23. Reading back the DIMACS text written for the clauses [cs] succeeds, and
    the solver then has exactly the models it had before that satisfy every
    clause of [cs]; this holds for every solver with the two operations the
    parser calls. *)
Theorem dimacs_roundtrip {S} (K : Sink S) inv used means (v : Z) (cs : list (list Lit)) (s : S) :
  LawfulSink K inv used means → inv s → 0 <= v <= INT_MAX → Z.of_nat (length cs) <= INT_MAX →
  Forall (Forall (lit_ok (2 ^ 30))) cs → used s + words cs <= max_capacity →
  ∃ s', parse_DIMACS K (print_dimacs v cs) s = Some s' ∧ inv s' ∧
    ∀ σ, means s' σ ↔ means s σ ∧ ∀ c, c ∈ cs → clause_true σ c.
Proof. intros L Hi Hv Hcs Hok Hw. rewrite parse_print by done. by eapply loadClauses_spec. Qed.

(** ** A concrete solver *)

(** A fresh solver with the clauses [cs]. *)
Definition build (cs : list (list Lit)) : option Solver :=
  st ← new_solver default_params (d_of_Z 91648253) 2; loadClauses solver_sink st cs.

Lemma build_solver_spec cs : Forall (Forall (lit_ok (2 ^ 30))) cs → words cs <= max_capacity →
  ∃ st, build cs = Some st ∧ sink_inv st ∧
    ∀ σ, sink_means st σ ↔ ∀ c, c ∈ cs → clause_true σ c.
Proof.
  intros Hok Hw. unfold build.
  destruct (new_solver_total default_params (d_of_Z 91648253) 2) as [st0 E0].
  rewrite E0. simpl. destruct (new_sink _ _ _ E0) as (I & U & M).
  destruct (loadClauses_spec solver_sink sink_inv sink_used sink_means cs st0) as (st & -> & I' & M');
    [done | done | lia |].
  exists st. split; [done |]. split; [done |]. intros σ. rewrite M'. split; [tauto | by split].
Qed.

(** (x0 or x1), (not x0 or x1), (not x1 or x2), (x3 or x4). *)
Definition example_cs : list (list Lit) :=
  [[mkLit 0 false; mkLit 1 false]; [mkLit 0 true; mkLit 1 false]; [mkLit 1 true; mkLit 2 false];
   [mkLit 3 false; mkLit 4 false]].

Definition example_solver : Solver := default inhabitant (build example_cs).

Lemma example_eq st : build example_cs = Some st → example_solver = st.
Proof. intros E. change (default inhabitant (build example_cs) = st). by rewrite E. Qed.

Lemma example_ok : ok example_solver = true ∧ nv (core example_solver) = 5.
Proof. split; vm_compute; reflexivity. Qed.

Lemma example_ready : Ready example_solver.
Proof.
  destruct (build_solver_spec example_cs) as (st & E & (_ & R & _) & _).
  { repeat constructor; unfold lit_ok; rewrite ?var_mkLit; lia. }
  { unfold max_capacity. simpl. lia. }
  pose proof (proj1 example_ok) as O. rewrite (example_eq st E) in *. exact (R O).
Qed.
