(* ===== verification/LoadSolve.v ===== *)
(** * Loading clauses and solving them

    The solver that [loadClauses] fills stands for its clauses, so that
    [solveLimited] on it decides them: [build] and [solveLimited] together. *)
From Stdlib Require Import SpecFloat.
From S2P Require Import Prelude Lit Sort UnitProp Vec Heap Alloc Double DoubleSpec Clause Solver Propagate.
From S2P Require Import PropCheck Setup SetupSpec Reasons RandomSpec SearchInv SolverInv CDCL ConflictSpec.
From S2P Require Import CDCLSpec RestartSpec SolverSpec BuildSpec Load.

#[local] Opaque d_const d_add d_mul d_div d_ltb d_leb f_of_d d_of_Z.

(** ** Loading makes no conflict *)

(** The conflicts so far and the limits. *)
Definition limits (st : Solver) : Z * (Z * Z * bool) :=
  (confls st, (conflict_budget st, propagation_budget st, asynch_interrupt st)).

Lemma newVar_limits st upol dvar st' v : newVar st upol dvar = Some (st', v) → limits st' = limits st.
Proof.
  unfold newVar, fresh_var, limits, confls. destruct (last (free_vars st)); simpl;
    (destruct (init_activity _ _) as [[a o] |]; [| done]; simpl;
     destruct (Vec.capacity _ _); [| done]; simpl; intros E; by injection E as <- <-).
Qed.

Lemma extendProof_limits st c d x : limits (extendProof st c d x) = limits st.
Proof. unfold extendProof. by destruct (proof st). Qed.

Lemma add_simplified_limits st ps st' b : add_simplified st ps = Some (st', b) → limits st' = limits st.
Proof.
  destruct ps as [| l [| x ps]]; cbn [add_simplified].
  - by intros [= <- <-].
  - destruct (propagate _) as [[st1 c] |] eqn:E; [| done]. cbn [mbind option_bind]. intros [= <- <-].
    apply propagate_eq in E as [E Ec]. unfold limits, confls in *. simpl. rewrite Ec, E. reflexivity.
  - destruct (ca_alloc _ _ _) as [[cr a] |]; [| done]. cbn [mbind option_bind]. unfold attachClause.
    destruct (ca_deref _ _) as [c |]; [| done]. cbn [mbind option_bind]. intros [= <- <-].
    unfold count_clause, limits, confls. simpl. by case_match_goal.
Qed.

Lemma addClause_limits st ps st' b : addClause st ps = Some (st', b) → limits st' = limits st.
Proof.
  unfold addClause, addClause_. destruct (negb (ok st)); [by intros [= <- <-] |].
  destruct (sort _ _) as [qs |]; [| done]. cbn [mbind option_bind].
  destruct (simplify_lits _ _ _) as [ps' |]; [| by intros [= <- <-]].
  intros E%add_simplified_limits. rewrite E. case_match_goal; [| done]. by rewrite !extendProof_limits.
Qed.

(** ** A solver that is being loaded *)

Record Loaded (st : Solver) : Prop := {
  ld_sink : sink_inv st;
  ld_stands : ok st = true → ∃ F, Stands F st;
  ld_params : params st = default_params;
  ld_limits : limits st = (0, (-1, -1, false)) }.

#[export] Instance loaded_sink_lawful : LawfulSink solver_sink Loaded sink_used sink_means.
Proof.
  pose proof solver_sink_lawful as [L1 L2 L3]. split.
  - intros st [I _ _ _]. by apply L1.
  - intros st [I S P C] Hn. destruct (L2 st I Hn) as (st' & E & I' & rest). exists st'. split; [done |].
    split; [| done]. simpl in E. destruct (newVar st l_Undef true) as [[st1 v] |] eqn:En; [| done].
    simpl in E. injection E as ->. destruct (newVar_spec _ _ _ _ _ (proj1 I) En) as (_ & _ & _ & _ & Ek & Ep & _).
    split; [done | | by rewrite Ep | rewrite (newVar_limits _ _ _ _ _ En); exact C].
    rewrite Ek. intros Hok. destruct (S Hok) as [F HF]. exists F.
    by destruct (newVar_stands F st l_Undef st' v HF (proj2 (proj2 I)) En).
  - intros st ps [I S P C] Hok Hw. destruct (L3 st ps I Hok Hw) as (st' & E & I' & rest). exists st'. split; [done |].
    split; [| done]. simpl in E. destruct (addClause_ st ps) as [[st1 b] |] eqn:En; [| done].
    simpl in E. injection E as ->. pose proof (addClause_limits st ps st' b En) as Ec.
    simpl in Hok. unfold nVars in Hok. rewrite (ba_next _ (proj1 I)) in Hok.
    destruct (ok st) eqn:Ek.
    + destruct (S eq_refl) as [F HF].
      destruct (addClause_stands F st ps HF Hok Hw) as (st2 & b2 & E2 & Eo & _ & Ep & _ & Hb).
      unfold addClause in E2. rewrite En in E2. injection E2 as <- <-.
      split; [done | | by rewrite Ep | rewrite Ec; exact C]. rewrite Eo. intros ->. eauto.
    + assert (st' = st) as -> by (unfold addClause_ in En; rewrite Ek in En; by injection En).
      by split; rewrite ?Ek.
Qed.

Lemma new_loaded z ps st : 0 <= z < lcg_modulus → new_solver default_params (d_of_Z z) ps = Some st →
  Loaded st ∧ sink_used st = 0 ∧ ∀ σ, sink_means st σ.
Proof.
  intros Hz E. destruct (new_sink _ _ _ E) as (I & U & M). split; [| exact (conj U M)].
  destruct (new_solver_stands z ps st Hz E) as (S & _ & _ & P). split; [exact I | intros _; by eexists | exact P |].
  destruct (new_solver_eq _ _ _ _ E) as (r & -> & _). reflexivity.
Qed.

(** What a loaded solver means is what it stands for. *)
Lemma loaded_holds F st : Loaded st → (∀ σ, sink_means st σ ↔ models σ F) → Holds F st.
Proof.
  intros [_ S _ _] M. destruct (ok st) eqn:Ek.
  - destruct (S eq_refl) as [F' HF]. apply stands_holds. destruct HF as [R Hok H Hls Has].
    split; try done. apply (sinv_formula F'); [| done]. intros σ. rewrite <- M.
    rewrite (stands_models F' st) by (by split). unfold sink_means. rewrite Hok. tauto.
  - unfold Holds. rewrite Ek. intros σ Hσ. apply M in Hσ as [? _]. congruence.
Qed.

(** [build cs] stands for the clauses [cs]. *)
Lemma build_holds cs : Forall (Forall (lit_ok (2 ^ 30))) cs → words cs <= max_capacity →
  ∃ st, build cs = Some st ∧ Holds (λ c, c ∈ cs) st ∧ params st = default_params ∧ limits st = (0, (-1, -1, false)).
Proof.
  intros Hok Hw. unfold build. destruct (new_solver_total default_params (d_of_Z 91648253) 2) as [st0 E0].
  rewrite E0. cbn [mbind option_bind].
  destruct (new_loaded 91648253 2 st0) as (I & U & M); [unfold lcg_modulus; lia | exact E0 |].
  destruct (loadClauses_spec solver_sink Loaded sink_used sink_means cs st0) as (st & -> & I' & M');
    [exact I | exact Hok | lia |].
  exists st. split; [reflexivity |]. split; [| exact (conj (ld_params _ I') (ld_limits _ I'))].
  apply loaded_holds; [exact I' |].
  intros σ. rewrite M'. unfold models. split; [tauto |]. intros H. exact (conj (M σ) H).
Qed.

(** ** Solving *)

(** Out of budget with no limit but the one on conflicts: they were all used. *)
Lemma out_of_budget st b : (conflict_budget st, propagation_budget st, asynch_interrupt st) = (b, -1, false) →
  0 <= b < 2 ^ 64 → withinBudget st = false → b <= confls st.
Proof.
  intros [= E1 E2 E3] Hb Hw. unfold withinBudget in Hw. rewrite E1, E2, E3 in Hw.
  destruct (Z.ltb_spec b 0); [lia |]. simpl in Hw. rewrite andb_true_r in Hw. apply Z.ltb_ge in Hw.
  unfold u64 in Hw. by rewrite Z.mod_small in Hw.
Qed.

Lemma holds_budget F st x : Holds F st → Holds F (setConfBudget st x).
Proof.
  unfold Holds. change (ok (setConfBudget st x)) with (ok st). destruct (ok st); [| intros H; exact H].
  intros [H E]. split; [| exact E]. apply (sinv_same _ _ st H); try reflexivity. apply (si_act _ _ _ H).
Qed.

(** C2. Loading clauses and solving them under assumptions with room for [n]
    conflicts always returns.  The answer [l_True] comes with a model of the
    clauses and the assumptions over all the variables; [l_False] with a clause
    over negated assumptions that the clauses entail, or there is no model at
    all; [l_Undef] only after [n] conflicts.  The solver still stands for the
    clauses. *)
Theorem load_solve_correct cs st assumps n fuel search_fuel :
  Forall (Forall (lit_ok (2 ^ 30))) cs → words cs <= max_capacity → build cs = Some st →
  Forall (lit_ok (nv (core st))) assumps → 0 <= n < 2 ^ 24 →
  room st + (n + Z.of_nat (length assumps) + nv (core st) + 1) * (nv (core st) + 2) <= max_capacity →
  n < 2 ^ Z.of_nat fuel → search_rounds (st <| assumptions := assumps |>) (n + 100) < 2 ^ Z.of_nat search_fuel →
  ∃ st' status, solveLimited fuel search_fuel (setConfBudget st n) assumps = Some (st', status) ∧
    Outcome (λ c, c ∈ cs) assumps st' status ∧ (status = l_Undef → n <= confls st') ∧ Holds (λ c, c ∈ cs) st'.
Proof.
  intros Hok Hw Eb Ha Hn Hr Hf Hs. destruct (build_holds cs Hok Hw) as (st1 & E1 & HF & Hp & Hl).
  rewrite Eb in E1. injection E1 as <-. injection Hl as Hc Hb Hpb Hi.
  assert (conflict_budget (setConfBudget st n) = n) as Ebud.
  { unfold setConfBudget. simpl. fold (confls st). rewrite Hc. rewrite Z.add_0_l. unfold s64, u64. rewrite Z.mod_small by lia. destruct (Z.ltb_spec n (2 ^ 63)); lia. }
  destruct (solveLimited_spec (λ c, c ∈ cs) (setConfBudget st n) assumps n fuel search_fuel)
    as (st' & status & E & Ho & Hh & _ & _ & _ & El & _).
  - by apply holds_budget.
  - split; try assumption; try (change (confls (setConfBudget st n)) with (confls st); rewrite ?Ebud, Hc; lia).
  - exact Hf.
  - exact Hs.
  - exists st', status. split; [exact E |]. split; [exact Ho |]. split; [| exact Hh]. intros ->.
    destruct Ho as [[? _] | [[? _] | [_ Ho]]]; [discriminate | discriminate |].
    apply out_of_budget; [| lia | exact Ho]. rewrite El, Ebud.
    change (propagation_budget (setConfBudget st n)) with (propagation_budget st).
    change (asynch_interrupt (setConfBudget st n)) with (asynch_interrupt st). rewrite Hpb, Hi. reflexivity.
Qed.
