(* ===== verification/Problem.v ===== *)
(** * [core/sat/Problem]: reading a problem

    [core/sat/Problem.cpp].  A problem is read into a [SimpSolver], simplified
    if asked, and given out as renamed clauses; models of these are renamed back
    and extended to the original variables.  The path, the copies and the lock
    are left out; [_solver] is the state passed along. *)
From Stdlib Require Import SpecFloat.
From S2P Require Import Prelude Lit Vec Heap Alloc Double Queue Clause Solver Setup Analyze Reduce CDCL Simp Load.

(** ** Loading *)

(** [SimpSolver] as the readers use it. *)
Definition simp_sink : Sink Simp :=
  MkSink (λ t, nVars (base t)) (λ t, fst <$> simp_newVar t l_Undef true) (λ t ps, fst <$> simp_addClause_ t ps).

(** A new solver with the default options. *)
Definition fresh_simp : option Simp := new_simp default_simp default_params (d_of_Z 91648253) 2.

Record Problem := MkProblem {
  p_clauses : list (list Lit);
  p_mapping : list Z;
  p_rev_mapping : list Z;
  p_model : list lbool;
  p_solver : Simp;
  p_result : State }.

(** One variable of the loop that fills [_rev_mapping]. *)
Definition rev_step (map rev : list Z) (v : Var) : list Z :=
  if (Z.of_nat (length map) <=? v) || (zget (-1) map v =? -1) then rev
  else
    let mapped := zget (-1) map v in
    zset (grow_to rev (Z.to_nat (1 + mapped)) 0) mapped v.

Definition fill_rev (n : Z) (map : list Z) : list Z := foldl (rev_step map) [] (seqZ 0 n).

(** Parsing and the elimination. *)
Definition load_problem (fuel : nat) (text : list Z) (elim : bool) : option (Simp * bool) :=
  t ← fresh_simp;
  t ← parse_DIMACS simp_sink text (t <| parsing := true |>);
  let t := t <| parsing := false |> in
  if elim then eliminate fuel t true else Some (t, true).

(** [read_clauses()]. *)
Definition read_clauses (fuel restarts search_fuel : nat) (text : list Z) (elim : bool) : option Problem :=
  '(t, ok) ← load_problem fuel text elim;
  '(cls, map) ← toDimacs t [];
  let rev := fill_rev (nVars (base t)) map in
  match cls with
  | [] =>
      if ok : bool then
        '(t, _) ← simp_solve fuel restarts search_fuel t [] true false;
        Some (MkProblem [] map rev (model (base t)) t SAT)
      else Some (MkProblem [] map rev [] t UNSAT)
  | _ => Some (MkProblem cls map rev [] t UNKNOWN)
  end.

(** ** Back to the original variables *)

(** The loop over the variables; [None] is a failed check. *)
Fixpoint remap_loop (s : Core) (map : list Z) (vars m : list lbool) (vs : list Var) : option (list lbool) :=
  match vs with
  | [] => Some m
  | i :: vs =>
      if lb_neb (value_var s i) l_Undef then remap_loop s map vars (zset m i (value_var s i)) vs
      else if (Z.of_nat (length map) <=? i) || (zget (-1) map i =? -1) then remap_loop s map vars m vs
      else
        let k := zget (-1) map i in
        if (0 <=? k) && (k <? Z.of_nat (length vars))
        then remap_loop s map vars (zset m i (zget inhabitant vars k)) vs
        else None
  end.

Definition remap_and_extend_model (p : Problem) (vars : list lbool) : option (Problem * list lbool) :=
  let t := p_solver p in
  let st := base t in
  let m := grow_to (model st) (Z.to_nat (nVars st)) l_Undef in
  m ← remap_loop (core st) (p_mapping p) vars m (seqZ 0 (nVars st));
  t ← extendModel (t <| base := st <| model := m |> |>);
  Some (MkProblem (p_clauses p) (p_mapping p) (p_rev_mapping p) (p_model p) t (p_result p), model (base t)).

Definition remap_variables (p : Problem) (vars : list Z) : option (list Z) :=
  mapM (λ v, if v <? Z.of_nat (length (p_rev_mapping p)) then Some (zget 0 (p_rev_mapping p) v) else None) vars.

(** ** The simplified clauses as a file

    [toDimacs(FILE*, assumps)] and its helper for one clause. *)

Fixpoint text_clauses (s : Core) (map : list Z) (max : Z) (cs : list Clause) : list Z :=
  match cs with
  | [] => []
  | c :: cs =>
      if satisfied s c then text_clauses s map max cs
      else let '(lits, map, max) := map_lits s map max (c_lits c) in print_clause lits ++ text_clauses s map max cs
  end.

Fixpoint text_assumps (map : list Z) (max : Z) (ps : list Lit) : list Z * list Z * Z :=
  match ps with
  | [] => ([], map, max)
  | p :: ps =>
      let '(x, map, max) := mapVar (var p) map max in
      let '(r, map, max) := text_assumps map max ps in
      (print_clause [mkLit x (sign p)] ++ r, map, max)
  end.

(** A refuted solver prints a fixed contradiction. *)
Definition toDimacs_text (t : Simp) (assumps : list Lit) : option (list Z) :=
  if negb (ok (base t)) then Some (print_dimacs 1 [[mkLit 0 false]; [mkLit 0 true]])
  else
    cs ← mapM (clause_of t) (clauses (base t));
    let s := core (base t) in
    let '(map, max) := map_clauses s [] 0 cs in
    let cnt := (length (List.filter (λ c, negb (satisfied s c)) cs) + length assumps)%nat in
    let header := p_cnf ++ [32] ++ digits max ++ [32] ++ digits (Z.of_nat cnt) ++ [10] in
    let '(a, map, max) := text_assumps map max assumps in
    Some (header ++ a ++ text_clauses s map max cs).

(** ** Refuted by the elimination *)

(** All four clauses over x0 and x1, and (x2 or x3). *)
Definition refuted_cs : list (list Lit) :=
  [[mkLit 0 false; mkLit 1 false]; [mkLit 0 false; mkLit 1 true]; [mkLit 0 true; mkLit 1 false];
   [mkLit 0 true; mkLit 1 true]; [mkLit 2 false; mkLit 3 false]].
