(* ===== verification/ProblemSpec.v ===== *)
(** * Loading a problem and renaming its clauses

    [SimpSolver] loads clauses as the base solver does; the clauses that
    [toDimacs] gives out are the unsatisfied ones without their false literals,
    under an injective renaming; and their models, renamed back, are models of
    the clauses loaded. *)
From Stdlib Require Import SpecFloat.
From S2P Require Import Prelude Lit Sort UnitProp Vec Heap Alloc Double Queue Clause Solver Propagate.
From S2P Require Import PropCheck Setup SetupSpec Analyze Reduce CDCL BuildSpec Simp Load Problem.

#[local] Opaque d_const d_add d_mul d_div d_ltb d_leb f_of_d d_of_Z.

(** ** The list of clauses is what the arena holds *)

Definition listed (st : Solver) : Prop :=
  (∀ cr, cr ∈ clauses st ↔ ∃ c, live (mem (core st)) cr c) ∧ (0 : Z) ∉ clauses st ∧
  0 < r_sz (a_region (ca (core st))).

Lemma listed_perm st st' : clauses st' = clauses st → mem_perm (mem (core st)) (mem (core st')) →
  a_region (ca (core st')) = a_region (ca (core st)) → listed st → listed st'.
Proof.
  intros Ec Hm Er (H1 & H2 & H3). unfold listed. rewrite Ec, Er. split; [| done]. intros cr. rewrite H1. split.
  - intros (c & Hc). destruct (mem_perm_live _ _ _ _ Hm Hc) as (c' & ? & _). eauto.
  - intros (c & Hc). symmetry in Hm. destruct (mem_perm_live _ _ _ _ Hm Hc) as (c' & ? & _). eauto.
Qed.

Lemma newVar_clauses st upol dvar st' v : newVar st upol dvar = Some (st', v) →
  clauses st' = clauses st ∧ ca (core st') = ca (core st).
Proof.
  unfold newVar, fresh_var. destruct (last (free_vars st)); simpl;
    (destruct (init_activity _ _) as [[a o] |]; [| done]; simpl;
     destruct (Vec.capacity _ _); [| done]; simpl; intros E; by injection E as <- <-).
Qed.

Lemma extendProof_clauses st c d x : clauses (extendProof st c d x) = clauses st ∧
  core (extendProof st c d x) = core st.
Proof. unfold extendProof. by destruct (proof st). Qed.

Lemma add_simplified_listed st ps st' b : Ready st → room_for st (length ps) →
  (∀ l, ps = [l] → Inv (qhead (core st)) (uncheckedEnqueue (core st) l CRef_Undef)) →
  add_simplified st ps = Some (st', b) → listed st → listed st'.
Proof.
  intros R Hroom Hinv E L. destruct ps as [| l [| x ps]]; cbn [add_simplified] in E.
  - by injection E as <- <-.
  - destruct (propagate_spec (st <| core := uncheckedEnqueue (core st) l CRef_Undef |>)) as (st1 & c & E1 & _ & F).
    { by apply Hinv. }
    rewrite E1 in E. cbn [mbind option_bind] in E. injection E as <- <-.
    destruct F as [Fr _ _ Fm [Fg _]]. unfold rest_of in Fr. injection Fr as _ Fc _ _ _ _ _ _ _ _ _ _.
    by apply (listed_perm st).
  - destruct (ca_alloc_spec _ (l :: x :: ps) false (rd_arena _ R) Hroom) as (a & Ea & Ha & Em & Hnone & _ & _).
    rewrite Ea in E. cbn [mbind option_bind] in E. unfold attachClause in E.
    destruct (ca_deref _ _) as [c |]; [| done]. cbn [mbind option_bind] in E. injection E as <- <-.
    destruct L as (L1 & L2 & L3). set (cr := r_sz _) in *. destruct Ha as [_ Ha]. rewrite Em in Ha.
    unfold listed, mem in *. simpl. rewrite Em. split; [| split].
    + intros cr'. rewrite elem_of_app, list_elem_of_singleton, L1. split.
      * intros [(d & Hd & Hm) | ->].
        -- exists d. split; [| done]. rewrite lookup_insert_ne; [done |]. intros <-.
           by pose proof (eq_trans (eq_sym Hnone) Hd).
        -- eexists. split; [apply lookup_insert_eq |]. unfold new_clause. by case_match_goal.
      * intros (d & Hd & Hm). destruct (decide (cr = cr')) as [<- | Hne]; [by right | left].
        rewrite lookup_insert_ne in Hd by done. by exists d.
    + rewrite elem_of_app, list_elem_of_singleton. intros [? | E0]; [done |]. lia.
    + specialize (Ha cr _ (lookup_insert_eq _ _ _)). lia.
Qed.

Lemma addClause_listed st ps st' b : Ready st → Forall (lit_ok (nv (core st))) ps → room_for st (length ps) →
  addClause_ st ps = Some (st', b) → listed st → listed st'.
Proof.
  intros R Hok Hroom E L. unfold addClause_ in E. destruct (negb (ok st)); [by injection E as <- <- |].
  destruct (sort_spec lit_ltb ps) as (qs & Es & Hp & Hs). rewrite Es in E. simpl in E.
  pose proof (inv_trail _ _ (proj1 (rd_stable _ R))) as T.
  assert (Forall (lit_ok (nv (core st))) qs) as Hokq by by rewrite Hp.
  destruct (simplify_lits _ _ _) as [ps' |] eqn:E'; [| by injection E as <- <-].
  destruct (simplify_lits_some _ T qs lit_Undef ps' Hokq Hs) as (H1 & H2 & _); [| done |].
  { intros l Hl. rewrite Forall_forall in Hokq. apply Hokq, lit_ok_x in Hl. simpl. lia. }
  assert (length ps' <= length ps)%nat as Hlen.
  { apply submseteq_length, NoDup_submseteq; [done |]. intros l Hl. rewrite <- Hp. by apply H2. }
  set (st0 := if modified_lits _ _ _ then _ else st) in E.
  assert (Ready st0 ∧ clauses st0 = clauses st ∧ core st0 = core st) as (R0 & Ec & Ek).
  { unfold st0. case_match_goal; [| done].
    destruct (extendProof_ready _ ps' false lit_Undef R) as (A1 & _).
    destruct (extendProof_ready _ qs true lit_Undef A1) as (B1 & _). split; [done |].
    destruct (extendProof_clauses st ps' false lit_Undef) as [C1 C2].
    destruct (extendProof_clauses (extendProof st ps' false lit_Undef) qs true lit_Undef) as [D1 D2].
    by rewrite D1, D2. }
  apply (add_simplified_listed st0 ps' st' b); [done | unfold room_for in *; rewrite Ek; lia | | done |].
  - intros l ->. rewrite Ek. destruct (H2 l ltac:(by left)) as (_ & Hin & Hl1 & Hl2).
    destruct (rd_stable _ R) as [I Hq]. apply inv_enqueue; [exact I | | done | done].
    rewrite Forall_forall in Hokq. by apply Hokq.
  - unfold listed. by rewrite Ec, Ek.
Qed.

(** ** Loading into a [SimpSolver] *)

Record SimpInv (t : Simp) : Prop := {
  si_sink : sink_inv (base t);
  si_listed : listed (base t);
  si_model : model (base t) = [];
  si_store : elimclauses t = [];
  si_tmp : bwdsub_tmpunit t = 0;
  si_rcheck : use_rcheck t = false }.

Definition loading (t : Simp) : Prop := SimpInv t ∧ parsing t = true.

Lemma touch_lits cr ls : ∀ t, let t' := foldl (touch_lit cr) t ls in
  base t' = base t ∧ elimclauses t' = elimclauses t ∧ bwdsub_tmpunit t' = bwdsub_tmpunit t ∧
  use_rcheck t' = use_rcheck t ∧ parsing t' = parsing t.
Proof.
  induction ls as [| l ls IH]; intros t; simpl; [done |]. specialize (IH (touch_lit cr t l)). simpl in IH.
  destruct IH as (-> & -> & -> & -> & ->). unfold touch_lit. by case_match_goal.
Qed.

Lemma simp_newVar_base t upol dvar st v : newVar (base t) upol dvar = Some (st, v) →
  ∃ t', simp_newVar t upol dvar = Some (t', v) ∧ base t' = st ∧ elimclauses t' = elimclauses t ∧
    bwdsub_tmpunit t' = bwdsub_tmpunit t ∧ use_rcheck t' = use_rcheck t ∧ parsing t' = parsing t.
Proof. intros E. unfold simp_newVar. rewrite E. cbn [mbind option_bind]. case_match_goal; eexists; by split. Qed.

Lemma simp_addClause_base t ps st b : loading t → addClause_ (base t) ps = Some (st, b) → listed st →
  ∃ t', simp_addClause_ t ps = Some (t', b) ∧ base t' = st ∧ elimclauses t' = elimclauses t ∧
    bwdsub_tmpunit t' = bwdsub_tmpunit t ∧ use_rcheck t' = use_rcheck t ∧ parsing t' = parsing t.
Proof.
  intros [[_ _ _ _ _ Hr] Hp] E L. unfold simp_addClause_. rewrite Hr. cbn [mbind option_bind]. rewrite Hp, E.
  cbn [mbind option_bind]. destruct b; simpl negb; cbv iota; [| eexists; by split].
  destruct (use_simplification _ && _) eqn:Eu; [| eexists; by split].
  apply andb_true_iff in Eu as [_ Hl%Nat.eqb_eq].
  destruct (last (clauses st)) as [cr |] eqn:El; [| apply last_None in El; rewrite El in Hl; simpl in Hl; lia].
  cbn [mbind option_bind]. destruct (proj1 (proj1 L cr)) as (c & Hc & _); [by apply last_Some_elem_of |].
  assert (∃ d, clause_of (t <| base := st |>) cr = Some d) as (d & ->).
  { unfold clause_of. case_match_goal; [by eexists | by exists c]. }
  cbn [mbind option_bind]. eexists. split; [reflexivity |].
  destruct (touch_lits cr (c_lits d)
    ((t <| base := st |>) <| subsumption_queue := q_insert (subsumption_queue t) cr |>)) as (A & B & C & D & E').
  exact (conj A (conj B (conj C (conj (eq_trans D Hr) (eq_trans E' Hp))))).
Qed.

Lemma addClause_model st ps st' b : addClause_ st ps = Some (st', b) → model st' = model st.
Proof.
  unfold addClause_. destruct (negb (ok st)); [by intros [= <- <-] |].
  destruct (sort _ _) as [qs |]; [| done]. cbn [mbind option_bind].
  destruct (simplify_lits _ _ _) as [ps' |]; [| by intros [= <- <-]].
  set (st0 := if modified_lits _ _ _ then _ else st).
  assert (model st0 = model st) as <-.
  { unfold st0, extendProof. case_match_goal; [| done]. destruct (proof st) eqn:Ep; simpl; [| by rewrite Ep]. done. }
  destruct ps' as [| l [| x ps']]; cbn [add_simplified].
  - by intros [= <- <-].
  - destruct (propagate _) as [[st1 c] |] eqn:E; [| done]. cbn [mbind option_bind]. intros [= <- <-].
    unfold propagate in E. destruct (propagate_core _) as [[[s c'] n] |]; [| done]. simpl in E. by injection E as <- <-.
  - destruct (ca_alloc _ _ _) as [[cr a] |]; [| done]. cbn [mbind option_bind]. unfold attachClause.
    destruct (ca_deref _ _) as [c |]; [| done]. cbn [mbind option_bind]. by intros [= <- <-].
Qed.

#[export] Instance simp_sink_lawful :
  LawfulSink simp_sink loading (λ t, sink_used (base t)) (λ t, sink_means (base t)).
Proof.
  pose proof solver_sink_lawful as [L1 L2 L3]. split.
  - intros t [H _]. apply (L1 _ (si_sink _ H)).
  - intros t [H Hp] Hn. destruct (L2 (base t) (si_sink _ H) Hn) as (st' & E & I & N & U & M). simpl in E, N, Hn.
    destruct (newVar (base t) l_Undef true) as [[st v] |] eqn:Ev; [| done]. simpl in E. injection E as ->.
    destruct (simp_newVar_base t _ _ _ _ Ev) as (t' & Et & Eb & A & B & C & D). exists t'. simpl.
    rewrite Et, Eb. split; [done |]. split; [| done]. destruct (newVar_clauses _ _ _ _ _ Ev) as [Ec Ea].
    pose proof H as [_ Hl Hm Hs Ht Hr]. split; [| by rewrite D]. split; rewrite ?Eb, ?A, ?B, ?C; try done.
    + unfold listed, mem in *. by rewrite Ec, Ea.
    + rewrite <- Hm. revert Ev. unfold newVar, fresh_var. destruct (last (free_vars _)); simpl;
        (destruct (init_activity _ _) as [[a o] |]; [| done]; simpl;
         destruct (Vec.capacity _ _); [| done]; simpl; intros E; by injection E as <- <-).
  - intros t ps [H Hp] Hok Hw. destruct (L3 (base t) ps (si_sink _ H) Hok Hw) as (st' & E & I & N & U & M). simpl in E, N, Hok.
    destruct (addClause_ (base t) ps) as [[st b] |] eqn:Ea; [| done]. simpl in E. injection E as ->.
    assert (listed st') as Hl'.
    { destruct (ok (base t)) eqn:Ek.
      - apply (addClause_listed (base t) ps st' b); try done; [by apply (si_sink _ H) | | apply H].
        unfold nVars in Hok. by rewrite (ba_next _ (proj1 (si_sink _ H))) in Hok.
      - unfold addClause_ in Ea. rewrite Ek in Ea. injection Ea as <- <-. apply H. }
    destruct (simp_addClause_base t ps st' b (conj H Hp) Ea Hl') as (t' & Et & Eb & A & B & C & D). exists t'. simpl.
    rewrite Et, Eb. split; [done |]. split; [| done].
    pose proof H as [_ Hl Hm Hs Ht Hr]. split; [| by rewrite D]. split; rewrite ?Eb, ?A, ?B, ?C; try done.
    by rewrite (addClause_model _ _ _ _ Ea).
Qed.

Lemma ready_arena st a b : Ready st → arena_ok a → a_mem a = mem (core st) →
  Ready (set_remove_satisfied (st <| core := (core st) <| ca := a |> |>) b).
Proof.
  intros [[I Hq] R2 R3 R4 _ R6 R7] Ha Em. split; [| exact R2 | exact R3 | exact R4 | exact Ha | exact R6 | exact R7].
  split; [| exact Hq]. destruct I. unfold set_remove_satisfied. simpl.
  split; unfold mem; simpl; rewrite ?Em; assumption.
Qed.

(** The new solver, with the dummy clause in its arena. *)
Lemma fresh_simp_inv : ∃ t, fresh_simp = Some t ∧ loading (t <| parsing := true |>) ∧ sink_used (base t) = 3 ∧
  ∀ σ, sink_means (base t) σ.
Proof.
  unfold fresh_simp, new_simp. destruct (new_solver_total default_params (d_of_Z 91648253) 2) as [st0 E0].
  rewrite E0. cbn [mbind option_bind]. destruct (new_sink _ _ _ E0) as ((B & R & P) & U & M).
  destruct (new_solver_ready _ _ _ _ E0) as (R0 & O & N & T & Pa & Me & S).
  destruct (alloc_spec (a_region (ca (core st0))) (clauseWord32Size 1 true)) as (r & Er & Hwf & Hs).
  { apply R0. } { unfold clauseWord32Size. simpl. lia. } { rewrite S. unfold clauseWord32Size, max_capacity. simpl. lia. }
  unfold set_extra. cbn [a_region a_mem a_extra]. rewrite Er. cbn [mbind option_bind].
  eexists. split; [reflexivity |]. rewrite S in Hs. change (clauseWord32Size 1 true) with 3 in Hs.
  set (st := set_remove_satisfied _ false).
  assert (Ready st) as R'.
  { apply ready_arena; [done | split; [exact Hwf |] | done]. intros cr c Hc. simpl in Hc. rewrite Me in Hc.
    exact (False_ind _ (lookup_empty_Some _ _ Hc)). }
  split; [| split; [exact Hs |]].
  - split; [| reflexivity]. apply Build_SimpInv; [| | | reflexivity | exact S | reflexivity].
    + split; [exact (ready_base _ R') |]. split; [intros _; exact R' | exact P].
    + destruct (new_solver_eq _ _ _ _ E0) as (r0 & -> & _). split; [| split; [apply not_elem_of_nil |]].
      * intros cr. split; [intros H; exact (False_ind _ (not_elem_of_nil _ H)) |].
        intros (c & Hc & _). exact (False_ind _ (lookup_empty_Some _ _ Hc)).
      * change (0 < r_sz r). lia.
    + destruct (new_solver_eq _ _ _ _ E0) as (r0 & -> & _). reflexivity.
  - intros σ. exact (M σ).
Qed.

(** ** The new names *)

(** The new name of a variable, [-1] when it has none. *)
Definition name_of (map : list Z) (x : Var) : Z := zget (-1) map x.

Record Named (map : list Z) (max : Z) : Prop := {
  na_range : ∀ x, name_of map x ≠ -1 → 0 <= name_of map x < max;
  na_inj : ∀ x y, name_of map x ≠ -1 → name_of map x = name_of map y → x = y;
  na_max : 0 <= max }.

(** The names given are kept. *)
Definition keeps (map map' : list Z) : Prop := ∀ x, name_of map x ≠ -1 → name_of map' x = name_of map x.

#[export] Instance keeps_preorder : PreOrder keeps.
Proof.
  split; [done |]. intros a b c H1 H2 x Hx. rewrite H2, H1; [done | done |]. by rewrite H1.
Qed.

Lemma zget_nonneg {A} (d : A) l k : zget d l k ≠ d → 0 <= k < Z.of_nat (length l).
Proof.
  unfold zget. destruct (Z.ltb_spec k 0); [done |]. destruct (l !! Z.to_nat k) eqn:E; [| done].
  apply lookup_lt_Some in E. lia.
Qed.

Lemma name_grow map n x : name_of (grow_to map n (-1)) x = name_of map x.
Proof.
  unfold name_of, zget, grow_to. destruct (x <? 0); [done |].
  destruct (decide (Z.to_nat x < length map)%nat).
  - by rewrite lookup_app_l.
  - rewrite lookup_app_r by lia. rewrite (lookup_ge_None_2 map) by lia. simpl.
    destruct (decide (Z.to_nat x - length map < n - length map)%nat).
    + by rewrite lookup_replicate_2.
    + by rewrite lookup_ge_None_2 by (rewrite length_replicate; lia).
Qed.

Lemma mapVar_spec x map max : Named map max → 0 <= x → let '(y, map', max') := mapVar x map max in
  Named map' max' ∧ keeps map map' ∧ y = name_of map' x ∧ y ≠ -1.
Proof.
  intros H Hx. unfold mapVar. fold (name_of map x). destruct (_ || _) eqn:E.
  - assert (name_of map x = -1) as Hn.
    { apply orb_true_iff in E as [E%Z.leb_le | E%Z.eqb_eq]; [| done]. unfold name_of, zget.
      destruct (x <? 0); [done |]. by rewrite lookup_ge_None_2 by lia. }
    set (g := grow_to map _ _). assert (0 <= x < Z.of_nat (length g)) as Hlt.
    { unfold g, grow_to. rewrite length_app, length_replicate. lia. }
    assert (∀ u, name_of (zset g x max) u = if decide (x = u) then max else name_of map u) as Hs.
    { intros u. unfold name_of at 1. rewrite zget_zset by done. case_decide; [done |]. apply name_grow. }
    destruct H as [H1 H2 H3]. split; [split |].
    + intros u. rewrite Hs. case_decide; [lia |]. intros Hu. specialize (H1 u Hu). lia.
    + intros u w. rewrite !Hs. intros Hu Ew. case_decide; case_decide; try congruence; [| | by apply H2].
      * destruct (decide (name_of map w = -1)); [lia |]. specialize (H1 w ltac:(done)). lia.
      * specialize (H1 u Hu). lia.
    + lia.
    + split; [| rewrite Hs, decide_True by done; lia]. intros u Hu. rewrite Hs. case_decide; congruence.
  - apply orb_false_iff in E as [_ E%Z.eqb_neq]. by split.
Qed.

(** The literal over the new name. *)
Definition rename (map : list Z) (l : Lit) : Lit := mkLit (name_of map (var l)) (sign l).

Definition has_name (map : list Z) (l : Lit) : Prop := name_of map (var l) ≠ -1.

Lemma rename_keeps map map' ls : keeps map map' → Forall (has_name map) ls → rename map' <$> ls = rename map <$> ls.
Proof.
  intros H Hl. apply list_fmap_ext. intros i l E. unfold rename. rewrite H; [done |].
  rewrite Forall_forall in Hl. apply Hl. by eapply list_elem_of_lookup_2.
Qed.

Lemma has_name_keeps map map' ls : keeps map map' → Forall (has_name map) ls → Forall (has_name map') ls.
Proof.
  intros H Hl. eapply Forall_impl; [exact Hl |]. intros l Hn. unfold has_name in *. by rewrite H.
Qed.

(** The literals that are given out. *)
Definition unfalse (s : Core) (ls : list Lit) : list Lit := List.filter (λ l, lb_neb (value s l) l_False) ls.

Lemma map_lits_spec s ls : ∀ map max, Named map max → Forall (λ l, 0 <= var l) ls →
  let '(out, map', max') := map_lits s map max ls in
  Named map' max' ∧ keeps map map' ∧ Forall (has_name map') (unfalse s ls) ∧ out = rename map' <$> unfalse s ls.
Proof.
  induction ls as [| l ls IH]; intros map max H Hls; simpl.
  { split; [done |]. split; [done |]. split; [apply Forall_nil_2 | done]. }
  apply Forall_cons in Hls as [Hl Hls]. destruct (lb_neb (value s l) l_False); [| by apply IH].
  pose proof (mapVar_spec (var l) map max H Hl) as Hm. destruct (mapVar _ _ _) as [[y map1] max1].
  destruct Hm as (N1 & K1 & -> & Hy). specialize (IH map1 max1 N1 Hls).
  destruct (map_lits s map1 max1 ls) as [[out map2] max2]. destruct IH as (N2 & K2 & F2 & ->).
  split; [done |]. split; [by etrans |]. assert (has_name map2 l) as Hn by (unfold has_name; by rewrite K2).
  split; [by apply Forall_cons |]. simpl. f_equal. unfold rename. by rewrite K2.
Qed.

Definition clause_range (c : Clause) : Prop := Forall (λ l, 0 <= var l) (c_lits c).

Definition rename_clause (map : list Z) (c : list Lit) : list Lit := rename map <$> c.

(** What is given out of the clauses. *)
Definition remaining (s : Core) (cs : list Clause) : list (list Lit) :=
  (λ c, unfalse s (c_lits c)) <$> List.filter (λ c, negb (satisfied s c)) cs.

Lemma map_clauses_spec s cs : ∀ map max, Named map max → Forall clause_range cs →
  let '(map', max') := map_clauses s map max cs in
  Named map' max' ∧ keeps map map' ∧ Forall (Forall (has_name map')) (remaining s cs).
Proof.
  induction cs as [| c cs IH]; intros map max H Hcs; simpl; [done |].
  apply Forall_cons in Hcs as [Hc Hcs]. unfold remaining. simpl. destruct (satisfied s c); [by apply IH |].
  pose proof (map_lits_spec s (c_lits c) map max H Hc) as Hm. destruct (map_lits _ _ _ _) as [[o map1] max1].
  destruct Hm as (N1 & K1 & F1 & _). specialize (IH map1 max1 N1 Hcs). destruct (map_clauses _ _ _ _) as [map2 max2].
  destruct IH as (N2 & K2 & F2). split; [done |]. split; [by etrans |]. simpl. apply Forall_cons.
  split; [by eapply has_name_keeps | exact F2].
Qed.

Definition non_empty (c : list Lit) : bool := match c with [] => false | _ => true end.

Lemma out_clauses_spec s cs : ∀ map max, Named map max → Forall clause_range cs →
  let '(out, map', max') := out_clauses s map max cs in
  Named map' max' ∧ keeps map map' ∧ Forall (Forall (has_name map')) (remaining s cs) ∧
  out = rename_clause map' <$> List.filter non_empty (remaining s cs).
Proof.
  induction cs as [| c cs IH]; intros map max H Hcs; simpl.
  { split; [done |]. split; [done |]. split; [apply Forall_nil_2 | done]. }
  apply Forall_cons in Hcs as [Hc Hcs]. unfold remaining. simpl. destruct (satisfied s c); [by apply IH |].
  pose proof (map_lits_spec s (c_lits c) map max H Hc) as Hm. destruct (map_lits _ _ _ _) as [[o map1] max1].
  destruct Hm as (N1 & K1 & F1 & ->). specialize (IH map1 max1 N1 Hcs).
  destruct (out_clauses s map1 max1 cs) as [[out map2] max2]. destruct IH as (N2 & K2 & F2 & ->).
  split; [done |]. split; [by etrans |]. simpl.
  split; [apply Forall_cons; split; [by eapply has_name_keeps | exact F2] |].
  fold (remaining s cs). rewrite <- (rename_keeps map1 map2) by done. fold (rename_clause map2 (unfalse s (c_lits c))).
  destruct (unfalse s (c_lits c)); [done |]. reflexivity.
Qed.

(** ** Models of what is given out *)

Section Out.
Context (t : Simp).
Hypothesis Ht : SimpInv t.
Hypothesis Hok : ok (base t) = true.
Let s := core (base t).

Lemma out_ready : Ready (base t).
Proof using All. by apply (si_sink _ Ht). Qed.

Lemma out_trail : TrailOk (nv s) (assigns s) (trail s).
Proof using All. apply (inv_trail _ _ (proj1 (rd_stable _ out_ready))). Qed.

(** The clauses, in the order of their list. *)
Lemma out_clauses_of : ∃ cs, mapM (clause_of t) (clauses (base t)) = Some cs ∧
  (∀ ls, db_of (base t) ls ↔ ∃ c, c ∈ cs ∧ c_lits c = ls) ∧ Forall (λ c, Forall (lit_ok (nv s)) (c_lits c)) cs.
Proof using All.
  pose proof (si_listed _ Ht) as (L1 & L2 & _).
  assert (∀ cr, cr ∈ clauses (base t) → ∃ c, clause_of t cr = Some c ∧ live (mem s) cr c) as Hcl.
  { intros cr Hcr. destruct (proj1 (L1 cr) Hcr) as (c & Hc). exists c. split; [| done]. unfold clause_of, is_tmp.
    rewrite (si_tmp _ Ht). destruct (Z.eqb_spec cr 0) as [-> |]; [by destruct L2 |]. rewrite andb_false_r. apply Hc. }
  destruct (mapM (clause_of t) (clauses (base t))) as [cs |] eqn:E.
  2:{ exfalso. apply mapM_None_1, Exists_exists in E as (cr & Hcr & E). destruct (Hcl cr Hcr) as (c & Hc & _). congruence. }
  exists cs. split; [done |]. apply mapM_Some_1 in E.
  assert (∀ c, c ∈ cs ↔ ∃ cr, live (mem s) cr c) as Hin.
  { intros c. split.
    - intros (i & Hi)%list_elem_of_lookup_1. destruct (Forall2_lookup_r _ _ _ _ _ E Hi) as (cr & Hcr & Ec).
      exists cr. destruct (Hcl cr) as (c' & Ec' & Hl); [by eapply list_elem_of_lookup_2 |]. congruence.
    - intros (cr & Hl). assert (cr ∈ clauses (base t)) as Hcr by (apply L1; by exists c).
      apply list_elem_of_lookup_1 in Hcr as (i & Hi). destruct (Forall2_lookup_l _ _ _ _ _ E Hi) as (c' & Hc' & Ec).
      apply list_elem_of_lookup_2 in Hi. destruct (Hcl cr Hi) as (c2 & Ec2 & Hl2).
      destruct Hl as [Hl _], Hl2 as [Hl2 _]. assert (c' = c) as <- by congruence. by eapply list_elem_of_lookup_2. }
  split.
  - intros ls. split.
    + intros (cr & c & Hl & <-). exists c. split; [| done]. apply Hin. by exists cr.
    + intros (c & Hc & <-). apply Hin in Hc as (cr & Hl). by exists cr, c.
  - apply Forall_forall. intros c Hc. apply Hin in Hc as (cr & Hl). apply Forall_forall. intros l Hl'.
    apply (cl_range _ _ (inv_cls _ _ (proj1 (rd_stable _ out_ready))) _ _ l Hl Hl').
Qed.

Lemma elem_of_unfalse ls l : Forall (lit_ok (nv s)) ls → l ∈ unfalse s ls ↔ l ∈ ls ∧ lit_neg l ∉ trail s.
Proof using All.
  intros Hls. unfold unfalse. rewrite list_elem_of_In, filter_In, <- list_elem_of_In. unfold lb_neb.
  rewrite Forall_forall in Hls. split; intros [Hl H]; (split; [done |]).
  - rewrite (value_isFalse s out_trail) in H by by apply Hls. by apply negb_true_iff, bool_decide_eq_false in H.
  - rewrite (value_isFalse s out_trail) by by apply Hls. by rewrite bool_decide_eq_false_2.
Qed.

Lemma satisfied_on_trail c : Forall (lit_ok (nv s)) (c_lits c) →
  satisfied s c = true ↔ ∃ l, l ∈ c_lits c ∧ l ∈ trail s.
Proof using All.
  intros Hls. rewrite Forall_forall in Hls. unfold satisfied. rewrite existsb_exists.
  split; intros (l & Hl & H); exists l.
  - apply list_elem_of_In in Hl. split; [done |]. rewrite (value_isTrue s out_trail) in H by by apply Hls.
    by apply bool_decide_eq_true in H.
  - split; [by apply list_elem_of_In |]. rewrite (value_isTrue s out_trail) by by apply Hls.
    by apply bool_decide_eq_true_2.
Qed.

(** With the trail, the remaining clauses say what all the clauses say, and none is empty. *)
Lemma remaining_models cs : mapM (clause_of t) (clauses (base t)) = Some cs →
  (∀ c, c ∈ remaining s cs → c ≠ []) ∧
  ∀ σ, models_lits σ (lit_on (trail s)) →
    models σ (db_of (base t)) ↔ ∀ c, c ∈ remaining s cs → clause_true σ c.
Proof using All.
  intros E. destruct out_clauses_of as (cs' & E' & Hdb & Hr). rewrite E in E'. injection E' as <-.
  rewrite Forall_forall in Hr.
  assert (∀ c, c ∈ remaining s cs ↔ ∃ d, d ∈ cs ∧ satisfied s d = false ∧ c = unfalse s (c_lits d)) as Hin.
  { intros c. unfold remaining. rewrite list_elem_of_fmap. split.
    - intros (d & -> & Hd). apply list_elem_of_In, filter_In in Hd as [Hd Hs]. exists d.
      split; [by apply list_elem_of_In |]. split; [by apply negb_true_iff | done].
    - intros (d & Hd & Hs & ->). exists d. split; [done |]. apply list_elem_of_In, filter_In.
      split; [by apply list_elem_of_In | by rewrite Hs]. }
  split.
  - intros c (d & Hd & Hs & ->)%Hin. destruct (rd_stable _ out_ready) as [I Hq]. rewrite Hq in I.
    destruct (fixpoint_clauses _ I (c_lits d)) as [(l & Hl & Hon) | (a & b & Ha & _ & _ & Hna & _)].
    + apply Hdb. by exists d.
    + rewrite (proj2 (satisfied_on_trail d (Hr d Hd))) in Hs; [done | by exists l].
    + intros En. assert (a ∈ unfalse s (c_lits d)) as H by (apply elem_of_unfalse; auto).
      rewrite En in H. by apply elem_of_nil in H.
  - intros σ Hσ. split.
    + intros Hm c (d & Hd & Hs & ->)%Hin. destruct (Hm (c_lits d)) as (l & Hl & Hlt); [apply Hdb; by exists d |].
      exists l. split; [| done]. apply elem_of_unfalse; [by apply Hr |]. split; [done |]. intros Hn.
      specialize (Hσ _ Hn). by rewrite lit_true_neg, Hlt in Hσ.
    + intros Hm ls (d & Hd & <-)%Hdb. destruct (satisfied s d) eqn:Es.
      * apply satisfied_on_trail in Es as (l & Hl & Hon); [| by apply Hr]. exists l. split; [done | by apply Hσ].
      * destruct (Hm (unfalse s (c_lits d))) as (l & Hl & Hlt); [apply Hin; by exists d |].
        apply elem_of_unfalse in Hl as [Hl _]; [| by apply Hr]. by exists l.
Qed.

(** The literals that remain have no false value. *)
Lemma remaining_lit cs c l : mapM (clause_of t) (clauses (base t)) = Some cs → c ∈ remaining s cs → l ∈ c →
  lit_ok (nv s) l ∧ lit_neg l ∉ trail s.
Proof using All.
  intros E Hc Hl. destruct out_clauses_of as (cs' & E' & _ & Hr). rewrite E in E'. injection E' as <-.
  rewrite Forall_forall in Hr. apply list_elem_of_fmap in Hc as (d & -> & Hd).
  apply list_elem_of_In, filter_In in Hd as [Hd _]. apply list_elem_of_In in Hd. specialize (Hr d Hd).
  apply elem_of_unfalse in Hl as [Hin Hn]; [| done]. split; [| done]. rewrite Forall_forall in Hr. by apply Hr.
Qed.
End Out.

Lemma clause_true_rename map σ τ c : (∀ x, name_of map x ≠ -1 → τ (name_of map x) = σ x) →
  Forall (has_name map) c → clause_true τ (rename_clause map c) ↔ clause_true σ c.
Proof.
  intros H Hc. rewrite Forall_forall in Hc.
  assert (∀ l, l ∈ c → lit_true τ (rename map l) = lit_true σ l) as Hl.
  { intros l Hl. unfold lit_true, rename. rewrite sign_mkLit, var_mkLit, H by by apply Hc. done. }
  split.
  - intros (k & (l & -> & Hin)%list_elem_of_fmap & Ht). exists l. by rewrite <- Hl.
  - intros (l & Hin & Ht). exists (rename map l). split; [by apply list_elem_of_fmap_2 | by rewrite Hl].
Qed.

Lemma filter_true {A} (f : A → bool) l : (∀ x, x ∈ l → f x = true) → List.filter f l = l.
Proof.
  induction l as [| x l IH]; intros H; simpl; [done |]. rewrite (H x) by by left. f_equal. apply IH.
  intros y Hy. apply H. by right.
Qed.

Lemma named_nil : Named [] 0.
Proof.
  assert (∀ x, name_of [] x = -1) as Hn by (intros x; unfold name_of, zget; by case_match_goal).
  split; [| | lia]; intros x; [| intros y]; rewrite Hn; done.
Qed.

Lemma toDimacs_spec t : SimpInv t → ok (base t) = true → ∃ cls map max cs,
  toDimacs t [] = Some (cls, map) ∧ Named map max ∧ mapM (clause_of t) (clauses (base t)) = Some cs ∧
  Forall (Forall (has_name map)) (remaining (core (base t)) cs) ∧
  cls = rename_clause map <$> remaining (core (base t)) cs.
Proof.
  intros Ht Hok. destruct (out_clauses_of t Ht Hok) as (cs & E & _ & Hr). unfold toDimacs. rewrite E.
  cbn [mbind option_bind]. cbv zeta. set (s := core (base t)) in *.
  assert (Forall clause_range cs) as Hrange.
  { eapply Forall_impl; [exact Hr |]. intros c Hc. unfold clause_range. eapply Forall_impl; [exact Hc |].
    intros l Hl. apply Hl. }
  pose proof (map_clauses_spec s cs [] 0 named_nil Hrange) as H1. destruct (map_clauses s [] 0 cs) as [map1 max1].
  destruct H1 as (N1 & _). pose proof (out_clauses_spec s cs map1 max1 N1 Hrange) as H2.
  destruct (out_clauses s map1 max1 cs) as [[out map2] max2]. destruct H2 as (N2 & _ & F2 & ->).
  exists (rename_clause map2 <$> remaining s cs), map2, max2, cs.
  destruct (remaining_models t Ht Hok cs E) as [Hne _].
  rewrite (filter_true non_empty) by (intros c Hc; specialize (Hne c Hc); by destruct c).
  done.
Qed.

Lemma text_clauses_spec s cs : ∀ map max,
  (∀ c, c ∈ remaining s cs → c ≠ []) → Named map max → Forall clause_range cs →
  text_clauses s map max cs = (out_clauses s map max cs).1.1 ≫= print_clause ∧
  length (out_clauses s map max cs).1.1 = length (List.filter (λ c, negb (satisfied s c)) cs).
Proof.
  induction cs as [| c cs IH]; intros map max Hne N Hcs; simpl; [done |]. apply Forall_cons in Hcs as [Hc Hcs].
  unfold remaining in Hne. simpl in Hne. destruct (satisfied s c); [by apply IH |]. simpl in Hne |- *.
  pose proof (map_lits_spec s (c_lits c) map max N Hc) as Hm. destruct (map_lits _ _ _ _) as [[o map1] max1].
  destruct Hm as (N1 & _ & _ & ->).
  destruct (IH map1 max1) as [E1 E2]; [intros d Hd; apply Hne; by right | done | done |].
  destruct (out_clauses s map1 max1 cs) as [[out map2] max2]. simpl in *.
  specialize (Hne (unfalse s (c_lits c)) ltac:(by left)).
  destruct (unfalse s (c_lits c)) as [| l ls]; [done |]. simpl. rewrite E1, E2. done.
Qed.

(** The second pass gives no new names. *)
Lemma named_kept s ls : ∀ map max, Named map max → Forall (has_name map) (unfalse s ls) → Forall (λ l, 0 <= var l) ls →
  map_lits s map max ls = (rename map <$> unfalse s ls, map, max).
Proof.
  induction ls as [| l ls IH]; intros map max N Hn Hr; simpl; [done |]. apply Forall_cons in Hr as [Hl Hr].
  simpl in Hn. destruct (lb_neb (value s l) l_False); [| by apply IH]. apply Forall_cons in Hn as [Hx Hn].
  pose proof (zget_nonneg (-1) map (var l) Hx) as Hr'. unfold mapVar, has_name, name_of in *.
  destruct (Z.leb_spec (Z.of_nat (length map)) (var l)); [lia |]. rewrite (proj2 (Z.eqb_neq _ _) Hx). simpl.
  rewrite IH by done. done.
Qed.

Lemma out_clauses_kept s map max cs : Named map max → Forall clause_range cs →
  Forall (Forall (has_name map)) (remaining s cs) → (out_clauses s map max cs).1.2 = map.
Proof.
  intros N Hcs Hn. induction cs as [| c cs IH]; simpl; [done |]. apply Forall_cons in Hcs as [Hc Hcs].
  unfold remaining in Hn. simpl in Hn. destruct (satisfied s c); [by apply IH |]. simpl in Hn.
  apply Forall_cons in Hn as [Hl Hn]. rewrite named_kept by done.
  specialize (IH Hcs Hn). by destruct (out_clauses s map max cs) as [[out map2] max2].
Qed.

(** C24. The file that a solver without assumptions writes is the text of the
    clauses [toDimacs] gives out, and its header counts their variables and
    clauses: every name is below the number of variables. *)
Theorem simp_file_correct t : SimpInv t → ok (base t) = true → ∃ cls map max,
  toDimacs t [] = Some (cls, map) ∧ toDimacs_text t [] = Some (print_dimacs max cls) ∧
  ∀ c l, c ∈ cls → l ∈ c → 0 <= var l < max.
Proof.
  intros Ht Hok. destruct (out_clauses_of t Ht Hok) as (cs & E & _ & Hr). unfold toDimacs, toDimacs_text.
  rewrite Hok, E. cbn [mbind option_bind negb]. cbv zeta. destruct (remaining_models t Ht Hok cs E) as [Hne _].
  set (s := core (base t)) in *.
  assert (Forall clause_range cs) as Hrange.
  { eapply Forall_impl; [exact Hr |]. intros c Hc. unfold clause_range. eapply Forall_impl; [exact Hc |].
    intros l Hl. apply Hl. }
  pose proof (map_clauses_spec s cs [] 0 named_nil Hrange) as H1. destruct (map_clauses s [] 0 cs) as [map max].
  destruct H1 as (N & _ & F). pose proof (text_clauses_spec s cs map max Hne N Hrange) as [T1 T2].
  pose proof (out_clauses_spec s cs map max N Hrange) as H2. pose proof (out_clauses_kept s map max cs N Hrange F) as K.
  destruct (out_clauses s map max cs) as [[out map2] max2]. simpl in T1, T2, K. subst map2. destruct H2 as (_ & _ & _ & Eo).
  exists out, map, max. split; [done |]. split.
  - cbn [text_assumps]. f_equal. rewrite T1, <- T2, Nat.add_0_r. unfold print_dimacs. simpl app.
    repeat (rewrite <- (assoc_L (++)); simpl app). reflexivity.
  - rewrite Eo. intros c l (d & -> & Hd)%list_elem_of_fmap (k & -> & Hk)%list_elem_of_fmap.
    apply list_elem_of_In, filter_In in Hd as [Hd _]. apply list_elem_of_In in Hd.
    rewrite Forall_forall in F. specialize (F d Hd). rewrite Forall_forall in F. unfold rename.
    rewrite var_mkLit. by apply (na_range _ _ N), F.
Qed.

(** ** Renaming back *)

(** The value of [i] in the model: assigned, named, or left. *)
Definition back (s : Core) (map : list Z) (vars : list lbool) (d : lbool) (i : Var) : lbool :=
  if lb_neb (value_var s i) l_Undef then value_var s i
  else if name_of map i =? -1 then d else zget inhabitant vars (name_of map i).

Lemma remap_loop_spec s map vars vs : ∀ m, NoDup vs → (∀ i, i ∈ vs → 0 <= i < Z.of_nat (length m)) →
  (∀ i, i ∈ vs → name_of map i ≠ -1 → 0 <= name_of map i < Z.of_nat (length vars)) →
  ∃ m', remap_loop s map vars m vs = Some m' ∧ length m' = length m ∧
    ∀ u, zget inhabitant m' u =
      if decide (u ∈ vs) then back s map vars (zget inhabitant m u) u else zget inhabitant m u.
Proof.
  induction vs as [| i vs IH]; intros m Hnd Hr Hn; cbn [remap_loop].
  { exists m. split; [done |]. split; [done |]. intros u. by rewrite decide_False by apply not_elem_of_nil. }
  apply NoDup_cons in Hnd as [Hi Hnd].
  assert (∀ x, ∃ m', remap_loop s map vars (zset m i x) vs = Some m' ∧ length m' = length m ∧
    ∀ u, zget inhabitant m' u = if decide (u ∈ vs) then back s map vars (zget inhabitant m u) u
                                else if decide (u = i) then x else zget inhabitant m u) as Hset.
  { intros x. destruct (IH (zset m i x) Hnd) as (m' & E & El & Hm').
    - intros j Hj. rewrite length_zset. apply Hr. by right.
    - intros j Hj. apply Hn. by right.
    - exists m'. split; [done |]. split; [by rewrite El, length_zset |]. intros u. rewrite Hm'.
      rewrite zget_zset by (apply Hr; by left). destruct (decide (u ∈ vs)) as [Hu | Hu].
      + rewrite decide_False; [done |]. intros ->. exact (Hi Hu).
      + repeat case_decide; try done; by subst. }
  assert (∀ x, x = back s map vars (zget inhabitant m i) i → ∀ u,
    (if decide (u ∈ vs) then back s map vars (zget inhabitant m u) u
     else if decide (u = i) then x else zget inhabitant m u) =
    (if decide (u ∈ i :: vs) then back s map vars (zget inhabitant m u) u else zget inhabitant m u)) as Hfin.
  { intros x -> u. pose proof (elem_of_cons vs u i). repeat case_decide; try tauto; by subst. }
  unfold back in Hfin at 1. destruct (lb_neb (value_var s i) l_Undef).
  - destruct (Hset (value_var s i)) as (m' & E & El & Hm'). exists m'. split; [done |]. split; [done |].
    intros u. rewrite Hm'. by apply Hfin.
  - fold (name_of map i). destruct (Z.eqb_spec (name_of map i) (-1)) as [En | En].
    + rewrite orb_true_r. destruct (Hset (zget inhabitant m i)) as (m' & E & El & Hm').
      assert (zset m i (zget inhabitant m i) = m) as Eid.
      { specialize (Hr i ltac:(by left)). unfold zset, zget. destruct (Z.ltb_spec i 0); [done |].
        apply list_insert_id. destruct (lookup_lt_is_Some_2 m (Z.to_nat i) ltac:(lia)) as [y Ey]. by rewrite Ey. }
      rewrite Eid in E. exists m'. split; [done |]. split; [done |]. intros u. rewrite Hm'. by apply Hfin.
    + assert (0 <= i < Z.of_nat (length map)) as Him by by apply (zget_nonneg (-1)).
      destruct (Z.leb_spec (Z.of_nat (length map)) i); [lia |]. simpl.
      specialize (Hn i ltac:(by left) En) as Hk. rewrite (proj2 (Z.leb_le _ _)), (proj2 (Z.ltb_lt _ _)) by lia.
      destruct (Hset (zget inhabitant vars (name_of map i))) as (m' & E & El & Hm'). exists m'.
      split; [done |]. split; [done |]. intros u. rewrite Hm'. by apply Hfin.
Qed.

(** ** The inverse renaming *)

Lemma fill_rev_spec map max n : Named map max → 0 <= n → ∀ x, 0 <= x < n → name_of map x ≠ -1 →
  name_of map x < Z.of_nat (length (fill_rev n map)) ∧ zget 0 (fill_rev n map) (name_of map x) = x.
Proof.
  intros N Hn. rewrite <- (Z2Nat.id n Hn). generalize (Z.to_nat n) as k. clear n Hn.
  induction k as [| k IH]; intros x Hx Hm; [lia |]. unfold fill_rev.
  rewrite seqZ_S, foldl_snoc. fold (fill_rev (Z.of_nat k) map). rewrite Z.add_0_l.
  set (rev := fill_rev (Z.of_nat k) map) in *. unfold rev_step. fold (name_of map (Z.of_nat k)).
  destruct (Z.eqb_spec (name_of map (Z.of_nat k)) (-1)) as [Ek | Ek].
  { rewrite orb_true_r. apply IH; [| done]. destruct (decide (x = Z.of_nat k)); [congruence | lia]. }
  pose proof (zget_nonneg (-1) map _ Ek) as Hk. destruct (Z.leb_spec (Z.of_nat (length map)) (Z.of_nat k)); [lia |].
  simpl. pose proof (na_range _ _ N _ Ek) as Hr. set (y := name_of map (Z.of_nat k)) in *.
  set (g := grow_to rev _ 0). assert ((length rev <= length g)%nat ∧ y < Z.of_nat (length g)) as [Hg Hy].
  { unfold g, grow_to. rewrite length_app, length_replicate. lia. }
  rewrite length_zset. destruct (decide (x = Z.of_nat k)) as [-> | Hne].
  - split; [done |]. fold y. by rewrite zget_zset, decide_True by (done || lia).
  - destruct (IH x) as [H1 H2]; [lia | done |]. split; [lia |]. rewrite zget_zset by lia.
    rewrite decide_False by (intros E; destruct Hne; symmetry; by apply (na_inj _ _ N)).
    pose proof (na_range _ _ N _ Hm) as Hx0. rewrite <- H2 at 2. unfold g, grow_to, zget.
    destruct (_ <? 0); [done |]. by rewrite lookup_app_l by lia.
Qed.

Lemma remap_variables_spec map max n p xs : Named map max → 0 <= n → p_rev_mapping p = fill_rev n map →
  Forall (λ x, 0 <= x < n ∧ name_of map x ≠ -1) xs → remap_variables p (name_of map <$> xs) = Some xs.
Proof.
  intros N Hn Ep H. unfold remap_variables. rewrite Ep. apply mapM_Some_2, Forall2_fmap_l, Forall_Forall2_diag.
  eapply Forall_impl; [exact H |]. intros x [Hx Hm]. destruct (fill_rev_spec map max n N Hn x Hx Hm) as [H1 H2].
  unfold compose; cbv beta. by rewrite (proj2 (Z.ltb_lt _ _)), H2.
Qed.

(** ** The problem without elimination *)

(** An assignment that agrees with all values of the model. *)
Definition completes (σ : Z → bool) (m : list lbool) : Prop :=
  ∀ x b, 0 <= x < Z.of_nat (length m) → lb_abs (zget inhabitant m x) = Some b → σ x = b.

Lemma load_problem_spec fuel v cs : 0 <= v <= INT_MAX → Z.of_nat (length cs) <= INT_MAX →
  Forall (Forall (lit_ok (2 ^ 30))) cs → words cs + 3 <= max_capacity →
  ∃ t, load_problem fuel (print_dimacs v cs) false = Some (t, true) ∧ SimpInv t ∧
    ∀ σ, sink_means (base t) σ ↔ ∀ c, c ∈ cs → clause_true σ c.
Proof.
  intros Hv Hl Hok Hw. unfold load_problem. destruct fresh_simp_inv as (t0 & -> & I & U & M).
  cbn [mbind option_bind]. rewrite parse_print by done.
  destruct (loadClauses_spec simp_sink loading (λ t, sink_used (base t)) (λ t, sink_means (base t)) cs
    (t0 <| parsing := true |>)) as (t & -> & [I' _] & M'); [exact I | exact Hok | |].
  { change (sink_used (base t0) + words cs <= max_capacity). lia. }
  cbn [mbind option_bind]. eexists. split; [reflexivity |]. split; [by destruct I' |].
  intros σ. change (sink_means (base t) σ ↔ ∀ c, c ∈ cs → clause_true σ c). rewrite M'.
  split; [by intros [_ ?] | intros H; split; [exact (M σ) | done]].
Qed.

(** Values of the new variables. *)
Definition gives (map : list Z) (vars : list lbool) (τ : Z → bool) : Prop :=
  ∀ x, name_of map x ≠ -1 → name_of map x < Z.of_nat (length vars) ∧
    zget inhabitant vars (name_of map x) = lbool_of_bool (τ (name_of map x)).

(** What [remap_and_extend_model] makes of a model of the clauses given out. *)
Lemma remap_spec t cls map max cs vars τ p : SimpInv t → ok (base t) = true →
  Named map max → mapM (clause_of t) (clauses (base t)) = Some cs →
  Forall (Forall (has_name map)) (remaining (core (base t)) cs) →
  cls = rename_clause map <$> remaining (core (base t)) cs →
  p_solver p = t → p_mapping p = map → gives map vars τ → (∀ c, c ∈ cls → clause_true τ c) →
  ∃ p' m, remap_and_extend_model p vars = Some (p', m) ∧ ∀ σ, completes σ m → solver_models σ (base t).
Proof.
  intros Ht Hok N E Hn Ecls Ep Em Hv Hτ. unfold remap_and_extend_model. rewrite Ep, Em, (si_model _ Ht).
  set (s := core (base t)) in *. pose proof (out_ready t Ht Hok) as R. pose proof (out_trail t Ht Hok) as T. fold s in T.
  assert (nVars (base t) = nv s) as Enx by (unfold nVars; by rewrite (rd_next _ R)). rewrite Enx.
  set (m0 := grow_to [] _ _). assert (Z.of_nat (length m0) = nv s) as Hm0.
  { unfold m0, grow_to. rewrite length_app, length_replicate. simpl. unfold nv. lia. }
  destruct (remap_loop_spec s map vars (seqZ 0 (nv s)) m0) as (m & -> & Hlen & Hm).
  { apply NoDup_seqZ. }
  { intros i Hi%elem_of_seqZ. lia. }
  { intros i _ Hi. pose proof (na_range _ _ N i Hi). destruct (Hv i Hi). lia. }
  cbn [mbind option_bind]. unfold extendModel. cbn [elimclauses]. simpl elimclauses. rewrite (si_store _ Ht).
  eexists _, m. split; [reflexivity |]. intros σ Hσ.
  assert (∀ x, 0 <= x < nv s → zget inhabitant m x = back s map vars (zget inhabitant m0 x) x) as Hback.
  { intros x Hx. rewrite Hm, decide_True; [done |]. apply elem_of_seqZ. lia. }
  assert (models_lits σ (lit_on (trail s))) as Htr.
  { intros l Hl. pose proof (tr_range _ _ _ T l Hl) as Hr. pose proof (proj2 (value_true s T l Hr) Hl) as Hval.
    unfold value in Hval. pose proof (zget_valid _ _ _ T (var l)) as Hvalid. fold (value_var s (var l)) in Hvalid.
    rewrite lb_xor_abs in Hval by done. destruct (lb_abs (value_var s (var l))) as [b |] eqn:Eb; [| done].
    assert (lb_neb (value_var s (var l)) l_Undef = true) as Hneb.
    { unfold lb_neb. rewrite lb_eqb_abs by done. rewrite Eb. by destruct b. }
    assert (σ (var l) = b) as Hb.
    { apply Hσ; [unfold lit_ok in Hr; lia |]. rewrite Hback by (unfold lit_ok in Hr; lia). unfold back. by rewrite Hneb. }
    unfold lit_true. rewrite Hb. revert Hval. by destruct b, (sign l). }
  split; [| exact Htr]. destruct (remaining_models t Ht Hok cs E) as [_ Hmod]. apply Hmod; [done |].
  intros c Hc. rewrite Forall_forall in Hn. specialize (Hn c Hc).
  destruct (Hτ (rename_clause map c)) as (k & (l & -> & Hl)%list_elem_of_fmap & Hk).
  { rewrite Ecls. by apply list_elem_of_fmap_2. }
  exists l. split; [done |]. destruct (remaining_lit t Ht Hok cs c l E Hc Hl) as [Hr Hnf]. fold s in Hr, Hnf.
  destruct (lb_neb (value_var s (var l)) l_Undef) eqn:Eu.
  - apply Htr. apply (value_true s T l Hr).
    destruct (lb_abs (value s l)) as [[] |] eqn:Ev; [done | by destruct Hnf; apply (value_false s T l Hr) |].
    exfalso. unfold value in Ev. rewrite lb_xor_abs in Ev by apply (zget_valid _ _ _ T).
    unfold lb_neb in Eu. rewrite lb_eqb_abs in Eu by (done || apply (zget_valid _ _ _ T)).
    by destruct (lb_abs (value_var s (var l))).
  - rewrite Forall_forall in Hn. specialize (Hn l Hl). destruct (Hv (var l) Hn) as [_ Hval].
    assert (σ (var l) = τ (name_of map (var l))) as Es.
    { unfold lit_ok in Hr. apply Hσ; [lia |]. rewrite Hback by lia. unfold back. rewrite Eu.
      rewrite (proj2 (Z.eqb_neq _ _)) by done. rewrite Hval. apply lb_abs_of_bool. }
    unfold lit_true in *. unfold rename in Hk. rewrite sign_mkLit, var_mkLit in Hk. by rewrite Es.
Qed.

(** The assignment of the trail. *)
Definition of_trail (s : Core) (x : Var) : bool := bool_decide (mkLit x false ∈ trail s).

Lemma of_trail_models s n a : TrailOk n a (trail s) → models_lits (of_trail s) (lit_on (trail s)).
Proof.
  intros T l Hl. unfold lit_true, of_trail. destruct (sign l) eqn:Es.
  - rewrite bool_decide_eq_false_2; [done |]. intros H. pose proof (trail_consistent _ _ _ T l Hl) as Hn. apply Hn.
    assert (lit_neg l = mkLit (var l) false) as ->; [| done].
    by rewrite lit_neg_mkLit, Es.
  - rewrite bool_decide_eq_true_2; [done |]. by rewrite <- Es, mkLit_var_sign.
Qed.

(** The old variable of a new one. *)
Definition old_of (map : list Z) (k : Z) : Var :=
  match list_find (λ y, y = k) map with Some (i, _) => Z.of_nat i | None => 0 end.

Lemma old_of_name map max x : Named map max → name_of map x ≠ -1 → old_of map (name_of map x) = x.
Proof.
  intros N Hx. pose proof (zget_nonneg (-1) map x Hx) as Hr. unfold old_of.
  assert (map !! Z.to_nat x = Some (name_of map x)) as Ex.
  { unfold name_of, zget in *. destruct (Z.ltb_spec x 0); [lia |].
    destruct (lookup_lt_is_Some_2 map (Z.to_nat x) ltac:(lia)) as [y Ey]. by rewrite Ey. }
  destruct (list_find _ _) as [[i y] |] eqn:E.
  - apply list_find_Some in E as (Hi & Hy & _). assert (name_of map (Z.of_nat i) = y) as En.
    { unfold name_of. by rewrite zget_of_nat, Hi. }
    apply (na_inj _ _ N); congruence.
  - apply list_find_None in E. rewrite Forall_forall in E. exfalso. apply (E (name_of map x)); [| done].
    by eapply list_elem_of_lookup_2.
Qed.

Lemma read_unknown fuel restarts search_fuel text t : load_problem fuel text false = Some (t, true) →
  ∀ cls map, toDimacs t [] = Some (cls, map) → cls ≠ [] →
  read_clauses fuel restarts search_fuel text false =
    Some (MkProblem cls map (fill_rev (nVars (base t)) map) [] t UNKNOWN).
Proof.
  intros E cls map Eo Hne. unfold read_clauses. rewrite E. cbn [mbind option_bind]. rewrite Eo.
  cbn [mbind option_bind]. cbv zeta. clear - Hne. destruct cls; [destruct (Hne eq_refl) | reflexivity].
Qed.

(** C3. A problem read without elimination from the text of any clauses: the
    solver refutes them only if they have no model; otherwise the clauses given
    out are UNKNOWN when there are any, and the problem is satisfiable when
    there are none; every model of the problem is, renamed, a model of the
    clauses given out; [remap_and_extend_model] never fails on values for the
    new variables that satisfy the clauses given out, and every assignment that
    agrees with its result is a model of the problem; and [remap_variables]
    inverts the renaming. *)
Theorem problem_correct fuel restarts search_fuel v cs :
  0 <= v <= INT_MAX → Z.of_nat (length cs) <= INT_MAX → Forall (Forall (lit_ok (2 ^ 30))) cs →
  words cs + 3 <= max_capacity →
  ∃ t, load_problem fuel (print_dimacs v cs) false = Some (t, true) ∧
  if ok (base t) then
    ∃ p, p_solver p = t ∧ toDimacs t [] = Some (p_clauses p, p_mapping p) ∧
      (p_clauses p ≠ [] →
        read_clauses fuel restarts search_fuel (print_dimacs v cs) false = Some p ∧ p_result p = UNKNOWN) ∧
      (p_clauses p = [] → ∃ σ, ∀ c, c ∈ cs → clause_true σ c) ∧
      (∀ σ, (∀ c, c ∈ cs → clause_true σ c) →
        ∃ τ, (∀ x, name_of (p_mapping p) x ≠ -1 → τ (name_of (p_mapping p) x) = σ x) ∧
             ∀ c, c ∈ p_clauses p → clause_true τ c) ∧
      (∀ vars τ, gives (p_mapping p) vars τ → (∀ c, c ∈ p_clauses p → clause_true τ c) →
        ∃ p' m, remap_and_extend_model p vars = Some (p', m) ∧
          ∀ σ, completes σ m → ∀ c, c ∈ cs → clause_true σ c) ∧
      (∀ xs, Forall (λ x, 0 <= x < nVars (base t) ∧ name_of (p_mapping p) x ≠ -1) xs →
        remap_variables p (name_of (p_mapping p) <$> xs) = Some xs)
  else ∀ σ, ¬ ∀ c, c ∈ cs → clause_true σ c.
Proof.
  intros Hv Hl Hok Hw. destruct (load_problem_spec fuel v cs Hv Hl Hok Hw) as (t & E & Ht & M).
  exists t. split; [exact E |]. pose proof (read_unknown fuel restarts search_fuel _ t E) as Hread.
  clear E Hv Hl Hok Hw. generalize dependent (print_dimacs v cs). intros text Hread.
  unfold sink_means in M. destruct (ok (base t)) eqn:Ek; [| intros σ [? _]%M; done].
  destruct (toDimacs_spec t Ht Ek) as (cls & map & max & ds & Eout & N & Eds & Hn & Ecls).
  destruct (remaining_models t Ht Ek ds Eds) as [_ Hmod]. pose proof (out_trail t Ht Ek) as T.
  exists (MkProblem cls map (fill_rev (nVars (base t)) map) [] t UNKNOWN). cbn [p_solver p_clauses p_mapping p_result].
  split; [done |]. split; [done |]. split; [| split; [| split; [| split]]].
  - intros Hne. split; [exact (Hread cls map Eout Hne) | reflexivity].
  - intros ->. exists (of_trail (core (base t))). apply M. split; [done |].
    pose proof (of_trail_models _ _ _ T) as Htr. split; [| done]. apply Hmod; [done |]. intros c Hc.
    symmetry in Ecls. apply fmap_nil_inv in Ecls. rewrite Ecls in Hc. by apply elem_of_nil in Hc.
  - intros σ Hσ. apply M in Hσ as [_ [Hdb Htr]]. exists (λ k, σ (old_of map k)).
    assert (∀ x, name_of map x ≠ -1 → σ (old_of map (name_of map x)) = σ x) as Hname.
    { intros x Hx. by rewrite (old_of_name map max). }
    split; [done |]. rewrite Ecls. intros c (d & -> & Hd)%list_elem_of_fmap. rewrite Forall_forall in Hn.
    apply (clause_true_rename map σ); [done | by apply Hn |].
    exact (proj1 (Hmod σ Htr) Hdb d Hd).
  - intros vars τ Hg Hτ.
    destruct (remap_spec t cls map max ds vars τ (MkProblem cls map (fill_rev (nVars (base t)) map) [] t UNKNOWN))
      as (p' & m & Em & Hm); try done.
    exists p', m. split; [done |]. intros σ Hs. apply M. split; [done |]. by apply Hm.
  - intros xs Hxs. apply (remap_variables_spec map max (nVars (base t))); try done.
    unfold nVars. rewrite (rd_next _ (out_ready t Ht Ek)). unfold nv. lia.
Qed.

Lemma example_true c : c ∈ example_cs → clause_true (λ _, true) c.
Proof.
  intros Hc. apply list_elem_of_In in Hc. simpl in Hc. unfold clause_true, lit_true.
  destruct Hc as [<- | [<- | [<- | [<- | []]]]];
    ((eexists; split; [by left | reflexivity]) || (eexists; split; [by right; left | reflexivity])).
Qed.

(** The example problem is loaded and not refuted. *)
Lemma example_loaded : ∃ t, load_problem 0 (print_dimacs 5 example_cs) false = Some (t, true) ∧
  SimpInv t ∧ ok (base t) = true.
Proof.
  destruct (load_problem_spec 0 5 example_cs) as (t & E & I & M).
  - unfold INT_MAX. lia.
  - unfold INT_MAX. simpl. lia.
  - repeat constructor; unfold lit_ok; rewrite ?var_mkLit; lia.
  - unfold max_capacity. simpl. lia.
  - exists t. split; [exact E |]. split; [exact I |]. exact (proj1 (proj2 (M (λ _, true)) example_true)).
Qed.

Lemma simp_file_correct_witness : ∃ t, load_problem 0 (print_dimacs 5 example_cs) false = Some (t, true) ∧
  ∃ cls map max, toDimacs t [] = Some (cls, map) ∧ toDimacs_text t [] = Some (print_dimacs max cls) ∧
    ∀ c l, c ∈ cls → l ∈ c → 0 <= var l < max.
Proof.
  destruct example_loaded as (t & E & I & O). exists t. split; [exact E | exact (simp_file_correct t I O)].
Defined.

Lemma if_true (b : bool) (P Q : Prop) : (if b then P else Q) → b = true → P.
Proof. by destruct b. Qed.

Lemma problem_correct_witness : ∃ t, load_problem 0 (print_dimacs 5 example_cs) false = Some (t, true) ∧
  ∃ p, p_solver p = t ∧ toDimacs t [] = Some (p_clauses p, p_mapping p) ∧
    ∀ vars τ, gives (p_mapping p) vars τ → (∀ c, c ∈ p_clauses p → clause_true τ c) →
      ∃ p' m, remap_and_extend_model p vars = Some (p', m) ∧
        ∀ σ, completes σ m → ∀ c, c ∈ example_cs → clause_true σ c.
Proof.
  destruct (problem_correct 0 0 0 5 example_cs) as (t & E & H).
  - unfold INT_MAX. lia.
  - unfold INT_MAX. simpl. lia.
  - repeat constructor; unfold lit_ok; rewrite ?var_mkLit; lia.
  - unfold max_capacity. simpl. lia.
  - exists t. split; [exact E |]. destruct example_loaded as (t' & E' & _ & O).
    pose proof (eq_trans (eq_sym E) E') as Et. injection Et as ->.
    destruct (if_true (ok (base t')) _ _ H O) as (p & E1 & E2 & _ & _ & _ & E3 & _).
    exists p. exact (conj E1 (conj E2 E3)).
Defined.

Lemma clause_true_two σ x a y b : clause_true σ [mkLit x a; mkLit y b] → xorb a (σ x) || xorb b (σ y) = true.
Proof.
  intros (l & Hl & Ht). unfold lit_true in Ht.
  apply elem_of_cons in Hl as [-> | ->%list_elem_of_singleton]; rewrite sign_mkLit, var_mkLit in Ht; rewrite Ht;
    [done | apply orb_true_r].
Qed.

Lemma refuted_cs_unsat σ : ¬ ∀ c, c ∈ refuted_cs → clause_true σ c.
Proof.
  intros H. assert (∀ c, In c refuted_cs → clause_true σ c) as H' by (intros c Hc; by apply H, list_elem_of_In).
  clear H. unfold refuted_cs in H'. simpl in H'.
  pose proof (clause_true_two _ _ _ _ _ (H' _ (or_introl eq_refl))) as H1.
  pose proof (clause_true_two _ _ _ _ _ (H' _ (or_intror (or_introl eq_refl)))) as H2.
  pose proof (clause_true_two _ _ _ _ _ (H' _ (or_intror (or_intror (or_introl eq_refl))))) as H3.
  pose proof (clause_true_two _ _ _ _ _ (H' _ (or_intror (or_intror (or_intror (or_introl eq_refl)))))) as H4.
  clear H'. by destruct (σ 0), (σ 1).
Qed.

(** C39. The answer of [eliminate] is only read when no clause is left: whenever
    it reports a refutation while clauses remain, the problem is UNKNOWN with
    the remaining clauses.  The refutation can be lost for good: the clauses
    [refuted_cs] have no model and [eliminate] finds that out, but the clauses
    that are given out have one. *)
Theorem elimination_refutation_lost :
  (∀ fuel restarts search_fuel text elim t cls map,
     load_problem fuel text elim = Some (t, false) → toDimacs t [] = Some (cls, map) → cls ≠ [] →
     ∃ p, read_clauses fuel restarts search_fuel text elim = Some p ∧ p_result p = UNKNOWN ∧ p_clauses p = cls) ∧
  ∃ t p, load_problem 12 (print_dimacs 4 refuted_cs) true = Some (t, false) ∧
    read_clauses 12 4 4 (print_dimacs 4 refuted_cs) true = Some p ∧ p_result p = UNKNOWN ∧
    (∃ τ, ∀ c, c ∈ p_clauses p → clause_true τ c) ∧ ∀ σ, ¬ ∀ c, c ∈ refuted_cs → clause_true σ c.
Proof.
  assert (∀ fuel restarts search_fuel text elim t cls map,
     load_problem fuel text elim = Some (t, false) → toDimacs t [] = Some (cls, map) → cls ≠ [] →
     ∃ p, read_clauses fuel restarts search_fuel text elim = Some p ∧ p_result p = UNKNOWN ∧ p_clauses p = cls) as Hread.
  { intros fuel restarts search_fuel text elim t cls map El Ed Hne. unfold read_clauses. rewrite El.
    cbn [mbind option_bind]. rewrite Ed. cbn [mbind option_bind].
    clear El Ed. destruct cls as [| c cls]; [destruct (Hne eq_refl) |].
    eexists. split; [reflexivity |]. split; reflexivity. }
  split; [exact Hread |].
  assert ((λ '(t, ok), (fst <$> toDimacs t [], ok)) <$> load_problem 12 (print_dimacs 4 refuted_cs) true =
    Some (Some [[mkLit 0 false; mkLit 1 false]], false)) as E by (vm_compute; reflexivity).
  apply fmap_Some in E as ([t ok] & El & [= Ed Eok]). rewrite <- Eok in El. symmetry in Ed.
  apply fmap_Some in Ed as ([cls map] & Ed & Ec).
  simpl in Ec. destruct (Hread 12%nat 4%nat 4%nat _ true t cls map El Ed) as (p & Ep & Er & Epc).
  { rewrite <- Ec. discriminate. }
  exists t, p. split; [exact El |]. split; [exact Ep |]. split; [exact Er |]. rewrite Epc. split.
  - exists (λ _, true). rewrite <- Ec. intros c ->%list_elem_of_singleton. exists (mkLit 0 false).
    split; [by left | reflexivity].
  - intros σ H. apply (refuted_cs_unsat σ). exact H.
Qed.

(** The header of the file is printed before the assumptions get their names. *)
Lemma dimacs_header_short :
  (t ← fresh_simp; '(t, _) ← simp_newVar t l_Undef true; toDimacs_text t [mkLit 0 false]) =
  Some (print_dimacs 0 [[mkLit 0 false]]).
Proof. vm_compute. reflexivity. Qed.
