(* ===== verification/Implies.v ===== *)
(** * Consequences and the file of the core solver

    [Solver::implies] and [Solver::toDimacs] of [minisat/core/Solver.cc]:
    [implies] works at decision level 0 and returns what unit propagation adds
    to the assumptions; [toDimacs] is the text the [SimpSolver] writes too. *)
From S2P Require Import Prelude Lit UnitProp Vec Heap Alloc Clause Solver Propagate PropCheck Setup SetupSpec.
From S2P Require Import LearnSpec Simp Load Problem ProblemSpec.

(** ** Definitions *)

(** The loop over the assumptions; [false] is its early return. *)
Fixpoint implies_loop (s : Core) (ps : list Lit) : Core * bool :=
  match ps with
  | [] => (s, true)
  | a :: ps =>
      if lb_eqb (value s a) l_False then (s, false)
      else if lb_eqb (value s a) l_Undef then implies_loop (uncheckedEnqueue s a CRef_Undef) ps
      else implies_loop s ps
  end.

(** [implies(assumps, out)]; [trail_lim.push] is [newDecisionLevel]. *)
Definition implies (st : Solver) (assumps out : list Lit) : option (Solver * list Lit * bool) :=
  let '(s, good) := implies_loop (newDecisionLevel (core st)) assumps in
  let st := st <| core := s |> in
  if good then
    let trail_before := length (trail s) in
    '(st, confl) ← propagate st;
    if confl =? CRef_Undef
    then Some (cancelUntil st 0, drop trail_before (trail (core st)), true)
    else Some (cancelUntil st 0, out, false)
  else Some (cancelUntil st 0, out, false).

(** [toDimacs(FILE*, assumps)]. *)
Definition core_toDimacs (st : Solver) (assumps : list Lit) : option (list Z) :=
  if negb (ok st) then Some (print_dimacs 1 [[mkLit 0 false]; [mkLit 0 true]])
  else
    cs ← mapM (ca_deref (ca (core st))) (clauses st);
    let s := core st in
    let '(map, max) := map_clauses s [] 0 cs in
    let cnt := (length (List.filter (λ c, negb (satisfied s c)) cs) + length assumps)%nat in
    let header := p_cnf ++ [32] ++ digits max ++ [32] ++ digits (Z.of_nat cnt) ++ [10] in
    let '(a, map, max) := text_assumps map max assumps in
    Some (header ++ a ++ text_clauses s map max cs).

(** ** The loop *)

(** For a literal that is not false, being unassigned is not being true. *)
Lemma not_false_undef s p : TrailOk (nv s) (assigns s) (trail s) → lit_ok (nv s) p →
  lb_eqb (value s p) l_False = false → lb_eqb (value s p) l_Undef = lb_neb (value s p) l_True.
Proof.
  intros T Hp. unfold lb_neb. rewrite (value_isFalse _ T), (value_isUndef _ T), (value_isTrue _ T) by done.
  rewrite <- bool_decide_not. intros Hn%bool_decide_eq_false. apply bool_decide_ext. tauto.
Qed.

Lemma implies_loop_eq q ps : ∀ s, Inv q s → lits_ok s ps → implies_loop s ps = enqueue_all s ps.
Proof.
  induction ps as [| p ps IH]; intros s I Hok; [done |]. apply Forall_cons in Hok as [Hp Hok]. simpl.
  pose proof (inv_trail _ _ I) as T. destruct (lb_eqb (value s p) l_False) eqn:Ef; [done |].
  rewrite <- (not_false_undef s p T Hp Ef). destruct (lb_eqb (value s p) l_Undef) eqn:Eu; [| by apply IH].
  rewrite (value_isUndef _ T p Hp) in Eu. apply bool_decide_eq_true in Eu as [H1 H2]. apply IH.
  - by apply inv_enqueue.
  - unfold lits_ok, nv, uncheckedEnqueue in *. simpl. by rewrite length_zset.
Qed.

(** ** The answer *)

(** The trail once every assumption is enqueued. *)
Lemma assumed_trail st ps : Stable st → lits_ok (core st) ps →
  let '(s, b) := enqueue_all (newDecisionLevel (core st)) ps in
  b = true → ∀ k, k ∈ trail s ↔ k ∈ trail (core st) ++ ps.
Proof.
  intros St Hok. destruct (enqueue_all _ ps) as [s b] eqn:E. intros ->.
  destruct (assume_above _ _ _ _ St Hok E) as (A & _ & H1 & H2).
  intros k. split; [apply H1 |]. intros [Hk | Hk]%elem_of_app; [| by apply H2].
  destruct (ab_trail _ _ A) as [news Et]. simpl in Et. rewrite Et. apply elem_of_app. by left.
Qed.

(** What [propagate] adds to an assumed level. *)
Lemma assumed_derives st ps s st2 : Stable st → lits_ok (core st) ps →
  enqueue_all (newDecisionLevel (core st)) ps = (s, true) → Propagated s (core st2) CRef_Undef →
  db (mem s) = db_of st → Inv (length (trail (core st2))) (core st2) →
  ∀ l, l ∈ trail (core st) ++ ps ++ drop (length (trail s)) (trail (core st2)) ↔
       UP (db_of st) (lit_on (trail (core st) ++ ps)) l.
Proof.
  intros St Hok E P Edb I2 l. pose proof (assumed_trail _ _ St Hok) as Hs. rewrite E in Hs.
  specialize (Hs eq_refl). pose proof P as (X & _ & _).
  destruct (ext_trail _ _ X) as [more Em]. rewrite Em, drop_app_length.
  rewrite (assoc_L (++)), elem_of_app, <- Hs, <- elem_of_app, <- Em, <- Edb. split.
  - intros Hl%(ext_up _ _ X). eapply UP_mono, Hl. intros k. apply Hs.
  - intros Hl. apply (fixpoint_up _ _ I2). rewrite <- (mem_perm_db _ _ (ext_mem _ _ X)).
    eapply UP_mono, Hl. intros k Hk%Hs. unfold lit_on. rewrite Em. apply elem_of_app. by left.
Qed.

(** The literals a propagation adds are new. *)
Lemma new_literals tr tr' n a : (∃ more, tr' = tr ++ more) → TrailOk n a tr' →
  NoDup (drop (length tr) tr') ∧ ∀ l, l ∈ drop (length tr) tr' → l ∉ tr.
Proof.
  intros [more ->] T. rewrite drop_app_length. pose proof (NoDup_fmap_1 _ _ (tr_nodup _ _ _ T)) as Hnd.
  apply NoDup_app in Hnd as (_ & Hd & Hm). split; [done |]. intros l Hl Ht. by apply (Hd l).
Qed.

(** [implies] at level 0 terminates and gives the solver back; it answers
    [false] exactly when unit propagation refutes the assumptions, and otherwise
    the trail, the assumptions and the literals it returns are what unit
    propagation derives, the returned ones being new. *)
Theorem implies_correct st ps out : Stable st → trail_lim (core st) = [] → lits_ok (core st) ps →
  ∃ st' out' b, implies st ps out = Some (st', out', b) ∧ Restored st st' ∧
    answers b (UPconfl (db_of st) (lit_on (trail (core st) ++ ps))) ∧
    (b = true → ∀ l, l ∈ trail (core st) ++ ps ++ out' ↔ UP (db_of st) (lit_on (trail (core st) ++ ps)) l) ∧
    (b = true → NoDup out' ∧ ∀ l, l ∈ out' → l ∉ trail (core st) ++ ps) ∧
    (b = false → out' = out).
Proof.
  intros St Hl Hok. unfold implies. pose proof (proj1 St) as I. rewrite (proj2 St) in I.
  rewrite (implies_loop_eq _ ps _ (inv_new_level _ I) Hok).
  pose proof (enqueue_all_spec _ ps _ (inv_new_level _ I) Hok) as Hs.
  destruct (enqueue_all _ ps) as [s b] eqn:E. destruct Hs as (_ & _ & _ & _ & Hca & _).
  assert (db (mem s) = db_of st) as Edb by (unfold db_of, mem; by rewrite Hca).
  destruct (assume_above _ _ _ _ St Hok E) as (_ & Is & _).
  pose proof (assumed_trail _ _ St Hok) as Ht. rewrite E in Ht.
  destruct (prop_check_body st ps s b St Hok E) as (st2 & confl & Ep & A & Hb).
  destruct (cancel_above _ _ St A) as [_ R]. unfold decisionLevel in R. rewrite Hl in R.
  destruct b; simpl in Ep, Hb.
  - pose proof (propagate_spec (st <| core := s |>)) as HP. destruct (HP Is) as (st3 & c3 & Ep3 & P & _).
    rewrite Ep in Ep3. simplify_eq. rewrite Ep. simpl in *.
    destruct (Z.eqb_spec c3 CRef_Undef) as [-> | Hc]; simpl in Hb; eexists _, _, _; (split; [done |]);
      split_and!; try done; intros _.
    + apply (assumed_derives _ _ s); try done. destruct P as (_ & Hq & [[_ I2] | [? _]]); [by rewrite <- Hq | done].
    + destruct (propagated_inv _ _ _ P) as [q Iq].
      destruct (new_literals (trail s) _ _ _ (ext_trail _ _ (proj1 P)) (inv_trail _ _ Iq)) as [Hn Hd].
      split; [exact Hn |]. intros l Hx Hi. apply (Hd l Hx). by apply (Ht eq_refl).
  - simplify_eq. eexists _, _, _. by split_and!.
Qed.

(** ** The file *)

(** The copy of [toDimacs] in the [SimpSolver] writes the same file. *)
Theorem core_toDimacs_simp t assumps : SimpInv t → core_toDimacs (base t) assumps = toDimacs_text t assumps.
Proof.
  intros Ht. unfold core_toDimacs, toDimacs_text. case_match_goal; [done |].
  assert (mapM (ca_deref (ca (core (base t)))) (clauses (base t)) = mapM (clause_of t) (clauses (base t))) as ->; [| done].
  apply Forall_mapM_ext, Forall_forall. intros cr Hcr. unfold clause_of, is_tmp. rewrite (si_tmp _ Ht).
  pose proof (si_listed _ Ht) as (_ & L2 & _).
  destruct (Z.eqb_spec cr 0) as [-> |]; [by destruct L2 |]. by rewrite andb_false_r.
Qed.

(** Both answers on the clauses of [example_solver]. *)
Lemma implies_example : trail_lim (core example_solver) = [] ∧
  (implies example_solver [mkLit 0 true] [] ≫= λ r, Some (snd (fst r), snd r)) = Some ([mkLit 1 false; mkLit 2 false], true) ∧
  (implies example_solver [mkLit 1 false; mkLit 2 true] [] ≫= λ r, Some (snd (fst r), snd r)) = Some ([], false).
Proof. split_and!; vm_compute; reflexivity. Qed.
