(* ===== verification/Domain.v ===== *)
(** * Variables, assignments and literal lists

    [core/domain] ([SearchSpace], [VarView], [Vars]) and [util/mini.cpp], the
    conversions between sets of variables and lists of literals that every
    other component uses.  An [unordered_set] is a [gset]. *)
From S2P Require Import Prelude Lit.

(** ** [core::domain::SearchSpace] *)

Definition MAX_VARS_FOR_FULL_SEARCH : Z := 63.

Record SearchSpace := MkSpace {
  countable_search_space : bool;
  search_space_size : Z;
  inaccurate_visited_points : Z }.

(** [reset(n)]; the size keeps its old value when it is not countable. *)
Definition space_reset (s : SearchSpace) (n : Z) : SearchSpace :=
  let c := n <=? MAX_VARS_FOR_FULL_SEARCH in
  MkSpace c (if c then u64 (Z.shiftl 1 n) else search_space_size s) 0.

Definition new_space (n : Z) : SearchSpace := space_reset (MkSpace false 0 0) n.

Definition has_unvisited_points (s : SearchSpace) : bool :=
  negb (countable_search_space s) || (inaccurate_visited_points s <? search_space_size s).

(** ** [core::domain::VarView] *)

(** [map_var(index, var)]: resizes with zeroes up to the index. *)
Definition map_var (view : list Z) (index var : Z) : list Z :=
  zset (if Z.of_nat (length view) <=? index then grow_to view (Z.to_nat (1 + index)) 0 else view)
       index var.

Definition view_get (view : list Z) (index : Z) : Z := zget 0 view index.

(** ** [core::domain::Vars]: a bit mask *)

Definition flip (mask : list bool) (pos : Z) : list bool :=
  zset mask pos (negb (zget false mask pos)).

(** [resize(size)]: cuts or pads with [false]. *)
Definition mask_resize (mask : list bool) (n : nat) : list bool := take n (grow_to mask n false).

(** The positions of the set bits, from position [i] on. *)
Fixpoint set_positions (mask : list bool) (i : Z) : list Z :=
  match mask with
  | [] => []
  | b :: mask => (if b : bool then [i] else []) ++ set_positions mask (i + 1)
  end.

Definition map_to_vars (view : list Z) (mask : list bool) : list Z :=
  view_get view <$> set_positions mask 0.

Definition map_to_vars_id (mask : list bool) : list Z := set_positions mask 0.

(** [size()]: [std::count(..., true)]. *)
Definition mask_size (mask : list bool) : Z := Z.of_nat (length (filter (λ b, b = true) mask)).

(** ** [util/mini.cpp] *)

Definition convert_ms_model (n : nat) (m : list lbool) : list bool :=
  take n (grow_to ((λ v, lb_eqb v l_True) <$> m) n false).

Definition filter_vars (vars : list Z) (out : gset Z) : list Z := filter (λ v, v ∉ out) vars.

Definition get_vars (a : list Lit) : gset Z := list_to_set (var <$> a).

Definition map_to_mini_vars (vars : list Z) : list Lit := (λ v, mkLit v false) <$> vars.

Definition concat_lits (a b : list Lit) : list Lit := a ++ b.

(** The loop of [concat_unique_vars] over [b]. *)
Fixpoint add_unique_vars (used : gset Z) (a b : list Lit) : list Lit :=
  match b with
  | [] => a
  | l :: b => if decide (var l ∈ used) then add_unique_vars used a b
              else add_unique_vars ({[var l]} ∪ used) (a ++ [l]) b
  end.

Definition concat_unique_vars (a b : list Lit) : list Lit := add_unique_vars (get_vars a) a b.

(** The loop of [filter]: the first occurrences. *)
Fixpoint filter_loop (seen : gset Z) (a : list Lit) : list Lit :=
  match a with
  | [] => []
  | l :: a => if decide (lit_x l ∈ seen) then filter_loop seen a
              else l :: filter_loop ({[lit_x l]} ∪ seen) a
  end.

Definition filter_lits (a : list Lit) : list Lit := filter_loop ∅ a.

(** ** Facts *)

Lemma length_set_positions mask i : Z.of_nat (length (set_positions mask i)) = mask_size mask.
Proof.
  unfold mask_size. revert i. induction mask as [| b mask IH]; intros i; [done |].
  cbn [set_positions]. rewrite length_app, Nat2Z.inj_add, IH, filter_cons.
  destruct b; simpl; lia.
Qed.

Lemma elem_of_set_positions mask k : ∀ i,
  k ∈ set_positions mask i ↔ i <= k ∧ mask !! Z.to_nat (k - i) = Some true.
Proof.
  induction mask as [| b mask IH]; intros i; cbn [set_positions].
  - rewrite elem_of_nil. split; [done | by intros [_ ?]].
  - rewrite elem_of_app, IH. destruct (decide (k = i)) as [-> | Hne].
    + rewrite Z.sub_diag. simpl. destruct b; simpl.
      * split; [| intros _; left; by left]. intros _. split; [lia | done].
      * split; [intros [Hi | [? _]]; [by apply elem_of_nil in Hi | lia] | intros [_ ?]; done].
    + destruct (decide (i <= k)).
      * replace (Z.to_nat (k - i)) with (S (Z.to_nat (k - (i + 1)))) by lia. simpl.
        split.
        -- intros [Hi | [? ?]]; [| by split]. destruct b; [by apply list_elem_of_singleton in Hi |].
           by apply elem_of_nil in Hi.
        -- intros [? ?]. right. split; [lia | done].
      * split; [| lia]. intros [Hi | [? _]]; [| lia].
        destruct b; [by apply list_elem_of_singleton in Hi | by apply elem_of_nil in Hi].
Qed.

Lemma set_positions_NoDup mask : ∀ i, NoDup (set_positions mask i).
Proof.
  induction mask as [| b mask IH]; intros i; cbn [set_positions]; [apply NoDup_nil_2 |].
  destruct b; simpl; [| apply IH]. apply NoDup_cons. split; [| apply IH].
  intros [? _]%elem_of_set_positions. lia.
Qed.

(** [has_unvisited_points] after [n] visits, for a countable space. *)
Lemma space_points n k : 0 <= n <= 63 → 0 <= k < 2 ^ 64 →
  has_unvisited_points (MkSpace true (u64 (Z.shiftl 1 n)) k) = (k <? 2 ^ n).
Proof.
  intros Hn Hk. unfold has_unvisited_points; simpl. rewrite Z.shiftl_1_l. unfold u64.
  rewrite Z.mod_small; [done |]. split; [lia |]. apply Z.pow_lt_mono_r; lia.
Qed.

Lemma add_unique_vars_spec b : ∀ used a, (∀ v, v ∈ used ↔ v ∈ var <$> a) →
  ∃ extra, add_unique_vars used a b = a ++ extra ∧ sublist extra b ∧
    NoDup (var <$> extra) ∧ (∀ l, l ∈ extra → var l ∉ var <$> a) ∧
    (∀ v, v ∈ var <$> (a ++ b) → v ∈ var <$> (a ++ extra)).
Proof.
  induction b as [| l b IH]; intros used a Hu; simpl.
  { exists []. rewrite app_nil_r. split; [done |]. split; [done |]. split; [apply NoDup_nil_2 |].
    split; [| done]. intros l Hl. by apply elem_of_nil in Hl. }
  case_decide as Hin.
  - destruct (IH used a Hu) as (ex & E & Hs & Hn & Hd & Hc). exists ex. split; [done |].
    split; [by constructor |]. split; [done |]. split; [done |]. intros v.
    rewrite !fmap_app, fmap_cons, !elem_of_app, elem_of_cons.
    intros [? | [-> | ?]]; [by left | left; by apply Hu |].
    specialize (Hc v). rewrite !fmap_app, !elem_of_app in Hc. auto.
  - destruct (IH ({[var l]} ∪ used) (a ++ [l])) as (ex & E & Hs & Hn & Hd & Hc).
    { intros v. rewrite elem_of_union, elem_of_singleton, Hu, fmap_app, elem_of_app.
      simpl. rewrite list_elem_of_singleton. tauto. }
    exists (l :: ex). rewrite E, <- (assoc_L (++)). split; [done |]. split; [by constructor |].
    setoid_rewrite fmap_app in Hd. setoid_rewrite not_elem_of_app in Hd. simpl in Hd.
    split; [| split].
    + rewrite fmap_cons. apply NoDup_cons. split; [| done].
      intros (m & Hv & Hm)%list_elem_of_fmap_1. destruct (Hd m Hm) as [_ Hx]. apply Hx.
      rewrite Hv. by left.
    + intros m [-> | Hm]%elem_of_cons; [by rewrite <- Hu | by apply Hd].
    + intros v Hv. specialize (Hc v). rewrite <- !(assoc_L (++)) in Hc. apply Hc. exact Hv.
Qed.

(** [concat_unique_vars a b] keeps [a] and adds the first literal of [b] for every
    variable that is not there yet. *)
Lemma concat_unique_vars_spec a b :
  ∃ extra, concat_unique_vars a b = a ++ extra ∧ sublist extra b ∧
    NoDup (var <$> extra) ∧ (∀ l, l ∈ extra → var l ∉ var <$> a) ∧
    (∀ v, v ∈ var <$> (a ++ b) → v ∈ var <$> concat_unique_vars a b).
Proof.
  unfold concat_unique_vars. destruct (add_unique_vars_spec b (get_vars a) a) as (ex & E & H).
  - intros v. unfold get_vars. by rewrite elem_of_list_to_set.
  - exists ex. rewrite E. by split.
Qed.

Lemma filter_loop_spec a : ∀ seen, NoDup (filter_loop seen a) ∧ 
  ∀ l, l ∈ filter_loop seen a ↔ l ∈ a ∧ lit_x l ∉ seen.
Proof.
  induction a as [| m a IH]; intros seen; simpl.
  { split; [apply NoDup_nil_2 |]. intros l. rewrite elem_of_nil. tauto. }
  case_decide as Hin.
  - destruct (IH seen) as [H1 H2]. split; [done |]. intros l. rewrite H2, elem_of_cons.
    split; [tauto |]. intros [[-> | ?] ?]; done.
  - destruct (IH ({[lit_x m]} ∪ seen)) as [H1 H2]. split.
    + apply NoDup_cons. split; [| done]. rewrite H2, elem_of_union, elem_of_singleton. tauto.
    + intros l. rewrite !elem_of_cons, H2, elem_of_union, elem_of_singleton. split.
      * intros [-> | [? ?]]; [split; [by left | done] |]. split; [by right | tauto].
      * intros [[-> | ?] ?]; [by left |]. destruct (decide (l = m)) as [-> |]; [by left | right].
        split; [done |]. intros [Hx | ?]; [| done]. by apply lit_eq in Hx.
Qed.
