(* ===== verification/Search.v ===== *)
(** * Searches: sequences of assignments

    [core/search]: a [Search] holds the current assignment and steps through a
    sequence of them; [split_search] cuts the sequence into parts for the
    parallel propagation.  The classes derived from [Search] are the
    constructors of [Kind]; [clone], [_advance] and [_reset] dispatch on it.

    Random numbers come from the thread's generator.  [sample] is a parameter:
    [std::uniform_int_distribution] over the state of the engine. *)
From S2P Require Import Prelude Lit Domain.

(** ** Data *)

Inductive Kind :=
  | KSingle
  | KFull
  | KCartesian (indices : list Z) (cartesian : list (list (list Lit)))
  | KRandom
  | KUnique (visited : gset Z).

Record Search := MkSearch {
  s_total : Z;
  s_done : Z;
  s_first : Z;
  s_last : Z;
  s_assignment : list Lit;
  s_kind : Kind }.

#[export] Instance Search_settable : Settable Search := λ s,
  MkSearch (s_total s) (s_done s) (s_first s) (s_last s) (s_assignment s) (s_kind s).

(** [Search(total)] with [_set_range]. *)
Definition base_search (total : Z) (asgn : list Lit) (k : Kind) : Search :=
  MkSearch total 0 0 (u64 (total - 1)) asgn k.

Definition search_size (s : Search) : Z := s_total s.

Definition search_empty (s : Search) : bool := search_size s =? 0.

(** [total_size(mask)]: [1ULL << count]. *)
Definition total_size (mask : list bool) : Z := u64 (Z.shiftl 1 (mask_size mask)).

(** [_set_assignment(vec, value)]: literal [i] is negative when bit [i] is set. *)
Definition set_assignment (vec : list Lit) (value : Z) : list Lit :=
  imap (λ i l, mkLit (var l) (Z.testbit value (Z.of_nat i))) vec.

(** The assignment of [Search(vars, total)] and [Search(view, mask, total)]. *)
Definition vars_assignment (vars : list Z) : list Lit := map_to_mini_vars vars.

Definition mask_assignment (view : list Z) (mask : list bool) : list Lit :=
  map_to_mini_vars (map_to_vars view mask).

(** ** [FullSearch] *)

(** [next_assignment]: a binary counter, lowest bit first. *)
Fixpoint next_assignment (vec : list Lit) : list Lit :=
  match vec with
  | [] => []
  | l :: vec => if sign l then lit_neg l :: next_assignment vec else mkLit (var l) true :: vec
  end.

Definition createFullSearch (vars : list Z) : Search :=
  base_search (u64 (Z.shiftl 1 (Z.of_nat (length vars)))) (vars_assignment vars) KFull.

Definition createFullSearch_mask (view : list Z) (mask : list bool) : Search :=
  base_search (total_size mask) (mask_assignment view mask) KFull.

Definition createSingleSearch : Search := base_search 1 [] KSingle.

(** ** [CartesianSearch] *)

(** [_set_cur(from)] on the whole assignment: the groups chosen by the indices. *)
Definition chosen (cartesian : list (list (list Lit))) (indices : list Z) : list (list Lit) :=
  zip_with (λ g i, zget [] g i) cartesian indices.

(** Writing the groups from [from] on behind the length of the groups before;
    [groups] are the groups chosen now, [old] the assignment so far. *)
Definition set_cur (cartesian : list (list (list Lit))) (indices : list Z) (from : nat)
    (old : list Lit) : list Lit :=
  let groups := chosen cartesian indices in
  let offset := length (concat (take from groups)) in
  let new := concat (drop from groups) in
  take (length old) (take offset old ++ new ++ drop (offset + length new) old).

(** The product of the sizes is accumulated in 32 bits. *)
Definition cartesian_total (cartesian : list (list (list Lit))) : Z :=
  foldl (λ size v, u32 (size * Z.of_nat (length v))) 1 cartesian.

Definition cartesian_width (cartesian : list (list (list Lit))) : Z :=
  foldl (λ size v, u32 (size + Z.of_nat (length (default [] (head v))))) 0 cartesian.

Definition createCartesianSearch (cartesian : list (list (list Lit))) : Search :=
  let indices := replicate (length cartesian) 0 in
  base_search (cartesian_total cartesian)
    (set_cur cartesian indices 0 (replicate (Z.to_nat (cartesian_width cartesian)) inhabitant))
    (KCartesian indices cartesian).

(** The loop of [_reset]: digits of the number [n], last index first. *)
Fixpoint reset_indices (rsizes : list Z) (n : Z) : list Z :=
  match rsizes with
  | [] => []
  | sz :: rsizes => n mod sz :: reset_indices rsizes (n / sz)
  end.

(** The loop of [_advance] on the reversed indices: the carry. *)
Fixpoint advance_indices (rsizes rindices : list Z) : list Z :=
  match rsizes, rindices with
  | sz :: rsizes, i :: rindices =>
      if i + 1 =? sz then 0 :: advance_indices rsizes rindices else i + 1 :: rindices
  | _, _ => []
  end.

(** The position at which the carry stops, at least 0. *)
Fixpoint advance_from (rsizes rindices : list Z) : nat :=
  match rsizes, rindices with
  | sz :: rsizes, i :: rindices =>
      if i + 1 =? sz then advance_from rsizes rindices else length rindices
  | _, _ => O
  end.

Definition group_sizes (cartesian : list (list (list Lit))) : list Z :=
  (λ g, Z.of_nat (length g)) <$> cartesian.

Definition cartesian_advance (s : Search) (indices : list Z) (cartesian : list (list (list Lit))) :
    Search :=
  let rs := rev (group_sizes cartesian) in
  let indices' := rev (advance_indices rs (rev indices)) in
  let from := advance_from rs (rev indices) in
  s <| s_assignment := set_cur cartesian indices' from (s_assignment s) |>
    <| s_kind := KCartesian indices' cartesian |>.

Definition cartesian_reset (s : Search) (cartesian : list (list (list Lit))) : Search :=
  let indices := rev (reset_indices (rev (group_sizes cartesian)) (s_first s)) in
  s <| s_assignment := set_cur cartesian indices 0 (s_assignment s) |>
    <| s_kind := KCartesian indices cartesian |>.

(** ** Random searches *)

Section Random.
(** [sample r lo hi] draws from the closed range, in the generator state [r]. *)
Context {R : Type} (sample : R → Z → Z → Z * R).

(** [set_random(vec)]. *)
Fixpoint set_random (r : R) (vec : list Lit) : list Lit * R :=
  match vec with
  | [] => ([], r)
  | l :: vec =>
      let '(b, r) := sample r 0 1 in
      let '(vec, r) := set_random r vec in
      (mkLit (var l) (negb (b =? 0)) :: vec, r)
  end.

(** The loop of [_advance_us]: draws until the sample is new. *)
Fixpoint draw_new (fuel : nat) (r : R) (visited : gset Z) (x lo hi : Z) : option (Z * R) :=
  if decide (x ∈ visited) then
    match fuel with
    | O => None
    | S fuel => let '(x, r) := sample r lo hi in draw_new fuel r visited x lo hi
    end
  else Some (x, r).

Definition unique_advance (fuel : nat) (r : R) (s : Search) (visited : gset Z) :
    option (Search * R) :=
  '(x, r) ← draw_new fuel r visited (s_first s) (u64 (s_first s + 1)) (s_last s);
  Some (s <| s_assignment := set_assignment (s_assignment s) x |>
          <| s_kind := KUnique ({[x]} ∪ visited) |>, r).

(** [_advance()]; [fuel] bounds the draws of a [UniqueSearch]. *)
Definition search_advance (fuel : nat) (r : R) (s : Search) : option (Search * R) :=
  match s_kind s with
  | KSingle => Some (s, r)
  | KFull => Some (s <| s_assignment := next_assignment (s_assignment s) |>, r)
  | KCartesian indices cartesian => Some (cartesian_advance s indices cartesian, r)
  | KRandom => let '(a, r) := set_random r (s_assignment s) in Some (s <| s_assignment := a |>, r)
  | KUnique visited => unique_advance fuel r s visited
  end.

(** [_reset()]. *)
Definition search_reset (fuel : nat) (r : R) (s : Search) : option (Search * R) :=
  match s_kind s with
  | KSingle => Some (s, r)
  | KFull => Some (s <| s_assignment := set_assignment (s_assignment s) (s_first s) |>, r)
  | KCartesian _ cartesian => Some (cartesian_reset s cartesian, r)
  | KRandom => let '(a, r) := set_random r (s_assignment s) in Some (s <| s_assignment := a |>, r)
  | KUnique _ => unique_advance fuel r s ∅
  end.

(** [operator++]: [false] at the end. *)
Definition search_next (fuel : nat) (r : R) (s : Search) : option (bool * Search * R) :=
  if (s_done s =? u64 (s_total s - 1)) || (s_total s =? 0) then Some (false, s, r)
  else
    '(s, r) ← search_advance fuel r s;
    Some (true, s <| s_done := u64 (s_done s + 1) |>, r).

(** [clone()]: a cartesian or single search is built anew. *)
Definition clone (s : Search) : Search :=
  match s_kind s with
  | KSingle => createSingleSearch
  | KCartesian _ cartesian => createCartesianSearch cartesian
  | _ => s
  end.

(** [get_start_and_todo]: the start and the length of part [index]. *)
Definition get_start_and_todo (total num_split index : Z) : Z * Z :=
  let d := total / num_split in
  let rem := total mod num_split in
  if index <? rem then (u64 (index * (d + 1)), u64 (d + 1))
  else (u64 (rem * (d + 1) + (index - rem) * d), d).

(** [split_search(num_split, index)]. *)
Definition split_search (fuel : nat) (r : R) (s : Search) (num_split index : Z) :
    option (Search * R) :=
  let c := clone s in
  let '(start, to_do) := get_start_and_todo (s_total s) num_split index in
  if start <? s_total s then
    search_reset fuel r (c <| s_first := start |> <| s_last := u64 (start + to_do - 1) |>
                           <| s_done := 0 |> <| s_total := to_do |>)
  else Some (c <| s_total := 0 |>, r).

(** [createRandomSearch] and [UniqueSearch(vars, total)]. *)
Definition createRandomSearch (r : R) (vars : list Z) (total : Z) : Search * R :=
  let '(a, r) := set_random r (vars_assignment vars) in (base_search total a KRandom, r).

Definition createUniqueSearch (fuel : nat) (r : R) (vars : list Z) (total : Z) :
    option (Search * R) :=
  unique_advance fuel r (base_search total (vars_assignment vars) (KUnique ∅)) ∅.

Definition createAutoRandomSearch (fuel : nat) (r : R) (vars : list Z) (total : Z) :
    option (Search * R) :=
  if Z.of_nat (length vars) <=? MAX_VARS_FOR_FULL_SEARCH then createUniqueSearch fuel r vars total
  else Some (createRandomSearch r vars total).

(** The assignments that [do { ... search() ... } while (++search)] sees;
    [n] bounds the rounds. *)
Fixpoint visit (fuel n : nat) (r : R) (s : Search) : option (list (list Lit) * R) :=
  match n with
  | O => None
  | S n =>
      '(b, s', r) ← search_next fuel r s;
      if b : bool then
        '(l, r) ← visit fuel n r s';
        Some (s_assignment s :: l, r)
      else Some ([s_assignment s], r)
  end.
End Random.
