(* ===== verification/SearchSpec.v ===== *)
(** * What the searches enumerate

    A deterministic search ([FullSearch], [CartesianSearch], [SingleSearch]) is
    [Enumerable]: it sits at a position of a fixed sequence of assignments,
    [_advance] moves to the next position and [_reset] to position [_first].
    For every enumerable search the visited assignments are the sequence, and
    the parts of [split_search] cut it into consecutive pieces. *)
From S2P Require Import Prelude Lit UnitProp Domain Search.

(** ** The interface *)

Section Enumerable_def.
Context {R : Type} (sample : R → Z → Z → Z * R) (fuel : nat).

Definition same_range (s s' : Search) : Prop :=
  s_total s' = s_total s ∧ s_done s' = s_done s ∧ s_first s' = s_first s ∧ s_last s' = s_last s.

(** [at k]: assignment [k] of the sequence, [0 <= k < n]; [sits k s]: the
    search [s] is at position [k]; [kin s]: [s] is a search of this sequence. *)
Class Enumerable (n : Z) (at_ : Z → list Lit) (kin : Search → Prop) (sits : Z → Search → Prop) := {
  en_at k s : sits k s → s_assignment s = at_ k;
  en_kin k s : sits k s → kin s;
  en_range k s s' : s_assignment s' = s_assignment s → s_kind s' = s_kind s →
    sits k s → sits k s';
  en_advance k s r : sits k s → 0 <= k → k + 1 < n →
    ∃ s', search_advance sample fuel r s = Some (s', r) ∧ sits (k + 1) s' ∧ same_range s s';
  en_clone s : kin s → kin (clone s);
  en_kin_range s s' : s_assignment s' = s_assignment s → s_kind s' = s_kind s → kin s → kin s';
  en_reset s r : kin s → 0 <= s_first s < n →
    ∃ s', search_reset sample fuel r s = Some (s', r) ∧ sits (s_first s) s' ∧ same_range s s' }.
End Enumerable_def.

Arguments en_at {R sample fuel n at_ kin sits _} k s _.
Arguments en_kin {R sample fuel n at_ kin sits _} k s _.
Arguments en_range {R sample fuel n at_ kin sits _} k s s' _ _ _.
Arguments en_advance {R sample fuel n at_ kin sits _} k s r _ _ _.
Arguments en_clone {R sample fuel n at_ kin sits _} s _.
Arguments en_kin_range {R sample fuel n at_ kin sits _} s s' _ _ _.
Arguments en_reset {R sample fuel n at_ kin sits _} s r _ _.

Section Enumerable_facts.
Context {R : Type} (sample : R → Z → Z → Z * R) (fuel : nat).
Context (n : Z) (at_ : Z → list Lit) (kin : Search → Prop) (sits : Z → Search → Prop).
Context `{!Enumerable sample fuel n at_ kin sits}.

(** The rest of the sequence is visited in order. *)
Lemma visit_spec (len : nat) : ∀ rounds k s r, sits k s → 0 <= k →
  0 <= s_done s → s_total s < 2 ^ 64 → s_total s = s_done s + Z.of_nat len → (0 < len)%nat →
  k + Z.of_nat len <= n → (len <= rounds)%nat →
  visit sample fuel rounds r s = Some (at_ <$> seqZ k (Z.of_nat len), r).
Proof.
  induction len as [| len IH]; intros rounds k s r Hs Hk Hd Ht Hlen Hpos Hn Hr; [lia |].
  destruct rounds as [| rounds]; [lia |]. cbn [visit]. unfold search_next.
  assert (u64 (s_total s - 1) = s_total s - 1) as -> by (apply Z.mod_small; lia).
  destruct (Z.eqb_spec (s_total s) 0); [lia |]. rewrite orb_false_r.
  destruct (Z.eqb_spec (s_done s) (s_total s - 1)) as [He | He]; simpl.
  - assert (len = 0%nat) as -> by lia. change (Z.of_nat 1) with 1.
    rewrite (en_at k s Hs). done.
  - destruct (en_advance k s r Hs Hk) as (s' & -> & Hs' & R1 & R2 & R3 & R4); [lia |]. simpl.
    assert (u64 (s_done s' + 1) = s_done s + 1) as -> by (rewrite R2; apply Z.mod_small; lia).
    rewrite (IH rounds (k + 1)); simpl; try lia.
    + rewrite (en_at k s Hs), (seqZ_cons k) by lia. simpl. do 4 f_equal. f_equal; lia.
    + by eapply en_range; [| | exact Hs'].
Qed.

Definition part_start (total num i : Z) : Z := fst (get_start_and_todo total num i).
Definition part_todo (total num i : Z) : Z := snd (get_start_and_todo total num i).

Lemma part_bounds total num i : 0 < total < 2 ^ 64 → 0 < num <= total → 0 <= i < num →
  part_start total num i = i * (total / num) + Z.min i (total mod num) ∧
  part_todo total num i = total / num + Z.b2z (i <? total mod num).
Proof.
  intros Ht Hn Hi. unfold part_start, part_todo, get_start_and_todo.
  pose proof (Z.div_mod total num ltac:(lia)). pose proof (Z.mod_pos_bound total num ltac:(lia)).
  assert (1 <= total / num) by (apply Z.div_le_lower_bound; lia).
  set (d := total / num) in *. set (rem := total mod num) in *. clearbody d rem.
  destruct (Z.ltb_spec i rem); simpl.
  - unfold u64. rewrite Z.min_l by lia. rewrite !Z.mod_small; nia.
  - unfold u64. rewrite Z.min_r by lia. rewrite Z.mod_small; nia.
Qed.

(** The parts are adjacent, and the last one ends at [total]. *)
Lemma part_next total num i : 0 < total < 2 ^ 64 → 0 < num <= total → 0 <= i < num →
  0 < part_todo total num i ∧ 0 <= part_start total num i ∧
  (if decide (i + 1 < num)
   then part_start total num (i + 1) = part_start total num i + part_todo total num i
   else part_start total num i + part_todo total num i = total) ∧
  part_start total num 0 = 0 ∧ part_start total num i + part_todo total num i <= total.
Proof.
  intros Ht Hn Hi. destruct (part_bounds total num i) as [-> ->]; [done .. |].
  pose proof (Z.div_mod total num ltac:(lia)). pose proof (Z.mod_pos_bound total num ltac:(lia)).
  assert (1 <= total / num) by (apply Z.div_le_lower_bound; lia).
  destruct (part_bounds total num 0) as [-> _]; [done | done | lia |].
  destruct (Z.ltb_spec i (total mod num)) as [Hlt | Hge]; simpl.
  - split; [lia |]. split; [nia |]. split; [| split; [lia | nia]].
    case_decide; [| nia]. destruct (part_bounds total num (i + 1)) as [-> _]; [done | done | lia |]. lia.
  - split; [lia |]. split; [nia |]. split; [| split; [lia | nia]].
    case_decide; [| nia]. destruct (part_bounds total num (i + 1)) as [-> _]; [done | done | lia |]. lia.
Qed.

(** One part of [split_search]. *)
Lemma split_sits s r num i : kin s → s_total s = n → 0 < n < 2 ^ 64 → 0 < num <= n → 0 <= i < num →
  ∃ s', split_search sample fuel r s num i = Some (s', r) ∧
    s_total s' = part_todo n num i ∧ s_done s' = 0 ∧ sits (part_start n num i) s'.
Proof.
  intros Hk Htot Hn Hnum Hi. unfold split_search. rewrite Htot.
  destruct (part_next n num i Hn Hnum Hi) as (H1 & H2 & _ & _ & H3).
  unfold part_start, part_todo in *. destruct (get_start_and_todo n num i) as [start todo].
  cbn [fst snd] in *. destruct (Z.ltb_spec start n); [| lia].
  set (c := (clone s) <| s_first := start |> <| s_last := u64 (start + todo - 1) |>
              <| s_done := 0 |> <| s_total := todo |>).
  assert (kin c) as Hc by (eapply en_kin_range; [| | by apply en_clone]; done).
  destruct (en_reset c r Hc) as (s' & -> & Hs' & R1 & R2 & R3 & R4); [simpl; lia |].
  exists s'. by split.
Qed.

Lemma split_spec s r num i : kin s → s_total s = n → 0 < n < 2 ^ 64 → 0 < num <= n → 0 <= i < num →
  ∃ s', split_search sample fuel r s num i = Some (s', r) ∧
    ∀ rounds, (Z.to_nat n <= rounds)%nat →
      visit sample fuel rounds r s' =
      Some (at_ <$> seqZ (part_start n num i) (part_todo n num i), r).
Proof.
  intros Hk Htot Hn Hnum Hi.
  destruct (split_sits s r num i) as (s' & -> & H1 & H2 & Hs'); try done.
  destruct (part_next n num i Hn Hnum Hi) as (H3 & H4 & _ & _ & H5).
  exists s'. split; [done |]. intros rounds Hr.
  rewrite <- (Z2Nat.id (part_todo n num i)) by lia. apply visit_spec; try done; lia.
Qed.

Lemma seqZ_parts num (k : nat) : 0 < n < 2 ^ 64 → 0 < num <= n → Z.of_nat k <= num →
  concat ((λ i, seqZ (part_start n num i) (part_todo n num i)) <$> seqZ 0 (Z.of_nat k)) =
  seqZ 0 (if decide (Z.of_nat k < num) then part_start n num (Z.of_nat k) else n).
Proof.
  intros Hn Hnum. induction k as [| k IH]; intros Hk.
  - change (Z.of_nat 0) with 0. rewrite decide_True by lia.
    destruct (part_next n num 0) as (_ & _ & _ & H & _); [done | done | lia |]. by rewrite H.
  - rewrite seqZ_S, fmap_app, concat_app, IH by lia. rewrite Nat2Z.inj_succ in *. simpl.
    rewrite app_nil_r, decide_True by lia.
    destruct (part_next n num (Z.of_nat k)) as (H1 & H2 & H3 & _ & _); [done | done | lia |].
    rewrite Z.add_0_l. rewrite <- seqZ_app by lia.
    replace (Z.of_nat k + 1) with (Z.succ (Z.of_nat k)) in H3 by lia.
    case_decide; case_decide; try lia; f_equal; lia.
Qed.
End Enumerable_facts.

(** ** [FullSearch] *)

Section FullSpec.
Context (vars : list Z).

Definition full_at (k : Z) : list Lit := set_assignment (map_to_mini_vars vars) k.

Definition full_kin (s : Search) : Prop := s_kind s = KFull ∧ var <$> s_assignment s = vars.

Definition full_sits (k : Z) (s : Search) : Prop := s_kind s = KFull ∧ s_assignment s = full_at k.
End FullSpec.

Lemma var_map_to_mini_vars vars : var <$> map_to_mini_vars vars = vars.
Proof. induction vars as [| v vars IH]; [done |]. cbn. rewrite var_mkLit. by f_equal. Qed.

Lemma set_assignment_cons l vec k :
  set_assignment (l :: vec) k = mkLit (var l) (Z.odd k) :: set_assignment vec (k / 2).
Proof.
  unfold set_assignment. cbn [imap]. rewrite Z.bit0_odd. f_equal. apply imap_ext. intros i x _.
  unfold compose. rewrite Nat2Z.inj_succ, <- Z.div2_div, Z.div2_spec, Z.shiftr_spec by lia.
  f_equal.
Qed.

Lemma set_assignment_vars vec vec' k : var <$> vec = var <$> vec' →
  set_assignment vec k = set_assignment vec' k.
Proof.
  revert vec' k. induction vec as [| l vec IH]; intros [| l' vec'] k [=]; [done |].
  rewrite !set_assignment_cons. f_equal; [congruence | by apply IH].
Qed.

Lemma var_set_assignment vec k : var <$> set_assignment vec k = var <$> vec.
Proof.
  revert k. induction vec as [| l vec IH]; intros k; [done |].
  rewrite set_assignment_cons, !fmap_cons, IH. autorewrite with lits. done.
Qed.

(** [next_assignment] is the increment of the number the assignment encodes. *)
Lemma next_assignment_spec vec k :
  next_assignment (set_assignment vec k) = set_assignment vec (k + 1).
Proof.
  revert k. induction vec as [| l vec IH]; intros k; [done |].
  rewrite !set_assignment_cons. cbn [next_assignment]. autorewrite with lits.
  rewrite Z.odd_add. pose proof (Zdiv2_odd_eqn k) as Hk. rewrite Z.div2_div in Hk.
  destruct (Z.odd k) eqn:E; simpl.
  - replace (k + 1) with ((k / 2 + 1) * 2) by lia. rewrite Z.div_mul by lia. rewrite IH.
    rewrite lit_neg_mkLit. autorewrite with lits. done.
  - replace (k + 1) with (1 + (k / 2) * 2) by lia. rewrite Z.div_add by lia. done.
Qed.

(** The assignments of the numbers below [2 ^ n] are the leaves. *)
Lemma full_at_leaves vars :
  full_at vars <$> seqZ 0 (2 ^ Z.of_nat (length vars)) ≡ₚ leaves vars.
Proof.
  unfold full_at. induction vars as [| v vars IH]; [done |]. cbn [length leaves map_to_mini_vars fmap list_fmap].
  rewrite Nat2Z.inj_succ, Z.pow_succ_r by lia. set (N := 2 ^ Z.of_nat (length vars)) in *.
  assert (seqZ 0 (2 * N) ≡ₚ ((λ k, 2 * k + 1) <$> seqZ 0 N) ++ ((λ k, 2 * k) <$> seqZ 0 N)) as ->.
  { apply NoDup_Permutation.
    - apply NoDup_seqZ.
    - apply NoDup_app. repeat split; try (apply NoDup_fmap_2; [intros ???; lia | apply NoDup_seqZ]).
      intros x (a & -> & _)%list_elem_of_fmap (b & ? & _)%list_elem_of_fmap. lia.
    - intros x. rewrite elem_of_app, !list_elem_of_fmap. setoid_rewrite elem_of_seqZ.
      split.
      + intros Hx. pose proof (Z.div_mod x 2 ltac:(lia)). pose proof (Z.mod_pos_bound x 2 ltac:(lia)).
        destruct (decide (x mod 2 = 0)); [right | left]; exists (x / 2); lia.
      + intros [(a & -> & ?) | (a & -> & ?)]; lia. }
  rewrite fmap_app, <- !list_fmap_compose, <- IH, <- !list_fmap_compose.
  f_equiv; apply Permutation_refl'; apply list_fmap_ext; intros i k _; unfold compose;
    rewrite set_assignment_cons; autorewrite with lits; f_equal.
  - f_equal. by rewrite Z.odd_add, Z.odd_mul.
  - f_equal. replace (2 * k + 1) with (1 + k * 2) by lia. by rewrite Z.div_add by lia.
  - f_equal. by rewrite Z.odd_mul.
  - f_equal. rewrite Z.mul_comm. by rewrite Z.div_mul by lia.
Qed.

Lemma full_start vars : full_sits vars 0 (createFullSearch vars).
Proof.
  split; [done |]. simpl. unfold vars_assignment, full_at. symmetry.
  induction vars as [| v vars IH]; [done |].
  cbn [map_to_mini_vars fmap list_fmap]. rewrite set_assignment_cons. autorewrite with lits.
  f_equal. exact IH.
Qed.

#[export] Instance full_enumerable {R} (sample : R → Z → Z → Z * R) fuel vars :
  Enumerable sample fuel (2 ^ Z.of_nat (length vars)) (full_at vars) (full_kin vars) (full_sits vars).
Proof.
  split; unfold full_kin, full_sits; try tauto.
  - intros k s [-> ->]. split; [done |]. unfold full_at. by rewrite var_set_assignment, var_map_to_mini_vars.
  - intros k s s' -> ->. done.
  - intros k s r [Hk Ha] _ _. unfold search_advance. rewrite Hk, Ha.
    eexists. split; [done |]. simpl. split; [split; [done | apply next_assignment_spec] | done].
  - intros s [Hk Hv]. unfold clone. by rewrite Hk.
  - intros s s' -> ->. done.
  - intros s r [Hk Hv] _. unfold search_reset. rewrite Hk. eexists. split; [done |]. simpl.
    split; [| done]. split; [done |]. unfold full_at. apply set_assignment_vars.
    by rewrite Hv, var_map_to_mini_vars.
Qed.

(** ** [CartesianSearch] *)

(** The reference: one group from every list, the first list outermost. *)
Fixpoint product (cartesian : list (list (list Lit))) : list (list Lit) :=
  match cartesian with
  | [] => [[]]
  | g :: cartesian => concat ((λ a, app a <$> product cartesian) <$> g)
  end.

Definition uniform (g : list (list Lit)) : Prop :=
  (0 < length g)%nat ∧ ∀ a, a ∈ g → length a = length (default [] (head g)).

Definition in_group (g : list (list Lit)) (i : Z) : Prop := 0 <= i < Z.of_nat (length g).

Definition width (cartesian : list (list (list Lit))) : nat :=
  sum_list ((λ g, length (default [] (head g))) <$> cartesian).

Definition cart_size (cartesian : list (list (list Lit))) : Z :=
  foldr Z.mul 1 (group_sizes cartesian).

Lemma length_zget_group g i : uniform g → in_group g i → length (zget [] g i) = length (default [] (head g)).
Proof.
  intros [_ Hu] Hi. apply Hu. unfold zget. destruct (Z.ltb_spec i 0); [unfold in_group in *; lia |].
  destruct (lookup_lt_is_Some_2 g (Z.to_nat i)) as [a Ha]; [unfold in_group in *; lia |].
  rewrite Ha. simpl. by eapply list_elem_of_lookup_2.
Qed.

Lemma length_chosen cartesian indices : Forall uniform cartesian →
  Forall2 in_group cartesian indices → length (concat (chosen cartesian indices)) = width cartesian.
Proof.
  intros Hu H. revert Hu. induction H as [| g i cartesian indices Hi _ IH]; intros Hu; [done |].
  inversion Hu; subst. unfold chosen, width in *. simpl. rewrite length_app, IH by done.
  by rewrite length_zget_group.
Qed.

(** [_set_cur(from)] writes the groups of the indices when the part before
    [from] already holds them. *)
Lemma set_cur_spec cartesian indices from old : Forall uniform cartesian →
  Forall2 in_group cartesian indices → length old = width cartesian →
  take (length (concat (take from (chosen cartesian indices)))) old =
    concat (take from (chosen cartesian indices)) →
  set_cur cartesian indices from old = concat (chosen cartesian indices).
Proof.
  intros Hu Hi Hlen Hold. unfold set_cur. rewrite Hold.
  pose proof (length_chosen _ _ Hu Hi) as Hw.
  rewrite <- (take_drop from (chosen cartesian indices)), concat_app, length_app in Hw.
  rewrite (drop_ge old) by lia. rewrite app_nil_r, <- concat_app, take_drop.
  apply take_ge. rewrite <- (take_drop from (chosen cartesian indices)), concat_app, length_app. lia.
Qed.

Lemma take_advance rs ri : length rs = length ri →
  take (advance_from rs ri) (rev (advance_indices rs ri)) = take (advance_from rs ri) (rev ri).
Proof.
  assert (∀ rs ri, advance_from rs ri <= length ri)%nat as Hle.
  { clear. intros rs. induction rs as [| sz rs IH]; intros [| i ri]; simpl; try lia.
    case_match_goal; [specialize (IH ri); lia | lia]. }
  assert (∀ rs ri, length rs = length ri → length (advance_indices rs ri) = length ri) as Hl.
  { clear. intros rs. induction rs as [| sz rs IH]; intros [| i ri] [=]; simpl; [done |].
    case_match_goal; simpl; rewrite ?IH; done. }
  revert ri. induction rs as [| sz rs IH]; intros [| i ri] [=]; simpl; [done |].
  case_match_goal; simpl.
  - rewrite !take_app_le; [by apply IH | |]; rewrite length_rev, ?Hl; auto.
  - rewrite <- length_rev. by rewrite !take_app_length.
Qed.

(** The carry is the increment of the number the digits encode. *)
Lemma advance_reset rs k : Forall (λ sz, 0 < sz) rs →
  advance_indices rs (reset_indices rs k) = reset_indices rs (k + 1).
Proof.
  intros H. revert k. induction H as [| sz rs Hsz _ IH]; intros k; simpl; [done |].
  pose proof (Z.div_mod k sz ltac:(lia)). pose proof (Z.mod_pos_bound k sz ltac:(lia)).
  destruct (Z.eqb_spec (k mod sz + 1) sz).
  - replace (k + 1) with (0 + (k / sz + 1) * sz) by lia.
    rewrite Z.mod_add, Z.div_add, IH by lia. done.
  - replace (k + 1) with ((k mod sz + 1) + (k / sz) * sz) by lia.
    rewrite Z.mod_add, Z.div_add, (Z.mod_small (_ + 1)), (Z.div_small (_ + 1)) by lia. done.
Qed.

Lemma foldr_mul_pos rs : Forall (λ sz, 0 < sz) rs → 0 < foldr Z.mul 1 rs.
Proof. induction 1; simpl; nia. Qed.

Lemma reset_indices_app rs sz k : Forall (λ sz, 0 < sz) rs →
  reset_indices (rs ++ [sz]) k = reset_indices rs k ++ [(k / foldr Z.mul 1 rs) mod sz].
Proof.
  intros H. revert k. induction H as [| s rs Hs Hrs IH]; intros k; simpl; [by rewrite Z.div_1_r |].
  rewrite IH. do 3 f_equal. rewrite Z.div_div; [done | lia |].
  by apply foldr_mul_pos.
Qed.

Lemma length_reset_indices rs k : length (reset_indices rs k) = length rs.
Proof. revert k. induction rs as [| sz rs IH]; intros k; simpl; auto. Qed.

Lemma reset_indices_mod rs k c : Forall (λ sz, 0 < sz) rs →
  reset_indices rs (k + c * foldr Z.mul 1 rs) = reset_indices rs k.
Proof.
  intros H. revert k c. induction H as [| sz rs Hsz _ IH]; intros k c; simpl; [done |].
  replace (k + c * (sz * foldr Z.mul 1 rs)) with (k + (c * foldr Z.mul 1 rs) * sz) by lia.
  rewrite Z.mod_add, Z.div_add by lia. by rewrite IH.
Qed.

Definition digits (cartesian : list (list (list Lit))) (k : Z) : list Z :=
  rev (reset_indices (rev (group_sizes cartesian)) k).

Definition cart_at (cartesian : list (list (list Lit))) (k : Z) : list Lit :=
  concat (chosen cartesian (digits cartesian k)).

Section CartesianFacts.
Context (cartesian : list (list (list Lit))) (Hu : Forall uniform cartesian).

Lemma group_sizes_pos : Forall (λ sz, 0 < sz) (group_sizes cartesian).
Proof. apply Forall_fmap. eapply Forall_impl; [exact Hu |]. intros g [Hg _]. simpl. lia. Qed.

Lemma rev_sizes_pos : Forall (λ sz, 0 < sz) (rev (group_sizes cartesian)).
Proof. apply Forall_rev, group_sizes_pos. Qed.

Lemma size_pos : 0 < cart_size cartesian.
Proof. apply foldr_mul_pos, group_sizes_pos. Qed.

Lemma size_rev : foldr Z.mul 1 (rev (group_sizes cartesian)) = cart_size cartesian.
Proof.
  unfold cart_size. generalize (group_sizes cartesian). intros l.
  assert (∀ l x, foldr Z.mul 1 (l ++ [x]) = x * foldr Z.mul 1 l) as Happ.
  { clear. intros l x. induction l as [| y l IH]; simpl; [done |]. rewrite IH. lia. }
  induction l as [| x l IH]; simpl; [done |]. by rewrite Happ, IH.
Qed.

Lemma digits_cons g k : digits (g :: cartesian) k =
  (k / cart_size cartesian) mod Z.of_nat (length g) :: digits cartesian k.
Proof.
  unfold digits. change (group_sizes (g :: cartesian)) with (Z.of_nat (length g) :: group_sizes cartesian).
  cbn [rev]. rewrite reset_indices_app, rev_app_distr, size_rev by apply rev_sizes_pos. done.
Qed.

Lemma digits_small i j : 0 <= j < cart_size cartesian →
  digits cartesian (i * cart_size cartesian + j) = digits cartesian j.
Proof.
  intros Hj. unfold digits. rewrite Z.add_comm, <- size_rev, reset_indices_mod; [done |].
  apply rev_sizes_pos.
Qed.
End CartesianFacts.

Lemma digits_in_group cartesian k : Forall uniform cartesian →
  Forall2 in_group cartesian (digits cartesian k).
Proof.
  induction 1 as [| g cartesian Hg Hu IH]; [done |]. rewrite digits_cons by done.
  constructor; [| done]. apply Z.mod_pos_bound. destruct Hg. lia.
Qed.

Lemma seqZ_blocks (n : nat) m : 0 <= m →
  seqZ 0 (Z.of_nat n * m) = concat ((λ i, (λ j, i * m + j) <$> seqZ 0 m) <$> seqZ 0 (Z.of_nat n)).
Proof.
  intros Hm. induction n as [| n IH]; [done |].
  rewrite seqZ_S, fmap_app, concat_app, <- IH. simpl. rewrite app_nil_r, fmap_add_seqZ, Nat2Z.inj_succ.
  rewrite !Z.add_0_l, ?Z.add_0_r.
  rewrite Z.mul_succ_l, seqZ_app by lia. done.
Qed.

Lemma zget_seqZ (g : list (list Lit)) : zget [] g <$> seqZ 0 (Z.of_nat (length g)) = g.
Proof.
  apply list_eq. intros i. rewrite list_lookup_fmap. destruct (decide (i < length g)%nat) as [Hi | Hi].
  - rewrite lookup_seqZ_lt by lia. simpl. unfold zget. destruct (Z.ltb_spec (0 + Z.of_nat i) 0); [lia |].
    replace (Z.to_nat (0 + Z.of_nat i)) with i by lia. destruct (lookup_lt_is_Some_2 g i Hi) as [a ->]. done.
  - rewrite lookup_seqZ_ge by lia. simpl. symmetry. apply lookup_ge_None_2. lia.
Qed.

Lemma fmap_concat {A B} (f : A → B) (ls : list (list A)) : @fmap list _ _ _ f (concat ls) = concat (fmap (M := list) f <$> ls).
Proof. induction ls as [| l ls IH]; [done |]. simpl. by rewrite fmap_app, IH. Qed.

Lemma cart_at_product cartesian : Forall uniform cartesian →
  cart_at cartesian <$> seqZ 0 (cart_size cartesian) = product cartesian.
Proof.
  induction 1 as [| g cartesian Hg Hu IH]; [done |]. cbn [product].
  pose proof (size_pos cartesian Hu) as Hs.
  change (cart_size (g :: cartesian)) with (Z.of_nat (length g) * cart_size cartesian).
  rewrite seqZ_blocks by lia. rewrite fmap_concat, <- list_fmap_compose. rewrite <- IH.
  rewrite <- (zget_seqZ g) at 3. rewrite <- list_fmap_compose. f_equal.
  apply list_fmap_ext. intros p i Hi%lookup_seqZ. unfold compose.
  rewrite <- !list_fmap_compose. apply list_fmap_ext. intros q j Hj%lookup_seqZ. unfold compose, cart_at.
  rewrite digits_cons, digits_small by (done || lia). unfold chosen. simpl. f_equal.
  rewrite Z.div_add_l, (Z.div_small j), Z.add_0_r, Z.mod_small by lia. done.
Qed.

Definition cart_kin (cartesian : list (list (list Lit))) (s : Search) : Prop :=
  (∃ indices, s_kind s = KCartesian indices cartesian) ∧ length (s_assignment s) = width cartesian.

Definition cart_sits (cartesian : list (list (list Lit))) (k : Z) (s : Search) : Prop :=
  s_kind s = KCartesian (digits cartesian k) cartesian ∧ s_assignment s = cart_at cartesian k.

Lemma width_cons g cartesian :
  width (g :: cartesian) = (length (default [] (head g)) + width cartesian)%nat.
Proof. done. Qed.

Lemma cartesian_width_spec cartesian : Z.of_nat (width cartesian) < 2 ^ 32 →
  cartesian_width cartesian = Z.of_nat (width cartesian).
Proof.
  intros Hw. unfold cartesian_width.
  enough (∀ acc, 0 <= acc → acc + Z.of_nat (width cartesian) < 2 ^ 32 →
    foldl (λ size v, u32 (size + Z.of_nat (length (default [] (head v))))) acc cartesian =
    acc + Z.of_nat (width cartesian)) as H by (rewrite H; lia).
  clear Hw. induction cartesian as [| g cartesian IH]; intros acc H0 H1; [unfold width; simpl; lia |].
  rewrite width_cons in *. cbn [foldl].
  assert (∀ z, 0 <= z < 2 ^ 32 → u32 z = z) as Hs by (intros; by apply Z.mod_small).
  rewrite Hs by lia. rewrite IH; lia.
Qed.

Lemma cartesian_total_spec cartesian : Forall uniform cartesian → cart_size cartesian < 2 ^ 32 →
  cartesian_total cartesian = cart_size cartesian.
Proof.
  intros Hu Hw. unfold cartesian_total.
  enough (∀ acc, 0 < acc → acc * cart_size cartesian < 2 ^ 32 →
    foldl (λ size v, u32 (size * Z.of_nat (length v))) acc cartesian = acc * cart_size cartesian) as H
    by (rewrite H; lia).
  clear Hw. induction Hu as [| g cartesian [Hg _] Hu IH]; intros acc H0 H1.
  - unfold cart_size in *. simpl in *. lia.
  - pose proof (size_pos cartesian Hu).
    change (cart_size (g :: cartesian)) with (Z.of_nat (length g) * cart_size cartesian) in *. cbn [foldl].
    assert (∀ z, 0 <= z < 2 ^ 32 → u32 z = z) as Hs by (intros; by apply Z.mod_small).
    rewrite Hs by nia. rewrite IH; nia.
Qed.

Lemma cart_created cartesian : Forall uniform cartesian → Z.of_nat (width cartesian) < 2 ^ 32 →
  cart_kin cartesian (createCartesianSearch cartesian) ∧
  cart_sits cartesian 0 (createCartesianSearch cartesian).
Proof.
  intros Hu Hw. assert (replicate (length cartesian) 0 = digits cartesian 0) as H0.
  { induction Hu as [| g c [Hg _] Hu IH]; [done |]. rewrite digits_cons by done. simpl.
    assert (0 < cart_size c) by (by apply size_pos).
    rewrite IH by (rewrite width_cons in *; lia). done. }
  unfold createCartesianSearch. rewrite H0, set_cur_spec.
  - split; [split; [by eexists |] | done]. simpl.
    by apply length_chosen, digits_in_group.
  - done.
  - by apply digits_in_group.
  - rewrite length_replicate, cartesian_width_spec; [lia | done].
  - done.
Qed.

Lemma take_length_take_concat (gs : list (list Lit)) n :
  take (length (concat (take n gs))) (concat gs) = concat (take n gs).
Proof. rewrite <- (take_drop n gs) at 2. by rewrite concat_app, take_app_length. Qed.

Lemma cart_enumerable {R} (sample : R → Z → Z → Z * R) fuel cartesian :
  Forall uniform cartesian → Z.of_nat (width cartesian) < 2 ^ 32 →
  Enumerable sample fuel (cart_size cartesian) (cart_at cartesian) (cart_kin cartesian) (cart_sits cartesian).
Proof.
  intros Hu Hw.
  pose proof (rev_sizes_pos cartesian Hu) as Hpos.
  assert (∀ k, length (cart_at cartesian k) = width cartesian) as Hlen.
  { intros k. by apply length_chosen, digits_in_group. }
  split; unfold cart_sits.
  - tauto.
  - intros k s [Hk Ha]. split; [by eexists | by rewrite Ha].
  - intros k s s' -> ->. done.
  - intros k s r [Hk Ha] _ _. unfold search_advance. rewrite Hk. eexists. split; [done |].
    unfold cartesian_advance. rewrite Ha. cbn.
    assert (rev (advance_indices (rev (group_sizes cartesian)) (rev (digits cartesian k))) =
            digits cartesian (k + 1)) as Hd.
    { unfold digits. by rewrite rev_involutive, advance_reset. }
    rewrite Hd. split; [| done]. split; [done |].
    apply set_cur_spec; [done | by apply digits_in_group | done |].
    pose proof (take_advance (rev (group_sizes cartesian)) (rev (digits cartesian k))) as Ht.
    rewrite Hd, rev_involutive in Ht. unfold chosen. rewrite !zip_with_take, Ht.
    + rewrite <- zip_with_take. apply take_length_take_concat.
    + unfold digits. by rewrite !length_rev, length_reset_indices, length_rev.
  - intros s [[i Hk] _]. unfold clone. rewrite Hk. by apply cart_created.
  - intros s s' Ha Hk [[i Hi] Hl]. split; [exists i; congruence | congruence].
  - intros s r [[i Hk] Hl] _. unfold search_reset. rewrite Hk. eexists. split; [done |].
    unfold cartesian_reset. cbn. split; [| done]. split; [done |].
    apply set_cur_spec; [done | by apply (digits_in_group cartesian) | done | done].
Qed.

(** ** [UniqueSearch] *)

Section Unique.
Context {R : Type} (sample : R → Z → Z → Z * R).

Fixpoint draws (n : nat) (r : R) (lo hi : Z) : list Z :=
  match n with
  | O => []
  | S n => let '(x, r) := sample r lo hi in x :: draws n r lo hi
  end.

(** What [_advance_us] relies on: samples are in range, and [fuel] draws from
    a range of at most [bound] values see each of them. *)
Class FairSampler (fuel : nat) (bound : Z) := {
  fair_range n r lo hi : lo <= hi → Forall (λ x, lo <= x <= hi) (draws n r lo hi);
  fair_hits r lo hi x : lo <= x <= hi → hi - lo < bound → x ∈ draws fuel r lo hi }.

Lemma draw_new_spec fuel : ∀ r visited x lo hi y, lo <= hi →
  (∀ n r, Forall (λ x, lo <= x <= hi) (draws n r lo hi)) →
  y ∉ visited → y ∈ x :: draws fuel r lo hi →
  ∃ z r', draw_new sample fuel r visited x lo hi = Some (z, r') ∧ z ∉ visited ∧
    (z = x ∨ lo <= z <= hi).
Proof.
  induction fuel as [| fuel IH]; intros r visited x lo hi y Hlo Hrange Hy Hin; cbn [draw_new].
  - apply elem_of_cons in Hin as [-> | Hin]; [| by apply elem_of_nil in Hin].
    rewrite decide_False by done. eauto 6.
  - case_decide as Hx; [| by eauto 6]. apply elem_of_cons in Hin as [-> | Hin]; [done |].
    cbn [draws] in Hin. pose proof (Hrange 1%nat r) as Hr. cbn [draws] in Hr.
    destruct (sample r lo hi) as [x' r'] eqn:Es. apply Forall_cons_1 in Hr as [Hr _].
    destruct (IH r' visited x' lo hi y Hlo Hrange Hy Hin) as (z & r'' & Hz & Hn & Hor).
    exists z, r''. split; [done |]. split; [done |]. right. destruct Hor as [-> | ?]; [exact Hr | done].
Qed.

Context (fuel : nat) (total : Z) (vars : list Z).
Context `{!FairSampler fuel total}.

(** A fresh number exists while fewer than [total] were used. *)
Lemma unused (V : gset Z) : (∀ x, x ∈ V → 0 <= x < total) → Z.of_nat (size V) < total →
  ∃ y, y ∉ V ∧ 0 <= y < total.
Proof.
  intros HV Hs.
  destruct (decide (Exists (λ y, y ∉ V) (seqZ 0 total))) as [He | Hn].
  - apply Exists_exists in He as (y & Hy & Hn). apply elem_of_seqZ in Hy. eauto with lia.
  - exfalso. apply not_Exists_Forall in Hn; [| apply _].
    assert (list_to_set (seqZ 0 total) ⊆ V) as Hsub.
    { intros y Hy%elem_of_list_to_set. rewrite Forall_forall in Hn. specialize (Hn y Hy).
      by destruct (decide (y ∈ V)). }
    apply subseteq_size in Hsub. rewrite size_list_to_set in Hsub by apply NoDup_seqZ.
    rewrite length_seqZ in Hsub. lia.
Qed.

Lemma unique_visit (len : nat) : ∀ rounds V x s r, s_kind s = KUnique V → x ∈ V → 0 ∈ V →
  s_assignment s = set_assignment (map_to_mini_vars vars) x → s_first s = 0 →
  s_last s = total - 1 → s_total s = total → total < 2 ^ 64 →
  (∀ x, x ∈ V → 0 <= x < total) → s_done s + 1 = Z.of_nat (size V) → 0 <= s_done s →
  s_done s + Z.of_nat (S len) = total → (S len <= rounds)%nat →
  ∃ xs r', visit sample fuel rounds r s =
    Some (set_assignment (map_to_mini_vars vars) <$> x :: xs, r') ∧
    length xs = len ∧ NoDup xs ∧ ∀ y, y ∈ xs → y ∉ V ∧ 0 <= y < total.
Proof.
  induction len as [| len IH]; intros rounds V x s r Hk Hx H0 Ha Hf Hl Ht Hb HV Hd Hd0 Hlen Hr;
    (destruct rounds as [| rounds]; [lia |]); cbn [visit]; unfold search_next; rewrite Ht;
    (assert (u64 (total - 1) = total - 1) as -> by (apply Z.mod_small; lia));
    (destruct (Z.eqb_spec total 0); [lia |]); rewrite orb_false_r;
    destruct (Z.eqb_spec (s_done s) (total - 1)) as [He | He]; try lia; simpl.
  - exists [], r. rewrite Ha. split; [done |]. split; [done |]. split; [constructor |].
    intros y Hy. by apply elem_of_nil in Hy.
  - destruct (unused V HV) as (y & Hy & Hyr); [lia |].
    unfold search_advance. rewrite Hk. unfold unique_advance. rewrite Hf, Hl.
    assert (y <> 0) by (intros ->; done).
    change (u64 (0 + 1)) with 1.
    destruct (draw_new_spec fuel r V 0 1 (total - 1) y) as (z & r' & -> & Hz & Hor); [lia | | done | |].
    { intros k r'. apply fair_range. lia. }
    { right. apply fair_hits; lia. }
    assert (0 <= z < total) as Hzr by (destruct Hor; [by subst | lia]). cbn [mbind option_bind].
    match goal with |- context [visit _ _ _ _ ?s'] => set (s1 := s') end.
    destruct (IH rounds ({[z]} ∪ V) z s1 r') as (xs & r'' & -> & Hxs & Hnd & Hin); simpl; try done; try lia.
    + set_solver.
    + set_solver.
    + rewrite Ha. apply set_assignment_vars. by rewrite var_set_assignment.
    + set_solver.
    + rewrite size_union, size_singleton by set_solver. unfold u64. rewrite Z.mod_small; lia.
    + unfold u64. rewrite Z.mod_small; lia.
    + unfold u64. rewrite Z.mod_small; lia.
    + exists (z :: xs), r''. rewrite Ha. split; [done |]. split; [simpl; lia |].
      split; [constructor; [| done]; intros Hzx; apply Hin in Hzx; set_solver |].
      intros w [-> | Hw]%elem_of_cons; [done |]. apply Hin in Hw. set_solver.
Qed.
End Unique.

(** ** The properties *)

(** Splitting loses and repeats nothing: the parts that [split_search]
    makes, each visited to its end, concatenate to the whole sequence of the
    search, whichever deterministic search it is. *)
Theorem split_search_partition {R} (sample : R → Z → Z → Z * R) fuel n at_ kin sits s r num rounds
    `{!Enumerable sample fuel n at_ kin sits} :
  kin s → s_total s = n → 0 < n < 2 ^ 64 → 0 < num <= n → (Z.to_nat n <= rounds)%nat →
  ∃ parts, Forall2 (λ i part, ∃ s',
      split_search sample fuel r s num i = Some (s', r) ∧
      visit sample fuel rounds r s' = Some (part, r)) (seqZ 0 num) parts ∧
    concat parts = at_ <$> seqZ 0 n.
Proof.
  intros Hk Ht Hn Hnum Hr.
  exists ((λ i, at_ <$> seqZ (part_start n num i) (part_todo n num i)) <$> seqZ 0 num). split.
  - apply Forall2_fmap_r, Forall_Forall2_diag, Forall_forall. intros i Hi%elem_of_seqZ.
    destruct (split_spec sample fuel n at_ kin sits s r num i) as (s' & Hs & Hv); try done.
    exists s'. split; [done | by apply Hv].
  - trans (concat (fmap (M := list) at_ <$>
             ((λ i, seqZ (part_start n num i) (part_todo n num i)) <$> seqZ 0 num))).
    { by rewrite <- list_fmap_compose. }
    rewrite <- fmap_concat. f_equal.
    pose proof (seqZ_parts n num (Z.to_nat num)) as Hp. rewrite Z2Nat.id in Hp by lia.
    rewrite decide_False in Hp by lia. apply Hp; lia.
Qed.

(** A [FullSearch] over at most 63 variables visits every assignment of
    the variables exactly once. *)
Theorem full_search_visits {R} (sample : R → Z → Z → Z * R) fuel rounds r vars :
  (length vars <= 63)%nat → 2 ^ Z.of_nat (length vars) <= Z.of_nat rounds →
  ∃ visited, visit sample fuel rounds r (createFullSearch vars) = Some (visited, r) ∧
    visited ≡ₚ leaves vars.
Proof.
  intros Hl Hr. set (n := 2 ^ Z.of_nat (length vars)) in *.
  assert (0 < n < 2 ^ 64) as Hn.
  { unfold n. split; [apply Z.pow_pos_nonneg; lia | apply Z.pow_lt_mono_r; lia]. }
  assert (s_total (createFullSearch vars) = n) as Ht.
  { simpl. rewrite Z.shiftl_1_l. by apply Z.mod_small; lia. }
  exists (full_at vars <$> seqZ 0 n). split; [| apply full_at_leaves].
  rewrite <- (Z2Nat.id n) by lia.
  apply (visit_spec sample fuel n _ (full_kin vars) (full_sits vars)); rewrite ?Ht; simpl; try lia.
  apply full_start.
Qed.

(** C33. A [CartesianSearch] over non-empty lists of equally long groups visits
    the Cartesian product of the lists, in lexicographic order, as long as
    the number of combinations fits the 32 bits it is computed in. *)
Theorem cartesian_search_visits {R} (sample : R → Z → Z → Z * R) fuel rounds r cartesian :
  Forall uniform cartesian → Z.of_nat (width cartesian) < 2 ^ 32 → cart_size cartesian < 2 ^ 32 →
  cart_size cartesian <= Z.of_nat rounds →
  visit sample fuel rounds r (createCartesianSearch cartesian) = Some (product cartesian, r).
Proof.
  intros Hu Hw Hs Hr. rewrite <- cart_at_product by done. pose proof (size_pos cartesian Hu).
  assert (s_total (createCartesianSearch cartesian) = cart_size cartesian) as Ht
    by (by apply cartesian_total_spec).
  rewrite <- (Z2Nat.id (cart_size cartesian)) by lia.
  pose proof (cart_enumerable sample fuel cartesian Hu Hw).
  apply (visit_spec sample fuel (cart_size cartesian) _ (cart_kin cartesian) (cart_sits cartesian));
    rewrite ?Ht; simpl; try lia. by apply cart_created.
Qed.

(** A [UniqueSearch] of [total] samples, with a generator that reaches
    every value, terminates and uses every number below [total] exactly once. *)
Theorem unique_search_visits {R} (sample : R → Z → Z → Z * R) fuel total vars r
    `{!FairSampler sample fuel total} :
  0 < total < 2 ^ 64 →
  ∃ s r1 xs r2, createUniqueSearch sample fuel r vars total = Some (s, r1) ∧
    visit sample fuel (Z.to_nat total) r1 s = Some (set_assignment (map_to_mini_vars vars) <$> xs, r2) ∧
    xs ≡ₚ seqZ 0 total.
Proof.
  intros Ht. unfold createUniqueSearch, unique_advance.
  assert (draw_new sample fuel r ∅ 0 1 (u64 (total - 1)) = Some (0, r)) as Hd.
  { destruct fuel; cbn [draw_new]; by rewrite decide_False by set_solver. }
  cbn [s_first s_last base_search]. change (u64 (0 + 1)) with 1. rewrite Hd. cbn [mbind option_bind].
  match goal with |- context [Some (?s', r) = _] => set (s := s') end.
  destruct (unique_visit sample fuel total vars (Z.to_nat total - 1) (Z.to_nat total) ({[0]} ∪ ∅) 0 s r)
    as (xs & r2 & Hv & Hlen & Hnd & Hin); simpl; try done; try lia; try set_solver.
  - unfold u64. apply Z.mod_small. lia.
  - exists s, r, (0 :: xs), r2. split; [done |]. split; [done |].
    apply submseteq_length_Permutation; [| rewrite length_seqZ; simpl; lia].
    apply NoDup_submseteq.
    + constructor; [| done]. intros H0%Hin. set_solver.
    + intros x [-> | Hx]%elem_of_cons; apply elem_of_seqZ; [lia | apply Hin in Hx; lia].
Qed.

(** ** Witnesses *)

(** A generator that counts: [lo + r mod (hi - lo + 1)]. *)
Definition counter_sample (r lo hi : Z) : Z * Z := (lo + r mod (hi - lo + 1), r + 1).

Lemma counter_draws n r lo hi k : (k < n)%nat →
  lo + (r + Z.of_nat k) mod (hi - lo + 1) ∈ draws counter_sample n r lo hi.
Proof.
  revert r k. induction n as [| n IH]; intros r k Hk; [lia |]. cbn [draws counter_sample].
  destruct k as [| k]; [rewrite Z.add_0_r; by left | right].
  replace (r + Z.of_nat (S k)) with (r + 1 + Z.of_nat k) by lia. apply IH. lia.
Qed.

#[export] Instance counter_fair : FairSampler counter_sample 8 8.
Proof.
  split.
  - intros n r lo hi H. revert r. induction n as [| n IH]; intros r; simpl; constructor; [| apply IH].
    pose proof (Z.mod_pos_bound r (hi - lo + 1)). lia.
  - intros r lo hi x Hx Hb.
    pose proof (Z.mod_pos_bound (x - lo - r) (hi - lo + 1) ltac:(lia)) as Hm.
    pose proof (counter_draws 8 r lo hi (Z.to_nat ((x - lo - r) mod (hi - lo + 1)))
      ltac:(lia)) as Hd.
    rewrite Z2Nat.id, Zplus_mod_idemp_r, Z.mod_small in Hd by lia.
    replace (lo + (r + (x - lo - r))) with x in Hd by lia. exact Hd.
Qed.

Lemma split_search_partition_witness : ∃ parts, Forall2 (λ i part, ∃ s',
    split_search counter_sample 0 0 (createFullSearch [4; 7]) 3 i = Some (s', 0) ∧
    visit counter_sample 0 4 0 s' = Some (part, 0)) (seqZ 0 3) parts ∧
  concat parts = full_at [4; 7] <$> seqZ 0 4.
Proof.
  pose proof (full_enumerable counter_sample 0 [4; 7] :
    Enumerable counter_sample 0 4 (full_at [4; 7]) (full_kin [4; 7]) (full_sits [4; 7])).
  apply (split_search_partition counter_sample 0 4 (full_at [4; 7]) (full_kin [4; 7]) (full_sits [4; 7])
    (createFullSearch [4; 7]) 0 3 4); [done | done | done | done | simpl; lia].
Defined.

Lemma full_search_visits_witness : ∃ visited,
  visit counter_sample 0 8 0 (createFullSearch [1; 5; 2]) = Some (visited, 0) ∧ visited ≡ₚ leaves [1; 5; 2].
Proof. apply (full_search_visits counter_sample 0 8 0 [1; 5; 2]); simpl; lia. Defined.

Lemma cartesian_search_visits_witness :
  visit counter_sample 0 6 0 (createCartesianSearch
    [[[mkLit 0 true; mkLit 1 true]; [mkLit 0 false; mkLit 1 true]; [mkLit 0 false; mkLit 1 false]];
     [[mkLit 2 true]; [mkLit 2 false]]]) =
  Some (product
    [[[mkLit 0 true; mkLit 1 true]; [mkLit 0 false; mkLit 1 true]; [mkLit 0 false; mkLit 1 false]];
     [[mkLit 2 true]; [mkLit 2 false]]], 0).
Proof.
  apply cartesian_search_visits; [| done | done | done].
  repeat constructor; try (simpl; lia); intros a Ha; repeat (apply elem_of_cons in Ha as [-> | Ha]; [done |]);
    by apply elem_of_nil in Ha.
Defined.

Lemma unique_search_visits_witness : ∃ s r1 xs r2,
  createUniqueSearch counter_sample 8 5 [3; 4; 6] 8 = Some (s, r1) ∧
  visit counter_sample 8 (Z.to_nat 8) r1 s = Some (set_assignment (map_to_mini_vars [3; 4; 6]) <$> xs, r2) ∧
  xs ≡ₚ seqZ 0 8.
Proof. apply (unique_search_visits counter_sample 8 8 [3; 4; 6] 5). lia. Defined.
