(* ===== verification/Pool.v ===== *)
(** * The worker pool

    [util/WorkerPool.h]: threads that take tasks from a queue guarded by a
    mutex and a condition variable, and futures for the results.  A state is a
    snapshot between two atomic actions: what a thread does while it holds the
    mutex is one action, except that a thread whose predicate was false holds
    the mutex ([Pred]) until the wait puts it to [Sleep].  A task runs in
    steps, so tasks of different threads interleave; [log] records what the
    tasks tell their callbacks, in the order it happens. *)
From S2P Require Import Prelude.
From stdpp Require Import relations.

Section Pool.
Context {W T V E : Type}.

(** One step of a task on a worker, seeing the log: the task goes on ([inl])
    or returns its value ([inr]). *)
Context (task_step : list (nat * E) → W → T → W * (T + V) * list E).

(** ** State *)

Inductive phase :=
  | Loop
  | Lock
  | Pred
  | Sleep
  | Run (id : nat) (t : T)
  | Exit.

(** The thread that uses the pool: it submits its tasks one by one, waits for
    all futures and returns; much later it destroys the pool. *)
Inductive client_phase :=
  | CSubmit (todo : list T)
  | CNotify (todo : list T)
  | CReturned
  | CStopping
  | CJoining
  | CDestroyed.

Record Pool := MkPool {
  threads : list phase;
  workers : list W;
  task_queue : list (nat * T);
  stop : bool;
  futures : list (option V);
  log : list (nat * E);
  client : client_phase }.

#[export] Instance Pool_settable : Settable Pool := λ p,
  MkPool (threads p) (workers p) (task_queue p) (stop p) (futures p) (log p) (client p).

(** The pool after its constructor, with [ws] idle and [todo] to submit. *)
Definition new_pool (ws : list W) (todo : list T) : Pool :=
  MkPool (replicate (length ws) Loop) ws [] false [] [] (CSubmit todo).

Definition at_phase (p : Pool) (i : nat) (ph : phase) : Prop := threads p !! i = Some ph.

Definition move (p : Pool) (i : nat) (ph : phase) : Pool := p <| threads := <[i := ph]> (threads p) |>.

Definition mutex_free (p : Pool) : Prop := ∀ i, ¬ at_phase p i Pred.

Definition wake (ph : phase) : phase := match ph with Sleep => Lock | _ => ph end.

(** ** Actions *)

Inductive step (p : Pool) : Pool → Prop :=
  (* while (!_stop) *)
  | step_loop i : at_phase p i Loop → step p (move p i (if stop p then Exit else Lock))
  (* lock; the predicate of the wait *)
  | step_lock_stop i : at_phase p i Lock → mutex_free p → stop p = true → step p (move p i Exit)
  | step_lock_pop i id t rest : at_phase p i Lock → mutex_free p → stop p = false →
      task_queue p = (id, t) :: rest →
      step p ((move p i (Run id t)) <| task_queue := rest |>)
  | step_lock_wait i : at_phase p i Lock → mutex_free p → stop p = false → task_queue p = [] →
      step p (move p i Pred)
  | step_block i : at_phase p i Pred → step p (move p i Sleep)
  (* task(worker) *)
  | step_task i id t w w' t' es : at_phase p i (Run id t) → workers p !! i = Some w →
      task_step (log p) w t = (w', inl t', es) →
      step p ((move p i (Run id t')) <| workers := <[i := w']> (workers p) |>
                <| log := log p ++ ((λ e, (id, e)) <$> es) |>)
  | step_finish i id t w w' v es : at_phase p i (Run id t) → workers p !! i = Some w →
      task_step (log p) w t = (w', inr v, es) →
      step p ((move p i Loop) <| workers := <[i := w']> (workers p) |>
                <| log := log p ++ ((λ e, (id, e)) <$> es) |>
                <| futures := <[id := Some v]> (futures p) |>)
  (* submit: push under the lock, then notify_one *)
  | step_submit t todo : client p = CSubmit (t :: todo) → mutex_free p →
      step p (p <| task_queue := task_queue p ++ [(length (futures p), t)] |>
                <| futures := futures p ++ [None] |> <| client := CNotify todo |>)
  | step_notify i todo : client p = CNotify todo → at_phase p i Sleep →
      step p ((move p i Lock) <| client := CSubmit todo |>)
  | step_notify_none todo : client p = CNotify todo → (∀ i, ¬ at_phase p i Sleep) →
      step p (p <| client := CSubmit todo |>)
  (* all futures are ready *)
  | step_return : client p = CSubmit [] → Forall is_Some (futures p) →
      step p (p <| client := CReturned |>).

(** The destructor: [_stop] is set without the mutex, then [notify_all] and
    [join]. *)
Inductive destroy_step (p : Pool) : Pool → Prop :=
  | destroy_stop : client p = CReturned →
      destroy_step p (p <| stop := true |> <| client := CStopping |>)
  | destroy_notify : client p = CStopping →
      destroy_step p (p <| threads := wake <$> threads p |> <| client := CJoining |>)
  | destroy_join : client p = CJoining → Forall (λ ph, ph = Exit) (threads p) →
      destroy_step p (p <| client := CDestroyed |>).

(** A condition variable may also wake up on its own. *)
Inductive spurious_step (p : Pool) : Pool → Prop :=
  | step_spurious i : at_phase p i Sleep → spurious_step p (move p i Lock).

Definition run_step (p p' : Pool) : Prop := step p p' ∨ spurious_step p p'.
End Pool.

Arguments phase : clear implicits.
Arguments client_phase : clear implicits.
Arguments Pool : clear implicits.
