(* ===== verification/PoolSpec.v ===== *)
(** * The worker pool runs every task

    For tasks that step from good workers to good workers: every future
    receives the value of its task, whatever the interleaving; no wake-up is
    lost while tasks are submitted; all executions are finite.  The
    destructor, in contrast, can lose the wake-up. *)
From S2P Require Import Prelude Pool.
From stdpp Require Import relations.

(** The events of one task, in the order in which they happened. *)
Definition own {E} (l : list (nat * E)) (id : nat) : list E := snd <$> filter (λ e, e.1 = id) l.

Definition tag {E} (id : nat) (es : list E) : list (nat * E) := (λ e, (id, e)) <$> es.

Lemma own_app {E} (l l' : list (nat * E)) id : own (l ++ l') id = own l id ++ own l' id.
Proof. unfold own. by rewrite filter_app, fmap_app. Qed.

Lemma own_tag {E} (es : list E) id id' : own (tag id es) id' = if decide (id = id') then es else [].
Proof.
  unfold own, tag. induction es as [| e es IH]; simpl; [by destruct (decide _) |].
  rewrite filter_cons. simpl. destruct (decide (id = id')); simpl; [by f_equal | done].
Qed.

Section PoolSpec.
Context {W T V E : Type}.
Context (task_step : list (nat * E) → W → T → W * (T + V) * list E).
Context (good : W → Prop) (tinv : nat → T → list E → Prop) (post : nat → V → list E → Prop).
Context (tsteps : T → nat).

(** What the pool asks of its tasks. *)
Class LawfulTasks := task_ok l id w t es : good w → tinv id t es →
  let '(w', r, es') := task_step l w t in
  good w' ∧ match r with
            | inl t' => tinv id t' (es ++ es') ∧ (tsteps t' < tsteps t)%nat
            | inr v => post id v (es ++ es')
            end.

Context {lawful : LawfulTasks}.

#[local] Abbreviation step := (step task_step).
#[local] Abbreviation Pool := (Pool W T V E).
#[local] Abbreviation phase := (phase T).

(** ** The tasks that are queued or running *)

Record TaskInv (pending : list (nat * T)) (F : list (option V)) (L : list (nat * E)) (todo : list T) :
    Prop := {
  ti_pending id t : (id, t) ∈ pending → tinv id t (own L id) ∧ F !! id = Some None;
  ti_nodup : NoDup pending.*1;
  ti_open id : F !! id = Some None → id ∈ pending.*1;
  ti_done id v : F !! id = Some (Some v) → post id v (own L id);
  ti_fresh id : (length F <= id)%nat → own L id = [];
  ti_todo k t : todo !! k = Some t → tinv (length F + k) t [] }.

#[export] Instance TaskInv_proper : Proper (Permutation ==> eq ==> eq ==> eq ==> iff) TaskInv.
Proof.
  assert (∀ P Q F L todo, P ≡ₚ Q → TaskInv P F L todo → TaskInv Q F L todo) as Hperm.
  { intros P Q F L todo HP []. split; try done.
    - intros id t. rewrite <- HP. auto.
    - by rewrite <- HP.
    - intros id. rewrite <- HP. auto. }
  intros P Q HP F ? <- L ? <- todo ? <-. split; apply Hperm; [done | by symmetry].
Qed.

Lemma tasks_submit P F L t todo : TaskInv P F L (t :: todo) →
  TaskInv ((length F, t) :: P) (F ++ [None]) L todo.
Proof.
  intros []. split.
  - intros id t' [[= -> ->] | Hin]%elem_of_cons.
    + rewrite lookup_app_r, Nat.sub_diag, ti_fresh0 by lia. split; [| done].
      replace (length F) with (length F + 0)%nat by lia. by apply ti_todo0.
    + destruct (ti_pending0 id t' Hin) as [H1 H2]. split; [done |].
      rewrite lookup_app_l; [done | by eapply lookup_lt_Some].
  - csimpl. constructor; [| done]. intros ([id t'] & Heq & Hin)%list_elem_of_fmap. simpl in Heq. subst.
    destruct (ti_pending0 _ _ Hin) as [_ Hl%lookup_lt_Some]. lia.
  - intros id. csimpl. destruct (decide (id < length F)%nat).
    + rewrite lookup_app_l by done. intros ?%ti_open0. by right.
    + rewrite lookup_app_r by lia. intros [Hz _]%list_lookup_singleton_Some.
      assert (id = length F) as -> by lia. by left.
  - intros id v. destruct (decide (id < length F)%nat).
    + rewrite lookup_app_l by done. apply ti_done0.
    + rewrite lookup_app_r by lia. intros [_ [=]]%list_lookup_singleton_Some.
  - intros id. rewrite length_app. simpl. intros ?. apply ti_fresh0. lia.
  - intros k t' Hk. rewrite length_app. simpl.
    replace (length F + 1 + k)%nat with (length F + S k)%nat by lia. by apply ti_todo0.
Qed.

Lemma own_other (L : list (nat * E)) id es id' : id ≠ id' → own (L ++ tag id es) id' = own L id'.
Proof. intros H. rewrite own_app, own_tag, decide_False, app_nil_r; done. Qed.

Lemma own_same (L : list (nat * E)) id (es : list E) : own (L ++ tag id es) id = own L id ++ es.
Proof. by rewrite own_app, own_tag, decide_True. Qed.

(** The pending tasks other than the one that runs keep their events. *)
Lemma tasks_other P F L todo id t id' t' es : TaskInv ((id, t) :: P) F L todo → (id', t') ∈ P →
  id ≠ id' ∧ tinv id' t' (own (L ++ tag id es) id') ∧ F !! id' = Some None.
Proof.
  intros [] Hin. destruct (ti_pending0 id' t') as [H1 H2]; [by right |].
  assert (id ≠ id') as Hne.
  { intros ->. csimpl in *. apply NoDup_cons in ti_nodup0 as [Hn _]. apply Hn.
    apply list_elem_of_fmap. by exists (id', t'). }
  by rewrite own_other.
Qed.

Lemma tasks_step P F L todo id t t' es : TaskInv ((id, t) :: P) F L todo →
  tinv id t' (own L id ++ es) → TaskInv ((id, t') :: P) F (L ++ tag id es) todo.
Proof.
  intros I Ht. pose proof (tasks_other P F L todo id t) as Ho. destruct I as [I1 I2 I3 I4 I5 I6].
  destruct (I1 id t) as [_ HF]; [by left |]. split; try done.
  - intros id' u [[= -> ->] | Hin]%elem_of_cons; [by rewrite own_same |].
    by apply (Ho id' u es); [split |].
  - intros id' v Hv. rewrite own_other; [by apply I4 | intros <-; congruence].
  - intros id' Hl. rewrite own_other; [by apply I5 |]. intros <-. apply lookup_lt_Some in HF. lia.
Qed.

Lemma tasks_finish P F L todo id t v es : TaskInv ((id, t) :: P) F L todo →
  post id v (own L id ++ es) → TaskInv P (<[id := Some v]> F) (L ++ tag id es) todo.
Proof.
  intros I Hv. pose proof (tasks_other P F L todo id t) as Ho. destruct I as [I1 I2 I3 I4 I5 I6].
  destruct (I1 id t) as [_ HF]; [by left |]. pose proof (lookup_lt_Some _ _ _ HF) as Hlt.
  csimpl in *. apply NoDup_cons in I2 as [Hn Hnd]. split; rewrite ?length_insert; try done.
  - intros id' u Hin. destruct (Ho id' u es) as (Hne & H1 & H2); [split; try done; by constructor | done |].
    by rewrite list_lookup_insert_ne.
  - intros id' Hid. destruct (decide (id = id')) as [<- | Hne].
    + by rewrite list_lookup_insert_eq in Hid.
    + rewrite list_lookup_insert_ne in Hid by done. apply I3 in Hid. by apply elem_of_cons in Hid as [-> | ?].
  - intros id' u. destruct (decide (id = id')) as [<- | Hne].
    + rewrite list_lookup_insert_eq by done. intros [= <-]. by rewrite own_same.
    + rewrite list_lookup_insert_ne by done. rewrite own_other by done. apply I4.
  - intros id' Hl. rewrite own_other; [by apply I5 | intros <-; lia].
Qed.

(** ** The tasks a thread holds *)

Definition running (ph : phase) : list (nat * T) := match ph with Run id t => [(id, t)] | _ => [] end.

Definition pending (p : Pool) : list (nat * T) := task_queue p ++ (threads p ≫= running).

(** Moving thread [i] from [old] to [new]. *)
Lemma running_move (ths : list phase) i old new : ths !! i = Some old →
  ∃ rest, ths ≫= running ≡ₚ running old ++ rest ∧
          <[i := new]> ths ≫= running ≡ₚ running new ++ rest.
Proof.
  intros Hi. exists ((take i ths ≫= running) ++ (drop (S i) ths ≫= running)).
  rewrite insert_take_drop by (by eapply lookup_lt_Some).
  assert (∀ ph, (take i ths ++ ph :: drop (S i) ths) ≫= running ≡ₚ
    running ph ++ (take i ths ≫= running) ++ (drop (S i) ths ≫= running)) as Hm.
  { intros ph. rewrite bind_app. csimpl. rewrite !(assoc_L (++)). f_equiv. apply Permutation_app_comm. }
  rewrite Hm, <- Hm, take_drop_middle; done.
Qed.

Lemma pending_move p i old new : at_phase p i old →
  ∃ rest, pending p ≡ₚ running old ++ rest ∧ pending (move p i new) ≡ₚ running new ++ rest.
Proof.
  intros Hi. destruct (running_move (threads p) i old new Hi) as (rest & H1 & H2).
  exists (task_queue p ++ rest). unfold pending. simpl. rewrite H1, H2.
  split; by rewrite !(assoc_L (++)), (Permutation_app_comm (task_queue p)).
Qed.

Definition todo_of (c : client_phase T) : list T :=
  match c with CSubmit todo | CNotify todo => todo | _ => [] end.

Definition awake (p : Pool) : Prop := ∃ i ph, at_phase p i ph ∧ ph ≠ Sleep.

Definition in_use (c : client_phase T) : Prop :=
  match c with CSubmit _ | CNotify _ | CReturned => True | _ => False end.

Definition notifying (c : client_phase T) : Prop := match c with CNotify _ => True | _ => False end.

Record PoolInv (N : nat) (p : Pool) : Prop := {
  pi_workers : length (workers p) = length (threads p) ∧ Forall good (workers p);
  pi_some : threads p ≠ [];
  pi_open : stop p = false ∧ ∀ i, ¬ at_phase p i Exit;
  pi_tasks : TaskInv (pending p) (futures p) (log p) (todo_of (client p));
  pi_count : (length (futures p) + length (todo_of (client p)))%nat = N;
  pi_client : in_use (client p);
  pi_ready : client p = CReturned → Forall is_Some (futures p);
  pi_awake : task_queue p ≠ [] → mutex_free p ∧ (notifying (client p) ∨ awake p) }.

(** The remaining work. *)
Definition phase_work (ph : phase) : nat :=
  match ph with
  | Loop => 4 | Lock => 3 | Pred => 2 | Sleep => 1 | Exit => 0
  | Run _ t => 5 + tsteps t
  end.

Definition queue_work (q : list (nat * T)) : nat := sum_list ((λ x, 10 + tsteps x.2)%nat <$> q).

Lemma queue_work_cons x q : queue_work (x :: q) = (10 + tsteps x.2 + queue_work q)%nat.
Proof. done. Qed.

Lemma queue_work_app q q' : queue_work (q ++ q') = (queue_work q + queue_work q')%nat.
Proof. induction q as [| x q IH]; [done |]. cbn [app]. rewrite !queue_work_cons. lia. Qed.

#[local] Arguments queue_work : simpl never.

Definition todo_work (todo : list T) : nat := sum_list ((λ t, 20 + tsteps t)%nat <$> todo).

Lemma todo_work_cons t todo : todo_work (t :: todo) = (20 + tsteps t + todo_work todo)%nat.
Proof. done. Qed.

#[local] Arguments todo_work : simpl never.

Definition client_work (c : client_phase T) : nat :=
  match c with
  | CSubmit todo => 1 + todo_work todo
  | CNotify todo => 5 + todo_work todo
  | _ => 0
  end%nat.

Definition work (p : Pool) : nat :=
  sum_list (phase_work <$> threads p) + queue_work (task_queue p) +
  client_work (client p).

Lemma work_move (ths : list phase) i old new : ths !! i = Some old →
  (sum_list (phase_work <$> <[i := new]> ths) + phase_work old =
   sum_list (phase_work <$> ths) + phase_work new)%nat.
Proof.
  revert i. induction ths as [| ph ths IH]; intros [| i] Hi; simplify_eq/=; [lia |].
  specialize (IH i Hi). lia.
Qed.

Lemma at_move (p : Pool) i j old new ph : at_phase p i old → at_phase (move p i new) j ph ↔
  (i = j ∧ ph = new ∨ i ≠ j ∧ at_phase p j ph).
Proof.
  unfold at_phase. intros Hi. simpl. destruct (decide (i = j)) as [<- | Hne].
  - rewrite list_lookup_insert_eq by (by eapply lookup_lt_Some). naive_solver.
  - rewrite list_lookup_insert_ne by done. naive_solver.
Qed.

Lemma move_nonempty (p : Pool) i ph : threads p ≠ [] → threads (move p i ph) ≠ [].
Proof. simpl. intros H E'%(f_equal length). rewrite length_insert in E'. by destruct (threads p). Qed.

(** A thread that holds no task goes to a phase that holds no task. *)
Lemma inv_idle N p i old new : PoolInv N p → at_phase p i old → running old = [] → running new = [] →
  new ≠ Exit → (new = Pred → task_queue p = []) → (task_queue p ≠ [] → new ≠ Sleep) →
  PoolInv N (move p i new).
Proof.
  intros [P1 P2 [P3 P4] P5 P6 P7 P8 P9] Hi Ho Hn He Hp Hs.
  split; try done; simpl.
  - by rewrite length_insert.
  - by apply move_nonempty.
  - split; [done |]. intros j [(_ & H) | (_ & H)]%(at_move _ _ _ _ _ _ Hi); [by subst | by apply (P4 j)].
  - destruct (pending_move p i old new Hi) as (rest & H1 & H2). rewrite H2, Hn, <- Ho, <- H1. done.
  - intros Hq. destruct (P9 Hq) as [H1 H2]. split.
    + intros j [(_ & H) | (_ & H)]%(at_move _ _ _ _ _ _ Hi); [subst | by apply (H1 j)].
      by apply Hq, Hp.
    + destruct H2 as [H2 | H2]; [by left | right]. exists i, new. split; [| by apply Hs].
      apply (at_move _ _ _ _ _ _ Hi). by left.
Qed.

Lemma inv_pop N p i id t rest : PoolInv N p → at_phase p i Lock → task_queue p = (id, t) :: rest →
  PoolInv N ((move p i (Run id t)) <| task_queue := rest |>).
Proof.
  intros [P1 P2 [P3 P4] P5 P6 P7 P8 P9] Hi Eq.
  split; try done; simpl.
  - by rewrite length_insert.
  - by apply move_nonempty.
  - split; [done |]. intros j [(_ & [=]) | (_ & H)]%(at_move _ _ _ _ _ _ Hi); by apply (P4 j).
  - destruct (running_move (threads p) i Lock (Run id t) Hi) as (r & H1 & H2).
    assert (pending ((move p i (Run id t)) <| task_queue := rest |>) ≡ₚ pending p) as ->; [| done].
    unfold pending. rewrite Eq. simpl. rewrite H1, H2. simpl. by rewrite Permutation_middle.
  - intros Hq. destruct P9 as [H1 _]; [by rewrite Eq |]. split.
    + intros j [(_ & [=]) | (_ & H)]%(at_move _ _ _ _ _ _ Hi). by apply (H1 j).
    + right. exists i, (Run id t). split; [| done]. apply (at_move _ _ _ _ _ _ Hi). by left.
Qed.

Lemma forall_insert {A} (Q : A → Prop) (l : list A) i x : Forall Q l → Q x → Forall Q (<[i := x]> l).
Proof. intros H1 H2. by apply Forall_insert. Qed.

Lemma inv_task N p i id t w w' r es : PoolInv N p → at_phase p i (Run id t) →
  workers p !! i = Some w → task_step (log p) w t = (w', r, es) →
  PoolInv N ((match r with inl t' => move p i (Run id t')
                         | inr v => (move p i Loop) <| futures := <[id := Some v]> (futures p) |> end)
               <| workers := <[i := w']> (workers p) |> <| log := log p ++ tag id es |>).
Proof.
  intros [P1 P2 [P3 P4] P5 P6 P7 P8 P9] Hi Hw Es.
  destruct P1 as [P1 Pg]. pose proof (Forall_lookup_1 _ _ _ _ Pg Hw) as Hg.
  set (new := match r with inl t' => Run id t' | inr _ => Loop end).
  destruct (pending_move p i (Run id t) new Hi) as (rest & H1 & H2). simpl in H1. rewrite H1 in P5.
  destruct (ti_pending _ _ _ _ P5 id t) as [Ht HF]; [by left |].
  pose proof (task_ok (log p) id w t _ Hg Ht) as Hok. rewrite Es in Hok. destruct Hok as [Hg' Hr].
  assert (∀ j, ¬ at_phase (move p i new) j Exit) as P4'.
  { intros j [(_ & H) | (_ & H)]%(at_move _ _ _ _ _ _ Hi); [by destruct r | by apply (P4 j)]. }
  assert (task_queue p ≠ [] → mutex_free (move p i new) ∧ awake (move p i new)) as P9'.
  { intros Hq. destruct (P9 Hq) as [H _]. split.
    - intros j [(_ & H') | (_ & H')]%(at_move _ _ _ _ _ _ Hi); [by destruct r | by apply (H j)].
    - exists i, new. split; [apply (at_move _ _ _ _ _ _ Hi); by left | by destruct r]. }
  destruct r as [t' | v]; simpl in new, H2; split; simpl;
    rewrite ?length_insert; try done; try (by apply move_nonempty); try (by split; [| apply forall_insert]).
  - eapply TaskInv_proper; [exact H2 | done .. |]. eapply tasks_step, Hr. exact P5.
  - intros Hq. destruct (P9' Hq). split; [done | by right].
  - eapply TaskInv_proper; [exact H2 | done .. |]. by eapply tasks_finish, Hr.
  - intros Hc. apply forall_insert; [by apply P8 | by eexists].
  - intros Hq. destruct (P9' Hq). split; [done | by right].
Qed.

Lemma inv_submit N p t todo : PoolInv N p → client p = CSubmit (t :: todo) → mutex_free p →
  PoolInv N (p <| task_queue := task_queue p ++ [(length (futures p), t)] |>
               <| futures := futures p ++ [None] |> <| client := CNotify todo |>).
Proof.
  intros [P1 P2 P3 P5 P6 P7 P8 P9] Hc Hm. rewrite Hc in *. split; simpl in *; try done.
  - eapply TaskInv_proper; [| done .. | exact (tasks_submit _ _ _ _ _ P5)].
    unfold pending. simpl. rewrite <- (assoc_L (++)). symmetry. apply Permutation_middle.
  - rewrite length_app. simpl. lia.
  - intros _. split; [exact Hm | by left].
Qed.

(** Without sleepers some thread is awake. *)
Lemma no_sleeper (p : Pool) : threads p ≠ [] → (∀ i, ¬ at_phase p i Sleep) → awake p.
Proof.
  intros Ht Hs. destruct (threads p) as [| ph ths] eqn:Et; [done |]. exists O, ph.
  assert (at_phase p O ph) as H by (unfold at_phase; by rewrite Et).
  split; [done |]. intros ->. by apply (Hs O).
Qed.

Lemma inv_client N p c : PoolInv N p → todo_of c = todo_of (client p) → in_use c →
  (c = CReturned → Forall is_Some (futures p)) → (task_queue p ≠ [] → notifying c ∨ awake p) →
  PoolInv N (p <| client := c |>).
Proof.
  intros [P1 P2 P3 P5 P6 P7 P8 P9] Ht Hu Hr Ha. split; simpl; rewrite ?Ht; try done.
  intros Hq. destruct (P9 Hq). split; [done | by apply Ha].
Qed.

Lemma inv_step N p p' : PoolInv N p → step p p' → PoolInv N p'.
Proof.
  intros I Hs. destruct Hs as [i Hi | i Hi Hm Hst | i id t rest Hi Hm Hst Hq | i Hi Hm Hst Hq | i Hi
    | i id t w w' t' es Hi Hw Es | i id t w w' v es Hi Hw Es | t todo Hc Hm | i todo Hc Hi
    | todo Hc Hn | Hc Hf].
  - rewrite (proj1 (pi_open _ _ I)). by eapply inv_idle.
  - pose proof (proj1 (pi_open _ _ I)). congruence.
  - by eapply inv_pop.
  - by eapply inv_idle.
  - eapply inv_idle; try done. intros Hq. by destruct (pi_awake _ _ I Hq) as [Hm _]; destruct (Hm i).
  - exact (inv_task _ _ _ _ _ _ _ _ _ I Hi Hw Es).
  - exact (inv_task _ _ _ _ _ _ _ _ _ I Hi Hw Es).
  - by apply inv_submit.
  - apply inv_client; simpl; try done.
    + by eapply inv_idle.
    + by rewrite Hc.
    + intros _. right. exists i, Lock. split; [| done]. apply (at_move _ _ _ _ _ _ Hi). by left.
  - apply inv_client; simpl; try done; [by rewrite Hc |].
    intros _. right. apply no_sleeper; [apply I | done].
  - apply inv_client; simpl; try done; [by rewrite Hc |]. intros Hq.
    destruct (pi_awake _ _ I Hq) as [_ H]. rewrite Hc in H. exact H.
Qed.

Lemma inv_spurious N p p' : PoolInv N p → spurious_step p p' → PoolInv N p'.
Proof. intros I [i Hi]. by eapply inv_idle. Qed.

(** Every action makes the remaining work smaller. *)
Lemma step_work N p p' : PoolInv N p → step p p' → (work p' < work p)%nat.
Proof.
  intros I Hs. unfold work.
  destruct Hs as [i Hi | i Hi Hm Hst | i id t rest Hi Hm Hst Hq | i Hi Hm Hst Hq | i Hi
    | i id t w w' t' es Hi Hw Es | i id t w w' v es Hi Hw Es | t todo Hc Hm | i todo Hc Hi
    | todo Hc Hn | Hc Hf]; simpl;
    try match goal with |- context [<[i := ?new]> (threads p)] =>
          pose proof (work_move (threads p) i _ new Hi); simpl in * end; try lia.
  - rewrite (proj1 (pi_open _ _ I)) in *. simpl in *. lia.
  - rewrite Hq, queue_work_cons. simpl. lia.
  - pose proof (pending_move p i _ (Run id t) Hi) as (rest & H1 & _). simpl in H1.
    pose proof (pi_tasks _ _ I) as TI. rewrite H1 in TI.
    destruct (ti_pending _ _ _ _ TI id t) as [Ht _]; [by left |].
    pose proof (Forall_lookup_1 _ _ _ _ (proj2 (pi_workers _ _ I)) Hw) as Hg.
    pose proof (task_ok (log p) id w t _ Hg Ht) as Hok. rewrite Es in Hok. destruct Hok as (_ & _ & Hlt).
    lia.
  - rewrite Hc, queue_work_app, queue_work_cons. simpl. rewrite todo_work_cons.
    change (queue_work []) with 0%nat. lia.
  - rewrite Hc. simpl. lia.
  - rewrite Hc. simpl. lia.
  - rewrite Hc. simpl. lia.
Qed.

Lemma some_at (f : phase → bool) (p : Pool) :
  (∃ i ph, at_phase p i ph ∧ f ph = true) ∨ (∀ i ph, at_phase p i ph → f ph = false).
Proof.
  unfold at_phase. destruct (existsb f (threads p)) eqn:Ef.
  - apply existsb_exists in Ef as (ph & Hin%list_elem_of_In & Hf). left.
    apply list_elem_of_lookup_1 in Hin as [i Hi]. eauto.
  - right. intros i ph Hi. destruct (f ph) eqn:Ep; [| done]. rewrite <- Ef. symmetry.
    apply existsb_exists. exists ph. split; [| done].
    apply list_elem_of_In. by eapply list_elem_of_lookup_2.
Qed.

Definition is_pred (ph : phase) : bool := match ph with Pred => true | _ => false end.

Definition is_sleep (ph : phase) : bool := match ph with Sleep => true | _ => false end.

(** Until the call returns, something can happen. *)
Lemma run_progress p i id t : length (workers p) = length (threads p) → at_phase p i (Run id t) →
  ∃ p', step p p'.
Proof.
  intros Hl Hi. destruct (lookup_lt_is_Some_2 (workers p) i) as [w Hw].
  { rewrite Hl. by eapply lookup_lt_Some. }
  destruct (task_step (log p) w t) as [[w' [t' | v]] es] eqn:Es; eexists;
    [by eapply step_task | by eapply step_finish].
Qed.

Lemma step_progress N p : PoolInv N p → client p ≠ CReturned → ∃ p', step p p'.
Proof.
  intros I Hc. destruct (some_at is_pred p) as [(i & ph & Hi & Hp) | Hp].
  { destruct ph; try done. eexists. by eapply (step_block _ _ i). }
  assert (mutex_free p) as Hm by (intros i Hi; by apply Hp in Hi).
  destruct (client p) as [[| t todo] | todo | | | |] eqn:Ec; try (pose proof (pi_client _ _ I) as Hu; rewrite Ec in Hu; by destruct Hu); try done.
  - destruct (decide (Forall is_Some (futures p))) as [Hf | Hf]; [eexists; by eapply step_return |].
    apply not_Forall_Exists in Hf; [| apply _].
    apply Exists_exists in Hf as (v & (id & Hid)%list_elem_of_lookup_1 & Hv).
    destruct v; [by destruct Hv |]. apply (ti_open _ _ _ _ (pi_tasks _ _ I)) in Hid.
    apply list_elem_of_fmap in Hid as ([id' t] & -> & Hin). unfold pending in Hin.
    apply elem_of_app in Hin as [Hin | Hin].
    + assert (task_queue p ≠ []) as Hq by (intros E'; rewrite E' in Hin; by apply elem_of_nil in Hin).
      destruct (pi_awake _ _ I Hq) as [_ [Hn | (i & ph & Hi & Hph)]]; [by rewrite Ec in Hn |].
      destruct ph as [| | | | id'' t'' |]; try done.
      * eexists. by eapply step_loop.
      * destruct (task_queue p) as [| [id'' t''] rest] eqn:Eq; [done |].
        eexists. eapply step_lock_pop; try done. apply I.
      * by destruct (Hm i).
      * eapply run_progress, Hi. apply I.
      * by destruct (proj2 (pi_open _ _ I) i).
    + apply list_elem_of_bind in Hin as (ph & Hin & (i & Hi)%list_elem_of_lookup_1).
      destruct ph; simpl in Hin; try (by apply elem_of_nil in Hin).
      apply list_elem_of_singleton in Hin as [= -> ->]. eapply run_progress, Hi. apply I.
  - eexists. by eapply step_submit.
  - destruct (some_at is_sleep p) as [(i & ph & Hi & Hs) | Hs].
    + destruct ph; try done. eexists. by eapply step_notify.
    + eexists. eapply step_notify_none; [done |]. intros i Hi. by apply Hs in Hi.
Qed.

Lemma inv_new ws todo : ws ≠ [] → Forall good ws → (∀ k t, todo !! k = Some t → tinv k t []) →
  PoolInv (length todo) (new_pool ws todo).
Proof.
  intros Hw Hg Ht. unfold new_pool. split; simpl; try done.
  - by rewrite length_replicate.
  - by destruct ws.
  - split; [done |]. intros i. unfold at_phase. simpl. intros [[=] _]%lookup_replicate.
  - assert (pending (new_pool ws todo) = []) as Hp.
    { unfold pending, new_pool. simpl. clear. induction (length ws); [done |]. done. }
    unfold new_pool in Hp. rewrite Hp.
    split; simpl; try done.
    + intros id t Hin. by apply elem_of_nil in Hin.
    + constructor.
Qed.

Lemma inv_reachable N p p' : PoolInv N p → rtc (run_step task_step) p p' → PoolInv N p'.
Proof.
  intros I H. revert I. induction H as [p | p p1 p2 [Hs | Hs] _ IH]; [done | |]; intros I; apply IH;
    [by eapply inv_step | by eapply inv_spurious].
Qed.

Lemma work_bound N n : ∀ p p', PoolInv N p → nsteps step n p p' → (n + work p' <= work p)%nat.
Proof.
  induction n as [| n IH]; intros p p' I Hs; inversion Hs as [| ? ? q ? Hpq Hq]; subst; [lia |].
  pose proof (step_work N p q I Hpq). pose proof (IH q p' (inv_step _ _ _ I Hpq) Hq). lia.
Qed.

(** The value of every task is in its future when the call returns. *)
Lemma inv_returned N p : PoolInv N p → client p = CReturned →
  ∃ vs, futures p = Some <$> vs ∧ length vs = N ∧ Forall good (workers p) ∧
    (∀ id v, vs !! id = Some v → post id v (own (log p) id)) ∧
    ∀ id, (N <= id)%nat → own (log p) id = [].
Proof.
  intros I Hc. pose proof (pi_count _ _ I) as Hn. rewrite Hc in Hn. simpl in Hn.
  pose proof (pi_ready _ _ I Hc) as Hf.
  assert (∃ vs, futures p = Some <$> vs) as [vs E'].
  { clear - Hf. induction Hf as [| v F [x ->] _ [vs ->]]; [by exists [] | by exists (x :: vs)]. }
  exists vs. rewrite E', length_fmap in Hn. split; [done |]. split; [lia |]. split; [apply I |]. split.
  - intros id v Hv. apply (ti_done _ _ _ _ (pi_tasks _ _ I)). rewrite E', list_lookup_fmap, Hv. done.
  - intros id Hid. apply (ti_fresh _ _ _ _ (pi_tasks _ _ I)). rewrite E', length_fmap. lia.
Qed.
End PoolSpec.

(** Every execution from the fresh pool is finite, never stuck before the call
    returns, and satisfies [Q] when it does. *)
Definition returns {W T V E} (task_step : list (nat * E) → W → T → W * (T + V) * list E)
    (ws : list W) (todo : list T) (Q : Pool W T V E → Prop) : Prop :=
  (∃ bound, ∀ n p, nsteps (step task_step) n (new_pool ws todo) p → (n <= bound)%nat) ∧
  ∀ p, rtc (run_step task_step) (new_pool ws todo) p →
    (client p ≠ CReturned → ∃ p', step task_step p p') ∧ (client p = CReturned → Q p).

Section Returns.
Context {W T V E : Type} (task_step : list (nat * E) → W → T → W * (T + V) * list E).
Context (good : W → Prop) (tinv : nat → T → list E → Prop) (post : nat → V → list E → Prop).
Context (tsteps : T → nat).

Lemma pool_returns (ws : list W) (todo : list T) :
  LawfulTasks task_step good tinv post tsteps → ws ≠ [] → Forall good ws →
  (∀ k t, todo !! k = Some t → tinv k t []) →
  returns task_step ws todo (λ p, ∃ vs, futures p = Some <$> vs ∧ length vs = length todo ∧
    Forall good (workers p) ∧ (∀ id v, vs !! id = Some v → post id v (own (log p) id)) ∧
    ∀ id, (length todo <= id)%nat → own (log p) id = []).
Proof.
  intros Hok Hw Hg Ht.
  assert (PoolInv good tinv post (length todo) (new_pool ws todo : Pool W T V E)) as I
    by (by apply inv_new).
  split.
  - exists (work tsteps (new_pool ws todo : Pool W T V E)). intros n p Hn.
    apply (work_bound _ _ _ _ _ _ _ _ _ I) in Hn. lia.
  - intros p Hp. pose proof (inv_reachable _ _ _ _ _ _ _ _ I Hp) as I'. split; intros Hc.
    + by eapply step_progress.
    + by eapply inv_returned.
Qed.
End Returns.

Lemma returns_mono {W T V E} (task_step : list (nat * E) → W → T → W * (T + V) * list E) ws todo Q Q' :
  (∀ p, Q p → Q' p) → returns task_step ws todo Q → returns task_step ws todo Q'.
Proof. intros H [H1 H2]. split; [done |]. intros p Hp. destruct (H2 p Hp). auto. Qed.

(** ** The properties *)

(** C14. Tasks submitted to a pool of at least one thread all run, exactly
    once and to their end, under every interleaving of the threads and with
    spurious wake-ups: no reachable state before the return is stuck (no
    wake-up is lost), every execution without spurious wake-ups is finite, and at
    the return each future holds the value its task computed. *)
Theorem pool_runs_every_task {W T V E} (task_step : list (nat * E) → W → T → W * (T + V) * list E)
    (good : W → Prop) (tinv : nat → T → list E → Prop) (post : nat → V → list E → Prop)
    (tsteps : T → nat) (ws : list W) (todo : list T) :
  LawfulTasks task_step good tinv post tsteps → ws ≠ [] → Forall good ws →
  (∀ k t, todo !! k = Some t → tinv k t []) →
  returns task_step ws todo (λ p, ∃ vs, futures p = Some <$> vs ∧ length vs = length todo ∧
    Forall good (workers p) ∧ (∀ id v, vs !! id = Some v → post id v (own (log p) id)) ∧
    ∀ id, (length todo <= id)%nat → own (log p) id = []).
Proof. apply pool_returns. Qed.

(** The destructor can hang: it sets [_stop] without taking the mutex, so a
    thread that has just found its predicate false misses [notify_all], and
    goes to sleep with nobody left to wake it; [join] then waits forever. *)
Theorem pool_destructor_can_hang {W T V E} (task_step : list (nat * E) → W → T → W * (T + V) * list E)
    (w : W) :
  ∃ p p' : Pool W T V E, rtc (step task_step) (new_pool [w] []) p ∧ destroy_step p p' ∧
    ∃ q q', destroy_step p' q ∧ step task_step q q' ∧
      client q' = CJoining ∧ at_phase q' 0 Sleep ∧
      (∀ r, ¬ step task_step q' r) ∧ (∀ r, ¬ destroy_step q' r).
Proof.
  set (p0 := new_pool [w] [] : Pool W T V E).
  set (p1 := move p0 0 Lock). set (p2 := move p1 0 Pred). set (p3 := p2 <| client := CReturned |>).
  set (p4 := p3 <| stop := true |> <| client := CStopping |>).
  set (p5 := p4 <| threads := wake <$> threads p4 |> <| client := CJoining |>).
  exists p3, p4. split; [| split].
  - eapply rtc_l; [exact (step_loop _ p0 0 eq_refl) |]. simpl.
    eapply rtc_l; [apply (step_lock_wait _ p1 0); try done |].
    { intros [| i]; [intros [=] | by intros [=]]. }
    eapply rtc_l; [by apply (step_return _ p2) | reflexivity].
  - by apply destroy_stop.
  - exists p5, (move p5 0 Sleep). split; [by apply destroy_notify |].
    split; [by apply (step_block _ p5) |]. split; [done |]. split; [done |].
    assert (∀ i ph, at_phase (move p5 0 Sleep) i ph → ph = Sleep) as Hph.
    { intros [| i] ph; [by intros [= <-] | intros [=]]. }
    split; intros r Hr; destruct Hr; try done;
      repeat match goal with H : at_phase _ _ _ |- _ => apply Hph in H end; try done.
    by inversion select (Forall _ _).
Qed.
