(* ===== verification/Engine.v ===== *)
(** * Propagation engines: [SimpProp] and [ParProp]

    [core/sat/prop]: counting the assignments of a search under which unit
    propagation fails, on one solver ([SimpProp]) or with a pool of solvers
    ([ParProp]).  The engines use three operations of a solver, the record
    [Checker]; a callback sees every assignment checked and can stop the run.
    Callbacks are functions of what they were told before, so that a callback
    with state is one too; [None] stands for an exception, which the engines
    ignore. *)
From S2P Require Import Prelude Lit UnitProp Domain Search Pool.

Record Checker (S : Type) := MkChecker {
  ck_check : S → list Lit → option (S * bool);
  ck_check_propagated : S → list Lit → option (S * bool * list Lit);
  ck_subtree : S → list Lit → nat → option (S * Z) }.

Arguments MkChecker {S} _ _ _.
Arguments ck_check {S} _ _ _.
Arguments ck_check_propagated {S} _ _ _.
Arguments ck_subtree {S} _ _ _ _.

(** A call of the callback: (conflict, assumption). *)
Definition Event : Type := bool * list Lit.

Definition Callback : Type := list Event → bool → list Lit → option bool.

(** [ilog2]: the number of binary digits. *)
Fixpoint ilog2_fuel (fuel : nat) (x : Z) : Z :=
  match fuel with
  | O => 0
  | S fuel => if x =? 0 then 0 else 1 + ilog2_fuel fuel (Z.shiftr x 1)
  end.

Definition ilog2 (x : Z) : Z := ilog2_fuel 64 x.

Section Engines.
Context {S : Type} (K : Checker S).
Context {R : Type} (sample : R → Z → Z → Z * R) (fuel : nat).

(** ** [Prop::sequential_propagate] *)

(** [search()] or [concat(base_assumption, search())]. *)
Definition assumption (base : option (list Lit)) (s : Search) : list Lit :=
  match base with None => s_assignment s | Some b => concat_lits b (s_assignment s) end.

(** The body of the loop: the flag says whether to go on. *)
Definition round (callback : option Callback) (base : option (list Lit)) (told : list Event)
    (st : S) (s : Search) (conflicts : Z) : option (S * Z * list Event * bool) :=
  let a := assumption base s in
  '(st, answer) ← ck_check K st a;
  let conflict := negb answer in
  let conflicts := u64 (conflicts + Z.b2z conflict) in
  match callback with
  | None => Some (st, conflicts, [], true)
  | Some f => Some (st, conflicts, [(conflict, a)],
                    match f told conflict a with Some false => false | _ => true end)
  end.

Fixpoint propagate_loop (rounds : nat) (callback : option Callback) (base : option (list Lit))
    (told : list Event) (st : S) (r : R) (s : Search) (conflicts : Z) :
    option (S * R * Z * list Event) :=
  match rounds with
  | O => None
  | Datatypes.S rounds =>
      '(st, conflicts, es, go) ← round callback base told st s conflicts;
      let told := told ++ es in
      if go : bool then
        '(more, s, r) ← search_next sample fuel r s;
        if more : bool then propagate_loop rounds callback base told st r s conflicts
        else Some (st, r, conflicts, told)
      else Some (st, r, conflicts, told)
  end.

Definition sequential_propagate (rounds : nat) (callback : option Callback)
    (base : option (list Lit)) (st : S) (r : R) (s : Search) : option (S * R * Z * list Event) :=
  propagate_loop rounds callback base [] st r s 0.

(** ** [SimpProp] *)

(** [propagate]: is there a conflict? *)
Definition simp_propagate (st : S) (a : list Lit) : option (S * bool) :=
  '(st, b) ← ck_check K st a; Some (st, negb b).

Definition simp_propagate_to (st : S) (a : list Lit) : option (S * bool * list Lit) :=
  '(st, b, p) ← ck_check_propagated K st a; Some (st, negb b, p).

Definition simp_prop_search := sequential_propagate.

Definition simp_prop_tree (st : S) (vars : list Lit) (head : nat) : option (S * Z) :=
  ck_subtree K st vars head.

(** ** [ParProp] *)

Record ParConfig := MkParConfig {
  tree_max_fixed_vars : Z;
  tree_split_vars : Z;
  seq_split_samples : Z }.

(** What the constructor makes of [max_threads] and the options. *)
Definition par_config (max_threads split_vars split_samples : Z) : ParConfig :=
  MkParConfig (ilog2 max_threads) split_vars split_samples.

(** The tasks: a whole search, a part of one, one that is running, and a
    subtree. *)
Inductive Task :=
  | TSplit (s : Search) (num index : Z)
  | TLoop (s : Search) (conflicts : Z)
  | TTree (vars : list Lit) (head : nat).

(** One step of a task: a part starts, or one round of the loop.  A worker
    is a solver and the generator of its thread; the value [None] stands
    for an operation that failed. *)
Definition par_task_step (callback : option Callback) (base : option (list Lit))
    (told : list (nat * Event)) (w : S * R) (t : Task) : (S * R) * (Task + option Z) * list Event :=
  let '(st, r) := w in
  match t with
  | TSplit s num index =>
      match split_search sample fuel r s num index with
      | Some (s', r) => ((st, r), inl (TLoop s' 0), [])
      | None => (w, inr None, [])
      end
  | TLoop s conflicts =>
      match round callback base (snd <$> told) st s conflicts with
      | Some (st, conflicts, es, true) =>
          match search_next sample fuel r s with
          | Some (true, s, r) => ((st, r), inl (TLoop s conflicts), es)
          | Some (false, s, r) => ((st, r), inr (Some conflicts), es)
          | None => ((st, r), inr None, es)
          end
      | Some (st, conflicts, es, false) => ((st, r), inr (Some conflicts), es)
      | None => (w, inr None, [])
      end
  | TTree vars head =>
      match ck_subtree K st vars head with
      | Some (st, n) => ((st, r), inr (Some n), [])
      | None => (w, inr None, [])
      end
  end.

(** [_prop_search]: the tasks it submits; [None] is a division by zero. *)
Definition search_tasks (c : ParConfig) (max_threads : Z) (s : Search) : option (list Task) :=
  if search_size s <=? seq_split_samples c then Some [TLoop s 0]
  else if seq_split_samples c =? 0 then None
  else
    let num_threads := u32 (Z.min (search_size s / seq_split_samples c) max_threads) in
    Some (TSplit s num_threads <$> seqZ 0 num_threads).

(** The loop that fixes variables to the bits of the number of the task. *)
Fixpoint fix_vars (n : nat) (asgn : list Lit) (base_head : nat) (head_asgn : Z) : list Lit :=
  match n with
  | O => asgn
  | Datatypes.S n =>
      let asgn := <[base_head := mkLit (var (asgn !!! base_head)) (Z.odd head_asgn)]> asgn in
      fix_vars n asgn (Datatypes.S base_head) (Z.shiftr head_asgn 1)
  end.

(** [prop_tree]: the tasks it submits. *)
Definition tree_tasks (c : ParConfig) (vars : list Lit) (head_size : nat) : list Task :=
  let vars_left := u32 (Z.of_nat (length vars) - Z.of_nat head_size) in
  if vars_left <=? tree_split_vars c then [TTree vars head_size]
  else
    let may_be_fixed_vars := u32 (vars_left - tree_split_vars c) in
    let fixed_vars := Z.to_nat (Z.min (tree_max_fixed_vars c) may_be_fixed_vars) in
    let threads := u32 (Z.shiftl 1 (Z.of_nat fixed_vars)) in
    (λ thread, TTree (fix_vars fixed_vars vars head_size thread) (head_size + fixed_vars)) <$>
      seqZ 0 threads.

(** [_sum] over the futures. *)
Definition sum_futures (fs : list (option (option Z))) : option Z :=
  foldl (λ acc f, a ← acc; v ← mjoin f; Some (u64 (a + v))) (Some 0) fs.
End Engines.

Arguments Task : clear implicits.

(** The operations of [Minisat::SimpSolver] that the engines use. *)
From S2P Require Import Solver.

Definition solver_checker : Checker Solver :=
  MkChecker (λ st a, prop_check st a 0) (λ st a, prop_check_propagated st a 0) prop_check_subtree.
