(* ===== verification/EngineSpec.v ===== *)
(** * The propagation engines count conflicts

    Against the interface [LawfulChecker] of a solver: one solver counts the
    conflicting assignments of a search, a pool of solvers counts the same
    under every interleaving, and the tree search counts what the full search
    counts. *)
From S2P Require Import Prelude Lit UnitProp Domain Search SearchSpec Solver Propagate PropCheck.
From S2P Require Import Pool PoolSpec Engine.

(** ** Counting *)

Lemma lits_ok_vars n ls : Forall (lit_ok n) ls ↔ Forall (λ x, 0 <= x < n) (var <$> ls).
Proof. by rewrite Forall_fmap. Qed.

Lemma counts_perm {A} (P : A → Prop) xs ys n : xs ≡ₚ ys → counts P xs n → counts P ys n.
Proof.
  intros Hp. revert n. induction Hp as [| x xs ys _ IH | x y xs | xs ys zs _ IH1 _ IH2]; intros n Hc.
  - done.
  - inversion Hc; subst; constructor; auto.
  - inversion Hc as [| ? ? m Hx Hc' | ? ? m Hx Hc']; subst; inversion Hc'; subst.
    + by constructor; [| constructor].
    + by apply counts_no; [| apply counts_yes].
    + by apply counts_yes; [| apply counts_no].
    + by apply counts_no; [| apply counts_no].
  - auto.
Qed.

Lemma counts_snoc {A} (P : A → Prop) xs x (b : bool) n : counts P xs n → (if b then P x else ¬ P x) →
  counts P (xs ++ [x]) (n + Z.b2z b).
Proof.
  intros Hc Hb. apply counts_app; [done |]. destruct b; simpl.
  - change 1 with (0 + 1). by apply counts_yes; [| constructor].
  - by apply counts_no; [| constructor].
Qed.

Lemma counts_concat {A} (P : A → Prop) (xss : list (list A)) ns : Forall2 (counts P) xss ns →
  counts P (concat xss) (foldr Z.add 0 ns).
Proof. induction 1; simpl; [constructor | by apply counts_app]. Qed.

Lemma counts_fmap_inv {A B} (f : B → A) (P : A → Prop) xs n :
  counts P (f <$> xs) n → counts (λ x, P (f x)) xs n.
Proof.
  revert n. induction xs as [| x xs IH]; intros n Hc; csimpl in *; inversion Hc; subst; constructor; auto.
Qed.

Lemma own_concat {E} (l : list (nat * E)) N : (∀ id, (N <= id)%nat → own l id = []) →
  snd <$> l ≡ₚ concat (own l <$> seq 0 N).
Proof.
  induction l as [| [i e] l IH]; intros Hl.
  - simpl. clear. induction (seq 0 N); [done | by simpl].
  - assert (∀ id, own ((i, e) :: l) id = if decide (i = id) then e :: own l id else own l id) as Hc.
    { intros id. unfold own. rewrite filter_cons. simpl. by destruct (decide (i = id)). }
    assert (i < N)%nat as Hi.
    { destruct (decide (i < N)%nat); [done |]. specialize (Hl i ltac:(lia)). rewrite Hc, decide_True in Hl; done. }
    csimpl. rewrite IH.
    + replace N with (i + Datatypes.S (N - i - 1))%nat by lia. rewrite !seq_app, !fmap_app, !concat_app. csimpl.
      rewrite (Hc i), decide_True by done. simpl. rewrite <- Permutation_middle. f_equiv.
      assert (∀ a m, (∀ id, id ∈ seq a m → i ≠ id) → own ((i, e) :: l) <$> seq a m = own l <$> seq a m) as Ho.
      { intros a m Hm. apply list_fmap_ext. intros k id Hk. rewrite Hc, decide_False; [done |].
        by eapply Hm, list_elem_of_lookup_2. }
      rewrite !Ho; [done | |]; intros id [? ?]%elem_of_seq; lia.
    + intros id Hid. specialize (Hl id Hid). rewrite Hc in Hl. by destruct (decide (i = id)).
Qed.

Lemma sum_futures_spec cs : Forall (λ c, 0 <= c) cs → foldr Z.add 0 cs < 2 ^ 64 →
  sum_futures (Some <$> (Some <$> cs)) = Some (foldr Z.add 0 cs).
Proof.
  intros Hc. unfold sum_futures.
  enough (∀ acc, 0 <= acc → acc + foldr Z.add 0 cs < 2 ^ 64 →
    foldl (λ acc f, a ← acc; v ← mjoin f; Some (u64 (a + v))) (Some acc) (Some <$> (Some <$> cs)) =
    Some (acc + foldr Z.add 0 cs)) as H by (intros; by rewrite H).
  induction Hc as [| c cs Hc Hcs IH]; intros acc H0 H1; csimpl in *; [f_equal; lia |].
  assert (0 <= foldr Z.add 0 cs) by (clear - Hcs; induction Hcs; simpl; lia).
  assert (u64 (acc + c) = acc + c) as -> by (apply Z.mod_small; lia). rewrite IH; [f_equal | |]; lia.
Qed.

(** ** The interface *)

Section Interface.
Context {S : Type} (K : Checker S).
Context (good : S → Prop) (n : Z) (F : formula) (tr : list Lit).

Definition conflicts_with (a : list Lit) : Prop := UPconfl F (lit_on (tr ++ a)).

(** [good] solvers hold the clauses [F] with the trail [tr] over [n]
    variables; every operation answers as unit propagation does and gives
    back a good solver. *)
Class LawfulChecker := {
  lc_check s a : good s → Forall (lit_ok n) a →
    ∃ s' b, ck_check K s a = Some (s', b) ∧ good s' ∧ answers b (conflicts_with a);
  lc_propagated s a : good s → Forall (lit_ok n) a →
    ∃ s' b p, ck_check_propagated K s a = Some (s', b, p) ∧ good s' ∧
      answers b (conflicts_with a) ∧
      (b = true → ∀ l, l ∈ tr ++ p ↔ UP F (lit_on (tr ++ a)) l);
  lc_subtree s vars head : good s → Forall (lit_ok n) vars → (length vars - head < 64)%nat →
    ∃ s' k, ck_subtree K s vars head = Some (s', k) ∧ good s' ∧
      counts (λ a, conflicts_with (take head vars ++ a)) (leaves (var <$> drop head vars)) k }.
End Interface.

(** A solver that is [ok] and at a propagation fixpoint is lawful. *)
Definition holds (n : Z) (F : formula) (tr : list Lit) (st : Solver) : Prop :=
  ok st = true ∧ Stable st ∧ nv (core st) = n ∧ trail (core st) = tr ∧ formula_equiv (db_of st) F.

Lemma holds_restored n F tr st st' : holds n F tr st → Restored st st' → holds n F tr st'.
Proof.
  intros (Hk & St & Hn & Ht & HF) R. pose proof (re_frame _ _ R) as Fr. split; [| split; [| split; [| split]]].
  - by rewrite (frame_ok _ _ Fr).
  - by eapply restored_stable.
  - by rewrite (frame_nv _ _ Fr).
  - by rewrite (re_trail _ _ R).
  - by rewrite <- (restored_db _ _ R).
Qed.

#[export] Instance solver_lawful n F tr : LawfulChecker solver_checker (holds n F tr) n F tr.
Proof.
  split; unfold conflicts_with; simpl.
  - intros st a H Ha. pose proof H as (Hk & St & <- & <- & HF).
    destruct (prop_check_spec st a 0 Hk St Ha) as (st' & b & -> & R & Hb). eexists _, _.
    split; [done |]. split; [by eapply holds_restored, R |]. rewrite <- HF. done.
  - intros st a H Ha. pose proof H as (Hk & St & <- & <- & HF).
    destruct (prop_check_propagated_spec st a 0 Hk St Ha) as (st' & b & p & -> & R & Hb & Hp).
    eexists _, _, _. split; [done |]. split; [by eapply holds_restored, R |].
    split; [by rewrite <- HF |]. intros Hg l. rewrite <- HF. by apply Hp.
  - intros st vars head H Ha Hl. pose proof H as (Hk & St & <- & <- & HF).
    destruct (prop_check_subtree_spec st vars head Hk St Ha Hl) as (st' & k & -> & R & Hc).
    eexists _, _. split; [done |]. split; [by eapply holds_restored, R |].
    eapply counts_ext, Hc. intros x _. simpl. by rewrite HF.
Qed.

(** ** One round of the loop *)

Section Engines.
Context {S : Type} (K : Checker S).
Context (good : S → Prop) (n : Z) (F : formula) (tr : list Lit).
Context `{!LawfulChecker K good n F tr}.
Context {R : Type} (sample : R → Z → Z → Z * R) (fuel : nat).
Context (callback : option Callback) (base : option (list Lit)).

Definition never_stops : Prop :=
  match callback with None => True | Some f => ∀ told b a, f told b a ≠ Some false end.

Definition based (a : list Lit) : list Lit :=
  match base with None => a | Some b => concat_lits b a end.

(** What the callback was told about the assumptions [xs]. *)
Definition told_about (xs : list (list Lit)) (es : list Event) : Prop :=
  match callback with
  | None => es = []
  | Some _ => Forall2 (λ x e, e.2 = x ∧ if e.1 : bool then conflicts_with F tr x else ¬ conflicts_with F tr x) xs es
  end.

(** The assumptions [xs] were checked, with [c] conflicts. *)
Definition checked (xs : list (list Lit)) (c : Z) (es : list Event) : Prop :=
  counts (conflicts_with F tr) xs c ∧ told_about xs es.

Lemma checked_nil : checked [] 0 [].
Proof. split; [constructor |]. unfold told_about. by destruct callback. Qed.

Lemma round_spec told st s xs c es : never_stops → good st →
  Forall (lit_ok n) (based (s_assignment s)) → checked xs c es → Z.of_nat (length xs) + 1 < 2 ^ 64 →
  ∃ st' c' es', round K callback base told st s c = Some (st', c', es', true) ∧ good st' ∧
    checked (xs ++ [based (s_assignment s)]) c' (es ++ es').
Proof.
  intros Hns Hg Ha [Hc Ht] Hb. unfold round.
  change (assumption base s) with (based (s_assignment s)). set (a := based (s_assignment s)) in *.
  destruct (lc_check K good n F tr st a Hg Ha) as (st' & b & -> & Hg' & Hans). simpl.
  pose proof (counts_bounds _ _ _ Hc) as Hbd.
  assert (u64 (c + Z.b2z (negb b)) = c + Z.b2z (negb b)) as ->.
  { apply Z.mod_small. destruct b; simpl; lia. }
  assert (if negb b then conflicts_with F tr a else ¬ conflicts_with F tr a) as Hans'
    by (by destruct b).
  unfold never_stops, checked, told_about in *. destruct callback as [f |].
  - exists st', (c + Z.b2z (negb b)), [(negb b, a)]. split.
    { specialize (Hns told (negb b) a). do 2 f_equal. by destruct (f told (negb b) a) as [[] |]. }
    split; [done |]. split; [by apply counts_snoc |]. apply Forall2_app; [done |].
    by constructor; [| constructor].
  - exists st', (c + Z.b2z (negb b)), []. split; [done |]. split; [done |].
    split; [by apply counts_snoc | by subst].
Qed.

(** ** A search that runs to its end *)

Section Search.
Context (total : Z) (at_ : Z → list Lit) (kin : Search → Prop) (sits : Z → Search → Prop).
Context {En : Enumerable sample fuel total at_ kin sits}.
Context (Hns : never_stops) (Htotal : 0 < total < 2 ^ 64).
Context (Hvars : ∀ k, Forall (lit_ok n) (based (at_ k))).

(** The assumptions of the numbers from [start] to before [k]. *)
Definition assumptions_of (start len : Z) : list (list Lit) := (based ∘ at_) <$> seqZ start len.

(** The search [s] is at number [k] of the part from [start] with [todo]
    numbers; everything before [k] is checked. *)
Record Running (start todo k : Z) (s : Search) (c : Z) (es : list Event) : Prop := {
  ru_sits : sits k s;
  ru_total : s_total s = todo;
  ru_done : s_done s = k - start;
  ru_range : 0 <= start <= k ∧ k < start + todo ∧ start + todo <= total;
  ru_checked : checked (assumptions_of start (k - start)) c es }.

Definition Finished (start todo : Z) (c : Z) (es : list Event) : Prop :=
  checked (assumptions_of start todo) c es.

Lemma running_start start todo s : sits start s → s_total s = todo → s_done s = 0 →
  0 <= start → 0 < todo → start + todo <= total → Running start todo start s 0 [].
Proof.
  intros. split; try lia; [done |]. rewrite Z.sub_diag. apply checked_nil.
Qed.

(** A round of a running search: it goes on or is finished. *)
Lemma running_round told st r start todo k s c es : good st → Running start todo k s c es →
  ∃ st' c' es', round K callback base told st s c = Some (st', c', es', true) ∧ good st' ∧
    ∃ more s', search_next sample fuel r s = Some (more, s', r) ∧
      if more : bool then Running start todo (k + 1) s' c' (es ++ es')
      else Finished start todo c' (es ++ es').
Proof.
  intros Hg [Hs Ht Hd Hr Hc].
  destruct (round_spec told st s (assumptions_of start (k - start)) c es Hns Hg) as (st' & c' & es' & Hround & Hg' & Hc'); [| exact Hc | |].
  { rewrite (en_at k s Hs). apply Hvars. }
  { unfold assumptions_of. rewrite length_fmap, length_seqZ. lia. }
  exists st', c', es'. split; [done |]. split; [done |].
  assert (assumptions_of start (k - start) ++ [based (s_assignment s)] =
          assumptions_of start (k + 1 - start)) as Hx.
  { rewrite (en_at k s Hs). unfold assumptions_of.
    replace (k + 1 - start) with ((k - start) + 1) by lia. rewrite seqZ_app, fmap_app by lia.
    replace (start + (k - start)) with k by lia. done. }
  rewrite Hx in Hc'. unfold search_next. rewrite Ht, Hd.
  assert (u64 (todo - 1) = todo - 1) as -> by (apply Z.mod_small; lia).
  destruct (Z.eqb_spec todo 0); [lia |]. rewrite orb_false_r.
  destruct (Z.eqb_spec (k - start) (todo - 1)) as [He | He].
  - exists false, s. split; [done |]. unfold Finished.
    replace todo with (k + 1 - start) by lia. done.
  - destruct (en_advance k s r Hs) as (s' & -> & Hs' & R1 & R2 & R3 & R4); [lia | lia |].
    eexists true, _. split; [done |]. split; simpl.
    + by eapply en_range; [| | exact Hs'].
    + congruence.
    + rewrite R2, Hd. unfold u64. rewrite Z.mod_small; lia.
    + lia.
    + done.
Qed.

Lemma rounds_spec (rounds : nat) : ∀ told st r start todo k s c es, good st →
  Running start todo k s c es → start + todo - k <= Z.of_nat rounds →
  ∃ st' c' es', propagate_loop K sample fuel rounds callback base told st r s c =
    Some (st', r, c', told ++ es') ∧ good st' ∧ Finished start todo c' (es ++ es').
Proof.
  induction rounds as [| rounds IH]; intros told st r start todo k s c es Hg Hr Hrounds.
  { pose proof (ru_range _ _ _ _ _ _ Hr). lia. }
  cbn [propagate_loop].
  destruct (running_round told st r _ _ _ _ _ _ Hg Hr)
    as (st' & c' & es' & -> & Hg' & more & s' & Hnext & Hm). cbn. rewrite Hnext. cbn.
  destruct more.
  - destruct (IH (told ++ es') st' r _ _ _ _ _ _ Hg' Hm) as (st2 & c2 & es2 & -> & Hg2 & Hf); [lia |].
    exists st2, c2, (es' ++ es2). rewrite !(assoc_L (++)) in *. done.
  - by exists st', c', es'.
Qed.

(** ** The tasks of a parallel search *)

Context (parts : list (Z * Z)).

Definition search_task (id : nat) (t : Task) (es : list Event) : Prop :=
  ∃ start todo, parts !! id = Some (start, todo) ∧
    match t with
    | TSplit s num i =>
        es = [] ∧ kin s ∧ s_total s = total ∧ 0 < num <= total ∧ 0 <= i < num ∧
        part_start total num i = start ∧ part_todo total num i = todo
    | TLoop s c => ∃ k, Running start todo k s c es
    | TTree _ _ => False
    end.

Definition search_post (id : nat) (v : option Z) (es : list Event) : Prop :=
  ∃ start todo c, parts !! id = Some (start, todo) ∧ v = Some c ∧ Finished start todo c es.

Definition search_steps (t : Task) : nat :=
  match t with
  | TSplit _ _ _ => Datatypes.S (Z.to_nat total)
  | TLoop s _ => Z.to_nat (s_total s - s_done s)
  | TTree _ _ => O
  end.

#[export] Instance search_tasks_lawful :
  LawfulTasks (par_task_step K sample fuel callback base) (good ∘ fst) search_task search_post
    search_steps.
Proof.
  intros l id [st r] t es Hg (start & todo & Hp & Ht). unfold compose in *. simpl in Hg.
  destruct t as [s num i | s c | vars head]; [| | done]; cbn [par_task_step].
  - destruct Ht as (-> & Hk & Htot & Hnum & Hi & Hst & Htd).
    destruct (split_sits sample fuel total at_ kin sits s r num i) as (s' & -> & H1 & H2 & Hs'); try done.
    destruct (part_next total num i Htotal Hnum Hi) as (H3 & H4 & _ & _ & H5).
    rewrite Hst, Htd in *. split; [done |]. split.
    + exists start, todo. split; [done |]. exists start. apply running_start; done.
    + simpl. rewrite H1, H2. lia.
  - destruct Ht as (k & Hr).
    destruct (running_round (snd <$> l) st r _ _ _ _ _ _ Hg Hr)
      as (st' & c' & es' & -> & Hg' & more & s' & -> & Hm). destruct more.
    + split; [done |]. split.
      * exists start, todo. split; [done |]. by exists (k + 1).
      * destruct Hr as [_ R1 R2 R3 _], Hm as [_ R1' R2' R3' _]. simpl. lia.
    + split; [done |]. by exists start, todo, c'.
Qed.

Lemma checked_concat ls (xss : list (list (list Lit))) cs : Forall3 (λ xs c es, checked xs c es) xss cs ls →
  checked (concat xss) (foldr Z.add 0 cs) (concat ls).
Proof.
  intros H. split.
  - apply counts_concat. induction H as [| ? ? ? ? ? ? [? _] _ IH]; by constructor.
  - unfold checked, told_about in *. destruct callback.
    + induction H as [| ? ? ? ? ? ? [_ ?] _ IH]; simpl; [constructor | by apply Forall2_app].
    + induction H as [| ? ? ? ? ? ? [_ ->] _ IH]; simpl; done.
Qed.

Lemma checked_nonneg ls (xss : list (list (list Lit))) cs : Forall3 (λ xs c es, checked xs c es) xss cs ls →
  Forall (λ c, 0 <= c) cs.
Proof.
  induction 1 as [| ? ? ? ? ? ? [Hc _] _ IH]; constructor; [| done]. apply counts_bounds in Hc. lia.
Qed.

Lemma posts_checked (o : nat → list Event) (vs : list (option Z)) :
  length vs = length parts → (∀ id v, vs !! id = Some v → search_post id v (o id)) →
  ∃ cs, vs = Some <$> cs ∧
    Forall3 (λ xs c es, checked xs c es)
      ((λ '(a, len), assumptions_of a len) <$> parts) cs (o <$> seq 0 (length parts)).
Proof.
  unfold search_post. revert o vs. induction parts as [| [a len] ps IH]; intros o vs Hlen Hpost;
    destruct vs as [| v vs]; try done.
  - exists []. split; [done | constructor].
  - destruct (Hpost 0%nat v eq_refl) as (a' & len' & c & [= <- <-] & -> & Hf).
    destruct (IH (o ∘ Datatypes.S) vs) as (cs & -> & Hcs).
    { by injection Hlen. }
    { intros id v Hv. destruct (Hpost (Datatypes.S id) v Hv) as (a' & len' & c' & ? & ?). by exists a', len', c'. }
    exists (c :: cs). split; [done |]. csimpl. rewrite <- fmap_S_seq, <- list_fmap_compose.
    by constructor.
Qed.

(** The parts make up the whole search. *)
Lemma gather (vs : list (option Z)) (L : list (nat * Event)) : length vs = length parts →
  (∀ id v, vs !! id = Some v → search_post id v (own L id)) →
  (∀ id, (length parts <= id)%nat → own L id = []) →
  concat ((λ '(a, len), seqZ a len) <$> parts) = seqZ 0 total →
  ∃ c es, sum_futures (Some <$> vs) = Some c ∧ snd <$> L ≡ₚ es ∧
    checked (assumptions_of 0 total) c es.
Proof.
  intros Hlen Hpost Hown Hcat. destruct (posts_checked (own L) vs Hlen Hpost) as (cs & -> & H3).
  exists (foldr Z.add 0 cs), (concat (own L <$> seq 0 (length parts))).
  pose proof (checked_nonneg _ _ _ H3) as Hcs.
  apply checked_concat in H3.
  assert (concat ((λ '(a, len), assumptions_of a len) <$> parts) = assumptions_of 0 total) as Hw.
  { unfold assumptions_of. rewrite <- Hcat, fmap_concat, <- list_fmap_compose. f_equal.
    apply list_fmap_ext. by intros ? [] ?. }
  rewrite Hw in H3. split; [| split; [by apply own_concat | done]].
  apply sum_futures_spec; [done |]. destruct H3 as [Hc _]. apply counts_bounds in Hc.
  unfold assumptions_of in Hc. rewrite length_fmap, length_seqZ in Hc. lia.
Qed.
End Search.
End Engines.

(** ** The tasks of a parallel tree search *)

Lemma fix_vars_spec f : ∀ pre mid rest k, length mid = f →
  fix_vars f (pre ++ mid ++ rest) (length pre) k = pre ++ set_assignment mid k ++ rest.
Proof.
  induction f as [| f IH]; intros pre mid rest k Hl; destruct mid as [| l mid]; try done.
  cbn [fix_vars app]. rewrite list_lookup_total_middle by done.
  rewrite (insert_app_r_alt pre) by lia. rewrite Nat.sub_diag. cbn [insert list_insert].
  rewrite set_assignment_cons.
  assert (∀ (x : Lit) tl, pre ++ x :: tl = (pre ++ [x]) ++ tl) as Hs
    by (intros x tl; by rewrite <- (assoc_L (++))).
  cbn [app]. rewrite (Hs _ (mid ++ rest)), (Hs _ (set_assignment mid (k / 2) ++ rest)).
  replace (Datatypes.S (length pre)) with (length (pre ++ [mkLit (var l) (Z.odd k)]))
    by (rewrite length_app; simpl; lia).
  rewrite IH by (simpl in Hl; lia). by rewrite <- Z.div2_spec, Z.div2_div.
Qed.

Lemma leaves_app vs ws : leaves (vs ++ ws) = concat ((λ b, app b <$> leaves ws) <$> leaves vs).
Proof.
  induction vs as [| v vs IH]; csimpl.
  - rewrite app_nil_r. by rewrite list_fmap_id.
  - rewrite IH, fmap_app, concat_app, !fmap_concat, <- !list_fmap_compose. f_equal;
      (f_equal; apply list_fmap_ext; intros i b _; unfold compose; by rewrite <- list_fmap_compose).
Qed.

Section Tree.
Context {S : Type} (K : Checker S).
Context (good : S → Prop) (n : Z) (F : formula) (tr : list Lit).
Context `{!LawfulChecker K good n F tr}.
Context {R : Type} (sample : R → Z → Z → Z * R) (fuel : nat).
Context (callback : option Callback) (base : option (list Lit)).

Notation conflicts := (conflicts_with F tr).

(** The subtree below the first [head] literals. *)
Definition subtree (x : list Lit * nat) : list (list Lit) :=
  let '(vars, head) := x in app (take head vars) <$> leaves (var <$> drop head vars).

Context (trees : list (list Lit * nat)).

Definition tree_task (id : nat) (t : Task) (es : list Event) : Prop :=
  es = [] ∧ ∃ vars head, trees !! id = Some (vars, head) ∧ t = TTree vars head ∧
    Forall (lit_ok n) vars ∧ (length vars - head < 64)%nat.

Definition tree_post (id : nat) (v : option Z) (es : list Event) : Prop :=
  ∃ x c, trees !! id = Some x ∧ v = Some c ∧ counts conflicts (subtree x) c.

#[export] Instance tree_tasks_lawful :
  LawfulTasks (par_task_step K sample fuel callback base) (good ∘ fst) tree_task tree_post (λ _, O).
Proof.
  intros l id [st r] t es Hg (-> & vars & head & Hid & -> & Hv & Hl). unfold compose in *.
  simpl in Hg |- *. destruct (lc_subtree K good n F tr st vars head Hg Hv Hl) as (st' & c & -> & Hg' & Hc).
  split; [done |]. exists (vars, head), c. split; [done |]. split; [done |]. by apply counts_fmap.
Qed.

Lemma tree_sum (vs : list (option Z)) : length vs = length trees →
  (∀ id v, vs !! id = Some v → tree_post id v []) →
  Z.of_nat (length (concat (subtree <$> trees))) < 2 ^ 64 →
  ∃ c, sum_futures (Some <$> vs) = Some c ∧ counts conflicts (concat (subtree <$> trees)) c.
Proof.
  intros Hlen Hpost Hsize.
  assert (∃ cs, vs = Some <$> cs ∧ Forall2 (counts conflicts) (subtree <$> trees) cs) as (cs & -> & Hc).
  { unfold tree_post in Hpost. clear Hsize. revert vs Hlen Hpost.
    induction trees as [| x xs IH]; intros [| v vs] Hlen Hpost; try done.
    - exists []. by split.
    - destruct (Hpost 0%nat v eq_refl) as (x' & c & [= <-] & -> & Hc).
      destruct (IH vs) as (cs & -> & Hcs); [by injection Hlen | |].
      { intros id v Hv. apply (Hpost (Datatypes.S id) v Hv). }
      exists (c :: cs). split; [done |]. csimpl. by constructor. }
  pose proof (counts_concat _ _ _ Hc) as Hsum. exists (foldr Z.add 0 cs). split; [| done].
  apply sum_futures_spec; [| apply counts_bounds in Hsum; lia].
  clear - Hc. remember (subtree <$> trees) as xss. clear Heqxss.
  induction Hc as [| xs c xss cs Hc _ IH]; constructor; [apply counts_bounds in Hc; lia | done].
Qed.
End Tree.

(** The subtrees of the tasks make up the subtree of the call. *)
Lemma tree_tasks_partition c vars head : (head <= length vars)%nat → Z.of_nat (length vars) < 2 ^ 32 →
  0 <= tree_split_vars c → 0 <= tree_max_fixed_vars c <= 31 →
  ∃ trees, tree_tasks c vars head = (λ '(v, h), TTree v h) <$> trees ∧
    concat (subtree <$> trees) ≡ₚ subtree (vars, head) ∧
    Forall (λ '(v, h), length v = length vars ∧ (head <= h)%nat ∧ var <$> v = var <$> vars) trees.
Proof.
  intros Hh Hlen Hs Hm. unfold tree_tasks.
  assert (u32 (Z.of_nat (length vars) - Z.of_nat head) = Z.of_nat (length vars) - Z.of_nat head) as ->
    by (apply Z.mod_small; lia).
  destruct (Z.leb_spec (Z.of_nat (length vars) - Z.of_nat head) (tree_split_vars c)) as [Hle | Hgt].
  { exists [(vars, head)]. split; [done |]. split; [csimpl; by rewrite app_nil_r |]. by repeat constructor. }
  assert (u32 (Z.of_nat (length vars) - Z.of_nat head - tree_split_vars c) =
          Z.of_nat (length vars) - Z.of_nat head - tree_split_vars c) as -> by (apply Z.mod_small; lia).
  set (f := Z.to_nat (Z.min (tree_max_fixed_vars c) _)).
  assert (f <= 31 ∧ head + f <= length vars)%nat as [Hf Hf'] by lia. clearbody f.
  assert (u32 (Z.shiftl 1 (Z.of_nat f)) = 2 ^ Z.of_nat f) as ->.
  { rewrite Z.shiftl_1_l. apply Z.mod_small. split; [lia |]. apply Z.pow_lt_mono_r; lia. }
  set (pre := take head vars). set (mid := take f (drop head vars)). set (rest := drop (head + f) vars).
  assert (vars = pre ++ mid ++ rest) as Hvars.
  { unfold pre, mid, rest. rewrite <- drop_drop, take_drop, take_drop. done. }
  assert (length pre = head ∧ length mid = f) as [Hpre Hmid].
  { unfold pre, mid. rewrite !length_take, length_drop. lia. }
  exists ((λ k, (pre ++ set_assignment mid k ++ rest, (head + f)%nat)) <$> seqZ 0 (2 ^ Z.of_nat f)).
  split; [| split].
  - rewrite <- list_fmap_compose. apply list_fmap_ext. intros i k _. unfold compose. f_equal.
    rewrite Hvars, <- Hpre. by apply fix_vars_spec.
  - rewrite <- list_fmap_compose. trans (concat ((λ b, (λ a, pre ++ b ++ a) <$> leaves (var <$> rest)) <$>
      leaves (var <$> mid))).
    + rewrite <- (full_at_leaves (var <$> mid)), length_fmap, Hmid, <- list_fmap_compose. apply Permutation_refl'. f_equal.
      apply list_fmap_ext. intros i k _. unfold compose, subtree, full_at.
      assert (length (pre ++ set_assignment mid k) = (head + f)%nat) as Hl.
      { rewrite length_app, Hpre, <- Hmid, <- (length_fmap var (set_assignment mid k)), var_set_assignment.
        by rewrite length_fmap. }
      rewrite (assoc_L (++)). rewrite <- Hl, take_app_length, drop_app_length.
      rewrite (set_assignment_vars mid (map_to_mini_vars (var <$> mid))) by (by rewrite var_map_to_mini_vars).
      apply list_fmap_ext. intros j a _. by rewrite <- (assoc_L (++)).
    + unfold subtree. assert (take head vars = pre ∧ drop head vars = mid ++ rest) as [-> ->].
      { split; [done |]. unfold mid, rest. rewrite <- drop_drop. symmetry. apply take_drop. }
      rewrite fmap_app, leaves_app, fmap_concat, <- list_fmap_compose. apply Permutation_refl'. f_equal.
      apply list_fmap_ext. intros i b _. unfold compose. by rewrite <- list_fmap_compose.
  - apply Forall_fmap, Forall_true. intros k. simpl.
    assert (var <$> pre ++ set_assignment mid k ++ rest = var <$> vars) as Hv.
    { rewrite Hvars, !fmap_app, var_set_assignment. done. }
    split; [| split; [lia | done]]. by rewrite <- (length_fmap var), Hv, length_fmap.
Qed.

(** ** Results shared by the properties *)

Section Results.
Context {S : Type} (K : Checker S).
Context (good : S → Prop) (n : Z) (F : formula) (tr : list Lit).
Context `{!LawfulChecker K good n F tr}.
Context {R : Type} (sample : R → Z → Z → Z * R) (fuel : nat).
Context (callback : option Callback) (base : option (list Lit)).
Context (total : Z) (at_ : Z → list Lit) (kin : Search → Prop) (sits : Z → Search → Prop).
Context {En : Enumerable sample fuel total at_ kin sits}.
Context (Hns : never_stops callback) (Htotal : 0 < total < 2 ^ 64).
Context (Hvars : ∀ k, Forall (lit_ok n) (based base (at_ k))).

(** A search of the sequence at its start. *)
Definition fresh (s : Search) : Prop :=
  kin s ∧ sits 0 s ∧ s_total s = total ∧ s_done s = 0.

Lemma sequential_spec (rounds : nat) st r s : good st → fresh s → total <= Z.of_nat rounds →
  ∃ st' c es, sequential_propagate K sample fuel rounds callback base st r s = Some (st', r, c, es) ∧
    good st' ∧ checked F tr callback (assumptions_of base at_ 0 total) c es.
Proof.
  intros Hg (_ & Hs & Ht & Hd) Hr. unfold sequential_propagate.
  destruct (rounds_spec K good n F tr sample fuel callback base total at_ kin sits Hns Htotal Hvars
    rounds [] st r 0 total 0 s 0 []) as (st' & c & es & H1 & H2 & H3); try done; [| lia |].
  - apply (running_start F tr callback base total at_ sits); try done; lia.
  - by exists st', c, es.
Qed.

Lemma par_search_spec (cfg : ParConfig) (ws : list (S * R)) s : ws ≠ [] →
  Z.of_nat (length ws) < 2 ^ 32 → Forall (good ∘ fst) ws → fresh s → 0 < seq_split_samples cfg →
  ∃ tasks, search_tasks cfg (Z.of_nat (length ws)) s = Some tasks ∧
    returns (par_task_step K sample fuel callback base) ws tasks (λ p,
      Forall (good ∘ fst) (workers p) ∧
      ∃ c es, sum_futures (futures p) = Some c ∧ snd <$> log p ≡ₚ es ∧
        checked F tr callback (assumptions_of base at_ 0 total) c es).
Proof.
  intros Hws Hlen Hg (Hk & Hs & Ht & Hd) Hcfg. unfold search_tasks, search_size. rewrite Ht.
  assert (∃ tasks parts, length tasks = length parts ∧
    (if total <=? seq_split_samples cfg then Some [TLoop s 0]
     else if seq_split_samples cfg =? 0 then None
     else Some (TSplit s (u32 (Z.min (total / seq_split_samples cfg) (Z.of_nat (length ws)))) <$>
            seqZ 0 (u32 (Z.min (total / seq_split_samples cfg) (Z.of_nat (length ws)))))) = Some tasks ∧
    (∀ k t, tasks !! k = Some t → search_task F tr callback base total at_ kin sits parts k t []) ∧
    concat ((λ '(a, len), seqZ a len) <$> parts) = seqZ 0 total)
    as (tasks & parts & Hl & Htasks & Hinv & Hcat).
  { destruct (Z.leb_spec total (seq_split_samples cfg)) as [Hle | Hgt].
    - exists [TLoop s 0], [(0, total)]. split; [done |]. split; [done |]. split; [| csimpl; by rewrite app_nil_r].
      intros [| k] t; [| done]. intros [= <-]. exists 0, total. split; [done |]. exists 0.
      apply (running_start F tr callback base total at_ sits); try done; lia.
    - destruct (Z.eqb_spec (seq_split_samples cfg) 0); [lia |].
      set (num := Z.min (total / seq_split_samples cfg) (Z.of_nat (length ws))).
      assert (0 < Z.of_nat (length ws)) by (destruct ws; [done | simpl; lia]).
      assert (1 <= total / seq_split_samples cfg <= total) as Hq.
      { split; [apply Z.div_le_lower_bound; lia |]. apply Z.div_le_upper_bound; nia. }
      assert (u32 num = num) as -> by (apply Z.mod_small; lia).
      exists (TSplit s num <$> seqZ 0 num),
        ((λ i, (part_start total num i, part_todo total num i)) <$> seqZ 0 num).
      split; [by rewrite !length_fmap |]. split; [done |]. split.
      + intros k t Hkt. rewrite list_lookup_fmap in Hkt. apply fmap_Some in Hkt as (i & Hi & ->).
        exists (part_start total num i), (part_todo total num i).
        rewrite list_lookup_fmap, Hi. split; [done |]. apply lookup_seqZ in Hi as [-> Hi].
        repeat split; try done; lia.
      + rewrite <- list_fmap_compose.
        pose proof (seqZ_parts total num (Z.to_nat num)) as Hp. rewrite Z2Nat.id in Hp by lia.
        rewrite decide_False in Hp by lia. apply Hp; lia. }
  exists tasks. split; [done |].
  eapply returns_mono; [| eapply (pool_returns _ _ _ _ _ ws tasks
    (search_tasks_lawful K good n F tr sample fuel callback base total at_ kin sits Hns Htotal Hvars parts));
    try done].
  intros p (vs & Hf & Hvs & Hg' & Hpost & Hown). split; [done |]. rewrite Hf.
  rewrite Hl in *.
  destruct (gather F tr callback base total at_ Htotal parts vs (log p)) as (c & es & H1 & H2 & H3); try done.
  by exists c, es.
Qed.
End Results.

Section TreeResults.
Context {S : Type} (K : Checker S).
Context (good : S → Prop) (n : Z) (F : formula) (tr : list Lit).
Context `{!LawfulChecker K good n F tr}.
Context {R : Type} (sample : R → Z → Z → Z * R) (fuel : nat).

Lemma par_tree_spec (cfg : ParConfig) callback base (ws : list (S * R)) vars head : ws ≠ [] →
  Forall (good ∘ fst) ws → Forall (lit_ok n) vars → (head <= length vars)%nat →
  (length vars - head < 64)%nat → Z.of_nat (length vars) < 2 ^ 32 →
  0 <= tree_split_vars cfg → 0 <= tree_max_fixed_vars cfg <= 31 →
  returns (par_task_step K sample fuel callback base) ws (tree_tasks cfg vars head) (λ p,
    Forall (good ∘ fst) (workers p) ∧
    ∃ c, sum_futures (futures p) = Some c ∧ counts (conflicts_with F tr) (subtree (vars, head)) c).
Proof.
  intros Hws Hg Hv Hh Hl Hlen Hs Hm.
  destruct (tree_tasks_partition cfg vars head Hh Hlen Hs Hm) as (trees & -> & Hp & Hall).
  eapply returns_mono; [| eapply (pool_returns _ _ _ _ _ ws _
    (tree_tasks_lawful K good n F tr sample fuel callback base trees)); try done].
  - intros p (vs & Hf & Hvs & Hg' & Hpost & Hown). split; [done |]. rewrite Hf.
    rewrite length_fmap in Hvs.
    destruct (tree_sum F tr trees vs Hvs) as (c & H1 & H2).
    + intros id v Hid. destruct (Hpost id v Hid) as (x & c & ? & ? & ?). by exists x, c.
    + rewrite Hp. unfold subtree. rewrite length_fmap, length_leaves, length_fmap, length_drop.
      apply Z.pow_lt_mono_r; lia.
    + exists c. split; [done |]. by eapply counts_perm.
  - intros k t Hk. rewrite list_lookup_fmap in Hk. apply fmap_Some in Hk as ([v h] & Hx & ->).
    split; [done |]. exists v, h. split; [done |]. split; [done |].
    destruct (Forall_lookup_1 _ _ _ _ Hall Hx) as (Hvl & Hvh & Hvv). split; [| lia].
    apply lits_ok_vars. rewrite Hvv. by apply lits_ok_vars.
Qed.
End TreeResults.

(** ** The properties *)

(** [sequential_propagate]: on one solver, with a callback that never
    asks to stop (or none), the loop ends, returns the number of assignments
    of the search under which unit propagation fails together with the base
    assumption, and has told the callback the right answer about each of them
    in order. *)
Theorem sequential_propagate_correct {S} (K : Checker S) good n F tr {R} (sample : R → Z → Z → Z * R)
    fuel callback base total at_ kin sits rounds st r s :
  LawfulChecker K good n F tr → Enumerable sample fuel total at_ kin sits →
  never_stops callback → 0 < total < 2 ^ 64 → (∀ k, Forall (lit_ok n) (based base (at_ k))) →
  good st → fresh total kin sits s → total <= Z.of_nat rounds →
  ∃ st' c es, sequential_propagate K sample fuel rounds callback base st r s = Some (st', r, c, es) ∧
    good st' ∧
    counts (conflicts_with F tr) (based base <$> (at_ <$> seqZ 0 total)) c ∧
    told_about F tr callback (based base <$> (at_ <$> seqZ 0 total)) es.
Proof.
  intros HL HE Hns Ht Hv Hg Hf Hr. rewrite <- list_fmap_compose.
  destruct (sequential_spec K good n F tr sample fuel callback base total at_ kin sits Hns Ht Hv
    rounds st r s Hg Hf Hr) as (st' & c & es & H1 & H2 & H3 & H4). eauto 7.
Qed.

(** C1. [ParProp::prop_search] on a search that enumerates its assignments, with
    a callback that does not ask to stop: for every number of workers, every
    interleaving of their rounds and callbacks, and every placement of the tasks, the call
    returns, with the same count as one solver; the callback is told the right
    answer about each assignment exactly once. *)
Theorem par_prop_search_correct {S} (K : Checker S) good n F tr {R} (sample : R → Z → Z → Z * R)
    fuel callback base total at_ kin sits (cfg : ParConfig) (ws : list (S * R)) s :
  LawfulChecker K good n F tr → Enumerable sample fuel total at_ kin sits →
  never_stops callback → 0 < total < 2 ^ 64 → (∀ k, Forall (lit_ok n) (based base (at_ k))) →
  ws ≠ [] → Z.of_nat (length ws) < 2 ^ 32 → Forall (good ∘ fst) ws → fresh total kin sits s →
  0 < seq_split_samples cfg →
  ∃ tasks, search_tasks cfg (Z.of_nat (length ws)) s = Some tasks ∧
    returns (par_task_step K sample fuel callback base) ws tasks (λ p,
      Forall (good ∘ fst) (workers p) ∧
      ∃ c es, sum_futures (futures p) = Some c ∧ snd <$> log p ≡ₚ es ∧
        counts (conflicts_with F tr) (based base <$> (at_ <$> seqZ 0 total)) c ∧
        told_about F tr callback (based base <$> (at_ <$> seqZ 0 total)) es).
Proof.
  intros HL HE Hns Ht Hv Hws Hlen Hg Hf Hc. rewrite <- list_fmap_compose. by eapply par_search_spec.
Qed.

(** C25. [ParProp::prop_tree]: whichever variables it fixes and however the
    subtrees are spread over the workers, the sum of the futures is the number
    of conflicting assignments below the first [head] literals. *)
Theorem par_prop_tree_correct {S} (K : Checker S) good n F tr {R} (sample : R → Z → Z → Z * R)
    fuel callback base (cfg : ParConfig) (ws : list (S * R)) vars head :
  LawfulChecker K good n F tr → ws ≠ [] → Forall (good ∘ fst) ws → Forall (lit_ok n) vars →
  (head <= length vars)%nat → (length vars - head < 64)%nat → Z.of_nat (length vars) < 2 ^ 32 →
  0 <= tree_split_vars cfg → 0 <= tree_max_fixed_vars cfg <= 31 →
  returns (par_task_step K sample fuel callback base) ws (tree_tasks cfg vars head) (λ p,
    Forall (good ∘ fst) (workers p) ∧
    ∃ c, sum_futures (futures p) = Some c ∧
      counts (λ a, conflicts_with F tr (take head vars ++ a)) (leaves (var <$> drop head vars)) c).
Proof.
  intros HL Hws Hg Hv Hh Hl Hlen Hs Hm. eapply returns_mono; [| by eapply par_tree_spec].
  intros p (Hg' & c & H1 & H2). split; [done |]. exists c. split; [done |]. by apply counts_fmap_inv.
Qed.

(** C26. The "lightning fast" tree search counts what the full search counts:
    [prop_tree(vars, 0)] returns the number that [prop_search] returns for a
    [FullSearch] over the same variables. *)
Theorem prop_tree_is_full_search {S} (K : Checker S) good n F tr {R} (sample : R → Z → Z → Z * R)
    fuel rounds st r vars :
  LawfulChecker K good n F tr → good st → Forall (lit_ok n) vars → (length vars < 64)%nat →
  2 ^ Z.of_nat (length vars) <= Z.of_nat rounds →
  ∃ st1 st2 c, simp_prop_tree K st vars 0 = Some (st1, c) ∧
    simp_prop_search K sample fuel rounds None None st r (createFullSearch (var <$> vars)) =
      Some (st2, r, c, []).
Proof.
  intros HL Hg Hv Hl Hr.
  destruct (lc_subtree K good n F tr st vars 0 Hg Hv) as (st1 & c & E1 & _ & Hc); [lia |].
  simpl in Hc. set (vs := var <$> vars) in *.
  assert (length vs = length vars) as Hvs by apply length_fmap. rewrite <- Hvs in *.
  assert (0 < 2 ^ Z.of_nat (length vs) < 2 ^ 64) as Hn.
  { split; [apply Z.pow_pos_nonneg; lia | apply Z.pow_lt_mono_r; lia]. }
  destruct (sequential_spec K good n F tr sample fuel None None (2 ^ Z.of_nat (length vs)) (full_at vs)
    (full_kin vs) (full_sits vs) I Hn) with (rounds := rounds) (st := st) (r := r) (s := createFullSearch vs)
    as (st2 & c2 & es & E2 & _ & Hc2 & He); try done.
  - intros k. simpl. unfold full_at. apply lits_ok_vars.
    rewrite var_set_assignment, var_map_to_mini_vars. by apply lits_ok_vars.
  - split; [| split; [| split]]; try done.
    + split; [done |]. simpl. apply var_map_to_mini_vars.
    + apply full_start.
    + simpl. rewrite Z.shiftl_1_l. apply Z.mod_small. lia.
  - simpl in He. subst es. exists st1, st2, c. split; [done |]. unfold simp_prop_search. rewrite E2.
    assert (c2 = c) as ->; [| done]. eapply counts_fun; [exact Hc2 |].
    eapply counts_perm; [| exact Hc]. unfold assumptions_of. simpl. symmetry. apply full_at_leaves.
Qed.

(** C28. A strong backdoor proves unsatisfiability: if [prop_tree] finds all
    [2 ^ k] assignments of [k] variables conflicting, then no assignment
    satisfies the clauses and the literals already assigned. *)
Theorem strong_backdoor_unsat {S} (K : Checker S) good n F tr st vars st' c :
  LawfulChecker K good n F tr → good st → Forall (lit_ok n) vars → (length vars < 64)%nat →
  simp_prop_tree K st vars 0 = Some (st', c) → c = 2 ^ Z.of_nat (length vars) →
  ¬ satisfiable F (lit_on tr).
Proof.
  intros HL Hg Hv Hl E -> (σ & HF & Htr).
  destruct (lc_subtree K good n F tr st vars 0 Hg Hv) as (st1 & c & E1 & _ & Hc); [lia |].
  unfold simp_prop_tree in E. rewrite E1 in E. injection E as -> ->. simpl in Hc.
  destruct (leaves_cover σ (var <$> vars)) as (a & Ha & Hat).
  assert (UPconfl F (lit_on (tr ++ a))) as Hu.
  { apply (counts_full _ _ _ Hc); [| done]. by rewrite length_leaves, length_fmap. }
  apply (UPconfl_unsat _ _ Hu). exists σ. split; [done |].
  intros l [Hl' | Hl']%elem_of_app; [by apply Htr | by apply Hat].
Qed.
