(* ===== verification/LRU.v ===== *)
(** * The fitness cache

    [util/LRUCache.h], the "almost LRU" cache: a hash map that drops an
    unspecified entry when it is full.  Which entry [begin()] is, is a
    parameter. *)
From S2P Require Import Prelude.

Section LRU.
Context {Key Value : Type} `{Countable Key}.

Record LRUCache := MkLRU {
  max_cache_size : Z;
  map_ : gmap Key Value }.

#[export] Instance LRU_settable : Settable LRUCache := λ c, MkLRU (max_cache_size c) (map_ c).

(** [map_.begin()]: the key of the first entry, if there is one. *)
Context (begin_ : gmap Key Value → option Key).

Definition new_lru (max : Z) : LRUCache := MkLRU max ∅.

Definition lru_size (c : LRUCache) : Z := u32 (Z.of_nat (size (map_ c))).

(** [add]; erasing [begin()] of an empty map is undefined ([None]). *)
Definition lru_add (c : LRUCache) (k : Key) (v : Value) : option LRUCache :=
  m ← (if Z.of_nat (size (map_ c)) =? max_cache_size c
       then k' ← begin_ (map_ c); Some (delete k' (map_ c))
       else Some (map_ c));
  Some (c <| map_ := <[k := v]> m |>).

Definition lru_get (c : LRUCache) (k : Key) : option Value := map_ c !! k.

Definition lru_invalidate (c : LRUCache) : LRUCache := c <| map_ := ∅ |>.

Definition lru_set_max_size (c : LRUCache) (n : Z) : LRUCache := c <| max_cache_size := n |>.

(** ** What the cache guarantees *)

(** [begin()] is an entry, and there is one unless the map is empty. *)
Class BeginOk := {
  begin_in m k : begin_ m = Some k → is_Some (m !! k);
  begin_some m : m ≠ ∅ → is_Some (begin_ m) }.

Definition bounded (c : LRUCache) : Prop :=
  0 < max_cache_size c ∧ Z.of_nat (size (map_ c)) <= max_cache_size c.

Context `{!BeginOk}.

Lemma size_insert_le k v (m : gmap Key Value) : (size (<[k := v]> m) <= S (size m))%nat.
Proof. rewrite map_size_insert. destruct (m !! k); simpl; lia. Qed.

Lemma add_spec c k v : bounded c → ∃ c', lru_add c k v = Some c' ∧ bounded c' ∧
  lru_get c' k = Some v ∧ max_cache_size c' = max_cache_size c ∧
  ∀ k' v', k' ≠ k → lru_get c' k' = Some v' → lru_get c k' = Some v'.
Proof.
  intros [Hpos Hsz]. unfold lru_add, lru_get, bounded.
  destruct (Z.eqb_spec (Z.of_nat (size (map_ c))) (max_cache_size c)) as [He | He].
  - assert (map_ c ≠ ∅) as Hne by (intros E; rewrite E, map_size_empty in He; lia).
    destruct (begin_some _ Hne) as [k0 Hk0]. rewrite Hk0. simpl. eexists. split; [done |]. simpl.
    destruct (begin_in _ _ Hk0) as [v0 Hv0].
    assert (Z.of_nat (size (delete k0 (map_ c))) = max_cache_size c - 1) as Hd.
    { rewrite map_size_delete_Some by done. assert (size (map_ c) ≠ 0%nat); [| lia].
      intros E. rewrite E in He. lia. }
    split; [split; [done |] |].
    + pose proof (size_insert_le k v (delete k0 (map_ c))). lia.
    + rewrite lookup_insert_eq. split; [done |]. split; [done |]. intros k' v' Hne'.
      rewrite lookup_insert_ne by done. intros Hl. by apply lookup_delete_Some in Hl as [_ ?].
  - simpl. eexists. split; [done |]. simpl. split; [split; [done |] |].
    + pose proof (size_insert_le k v (map_ c)). lia.
    + rewrite lookup_insert_eq. split; [done |]. split; [done |]. intros k' v' Hne'.
      by rewrite lookup_insert_ne by done.
Qed.

(** The operations of the interface. *)
Inductive LruOp := OpAdd (k : Key) (v : Value) | OpInvalidate.

Definition lru_op (c : LRUCache) (o : LruOp) : option LRUCache :=
  match o with OpAdd k v => lru_add c k v | OpInvalidate => Some (lru_invalidate c) end.

Fixpoint lru_ops (c : LRUCache) (os : list LruOp) : option LRUCache :=
  match os with [] => Some c | o :: os => c ← lru_op c o; lru_ops c os end.

(** The value a key was last given since the cache was last emptied. *)
Fixpoint last_value (k : Key) (os : list LruOp) (acc : option Value) : option Value :=
  match os with
  | [] => acc
  | OpAdd k' v :: os => last_value k os (if decide (k' = k) then Some v else acc)
  | OpInvalidate :: os => last_value k os None
  end.

Lemma ops_spec os : ∀ c acc, bounded c →
  (∀ k v, lru_get c k = Some v → acc k = Some v) →
  ∃ c', lru_ops c os = Some c' ∧ bounded c' ∧
    ∀ k v, lru_get c' k = Some v → last_value k os (acc k) = Some v.
Proof.
  induction os as [| [k v |] os IH]; intros c acc Hb Ha; cbn [lru_ops lru_op last_value].
  - by exists c.
  - destruct (add_spec c k v Hb) as (c1 & -> & Hb1 & Hk & _ & Ho). simpl.
    destruct (IH c1 (λ k', if decide (k = k') then Some v else acc k') Hb1) as (c2 & -> & Hb2 & H2).
    { intros k' v' Hg. case_decide as Hd; [subst; congruence |]. apply Ha, Ho; [congruence | done]. }
    by exists c2.
  - simpl. destruct (IH (lru_invalidate c) (λ _, None)) as (c2 & -> & Hb2 & H2).
    { destruct Hb. split; simpl; [done |]. rewrite map_size_empty. lia. }
    { intros k v. unfold lru_get. simpl. by rewrite lookup_empty. }
    by exists c2.
Qed.
End LRU.

Arguments LRUCache Key Value {_ _}.
Arguments LruOp Key Value : clear implicits.

(** ** The properties *)

(** Any sequence of operations on a cache of positive capacity succeeds
    and leaves at most that many entries; what a lookup then finds is the value
    last stored under the key (an entry may be lost, never wrong). *)
Theorem lru_correct {Key Value} `{Countable Key} (begin_ : gmap Key Value → option Key)
    `{!BeginOk begin_} (max : Z) (os : list (LruOp Key Value)) :
  0 < max →
  ∃ c, lru_ops begin_ (new_lru max) os = Some c ∧ Z.of_nat (size (map_ c)) <= max_cache_size c ∧
    ∀ k v, lru_get c k = Some v → last_value k os None = Some v.
Proof.
  intros Hmax. destruct (ops_spec begin_ os (new_lru max) (λ _, None)) as (c & H1 & [H2 H3] & H4).
  - split; simpl; [done |]. rewrite map_size_empty. lia.
  - intros k v. unfold lru_get. simpl. by rewrite lookup_empty.
  - by exists c.
Qed.

(** The bound needs the check [size == max] to be met: a cache of capacity
    0 erases [begin()] of an empty map on its first [add], and lowering the
    maximum below the size switches the eviction off for good. *)
Theorem lru_unbounded {Key Value} `{Countable Key} (begin_ : gmap Key Value → option Key)
    (c : LRUCache Key Value) n k v :
  (∀ m : gmap Key Value, m = ∅ → begin_ m = None) → 0 <= n →
  lru_add begin_ (new_lru 0) k v = None ∧
  (n < Z.of_nat (size (map_ c)) → lru_get c k = None →
   ∃ c', lru_add begin_ (lru_set_max_size c n) k v = Some c' ∧
     size (map_ c') = S (size (map_ c)) ∧ max_cache_size c' = n).
Proof.
  intros Hb Hn. split.
  - unfold lru_add, new_lru. simpl. rewrite map_size_empty. simpl. by rewrite Hb.
  - intros Hlt Hk. unfold lru_add, lru_set_max_size. simpl.
    destruct (Z.eqb_spec (Z.of_nat (size (map_ c))) n); [lia |]. simpl.
    eexists. split; [done |]. simpl. split; [| done]. by apply map_size_insert_None.
Qed.

Definition begin_first {K} `{Countable K} {V} (m : gmap K V) : option K := fst <$> head (map_to_list m).

#[export] Instance begin_first_ok {K} `{Countable K} {V} : BeginOk (begin_first (K := K) (V := V)).
Proof.
  split; unfold begin_first.
  - intros m k Hk. destruct (map_to_list m) as [| [k' v] l] eqn:E; simplify_eq/=.
    exists v. apply elem_of_map_to_list. rewrite E. by left.
  - intros m Hm. destruct (map_to_list m) as [| x l] eqn:E; [| by eexists].
    destruct Hm. by apply map_to_list_empty_iff.
Qed.

Lemma lru_correct_witness : ∃ c, lru_ops begin_first (new_lru 2)
    [OpAdd 1 true; OpAdd 2 false; OpAdd 3 true; OpAdd 1 false] = Some c ∧
  Z.of_nat (size (map_ c)) <= max_cache_size c ∧
  ∀ k v, lru_get c k = Some v →
    last_value k [OpAdd 1 true; OpAdd 2 false; OpAdd 3 true; OpAdd 1 false] None = Some v.
Proof. apply (lru_correct begin_first 2). lia. Defined.

Lemma lru_unbounded_witness : ∃ c',
  lru_add begin_first (lru_set_max_size (MkLRU 2 (<[1 := true]> (<[2 := false]> ∅))) 1) 3 true = Some c' ∧
  size (map_ c') = 3%nat ∧ max_cache_size c' = 1.
Proof.
  refine (proj2 (lru_unbounded begin_first (MkLRU 2 (<[1 := true]> (<[2 := false]> ∅))) 1 3 true _ _) _ _);
    [by intros m -> | done | vm_compute; done | done].
Defined.
