(* ===== verification/Fitness.v ===== *)
(** * Fitness values

    [core/evol/instance/Fitness]: the quality of a set of variables and the
    order by which the evolutionary algorithms compare two of them.
    [std::pow(2., n)] is exact; [std::log2] is a parameter. *)
From Stdlib Require Import SpecFloat.
From S2P Require Import Prelude Double DoubleSpec.

Record Fitness := MkFitness {
  rho : double;
  f_size : Z;
  pow_nr : Z;
  f_samples : Z }.

#[export] Instance Fitness_inhabited : Inhabited Fitness := populate (MkFitness inhabitant 0 0 0).

Definition d_one : double := d_of_Z 1.

Definition pow2 (n : Z) : double := d_scale 1 n.

(** [int32_t] of an unsigned 32-bit value. *)
Definition i32 (z : Z) : Z := (z + 2 ^ 31) mod 2 ^ 32 - 2 ^ 31.

Definition can_calc (f : Fitness) : bool := (f_size f <? 62) && (pow_nr f <? 62).

Section Order.
Context (log2 : double → double).

(** [operator double]. *)
Definition fit_value (f : Fitness) : double :=
  log2 (d_add (d_mul (rho f) (pow2 (f_size f))) (d_mul (d_sub d_one (rho f)) (pow2 (pow_nr f)))).

Definition EPS : double := d_const 1 100000000.

Definition CRIT_SZ_DIFF : Z := 32.

(** [operator<]. *)
Definition fit_lt (a b : Fitness) : bool :=
  if can_calc a && can_calc b then d_ltb (fit_value a) (fit_value b)
  else if (f_size a =? 0) || d_ltb (rho a) EPS || (u32 (f_size b + CRIT_SZ_DIFF) <? f_size a) then false
  else if (f_size b =? 0) || d_ltb (rho b) EPS || (u32 (f_size a + CRIT_SZ_DIFF) <? f_size b) then true
  else
    let min_pow_r := i32 (Z.min (f_size a) (f_size b)) in
    let a_val := d_mul (rho a) (pow2 (u32 (f_size a - min_pow_r))) in
    let b_val := d_mul (rho b) (pow2 (u32 (f_size b - min_pow_r))) in
    let p := i32 (pow_nr a - min_pow_r) in
    if -8 <? p then
      d_ltb (d_add a_val (d_mul (d_sub d_one (rho a)) (pow2 p)))
            (d_add b_val (d_mul (d_sub d_one (rho b)) (pow2 p)))
    else d_ltb a_val b_val.
End Order.

(** ** The properties *)

(** Two instances of one algorithm (same [omega_x]) are never each better
    than the other. *)
Theorem fitness_asymmetric log2 a b : pow_nr a = pow_nr b → 0 <= f_size a < 2 ^ 31 → 0 <= f_size b < 2 ^ 31 →
  fit_lt log2 a b = true → fit_lt log2 b a = false.
Proof.
  intros Hp Ha Hb. unfold fit_lt. rewrite (andb_comm (can_calc b)), (Z.min_comm (f_size b)), Hp.
  case_match_goal; [apply d_ltb_asym |].
  assert (u32 (f_size a + CRIT_SZ_DIFF) = f_size a + 32) as -> by (apply Z.mod_small; lia).
  assert (u32 (f_size b + CRIT_SZ_DIFF) = f_size b + 32) as -> by (apply Z.mod_small; lia).
  destruct (f_size a =? 0), (d_ltb (rho a) EPS); try done.
  destruct (f_size b =? 0), (d_ltb (rho b) EPS); simpl; try done.
  destruct (Z.ltb_spec (f_size b + 32) (f_size a)); [done |].
  destruct (Z.ltb_spec (f_size a + 32) (f_size b)); [done |]. simpl.
  case_match_goal; apply d_ltb_asym.
Qed.

(** As long as all sizes and [omega_x] are below 62 and no value is NaN the
    order is a strict weak order, as sorting a population requires. *)
Theorem fitness_weak_order log2 a b c : can_calc a = true → can_calc b = true → can_calc c = true →
  d_is_nan (fit_value log2 a) = false → d_is_nan (fit_value log2 b) = false →
  d_is_nan (fit_value log2 c) = false →
  (fit_lt log2 a b = true → fit_lt log2 b a = false) ∧
  (fit_lt log2 a b = false → fit_lt log2 b c = false → fit_lt log2 a c = false).
Proof.
  intros Ha Hb Hc Na Nb Nc. unfold fit_lt. rewrite Ha, Hb, Hc. simpl.
  split; [apply d_ltb_asym | by apply d_ltb_ntrans].
Qed.

(** Beyond that it is not: a set without conflicts of 40 variables, a
    backdoor of 20 variables and one of 70 are each better than the next, in a
    circle, so [std::sort] and [std::min_element] are called with a comparator
    that violates their requirement. *)
Theorem fitness_order_cyclic log2 : d_ltb (log2 (pow2 10)) (log2 (pow2 20)) = true →
  let a := MkFitness (d_of_Z 0) 40 10 1000 in
  let b := MkFitness d_one 20 10 1000 in
  let c := MkFitness d_one 70 10 1000 in
  fit_lt log2 a b = true ∧ fit_lt log2 b c = true ∧ fit_lt log2 c a = true.
Proof.
  intros Hlog a b c. split; [| split; vm_compute; reflexivity].
  change (fit_lt log2 a b) with (d_ltb (fit_value log2 a) (fit_value log2 b)). unfold fit_value.
  assert (d_add (d_mul (rho a) (pow2 (f_size a))) (d_mul (d_sub d_one (rho a)) (pow2 (pow_nr a))) = pow2 10)
    as -> by (vm_compute; reflexivity).
  assert (d_add (d_mul (rho b) (pow2 (f_size b))) (d_mul (d_sub d_one (rho b)) (pow2 (pow_nr b))) = pow2 20)
    as -> by (vm_compute; reflexivity).
  exact Hlog.
Qed.

Lemma fitness_asymmetric_witness :
  fit_lt (λ x, x) (MkFitness d_one 20 10 1000) (MkFitness d_one 70 10 1000) = true ∧
  fit_lt (λ x, x) (MkFitness d_one 70 10 1000) (MkFitness d_one 20 10 1000) = false.
Proof.
  split; [vm_compute; reflexivity |].
  apply (fitness_asymmetric (λ x, x) (MkFitness d_one 20 10 1000) (MkFitness d_one 70 10 1000));
    [reflexivity | simpl; lia | simpl; lia | vm_compute; reflexivity].
Defined.

Lemma fitness_weak_order_witness :
  fit_lt (λ x, x) (MkFitness d_one 30 10 1000) (MkFitness d_one 10 10 1000) = false.
Proof.
  apply (fitness_weak_order (λ x, x) (MkFitness d_one 30 10 1000) (MkFitness d_one 20 10 1000)
    (MkFitness d_one 10 10 1000)); vm_compute; reflexivity.
Defined.

Lemma fitness_order_cyclic_witness :
  fit_lt (λ x, x) (MkFitness (d_of_Z 0) 40 10 1000) (MkFitness d_one 20 10 1000) = true.
Proof. apply (fitness_order_cyclic (λ x, x)). vm_compute. reflexivity. Defined.
