(* ===== verification/Instance.v ===== *)
(** * Instances of the evolutionary algorithms

    [core/evol/instance]: a set of variables with a cached fitness, and the
    data all instances of one algorithm share.  The propagation engine, the
    thread's generator and the unspecified order of the cache are given by an
    [EvolEnv]; its laws are in [InstanceSpec]. *)
From S2P Require Import Prelude Lit Double Domain Search LRU Fitness.

(** What the instances use of the engine and the generator, over the state [W]
    of both.  [real] is [sample<double>(0, 1)]. *)
Record EvolEnv (W : Type) := MkEvolEnv {
  ev_sample : W → Z → Z → Z * W;
  ev_real : W → double * W;
  ev_tree : W → list Lit → nat → option (W * Z);
  ev_search : W → list Lit → Search → option (W * Z);
  ev_log2 : double → double;
  ev_begin : gmap (list bool) Fitness → option (list bool) }.

Arguments MkEvolEnv {W} _ _ _ _ _ _.
Arguments ev_sample {W} _ _ _ _.
Arguments ev_real {W} _ _.
Arguments ev_tree {W} _ _ _ _.
Arguments ev_search {W} _ _ _ _.
Arguments ev_log2 {W} _ _.
Arguments ev_begin {W} _ _.

Record SamplingConfig := MkSampling {
  max_vars_fs : Z;
  base_samples : Z;
  max_scale_steps : nat;
  scale : double;
  tree : bool }.

Record SharedData := MkShared {
  sampling_config : SamplingConfig;
  cache : LRUCache (list bool) Fitness;
  search_space : SearchSpace;
  omega_x : Z;
  base_assumption : list Lit }.

#[export] Instance SharedData_settable : Settable SharedData := λ s,
  MkShared (sampling_config s) (cache s) (search_space s) (omega_x s) (base_assumption s).

#[export] Instance SearchSpace_settable : Settable SearchSpace := λ s,
  MkSpace (countable_search_space s) (search_space_size s) (inaccurate_visited_points s).

Record Instance_ := MkInstance {
  cached : bool;
  mask : list bool;
  fit_ : Fitness }.

#[export] Instance Instance_settable : Settable Instance_ := λ i,
  MkInstance (cached i) (mask i) (fit_ i).

Section Instance.
Context {W : Type} (env : EvolEnv W).

(** [_preprocess->var_view()]. *)
Context (view : list Z).

Definition num_vars : Z := Z.of_nat (length view).

(** The constructor: one random variable. *)
Definition new_instance (w : W) : Instance_ * W :=
  let '(x, w) := ev_sample env w 0 (u32 (num_vars - 1)) in
  (MkInstance false (flip (mask_resize [] (length view)) x) inhabitant, w).

(** [get_vars().flip(pos)]: a mutable access forgets the fitness. *)
Definition touch (i : Instance_) : Instance_ := i <| cached := false |>.

Definition flip_var (i : Instance_) (pos : Z) : Instance_ :=
  touch i <| mask := flip (mask i) pos |>.

Definition clone_instance (i : Instance_) : Instance_ := i.

Definition instance_size (i : Instance_) : Z := u32 (mask_size (mask i)).

(** [1ULL << size]: undefined from 64 on. *)
Definition shift64 (size : Z) : option Z := if size <? 64 then Some (2 ^ size) else None.

(** [uint32_t(samples * scale)]: undefined out of range. *)
Definition scale_samples (samples : Z) (sc : double) : option Z :=
  z ← d_trunc (d_mul (d_of_Z samples) sc);
  if (0 <=? z) && (z <? 2 ^ 32) then Some z else None.

(** Choosing between a full and a random search; the flag is [full_search]. *)
Definition choose_search (w : W) (m : list bool) (size samples : Z) :
    option (Search * bool * Z * W) :=
  if (size <=? MAX_VARS_FOR_FULL_SEARCH) && (2 ^ size <=? samples) then
    Some (createFullSearch_mask view m, true, 2 ^ size, w)
  else
    let '(s, w) := createRandomSearch (ev_sample env) w (map_to_vars view m) samples in
    Some (s, false, samples, w).

(** The first part of [_calc_fitness(samples, steps_left)]: the engine is
    asked; the result has the conflicts, the samples and [full_search]. *)
Definition count_conflicts (sh : SharedData) (w : W) (m : list bool) (samples : Z) :
    option (Z * Z * bool * W) :=
  let size := u32 (mask_size m) in
  if size <=? max_vars_fs (sampling_config sh) then
    samples ← shift64 size;
    if tree (sampling_config sh) then
      '(w, conflicts) ← ev_tree env w
        (concat_lits (base_assumption sh) (map_to_mini_vars (map_to_vars view m)))
        (length (base_assumption sh));
      Some (conflicts, samples, true, w)
    else
      '(s, _, samples, w) ← choose_search w m size samples;
      '(w, conflicts) ← ev_search env w (base_assumption sh) s;
      Some (conflicts, samples, true, w)
  else
    '(s, full, samples, w) ← choose_search w m size samples;
    '(w, conflicts) ← ev_search env w (base_assumption sh) s;
    Some (conflicts, samples, full, w).

Definition set_fitness (sh : SharedData) (i : Instance_) (conflicts samples : Z) : Instance_ :=
  i <| fit_ := MkFitness (d_div (d_of_Z conflicts) (d_of_Z samples)) (u32 (mask_size (mask i)))
                 (omega_x sh) (u32 samples) |>
    <| cached := true |>.

(** [_calc_fitness(samples, steps_left)]. *)
Fixpoint calc_fitness (steps_left : nat) (sh : SharedData) (w : W) (i : Instance_) (samples : Z) :
    option (Instance_ * W) :=
  '(conflicts, samples, full, w) ← count_conflicts sh w (mask i) samples;
  let i := set_fitness sh i conflicts samples in
  match steps_left with
  | O => Some (i, w)
  | S steps_left =>
      if negb full && d_eqb (rho (fit_ i)) d_one then
        samples ← scale_samples samples (scale (sampling_config sh));
        calc_fitness steps_left sh w (i <| cached := false |>) samples
      else Some (i, w)
  end.

(** [fitness()]. *)
Definition fitness (sh : SharedData) (w : W) (i : Instance_) :
    option (Fitness * Instance_ * SharedData * W) :=
  if cached i then Some (fit_ i, i, sh, w)
  else
    match lru_get (cache sh) (mask i) with
    | Some f => Some (f, i <| fit_ := f |> <| cached := true |>, sh, w)
    | None =>
        '(i, w) ← calc_fitness (max_scale_steps (sampling_config sh)) sh w i
                    (base_samples (sampling_config sh));
        c ← lru_add (ev_begin env) (cache sh) (mask i) (fit_ i);
        let sp := search_space sh in
        Some (fit_ i, i <| cached := true |>,
              sh <| cache := c |>
                 <| search_space := sp <| inaccurate_visited_points :=
                      u64 (inaccurate_visited_points sp + 1) |> |>, w)
    end.

(** [fitness() const]: terminates the program when nothing is cached. *)
Definition fitness_const (sh : SharedData) (i : Instance_) : option Fitness :=
  if cached i then Some (fit_ i) else lru_get (cache sh) (mask i).

Definition is_cached (sh : SharedData) (i : Instance_) : bool :=
  cached i || bool_decide (is_Some (lru_get (cache sh) (mask i))).

Definition is_sbs (i : Instance_) : bool :=
  (f_size (fit_ i) <=? MAX_VARS_FOR_FULL_SEARCH) && d_eqb (rho (fit_ i)) d_one &&
  (f_samples (fit_ i) =? 2 ^ f_size (fit_ i)).

(** [operator<(Instance&, Instance&)]: computes both fitnesses. *)
Definition instance_lt (sh : SharedData) (w : W) (a b : Instance_) :
    option (bool * Instance_ * Instance_ * SharedData * W) :=
  '(fa, a, sh, w) ← fitness sh w a;
  '(fb, b, sh, w) ← fitness sh w b;
  Some (fit_lt (ev_log2 env) fa fb, a, b, sh, w).
End Instance.
