(* ===== verification/InstanceSpec.v ===== *)
(** * What a fitness value says

    For an engine that counts correctly: the fitness of a small set is the
    exact ratio of its conflicting assignments, and an instance that claims to
    be a strong backdoor is one, so the formula is unsatisfiable under the base
    assumption.  Both hold through the cache and the rescaling of samples. *)
From S2P Require Import Prelude Lit UnitProp Double Domain Search SearchSpec Solver Propagate.
From S2P Require Import PropCheck Pool PoolSpec Engine EngineSpec LRU Fitness Instance.

(** ** The laws of the environment *)

Section Laws.
Context {W : Type} (env : EvolEnv W).
Context (good : W → Prop) (n : Z) (F : formula) (tr : list Lit).

Class LawfulEnv := {
  le_sample w lo hi : good w → good (ev_sample env w lo hi).2 ∧
    (lo <= hi → lo <= (ev_sample env w lo hi).1 <= hi);
  le_real w : good w → good (ev_real env w).2;
  le_tree w vars head : good w → Forall (lit_ok n) vars → (length vars - head < 64)%nat →
    ∃ w' c, ev_tree env w vars head = Some (w', c) ∧ good w' ∧
      counts (λ a, conflicts_with F tr (take head vars ++ a)) (leaves (var <$> drop head vars)) c;
  le_full w base vars : good w → Forall (lit_ok n) base → Forall (λ v, 0 <= v < n) vars →
    (length vars <= 63)%nat →
    ∃ w' c, ev_search env w base (createFullSearch vars) = Some (w', c) ∧ good w' ∧
      counts (λ a, conflicts_with F tr (base ++ a)) (leaves vars) c;
  le_random w base a total : good w → Forall (lit_ok n) base → Forall (lit_ok n) a →
    0 <= total < 2 ^ 64 →
    ∃ w' c, ev_search env w base (base_search total a KRandom) = Some (w', c) ∧ good w' ∧ 0 <= c;
  le_begin : BeginOk (ev_begin env) }.
End Laws.

(** ** One solver and its generator *)

Section SimpEnv.
Context {S R : Type} (K : Checker S) (sample : R → Z → Z → Z * R) (real : R → double * R).
Context (log2 : double → double) (begin_ : gmap (list bool) Fitness → option (list bool)).

Definition simp_env : EvolEnv (S * R) := MkEvolEnv
  (λ '(st, r) lo hi, let '(x, r) := sample r lo hi in (x, (st, r)))
  (λ '(st, r), let '(x, r) := real r in (x, (st, r)))
  (λ '(st, r) vars head, '(st, c) ← simp_prop_tree K st vars head; Some ((st, r), c))
  (λ '(st, r) base s,
     '(st, r, c, _) ← simp_prop_search K sample 0 (Datatypes.S (Z.to_nat (s_total s))) None (Some base) st r s;
     Some ((st, r), c))
  log2 begin_.

Context (good : S → Prop) (n : Z) (F : formula) (tr : list Lit).
Context `{!LawfulChecker K good n F tr} `{!BeginOk begin_}.
Context (Hsample : ∀ r lo hi, lo <= hi → lo <= (sample r lo hi).1 <= hi).

Lemma set_random_vars a : ∀ r, var <$> (set_random sample r a).1 = var <$> a.
Proof.
  induction a as [| l a IH]; intros r; [done |]. cbn [set_random].
  destruct (sample r 0 1) as [b r1]. specialize (IH r1). destruct (set_random sample r1 a) as [a' r2].
  cbn [fst] in *. csimpl. by rewrite var_mkLit, IH.
Qed.

Lemma random_loop (rounds : nat) : ∀ told st r s c base, good st → s_kind s = KRandom →
  Forall (lit_ok n) base → Forall (lit_ok n) (s_assignment s) →
  0 <= c → 0 <= s_done s < s_total s → c + (s_total s - s_done s) < 2 ^ 64 → s_total s < 2 ^ 64 →
  s_total s - s_done s <= Z.of_nat rounds →
  ∃ st' r' c', propagate_loop K sample 0 rounds None (Some base) told st r s c = Some (st', r', c', told) ∧
    good st' ∧ c <= c' <= c + (s_total s - s_done s).
Proof using LawfulChecker0.
  induction rounds as [| rounds IH]; intros told st r s c base Hg Hk Hb Ha Hc Hd Hs Ht Hr; [lia |].
  cbn [propagate_loop]. unfold round. cbn [assumption].
  destruct (lc_check K good n F tr st (concat_lits base (s_assignment s)) Hg) as (st1 & b & -> & Hg1 & _).
  { by apply Forall_app. }
  cbn. rewrite app_nil_r.
  assert (u64 (c + Z.b2z (negb b)) = c + Z.b2z (negb b)) as -> by (apply Z.mod_small; destruct b; simpl; lia).
  unfold search_next. assert (u64 (s_total s - 1) = s_total s - 1) as -> by (apply Z.mod_small; lia).
  destruct (Z.eqb_spec (s_total s) 0); [lia |]. rewrite orb_false_r.
  destruct (Z.eqb_spec (s_done s) (s_total s - 1)) as [He | He].
  - cbn. eexists _, _, _. split; [done |]. split; [done |]. destruct b; simpl; lia.
  - unfold search_advance. rewrite Hk. pose proof (set_random_vars (s_assignment s) r) as Hv.
    destruct (set_random sample r (s_assignment s)) as [a r1]. cbn in *.
    assert (u64 (s_done s + 1) = s_done s + 1) as Hd1 by (apply Z.mod_small; lia). 
    match goal with |- context [propagate_loop _ _ _ _ _ _ _ _ _ ?s' ?c'] =>
      destruct (IH told st1 r1 s' c' base) as (st2 & r2 & c2 & -> & Hg2 & Hc2); simpl in *; rewrite ?Hd1 in * end;
      try done; try (destruct b; simpl; lia).
    + apply lits_ok_vars. rewrite Hv. by apply lits_ok_vars.
    + eexists _, _, _. split; [done |]. split; [done |]. destruct b; simpl in *; lia.
Qed.

#[export] Instance simp_env_lawful : LawfulEnv simp_env (good ∘ fst) n F tr.
Proof using LawfulChecker0 BeginOk0 Hsample.
  split; unfold compose; simpl.
  - intros [st r] lo hi Hg. specialize (Hsample r lo hi). destruct (sample r lo hi) as [x r1].
    simpl in *. by split.
  - intros [st r] Hg. by destruct (real r).
  - intros [st r] vars head Hg Hv Hl. unfold simp_prop_tree. simpl in Hg.
    destruct (lc_subtree K good n F tr st vars head Hg Hv Hl) as (st' & c & -> & Hg' & Hc).
    by eexists (_, _), _.
  - intros [st r] base vars Hg Hb Hv Hl. simpl in Hg.
    assert (0 < 2 ^ Z.of_nat (length vars) < 2 ^ 64) as Hn.
    { split; [apply Z.pow_pos_nonneg; lia | apply Z.pow_lt_mono_r; lia]. }
    assert (s_total (createFullSearch vars) = 2 ^ Z.of_nat (length vars)) as Ht.
    { simpl. rewrite Z.shiftl_1_l. apply Z.mod_small. lia. }
    destruct (sequential_spec K good n F tr sample 0 None (Some base) (2 ^ Z.of_nat (length vars)) (full_at vars)
      (full_kin vars) (full_sits vars) I Hn) with (rounds := Datatypes.S (Z.to_nat (s_total (createFullSearch vars))))
      (st := st) (r := r) (s := createFullSearch vars) as (st' & c & es & E & Hg' & Hc & _); try done.
    + intros k. simpl. apply Forall_app. split; [done |]. unfold full_at. apply lits_ok_vars.
      by rewrite var_set_assignment, var_map_to_mini_vars.
    + split; [split; [done | apply var_map_to_mini_vars] |]. split; [| done]. apply full_start.
    + rewrite Ht. lia.
    + unfold simp_prop_search. rewrite E. cbn. eexists (_, _), _. split; [done |]. split; [done |].
      apply counts_fmap_inv. unfold assumptions_of in Hc. rewrite list_fmap_compose in Hc.
      eapply counts_perm; [| exact Hc]. rewrite (full_at_leaves vars). done.
  - intros [st r] base a total Hg Hb Ha Ht. simpl in Hg.
    destruct (decide (total = 0)) as [-> | Hne].
    { destruct (lc_check K good n F tr st (concat_lits base a) Hg) as (st1 & b & E & Hg1 & _).
      { by apply Forall_app. }
      unfold simp_prop_search, sequential_propagate.
      cbn [s_total base_search Z.to_nat propagate_loop]. unfold round.
      cbn [assumption s_assignment base_search]. rewrite E. cbn.
      eexists (_, _), _. split; [done |]. split; [done |]. by destruct b. }
    destruct (random_loop (Datatypes.S (Z.to_nat total)) [] st r (base_search total a KRandom) 0 base)
      as (st' & r' & c & E & Hg' & Hc); simpl; try done; try lia.
    unfold simp_prop_search, sequential_propagate. simpl s_total. rewrite E. cbn.
    eexists (_, _), _. split; [done |]. split; [done |]. simpl in Hc. lia.
  - done.
Qed.
End SimpEnv.

(** ** Fitness values that are sound *)

Section FitnessSpec.
Context {W : Type} (env : EvolEnv W).
Context (good : W → Prop) (n : Z) (F : formula) (tr : list Lit).
Context `{!LawfulEnv env good n F tr}.
Context (view : list Z) (Hview : Forall (λ v, 0 <= v < n) view).

(** The variables of a mask are a strong backdoor under [base]. *)
Definition backdoor (base : list Lit) (m : list bool) : Prop :=
  ∀ a, a ∈ leaves (map_to_vars view m) → conflicts_with F tr (base ++ a).

Definition sbs_fit (f : Fitness) : bool :=
  (f_size f <=? MAX_VARS_FOR_FULL_SEARCH) && d_eqb (rho f) d_one && (f_samples f =? 2 ^ f_size f).

Definition fit_sound (base : list Lit) (m : list bool) (f : Fitness) : Prop :=
  sbs_fit f = true → backdoor base m.

Record SharedOk (sh : SharedData) : Prop := {
  so_base : Forall (lit_ok n) (base_assumption sh);
  so_fs : max_vars_fs (sampling_config sh) <= MAX_VARS_FOR_FULL_SEARCH;
  so_cache : ∀ m f, lru_get (cache sh) m = Some f → fit_sound (base_assumption sh) m f;
  so_bound : bounded (cache sh) }.

Definition mask_ok (m : list bool) : Prop := length m = length view ∧ Z.of_nat (length view) < 2 ^ 32.

Lemma set_positions_range m i k : k ∈ set_positions m i → i <= k < i + Z.of_nat (length m).
Proof.
  revert i. induction m as [| b m IH]; intros i; cbn [set_positions]; [by intros ?%elem_of_nil |].
  rewrite elem_of_app. intros [H | H%IH]; [destruct b |]; simpl length; [| by apply elem_of_nil in H | lia].
  apply list_elem_of_singleton in H. lia.
Qed.

Lemma mask_vars_ok m : mask_ok m → Forall (λ v, 0 <= v < n) (map_to_vars view m).
Proof.
  intros [Hm _]. unfold map_to_vars. apply Forall_fmap, Forall_forall. intros k Hk%set_positions_range.
  unfold compose, view_get, zget. destruct (Z.ltb_spec k 0); [lia |].
  destruct (lookup_lt_is_Some_2 view (Z.to_nat k)) as [v Hv]; [lia |]. rewrite Hv. simpl.
  by eapply Forall_lookup_1 in Hview.
Qed.

Lemma length_map_to_vars m : Z.of_nat (length (map_to_vars view m)) = mask_size m.
Proof. unfold map_to_vars. rewrite length_fmap. apply length_set_positions. Qed.

Lemma mask_size_bound m : mask_ok m → 0 <= mask_size m < 2 ^ 32.
Proof.
  intros [Hm Hv]. unfold mask_size. pose proof (length_filter (λ b, b = true) m). lia.
Qed.

Lemma mini_vars_ok vs : Forall (λ v, 0 <= v < n) vs → Forall (lit_ok n) (map_to_mini_vars vs).
Proof. intros H. apply lits_ok_vars. by rewrite var_map_to_mini_vars. Qed.

Lemma full_search_mask m : createFullSearch_mask view m = createFullSearch (map_to_vars view m).
Proof.
  unfold createFullSearch_mask, createFullSearch, total_size. by rewrite length_map_to_vars.
Qed.

Lemma random_search_ok w vs samples : good w → Forall (λ v, 0 <= v < n) vs →
  ∃ a w', createRandomSearch (ev_sample env) w vs samples = (base_search samples a KRandom, w') ∧
    good w' ∧ Forall (lit_ok n) a.
Proof using LawfulEnv0.
  intros Hg Hv. unfold createRandomSearch, vars_assignment.
  pose proof (mini_vars_ok vs Hv) as Ha. revert w Hg Ha.
  assert (∀ a w, good w → Forall (lit_ok n) a → ∃ a' w', set_random (ev_sample env) w a = (a', w') ∧
    good w' ∧ Forall (lit_ok n) a') as H.
  { induction a as [| l a IH]; intros w Hg Ha; cbn [set_random]; [by exists [], w |].
    apply Forall_cons in Ha as [Hl Ha]. pose proof (le_sample env good n F tr w 0 1 Hg) as [Hg1 _].
    destruct (ev_sample env w 0 1) as [b w1]. destruct (IH w1 Hg1 Ha) as (a' & w' & -> & Hg' & Ha').
    eexists _, _. split; [done |]. split; [done |]. constructor; [| done].
    unfold lit_ok. by rewrite var_mkLit. }
  intros w Hg Ha. destruct (H _ w Hg Ha) as (a' & w' & -> & ? & ?). by exists a', w'.
Qed.

(** What one call of the engine establishes. *)
Definition counted (base : list Lit) (m : list bool) (c samples : Z) (full : bool) : Prop :=
  0 <= c ∧
  (mask_size m <= 63 → full = false → samples < 2 ^ mask_size m) ∧
  (full = true → samples = 2 ^ mask_size m ∧ mask_size m <= 63 ∧
    counts (λ a, conflicts_with F tr (base ++ a)) (leaves (map_to_vars view m)) c).

Lemma full_engine w base m : good w → mask_ok m → Forall (lit_ok n) base → mask_size m <= 63 →
  ∃ w' c, ev_search env w base (createFullSearch_mask view m) = Some (w', c) ∧ good w' ∧
    counted base m c (2 ^ mask_size m) true.
Proof.
  intros Hg Hm Hb Hs. rewrite full_search_mask. pose proof (length_map_to_vars m) as Hl.
  destruct (le_full env good n F tr w base (map_to_vars view m) Hg Hb (mask_vars_ok m Hm))
    as (w' & c & E & Hg' & Hc); [lia |].
  exists w', c. split; [done |]. split; [done |]. pose proof (counts_bounds _ _ _ Hc) as Hbd.
  rewrite length_leaves, Hl in Hbd. by repeat split; try lia.
Qed.

Lemma choose_search_spec w base m samples : good w → mask_ok m → Forall (lit_ok n) base →
  0 <= samples < 2 ^ 64 →
  ∃ s full samples' w1 w2 c, choose_search env view w m (mask_size m) samples = Some (s, full, samples', w1) ∧
    ev_search env w1 base s = Some (w2, c) ∧ good w2 ∧ 0 <= samples' < 2 ^ 64 ∧
    counted base m c samples' full ∧ (mask_size m <= 63 → 2 ^ mask_size m <= samples → full = true).
Proof.
  intros Hg Hm Hb Hs. unfold choose_search. pose proof (mask_size_bound m Hm) as Hms.
  destruct (Z.leb_spec (mask_size m) MAX_VARS_FOR_FULL_SEARCH) as [Hle | Hgt];
    destruct (Z.leb_spec (2 ^ mask_size m) samples) as [Hs1 | Hs1]; simpl;
    unfold MAX_VARS_FOR_FULL_SEARCH in *.
  { destruct (full_engine w base m Hg Hm Hb Hle) as (w' & c & E & Hg' & Hc).
    eexists _, true, _, w, w', c. split; [done |]. split; [done |]. split; [done |].
    split; [| done]. split; [apply Z.pow_nonneg; lia |].
    apply Z.le_lt_trans with (2 ^ 63); [apply Z.pow_le_mono_r; lia | lia]. }
  all: destruct (random_search_ok w (map_to_vars view m) samples Hg (mask_vars_ok m Hm))
    as (a & w1 & -> & Hg1 & Ha);
    destruct (le_random env good n F tr w1 base a samples Hg1 Hb Ha Hs) as (w2 & c & E & Hg2 & Hc);
    eexists _, false, samples, w1, w2, c; split; [done |]; split; [done |]; split; [done |];
    split; [done |]; split; [| lia]; split; [done |]; split; [lia | done].
Qed.

Lemma count_conflicts_spec sh w m samples : good w → mask_ok m → SharedOk sh → 0 <= samples < 2 ^ 64 →
  ∃ c samples' full w', count_conflicts env view sh w m samples = Some (c, samples', full, w') ∧
    good w' ∧ 0 <= samples' < 2 ^ 64 ∧ counted (base_assumption sh) m c samples' full ∧
    (mask_size m <= max_vars_fs (sampling_config sh) → full = true).
Proof.
  intros Hg Hm [Hb Hfs _ _] Hs. pose proof (mask_size_bound m Hm) as Hms. unfold count_conflicts.
  assert (u32 (mask_size m) = mask_size m) as -> by (apply Z.mod_small; lia).
  unfold MAX_VARS_FOR_FULL_SEARCH in *.
  destruct (Z.leb_spec (mask_size m) (max_vars_fs (sampling_config sh))) as [Hle | Hgt].
  - unfold shift64. destruct (Z.ltb_spec (mask_size m) 64); [| lia]. simpl.
    assert (0 < 2 ^ mask_size m < 2 ^ 64) as Hp.
    { split; [apply Z.pow_pos_nonneg; lia | apply Z.pow_lt_mono_r; lia]. }
    destruct (tree (sampling_config sh)).
    + pose proof (length_map_to_vars m) as Hl. set (vs := map_to_vars view m) in *.
      destruct (le_tree env good n F tr w (concat_lits (base_assumption sh) (map_to_mini_vars vs))
        (length (base_assumption sh)) Hg) as (w' & c & -> & Hg' & Hc).
      { apply Forall_app. split; [done |]. by apply mini_vars_ok, mask_vars_ok. }
      { unfold concat_lits, map_to_mini_vars. rewrite length_app, length_fmap. lia. }
      unfold concat_lits in Hc. rewrite take_app_length, drop_app_length, var_map_to_mini_vars in Hc.
      cbn. eexists _, _, _, _. split; [done |]. split; [done |]. split; [lia |]. split; [| done].
      pose proof (counts_bounds _ _ _ Hc) as Hbd. rewrite length_leaves, Hl in Hbd.
      by repeat split; try lia.
    + destruct (choose_search_spec w (base_assumption sh) m (2 ^ mask_size m) Hg Hm Hb ltac:(lia))
        as (s & full & samples' & w1 & w2 & c & -> & E & Hg2 & Hs' & Hc & Hfull). simpl. rewrite E. simpl.
      eexists _, _, _, _. split; [done |]. split; [done |]. split; [done |].
      rewrite Hfull in Hc by lia. by split.
  - destruct (choose_search_spec w (base_assumption sh) m samples Hg Hm Hb Hs)
      as (s & full & samples' & w1 & w2 & c & -> & E & Hg2 & Hs' & Hc & _). simpl. rewrite E. simpl.
    eexists _, _, _, _. split; [done |]. split; [done |]. split; [done |]. split; [done |]. lia.
Qed.

Lemma set_fitness_sound sh i c samples full : mask_ok (mask i) → 0 <= samples < 2 ^ 64 →
  counted (base_assumption sh) (mask i) c samples full →
  fit_sound (base_assumption sh) (mask i) (fit_ (set_fitness sh i c samples)).
Proof.
  intros Hm Hs (Hc & Hnot & Hfull). unfold fit_sound, sbs_fit. cbn [fit_ set_fitness].
  cbn. pose proof (mask_size_bound _ Hm) as Hms.
  assert (u32 (mask_size (mask i)) = mask_size (mask i)) as -> by (apply Z.mod_small; lia).
  intros Hsbs. zbool. unfold MAX_VARS_FOR_FULL_SEARCH in *.
  match goal with H : u32 _ = _ |- _ => rename H into Hu end.
  assert (u32 samples <= samples ∧ u32 samples < 2 ^ 32) as [Hu1 Hu2].
  { unfold u32. pose proof (Z.mod_le samples (2 ^ 32)). pose proof (Z.mod_pos_bound samples (2 ^ 32)). lia. }
  destruct full; [| specialize (Hnot ltac:(lia) eq_refl); lia].
  destruct (Hfull eq_refl) as (-> & _ & Hcnt).
  assert (mask_size (mask i) < 32) as Hlt by (apply (Z.pow_lt_mono_r_iff 2); lia).
  pose proof (counts_bounds _ _ _ Hcnt) as Hbd. rewrite length_leaves, length_map_to_vars in Hbd.
  match goal with H : d_eqb _ _ = true |- _ => rewrite ratio_one in H; [| lia | lia];
    apply bool_decide_eq_true in H; rename H into Heq end.
  intros a Ha. apply (counts_full _ _ _ Hcnt); [| done].
  by rewrite length_leaves, length_map_to_vars.
Qed.

Lemma calc_fitness_sound sh (steps : nat) : ∀ w i samples i' w', good w → mask_ok (mask i) →
  SharedOk sh → 0 <= samples < 2 ^ 64 → calc_fitness env view steps sh w i samples = Some (i', w') →
  good w' ∧ mask i' = mask i ∧ fit_sound (base_assumption sh) (mask i) (fit_ i').
Proof.
  induction steps as [| steps IH]; intros w i samples i' w' Hg Hm Hsh Hs; cbn [calc_fitness];
    destruct (count_conflicts_spec sh w (mask i) samples Hg Hm Hsh Hs)
      as (c & samples' & full & w1 & -> & Hg1 & Hs' & Hc & Hfull); cbn [mbind option_bind];
    pose proof (set_fitness_sound sh i c samples' full Hm Hs' Hc) as Hsound.
  { intros [= <- <-]. done. }
  destruct (negb full && d_eqb (rho (fit_ (set_fitness sh i c samples'))) d_one); [| by intros [= <- <-]].
  destruct (scale_samples samples' (scale (sampling_config sh))) as [z |] eqn:Ez; [| done].
  cbn [mbind option_bind]. intros E. apply IH in E; try done.
  unfold scale_samples in Ez. destruct (d_trunc _) as [z0 |]; [| done]. simpl in Ez.
  destruct (Z.leb_spec 0 z0), (Z.ltb_spec z0 (2 ^ 32)); simplify_eq/=. lia.
Qed.

(** Small instances: the fitness is exact, and computing it succeeds. *)
Lemma calc_fitness_full sh steps w i samples : good w → mask_ok (mask i) → SharedOk sh →
  0 <= samples < 2 ^ 64 → mask_size (mask i) <= max_vars_fs (sampling_config sh) →
  ∃ w' c, calc_fitness env view steps sh w i samples =
      Some (set_fitness sh i c (2 ^ mask_size (mask i)), w') ∧ good w' ∧
    counts (λ a, conflicts_with F tr (base_assumption sh ++ a)) (leaves (map_to_vars view (mask i))) c.
Proof.
  intros Hg Hm Hsh Hs Hle.
  destruct (count_conflicts_spec sh w (mask i) samples Hg Hm Hsh Hs)
    as (c & samples' & full & w1 & E & Hg1 & Hs' & (Hc & _ & Hfull) & Hf).
  rewrite Hf in * by done. destruct (Hfull eq_refl) as (-> & _ & Hcnt).
  exists w1, c. split; [| done]. destruct steps; cbn [calc_fitness]; rewrite E; done.
Qed.

(** The fitness of an instance, through the cache. *)
Definition instance_ok (sh : SharedData) (i : Instance_) : Prop :=
  mask_ok (mask i) ∧ (cached i = true → fit_sound (base_assumption sh) (mask i) (fit_ i)).

Lemma fitness_spec sh w i f i' sh' w' : good w → SharedOk sh → instance_ok sh i →
  0 <= base_samples (sampling_config sh) < 2 ^ 64 → fitness env view sh w i = Some (f, i', sh', w') →
  good w' ∧ SharedOk sh' ∧ mask i' = mask i ∧ cached i' = true ∧ fit_ i' = f ∧
  base_assumption sh' = base_assumption sh ∧ sampling_config sh' = sampling_config sh ∧
  fit_sound (base_assumption sh) (mask i) f.
Proof.
  intros Hg Hsh [Hm Hi] Hs. unfold fitness. destruct (cached i) eqn:Ec.
  { intros [= <- <- <- <-]. by auto 9. }
  destruct (lru_get (cache sh) (mask i)) as [f0 |] eqn:El.
  { intros [= <- <- <- <-]. pose proof (so_cache _ Hsh _ _ El). by auto 9. }
  destruct (calc_fitness _ _ _ _ _ _ _) as [[i1 w1] |] eqn:Ecalc; [| done]. cbn [mbind option_bind].
  destruct (calc_fitness_sound _ _ _ _ _ _ _ Hg Hm Hsh Hs Ecalc) as (Hg1 & Hm1 & Hf1).
  pose proof (le_begin env good n F tr) as HB.
  destruct (add_spec (ev_begin env) (cache sh) (mask i1) (fit_ i1) (so_bound _ Hsh))
    as (c' & -> & Hb' & Hk & _ & Ho). cbn [mbind option_bind]. intros [= <- <- <- <-].
  split; [done |]. split; [| by auto 9]. destruct Hsh as [S1 S2 S3 S4]. split; try done.
  intros m f Hmf. cbn in Hmf |- *. rewrite Hm1 in *. destruct (decide (m = mask i)) as [-> | Hne].
  - rewrite Hk in Hmf. by injection Hmf as <-.
  - by apply S3, Ho.
Qed.
End FitnessSpec.

Lemma backdoor_unsat F tr view base m : backdoor F tr view base m → ¬ satisfiable F (lit_on (tr ++ base)).
Proof.
  intros Hb (σ & HF & Htr). destruct (leaves_cover σ (map_to_vars view m)) as (a & Ha & Hat).
  apply (UPconfl_unsat _ _ (Hb a Ha)). exists σ. split; [done |].
  intros l Hl. unfold lit_on in Hl. rewrite !elem_of_app in Hl.
  destruct Hl as [Hl | [Hl | Hl]]; [apply Htr, elem_of_app; by left | apply Htr, elem_of_app; by right | by apply Hat].
Qed.

(** ** The properties *)

(** C30. An instance that claims to be a strong backdoor is one: if [is_sbs] holds
    after its fitness was computed, scaled or found in the cache, no model of
    the clauses satisfies the assigned literals and the base assumption. *)
Theorem is_sbs_sound {W} (env : EvolEnv W) good n F tr view sh w i f i' sh' w' :
  LawfulEnv env good n F tr → Forall (λ v, 0 <= v < n) view → good w → SharedOk n F tr view sh →
  instance_ok F tr view sh i → 0 <= base_samples (sampling_config sh) < 2 ^ 64 →
  fitness env view sh w i = Some (f, i', sh', w') → is_sbs i' = true →
  ¬ satisfiable F (lit_on (tr ++ base_assumption sh)).
Proof.
  intros HL Hv Hg Hsh Hi Hs E Hsbs.
  destruct (fitness_spec env good n F tr view Hv sh w i f i' sh' w' Hg Hsh Hi Hs E)
    as (_ & _ & _ & _ & <- & _ & _ & Hf).
  eapply backdoor_unsat, Hf. exact Hsbs.
Qed.

(** C32. The fitness of a set of at most [max_vars_fs] variables: computing it
    succeeds, and the stored ratio is the number of conflicting assignments of
    the variables under the base assumption over [2 ^ size], whether by the
    tree search or by a full search. *)
Theorem fitness_exact {W} (env : EvolEnv W) good n F tr view sh w i :
  LawfulEnv env good n F tr → Forall (λ v, 0 <= v < n) view → good w → SharedOk n F tr view sh →
  mask_ok view (mask i) → 0 <= base_samples (sampling_config sh) < 2 ^ 64 → cached i = false →
  lru_get (cache sh) (mask i) = None → mask_size (mask i) <= max_vars_fs (sampling_config sh) →
  ∃ f i' sh' w' c, fitness env view sh w i = Some (f, i', sh', w') ∧
    counts (λ a, conflicts_with F tr (base_assumption sh ++ a)) (leaves (map_to_vars view (mask i))) c ∧
    f = MkFitness (d_div (d_of_Z c) (d_of_Z (2 ^ mask_size (mask i)))) (mask_size (mask i)) (omega_x sh)
          (u32 (2 ^ mask_size (mask i))) ∧
    lru_get (cache sh') (mask i) = Some f.
Proof.
  intros HL Hv Hg Hsh Hm Hs Hc Hl Hle. unfold fitness. rewrite Hc, Hl.
  destruct (calc_fitness_full env good n F tr view Hv sh (max_scale_steps (sampling_config sh)) w i
    (base_samples (sampling_config sh)) Hg Hm Hsh Hs Hle) as (w' & c & -> & Hg' & Hcnt).
  cbn [mbind option_bind]. pose proof (le_begin env good n F tr) as HB.
  destruct (add_spec (ev_begin env) (cache sh) (mask i)
    (fit_ (set_fitness sh i c (2 ^ mask_size (mask i)))) (so_bound _ _ _ _ _ Hsh))
    as (c' & Ec & Hb' & Hk & _ & Ho).
  change (mask (set_fitness sh i c (2 ^ mask_size (mask i)))) with (mask i). rewrite Ec. cbn [mbind option_bind].
  eexists _, _, _, w', c. split; [done |]. split; [done |]. split; [| exact Hk].
  pose proof (mask_size_bound view _ Hm). unfold set_fitness. cbn.
  assert (u32 (mask_size (mask i)) = mask_size (mask i)) as -> by (apply Z.mod_small; lia). done.
Qed.

(** The number of samples is stored in 32 bits, so a strong backdoor of 32
    variables or more is never recognised, although [MAX_VARS_FOR_FULL_SEARCH]
    is 63. *)
Theorem large_backdoor_missed sh i conflicts samples : 32 <= u32 (mask_size (mask i)) →
  is_sbs (set_fitness sh i conflicts samples) = false.
Proof.
  intros Hm. unfold is_sbs. cbn. apply not_true_iff_false. intros Hs. zbool.
  match goal with H : u32 samples = _ |- _ => rename H into Hu end.
  assert (2 ^ 32 <= 2 ^ u32 (mask_size (mask i))) by (apply Z.pow_le_mono_r; lia).
  unfold u32 at 1 in Hu. pose proof (Z.mod_pos_bound samples (2 ^ 32) ltac:(lia)). lia.
Qed.

Lemma large_backdoor_missed_witness :
  is_sbs (set_fitness (MkShared (MkSampling 40 1000 3 d_one true) (new_lru 10) (new_space 50) 10 [])
    (MkInstance false (replicate 33 true) inhabitant) (2 ^ 33) (2 ^ 33)) = false.
Proof. apply large_backdoor_missed. vm_compute. discriminate. Defined.
