(* ===== verification/Evol.v ===== *)
(** * The evolutionary algorithms

    [core/evol]: limits, mutations, crossovers, the selector, the algorithms
    (1+1)-EA and GA, and the preprocessing that chooses the variables.  A
    population is a list of instances (every [shared_ptr] has one owner here).
    [std::sort] and [std::min_element] compute fitnesses while they compare;
    the model computes them in the order of the population first, then orders
    the instances by the values. *)
From S2P Require Import Prelude Lit Double Domain Search LRU Fitness Instance.

Section Evol.
Context {W : Type} (env : EvolEnv W) (view : list Z).

(** [std::sort] with the comparator as a function. *)
Context (std_sort : (Instance_ → Instance_ → bool) → list Instance_ → list Instance_).

Notation num_vars := (num_vars view).
Notation Population := (list Instance_).

(** [flip_coin(a, b)]: [a >= sample(1, b)]. *)
Definition flip_coin (w : W) (a b : Z) : bool * W :=
  let '(x, w) := ev_sample env w 1 b in (x <=? a, w).

(** ** Mutations *)

(** The common loop: variable [i] flips with probability [a / num_vars]. *)
Fixpoint mutate_loop (k : nat) (pos : Z) (a : Z) (w : W) (i : Instance_) : Instance_ * W :=
  match k with
  | O => (i, w)
  | S k =>
      let '(b, w) := flip_coin w a num_vars in
      mutate_loop k (pos + 1) a w (if b : bool then flip_var i pos else i)
  end.

Definition UniformMutation_apply (scale_ : Z) (w : W) (i : Instance_) : Instance_ * W :=
  mutate_loop (Z.to_nat num_vars) 0 scale_ w i.

(** The loops of [_get_alpha]; [pow] is [std::pow]. *)
Context (pow : double → double → double).

Fixpoint alpha_sum (k : nat) (i : Z) (beta c : double) : double :=
  match k with
  | O => c
  | S k => alpha_sum k (i + 1) beta (d_add c (d_div d_one (pow (d_of_Z i) beta)))
  end.

Fixpoint alpha_find (n : nat) (k bound : Z) (beta c p rr : double) : Z :=
  match n with
  | O => bound - 1
  | S n =>
      let ll := rr in
      let rr := d_add rr (d_div d_one (d_mul c (pow (d_of_Z k) beta))) in
      if d_leb ll p && d_ltb p rr then k else alpha_find n (k + 1) bound beta c p rr
  end.

Definition get_alpha (beta : double) (w : W) (size : Z) : Z * W :=
  let bound := size / 2 + 1 in
  if bound <? 3 then (1, w)
  else
    let '(p, w) := ev_real env w in
    let c := alpha_sum (Z.to_nat (bound - 1)) 1 beta (d_of_Z 0) in
    (alpha_find (Z.to_nat (bound - 1)) 1 bound beta c p (d_of_Z 0), w).

(** [DoerrMutation::apply]: the state is [alpha_], 0 until first used. *)
Definition DoerrMutation_apply (beta : double) (alpha : Z) (w : W) (i : Instance_) :
    Instance_ * Z * W :=
  let '(alpha, w) := if alpha =? 0 then get_alpha beta w num_vars else (alpha, w) in
  let '(i, w) := mutate_loop (Z.to_nat num_vars) 0 alpha w i in
  (i, alpha, w).

Inductive Mutation :=
  | UniformMutation (scale_ : Z)
  | DoerrMutation (beta : double) (alpha : Z).

Definition mutation_apply (m : Mutation) (w : W) (i : Instance_) : Instance_ * Mutation * W :=
  match m with
  | UniformMutation s => let '(i, w) := UniformMutation_apply s w i in (i, m, w)
  | DoerrMutation b a => let '(i, a, w) := DoerrMutation_apply b a w i in (i, DoerrMutation b a, w)
  end.

(** ** Crossovers *)

(** [std::swap_ranges] on the positions from [lo] to before [hi]. *)
Definition swap_ranges (a b : list bool) (lo hi : nat) : list bool * list bool :=
  (take lo a ++ take (hi - lo) (drop lo b) ++ drop hi a,
   take lo b ++ take (hi - lo) (drop lo a) ++ drop hi b).

Inductive Crossover := OnePointCrossover | TwoPointCrossover.

Definition one_point_masks (w : W) (a b : list bool) : (list bool * list bool) * W :=
  let n := num_vars in
  let '(pos, w) := ev_sample env w 0 (n - 1) in
  (if pos <? n - pos then swap_ranges a b 0 (Z.to_nat pos)
   else swap_ranges a b (Z.to_nat pos) (length a), w).

Definition two_point_masks (w : W) (a b : list bool) : (list bool * list bool) * W :=
  let n := num_vars in
  let '(p1, w) := ev_sample env w 0 (n - 1) in
  let '(p2, w) := ev_sample env w 0 (n - 1) in
  (swap_ranges a b (Z.to_nat (Z.min p1 p2)) (Z.to_nat (Z.max p1 p2)), w).

Definition cross_masks (c : Crossover) (w : W) (a b : list bool) : (list bool * list bool) * W :=
  match c with
  | OnePointCrossover => one_point_masks w a b
  | TwoPointCrossover => two_point_masks w a b
  end.

Definition crossover_apply (c : Crossover) (w : W) (a b : Instance_) : Instance_ * Instance_ * W :=
  let '((ma, mb), w) := cross_masks c w (mask a) (mask b) in
  (touch a <| mask := ma |>, touch b <| mask := mb |>, w).

(** ** Fitness of a population *)

Fixpoint fitness_all (sh : SharedData) (w : W) (p : Population) :
    option (list Fitness * Population * SharedData * W) :=
  match p with
  | [] => Some ([], [], sh, w)
  | i :: p =>
      '(f, i, sh, w) ← fitness env view sh w i;
      '(fs, p, sh, w) ← fitness_all sh w p;
      Some (f :: fs, i :: p, sh, w)
  end.

Definition by_fitness (a b : Instance_) : bool := fit_lt (ev_log2 env) (fit_ a) (fit_ b).

(** [BestSelector::select]. *)
Definition best_select (sh : SharedData) (w : W) (p : Population) (size : nat) :
    option (Population * SharedData * W) :=
  if Nat.ltb size (length p) then
    '(_, p, sh, w) ← fitness_all sh w p;
    Some (take size (std_sort by_fitness p), sh, w)
  else Some (p, sh, w).

(** [std::min_element]: the first of the smallest. *)
Fixpoint min_index (lt : Instance_ → Instance_ → bool) (p : Population) (i best : nat) (b : Instance_) : nat :=
  match p with
  | [] => best
  | x :: p => if lt x b then min_index lt p (S i) i x else min_index lt p (S i) best b
  end.

Definition min_element (lt : Instance_ → Instance_ → bool) (p : Population) : nat :=
  match p with [] => 0 | b :: p => min_index lt p 1 0 b end.

(** [get_best()]: with one instance nothing is compared. *)
Definition get_best (sh : SharedData) (w : W) (p : Population) :
    option (nat * Population * SharedData * W) :=
  match p with
  | [] => None
  | [_] => Some (O, p, sh, w)
  | _ =>
      '(_, p, sh, w) ← fitness_all sh w p;
      Some (min_element by_fitness p, p, sh, w)
  end.

(** ** The algorithms *)

Inductive AlgKind :=
  | EA (mutator : Mutation)
  | GA (mutator : Mutation) (cross : Crossover) (q h : nat) (fits : list double).

Record Algorithm := MkAlgorithm {
  population : Population;
  shared : SharedData;
  kind : AlgKind;
  interrupted : bool;
  iterations : Z }.

#[export] Instance Algorithm_settable : Settable Algorithm := λ a,
  MkAlgorithm (population a) (shared a) (kind a) (interrupted a) (iterations a).

Definition add_instance (w : W) (a : Algorithm) : Algorithm * W :=
  let '(i, w) := new_instance env view w in (a <| population := population a ++ [i] |>, w).

(** [EAAlgorithm::_step]: mutate until the mask is new. *)
Fixpoint mutate_until (fuel : nat) (sh : SharedData) (m : Mutation) (w : W) (i : Instance_) :
    option (Instance_ * Mutation * W) :=
  if is_cached sh i then
    match fuel with
    | O => None
    | S fuel => let '(i, m, w) := mutation_apply m w i in mutate_until fuel sh m w i
    end
  else Some (i, m, w).

Definition ea_step (fuel : nat) (m : Mutation) (w : W) (a : Algorithm) : option (Algorithm * W) :=
  parent ← head (population a);
  let '(child, m, w) := mutation_apply m w (clone_instance parent) in
  '(child, m, w) ← mutate_until fuel (shared a) m w child;
  '(p, sh, w) ← best_select (shared a) w (population a ++ [child]) 1;
  Some (a <| population := p |> <| shared := sh |> <| kind := EA m |>, w).

(** [choose(distrib, count)]: the cumulative sums of the inverses. *)
Fixpoint cumulate (acc : option double) (distrib : list double) : list double :=
  match distrib with
  | [] => []
  | x :: distrib =>
      let y := d_div d_one x in
      let y := match acc with Some s => d_add y s | None => y end in
      y :: cumulate (Some y) distrib
  end.

(** [std::lower_bound]: the first position not below [x]. *)
Fixpoint lower_bound (l : list double) (x : double) : nat :=
  match l with
  | [] => O
  | y :: l => if d_ltb y x then S (lower_bound l x) else O
  end.

Fixpoint choose_samples (count : nat) (cumulative : list double) (w : W) : list nat * W :=
  match count with
  | O => ([], w)
  | S count =>
      let '(x, w) := ev_real env w in
      let '(res, w) := choose_samples count cumulative w in
      (res ++ [lower_bound cumulative x], w)
  end.

Definition choose (distrib : list double) (count : nat) (w : W) : list nat * W :=
  let cumulative := cumulate None distrib in
  let sum := default inhabitant (last cumulative) in
  choose_samples count ((λ x, d_div x sum) <$> cumulative) w.

(** The children of the pairs of parents; a parent out of range is undefined. *)
Fixpoint make_children (k : nat) (parents : list nat) (p : Population) (c : Crossover) (m : Mutation)
    (w : W) : option (list Instance_ * Mutation * W) :=
  match k, parents with
  | O, _ => Some ([], m, w)
  | S k, p1 :: p2 :: parents =>
      c1 ← p !! p1;
      c2 ← p !! p2;
      let '(c1, c2, w) := crossover_apply c w (clone_instance c1) (clone_instance c2) in
      let '(c1, m, w) := mutation_apply m w c1 in
      let '(c2, m, w) := mutation_apply m w c2 in
      '(rest, m, w) ← make_children k parents p c m w;
      Some (c1 :: c2 :: rest, m, w)
  | _, _ => None
  end.

(** [_recalculate_fitness]: the prefix of [fits_] as long as the population. *)
Definition recalculate (fits : list double) (fs : list Fitness) : list double :=
  (fit_value (ev_log2 env) <$> fs) ++ drop (length fs) fits.

Definition ga_step (m : Mutation) (c : Crossover) (q h : nat) (fits : list double) (w : W)
    (a : Algorithm) : option (Algorithm * W) :=
  let g := (q - h)%nat in
  let '(parents, w) := choose fits g w in
  '(children, m, w) ← make_children (Nat.div2 g) parents (population a) c m w;
  '(p, sh, w) ← best_select (shared a) w (population a) h;
  '(fs, p, sh, w) ← fitness_all sh w (p ++ children);
  Some (a <| population := p |> <| shared := sh |>
          <| kind := GA m c q h (recalculate fits fs) |>, w).

(** [_prepare()]. *)
Fixpoint ga_fill (k : nat) (w : W) (a : Algorithm) (fits : list double) :
    option (Algorithm * list double * W) :=
  match k with
  | O => Some (a, fits, w)
  | S k =>
      let '(i, w) := new_instance env view w in
      '(f, i, sh, w) ← fitness env view (shared a) w i;
      ga_fill k w (a <| population := population a ++ [i] |> <| shared := sh |>)
        (fits ++ [fit_value (ev_log2 env) f])
  end.

Definition alg_prepare (w : W) (a : Algorithm) : option (Algorithm * W) :=
  match kind a with
  | EA _ => Some (add_instance w a)
  | GA m c q h fits =>
      '(a, fits, w) ← ga_fill q w a fits;
      Some (a <| kind := GA m c q h fits |>, w)
  end.

Definition alg_step (fuel : nat) (w : W) (a : Algorithm) : option (Algorithm * W) :=
  match kind a with
  | EA m => ea_step fuel m w a
  | GA m c q h fits => ga_step m c q h fits w a
  end.

Definition set_base_assumption (a : Algorithm) (base : list Lit) : Algorithm :=
  a <| shared := (shared a) <| base_assumption := base |> |>.

Definition alg_interrupt (a : Algorithm) : Algorithm := a <| interrupted := true |>.

(** ** Limits *)

(** What a limit observes: the best fitness, the visited points, the seconds
    of the clock and the resident memory. *)
Record Observed := MkObserved {
  ob_fit : Fitness;
  ob_points : Z;
  ob_now : Z;
  ob_rss : Z }.

Inductive Limit :=
  | PointsLimit (max_visited : Z)
  | FitnessLimit (lowest : double) (max_size : Z)
  | ResourceLimit (memory_kb time_sec : Z) (start : Z)
  | StallLimit (steps_before : Z) (time_before : double) (steps : Z) (last_size : Z)
      (last_rho : double) (last_change : Z)
  | ConjLimit (limits : list Limit).

(** [start()]. *)
Fixpoint limit_start (now : Z) (l : Limit) : Limit :=
  match l with
  | ResourceLimit m t _ => ResourceLimit m t now
  | StallLimit sb tb st sz r _ => StallLimit sb tb st sz r now
  | ConjLimit ls => ConjLimit (map (limit_start now) ls)
  | _ => l
  end.

(** The [_proceed] of each class; a limit keeps its new state. *)
Definition points_proceed (o : Observed) (max_visited : Z) : bool := negb (max_visited <=? ob_points o).

Definition fitness_proceed (o : Observed) (lowest : double) (max_size : Z) : bool :=
  negb (d_leb lowest (rho (ob_fit o)) && (f_size (ob_fit o) <=? max_size)).

Definition resource_proceed (o : Observed) (memory_kb time_sec start : Z) : bool :=
  ((time_sec =? 0) || (ob_now o - start <? time_sec)) &&
  ((memory_kb =? 0) || (ob_rss o <? u32 (memory_kb * 1024))).

Definition stall_proceed (o : Observed) (sb : Z) (tb : double) (st sz : Z) (r : double) (ch : Z) :
    Limit * bool :=
  if d_eqb (rho (ob_fit o)) r && (f_size (ob_fit o) =? sz) then
    let st := u32 (st + 1) in
    (StallLimit sb tb st sz r ch, negb ((st =? sb) || d_ltb tb (d_of_Z (ob_now o - ch))))
  else (StallLimit sb tb 0 (f_size (ob_fit o)) (rho (ob_fit o)) (ob_now o), true).

(** [all_of] stops at the first limit that refuses. *)
Definition conj_proceed (rec : Limit → Limit * bool) : list Limit → list Limit * bool :=
  fix all ls :=
    match ls with
    | [] => ([], true)
    | l :: ls =>
        let '(l, b) := rec l in
        if b : bool then let '(ls, b) := all ls in (l :: ls, b) else (l :: ls, false)
    end.

(** The virtual call [_proceed]. *)
Fixpoint limit_proceed (o : Observed) (l : Limit) : Limit * bool :=
  match l with
  | PointsLimit m => (l, points_proceed o m)
  | FitnessLimit lo sz => (l, fitness_proceed o lo sz)
  | ResourceLimit m t start => (l, resource_proceed o m t start)
  | StallLimit sb tb st sz r ch => stall_proceed o sb tb st sz r ch
  | ConjLimit ls => let '(ls, b) := conj_proceed (limit_proceed o) ls in (ConjLimit ls, b)
  end.

(** ** [Algorithm::process] *)

(** The clock and the memory the run observes at each iteration. *)
Context (clock rss : Z → Z).

(** [Limit::proceed]. *)
Definition proceed (l : Limit) (w : W) (a : Algorithm) : option (bool * Limit * Algorithm * W) :=
  if has_unvisited_points (search_space (shared a)) then
    '(k, p, sh, w) ← get_best (shared a) w (population a);
    best ← p !! k;
    '(f, best, sh, w) ← fitness env view sh w best;
    let a := a <| population := <[k := best]> p |> <| shared := sh |> in
    let o := MkObserved f (inaccurate_visited_points (search_space sh))
               (clock (iterations a)) (rss (iterations a)) in
    let '(l, b) := limit_proceed o l in
    Some (b && negb (is_sbs best), l, a, w)
  else Some (false, l, a, w).

Fixpoint process_loop (fuel efuel : nat) (l : Limit) (w : W) (a : Algorithm) :
    option (Limit * Algorithm * W) :=
  match fuel with
  | O => None
  | S fuel =>
      '(a, w) ← alg_step efuel w a;
      '(_, p, sh, w) ← get_best (shared a) w (population a);
      let a := a <| population := p |> <| shared := sh |> <| iterations := iterations a + 1 |> in
      if interrupted a then Some (l, a, w)
      else
        '(b, l, a, w) ← proceed l w a;
        if b : bool then process_loop fuel efuel l w a else Some (l, a, w)
  end.

Definition process (fuel efuel : nat) (l : Limit) (w : W) (a : Algorithm) :
    option (Limit * Algorithm * W) :=
  process_loop fuel efuel (limit_start (clock 0) l) w a.
End Evol.
