(* ===== verification/EvolSpec.v ===== *)
(** * What the evolutionary algorithms keep

    Every instance of a running algorithm has a mask over the chosen variables
    and a fitness that is sound: whichever mutations, crossovers, selections and
    cache hits produced it, a strong backdoor that is claimed is one. *)
From S2P Require Import Prelude Lit UnitProp Double Domain Search Propagate EngineSpec LRU Fitness.
From S2P Require Import Instance InstanceSpec Evol.

(** ** Crossovers exchange bits *)

Lemma swap_ranges_lookup a b lo hi i : length a = length b → (lo <= hi <= length a)%nat →
  (swap_ranges a b lo hi).1 !! i = (if decide (lo <= i < hi)%nat then b !! i else a !! i) ∧
  (swap_ranges a b lo hi).2 !! i = (if decide (lo <= i < hi)%nat then a !! i else b !! i).
Proof.
  intros Hl Hr.
  assert (∀ (a b : list bool), length a = length b → (hi <= length a)%nat →
    (take lo a ++ take (hi - lo) (drop lo b) ++ drop hi a) !! i =
    if decide (lo <= i < hi)%nat then b !! i else a !! i) as H.
  { destruct Hr as [Hr _]. clear a b Hl. intros a b Hl Hh. destruct (decide (i < lo)%nat).
    - rewrite decide_False by lia. rewrite lookup_app_l by (rewrite length_take; lia).
      by rewrite lookup_take_lt.
    - rewrite lookup_app_r by (rewrite length_take; lia). rewrite length_take, Nat.min_l by lia.
      case_decide.
      + rewrite lookup_app_l by (rewrite length_take, length_drop; lia).
        rewrite lookup_take_lt, lookup_drop by lia. f_equal. lia.
      + rewrite lookup_app_r by (rewrite length_take, length_drop; lia).
        rewrite length_take, length_drop, Nat.min_l, lookup_drop by lia. f_equal. lia. }
  split; simpl; apply H; lia.
Qed.

Section EvolSpec.
Context {W : Type} (env : EvolEnv W).
Context (good : W → Prop) (n : Z) (F : formula) (tr : list Lit).
Context `{!LawfulEnv env good n F tr}.
Context (view : list Z) (Hview : Forall (λ v, 0 <= v < n) view).
Context (Hlen : 0 < Z.of_nat (length view) < 2 ^ 32).
Context (std_sort : (Instance_ → Instance_ → bool) → list Instance_ → list Instance_).
Context (Hsort : ∀ lt l, std_sort lt l ≡ₚ l).
Context (pow : double → double → double).

Notation inst_ok := (instance_ok F tr view).

(** ** One instance *)

Lemma inst_ok_base sh sh' i : base_assumption sh' = base_assumption sh → inst_ok sh i → inst_ok sh' i.
Proof. intros E [H1 H2]. split; [done |]. by rewrite E. Qed.

Lemma flip_ok sh i pos : inst_ok sh i → inst_ok sh (flip_var i pos).
Proof.
  intros [[Hm Hv] _]. split; [| done]. split; [| done]. cbn. unfold flip. by rewrite length_zset.
Qed.

Lemma flip_coin_good w a b : good w → good (flip_coin env w a b).2.
Proof using LawfulEnv0.
  intros Hg. unfold flip_coin. pose proof (le_sample env good n F tr w 1 b Hg) as [H _].
  by destruct (ev_sample env w 1 b).
Qed.

Lemma mutate_loop_ok sh (k : nat) : ∀ pos a w i, good w → inst_ok sh i →
  let '(i', w') := mutate_loop env view k pos a w i in good w' ∧ inst_ok sh i'.
Proof using LawfulEnv0.
  induction k as [| k IH]; intros pos a w i Hg Hi; cbn [mutate_loop]; [done |].
  pose proof (flip_coin_good w a (num_vars view) Hg) as Hg1.
  destruct (flip_coin env w a (num_vars view)) as [b w1]. apply IH; [done |].
  destruct b; [by apply flip_ok | done].
Qed.

Lemma mutation_ok sh m w i : good w → inst_ok sh i →
  let '(i', m', w') := mutation_apply env view pow m w i in good w' ∧ inst_ok sh i'.
Proof using LawfulEnv0.
  intros Hg Hi. destruct m as [s | beta alpha]; cbn [mutation_apply].
  - unfold UniformMutation_apply.
    pose proof (mutate_loop_ok sh (Z.to_nat (num_vars view)) 0 s w i Hg Hi).
    by destruct (mutate_loop _ _ _ _ _ _ _).
  - unfold DoerrMutation_apply.
    assert (∃ al w1, (if alpha =? 0 then get_alpha env pow beta w (num_vars view) else (alpha, w)) = (al, w1) ∧
      good w1) as (al & w1 & -> & Hg1).
    { destruct (alpha =? 0); [| by eexists _, _]. unfold get_alpha.
      destruct (_ <? _); [by eexists _, _ |]. pose proof (le_real env good n F tr w Hg) as Hr.
      destruct (ev_real env w) as [p w1]. by eexists _, w1. }
    pose proof (mutate_loop_ok sh (Z.to_nat (num_vars view)) 0 al w1 i Hg1 Hi).
    by destruct (mutate_loop _ _ _ _ _ _ _).
Qed.

Lemma new_instance_ok sh w : good w →
  let '(i, w') := new_instance env view w in good w' ∧ inst_ok sh i.
Proof using LawfulEnv0 Hlen.
  intros Hg. unfold new_instance.
  pose proof (le_sample env good n F tr w 0 (u32 (num_vars view - 1)) Hg) as [H _].
  destruct (ev_sample env w 0 _) as [x w']. split; [done |]. split; [| done]. split; [| lia].
  cbn. unfold flip, mask_resize, grow_to. rewrite length_zset, length_take, length_app, length_replicate.
  simpl. lia.
Qed.

Lemma length_swap_ranges a b lo hi : length a = length b → (lo <= hi <= length a)%nat →
  length (swap_ranges a b lo hi).1 = length a ∧ length (swap_ranges a b lo hi).2 = length b.
Proof.
  intros. unfold swap_ranges. simpl. rewrite !length_app, !length_take, !length_drop. lia.
Qed.

(** The range a crossover exchanges. *)
Lemma cross_range c w a b : good w → length a = length view → length b = length view →
  ∃ lo hi w', cross_masks env view c w a b = (swap_ranges a b lo hi, w') ∧ good w' ∧
    (lo <= hi <= length a)%nat.
Proof using LawfulEnv0 Hlen.
  intros Hg Ha Hb. unfold cross_masks, one_point_masks, two_point_masks.
  pose proof (le_sample env good n F tr w 0 (num_vars view - 1) Hg) as [Hg1 Hx1]. unfold num_vars in *.
  destruct c; destruct (ev_sample env w 0 _) as [p1 w1]; simpl in *; specialize (Hx1 ltac:(lia)).
  - destruct (Z.ltb_spec p1 (Z.of_nat (length view) - p1)); eexists _, _, _; (split; [done |]);
      (split; [done |]); lia.
  - pose proof (le_sample env good n F tr w1 0 (Z.of_nat (length view) - 1) Hg1) as [Hg2 Hx2].
    destruct (ev_sample env w1 0 _) as [p2 w2]; simpl in *; specialize (Hx2 ltac:(lia)).
    eexists _, _, _. split; [done |]. split; [done |]. lia.
Qed.

Lemma crossover_ok sh c w a b : good w → inst_ok sh a → inst_ok sh b →
  let '(a', b', w') := crossover_apply env view c w a b in good w' ∧ inst_ok sh a' ∧ inst_ok sh b'.
Proof using LawfulEnv0 Hlen.
  intros Hg [[Ha Hv] _] [[Hb _] _]. unfold crossover_apply.
  destruct (cross_range c w (mask a) (mask b) Hg Ha Hb) as (lo & hi & w' & -> & Hg' & Hr).
  destruct (length_swap_ranges (mask a) (mask b) lo hi) as [H1 H2]; [congruence | done |].
  destruct (swap_ranges _ _ _ _) as [ma mb]. simpl in H1, H2.
  split; [done |]. split; (split; [| done]); (split; [cbn; congruence | done]).
Qed.

(** ** Populations *)

Record AlgOk (sh : SharedData) (p : list Instance_) : Prop := {
  ao_shared : SharedOk n F tr view sh;
  ao_samples : 0 <= base_samples (sampling_config sh) < 2 ^ 64;
  ao_pop : Forall (inst_ok sh) p }.

(** [sh'] is [sh] with more in the cache. *)
Definition later (sh sh' : SharedData) : Prop :=
  base_assumption sh' = base_assumption sh ∧ sampling_config sh' = sampling_config sh.

Lemma pop_later sh sh' p : later sh sh' → Forall (inst_ok sh) p → Forall (inst_ok sh') p.
Proof. intros [E _] Hp. eapply Forall_impl; [exact Hp |]. intros i. by apply inst_ok_base. Qed.

Lemma fitness_step sh w i f i' sh' w' : good w → AlgOk sh [i] →
  fitness env view sh w i = Some (f, i', sh', w') →
  good w' ∧ AlgOk sh' [i'] ∧ later sh sh' ∧ fit_sound F tr view (base_assumption sh) (mask i') f ∧
  fit_ i' = f ∧ mask i' = mask i ∧ cached i' = true.
Proof using LawfulEnv0 Hview.
  intros Hg [Hsh Hs Hp] E. apply Forall_cons_1 in Hp as [Hp _].
  destruct (fitness_spec env good n F tr view Hview _ _ _ _ _ _ _ Hg Hsh Hp Hs E)
    as (H1 & H2 & H3 & H4 & H5 & H6 & H7 & H8).
  split; [done |]. rewrite H3, H5. split; [| done]. split; [done | by rewrite H7 |].
  apply Forall_cons_2; [| apply Forall_nil_2]. split; [rewrite H3; apply Hp |]. intros _. by rewrite H5, H6, H3.
Qed.

Definition all_cached (p : list Instance_) : Prop := Forall (λ i, cached i = true) p.

Lemma fitness_all_ok p : ∀ sh w fs p' sh' w', good w → AlgOk sh p →
  fitness_all env view sh w p = Some (fs, p', sh', w') →
  good w' ∧ AlgOk sh' p' ∧ later sh sh' ∧ length p' = length p ∧ fs = fit_ <$> p' ∧
  all_cached p'.
Proof using LawfulEnv0 Hview.
  induction p as [| i p IH]; intros sh w fs p' sh' w' Hg Hok; cbn [fitness_all].
  { intros [= <- <- <- <-]. split_and!; try done; apply Forall_nil_2. }
  destruct Hok as [Hsh Hs [Hi Hp]%Forall_cons].
  destruct (fitness env view sh w i) as [[[[f i1] sh1] w1] |] eqn:E1; [| done]. cbn [mbind option_bind].
  destruct (fitness_step _ _ _ _ _ _ _ Hg (Build_AlgOk sh [i] Hsh Hs (Forall_cons_2 _ _ _ Hi (Forall_nil_2 _))) E1)
    as (Hg1 & [Hsh1 Hs1 [Hi1 _]%Forall_cons_1] & L1 & _ & Hf & _ & Hci).
  destruct (fitness_all env view sh1 w1 p) as [[[[fs2 p2] sh2] w2] |] eqn:E2; [| done]. cbn [mbind option_bind].
  intros [= <- <- <- <-].
  destruct (IH _ _ _ _ _ _ Hg1 (Build_AlgOk sh1 p Hsh1 Hs1 (pop_later _ _ _ L1 Hp)) E2)
    as (Hg2 & [Hsh2 Hs2 Hp2] & L2 & Hl2 & -> & Hcp).
  split; [done |]. split; [split; try done |].
  - constructor; [| done]. by apply (inst_ok_base sh1); [apply L2 |].
  - split; [destruct L1, L2; split; congruence |]. split; [simpl; lia |].
    split; [by rewrite <- Hf | by apply Forall_cons_2].
Qed.

Lemma select_ok sh w p size p' sh' w' : good w → AlgOk sh p →
  best_select env view std_sort sh w p size = Some (p', sh', w') →
  good w' ∧ AlgOk sh' p' ∧ later sh sh' ∧ length p' = Nat.min size (length p) ∧
  ((size < length p)%nat → all_cached p').
Proof using LawfulEnv0 Hview Hsort.
  intros Hg Hok. unfold best_select. destruct (Nat.ltb_spec size (length p)).
  - destruct (fitness_all env view sh w p) as [[[[fs p1] sh1] w1] |] eqn:E; [| done].
    cbn [mbind option_bind]. intros [= <- <- <-].
    destruct (fitness_all_ok _ _ _ _ _ _ _ Hg Hok E) as (Hg1 & [A B C] & L & Hl & _ & Hc).
    split; [done |]. split; [| split; [done |]].
    + split; try done. apply Forall_take. by rewrite Hsort.
    + split; [rewrite length_take, (Permutation_length (Hsort _ _)); lia |].
      intros _. apply Forall_take. unfold all_cached. by rewrite Hsort.
  - intros [= <- <- <-]. split; [done |]. split; [done |]. split; [done |]. split; lia.
Qed.

(** ** The algorithms *)

Definition alg_ok (a : Algorithm) : Prop := AlgOk (shared a) (population a).

Definition same_base (a a' : Algorithm) : Prop := later (shared a) (shared a').

Lemma pop_elem sh p i : AlgOk sh p → i ∈ p → inst_ok sh i.
Proof. intros [_ _ Hp] Hi. rewrite Forall_forall in Hp. by apply Hp. Qed.

Lemma mutate_until_ok sh (fuel : nat) : ∀ m w i i' m' w', good w → inst_ok sh i →
  mutate_until env view pow fuel sh m w i = Some (i', m', w') → good w' ∧ inst_ok sh i'.
Proof using LawfulEnv0.
  induction fuel as [| fuel IH]; intros m w i i' m' w' Hg Hi; cbn [mutate_until];
    destruct (is_cached sh i); try done; try (by intros [= <- <- <-]).
  pose proof (mutation_ok sh m w i Hg Hi) as Hm.
  destruct (mutation_apply env view pow m w i) as [[i1 m1] w1]. destruct Hm. by apply IH.
Qed.

Lemma ea_step_ok fuel m w a a' w' : good w → alg_ok a →
  ea_step env view std_sort pow fuel m w a = Some (a', w') →
  good w' ∧ alg_ok a' ∧ same_base a a' ∧ all_cached (population a').
Proof using LawfulEnv0 Hview Hsort.
  intros Hg Ha. unfold ea_step. destruct (population a) as [| parent rest] eqn:Ep; [done |].
  cbn [head mbind option_bind].
  assert (inst_ok (shared a) parent) as Hp by (apply (pop_elem _ (population a)); [done | rewrite Ep; by left]).
  pose proof (mutation_ok (shared a) m w (clone_instance parent) Hg Hp) as Hm.
  destruct (mutation_apply _ _ _ _ _ _) as [[c m1] w1]. destruct Hm as [Hg1 Hc].
  destruct (mutate_until _ _ _ _ _ _ _ _) as [[[c2 m2] w2] |] eqn:Eu; [| done]. cbn [mbind option_bind].
  destruct (mutate_until_ok _ _ _ _ _ _ _ _ Hg1 Hc Eu) as [Hg2 Hc2].
  destruct (best_select _ _ _ _ _ _ _) as [[[p3 sh3] w3] |] eqn:Es; [| done]. cbn [mbind option_bind].
  intros [= <- <-]. rewrite <- Ep in Es. destruct Ha as [A B C].
  destruct (select_ok _ _ _ _ _ _ _ Hg2 (Build_AlgOk _ (population a ++ [c2]) A B
    (proj2 (Forall_app _ _ _) (conj C (Forall_cons_2 _ _ _ Hc2 (Forall_nil_2 _))))) Es) as (H1 & H2 & H3 & _ & H4).
  split; [done |]. split; [done |]. split; [done |]. apply H4. rewrite length_app, Ep. simpl. lia.
Qed.

Lemma make_children_ok sh p c (k : nat) : AlgOk sh p → ∀ parents m w cs m' w', good w →
  make_children env view pow k parents p c m w = Some (cs, m', w') →
  good w' ∧ Forall (inst_ok sh) cs ∧ length cs = (2 * k)%nat.
Proof using LawfulEnv0 Hlen.
  intros Hok. induction k as [| k IH]; intros parents m w cs m' w' Hg; cbn [make_children].
  { intros [= <- <- <-]. by repeat split. }
  destruct parents as [| p1 [| p2 parents]]; try done.
  destruct (p !! p1) as [i1 |] eqn:E1; [| done]. destruct (p !! p2) as [i2 |] eqn:E2; [| done].
  cbn [mbind option_bind].
  pose proof (crossover_ok sh c w (clone_instance i1) (clone_instance i2) Hg
    (pop_elem _ _ _ Hok (list_elem_of_lookup_2 _ _ _ E1)) (pop_elem _ _ _ Hok (list_elem_of_lookup_2 _ _ _ E2))) as Hx.
  destruct (crossover_apply _ _ _ _ _ _) as [[c1 c2] w1]. destruct Hx as (Hg1 & H1 & H2).
  pose proof (mutation_ok sh m w1 c1 Hg1 H1) as Hm1. destruct (mutation_apply env view pow m w1 c1) as [[c1' m1] w2].
  destruct Hm1 as [Hg2 H1'].
  pose proof (mutation_ok sh m1 w2 c2 Hg2 H2) as Hm2. destruct (mutation_apply env view pow m1 w2 c2) as [[c2' m2] w3].
  destruct Hm2 as [Hg3 H2'].
  destruct (make_children _ _ _ _ _ _ _ _ _) as [[[cs' m3] w4] |] eqn:Er; [| done]. cbn [mbind option_bind].
  intros [= <- <- <-]. destruct (IH _ _ _ _ _ _ Hg3 Er) as (Hg4 & Hcs & Hl).
  split; [done |]. split; [by apply Forall_cons_2; [| apply Forall_cons_2] |]. simpl. lia.
Qed.

Lemma choose_good fits g w : good w → good (choose env fits g w).2.
Proof using LawfulEnv0.
  unfold choose. generalize ((λ x, d_div x (default inhabitant (last (cumulate None fits)))) <$> cumulate None fits).
  intros l. revert w. induction g as [| g IH]; intros w Hg; cbn [choose_samples]; [done |].
  pose proof (le_real env good n F tr w Hg) as Hr. destruct (ev_real env w) as [x w1].
  specialize (IH w1 Hr). by destruct (choose_samples env g l w1).
Qed.

Lemma ga_step_ok m c q h fits w a a' w' : good w → alg_ok a →
  ga_step env view std_sort pow m c q h fits w a = Some (a', w') →
  good w' ∧ alg_ok a' ∧ same_base a a' ∧
  length (population a') = (Nat.min h (length (population a)) + 2 * Nat.div2 (q - h))%nat ∧
  (∃ m', kind a' = GA m' c q h (recalculate env fits (fit_ <$> population a'))) ∧
  all_cached (population a').
Proof using LawfulEnv0 Hview Hsort Hlen.
  intros Hg Ha. unfold ga_step. pose proof (choose_good fits (q - h) w Hg) as Hc.
  destruct (choose env fits (q - h) w) as [parents w1]. simpl in Hc.
  destruct (make_children _ _ _ _ _ _ _ _ _) as [[[cs m1] w2] |] eqn:Ec; [| done]. cbn [mbind option_bind].
  destruct (make_children_ok _ _ _ _ Ha _ _ _ _ _ _ Hc Ec) as (Hg2 & Hcs & Hl).
  destruct (best_select _ _ _ _ _ _ _) as [[[p3 sh3] w3] |] eqn:Es; [| done]. cbn [mbind option_bind].
  destruct (select_ok _ _ _ _ _ _ _ Hg2 Ha Es) as (Hg3 & [A B C] & L3 & Hl3 & _).
  destruct (fitness_all _ _ _ _ _) as [[[[fs p4] sh4] w4] |] eqn:Ef; [| done]. cbn [mbind option_bind].
  intros [= <- <-].
  assert (AlgOk sh3 (p3 ++ cs)) as Hok.
  { split; try done. apply Forall_app. split; [done |]. by apply (pop_later (shared a)). }
  destruct (fitness_all_ok _ _ _ _ _ _ _ Hg3 Hok Ef) as (Hg4 & Hok4 & L4 & Hl4 & -> & Hc4).
  split; [done |]. split; [done |]. split; [destruct L3, L4; split; cbn; congruence |]. cbn.
  split; [rewrite Hl4, length_app, Hl3, Hl; done |]. split; [by eexists | done].
Qed.

Lemma get_best_ok sh w p k p' sh' w' : good w → AlgOk sh p → get_best env view sh w p = Some (k, p', sh', w') →
  good w' ∧ AlgOk sh' p' ∧ later sh sh' ∧ (all_cached p → all_cached p').
Proof using LawfulEnv0 Hview.
  intros Hg Hok. destruct p as [| x [| y p]]; cbn [get_best]; [done | by intros [= <- <- <- <-] |].
  destruct (fitness_all _ _ _ _ _) as [[[[fs p1] sh1] w1] |] eqn:E; [| done]. cbn [mbind option_bind].
  intros [= <- <- <- <-]. by destruct (fitness_all_ok _ _ _ _ _ _ _ Hg Hok E) as (? & ? & ? & _ & _ & ?).
Qed.

Lemma later_trans sh1 sh2 sh3 : later sh1 sh2 → later sh2 sh3 → later sh1 sh3.
Proof. intros [] []. split; congruence. Qed.

Lemma alg_step_ok fuel w a a' w' : good w → alg_ok a →
  alg_step env view std_sort pow fuel w a = Some (a', w') →
  good w' ∧ alg_ok a' ∧ same_base a a' ∧ all_cached (population a').
Proof using LawfulEnv0 Hview Hsort Hlen.
  intros Hg Ha. unfold alg_step. destruct (kind a); intros E.
  - by eapply ea_step_ok.
  - by destruct (ga_step_ok _ _ _ _ _ _ _ _ _ Hg Ha E) as (? & ? & ? & _ & _ & ?).
Qed.

Context (clock rss : Z → Z).

Lemma proceed_ok l w a b l' a' w' : good w → alg_ok a →
  proceed env view clock rss l w a = Some (b, l', a', w') →
  good w' ∧ alg_ok a' ∧ same_base a a' ∧ (all_cached (population a) → all_cached (population a')).
Proof using LawfulEnv0 Hview.
  intros Hg Ha. unfold proceed. destruct (has_unvisited_points _); [| by intros [= <- <- <- <-]].
  destruct (get_best _ _ _ _ _) as [[[[k p] sh] w1] |] eqn:Eb; [| done]. cbn [mbind option_bind].
  destruct (get_best_ok _ _ _ _ _ _ _ Hg Ha Eb) as (Hg1 & [A B C] & L1 & Hc1).
  destruct (p !! k) as [best |] eqn:Ek; [| done]. cbn [mbind option_bind].
  destruct (fitness env view sh w1 best) as [[[[f best'] sh2] w2] |] eqn:Ef; [| done]. cbn [mbind option_bind].
  pose proof (Forall_lookup_1 _ _ _ _ C Ek) as Hi.
  destruct (fitness_step _ _ _ _ _ _ _ Hg1 (Build_AlgOk sh [best] A B (Forall_cons_2 _ _ _ Hi (Forall_nil_2 _))) Ef)
    as (Hg2 & [A2 B2 [Hi2 _]%Forall_cons_1] & L2 & _ & _ & _ & Hcb).
  destruct (limit_proceed _ _). intros [= <- <- <- <-]. split; [done |].
  split; [| split; [by eapply later_trans | intros Hc; by apply Forall_insert; [apply Hc1 |]]].
  split; cbn; try done. apply Forall_insert; [by apply (pop_later sh) | done].
Qed.

Lemma process_loop_ok (fuel efuel : nat) : ∀ l w a l' a' w', good w → alg_ok a →
  process_loop env view std_sort pow clock rss fuel efuel l w a = Some (l', a', w') →
  good w' ∧ alg_ok a' ∧ same_base a a' ∧ all_cached (population a').
Proof using LawfulEnv0 Hview Hsort Hlen.
  induction fuel as [| fuel IH]; intros l w a l' a' w' Hg Ha; cbn [process_loop]; [done |].
  destruct (alg_step _ _ _ _ _ _ _) as [[a1 w1] |] eqn:E1; [| done]. cbn [mbind option_bind].
  destruct (alg_step_ok _ _ _ _ _ Hg Ha E1) as (Hg1 & Ha1 & L1 & C1).
  destruct (get_best _ _ _ _ _) as [[[[k p] sh] w2] |] eqn:E2; [| done]. cbn [mbind option_bind].
  destruct (get_best_ok _ _ _ _ _ _ _ Hg1 Ha1 E2) as (Hg2 & Ha2 & L2 & C2).
  pose proof (later_trans _ _ _ L1 L2) as L12.
  case_match_goal; [intros [= <- <- <-]; by auto |].
  destruct (proceed _ _ _ _ _ _ _) as [[[[b l3] a3] w3] |] eqn:E3; [| done]. cbn [mbind option_bind].
  match type of E3 with proceed _ _ _ _ _ _ ?a2 = _ =>
    destruct (proceed_ok _ _ a2 _ _ _ _ Hg2 Ha2 E3) as (Hg3 & Ha3 & L3 & C3) end.
  assert (same_base a a3) as L13 by (eapply later_trans; [exact L12 | exact L3]). destruct b.
  - intros E4. destruct (IH _ _ _ _ _ _ Hg3 Ha3 E4) as (Hg4 & Ha4 & L4 & C4).
    split; [done |]. split; [done |]. split; [by eapply later_trans | done].
  - intros [= <- <- <-]. split; [done |]. split; [done |]. split; [done |]. by apply C3, C2.
Qed.

(** ** A whole run *)

Lemma ga_fill_ok (k : nat) : ∀ w a fits a' fits' w', good w → alg_ok a →
  ga_fill env view k w a fits = Some (a', fits', w') → good w' ∧ alg_ok a' ∧ same_base a a'.
Proof using LawfulEnv0 Hview Hlen.
  induction k as [| k IH]; intros w a fits a' fits' w' Hg Ha; cbn [ga_fill]; [by intros [= <- <- <-] |].
  pose proof (new_instance_ok (shared a) w Hg) as Hn. destruct (new_instance env view w) as [i w1].
  destruct Hn as [Hg1 Hi]. destruct Ha as [A B C].
  destruct (fitness env view (shared a) w1 i) as [[[[f i'] sh2] w2] |] eqn:Ef; [| done]. cbn [mbind option_bind].
  destruct (fitness_step _ _ _ _ _ _ _ Hg1 (Build_AlgOk (shared a) [i] A B (Forall_cons_2 _ _ _ Hi (Forall_nil_2 _))) Ef)
    as (Hg2 & [A2 B2 C2] & L2 & _ & _ & _ & _). intros E.
  match type of E with ga_fill _ _ _ _ ?a1 ?fits1 = _ =>
    assert (alg_ok a1) as Ha1; [| destruct (IH w2 a1 fits1 _ _ _ Hg2 Ha1 E) as (H1 & H2 & H3)] end.
  - split; cbn; try done. apply Forall_app. split; [by apply (pop_later (shared a)) | done].
  - split; [done |]. split; [done |]. by eapply later_trans.
Qed.

Lemma prepare_ok w a a' w' : good w → alg_ok a → alg_prepare env view w a = Some (a', w') →
  good w' ∧ alg_ok a' ∧ same_base a a'.
Proof using LawfulEnv0 Hview Hlen.
  intros Hg Ha. unfold alg_prepare. destruct (kind a) as [m | m c q h fits].
  - intros E. unfold add_instance in E. pose proof (new_instance_ok (shared a) w Hg) as Hn.
    destruct (new_instance env view w) as [i w1]. destruct Hn as [Hg1 Hi]. injection E as <- <-.
    split; [done |]. split; [| by split]. destruct Ha as [A B C]. split; cbn; try done.
    apply Forall_app. split; [done | by apply Forall_cons_2; [| apply Forall_nil_2]].
  - destruct (ga_fill _ _ _ _ _ _) as [[[a1 fits1] w1] |] eqn:Ef; [| done]. cbn [mbind option_bind].
    intros [= <- <-]. destruct (ga_fill_ok _ _ _ _ _ _ _ Hg Ha Ef) as (H1 & H2 & H3). done.
Qed.

(** Conflicts without a base assumption remain conflicts with one. *)
Lemma fit_sound_base base m f : fit_sound F tr view [] m f → fit_sound F tr view base m f.
Proof.
  intros H Hs a Ha. specialize (H Hs a Ha). unfold conflicts_with in *. eapply UPconfl_mono, H.
  intros l. unfold lit_on. rewrite !elem_of_app, elem_of_nil. tauto.
Qed.

Lemma set_base_ok a base : alg_ok a → base_assumption (shared a) = [] → Forall (lit_ok n) base →
  alg_ok (set_base_assumption a base).
Proof.
  intros [[S1 S2 S3 S4] B C] Hb Hbase. split; cbn; try done.
  - split; cbn; try done. intros m f Hm. apply fit_sound_base. rewrite <- Hb. by apply S3.
  - eapply Forall_impl; [exact C |]. intros i [Hm Hi]. split; [done |]. cbn. intros Hc.
    apply fit_sound_base. rewrite <- Hb. by apply Hi.
Qed.
(** A whole run, and the best instance after it. *)
Lemma run_ok l l' fuel efuel base w0 w1 w2 a0 a1 a2 : good w0 → alg_ok a0 →
  base_assumption (shared a0) = [] → Forall (lit_ok n) base →
  alg_prepare env view w0 a0 = Some (a1, w1) →
  process env view std_sort pow clock rss fuel efuel l w1 (set_base_assumption a1 base) = Some (l', a2, w2) →
  good w2 ∧ alg_ok a2 ∧ all_cached (population a2) ∧ base_assumption (shared a2) = base.
Proof using LawfulEnv0 Hview Hsort Hlen.
  intros Hg Ha0 Hb0 Hbase E1 E2.
  destruct (prepare_ok w0 a0 a1 w1 Hg Ha0 E1) as (Hg1 & Ha1 & [L1 _]).
  assert (alg_ok (set_base_assumption a1 base)) as Ha1' by (apply set_base_ok; [done | congruence | done]).
  destruct (process_loop_ok _ _ _ _ _ _ _ _ Hg1 Ha1' E2) as (Hg2 & Ha2 & [L2 _] & C2). done.
Qed.

Lemma best_ok w a k p sh w' best : good w → alg_ok a → all_cached (population a) →
  get_best env view (shared a) w (population a) = Some (k, p, sh, w') → p !! k = Some best →
  good w' ∧ mask_ok view (mask best) ∧
  (is_sbs best = true → backdoor F tr view (base_assumption (shared a)) (mask best)).
Proof using LawfulEnv0 Hview.
  intros Hg Ha Hc E Ek. destruct (get_best_ok _ _ _ _ _ _ _ Hg Ha E) as (Hg' & [_ _ Hp] & [L _] & C).
  pose proof (Forall_lookup_1 _ _ _ _ Hp Ek) as [Hm Hf].
  pose proof (Forall_lookup_1 _ _ _ _ (C Hc) Ek) as Hb. simpl in Hb.
  split; [done |]. split; [done |]. rewrite <- L. exact (Hf Hb).
Qed.
End EvolSpec.

(** ** The properties *)

(** C7. A run of an evolutionary algorithm ([prepare],
    [set_base_assumption], [process], [get_best]) that ends with a best instance
    that is a strong backdoor proves that the clauses have no model under the
    base assumption, for the (1+1)-EA and the GA, every mutation and crossover,
    every generator and every order in which [std::sort] leaves equals. *)
Theorem evolution_sbs_sound {W} (env : EvolEnv W) good n F tr view std_sort pow clock rss
    (a0 a1 a2 : Algorithm) l l' base w0 w1 w2 w3 fuel efuel k p sh best :
  LawfulEnv env good n F tr → Forall (λ v, 0 <= v < n) view → 0 < Z.of_nat (length view) < 2 ^ 32 →
  (∀ lt l, std_sort lt l ≡ₚ l) → good w0 →
  SharedOk n F tr view (shared a0) → 0 <= base_samples (sampling_config (shared a0)) < 2 ^ 64 →
  base_assumption (shared a0) = [] → population a0 = [] → Forall (lit_ok n) base →
  alg_prepare env view w0 a0 = Some (a1, w1) →
  process env view std_sort pow clock rss fuel efuel l w1 (set_base_assumption a1 base) = Some (l', a2, w2) →
  get_best env view (shared a2) w2 (population a2) = Some (k, p, sh, w3) → p !! k = Some best →
  is_sbs best = true → ¬ satisfiable F (lit_on (tr ++ base)).
Proof.
  intros HL Hv Hlen Hsort Hg Hsh Hs Hb0 Hp0 Hbase E1 E2 E3 Ek Hsbs.
  assert (alg_ok n F tr view a0) as Ha0 by (split; [done | done | rewrite Hp0; apply Forall_nil_2]).
  destruct (run_ok env good n F tr view Hv Hlen std_sort Hsort pow clock rss l l' fuel efuel base w0 w1 w2 a0 a1 a2)
    as (Hg2 & Ha2 & C2 & <-); [done .. |].
  destruct (best_ok env good n F tr view Hv w2 a2 k p sh w3 best) as (_ & _ & Hbd); [done .. |].
  by apply (backdoor_unsat F tr view _ (mask best)), Hbd.
Qed.

(** A crossover keeps the multiset of bits at every position: each child has
    the bit of one parent and its sibling the bit of the other. *)
Theorem crossover_exchanges {W} (env : EvolEnv W) good n F tr view c w a b i :
  LawfulEnv env good n F tr → 0 < Z.of_nat (length view) < 2 ^ 32 → good w →
  length (mask a) = length view → length (mask b) = length view →
  let '(a', b', _) := crossover_apply env view c w a b in
  cached a' = false ∧ cached b' = false ∧
  (mask a' !! i = mask a !! i ∧ mask b' !! i = mask b !! i ∨
   mask a' !! i = mask b !! i ∧ mask b' !! i = mask a !! i).
Proof.
  intros HL Hlen Hg Ha Hb. unfold crossover_apply.
  destruct (cross_range env good n F tr view Hlen c w (mask a) (mask b) Hg Ha Hb) as (lo & hi & w' & -> & _ & Hr).
  destruct (swap_ranges_lookup (mask a) (mask b) lo hi i) as [H1 H2]; [congruence | done |].
  destruct (swap_ranges _ _ _ _) as [ma mb]. simpl in *. split; [done |]. split; [done |].
  rewrite H1, H2. case_decide; auto.
Qed.

(** When [q - h] is odd a step of the GA leaves one instance fewer than
    [fits_] has entries: the stale entry stays in the distribution, and a
    parent drawn from it is read past the end of the population. *)
Theorem ga_stale_parent {W} (env : EvolEnv W) good n F tr view std_sort pow m c q h fits w a a' w' :
  LawfulEnv env good n F tr → Forall (λ v, 0 <= v < n) view → 0 < Z.of_nat (length view) < 2 ^ 32 →
  (∀ lt l, std_sort lt l ≡ₚ l) → good w → alg_ok n F tr view a →
  (h <= q)%nat → Nat.odd (q - h) = true → length (population a) = q → length fits = q →
  ga_step env view std_sort pow m c q h fits w a = Some (a', w') →
  length (population a') = (q - 1)%nat ∧
  (∃ m' fits', kind a' = GA m' c q h fits' ∧ length fits' = q ∧ fits' !! (q - 1)%nat = fits !! (q - 1)%nat) ∧
  ∀ m1 fits1 w1 ps w2, (2 <= q - h)%nat → choose env fits1 (q - h) w1 = ((q - 1)%nat :: ps, w2) →
    ga_step env view std_sort pow m1 c q h fits1 w1 a' = None.
Proof.
  intros HL Hv Hlen Hsort Hg Ha Hhq Hodd Hp Hf E.
  destruct (ga_step_ok env good n F tr view Hv Hlen std_sort Hsort pow m c q h fits w a a' w' Hg Ha E)
    as (_ & _ & _ & Hl & (m' & Hk) & _).
  assert (length (population a') = (q - 1)%nat) as Hl'.
  { rewrite Hl, Hp. pose proof (Nat.div2_odd (q - h)) as Hd. rewrite Hodd in Hd. simpl in Hd.
    rewrite Nat.min_l by lia. lia. }
  pose proof (Nat.div2_odd (q - h)) as Hd. rewrite Hodd in Hd. simpl in Hd.
  split; [done |]. split.
  - exists m', (recalculate env fits (fit_ <$> population a')). split; [done |]. unfold recalculate.
    rewrite length_app, length_drop, !length_fmap, Hl'. split; [lia |].
    rewrite lookup_app_r by (rewrite !length_fmap, Hl'; lia). rewrite !length_fmap, Hl', lookup_drop.
    f_equal. lia.
  - intros m1 fits1 w1 ps w2 Hq Ec. unfold ga_step. rewrite Ec.
    destruct (Nat.div2 (q - h)) as [| d] eqn:Ed; [lia |]. destruct ps as [| p2 ps]; [done |].
    cbn [make_children]. rewrite (lookup_ge_None_2 (population a') (q - 1)) by (rewrite Hl'; lia). done.
Qed.
