(* ===== verification/Preprocess.v ===== *)
(** * Preprocessing: the variables worth searching

    [core/evol/method/preprocess/Preprocess.cpp]: every variable is scored by
    the number of variables that its two literals propagate, the solvers of the
    engine sharing the work, and the view maps the first positions to the best
    ones.  The threads append their scores in any order; they are sorted
    afterwards, and scores are pairwise different pairs. *)
From stdpp Require Import sorting.
From S2P Require Import Prelude Lit UnitProp Domain Engine.

(** A score: (propagated variables, variable). *)
Definition Score : Type := Z * Z.

Definition score_le (a b : Score) : Prop := a.1 < b.1 ∨ a.1 = b.1 ∧ a.2 <= b.2.

#[export] Instance score_le_dec a b : Decision (score_le a b).
Proof. unfold score_le. apply _. Defined.

Definition score_ge (a b : Score) : Prop := score_le b a.

Definition max_watched_count : nat := Z.to_nat 10000.

Section Preprocess.
Context {S : Type} (K : Checker S).

(** [collect_stats]. *)
Definition collect_stats (st : S) (a : list Lit) (collection : gset Z) : option (S * gset Z) :=
  '(st, _, propagated) ← ck_check_propagated K st a;
  Some (st, list_to_set (var <$> propagated) ∪ collection).

(** The body of a thread's loop. *)
Definition score_var (st : S) (v : Z) : option (S * Score) :=
  '(st, both) ← collect_stats st [mkLit v true] ∅;
  '(st, both) ← collect_stats st [mkLit v false] both;
  Some (st, (Z.of_nat (size both), v)).

Fixpoint score_vars (st : S) (vs : list Z) : option (S * list Score) :=
  match vs with
  | [] => Some (st, [])
  | v :: vs =>
      '(st, s) ← score_var st v;
      '(st, ss) ← score_vars st vs;
      Some (st, s :: ss)
  end.

(** The ranges of the threads: (start, length). *)
Fixpoint thread_ranges (k : nat) (i start num per_thread add : Z) : list (Z * Z) :=
  match k with
  | O => []
  | Datatypes.S k =>
      if start <? num then
        let end_ := Z.min num (u32 (start + u32 (per_thread + Z.b2z (i <? add)))) in
        (start, end_ - start) :: thread_ranges k (i + 1) end_ num per_thread add
      else []
  end.

Definition ranges (num concurrency : Z) : list (Z * Z) :=
  thread_ranges (Z.to_nat concurrency) 0 0 num (num / concurrency) (num mod concurrency).

(** The scores of all threads, each on its own worker. *)
Fixpoint all_scores (workers : list S) (rs : list (Z * Z)) : option (list S * list Score) :=
  match workers, rs with
  | st :: workers, (start, len) :: rs =>
      '(st, ss) ← score_vars st (seqZ start len);
      '(workers, sss) ← all_scores workers rs;
      Some (st :: workers, ss ++ sss)
  | _, _ => Some (workers, [])
  end.

(** The last loop: [it] walks down the sorted scores; reading at [crend()] is
    undefined. *)
Fixpoint take_vars (n : nat) (it : list Score) : option (list Z) :=
  match n with
  | O => Some []
  | Datatypes.S n =>
      match it with
      | [] => None
      | (c, v) :: it => if 1 <? c then view ← take_vars n it; Some (v :: view) else Some []
      end
  end.

(** [preprocess]: [None] is undefined, the flag says whether the variables are
    meaningful. *)
Definition preprocess (num_vars : Z) (workers : list S) : option (list S * bool * list Z) :=
  if num_vars =? 0 then Some (workers, false, [])
  else
    '(workers, scores) ← all_scores workers (ranges num_vars (Z.of_nat (length workers)));
    let it := rev (merge_sort score_le scores) in
    best ← head it;
    if best.1 <=? 1 then Some (workers, false, [])
    else
      view ← take_vars max_watched_count it;
      Some (workers, true, view).
End Preprocess.

(** ** Facts *)

#[export] Instance score_le_total : Total score_le.
Proof. intros [a b] [c d]. unfold score_le. simpl. lia. Qed.

#[export] Instance score_le_trans : Transitive score_le.
Proof. intros [a b] [c d] [e f]. unfold score_le. simpl. lia. Qed.

(** The ranges cut [0, num) into consecutive pieces. *)
Lemma thread_ranges_spec (k : nat) : ∀ i start num per_thread add, 0 <= i → 0 <= start <= num →
  num < 2 ^ 32 → 0 <= per_thread < 2 ^ 31 → num - start = per_thread * Z.of_nat k + Z.max 0 (add - i) →
  add <= i + Z.of_nat k →
  concat ((λ '(a, len), seqZ a len) <$> thread_ranges k i start num per_thread add) = seqZ start (num - start).
Proof.
  induction k as [| k IH]; intros i start num per_thread add Hi Hs Hn Hp He Ha; cbn [thread_ranges].
  { replace (num - start) with 0 by lia. done. }
  destruct (Z.ltb_spec start num) as [Hlt | Hge]; [| by replace (num - start) with 0 by lia].
  assert (0 <= Z.b2z (i <? add) <= 1) by (destruct (i <? add); simpl; lia).
  assert (u32 (per_thread + Z.b2z (i <? add)) = per_thread + Z.b2z (i <? add)) as -> by (apply Z.mod_small; lia).
  assert (start + (per_thread + Z.b2z (i <? add)) <= num) as Hle.
  { destruct (Z.ltb_spec i add); simpl; nia. }
  assert (u32 (start + (per_thread + Z.b2z (i <? add))) = start + (per_thread + Z.b2z (i <? add))) as ->
    by (apply Z.mod_small; lia).
  rewrite Z.min_r by lia. csimpl. rewrite IH; try lia.
  - set (e := per_thread + Z.b2z (i <? add)) in *. replace (start + e - start) with e by lia.
    replace (num - start) with (e + (num - (start + e))) by lia. by rewrite seqZ_app by lia.
  - destruct (Z.ltb_spec i add); simpl; lia.
Qed.

Lemma take_vars_none n it : Forall (λ s, 1 < s.1) it → (length it < n)%nat → take_vars n it = None.
Proof.
  intros H. revert n. induction H as [| [c v] it Hc _ IH]; intros [| n] Hn; simpl in Hn; try lia; [done |].
  cbn [take_vars]. simpl in Hc. destruct (Z.ltb_spec 1 c); [| lia]. rewrite IH by lia. done.
Qed.

Lemma take_vars_some n it view : take_vars n it = Some view →
  ∃ k, (k <= n)%nat ∧ view = snd <$> take k it ∧ Forall (λ s, 1 < s.1) (take k it) ∧
    ((k < n)%nat → ∃ s, it !! k = Some s ∧ s.1 <= 1).
Proof.
  revert it view. induction n as [| n IH]; intros it view; cbn [take_vars].
  { intros [= <-]. exists O. repeat split; [lia | constructor | lia]. }
  destruct it as [| [c v] it]; [done |]. destruct (Z.ltb_spec 1 c) as [Hc | Hc].
  - destruct (take_vars n it) as [view' |] eqn:E; [| done]. simpl. intros [= <-].
    destruct (IH _ _ E) as (k & Hk & -> & Hf & Hl). exists (Datatypes.S k). split; [lia |].
    split; [done |]. split; [by constructor |]. intros ?. apply Hl. lia.
  - intros [= <-]. exists O. split; [lia |]. split; [done |]. split; [constructor |]. intros _.
    by exists (c, v).
Qed.

(** Scores carry the variables of the ranges, in order. *)
Lemma score_vars_vars {S} (K : Checker S) vs : ∀ st st' ss, score_vars K st vs = Some (st', ss) → ss.*2 = vs.
Proof.
  induction vs as [| v vs IH]; intros st st' ss; cbn [score_vars]; [by intros [= <- <-] |].
  destruct (score_var K st v) as [[st1 s] |] eqn:E1; [| done]. cbn [mbind option_bind].
  destruct (score_vars K st1 vs) as [[st2 ss2] |] eqn:E2; [| done]. cbn [mbind option_bind].
  intros [= <- <-]. csimpl. rewrite (IH _ _ _ E2). f_equal. unfold score_var in E1.
  destruct (collect_stats _ _ _ _) as [[? ?] |]; [| done]. cbn [mbind option_bind] in E1.
  destruct (collect_stats _ _ _ _) as [[? ?] |]; [| done]. by injection E1 as <- <-.
Qed.

Lemma all_scores_vars {S} (K : Checker S) rs : ∀ workers ws ss, (length rs <= length workers)%nat →
  all_scores K workers rs = Some (ws, ss) → ss.*2 = concat ((λ '(a, len), seqZ a len) <$> rs).
Proof.
  induction rs as [| [a len] rs IH]; intros [| st workers] ws ss Hl; cbn [all_scores];
    try (by intros [= <- <-]); simpl in Hl; try lia.
  destruct (score_vars K st (seqZ a len)) as [[st1 ss1] |] eqn:E1; [| done]. cbn [mbind option_bind].
  destruct (all_scores K workers rs) as [[ws2 ss2] |] eqn:E2; [| done]. cbn [mbind option_bind].
  intros [= <- <-]. rewrite fmap_app. csimpl. rewrite (score_vars_vars _ _ _ _ _ E1).
  f_equal. eapply IH; [| exact E2]. lia.
Qed.

Lemma ranges_spec num c : 0 < num < 2 ^ 31 → 0 < c →
  concat ((λ '(a, len), seqZ a len) <$> ranges num c) = seqZ 0 num.
Proof.
  intros Hn Hc. unfold ranges. pose proof (Z.div_mod num c ltac:(lia)). pose proof (Z.mod_pos_bound num c ltac:(lia)).
  pose proof (Z.div_pos num c ltac:(lia) ltac:(lia)). pose proof (Z.div_le_upper_bound num c num ltac:(lia) ltac:(nia)).
  rewrite thread_ranges_spec; try lia. f_equal; lia.
Qed.

Lemma length_thread_ranges k : ∀ i start num p a, (length (thread_ranges k i start num p a) <= k)%nat.
Proof.
  induction k as [| k IH]; intros; cbn [thread_ranges]; [simpl; lia |].
  case_match_goal; simpl; [specialize (IH (i + 1) (Z.min num (u32 (start + u32 (p + Z.b2z (i <? a))))) num p a) |]; lia.
Qed.

Lemma workers_pos {A} (l : list A) : l ≠ [] → 0 < Z.of_nat (length l).
Proof. destruct l; [done | simpl; lia]. Qed.

(** Reversing an ascending list. *)
Lemma sorted_rev l : Sorted score_le l → Sorted score_ge (rev l).
Proof.
  intros Hl. apply StronglySorted_Sorted. apply Sorted_StronglySorted in Hl; [| apply _].
  induction Hl as [| x l _ IH Hx]; [constructor |]. cbn [rev]. apply StronglySorted_app_2.
  - intros y z Hy ->%list_elem_of_singleton. unfold score_ge. rewrite Forall_forall in Hx. apply Hx.
    apply list_elem_of_In, in_rev, list_elem_of_In. done.
  - done.
  - constructor; constructor.
Qed.

(** ** The properties *)

(** When preprocessing accepts the problem, the view lists pairwise
    different variables of the formula, best score first, all of which
    propagate at least two variables, and it leaves out a variable only for a
    score of at most 1 or after 10000 entries. *)
Theorem preprocess_view {S} (K : Checker S) num workers ws view : 0 < num < 2 ^ 31 → workers ≠ [] →
  preprocess K num workers = Some (ws, true, view) →
  ∃ scores, scores.*2 ≡ₚ seqZ 0 num ∧ Sorted score_ge scores ∧
    ∃ k, view = snd <$> take k scores ∧ Forall (λ s, 1 < s.1) (take k scores) ∧ (k <= max_watched_count)%nat ∧
      NoDup view ∧ ((k < max_watched_count)%nat → ∃ s, scores !! k = Some s ∧ s.1 <= 1).
Proof.
  intros Hn Hw. unfold preprocess. destruct (Z.eqb_spec num 0); [lia |].
  destruct (all_scores _ _ _) as [[ws1 ss] |] eqn:E; [| done]. cbn [mbind option_bind].
  apply all_scores_vars in E; [| unfold ranges; etrans; [apply length_thread_ranges | lia]].
  rewrite ranges_spec in E by (apply Hn || by apply workers_pos).
  set (it := rev (merge_sort score_le ss)).
  assert (it.*2 ≡ₚ seqZ 0 num) as Hit.
  { rewrite <- E. f_equiv. unfold it. rewrite <- Permutation_rev. apply merge_sort_Permutation. }
  destruct (head it) as [best |]; [| done]. cbn [mbind option_bind]. destruct (best.1 <=? 1); [done |].
  destruct (take_vars max_watched_count it) as [v |] eqn:Et; [| done]. cbn [mbind option_bind].
  intros [= <- <-]. exists it. split; [done |]. split.
  { apply sorted_rev. apply Sorted_merge_sort. apply _. }
  destruct (take_vars_some _ _ _ Et) as (k & Hk & -> & Hf & Hl). exists k. split; [done |]. split; [done |].
  split; [done |]. split; [| done]. rewrite fmap_take.
  assert (NoDup it.*2) as Hnd by (rewrite Hit; apply NoDup_seqZ).
  rewrite <- (take_drop k it.*2) in Hnd. by apply NoDup_app in Hnd as (? & _ & _).
Qed.

(** The last loop has no test for the end of the scores: when every
    variable of a formula with fewer than 10000 of them propagates another
    one, it reads past the end. *)
Theorem preprocess_past_end {S} (K : Checker S) num workers ws ss : 0 < num < 10000 → workers ≠ [] →
  all_scores K workers (ranges num (Z.of_nat (length workers))) = Some (ws, ss) →
  Forall (λ s, 1 < s.1) ss → preprocess K num workers = None.
Proof.
  intros Hn Hw E Hall. pose proof E as Ev.
  apply all_scores_vars in Ev; [| unfold ranges; etrans; [apply length_thread_ranges | lia]].
  rewrite ranges_spec in Ev by (lia || by apply workers_pos).
  apply (f_equal length) in Ev. rewrite length_fmap, length_seqZ in Ev.
  unfold preprocess. destruct (Z.eqb_spec num 0); [lia |]. rewrite E. cbn [mbind option_bind].
  assert (rev (merge_sort score_le ss) ≡ₚ ss) as Hp.
  { rewrite <- Permutation_rev. apply merge_sort_Permutation. }
  set (it := rev (merge_sort score_le ss)) in *.
  assert (Forall (λ s, 1 < s.1) it) as Hit by (by rewrite Hp).
  assert (length it = Z.to_nat num) as Hlen by (etrans; [exact (Permutation_length Hp) | exact Ev]).
  destruct it as [| best it'] eqn:Eit; [simpl in Hlen; lia |]. cbn [head mbind option_bind].
  pose proof (Forall_inv Hit) as Hb. simpl in Hb. destruct (Z.leb_spec best.1 1); [lia |].
  rewrite take_vars_none; [done | exact Hit |].
  refine (eq_ind_r (λ n, (n < max_watched_count)%nat) _ Hlen). unfold max_watched_count. lia.
Qed.
