(* ===== verification/EventHandler.v ===== *)
(** * The event handler

    [util/EventHandler]: a queue of events, the callbacks attached to each
    event and the thread that takes the events one after the other.  A
    callback is known by the number of its handle; what it does belongs to the
    component that attached it.  The list of an event is walked without its
    mutex in the code; here the walk of one event is one step. *)
From S2P Require Import Prelude.

Inductive Event := INTERRUPT | SHUTDOWN | SBS_FOUND.

#[export] Instance Event_eq_dec : EqDecision Event.
Proof. solve_decision. Defined.

Record EventHandler := MkHandler {
  event_queue : list Event;
  cb_map : list (nat * Event);
  next_handle : nat;
  shutdown : bool }.

#[export] Instance EventHandler_settable : Settable EventHandler := λ h,
  MkHandler (event_queue h) (cb_map h) (next_handle h) (shutdown h).

Definition new_handler : EventHandler := MkHandler [] [] 0 false.

Definition raise (e : Event) (h : EventHandler) : EventHandler :=
  h <| event_queue := event_queue h ++ [e] |>.

Definition attach (e : Event) (h : EventHandler) : EventHandler * nat :=
  (h <| cb_map := cb_map h ++ [(next_handle h, e)] |> <| next_handle := S (next_handle h) |>,
   next_handle h).

(** [detach]: only the first call unlinks. *)
Definition detach (id : nat) (h : EventHandler) : EventHandler :=
  h <| cb_map := filter (λ c, c.1 ≠ id) (cb_map h) |>.

(** The callbacks that are called for an event, in the order of attachment. *)
Definition callbacks (e : Event) (h : EventHandler) : list nat :=
  fst <$> filter (λ c, c.2 = e) (cb_map h).

(** One round of [_event_handling_thread]: waits while there is nothing to do
    ([None]), ends on shutdown, or takes an event. *)
Definition event_round (h : EventHandler) : option (EventHandler * option (Event * list nat)) :=
  if shutdown h then Some (h, None)
  else match event_queue h with
       | [] => None
       | e :: q => Some (h <| event_queue := q |>, Some (e, callbacks e h))
       end.

(** ** Facts *)

Lemma attached_called e h h' id : attach e h = (h', id) → id ∈ callbacks e h'.
Proof.
  intros [= <- <-]. unfold callbacks. cbn. rewrite filter_app, fmap_app, elem_of_app. right.
  rewrite filter_cons. cbn. rewrite decide_True by done. by left.
Qed.

Lemma detached_silent e id h : id ∉ callbacks e (detach id h).
Proof.
  unfold callbacks, detach. cbn. intros ([id' e'] & -> & Hc)%list_elem_of_fmap_1.
  rewrite !list_elem_of_filter in Hc. naive_solver.
Qed.
