(* ===== verification/RBSearch.v ===== *)
(** * Searching for a rho-backdoor

    [core/solve/rbs]: an evolutionary algorithm chooses a set of variables;
    its assignments, less those that propagation refutes, become the search of
    the solve strategies.  [OneRBSearch] runs one algorithm, and
    [CartesianRBSearch] several in threads, whose sets of assignments it
    multiplies; when one of them finds a strong backdoor it raises an event
    whose callback interrupts the others. *)
From stdpp Require Import relations.
From S2P Require Import Prelude Lit Double Domain Search Instance Evol EventHandler.

Inductive RBSReason := RBS_SBS_FOUND | RBS_INTERRUPTED.

(** [rbs_result_t]. *)
Definition rbs_result : Type := RBSReason + Search.

Section RBSearch.
Context {W : Type} (env : EvolEnv W) (view : list Z).
Context (std_sort : (Instance_ → Instance_ → bool) → list Instance_ → list Instance_).
Context (pow : double → double → double) (clock rss : Z → Z).

(** [prepare], [set_base_assumption] and [process] on a new algorithm. *)
Definition run_process (fuel efuel : nat) (l : Limit) (base : list Lit) (w : W) (a : Algorithm) :
    option (Algorithm * W) :=
  '(a, w) ← alg_prepare env view w a;
  '(_, a, w) ← process env view std_sort pow clock rss fuel efuel l w (set_base_assumption a base);
  Some (a, w).

(** [get_best()]. *)
Definition best_instance (w : W) (a : Algorithm) : option (Instance_ * W) :=
  '(k, p, _, w) ← get_best env view (shared a) w (population a);
  best ← p !! k;
  Some (best, w).

(** The variables of the backdoor that the base assumption does not assign. *)
Definition backdoor_vars (base : list Lit) (rb : Instance_) : list Z :=
  filter_vars (map_to_vars view (mask rb)) (get_vars base).

(** [createFullSearch]: from 64 variables on the shift of its constructor is
    undefined behaviour, [None]. *)
Definition full_search (vars : list Z) : option Search :=
  if Nat.ltb 63 (length vars) then None else Some (createFullSearch vars).

(** ** [OneRBSearch::find_rb] *)

(** [interrupted] is what [_is_interrupted()] reads after the algorithm. *)
Definition one_find_rb (fuel efuel : nat) (l : Limit) (a : Algorithm) (base : list Lit)
    (interrupted : bool) (w : W) : option (rbs_result * W) :=
  '(a, w) ← run_process fuel efuel l base w a;
  if interrupted then Some (inl RBS_INTERRUPTED, w)
  else
    '(rb, w) ← best_instance w a;
    if is_sbs rb then Some (inl RBS_SBS_FOUND, w)
    else s ← full_search (backdoor_vars base rb); Some (inr s, w).

(** ** [CartesianRBSearch] *)

(** A thread of [_pre_solve] with the assignments it has collected:
    not started; started; past [process]; in [prop_search], with the
    assignments that are still to be checked; past it; ended. *)
Inductive CThread :=
  | CNew (w : W)
  | CReady (w : W)
  | CProcessed (a : Algorithm) (w : W)
  | CSearch (todo : list (list Lit)) (nca : list (list Lit))
  | CSearched (nca : list (list Lit))
  | CDone (nca : list (list Lit)).

Record CState := MkCState {
  c_interrupted : bool;
  sbs_found : bool;
  handler : EventHandler;
  sbs_handle : nat;
  c_threads : list CThread }.

#[export] Instance CState_settable : Settable CState := λ s,
  MkCState (c_interrupted s) (sbs_found s) (handler s) (sbs_handle s) (c_threads s).

(** The start of [_pre_solve]: the callback is attached, the threads are to
    be launched; every thread has a world of its own. *)
Definition pre_solve_start (interrupted : bool) (h : EventHandler) (ws : list W) : CState :=
  let '(h, id) := attach SBS_FOUND h in MkCState interrupted false h id (CNew <$> ws).

Definition set_thread (s : CState) (i : nat) (t : CThread) : CState :=
  s <| c_threads := <[i := t]> (c_threads s) |>.

(** [_raise_for_sbs]: only the first thread raises. *)
Definition raise_for_sbs (s : CState) : CState :=
  if sbs_found s then s
  else s <| sbs_found := true |> <| handler := raise SBS_FOUND (handler s) |>.

(** [_is_interrupted() || _sbs_found]. *)
Definition stopping (s : CState) : bool := c_interrupted s || sbs_found s.

(** The event thread: the callback interrupts and detaches itself. *)
Definition dispatch (s : CState) : option CState :=
  match event_round (handler s) with
  | Some (h, Some (_, ids)) =>
      if decide (sbs_handle s ∈ ids)
      then Some (s <| c_interrupted := true |> <| handler := detach (sbs_handle s) h |>)
      else Some (s <| handler := h |>)
  | _ => None
  end.

Context (fuel efuel : nat) (l : Limit) (alg : Algorithm) (base : list Lit).

(** The answer of the propagation engine about an assignment. *)
Context (conflict : list Lit → bool).

Context {R : Type} (sample : R → Z → Z → Z * R).

(** What a thread does after [process]: it gives up, has found a strong
    backdoor, or starts the search over the variables. *)
Definition after_process (s : CState) (i : nat) (a : Algorithm) (w : W) (r : R) : option CState :=
  if stopping s then Some (set_thread s i (CDone []))
  else
    '(rb, _) ← best_instance w a;
    if is_sbs rb then Some (set_thread (raise_for_sbs s) i (CDone []))
    else
      search ← full_search (backdoor_vars base rb);
      '(todo, _) ← visit sample 0 (S (Z.to_nat (s_total search))) r search;
      Some (set_thread s i (CSearch todo [])).

(** The callback of [prop_search] on one assignment. *)
Definition collect (nca : list (list Lit)) (a : list Lit) : list (list Lit) :=
  if conflict a then nca else nca ++ [a].

(** After [prop_search]: nothing left is a strong backdoor too. *)
Definition after_search (s : CState) (i : nat) (nca : list (list Lit)) : CState :=
  set_thread (if decide (nca = []) then raise_for_sbs s else s) i (CDone nca).

Inductive cstep (s : CState) : CState → Prop :=
  (* the loop that launches the threads, in order, unless interrupted *)
  | c_launch i w : c_threads s !! i = Some (CNew w) → (∀ j w', (j < i)%nat → c_threads s !! j ≠ Some (CNew w')) →
      c_interrupted s = false → cstep s (set_thread s i (CReady w))
  | c_skip i w : c_threads s !! i = Some (CNew w) → c_interrupted s = true →
      cstep s (set_thread s i (CDone []))
  (* prepare, process: an interrupted algorithm returns early, and so does the thread *)
  | c_process i w a w' : c_threads s !! i = Some (CReady w) →
      run_process fuel efuel l base w alg = Some (a, w') →
      cstep s (set_thread s i (CProcessed a w'))
  | c_cut i w : c_threads s !! i = Some (CReady w) → c_interrupted s = true →
      cstep s (set_thread s i (CDone []))
  | c_choose i a w r s' : c_threads s !! i = Some (CProcessed a w) →
      after_process s i a w r = Some s' → cstep s s'
  (* one assignment is checked; the workers take them in any order *)
  | c_check i pre a post nca : c_threads s !! i = Some (CSearch (pre ++ a :: post) nca) →
      cstep s (set_thread s i (CSearch (pre ++ post) (collect nca a)))
  (* a callback that answers false ends the rest of its task *)
  | c_drop i pre dropped post nca : c_threads s !! i = Some (CSearch (pre ++ dropped ++ post) nca) →
      dropped ≠ [] → stopping s = true → cstep s (set_thread s i (CSearch (pre ++ post) nca))
  | c_searched i nca : c_threads s !! i = Some (CSearch [] nca) →
      cstep s (set_thread s i (CSearched nca))
  | c_finish i nca : c_threads s !! i = Some (CSearched nca) →
      cstep s (after_search s i nca)
  (* the event thread *)
  | c_event s' : dispatch s = Some s' → cstep s s'.

(** What others may do meanwhile: interrupt the search, or raise an event. *)
Inductive outside (s : CState) : CState → Prop :=
  | o_interrupt : outside s (s <| c_interrupted := true |>)
  | o_raise e : outside s (s <| handler := raise e (handler s) |>).

(** [thread.join()] for all threads: the collected sets. *)
Definition collected (s : CState) : option (list (list (list Lit))) :=
  mapM (λ t, match t with CDone nca => Some nca | _ => None end) (c_threads s).

(** ** [_prepare_cartesian] *)

Context (max_unpropagated max_cartesian_size : Z).

(** [std::min_element] by size: the first of the smallest. *)
Fixpoint min_set (b : list (list Lit)) (sets : list (list (list Lit))) : list (list Lit) :=
  match sets with
  | [] => b
  | x :: sets => if Nat.ltb (length x) (length b) then min_set x sets else min_set b sets
  end.

(** The loop over the sets; [size] is the product so far. *)
Fixpoint take_sets (size : Z) (sets : list (list (list Lit))) : list (list (list Lit)) :=
  match sets with
  | [] => []
  | c :: sets =>
      let cur_size := u32 (Z.of_nat (length c)) in
      if max_unpropagated <? cur_size then take_sets size sets
      else if max_cartesian_size <? u64 (cur_size * size) then take_sets size sets
      else c :: take_sets (u64 (size * cur_size)) sets
  end.

Definition chosen_sets (sets : list (list (list Lit))) : list (list (list Lit)) :=
  let m := match sets with [] => [] | b :: sets => min_set b sets end in
  if max_unpropagated <? Z.of_nat (length m) then [m] else take_sets 1 sets.

Definition prepare_cartesian (sets : list (list (list Lit))) : Search :=
  createCartesianSearch (chosen_sets sets).

(** [find_rb] from the state in which all threads have been joined. *)
Definition cartesian_result (s : CState) : option rbs_result :=
  sets ← collected s;
  Some (if sbs_found s then inl RBS_SBS_FOUND
        else if c_interrupted s then inl RBS_INTERRUPTED
        else inr (prepare_cartesian sets)).
End RBSearch.

Arguments CThread : clear implicits.
Arguments CState : clear implicits.
