(* ===== verification/RBSearchSpec.v ===== *)
(** * The searches for a rho-backdoor are sound

    A reported strong backdoor proves that there is no model under the base
    assumption, and the search that is returned otherwise loses no model: every
    model satisfies one of its assignments. *)
From stdpp Require Import relations.
From S2P Require Import Prelude Lit UnitProp Double Domain Search SearchSpec Propagate EngineSpec.
From S2P Require Import LRU Fitness Instance InstanceSpec Evol EvolSpec EventHandler RBSearch.

(** ** Sets of assignments that lose no model *)

(** [σ] satisfies an assignment of the set. *)
Definition hit (σ : Z → bool) (sets : list (list Lit)) : Prop :=
  ∃ a, a ∈ sets ∧ models_lits σ (lit_on a).

Definition covers (F : formula) (tr : list Lit) (sets : list (list Lit)) : Prop :=
  ∀ σ, models σ F → models_lits σ (lit_on tr) → hit σ sets.

(** Assignments of the same at most 63 variables. *)
Definition shaped (sets : list (list Lit)) : Prop :=
  ∃ vars : list Z, (length vars <= 63)%nat ∧ Forall (λ a, var <$> a = vars) sets.

Lemma hit_app σ xs ys : hit σ (xs ++ ys) ↔ hit σ xs ∨ hit σ ys.
Proof. unfold hit. setoid_rewrite elem_of_app. naive_solver. Qed.

Lemma models_lits_app σ a b :
  models_lits σ (lit_on (a ++ b)) ↔ models_lits σ (lit_on a) ∧ models_lits σ (lit_on b).
Proof. unfold models_lits, lit_on. setoid_rewrite elem_of_app. naive_solver. Qed.

Lemma hit_product σ sets : Forall (hit σ) sets → hit σ (product sets).
Proof.
  induction 1 as [| g sets (a & Ha & Hm) _ (b & Hb & Hm')]; cbn [product].
  - exists []. split; [by left |]. intros p Hp. by apply elem_of_nil in Hp.
  - exists (a ++ b). split; [| by apply models_lits_app]. apply list_elem_of_In, in_concat.
    eexists. split; apply list_elem_of_In; [by apply list_elem_of_fmap_2 |]. by apply list_elem_of_fmap_2.
Qed.

(** A model cannot satisfy an assignment that propagation refutes. *)
Lemma conflict_not_hit F tr σ a : conflicts_with F tr a → models σ F → models_lits σ (lit_on tr) →
  ¬ models_lits σ (lit_on a).
Proof.
  intros Hc HF Ht Ha. apply (UPconfl_unsat _ _ Hc). exists σ. split; [done |].
  by apply models_lits_app.
Qed.

(** [createFullSearch] visits the leaves of the assignment tree. *)
Lemma full_visit {R} (sample : R → Z → Z → Z * R) rounds r vars : (length vars <= 63)%nat →
  s_total (createFullSearch vars) <= Z.of_nat rounds →
  ∃ visited, visit sample 0 rounds r (createFullSearch vars) = Some (visited, r) ∧ visited ≡ₚ leaves vars.
Proof.
  intros Hl Hr. set (n := 2 ^ Z.of_nat (length vars)) in *.
  assert (0 < n < 2 ^ 64) as Hn.
  { unfold n. split; [apply Z.pow_pos_nonneg; lia | apply Z.pow_lt_mono_r; lia]. }
  assert (s_total (createFullSearch vars) = n) as Ht.
  { simpl. rewrite Z.shiftl_1_l. by apply Z.mod_small; lia. }
  exists (full_at vars <$> seqZ 0 n). split; [| apply full_at_leaves]. rewrite <- (Z2Nat.id n) by lia.
  apply (visit_spec sample 0 n _ (full_kin vars) (full_sits vars)); rewrite ?Ht in *; simpl; try lia.
  apply full_start.
Qed.

Lemma leaves_vars vars a : a ∈ leaves vars → var <$> a = vars.
Proof.
  revert a. induction vars as [| v vars IH]; intros a; cbn [leaves].
  - by intros ->%list_elem_of_singleton.
  - rewrite elem_of_app, !list_elem_of_fmap. intros [(b & -> & Hb) | (b & -> & Hb)]; csimpl;
      by rewrite var_mkLit, (IH b Hb).
Qed.

Lemma full_covers F tr vars visited : (length vars <= 63)%nat → visited ≡ₚ leaves vars →
  covers F tr visited ∧ shaped visited.
Proof.
  intros Hl Hp. split.
  - intros σ _ _. destruct (leaves_cover σ vars) as (a & Ha & Hs). exists a. by rewrite Hp.
  - exists vars. split; [done |]. apply Forall_forall. intros a. rewrite Hp. apply leaves_vars.
Qed.

Lemma full_search_some vars s : full_search vars = Some s → s = createFullSearch vars ∧ (length vars <= 63)%nat.
Proof. unfold full_search. destruct (Nat.ltb_spec 63 (length vars)); [done |]. by intros [= <-]. Qed.

(** ** [_prepare_cartesian] *)

Lemma min_set_elem b sets : min_set b sets ∈ b :: sets.
Proof.
  revert b. induction sets as [| x sets IH]; intros b; cbn [min_set]; [by left |].
  destruct (Nat.ltb _ _); [right; apply IH |]. specialize (IH b).
  apply elem_of_cons in IH as [-> | ?]; [by left | by right; right].
Qed.

Lemma take_sets_subset mu mc sets : ∀ size, take_sets mu mc size sets ⊆ sets.
Proof.
  induction sets as [| c sets IH]; intros size; cbn [take_sets]; [done |].
  repeat case_match_goal; intros x; rewrite ?elem_of_cons; [by right; eapply IH .. |].
  intros [-> | Hx]; [by left | right; by eapply IH].
Qed.

Lemma take_sets_length mu mc sets : ∀ size, (length (take_sets mu mc size sets) <= length sets)%nat.
Proof.
  induction sets as [| c sets IH]; intros size; cbn [take_sets]; [done |].
  repeat case_match_goal; simpl; specialize (IH); (etrans; [apply le_n_S, IH || apply Nat.le_le_succ_r, IH | lia]).
Qed.

(** The product of the chosen sizes stays within the configured maximum. *)
Lemma take_sets_size mu mc sets : 0 <= mc < 2 ^ 32 →
  Forall (λ s, 0 < Z.of_nat (length s) < 2 ^ 32) sets →
  ∀ size, 0 < size < 2 ^ 32 →
  let ts := take_sets mu mc size sets in
  ts = [] ∨ size * cart_size ts <= mc.
Proof.
  intros Hmc. induction 1 as [| c sets Hc _ IH]; intros size Hs; cbn [take_sets]; [by left |].
  assert (u32 (Z.of_nat (length c)) = Z.of_nat (length c)) as -> by (apply Z.mod_small; lia).
  assert (u64 (Z.of_nat (length c) * size) = Z.of_nat (length c) * size) as Hu by (apply Z.mod_small; nia).
  rewrite Z.mul_comm in Hu. rewrite (Z.mul_comm (Z.of_nat (length c))), Hu. cbn zeta in *.
  destruct (_ <? Z.of_nat _); [by apply IH |].
  destruct (Z.ltb_spec mc (size * Z.of_nat (length c))); [by apply IH |]. right.
  change (cart_size (c :: ?ts)) with (Z.of_nat (length c) * cart_size ts). rewrite Z.mul_assoc.
  destruct (IH (size * Z.of_nat (length c))) as [-> | Hle]; [nia | | done].
  change (cart_size []) with 1. lia.
Qed.

Section Cartesian.
Context (F : formula) (tr : list Lit) (mu mc : Z) (sets : list (list (list Lit))).

(** What the threads have collected. *)
Record Collected : Prop := {
  co_sets : sets ≠ [];
  co_count : Z.of_nat (length sets) < 2 ^ 26;
  co_size : Forall (λ s, 0 < Z.of_nat (length s) < 2 ^ 32) sets;
  co_shape : Forall shaped sets;
  co_cover : Forall (covers F tr) sets }.

Context (Hc : Collected) (Hmc : 0 <= mc < 2 ^ 32).

Lemma chosen_subset : chosen_sets mu mc sets ⊆ sets ∧ (length (chosen_sets mu mc sets) <= length sets)%nat.
Proof using Hc.
  destruct Hc as [Hne _ _ _ _]. unfold chosen_sets. destruct sets as [| b bs]; [done |].
  destruct (_ <? _).
  - split; [| simpl; lia]. intros x ->%list_elem_of_singleton. apply min_set_elem.
  - split; [apply take_sets_subset | apply take_sets_length].
Qed.

Lemma chosen_size : cart_size (chosen_sets mu mc sets) < 2 ^ 32.
Proof using Hc Hmc.
  destruct Hc as [Hne _ Hs _ _]. pose proof chosen_subset as [Hsub _]. unfold chosen_sets in *.
  set (m := match sets with [] => [] | b :: bs => min_set b bs end) in *.
  destruct (_ <? _).
  - change (Z.of_nat (length m) * 1 < 2 ^ 32). rewrite Forall_forall in Hs.
    specialize (Hs m (Hsub m ltac:(by left))). simpl in Hs. lia.
  - destruct (take_sets_size mu mc sets Hmc Hs 1) as [-> | Hle]; [lia | done | lia].
Qed.

Lemma shaped_uniform s : shaped s → (0 < length s)%nat → uniform s ∧ (length (default [] (head s)) <= 63)%nat.
Proof.
  intros (vars & Hl & Hv) Hp. rewrite Forall_forall in Hv.
  assert (∀ a, a ∈ s → length a = length vars) as Ha.
  { intros a Hin. by rewrite <- (Hv a Hin), length_fmap. }
  destruct s as [| a s]; [simpl in Hp; lia |]. cbn [head default].
  split; [split; [simpl; lia |] |].
  - intros b Hb. cbn. rewrite (Ha b Hb), (Ha a); [done | by left].
  - cbn. rewrite (Ha a); [done | by left].
Qed.

Lemma sum_list_le (f : list (list Lit) → nat) k xs : Forall (λ x, (f x <= k)%nat) xs →
  (sum_list (f <$> xs) <= k * length xs)%nat.
Proof. induction 1; csimpl; rewrite ?Nat.mul_succ_r; lia. Qed.

(** The product search visits the product of the chosen sets, and a model
    satisfies one of its assignments. *)
Lemma prepare_cartesian_ok {R} (sample : R → Z → Z → Z * R) rounds r :
  s_total (prepare_cartesian mu mc sets) <= Z.of_nat rounds →
  ∃ visited, visit sample 0 rounds r (prepare_cartesian mu mc sets) = Some (visited, r) ∧
    visited = product (chosen_sets mu mc sets) ∧ covers F tr visited.
Proof using Hc Hmc.
  unfold prepare_cartesian. intros Hr. pose proof chosen_size as Hsz. destruct chosen_subset as [Hsub Hlen].
  destruct Hc as [_ Hcnt Hs Hsh Hcov]. set (ch := chosen_sets mu mc sets) in *.
  rewrite Forall_forall in Hs, Hsh, Hcov.
  assert (Forall (λ s, uniform s ∧ (length (default [] (head s)) <= 63)%nat) ch) as [Hu Hw]%Forall_and.
  { apply Forall_forall. intros s Hin. apply shaped_uniform; [by apply Hsh, Hsub |].
    specialize (Hs s (Hsub s Hin)). simpl in Hs. lia. }
  assert (Z.of_nat (width ch) < 2 ^ 32) as Hwd.
  { pose proof (sum_list_le (λ g, length (default [] (head g))) 63 ch Hw). unfold width. lia. }
  assert (s_total (createCartesianSearch ch) = cart_size ch) as Ht by (by apply cartesian_total_spec).
  pose proof (size_pos ch Hu) as Hp.
  exists (product ch). split; [| split; [done |]].
  - rewrite <- cart_at_product by done. rewrite <- (Z2Nat.id (cart_size ch)) by lia.
    pose proof (cart_enumerable sample 0 ch Hu Hwd).
    apply (visit_spec sample 0 (cart_size ch) _ (cart_kin ch) (cart_sits ch)); rewrite ?Ht in *; simpl; try lia.
    by apply cart_created.
  - intros σ HF Htr. apply hit_product, Forall_forall. intros s Hin. by apply Hcov; [apply Hsub | ..].
Qed.
End Cartesian.

(** What a result of [find_rb base] means: there is no model under the base, or
    no model is lost by the search that is returned. *)
Definition rb_means (F : formula) (tr : list Lit) {R} (sample : R → Z → Z → Z * R) (base : list Lit)
    (res : rbs_result) : Prop :=
  match res with
  | inl RBS_SBS_FOUND => ¬ satisfiable F (lit_on (tr ++ base))
  | inl RBS_INTERRUPTED => False
  | inr search => ∀ (r : R) rounds, s_total search <= Z.of_nat rounds →
      ∃ visited, visit sample 0 rounds r search = Some (visited, r) ∧ covers F tr visited
  end.

(** ** Every execution is finite *)

Section Steps.
Context {W : Type} (env : EvolEnv W) (view : list Z).
Context (std_sort : (Instance_ → Instance_ → bool) → list Instance_ → list Instance_).
Context (pow : double → double → double) (clock rss : Z → Z).
Context (fuel efuel : nat) (l : Limit) (alg : Algorithm) (base : list Lit).
Context (conflict : list Lit → bool) {R : Type} (sample : R → Z → Z → Z * R).

#[local] Abbreviation cstep :=
  (cstep env view std_sort pow clock rss fuel efuel l alg base conflict sample).

(** The steps that are left to a thread, to all of them, and to the search. *)
Definition thread_weight (t : CThread W) : Z :=
  match t with
  | CNew _ => 2 ^ 65 + 2
  | CReady _ => 2 ^ 65 + 1
  | CProcessed _ _ => 2 ^ 65
  | CSearch todo _ => Z.of_nat (length todo) + 2
  | CSearched _ => 1
  | CDone _ => 0
  end.

Definition weight (ts : list (CThread W)) : Z := foldr (λ t z, thread_weight t + z) 0 ts.

Definition cmeasure (s : CState W) : Z :=
  weight (c_threads s) + Z.of_nat (length (event_queue (handler s))) + 2 * Z.b2z (negb (sbs_found s)).

Lemma thread_weight_nonneg t : 0 <= thread_weight t.
Proof. destruct t; simpl; lia. Qed.

Lemma weight_nonneg ts : 0 <= weight ts.
Proof. induction ts as [| t ts IH]; simpl; [done |]. pose proof (thread_weight_nonneg t). lia. Qed.

Lemma cmeasure_nonneg s : 0 <= cmeasure s.
Proof. unfold cmeasure. pose proof (weight_nonneg (c_threads s)). destruct (sbs_found s); simpl; lia. Qed.

Lemma weight_insert i t t' ts : ts !! i = Some t →
  weight (<[i := t']> ts) = weight ts - thread_weight t + thread_weight t'.
Proof.
  revert i. induction ts as [| x ts IH]; intros [| i] Hi; simplify_eq/=; [lia |]. rewrite IH by done. lia.
Qed.

#[local] Arguments weight : simpl never.

Lemma set_thread_measure s i t t' : c_threads s !! i = Some t →
  cmeasure (set_thread s i t') = cmeasure s - thread_weight t + thread_weight t'.
Proof. intros Hi. unfold cmeasure, set_thread. cbn. rewrite (weight_insert i t) by done. lia. Qed.

Lemma raise_measure s : cmeasure (raise_for_sbs s) <= cmeasure s ∧ c_threads (raise_for_sbs s) = c_threads s.
Proof.
  unfold raise_for_sbs. destruct (sbs_found s) eqn:E; [done |].
  split; [| done]. unfold cmeasure. rewrite E. cbn. rewrite length_app. simpl. lia.
Qed.

Lemma visit_length rounds (r : R) s visited r' :
  visit sample 0 rounds r s = Some (visited, r') → (length visited <= rounds)%nat.
Proof.
  revert r s visited r'. induction rounds as [| rounds IH]; intros r s visited r'; cbn [visit]; [done |].
  destruct (search_next _ _ _ _) as [[[b s'] r1] |]; [| done]. cbn [mbind option_bind]. destruct b.
  - destruct (visit _ _ _ _ _) as [[v r2] |] eqn:E; [| done]. cbn [mbind option_bind]. intros [= <- <-].
    specialize (IH _ _ _ _ E). simpl. lia.
  - intros [= <- <-]. simpl. lia.
Qed.

Lemma full_total vars : 0 <= s_total (createFullSearch vars) < 2 ^ 64.
Proof. simpl. unfold u64. apply Z.mod_pos_bound. lia. Qed.

Lemma after_process_measure s i a w r s' : c_threads s !! i = Some (CProcessed a w) →
  after_process env view base sample s i a w r = Some s' → cmeasure s' < cmeasure s.
Proof.
  intros Hi. unfold after_process. destruct (stopping s).
  { intros [= <-]. rewrite (set_thread_measure _ _ _ _ Hi). simpl. lia. }
  destruct (best_instance _ _ _ _) as [[rb w1] |]; [| done]. cbn [mbind option_bind].
  destruct (is_sbs rb).
  { intros [= <-]. destruct (raise_measure s) as [Hm Ht].
    rewrite (set_thread_measure _ i (CProcessed a w)) by (by rewrite Ht). simpl. lia. }
  destruct (full_search _) as [search |] eqn:Ef; [| done]. cbn [mbind option_bind].
  apply full_search_some in Ef as [-> _]. pose proof (full_total (backdoor_vars view base rb)).
  destruct (visit _ _ _ _ _) as [[todo r1] |] eqn:E; [| done]. cbn [mbind option_bind]. intros [= <-].
  apply visit_length in E. rewrite (set_thread_measure _ _ _ _ Hi). cbn [thread_weight]. lia.
Qed.

Lemma after_search_measure s i nca : c_threads s !! i = Some (CSearched nca) →
  cmeasure (after_search s i nca) < cmeasure s.
Proof.
  intros Hi. unfold after_search. destruct (raise_measure s) as [Hm Ht].
  case_decide; rewrite (set_thread_measure _ i (CSearched nca)) by (by rewrite ?Ht); simpl; lia.
Qed.

Lemma dispatch_measure s s' : dispatch s = Some s' → cmeasure s' < cmeasure s.
Proof.
  unfold dispatch, event_round, cmeasure. destruct (shutdown (handler s)); [done |].
  destruct (event_queue (handler s)) as [| e q]; [done |].
  case_decide; intros [= <-]; cbn [c_threads handler sbs_found event_queue length]; simpl; lia.
Qed.

Lemma cstep_measure s s' : cstep s s' → cmeasure s' < cmeasure s.
Proof.
  destruct 1 as [i w Hi _ _ | i w Hi _ | i w a w' Hi E | i w Hi _ | i a w r s' Hi E | i pre a post nca Hi
    | i pre dropped post nca Hi Hne Hst | i nca Hi | i nca Hi | s' E];
    [rewrite (set_thread_measure _ _ _ _ Hi); simpl; lia .. | | | | | |].
  - by eapply after_process_measure.
  - rewrite (set_thread_measure _ _ _ _ Hi). simpl. rewrite !length_app. simpl. lia.
  - rewrite (set_thread_measure _ _ _ _ Hi). simpl. rewrite !length_app. destruct dropped; simpl; [done | lia].
  - rewrite (set_thread_measure _ _ _ _ Hi). simpl. lia.
  - by apply after_search_measure.
  - by apply dispatch_measure.
Qed.

Lemma cstep_sn s : sn cstep s.
Proof.
  remember (Z.to_nat (cmeasure s)) as k eqn:Ek. revert s Ek.
  induction (lt_wf k) as [k _ IH]. intros s ->. constructor. intros s' Hs%cstep_measure.
  eapply IH; [| done]. pose proof (cmeasure_nonneg s'). lia.
Qed.

Lemma cstep_length s s' : cstep s s' → length (c_threads s') = length (c_threads s).
Proof.
  assert (∀ (s : CState W) i t, length (c_threads (set_thread s i t)) = length (c_threads s)) as Hset.
  { intros. cbn. apply length_insert. }
  destruct 1 as [| | | | i a w r s' Hi E | | | | i nca Hi | s' E]; rewrite ?Hset; try done.
  - revert E. unfold after_process. destruct (stopping s); [by intros [= <-]; rewrite Hset |].
    destruct (best_instance _ _ _ _) as [[rb w1] |]; [| done]. cbn [mbind option_bind].
    destruct (is_sbs rb); [intros [= <-]; by rewrite Hset, (proj2 (raise_measure s)) |].
    destruct (full_search _); [| done]. cbn [mbind option_bind].
    destruct (visit _ _ _ _ _) as [[todo r1] |]; [| done]. cbn [mbind option_bind]. intros [= <-]. by rewrite Hset.
  - unfold after_search. rewrite Hset. case_decide; [by rewrite (proj2 (raise_measure s)) | done].
  - revert E. unfold dispatch. destruct (event_round _) as [[h [[e ids] |]] |]; [| done ..].
    case_decide; by intros [= <-].
Qed.
End Steps.

(** ** The threads of [CartesianRBSearch] *)

Section Threads.
Context {W : Type} (env : EvolEnv W).
Context (good : W → Prop) (n : Z) (F : formula) (tr : list Lit).
Context `{!LawfulEnv env good n F tr}.
Context (view : list Z) (Hview : Forall (λ v, 0 <= v < n) view).
Context (Hlen : 0 < Z.of_nat (length view) < 2 ^ 32).
Context (std_sort : (Instance_ → Instance_ → bool) → list Instance_ → list Instance_).
Context (Hsort : ∀ lt l, std_sort lt l ≡ₚ l).
Context (pow : double → double → double) (clock rss : Z → Z).
Context (fuel efuel : nat) (l : Limit) (alg : Algorithm) (base : list Lit).
Context (Halg : alg_ok n F tr view alg) (Hnew : base_assumption (shared alg) = []).
Context (Hbase : Forall (lit_ok n) base).
Context (conflict : list Lit → bool).
Context (Hconf : ∀ a, conflict a = true → conflicts_with F tr a).
Context {R : Type} (sample : R → Z → Z → Z * R).

#[local] Abbreviation cstep :=
  (cstep env view std_sort pow clock rss fuel efuel l alg base conflict sample).
#[local] Abbreviation unsat := (¬ satisfiable F (lit_on (tr ++ base))).

Lemma run_process_ok w a w' : good w →
  run_process env view std_sort pow clock rss fuel efuel l base w alg = Some (a, w') →
  good w' ∧ alg_ok n F tr view a ∧ all_cached (population a) ∧ base_assumption (shared a) = base.
Proof using LawfulEnv0 Hview Hsort Hlen Halg Hnew Hbase.
  intros Hg. unfold run_process.
  destruct (alg_prepare _ _ _ _) as [[a1 w1] |] eqn:E1; [| done]. cbn [mbind option_bind].
  destruct (process _ _ _ _ _ _ _ _ _ _ _) as [[[l' a2] w2] |] eqn:E2; [| done]. cbn [mbind option_bind].
  intros [= <- <-]. by eapply (run_ok env good n F tr view).
Qed.

(** What [get_best()] returns after a run. *)
Lemma best_instance_ok w a rb w' : good w → alg_ok n F tr view a → all_cached (population a) →
  base_assumption (shared a) = base → best_instance env view w a = Some (rb, w') →
  is_sbs rb = true → unsat.
Proof using LawfulEnv0 Hview.
  intros Hg Ha Hc Hb. rewrite <- Hb. unfold best_instance.
  destruct (get_best _ _ _ _ _) as [[[[k p] sh] w1] |] eqn:E; [| done]. cbn [mbind option_bind].
  destruct (p !! k) as [b |] eqn:Ek; [| done]. cbn [mbind option_bind]. intros [= <- <-] Hs.
  destruct (best_ok env good n F tr view Hview w a k p sh w1 b) as (_ & _ & H); [done .. |].
  by apply (backdoor_unsat F tr view _ (mask b)), H.
Qed.

(** ** The invariant *)

(** [running]: nobody has been told to stop. *)
Definition thread_ok (running : bool) (t : CThread W) : Prop :=
  match t with
  | CNew w | CReady w => good w
  | CProcessed a w =>
      good w ∧ alg_ok n F tr view a ∧ all_cached (population a) ∧ base_assumption (shared a) = base
  | CSearch todo nca => shaped (todo ++ nca) ∧ (running = true → covers F tr (todo ++ nca))
  | CSearched nca => shaped nca ∧ (running = true → covers F tr nca)
  | CDone nca => shaped nca ∧ (running = true → covers F tr nca ∧ nca ≠ [])
  end.

Record CInv (s : CState W) : Prop := {
  ci_threads i t : c_threads s !! i = Some t → thread_ok (negb (stopping s)) t;
  ci_quiet : sbs_found s = false →
    c_interrupted s = false ∧ SBS_FOUND ∉ event_queue (handler s);
  ci_handle e : sbs_handle s ∈ callbacks e (handler s) → e = SBS_FOUND;
  ci_sbs : sbs_found s = true → unsat }.

Lemma thread_ok_mono b b' t : (b' = true → b = true) → thread_ok b t → thread_ok b' t.
Proof. intros H. destruct t; simpl; naive_solver. Qed.

Lemma shaped_nil : shaped [].
Proof. exists []. split; [simpl; lia | apply Forall_nil_2]. Qed.

Lemma shaped_sub xs ys : ys ⊆ xs → shaped xs → shaped ys.
Proof.
  intros Hs (vars & Hl & Hv). exists vars. split; [done |]. rewrite Forall_forall in *. auto.
Qed.

(** One thread moves; the flags may only be raised. *)
Lemma set_thread_inv s s' i t : CInv s → c_threads s' = c_threads s →
  sbs_handle s' = sbs_handle s → cb_map (handler s') = cb_map (handler s) →
  (stopping s = true → stopping s' = true) →
  (sbs_found s' = false → c_interrupted s' = false ∧ SBS_FOUND ∉ event_queue (handler s')) →
  (sbs_found s' = true → unsat) → thread_ok (negb (stopping s')) t →
  CInv (set_thread s' i t).
Proof.
  intros [I1 I2 I3 I4] Ht Hh Hcb Hst Hq Hs Hok. split; [| done | | done].
  - intros j u. unfold set_thread. cbn. rewrite Ht. intros [(<- & <- & _) | [_ Hj]]%list_lookup_insert_Some; [done |].
    apply (thread_ok_mono (negb (stopping s))); [| by eapply I1].
    intros Hx%negb_true_iff. change (stopping s' = false) in Hx. destruct (stopping s); [| done].
    by rewrite Hst in Hx.
  - intros e. unfold set_thread, callbacks in *. cbn. rewrite Hh, Hcb. apply I3.
Qed.

Lemma move_inv s i t : CInv s → thread_ok (negb (stopping s)) t → CInv (set_thread s i t).
Proof. intros HI Hok. pose proof HI as [I1 I2 I3 I4]. by apply (set_thread_inv s s). Qed.

Lemma raise_inv s i t : CInv s → unsat → thread_ok false t → CInv (set_thread (raise_for_sbs s) i t).
Proof.
  intros HI Hu Hok. pose proof HI as [I1 I2 I3 I4]. unfold raise_for_sbs.
  assert (∀ s' : CState W, sbs_found s' = true → stopping s' = true) as Hstop.
  { intros s' E. unfold stopping. rewrite E. apply orb_true_r. }
  destruct (sbs_found s) eqn:E.
  - apply move_inv; [done |]. by rewrite Hstop.
  - apply (set_thread_inv s); try done; [intros _; by apply Hstop |]. by rewrite Hstop by done.
Qed.

Lemma checked_ok b pre a post nca : thread_ok b (CSearch (pre ++ a :: post) nca) →
  thread_ok b (CSearch (pre ++ post) (collect conflict nca a)).
Proof using Hconf.
  intros [Hsh Hcov]. split.
  - eapply shaped_sub; [| exact Hsh]. intros x. unfold collect.
    destruct (conflict a); rewrite !elem_of_app, !elem_of_cons, ?elem_of_nil; clear; tauto.
  - intros Hb σ HF Htr. destruct (Hcov Hb σ HF Htr) as (x & Hx & Hm).
    destruct (decide (x = a ∧ conflict a = true)) as [[-> Hc] | Hne].
    { by destruct (conflict_not_hit F tr σ a (Hconf a Hc)). }
    exists x. split; [| done]. revert Hx. unfold collect.
    rewrite !elem_of_app, elem_of_cons. destruct (conflict a) eqn:E.
    + intros [[? | [-> | ?]] | ?]; auto. by destruct Hne.
    + rewrite elem_of_app, elem_of_cons, elem_of_nil. clear; tauto.
Qed.

Lemma after_process_inv s i a w r s' : CInv s → c_threads s !! i = Some (CProcessed a w) →
  after_process env view base sample s i a w r = Some s' → CInv s'.
Proof using LawfulEnv0 Hview Hlen clock rss.
  intros HI Hi. pose proof (ci_threads s HI i _ Hi) as (Hg & Ha & Hc & Hb). unfold after_process.
  destruct (stopping s) eqn:Est.
  { intros [= <-]. apply move_inv; [done |]. rewrite Est. split; [apply shaped_nil | done]. }
  destruct (best_instance _ _ _ _) as [[rb w1] |] eqn:E; [| done]. cbn [mbind option_bind].
  destruct (is_sbs rb) eqn:Es.
  { intros [= <-]. apply raise_inv; [done | by eapply best_instance_ok | split; [apply shaped_nil | done]]. }
  destruct (full_search _) as [search |] eqn:Ef; [| done]. cbn [mbind option_bind].
  apply full_search_some in Ef as [-> Hl].
  destruct (full_visit sample (S (Z.to_nat (s_total (createFullSearch (backdoor_vars view base rb))))) r
    (backdoor_vars view base rb) Hl) as (visited & -> & Hp); [clear; lia |].
  cbn [mbind option_bind]. intros [= <-]. apply move_inv; [done |]. rewrite Est. cbn [thread_ok].
  rewrite app_nil_r. destruct (full_covers F tr _ _ Hl Hp) as [H1 H2]. by split.
Qed.

Lemma after_search_inv s i nca : CInv s → c_threads s !! i = Some (CSearched nca) →
  CInv (after_search s i nca).
Proof.
  intros HI Hi. pose proof (ci_threads s HI i _ Hi) as [Hsh Hcov]. pose proof HI as [I1 I2 I3 I4].
  unfold after_search. case_decide as Hn.
  - subst nca. apply raise_inv; [done | | by split].
    destruct (stopping s) eqn:Est.
    + apply I4. destruct (sbs_found s) eqn:E; [done |]. destruct (I2 eq_refl) as [Hi' _].
      unfold stopping in Est. by rewrite E, Hi' in Est.
    + intros (σ & HF & Htr). apply models_lits_app in Htr as [Htr _].
      destruct (Hcov eq_refl σ HF Htr) as (a & Ha & _). by apply elem_of_nil in Ha.
  - apply move_inv; [done |]. split; [done |]. intros Hb. by split; [apply Hcov |].
Qed.

Lemma dispatch_inv s s' : CInv s → dispatch s = Some s' → CInv s'.
Proof.
  intros [I1 I2 I3 I4]. unfold dispatch, event_round. destruct (shutdown (handler s)); [done |].
  destruct (event_queue (handler s)) as [| e q] eqn:Eq; [done |]. case_decide as Hin; intros [= <-].
  - assert (sbs_found s = true) as Hs.
    { destruct (sbs_found s) eqn:E; [done |]. destruct (I2 eq_refl) as [_ Hq].
      rewrite (I3 e Hin) in Hq. destruct Hq. by left. }
    split; cbn; [| congruence | | done].
    + intros i t Hi. eapply thread_ok_mono; [| by eapply I1]. by unfold stopping.
    + intros e' He'. destruct (detached_silent e' (sbs_handle s) (handler s)). exact He'.
  - split; cbn; [done | | done | done]. intros Hs. destruct (I2 Hs) as [? Hq]. split; [done |].
    intros Hx. apply Hq. by right.
Qed.

Lemma cstep_inv s s' : CInv s → cstep s s' → CInv s'.
Proof using LawfulEnv0 Hview Hsort Hlen Halg Hnew Hbase Hconf.
  intros HI Hstep. pose proof HI as [I1 I2 I3 I4]. destruct Hstep as
    [i w Hi _ _ | i w Hi Hint | i w a w' Hi E | i w Hi Hint | i a w r s' Hi E | i pre a post nca Hi
    | i pre dropped post nca Hi _ Hst | i nca Hi | i nca Hi | s' E].
  - apply move_inv; [done |]. exact (I1 i _ Hi).
  - apply move_inv; [done |]. split; [apply shaped_nil |]. unfold stopping. by rewrite Hint.
  - apply move_inv; [done |]. pose proof (I1 i _ Hi). by eapply run_process_ok.
  - apply move_inv; [done |]. split; [apply shaped_nil |]. unfold stopping. by rewrite Hint.
  - by eapply after_process_inv.
  - apply move_inv; [done |]. by eapply checked_ok, I1.
  - apply move_inv; [done |]. pose proof (I1 i _ Hi) as [Hsh _]. rewrite Hst. split; [| done].
    eapply shaped_sub; [| exact Hsh]. intros x. rewrite !elem_of_app. clear; tauto.
  - apply move_inv; [done |]. pose proof (I1 i _ Hi) as [Hsh Hc]. by split.
  - by apply after_search_inv.
  - by eapply dispatch_inv.
Qed.
(** The handler before the search: handles are fresh, and no [SBS_FOUND] is
    left from before. *)
Record HandlerFresh (h : EventHandler) : Prop := {
  hf_fresh : Forall (λ c, (c.1 < next_handle h)%nat) (cb_map h);
  hf_quiet : SBS_FOUND ∉ event_queue h }.

Lemma start_inv h ws : HandlerFresh h → Forall good ws → CInv (pre_solve_start false h ws).
Proof.
  intros [Hf Hq] Hg. split; cbn; [| done | | done].
  - intros i t. rewrite list_lookup_fmap_Some. intros (w & -> & Hi). simpl.
    by eapply Forall_lookup_1 in Hi.
  - intros e ([id e'] & Heq & [He Hin]%list_elem_of_filter)%list_elem_of_fmap_1. simpl in *. subst.
    apply elem_of_app in Hin as [Hin | Hin].
    + rewrite Forall_forall in Hf. specialize (Hf _ Hin). simpl in Hf. lia.
    + apply list_elem_of_singleton in Hin. by injection Hin as ->.
Qed.

Lemma reachable_inv s s' : CInv s → rtc cstep s s' → CInv s'.
Proof using LawfulEnv0 Hview Hsort Hlen Halg Hnew Hbase Hconf.
  intros HI Hr. induction Hr as [| s1 s2 s3 H12 _ IH]; [done |]. by eapply IH, cstep_inv.
Qed.

Lemma collected_inv s sets : CInv s → stopping s = false → collected s = Some sets →
  length sets = length (c_threads s) ∧ Forall shaped sets ∧ Forall (covers F tr) sets ∧ Forall (λ x, x ≠ []) sets.
Proof.
  intros HI Hs Hc%mapM_Some_1. split; [by symmetry; eapply Forall2_length |].
  assert (Forall (thread_ok true) (c_threads s)) as Hok.
  { apply Forall_lookup_2. intros i t Hi. pose proof (ci_threads s HI i t Hi) as H. by rewrite Hs in H. }
  revert Hok. induction Hc as [| t x ts xs Hx _ IH]; [done |]. intros [Ht Hts]%Forall_cons.
  destruct (IH Hts) as (H1 & H2 & H3). destruct t; try done. injection Hx as ->.
  destruct Ht as [Hsh [Hcov Hne]%(λ f, f eq_refl)]. split_and!; by apply Forall_cons_2.
Qed.
End Threads.

(** ** Executions that end *)

(** A thread that has not ended can move. *)
Lemma cstep_progress {W} (env : EvolEnv W) view std_sort pow clock rss fuel efuel l alg base conflict
    {R} (sample : R → Z → Z → Z * R) (r0 : R) s :
  (∀ w, is_Some (run_process env view std_sort pow clock rss fuel efuel l base w alg)) →
  (∀ i a w r, is_Some (after_process env view base sample s i a w r)) →
  nf (cstep env view std_sort pow clock rss fuel efuel l alg base conflict sample) s →
  is_Some (collected s).
Proof.
  intros Hrun Hafter Hnf. apply mapM_is_Some. apply Forall_lookup_2. intros i t Hi.
  assert (∀ s', ¬ cstep env view std_sort pow clock rss fuel efuel l alg base conflict sample s s') as Hno.
  { intros s' Hs. apply Hnf. by exists s'. }
  assert (∀ k j w, (j < k)%nat → c_threads s !! j ≠ Some (CNew w)) as Hnew.
  { intros k. induction k as [| k IH]; intros j w Hj Hl; [lia |].
    destruct (c_interrupted s) eqn:Ei; [by eapply Hno, c_skip |].
    eapply Hno, c_launch; [exact Hl | | done]. intros j' w' Hlt. apply IH. lia. }
  destruct t as [w | w | a w | todo nca | nca | nca]; [| | | | | by eexists].
  - by destruct (Hnew (S i) i w ltac:(lia)).
  - destruct (Hrun w) as [[a w'] E]. by destruct (Hno _ (c_process _ _ _ _ _ _ _ _ _ _ _ _ _ s i w a w' Hi E)).
  - destruct (Hafter i a w r0) as [s' E]. by destruct (Hno s'); eapply c_choose.
  - destruct todo as [| a todo]; [by edestruct Hno; apply c_searched |].
    by edestruct Hno; apply (c_check _ _ _ _ _ _ _ _ _ _ _ _ _ s i [] a todo nca).
  - by edestruct Hno; apply c_finish.
Qed.

(** ** The results *)

Lemma cartesian_rb_spec {W} (env : EvolEnv W) good n F tr view std_sort pow clock rss fuel efuel l alg
    base conflict {R} (sample : R → Z → Z → Z * R) mu mc h ws s sets res :
  LawfulEnv env good n F tr → Forall (λ v, 0 <= v < n) view → 0 < Z.of_nat (length view) < 2 ^ 32 →
  (∀ lt l, std_sort lt l ≡ₚ l) → alg_ok n F tr view alg → base_assumption (shared alg) = [] →
  Forall (lit_ok n) base → (∀ a, conflict a = true → conflicts_with F tr a) →
  HandlerFresh h → Forall good ws → ws ≠ [] → Z.of_nat (length ws) < 2 ^ 26 → 0 <= mc < 2 ^ 32 →
  rtc (cstep env view std_sort pow clock rss fuel efuel l alg base conflict sample) (pre_solve_start false h ws) s →
  collected s = Some sets → Forall (λ x, Z.of_nat (length x) < 2 ^ 32) sets →
  cartesian_result mu mc s = Some res →
  rb_means F tr sample base res.
Proof.
  intros HL Hview Hlen Hsort Halg Hnew Hbase Hconf Hfresh Hws Hne Hcnt Hmc Hr Hcol Hsz.
  pose proof (start_inv good n F tr view base h ws Hfresh Hws) as HI.
  apply (reachable_inv env good n F tr view Hview Hlen std_sort Hsort pow clock rss fuel efuel l alg base
    Halg Hnew Hbase conflict Hconf sample _ s) in HI as HI'; [| exact Hr].
  unfold cartesian_result. rewrite Hcol. cbn [mbind option_bind]. pose proof HI' as [I1 I2 I3 I4].
  destruct (sbs_found s) eqn:Es; [intros [= <-]; by apply I4 |].
  destruct (I2 eq_refl) as [Hint Hq]. rewrite Hint. intros [= <-] r rounds Hrounds.
  assert (stopping s = false) as Hst by (unfold stopping; by rewrite Hint, Es).
  destruct (collected_inv good n F tr view base s sets) as (Hl & Hsh & Hcov & Hnn); [done .. |].
  assert (length sets = length ws) as Hlw.
  { rewrite Hl. transitivity (length (c_threads (pre_solve_start false h ws))); [| apply length_fmap].
    clear -Hr. induction Hr as [| s1 s2 s3 H _ IH]; [done |]. rewrite IH. by eapply cstep_length. }
  destruct (prepare_cartesian_ok F tr mu mc sets) with (sample := sample) (rounds := rounds) (r := r)
    as (v & Hv & _ & Hc); [| done .. | by exists v].
  split; [| lia | | done ..].
  - intros ->. destruct ws; [done | simpl in Hlw; lia].
  - apply Forall_forall. intros x Hx. rewrite Forall_forall in Hsz, Hnn. specialize (Hsz x Hx).
    specialize (Hnn x Hx). simpl in Hsz. destruct x; [done | simpl in *; lia].
Qed.

Lemma one_rb_spec {W} (env : EvolEnv W) good n F tr view std_sort pow clock rss fuel efuel l alg base
    w w' res {R} (sample : R → Z → Z → Z * R) :
  LawfulEnv env good n F tr → Forall (λ v, 0 <= v < n) view → 0 < Z.of_nat (length view) < 2 ^ 32 →
  (∀ lt l, std_sort lt l ≡ₚ l) → alg_ok n F tr view alg → base_assumption (shared alg) = [] →
  Forall (lit_ok n) base → good w →
  one_find_rb env view std_sort pow clock rss fuel efuel l alg base false w = Some (res, w') →
  rb_means F tr sample base res.
Proof.
  intros HL Hview Hlen Hsort Halg Hnew Hbase Hg. unfold one_find_rb.
  destruct (run_process _ _ _ _ _ _ _ _ _ _ _ _) as [[a w1] |] eqn:E1; [| done]. cbn [mbind option_bind].
  destruct (run_process_ok env good n F tr view Hview Hlen std_sort Hsort pow clock rss fuel efuel l alg base
    Halg Hnew Hbase w a w1 Hg E1) as (Hg1 & Ha & Hc & Hb).
  destruct (best_instance _ _ _ _) as [[rb w2] |] eqn:E2; [| done]. cbn [mbind option_bind].
  destruct (is_sbs rb) eqn:Es.
  { intros [= <- <-]. by eapply best_instance_ok. }
  destruct (full_search _) as [s |] eqn:Ef; [| done]. cbn [mbind option_bind]. intros [= <- <-] r rounds Hr.
  apply full_search_some in Ef as [-> Hl].
  destruct (full_visit sample rounds r _ Hl Hr) as (v & Hv & Hp). exists v. split; [done |].
  by apply (full_covers F tr (backdoor_vars view base rb)).
Qed.

(** ** The properties *)

(** Every execution of [CartesianRBSearch::find_rb] is finite, whatever the
    threads and the event thread do, and where it ends it returns a result if
    the algorithms return and no shift is undefined. *)
Theorem cartesian_rb_terminates {W} (env : EvolEnv W) view std_sort pow clock rss fuel efuel l alg base
    conflict {R} (sample : R → Z → Z → Z * R) (r0 : R) mu mc s :
  sn (cstep env view std_sort pow clock rss fuel efuel l alg base conflict sample) s ∧
  ((∀ w, is_Some (run_process env view std_sort pow clock rss fuel efuel l base w alg)) →
   (∀ i a w r, is_Some (after_process env view base sample s i a w r)) →
   nf (cstep env view std_sort pow clock rss fuel efuel l alg base conflict sample) s →
   is_Some (cartesian_result mu mc s)).
Proof.
  split; [apply cstep_sn |]. intros Hrun Hafter Hnf. unfold cartesian_result.
  destruct (cstep_progress env view std_sort pow clock rss fuel efuel l alg base conflict sample r0 s Hrun Hafter Hnf)
    as [sets ->]. by eexists.
Qed.

(** C12. [CartesianRBSearch::find_rb], started with no [SBS_FOUND] event pending
    and neither interrupted nor sent events from outside, is right under every
    interleaving of its threads and the event thread: [RBS_SBS_FOUND] proves that there is no model
    under the base assumption, [RBS_INTERRUPTED] is not returned, and every
    model satisfies an assignment of the search that is returned. *)
Theorem cartesian_rb_correct {W} (env : EvolEnv W) good n F tr view std_sort pow clock rss fuel efuel l alg
    base conflict {R} (sample : R → Z → Z → Z * R) mu mc h ws s sets res :
  LawfulEnv env good n F tr → Forall (λ v, 0 <= v < n) view → 0 < Z.of_nat (length view) < 2 ^ 32 →
  (∀ lt l, std_sort lt l ≡ₚ l) → alg_ok n F tr view alg → base_assumption (shared alg) = [] →
  Forall (lit_ok n) base → (∀ a, conflict a = true → conflicts_with F tr a) →
  HandlerFresh h → Forall good ws → ws ≠ [] → Z.of_nat (length ws) < 2 ^ 26 → 0 <= mc < 2 ^ 32 →
  rtc (cstep env view std_sort pow clock rss fuel efuel l alg base conflict sample) (pre_solve_start false h ws) s →
  collected s = Some sets → Forall (λ x, Z.of_nat (length x) < 2 ^ 32) sets →
  cartesian_result mu mc s = Some res →
  rb_means F tr sample base res.
Proof. apply cartesian_rb_spec. Qed.

(** [OneRBSearch::find_rb], not interrupted, is right: a strong backdoor
    proves that there is no model under the base assumption, and every model
    satisfies an assignment of the search that is returned otherwise. *)
Theorem one_rb_correct {W} (env : EvolEnv W) good n F tr view std_sort pow clock rss fuel efuel l alg base
    w w' res {R} (sample : R → Z → Z → Z * R) :
  LawfulEnv env good n F tr → Forall (λ v, 0 <= v < n) view → 0 < Z.of_nat (length view) < 2 ^ 32 →
  (∀ lt l, std_sort lt l ≡ₚ l) → alg_ok n F tr view alg → base_assumption (shared alg) = [] →
  Forall (lit_ok n) base → good w →
  one_find_rb env view std_sort pow clock rss fuel efuel l alg base false w = Some (res, w') →
  rb_means F tr sample base res.
Proof. apply one_rb_spec. Qed.

Section Wrong.
Context {W : Type} (env : EvolEnv W) (view : list Z).
Context (std_sort : (Instance_ → Instance_ → bool) → list Instance_ → list Instance_).
Context (pow : double → double → double) (clock rss : Z → Z).
Context (fuel efuel : nat) (l : Limit) (alg : Algorithm) (base : list Lit).
Context (conflict : list Lit → bool) {R : Type} (sample : R → Z → Z → Z * R) (mu mc : Z).

#[local] Abbreviation cstep :=
  (cstep env view std_sort pow clock rss fuel efuel l alg base conflict sample).

(** An interrupted search that launches no more threads. *)
Lemma skip_all (ws : list W) : ∀ s pre, c_interrupted s = true →
  c_threads s = (CDone <$> pre) ++ (CNew <$> ws) →
  ∃ s', rtc cstep s s' ∧ c_interrupted s' = true ∧ sbs_found s' = sbs_found s ∧
    c_threads s' = CDone <$> (pre ++ replicate (length ws) []).
Proof.
  induction ws as [| w ws IH]; intros s pre Hi Ht.
  - exists s. split; [done |]. rewrite Ht, !app_nil_r. done.
  - destruct (IH (set_thread s (length pre) (CDone [])) (pre ++ [[]])) as (s' & Hr & H1 & H2 & H3); [done | |].
    + cbn. rewrite Ht, fmap_app, <- (assoc_L (++)). cbn.
      by rewrite <- (length_fmap (@CDone W) pre), insert_app_r_alt, Nat.sub_diag by lia.
    + exists s'. split; [| split; [done |]; split; [done |]].
      * eapply rtc_l; [| exact Hr]. apply c_skip with w; [| done].
        by rewrite Ht, lookup_app_r, length_fmap, Nat.sub_diag by (rewrite length_fmap; lia).
      * rewrite H3. by rewrite <- (assoc_L (++)).
Qed.

Lemma sbs_monotone s s' : rtc cstep s s' → sbs_found s = true → sbs_found s' = true.
Proof.
  induction 1 as [| s1 s2 s3 H _ IH]; [done |]. intros Hs. apply IH.
  assert (raise_for_sbs s1 = s1) as Hr by (unfold raise_for_sbs; by rewrite Hs).
  destruct H as [| | | | i a w r s' Hi E | | | | i nca Hi | s' E]; try done.
  - revert E. unfold after_process. destruct (stopping s1); [by intros [= <-] |].
    destruct (best_instance _ _ _ _) as [[rb w1] |]; [| done]. cbn [mbind option_bind].
    destruct (is_sbs rb); [intros [= <-]; by rewrite Hr |].
    destruct (full_search _); [| done]. cbn [mbind option_bind].
    destruct (visit _ _ _ _ _) as [[todo r1] |]; [| done]. by intros [= <-].
  - unfold after_search. case_decide; by rewrite ?Hr.
  - revert E. unfold dispatch. destruct (event_round _) as [[h [[e ids] |]] |]; [| done ..].
    case_decide; by intros [= <-].
Qed.

(** An [SBS_FOUND] event that an earlier search has raised and nobody has
    handled yet interrupts the next search: it can return [RBS_INTERRUPTED]
    although nothing interrupted it. *)
Theorem cartesian_stale_event h ws : shutdown h = false → event_queue h = [SBS_FOUND] →
  ∃ s, rtc cstep (pre_solve_start false h ws) s ∧
    cartesian_result mu mc s = Some (inl RBS_INTERRUPTED).
Proof.
  intros Hsd Hq. set (s0 := pre_solve_start false h ws).
  assert (∃ s1, dispatch s0 = Some s1 ∧ c_interrupted s1 = true ∧ sbs_found s1 = false ∧
    c_threads s1 = CNew <$> ws) as (s1 & Hd & Hi & Hs & Ht).
  { unfold dispatch, event_round, s0, pre_solve_start. cbn [attach handler].
    pose proof (attached_called SBS_FOUND h _ _ eq_refl) as Hin. cbn in Hin |- *. rewrite Hsd, Hq.
    rewrite decide_True by done. eexists. by split_and!. }
  destruct (skip_all ws s1 [] Hi Ht) as (s2 & Hr & Hi2 & Hs2 & Ht2). exists s2. split.
  { eapply rtc_l; [by apply c_event | exact Hr]. }
  unfold cartesian_result. rewrite Hs2, Hs, Hi2.
  assert (is_Some (collected s2)) as [sets ->]; [| done].
  apply mapM_is_Some. rewrite Ht2. apply Forall_fmap, Forall_true. intros x. by eexists.
Qed.

(** An interrupt from outside can make [find_rb] report a strong backdoor
    that is none: a thread that has checked one conflicting assignment, when
    the interrupt ends its search, finds the set of the others empty. *)
Theorem cartesian_interrupt_wrong s i a todo : c_threads s !! i = Some (CSearch (a :: todo) []) →
  conflict a = true → sbs_found s = false →
  ∃ s1 s2, rtc cstep s s1 ∧ outside s1 s2 ∧ ∃ s3, rtc cstep s2 s3 ∧ c_threads s3 !! i = Some (CDone []) ∧
    ∀ s4 sets, rtc cstep s3 s4 → collected s4 = Some sets →
      cartesian_result mu mc s4 = Some (inl RBS_SBS_FOUND).
Proof.
  intros Hi Ha Hs. pose proof (lookup_lt_Some _ _ _ Hi) as Hlt.
  set (s1 := set_thread s i (CSearch todo [])). set (s2 := s1 <| c_interrupted := true |>).
  set (s3 := set_thread s2 i (CSearch [] [])). set (s4 := set_thread s3 i (CSearched [])).
  assert (∀ (s : CState W) t, (i < length (c_threads s))%nat → c_threads (set_thread s i t) !! i = Some t) as Hset.
  { intros s' t Hl. cbn. by rewrite list_lookup_insert_eq. }
  assert (rtc cstep s s1) as H1.
  { apply rtc_once. pose proof (c_check env view std_sort pow clock rss fuel efuel l alg base conflict sample
      s i [] a todo [] Hi) as H. unfold collect in H. by rewrite Ha in H. }
  exists s1, s2. split; [done |]. split; [constructor |]. exists (after_search s4 i []).
  assert (length (c_threads s4) = length (c_threads s)) as Hl by (cbn; by rewrite !length_insert).
  assert (c_threads s2 !! i = Some (CSearch todo [])) as Hi2 by (by apply Hset).
  assert (rtc cstep s2 s3) as H2.
  { destruct (decide (todo = [])) as [-> | Hne].
    - assert (s3 = s2) as ->; [| done]. unfold s3, set_thread. rewrite (list_insert_id (c_threads s2) i) by done.
      done.
    - apply rtc_once. pose proof (c_drop env view std_sort pow clock rss fuel efuel l alg base conflict sample
        s2 i [] todo [] []) as H. rewrite app_nil_r in H. by apply H. }
  assert (rtc cstep s3 (after_search s4 i [])) as H3.
  { eapply rtc_l; [apply (c_searched _ _ _ _ _ _ _ _ _ _ _ _ _ s3 i []); apply Hset; cbn; by rewrite length_insert |].
    apply rtc_once, c_finish, Hset. cbn. by rewrite !length_insert. }
  split; [by etrans |]. split.
  - unfold after_search. rewrite decide_True by done. apply Hset. unfold raise_for_sbs.
    destruct (sbs_found s4); cbn; by rewrite !length_insert.
  - intros s5 sets H5 Hc. unfold cartesian_result. rewrite Hc. cbn. rewrite (sbs_monotone _ _ H5); [done |].
    unfold after_search. rewrite decide_True by done. unfold raise_for_sbs. by destruct (sbs_found s4) eqn:E.
Qed.
End Wrong.
