(* ===== verification/Solve.v ===== *)
(** * The solve strategies

    [core/solve]: [SingleReduceSolve] and [RecurringReduceSolve] split the
    problem by the search of an [RBSearch], drop the assignments that
    propagation refutes and give the rest to the solver service;
    [PortfolioSolve] runs several strategies and takes the first answer.  A
    strategy is a transition system, because the engine calls back for the
    assignments in any order, the service finishes its tasks in any order, and
    an interrupt can arrive between any two steps.  The search for a backdoor,
    the engine and the service are parameters. *)
From stdpp Require Import relations.
From S2P Require Import Prelude Lit Search RBSearch.

Section Solve.
Context {M : Type}.

(** ** [ReduceSolve] *)

(** The callback of [_filter_conflict]: what it collects, and whether the
    engine goes on. *)
Definition filter_callback (interrupted conflict : bool) (a : list Lit) (nc : list (list Lit)) :
    list (list Lit) * bool :=
  if interrupted then (nc, false) else (if conflict then nc else nc ++ [a], true).

(** The tasks given to the service: those that are not finished, and what the
    callbacks of the others have recorded. *)
Record Batch := MkBatch {
  pending : list (list Lit);
  failed : list (list Lit);
  unknown : bool;
  satisfied : bool;
  model : option M }.

#[export] Instance Batch_settable : Settable Batch := λ b,
  MkBatch (pending b) (failed b) (unknown b) (satisfied b) (model b).

Definition new_batch (assumptions : list (list Lit)) (m : option M) : Batch :=
  MkBatch assumptions [] false false m.

(** A satisfying answer carries a model, or the program aborts. *)
Definition take_model (m : option M) (b : Batch) : option Batch :=
  m ← m; Some (b <| satisfied := true |> <| model := Some m |>).

(** The callback of [_solve_final]. *)
Definition final_callback (a : list Lit) (result : State) (m : option M) (b : Batch) : option Batch :=
  match result with
  | UNSAT => Some b
  | UNKNOWN => Some (b <| unknown := true |>)
  | SAT => take_model m b
  end.

(** The callback of [_filter_fast]. *)
Definition fast_callback (a : list Lit) (result : State) (m : option M) (b : Batch) : option Batch :=
  match result with
  | UNSAT => Some b
  | UNKNOWN => Some (b <| unknown := true |> <| failed := failed b ++ [a] |>)
  | SAT => take_model m b
  end.

(** What the strategies return after the batch. *)
Definition final_result (interrupted : bool) (b : Batch) : State :=
  if satisfied b then SAT else if negb (unknown b) && negb interrupted then UNSAT else UNKNOWN.

Definition fast_result (b : Batch) : State + list (list Lit) :=
  if satisfied b then inl SAT
  else match failed b with [] => inl UNKNOWN | fs => inr fs end.

(** [service stopped lim a r m]: the service may answer [r] about [a] within
    [lim] ([None] is [DUR_INDEF]), knowing whether it has been stopped. *)
Context (service : bool → option Z → list Lit → State → option M → Prop).

Inductive batch_step (cb : list Lit → State → option M → Batch → option Batch) (lim : option Z)
    (interrupted : bool) (b : Batch) : Batch → Prop :=
  (* a worker has solved a task *)
  | b_done pre a post r m b' : pending b = pre ++ a :: post →
      service (interrupted || satisfied b) lim a r m →
      cb a r m (b <| pending := pre ++ post |>) = Some b' → batch_step cb lim interrupted b b'
  (* [interrupt()] clears the queue of the service *)
  | b_clear pre a post : pending b = pre ++ a :: post → interrupted || satisfied b = true →
      batch_step cb lim interrupted b (b <| pending := pre ++ post |>).

(** ** [RecurringReduceSolve] *)

Record RecurringConfig := MkRecurring {
  max_solve_time_ms : Z;
  max_solve_time_scale : Z;
  max_recursion_depth : Z }.

Context (cfg : RecurringConfig).

(** The time limit of an iteration: limited below the maximal depth.  A value
    that does not fit [uint32_t] is undefined behaviour, [None]. *)
Definition time_limit (depth : Z) : option (option Z) :=
  if depth <? max_recursion_depth cfg then
    let ms := max_solve_time_ms cfg * max_solve_time_scale cfg ^ depth in
    if ms <? 2 ^ 32 then Some (if ms =? 0 then None else Some ms) else None
  else Some None.

(** Where [_solve_impl] is: at the head of the loop; behind it; before
    [find_rb]; in [_filter_conflict]; in [_filter_fast]; at the checks; returned. *)
Inductive RPhase :=
  | PLoop
  | PExit
  | PFind (base : list Lit) (depth : Z)
  | PFilter (base : list Lit) (depth : Z) (todo nc : list (list Lit))
  | PBatch (base : list Lit) (depth : Z) (lim : option Z) (b : Batch)
  | PChecked (depth : Z) (r : State + list (list Lit))
  | PReturn (s : State).

Record RState := MkRState {
  stack : list (list Lit * Z);
  r_model : option M;
  r_interrupted : bool;
  r_phase : RPhase }.

#[export] Instance RState_settable : Settable RState := λ s,
  MkRState (stack s) (r_model s) (r_interrupted s) (r_phase s).

(** [stack.push] with the empty assumption; the top is the head of the list. *)
Definition recurring_start : RState := MkRState [([], 0)] None false PLoop.

(** [find_rb interrupted base r]: what a search for a backdoor may return. *)
Context (find_rb : bool → list Lit → rbs_result → Prop).
Context (conflict : list Lit → bool).
Context {R : Type} (sample : R → Z → Z → Z * R).

(** [case RBS_SBS_FOUND] and [case RBS_INTERRUPTED]. *)
Definition on_reason (base : list Lit) (r : RBSReason) : State :=
  match r with
  | RBS_SBS_FOUND => match base with [] => UNSAT | _ => UNKNOWN end
  | RBS_INTERRUPTED => UNKNOWN
  end.

(** Pushing the failed assumptions one by one. *)
Definition push_stack (depth : Z) (fs : list (list Lit)) (st : list (list Lit * Z)) : list (list Lit * Z) :=
  foldl (λ st v, (v, depth + 1) :: st) st fs.

(** After an iteration: an interrupt, an answer, or more work. *)
Definition after_filter (s : RState) (depth : Z) (r : State + list (list Lit)) : RState :=
  if r_interrupted s then s <| r_phase := PReturn UNKNOWN |>
  else match r with
       | inl UNKNOWN => s <| r_phase := PLoop |>
       | inl result => s <| r_phase := PReturn result |>
       | inr fs => s <| stack := push_stack depth fs (stack s) |> <| r_phase := PLoop |>
       end.

Inductive rstep (s : RState) : RState → Prop :=
  | r_pop base depth rest : r_phase s = PLoop → r_interrupted s = false → stack s = (base, depth) :: rest →
      rstep s (s <| stack := rest |> <| r_phase := PFind base depth |>)
  | r_exit : r_phase s = PLoop → stack s = [] ∨ r_interrupted s = true → rstep s (s <| r_phase := PExit |>)
  | r_final : r_phase s = PExit →
      rstep s (s <| r_phase := PReturn (if r_interrupted s then UNKNOWN else UNSAT) |>)
  | r_reason base depth r : r_phase s = PFind base depth → find_rb (r_interrupted s) base (inl r) →
      rstep s (s <| r_phase := PChecked depth (inl (on_reason base r)) |>)
  | r_search base depth search (r : R) todo r' : r_phase s = PFind base depth → find_rb (r_interrupted s) base (inr search) →
      visit sample 0 (S (Z.to_nat (s_total search))) r search = Some (todo, r') →
      rstep s (s <| r_phase := PFilter base depth todo [] |>)
  (* the engine calls back about an assignment; told to stop, it leaves some out *)
  | r_told base depth pre a post nc nc' : r_phase s = PFilter base depth (pre ++ a :: post) nc →
      filter_callback (r_interrupted s) (conflict a) a nc = (nc', true) →
      rstep s (s <| r_phase := PFilter base depth (pre ++ post) nc' |>)
  | r_stopped base depth pre a dropped post nc nc' :
      r_phase s = PFilter base depth (pre ++ a :: dropped ++ post) nc →
      filter_callback (r_interrupted s) (conflict a) a nc = (nc', false) →
      rstep s (s <| r_phase := PFilter base depth (pre ++ post) nc' |>)
  (* the assumptions are concatenated to the base and submitted *)
  | r_submit base depth nc lim : r_phase s = PFilter base depth [] nc → time_limit depth = Some lim →
      rstep s (s <| r_phase := PBatch base depth lim (new_batch (app base <$> nc) (r_model s)) |>)
  | r_batch base depth lim b b' : r_phase s = PBatch base depth lim b →
      batch_step fast_callback lim (r_interrupted s) b b' →
      rstep s (s <| r_phase := PBatch base depth lim b' |>)
  | r_waited base depth lim b : r_phase s = PBatch base depth lim b → pending b = [] →
      rstep s (s <| r_model := model b |> <| r_phase := PChecked depth (fast_result b) |>)
  | r_check depth r : r_phase s = PChecked depth r → rstep s (after_filter s depth r).

(** [interrupt()] from outside. *)
Definition r_interrupt (s : RState) : RState := s <| r_interrupted := true |>.

Inductive rrun (s : RState) : RState → Prop :=
  | rrun_step s' : rstep s s' → rrun s s'
  | rrun_interrupt : r_interrupted s = false → rrun s (r_interrupt s).

(** ** [SingleReduceSolve] *)

Inductive SPhase :=
  | SFind
  | SFilter (todo nc : list (list Lit))
  | SBatch (b : Batch)
  | SReturn (s : State).

Record SState := MkSState { s_interrupted : bool; s_model : option M; s_phase : SPhase }.

#[export] Instance SState_settable : Settable SState := λ s,
  MkSState (s_interrupted s) (s_model s) (s_phase s).

Definition single_start : SState := MkSState false None SFind.

Definition single_reason (r : RBSReason) : State :=
  match r with RBS_SBS_FOUND => UNSAT | RBS_INTERRUPTED => UNKNOWN end.

Inductive sstep (s : SState) : SState → Prop :=
  | s_reason r : s_phase s = SFind → find_rb (s_interrupted s) [] (inl r) →
      sstep s (s <| s_phase := SReturn (single_reason r) |>)
  | s_search search (r : R) todo r' : s_phase s = SFind → find_rb (s_interrupted s) [] (inr search) →
      visit sample 0 (S (Z.to_nat (s_total search))) r search = Some (todo, r') →
      sstep s (s <| s_phase := SFilter todo [] |>)
  | s_told pre a post nc nc' : s_phase s = SFilter (pre ++ a :: post) nc →
      filter_callback (s_interrupted s) (conflict a) a nc = (nc', true) →
      sstep s (s <| s_phase := SFilter (pre ++ post) nc' |>)
  | s_stopped pre a dropped post nc nc' : s_phase s = SFilter (pre ++ a :: dropped ++ post) nc →
      filter_callback (s_interrupted s) (conflict a) a nc = (nc', false) →
      sstep s (s <| s_phase := SFilter (pre ++ post) nc' |>)
  | s_submit nc : s_phase s = SFilter [] nc →
      sstep s (s <| s_phase := SBatch (new_batch nc (s_model s)) |>)
  | s_batch b b' : s_phase s = SBatch b → batch_step final_callback None (s_interrupted s) b b' →
      sstep s (s <| s_phase := SBatch b' |>)
  | s_waited b : s_phase s = SBatch b → pending b = [] →
      sstep s (s <| s_model := model b |> <| s_phase := SReturn (final_result (s_interrupted s) b) |>).

Definition s_interrupt (s : SState) : SState := s <| s_interrupted := true |>.

Inductive srun (s : SState) : SState → Prop :=
  | srun_step s' : sstep s s' → srun s s'
  | srun_interrupt : s_interrupted s = false → srun s (s_interrupt s).
End Solve.

Arguments Batch : clear implicits.
Arguments RPhase : clear implicits.
Arguments RState : clear implicits.
Arguments SPhase : clear implicits.
Arguments SState : clear implicits.
