(* ===== verification/SolveSpec.v ===== *)
(** * The strategies answer correctly

    Against an interface of what the search for a backdoor, the engine and the
    solver service promise: a strategy that returns UNSAT has refuted every
    model, one that returns SAT holds a model, and one that returns UNKNOWN was
    interrupted.  Both searches of [RBSearch] implement the interface. *)
From stdpp Require Import relations.
From Stdlib Require Import Wellfounded.Lexicographic_Product Relation_Operators.
From S2P Require Import Prelude Lit UnitProp Double Search Propagate EngineSpec Instance InstanceSpec.
From S2P Require Import Evol EvolSpec EventHandler RBSearch RBSearchSpec Solve.

(** ** The interfaces *)

Section Interfaces.
Context (F : formula) (tr : list Lit).
Context {R : Type} (sample : R → Z → Z → Z * R).

(** A search for a backdoor that is not interrupted is right; nothing is asked
    of one that is. *)
Class LawfulRB (find_rb : bool → list Lit → rbs_result → Prop) :=
  rb_lawful base res : find_rb false base res → rb_means F tr sample base res.

(** The search that returns nothing wrong unless it is interrupted: the runs
    with it are the runs with [find_rb] whose results are right. *)
Definition trusted (find_rb : bool → list Lit → rbs_result → Prop) (interrupted : bool) (base : list Lit)
    (res : rbs_result) : Prop :=
  find_rb interrupted base res ∧ (interrupted = false → rb_means F tr sample base res).

#[export] Instance trusted_lawful find_rb : LawfulRB (trusted find_rb).
Proof. intros base res [_ H]. by apply H. Qed.

(** What the service says of an assumption is true; without a time limit and
    not stopped it does not give up. *)
Class LawfulService {M} (val : M → Z → bool)
    (service : bool → option Z → list Lit → State → option M → Prop) := {
  sv_unsat stop lim a m : service stop lim a UNSAT m → ¬ satisfiable F (lit_on (tr ++ a));
  sv_sat stop lim a m : service stop lim a SAT m →
    ∃ x, m = Some x ∧ models (val x) F ∧ models_lits (val x) (lit_on tr);
  sv_indef a m : ¬ service false None a UNKNOWN m }.
End Interfaces.

(** Both searches implement the interface: runs on good worlds, with the base
    over the variables of the solver. *)
Section Implementations.
Context {W : Type} (env : EvolEnv W) (good : W → Prop) (n : Z) (F : formula) (tr : list Lit).
Context `{!LawfulEnv env good n F tr}.
Context (view : list Z) (Hview : Forall (λ v, 0 <= v < n) view) (Hlen : 0 < Z.of_nat (length view) < 2 ^ 32).
Context (std_sort : (Instance_ → Instance_ → bool) → list Instance_ → list Instance_).
Context (Hsort : ∀ lt l, std_sort lt l ≡ₚ l).
Context (pow : double → double → double) (clock rss : Z → Z).
Context (fuel efuel : nat) (l : Limit) (alg : Algorithm).
Context (Halg : alg_ok n F tr view alg) (Hnew : base_assumption (shared alg) = []).
Context (conflict : list Lit → bool) (Hconf : ∀ a, conflict a = true → conflicts_with F tr a).
Context {R : Type} (sample : R → Z → Z → Z * R) (mu mc : Z) (Hmc : 0 <= mc < 2 ^ 32).

Definition one_rb (interrupted : bool) (base : list Lit) (res : rbs_result) : Prop :=
  Forall (lit_ok n) base ∧ ∃ w w', good w ∧
    one_find_rb env view std_sort pow clock rss fuel efuel l alg base interrupted w = Some (res, w').

#[export] Instance one_rb_lawful : LawfulRB F tr sample one_rb.
Proof using LawfulEnv0 Hview Hlen Hsort Halg Hnew.
  intros base res (Hb & w & w' & Hg & E). by eapply (one_rb_spec env good n F tr view).
Qed.

(** [interrupted]: something from outside happened meanwhile. *)
Definition cartesian_rb (interrupted : bool) (base : list Lit) (res : rbs_result) : Prop :=
  Forall (lit_ok n) base ∧ ∃ h ws s sets, HandlerFresh h ∧ Forall good ws ∧ ws ≠ [] ∧
    Z.of_nat (length ws) < 2 ^ 26 ∧
    rtc (λ s s', cstep env view std_sort pow clock rss fuel efuel l alg base conflict sample s s' ∨
                 interrupted = true ∧ outside s s') (pre_solve_start false h ws) s ∧
    collected s = Some sets ∧ Forall (λ x, Z.of_nat (length x) < 2 ^ 32) sets ∧
    cartesian_result mu mc s = Some res.

#[export] Instance cartesian_rb_lawful : LawfulRB F tr sample cartesian_rb.
Proof using LawfulEnv0 Hview Hlen Hsort Halg Hnew Hconf Hmc.
  intros base res (Hb & h & ws & s & sets & Hh & Hws & Hne & Hc & Hr & Hcol & Hsz & E).
  assert (rtc (cstep env view std_sort pow clock rss fuel efuel l alg base conflict sample)
    (pre_solve_start false h ws) s) as Hr'.
  { clear -Hr. induction Hr as [| s1 s2 s3 [H | [? _]] _ IH]; [apply rtc_refl | by eapply rtc_l | done]. }
  by eapply (cartesian_rb_spec env good n F tr view).
Qed.
End Implementations.

(** ** Pieces that the strategies share *)

Section Pieces.
Context (F : formula) (tr : list Lit).
Context {M : Type} (val : M → Z → bool).
Context (service : bool → option Z → list Lit → State → option M → Prop).
Context `{!LawfulService F tr val service}.
Context (conflict : list Lit → bool) (Hconf : ∀ a, conflict a = true → conflicts_with F tr a).

#[local] Abbreviation model_of σ := (models σ F ∧ models_lits σ (lit_on tr)).

Definition good_model (m : option M) : Prop :=
  ∃ x, m = Some x ∧ models (val x) F ∧ models_lits (val x) (lit_on tr).

(** One callback of the engine loses no model. *)
Lemma filter_keeps σ pre a post nc nc' : model_of σ →
  filter_callback false (conflict a) a nc = (nc', true) →
  hit σ ((pre ++ a :: post) ++ nc) → hit σ ((pre ++ post) ++ nc').
Proof using Hconf.
  intros [HF Ht] [= <-] (x & Hx & Hm). destruct (conflict a) eqn:E.
  - exists x. split; [| done]. rewrite !elem_of_app, elem_of_cons in Hx. rewrite !elem_of_app.
    destruct Hx as [[? | [-> | ?]] | ?]; auto. by destruct (conflict_not_hit F tr σ a (Hconf a E)).
  - exists x. split; [| done]. rewrite !elem_of_app, elem_of_cons in *. rewrite elem_of_nil.
    naive_solver.
Qed.

(** ** Batches *)

Definition recorded (b : Batch M) : Prop := satisfied b = true → good_model (model b).

(** The models that the open and the failed tasks can still have. *)
Definition keeps (σ : Z → bool) (b b' : Batch M) : Prop :=
  hit σ (pending b ++ failed b) → satisfied b' = true ∨ hit σ (pending b' ++ failed b').

Lemma batch_fast interrupted lim b b' : batch_step service fast_callback lim interrupted b b' →
  (recorded b → recorded b') ∧ (satisfied b = true → satisfied b' = true) ∧
  (interrupted = false → ∀ σ, model_of σ → keeps σ b b') ∧
  (lim = None → failed b = [] ∨ interrupted = true ∨ satisfied b = true →
     failed b' = [] ∨ interrupted = true ∨ satisfied b' = true).
Proof using LawfulService0.
  intros [pre a post r m b0 Hp Hs Hcb | pre a post Hp Hst].
  - destruct r; cbn in Hcb.
    + destruct (sv_sat F tr _ _ _ _ Hs) as (x & -> & Hx). injection Hcb as <-. cbn.
      split; [intros _ _; exists x; cbn; done |]. split; [done |]. split; [by left | auto].
    + injection Hcb as <-. split; [done |]. split; [done |]. split; [| auto].
      intros _ σ [HF Ht] (y & Hy & Hm). right. exists y. split; [| done]. revert Hy. rewrite Hp. cbn.
      rewrite !elem_of_app, elem_of_cons. intros [[? | [-> | ?]] | ?]; auto.
      destruct (sv_unsat F tr _ _ _ _ Hs). exists σ. split; [done |]. by apply models_lits_app.
    + injection Hcb as <-. split; [done |]. split; [done |]. split.
      * intros _ σ _ (y & Hy & Hm). right. exists y. split; [| done]. revert Hy. rewrite Hp. cbn.
        rewrite !elem_of_app, !elem_of_cons, elem_of_nil. naive_solver.
      * intros -> H. right. cbn. destruct interrupted; [by left | right].
        destruct (satisfied b); [done |]. by destruct (sv_indef F tr _ _ Hs).
  - split; [done |]. split; [done |]. split; [| auto]. intros -> σ _ _. by left.
Qed.

Lemma batch_final interrupted lim b b' : batch_step service final_callback lim interrupted b b' →
  (recorded b → recorded b') ∧ (satisfied b = true → satisfied b' = true) ∧ (unknown b = true → unknown b' = true) ∧
  (interrupted = false → ∀ σ, model_of σ → hit σ (pending b) →
     satisfied b' = true ∨ unknown b' = true ∨ hit σ (pending b')) ∧
  (lim = None → unknown b = false ∨ interrupted = true ∨ satisfied b = true →
     unknown b' = false ∨ interrupted = true ∨ satisfied b' = true).
Proof using LawfulService0.
  intros [pre a post r m b0 Hp Hs Hcb | pre a post Hp Hst].
  - destruct r; cbn in Hcb.
    + destruct (sv_sat F tr _ _ _ _ Hs) as (x & -> & Hx). injection Hcb as <-. cbn.
      split; [intros _ _; exists x; cbn; done |]. split; [done |]. split; [done |]. split; [by left | auto].
    + injection Hcb as <-. split; [done |]. split; [done |]. split; [done |]. split; [| auto].
      intros _ σ [HF Ht] (y & Hy & Hm). right. right. exists y. split; [| done]. revert Hy. rewrite Hp. cbn.
      rewrite !elem_of_app, elem_of_cons. intros [? | [-> | ?]]; auto.
      destruct (sv_unsat F tr _ _ _ _ Hs). exists σ. split; [done |]. by apply models_lits_app.
    + injection Hcb as <-. split; [done |]. split; [done |]. split; [done |]. split; [auto |].
      intros -> H. right. cbn. destruct interrupted; [by left | right].
      destruct (satisfied b); [done |]. by destruct (sv_indef F tr _ _ Hs).
  - split; [done |]. split; [done |]. split; [done |]. split; [| auto]. intros -> σ _ _. by left.
Qed.
End Pieces.

(** ** [RecurringReduceSolve]: soundness *)

Section Recurring.
Context (F : formula) (tr : list Lit).
Context {M : Type} (val : M → Z → bool).
Context (service : bool → option Z → list Lit → State → option M → Prop).
Context (cfg : RecurringConfig).
Context (find_rb : bool → list Lit → rbs_result → Prop).
Context (conflict : list Lit → bool).
Context {R : Type} (sample : R → Z → Z → Z * R).
Context (Hconf : ∀ a, conflict a = true → conflicts_with F tr a).
Context `{!LawfulService F tr val service} `{!LawfulRB F tr sample find_rb}.

#[local] Abbreviation rstep := (rstep service cfg find_rb conflict sample).
#[local] Abbreviation rrun := (rrun service cfg find_rb conflict sample).
#[local] Abbreviation model_of σ := (models σ F ∧ models_lits σ (lit_on tr)).
#[local] Abbreviation good_model := (good_model F tr val).
#[local] Abbreviation unsat := (¬ satisfiable F (lit_on tr)).

(** Where a model can still be found. *)
Definition in_phase (σ : Z → bool) (p : RPhase M) : Prop :=
  match p with
  | PFind base _ => models_lits σ (lit_on base)
  | PFilter base _ todo nc => models_lits σ (lit_on base) ∧ hit σ (todo ++ nc)
  | PBatch _ _ _ b => satisfied b = true ∨ hit σ (pending b ++ failed b)
  | PChecked _ (inl SAT) => True
  | PChecked _ (inr fs) => hit σ fs
  | PChecked _ _ | PLoop | PExit => False
  | PReturn st => st = SAT
  end.

Definition remains (σ : Z → bool) (s : RState M) : Prop :=
  hit σ (fst <$> stack s) ∨ in_phase σ (r_phase s).

(** Sound whatever happens: models and the answer. *)
Definition phase_ok (s : RState M) : Prop :=
  match r_phase s with
  | PExit => r_interrupted s = false → stack s = []
  | PBatch _ _ _ b => recorded F tr val b
  | PChecked _ (inl SAT) => good_model (r_model s)
  | PChecked _ (inl UNSAT) => r_interrupted s = true ∨ unsat
  | PReturn SAT => good_model (r_model s)
  | PReturn UNSAT => unsat
  | PReturn UNKNOWN => r_interrupted s = true
  | _ => True
  end.

Record RInv (s : RState M) : Prop := {
  ri_ok : phase_ok s;
  ri_remains : r_interrupted s = false → (∀ st, r_phase s ≠ PReturn st) → ∀ σ, model_of σ → remains σ s }.

Lemma recurring_start_inv : RInv recurring_start.
Proof.
  split; [done |]. intros _ _ σ _. left. exists []. split; [by left |].
  intros p Hp. by apply elem_of_nil in Hp.
Qed.

Lemma no_hit_nil σ : ¬ hit σ [].
Proof. intros (a & Ha & _). by apply elem_of_nil in Ha. Qed.

Lemma push_stack_hit depth fs : ∀ σ st, hit σ fs ∨ hit σ (fst <$> st) → hit σ (fst <$> push_stack depth fs st).
Proof.
  unfold push_stack. induction fs as [| f fs IH]; intros σ st; cbn [foldl].
  - intros [H | H]; [by destruct (no_hit_nil σ) | done].
  - intros H. apply IH. destruct H as [(a & [-> | Ha]%elem_of_cons & Hm) | (a & Ha & Hm)].
    + right. exists f. split; [by left | done].
    + left. by exists a.
    + right. exists a. split; [by right | done].
Qed.

Lemma base_app_hit σ base nc : models_lits σ (lit_on base) → hit σ nc → hit σ (app base <$> nc).
Proof.
  intros Hb (a & Ha & Hm). exists (base ++ a). split; [by apply list_elem_of_fmap_2 |].
  by apply models_lits_app.
Qed.

Lemma unsat_of (P : Prop) : (∀ σ, model_of σ → P) → ¬ P → unsat.
Proof. intros H HP (σ & Hm). by apply HP, (H σ). Qed.

(** After the filter. *)
Lemma after_filter_inv s depth r : RInv s → r_phase s = PChecked depth r →
  RInv (after_filter s depth r).
Proof.
  intros [Hok Hrem] Hp. unfold after_filter, phase_ok in *. rewrite Hp in *.
  destruct (r_interrupted s) eqn:Ei.
  { split; cbn; [exact Ei | intros _ H; by destruct (H UNKNOWN)]. }
  assert (∀ st, PChecked depth r ≠ PReturn (M := M) st) as Hne by done.
  specialize (Hrem eq_refl Hne). unfold remains in Hrem. rewrite Hp in Hrem.
  destruct r as [[] | fs]; split; unfold phase_ok; cbn; try done; try (intros _ H; by edestruct H).
  - by destruct Hok.
  - intros _ _ σ Hm. left. apply push_stack_hit. destruct (Hrem σ Hm) as [H | H]; auto.
Qed.

Lemma rstep_inv s s' : RInv s → rstep s s' → RInv s'.
Proof using LawfulService0 LawfulRB0 Hconf.
  intros HI Hstep. pose proof HI as [Hok Hrem]. destruct Hstep as
    [base depth rest Hp Hi Hst | Hp Hst | Hp | base depth r Hp Hf | base depth search r todo r' Hp Hf Hv
    | base depth pre a post nc nc' Hp Hcb | base depth pre a dropped post nc nc' Hp Hcb | base depth nc lim Hp Hl
    | base depth lim b b' Hp Hb | base depth lim b Hp Hd | depth r Hp];
    unfold phase_ok in Hok; rewrite Hp in Hok; unfold remains in Hrem; rewrite Hp in Hrem.
  - split; [done |]. intros _ _ σ Hm. destruct (Hrem Hi ltac:(done) σ Hm) as [(a & Ha & Hs) | Hx]; [| done].
    rewrite Hst in Ha. cbn in Ha. apply elem_of_cons in Ha as [-> | Ha]; [by right |].
    left. by exists a.
  - split; cbn; [unfold phase_ok; cbn; intros; destruct Hst; congruence |].
    intros Hi _ σ Hm. by apply (Hrem Hi).
  - split; unfold phase_ok; cbn; [| intros _ H; by edestruct H].
    destruct (r_interrupted s) eqn:Ei; [done |]. specialize (Hok eq_refl).
    apply (unsat_of False); [| tauto]. intros σ Hm. destruct (Hrem eq_refl ltac:(done) σ Hm) as [H | []].
    rewrite Hok in H. by destruct (no_hit_nil σ).
  - split.
    { unfold phase_ok. cbn. destruct (r_interrupted s) eqn:Ei; destruct r, base; try done; [by left | right].
      pose proof (rb_lawful F tr sample [] _ Hf) as Hl. cbn in Hl. by rewrite app_nil_r in Hl. }
    cbn. intros Hi _ σ Hm. rewrite Hi in Hf.
    pose proof (rb_lawful F tr sample base _ Hf) as Hl. destruct r; [| done].
    destruct (Hrem Hi ltac:(done) σ Hm) as [H | H]; [by left |]. destruct Hl. exists σ. destruct Hm.
    split; [done |]. by apply models_lits_app.
  - split; [done |]. cbn. intros Hi _ σ Hm. rewrite Hi in Hf.
    destruct (Hrem Hi ltac:(done) σ Hm) as [H | H]; [by left |]. right. split; [exact H |].
    rewrite app_nil_r. pose proof (rb_lawful F tr sample base _ Hf) as Hl.
    destruct (Hl r (S (Z.to_nat (s_total search)))) as (v & Ev & Hc); [lia |]. rewrite Hv in Ev.
    injection Ev as -> _. by destruct Hm; apply Hc.
  - split; [done |]. cbn. intros Hi _ σ Hm. rewrite Hi in Hcb.
    destruct (Hrem Hi ltac:(done) σ Hm) as [H | [Hb Hh]]; [by left |]. right. split; [done |].
    by apply (filter_keeps F tr conflict Hconf σ pre a post nc nc').
  - split; [done |]. cbn. intros Hi. rewrite Hi in Hcb. by destruct (conflict a).
  - split; [by unfold phase_ok; cbn; intros ? |]. cbn. intros Hi _ σ Hm.
    destruct (Hrem Hi ltac:(done) σ Hm) as [H | [Hb Hh]]; [by left |]. right. right. rewrite app_nil_r.
    by apply base_app_hit.
  - destruct (batch_fast F tr val service _ _ _ _ Hb) as (H1 & H2 & H3 & _).
    split; [by apply H1 |]. cbn. intros Hi _ σ Hm.
    destruct (Hrem Hi ltac:(done) σ Hm) as [H | [H | H]]; [by left | right; left; auto |].
    right. by apply (H3 Hi σ Hm).
  - split.
    + unfold phase_ok, fast_result. cbn. destruct (satisfied b) eqn:Es; [by apply Hok |]. by destruct (failed b).
    + cbn. intros Hi _ σ Hm. unfold fast_result. cbn in Hrem. rewrite Hd in Hrem. cbn in Hrem.
      destruct (Hrem Hi ltac:(done) σ Hm) as [H | [H | H]]; [by left | right; by rewrite H |].
      right. destruct (satisfied b); [done |]. destruct (failed b); [by destruct (no_hit_nil σ) | done].
  - by apply after_filter_inv.
Qed.
(** ** [RecurringReduceSolve]: termination *)

(** Replacing the head of a list by smaller numbers. *)
Definition unwind (new old : list nat) : Prop :=
  ∃ x xs ys, old = x :: xs ∧ new = ys ++ xs ∧ Forall (λ y, (y < x)%nat) ys.

Lemma unwind_app ys xs : Acc unwind xs → (∀ y, y ∈ ys → ∀ zs, Acc unwind zs → Acc unwind (y :: zs)) →
  Acc unwind (ys ++ xs).
Proof.
  intros Hx. induction ys as [| y ys IH]; intros Hy; [done |]. apply Hy; [by left |].
  apply IH. intros z Hz. apply Hy. by right.
Qed.

Lemma unwind_wf : well_founded unwind.
Proof.
  assert (∀ x xs, Acc unwind xs → Acc unwind (x :: xs)) as H.
  { intros x. induction (lt_wf x) as [x _ IH]. intros xs Hx. constructor.
    intros new (x' & xs' & ys & [= <- <-] & -> & Hy). apply unwind_app; [done |].
    rewrite Forall_forall in Hy. intros y Hin. by apply IH, Hy. }
  intros l. induction l as [| x xs IH]; [| by apply H].
  constructor. intros new (x & xs & ys & ? & _). done.
Qed.

(** An item of the stack can be split as often as its depth allows. *)
Definition item_level (depth : Z) : nat := 2 * Z.to_nat (max_recursion_depth cfg + 1 - depth).

Definition work (s : RState M) : list nat :=
  let rest := item_level ∘ snd <$> stack s in
  match r_phase s with
  | PFind _ d | PFilter _ d _ _ | PBatch _ d _ _ | PChecked d _ => (item_level d - 1)%nat :: rest
  | _ => rest
  end.

Definition rank (s : RState M) : nat * nat :=
  let flag := (if r_interrupted s then 0 else 1)%nat in
  match r_phase s with
  | PFind _ _ => (7, flag)%nat
  | PFilter _ _ todo _ => (6, length todo + flag)%nat
  | PBatch _ _ _ b => (5, length (pending b) + flag)%nat
  | PChecked _ _ => (4, flag)%nat
  | PLoop => (3, flag)%nat
  | PExit => (2, flag)%nat
  | PReturn _ => (1, flag)%nat
  end.

Definition rorder (s' s : RState M) : Prop :=
  slexprod (list nat) (nat * nat) unwind (slexprod nat nat lt lt) (work s', rank s') (work s, rank s).

Lemma rorder_wf : well_founded rorder.
Proof.
  apply (wf_projected (slexprod _ _ unwind (slexprod nat nat lt lt)) (λ s, (work s, rank s))); [done |].
  apply wf_slexprod; [apply unwind_wf |]. apply wf_slexprod; apply lt_wf.
Qed.

(** Depths are bounded: at the last one the service has no time limit. *)
Definition depth_ok (s : RState M) : Prop :=
  Forall (λ x, x.2 <= max_recursion_depth cfg) (stack s) ∧
  match r_phase s with
  | PFind _ d | PFilter _ d _ _ => d <= max_recursion_depth cfg
  | PBatch _ d lim b => d <= max_recursion_depth cfg ∧
      (d = max_recursion_depth cfg → lim = None ∧ (failed b = [] ∨ r_interrupted s = true ∨ satisfied b = true))
  | PChecked d (inr fs) => d < max_recursion_depth cfg ∨ r_interrupted s = true
  | _ => True
  end.

Lemma push_stack_Forall P depth fs : ∀ st, Forall P st → Forall (λ f, P (f, depth + 1)) fs →
  Forall P (push_stack depth fs st).
Proof.
  unfold push_stack. induction fs as [| f fs IH]; intros st Hs; [done |]. intros [Hf Hfs]%Forall_cons.
  apply IH; [by apply Forall_cons_2 | done].
Qed.

Lemma push_stack_levels depth fs : ∀ st, item_level ∘ snd <$> push_stack depth fs st =
  replicate (length fs) (item_level (depth + 1)) ++ (item_level ∘ snd <$> st).
Proof.
  unfold push_stack. induction fs as [| f fs IH]; intros st; [done |]. cbn [foldl length]. rewrite IH.
  by rewrite replicate_S_end, <- (assoc_L (++)).
Qed.

Lemma time_limit_last depth lim : time_limit cfg depth = Some lim → depth = max_recursion_depth cfg → lim = None.
Proof. unfold time_limit. intros H ->. rewrite Z.ltb_irrefl in H. by injection H as <-. Qed.

Lemma rstep_depth s s' : depth_ok s → rstep s s' → depth_ok s'.
Proof using LawfulService0.
  intros [Hst Hd] Hstep. destruct Hstep as
    [base depth rest Hp Hi Hs | Hp Hs | Hp | base depth r Hp Hf | base depth search r todo r' Hp Hf Hv
    | base depth pre a post nc nc' Hp Hcb | base depth pre a dropped post nc nc' Hp Hcb | base depth nc lim Hp Hl
    | base depth lim b b' Hp Hb | base depth lim b Hp Hpd | depth r Hp]; rewrite Hp in Hd; try (by split).
  - rewrite Hs in Hst. apply Forall_cons in Hst as [Hx Hr]. by split.
  - split; [done |]. split; [exact Hd |]. intros He. split; [by eapply time_limit_last | by left].
  - destruct Hd as [Hd Hl]. split; [done |]. split; [done |]. intros He. destruct (Hl He) as [-> H].
    split; [done |]. by apply (batch_fast F tr val service _ _ _ _ Hb).
  - split; [done |]. destruct Hd as [Hd Hl]. unfold fast_result. cbn.
    destruct (satisfied b) eqn:Es; [done |]. destruct (failed b) as [| f fs] eqn:Ef; [done |].
    destruct (decide (depth = max_recursion_depth cfg)) as [He | Hne]; [| left; lia].
    destruct (Hl He) as [_ [? | [? | ?]]]; [done | by right | done].
  - unfold after_filter. destruct (r_interrupted s) eqn:Ei; [by split |].
    destruct r as [[] | fs]; try by split. split; [| done]. cbn. apply push_stack_Forall; [done |].
    apply Forall_true. intros f. simpl. destruct Hd; [lia | done].
Qed.

Lemma rrun_depth s s' : depth_ok s → rrun s s' → depth_ok s'.
Proof using LawfulService0.
  intros Hd [s1 Hs | Hi]; [by eapply rstep_depth |]. destruct Hd as [Hst Hd]. split; [done |].
  cbn. destruct (r_phase s) as [| | | | base d lim b | d [| fs] |]; try done.
  - destruct Hd as [Hd Hl]. split; [done |]. intros He. destruct (Hl He). auto.
  - by right.
Qed.

Lemma lex_left (a a' : list nat) (p p' : nat * nat) : unwind a' a →
  slexprod _ _ unwind (slexprod nat nat lt lt) (a', p') (a, p).
Proof. by left. Qed.

Lemma lex_right (a a' : list nat) (p p' : nat * nat) : a' = a → (p'.1 < p.1)%nat ∨ p'.1 = p.1 ∧ (p'.2 < p.2)%nat →
  slexprod _ _ unwind (slexprod nat nat lt lt) (a', p') (a, p).
Proof.
  intros ->. destruct p as [x y], p' as [x' y']. simpl. intros [H | [-> H]]; right; [by left | by right].
Qed.

Lemma rrun_decreases s s' : depth_ok s → rrun s s' → rorder s' s.
Proof.
  intros [Hst Hd] Hr. unfold rorder. destruct Hr as [s' Hstep | Hi].
  2: { apply lex_right; unfold work, rank; cbn; [done |]. rewrite Hi. destruct (r_phase s); simpl; lia. }
  destruct Hstep as
    [base depth rest Hp Hi Hs | Hp Hs | Hp | base depth r Hp Hf | base depth search r todo r' Hp Hf Hv
    | base depth pre a post nc nc' Hp Hcb | base depth pre a dropped post nc nc' Hp Hcb | base depth nc lim Hp Hl
    | base depth lim b b' Hp Hb | base depth lim b Hp Hpd | depth r Hp]; rewrite Hp in Hd.
  - apply lex_left. unfold work. rewrite Hp, Hs. cbn. exists (item_level depth), (item_level ∘ snd <$> rest), [(item_level depth - 1)%nat].
    split; [done |]. split; [done |]. apply Forall_cons_2; [| apply Forall_nil_2].
    rewrite Hs in Hst. apply Forall_cons in Hst as [Hx _]. simpl in Hx. unfold item_level. lia.
  - apply lex_right; unfold work, rank; rewrite Hp; cbn; [done |]. lia.
  - apply lex_right; unfold work, rank; rewrite Hp; cbn; [done |]. lia.
  - apply lex_right; unfold work, rank; rewrite Hp; cbn; [done |]. lia.
  - apply lex_right; unfold work, rank; rewrite Hp; cbn; [done |]. lia.
  - apply lex_right; unfold work, rank; rewrite Hp; cbn; [done |]. rewrite !length_app. simpl. lia.
  - apply lex_right; unfold work, rank; rewrite Hp; cbn; [done |]. rewrite !length_app. simpl. rewrite length_app. lia.
  - apply lex_right; unfold work, rank; rewrite Hp; cbn; [done |]. lia.
  - apply lex_right; unfold work, rank; rewrite Hp; cbn; [done |]. right. split; [done |].
    assert (length (pending b') < length (pending b))%nat; [| lia].
    destruct Hb as [pre a post r m b' Hpd Hs Hcb | pre a post Hpd Hs]; rewrite Hpd, ?length_app; simpl; [| rewrite length_app; lia].
    assert (pending b' = pre ++ post) as ->; [| rewrite length_app; lia].
    destruct r; cbn in Hcb; [destruct m as [m |]; [| done] | |]; by injection Hcb as <-.
  - apply lex_right; unfold work, rank; rewrite Hp; cbn; [done |]. lia.
  - unfold after_filter. destruct (r_interrupted s) eqn:Ei; [| destruct r as [[] | fs]]; apply lex_left;
      unfold work; rewrite Hp; cbn; eexists _, _, _; (split; [done |]).
    1-4: split; [by rewrite app_nil_l | apply Forall_nil_2].
    split; [apply push_stack_levels |]. apply Forall_replicate. destruct Hd; [| done]. unfold item_level. lia.
Qed.

Lemma rrun_sn s : depth_ok s → sn rrun s.
Proof using LawfulService0.
  induction (rorder_wf s) as [s _ IH]. intros Hd. constructor. intros s' Hs.
  apply IH; [by apply rrun_decreases | by eapply rrun_depth].
Qed.

Lemma start_depth : 0 <= max_recursion_depth cfg → depth_ok recurring_start.
Proof. intros H. split; [| done]. cbn. apply Forall_cons_2; [done | apply Forall_nil_2]. Qed.

Lemma rrun_inv s s' : RInv s → rrun s s' → RInv s'.
Proof using LawfulService0 LawfulRB0 Hconf.
  intros HI [s1 Hs | Hi]; [by eapply rstep_inv |]. destruct HI as [Hok Hrem]. split; [| done].
  unfold phase_ok in *. cbn. destruct (r_phase s) as [| | | | | d [[] |] | []]; auto; done.
Qed.

Lemma reachable_rinv s s' : RInv s → rtc rrun s s' → RInv s'.
Proof using LawfulService0 LawfulRB0 Hconf.
  intros HI Hr. induction Hr as [| s1 s2 s3 H12 _ IH]; [done |]. by eapply IH, rrun_inv.
Qed.

Lemma reachable_depth s s' : depth_ok s → rtc rrun s s' → depth_ok s'.
Proof using LawfulService0.
  intros HI Hr. induction Hr as [| s1 s2 s3 H12 _ IH]; [done |]. by eapply IH, rrun_depth.
Qed.

(** Models and interrupts, whatever the searches for a backdoor return. *)
Definition ans_ok (s : RState M) : Prop :=
  match r_phase s with
  | PBatch _ _ _ b => recorded F tr val b
  | PChecked _ (inl SAT) | PReturn SAT => good_model (r_model s)
  | PReturn UNKNOWN => r_interrupted s = true
  | _ => True
  end.

Lemma rstep_ans s s' : ans_ok s → rstep s s' → ans_ok s'.
Proof using LawfulService0.
  unfold ans_ok. intros Hok Hstep. destruct Hstep as
    [base depth rest Hp Hi Hs | Hp Hs | Hp | base depth r Hp Hf | base depth search r todo r' Hp Hf Hv
    | base depth pre a post nc nc' Hp Hcb | base depth pre a dropped post nc nc' Hp Hcb | base depth nc lim Hp Hl
    | base depth lim b b' Hp Hb | base depth lim b Hp Hd | depth r Hp]; rewrite Hp in Hok; cbn; try done.
  - by destruct (r_interrupted s).
  - by destruct r, base.
  - by apply (batch_fast F tr val service _ _ _ _ Hb).
  - unfold fast_result. destruct (satisfied b) eqn:Es; [by apply Hok |]. by destruct (failed b).
  - unfold after_filter. destruct (r_interrupted s) eqn:Ei; [done |]. by destruct r as [[] | fs].
Qed.

Lemma reachable_ans s s' : ans_ok s → rtc rrun s s' → ans_ok s'.
Proof using LawfulService0.
  intros Ha Hr. induction Hr as [| s1 s2 s3 H12 _ IH]; [done |]. apply IH. destruct H12 as [s2 Hs | Hi]; [by eapply rstep_ans |].
  unfold ans_ok in *. cbn. by destruct (r_phase s1) as [| | | | | d [[] |] | []].
Qed.

(** A state that has not returned can move. *)
Lemma rstep_progress s : depth_ok s →
  (∀ i base, ∃ res, find_rb i base res) →
  (∀ i base search, find_rb i base (inr search) →
     ∃ r, is_Some (visit sample 0 (S (Z.to_nat (s_total search))) r search)) →
  (∀ d, d <= max_recursion_depth cfg → is_Some (time_limit cfg d)) →
  (∀ stop lim a, ∃ res m, service stop lim a res m) →
  nf rstep s → ∃ st, r_phase s = PReturn st.
Proof using LawfulService0.
  intros [_ Hd] Hrb Hv Htl Hsv Hnf.
  assert (∀ s', ¬ rstep s s') as Hno by (intros s' Hs; apply Hnf; by exists s'). clear Hnf.
  destruct (r_phase s) as [| | base d | base d todo nc | base d lim b | d r | st] eqn:Hp; [| | | | | | by exists st].
  - exfalso. destruct (r_interrupted s) eqn:Ei; [by eapply Hno, r_exit; [| right] |].
    destruct (stack s) as [| [base d] rest] eqn:Es; [by eapply Hno, r_exit; [| left] |]. by eapply Hno, r_pop.
  - exfalso. by eapply Hno, r_final.
  - exfalso. destruct (Hrb (r_interrupted s) base) as [[r | search] Hf]; [by eapply Hno, r_reason |].
    destruct (Hv _ _ _ Hf) as (r & [todo r'] & E). by eapply Hno, r_search.
  - exfalso. destruct todo as [| a todo].
    + destruct (Htl d Hd) as [lim El]. by eapply Hno, r_submit.
    + destruct (filter_callback (r_interrupted s) (conflict a) a nc) as [nc' [|]] eqn:E.
      * by eapply Hno, (r_told _ _ _ _ _ s base d [] a todo).
      * by eapply Hno, (r_stopped _ _ _ _ _ s base d [] a [] todo).
  - exfalso. destruct (pending b) as [| a todo] eqn:Epd; [by eapply Hno, r_waited |].
    destruct (Hsv (r_interrupted s || satisfied b) lim a) as (res & m & Hs).
    assert (∃ b', fast_callback a res m (b <| pending := [] ++ todo |>) = Some b') as [b' Hcb].
    { destruct res; [| by eexists ..]. destruct (sv_sat F tr _ _ _ _ Hs) as (x & -> & _). by eexists. }
    by eapply Hno, r_batch; [| eapply (b_done _ _ _ _ _ [])].
  - exfalso. by eapply Hno, r_check.
Qed.
End Recurring.

(** ** [SingleReduceSolve] *)

Section Single.
Context (F : formula) (tr : list Lit).
Context {M : Type} (val : M → Z → bool).
Context (service : bool → option Z → list Lit → State → option M → Prop).
Context (find_rb : bool → list Lit → rbs_result → Prop).
Context (conflict : list Lit → bool).
Context {R : Type} (sample : R → Z → Z → Z * R).
Context (Hconf : ∀ a, conflict a = true → conflicts_with F tr a).
Context `{!LawfulService F tr val service} `{!LawfulRB F tr sample find_rb}.

#[local] Abbreviation sstep := (sstep service find_rb conflict sample).
#[local] Abbreviation srun := (srun service find_rb conflict sample).
#[local] Abbreviation model_of σ := (models σ F ∧ models_lits σ (lit_on tr)).
#[local] Abbreviation good_model := (good_model F tr val).
#[local] Abbreviation unsat := (¬ satisfiable F (lit_on tr)).

(** What holds in a phase; the second part only while nobody has interrupted. *)
Definition single_ok (s : SState M) : Prop :=
  match s_phase s with
  | SBatch b => recorded F tr val b ∧ (unknown b = false ∨ s_interrupted s = true ∨ satisfied b = true)
  | SReturn SAT => good_model (s_model s)
  | SReturn UNKNOWN => s_interrupted s = true
  | _ => True
  end.

Definition single_remains (s : SState M) : Prop :=
  match s_phase s with
  | SFind => True
  | SFilter todo nc => ∀ σ, model_of σ → hit σ (todo ++ nc)
  | SBatch b => ∀ σ, model_of σ → satisfied b = true ∨ unknown b = true ∨ hit σ (pending b)
  | SReturn UNSAT => unsat
  | SReturn _ => True
  end.

Definition SInv (s : SState M) : Prop := single_ok s ∧ (s_interrupted s = false → single_remains s).

Lemma sstep_inv s s' : SInv s → sstep s s' → SInv s'.
Proof using LawfulService0 LawfulRB0 Hconf.
  unfold SInv, single_ok, single_remains. intros [Hok Hrem] Hstep. destruct Hstep as
    [r Hp Hf | search r todo r' Hp Hf Hv | pre a post nc nc' Hp Hcb | pre a dropped post nc nc' Hp Hcb
    | nc Hp | b b' Hp Hb | b Hp Hd]; rewrite Hp in *; cbn.
  - destruct (s_interrupted s) eqn:Ei; [by destruct r |].
    pose proof (rb_lawful F tr sample [] _ Hf) as Hl. destruct r; [| done]. split; [done |]. intros _.
    cbn in Hl. by rewrite app_nil_r in Hl.
  - split; [done |]. intros Hi σ Hm. rewrite Hi in Hf. pose proof (rb_lawful F tr sample [] _ Hf) as Hl.
    destruct (Hl r (S (Z.to_nat (s_total search)))) as (v & Ev & Hc); [lia |]. rewrite Hv in Ev.
    injection Ev as -> _. rewrite app_nil_r. by destruct Hm; apply Hc.
  - split; [done |]. intros Hi σ Hm. rewrite Hi in Hcb.
    apply (filter_keeps F tr conflict Hconf σ pre a post nc nc'); [done | done | by apply Hrem].
  - split; [done |]. intros Hi. rewrite Hi in Hcb. by destruct (conflict a).
  - split; [split; [done | by left] |]. intros Hi σ Hm. right. right. by apply (Hrem Hi).
  - destruct (batch_final F tr val service _ _ _ _ Hb) as (H1 & H2 & H3 & H4 & H5).
    split; [split; [by apply H1, Hok | by apply H5, Hok] |]. intros Hi σ Hm.
    destruct (Hrem Hi σ Hm) as [H | [H | H]]; auto.
  - destruct Hok as [Hr Hu]. unfold final_result. destruct (satisfied b) eqn:Es; [by split; [apply Hr |] |].
    destruct (unknown b) eqn:Eu; simpl.
    { split; [| done]. by destruct Hu as [? | [? | ?]]. }
    destruct (s_interrupted s) eqn:Ei; simpl; [done |]. split; [done |]. intros _ (σ & Hm).
    destruct (Hrem eq_refl σ Hm) as [? | [? | H]]; [done | done |]. rewrite Hd in H.
    by destruct (no_hit_nil σ).
Qed.

Lemma srun_inv s s' : SInv s → srun s s' → SInv s'.
Proof using LawfulService0 LawfulRB0 Hconf.
  intros HI [s1 Hs | Hi]; [by eapply sstep_inv |]. destruct HI as [Hok _]. split; [| done].
  unfold single_ok in *. cbn. destruct (s_phase s) as [| | b | []]; try done. destruct Hok. auto.
Qed.
End Single.

(** An UNSAT of a run with a lawful search. *)
Lemma recurring_unsat (F : formula) tr {M} (val : M → Z → bool) service cfg find_rb conflict
    {R} (sample : R → Z → Z → Z * R) s :
  LawfulService F tr val service → LawfulRB F tr sample find_rb →
  (∀ a, conflict a = true → conflicts_with F tr a) →
  rtc (rrun service cfg find_rb conflict sample) recurring_start s → r_phase s = PReturn UNSAT →
  ¬ satisfiable F (lit_on tr).
Proof.
  intros HS HR Hconf Hrun Hp.
  destruct (reachable_rinv F tr val service cfg find_rb conflict sample Hconf _ s
    (recurring_start_inv F tr val) Hrun) as [Hok _].
  unfold phase_ok in Hok. by rewrite Hp in Hok.
Qed.

(** ** The properties *)

(** C9. Under every interleaving of engine, service and interrupts, and whatever
    the searches for a backdoor return, [RecurringReduceSolve] answers SAT only
    with a model and UNKNOWN only when it was interrupted; it answers UNSAT only
    when there is no model, in every execution in which the results of the
    searches that were not interrupted are right.  Those of [OneRBSearch] are;
    a [CartesianRBSearch] that meets an old event can break this,
    [recurring_stale_unsat]. *)
Theorem recurring_solve_correct (F : formula) tr {M} (val : M → Z → bool) service cfg find_rb conflict
    {R} (sample : R → Z → Z → Z * R) s st :
  LawfulService F tr val service → (∀ a, conflict a = true → conflicts_with F tr a) →
  rtc (rrun service cfg find_rb conflict sample) recurring_start s → r_phase s = PReturn st →
  match st with
  | SAT => ∃ x, r_model s = Some x ∧ models (val x) F ∧ models_lits (val x) (lit_on tr)
  | UNKNOWN => r_interrupted s = true
  | UNSAT => rtc (rrun service cfg (trusted F tr sample find_rb) conflict sample) recurring_start s →
             ¬ satisfiable F (lit_on tr)
  end.
Proof.
  intros HS Hconf Hrun Hp.
  pose proof (reachable_ans F tr val service cfg find_rb conflict sample recurring_start s I Hrun) as Ha.
  unfold ans_ok in Ha. rewrite Hp in Ha. destruct st; [exact Ha | | exact Ha]. intros Ht.
  by apply (recurring_unsat F tr val service cfg (trusted F tr sample find_rb) conflict sample s HS
    (trusted_lawful F tr sample find_rb) Hconf Ht).
Qed.

(** With [OneRBSearch], whose results are right, UNSAT is always right. *)
Theorem recurring_one_rb_correct {W} (env : EvolEnv W) good n (F : formula) tr view std_sort pow clock rss fuel efuel
    l alg {M} (val : M → Z → bool) service cfg conflict {R} (sample : R → Z → Z → Z * R) s :
  LawfulEnv env good n F tr → Forall (λ v, 0 <= v < n) view → 0 < Z.of_nat (length view) < 2 ^ 32 →
  (∀ lt l, std_sort lt l ≡ₚ l) → alg_ok n F tr view alg → base_assumption (shared alg) = [] →
  LawfulService F tr val service → (∀ a, conflict a = true → conflicts_with F tr a) →
  rtc (rrun service cfg (one_rb env good n view std_sort pow clock rss fuel efuel l alg) conflict sample)
    recurring_start s →
  r_phase s = PReturn UNSAT → ¬ satisfiable F (lit_on tr).
Proof.
  intros HL Hview Hlen Hsort Halg Hnew HS Hconf Hrun Hp. pose proof (one_rb_lawful env good n F tr view Hview Hlen
    std_sort Hsort pow clock rss fuel efuel l alg Halg Hnew sample) as HR.
  by eapply (recurring_unsat F tr val service cfg).
Qed.

(** C10. [RecurringReduceSolve] over a lawful service always returns: every
    execution is finite, because from the maximal depth on the service has no
    time limit, and a state that cannot move has returned, when the searches for
    a backdoor and the service always return. *)
Theorem recurring_solve_terminates (F : formula) tr {M} (val : M → Z → bool) service cfg find_rb conflict
    {R} (sample : R → Z → Z → Z * R) s :
  LawfulService F tr val service → 0 <= max_recursion_depth cfg →
  (∀ i base, ∃ res, find_rb i base res) →
  (∀ i base search, find_rb i base (inr search) →
     ∃ r, is_Some (visit sample 0 (S (Z.to_nat (s_total search))) r search)) →
  (∀ d, d <= max_recursion_depth cfg → is_Some (time_limit cfg d)) →
  (∀ stop lim a, ∃ res m, service stop lim a res m) →
  rtc (rrun service cfg find_rb conflict sample) recurring_start s →
  sn (rrun service cfg find_rb conflict sample) s ∧
  (nf (rstep service cfg find_rb conflict sample) s → ∃ st, r_phase s = PReturn st).
Proof.
  intros HS Hd Hrb Hv Htl Hsv Hrun.
  assert (depth_ok cfg s) as Hs.
  { eapply (reachable_depth F tr val service cfg find_rb conflict sample); [by apply start_depth | exact Hrun]. }
  split; [by apply (rrun_sn F tr val) |]. by apply (rstep_progress F tr val).
Qed.

(** When a search for a backdoor can return [RBS_INTERRUPTED] although
    nothing interrupted the strategy, [RecurringReduceSolve] can answer UNSAT
    whatever the problem is. *)
Theorem recurring_stale_unsat {M} service cfg find_rb conflict {R} (sample : R → Z → Z → Z * R) :
  find_rb false [] (inl RBS_INTERRUPTED) →
  ∃ s : RState M, rtc (rstep service cfg find_rb conflict sample) recurring_start s ∧
    r_interrupted s = false ∧ r_phase s = PReturn UNSAT.
Proof.
  intros Hf. eexists. split.
  - eapply rtc_l; [eapply r_pop; done |]. eapply rtc_l; [eapply r_reason; done |].
    eapply rtc_l; [eapply r_check; done |]. eapply rtc_l; [eapply r_exit; [done | by left] |].
    eapply rtc_l; [eapply r_final; done |]. done.
  - done.
Qed.

(** [SingleReduceSolve] answers correctly as long as it is not interrupted;
    its models and its UNKNOWN are right even then. *)
Theorem single_solve_correct (F : formula) tr {M} (val : M → Z → bool) service find_rb conflict
    {R} (sample : R → Z → Z → Z * R) s st :
  LawfulService F tr val service → LawfulRB F tr sample find_rb →
  (∀ a, conflict a = true → conflicts_with F tr a) →
  rtc (srun service find_rb conflict sample) single_start s → s_phase s = SReturn st →
  match st with
  | SAT => ∃ x, s_model s = Some x ∧ models (val x) F ∧ models_lits (val x) (lit_on tr)
  | UNSAT => s_interrupted s = false → ¬ satisfiable F (lit_on tr)
  | UNKNOWN => s_interrupted s = true
  end.
Proof.
  intros HS HR Hconf Hrun Hp. assert (SInv F tr val s) as [Hok Hrem].
  { assert (SInv F tr val single_start) as H0 by done. revert H0. clear Hp.
    induction Hrun as [| s1 s2 s3 H12 _ IH]; [done |]. intros HI. by eapply IH, srun_inv. }
  unfold single_ok, single_remains in *. rewrite Hp in *. by destruct st.
Qed.

(** An interrupted search for a backdoor that reports a strong backdoor
    makes [SingleReduceSolve] answer UNSAT whatever the problem is. *)
Theorem single_interrupt_wrong {M} service find_rb conflict {R} (sample : R → Z → Z → Z * R) :
  find_rb true [] (inl RBS_SBS_FOUND) →
  ∃ s : SState M, rtc (srun service find_rb conflict sample) single_start s ∧ s_phase s = SReturn UNSAT.
Proof.
  intros Hf. eexists. split.
  - eapply rtc_l; [by apply srun_interrupt |]. eapply rtc_l; [eapply srun_step, s_reason; done |]. done.
  - done.
Qed.
