(* ===== verification/Portfolio.v ===== *)
(** * [PortfolioSolve]

    [core/solve/PortfolioSolve]: one thread per strategy; the answer of the
    first whose exchange with UNKNOWN succeeds is the answer of the portfolio,
    and it interrupts the others.  The strategies are a parameter: what the
    [i]-th may answer, knowing whether it has been interrupted. *)
From stdpp Require Import relations.
From S2P Require Import Prelude Solve.

Section Portfolio.
Context {M : Type}.

(** A thread: in [solve]; before the exchange; before [_model] is assigned;
    before [interrupt()]; ended. *)
Inductive PThread :=
  | TSolve
  | TExchange (r : State) (m : M)
  | TModel (m : M)
  | TInterrupt
  | TEnd.

Record Portfolio := MkPortfolio {
  result : State;
  p_model : option M;
  p_interrupted : bool;
  p_threads : list PThread }.

#[export] Instance Portfolio_settable : Settable Portfolio := λ p,
  MkPortfolio (result p) (p_model p) (p_interrupted p) (p_threads p).

Definition new_portfolio (n : nat) : Portfolio := MkPortfolio UNKNOWN None false (replicate n TSolve).

Definition p_set (p : Portfolio) (i : nat) (t : PThread) : Portfolio :=
  p <| p_threads := <[i := t]> (p_threads p) |>.

(** [result.compare_exchange_strong(UNKNOWN, r)]. *)
Definition exchange (p : Portfolio) (r : State) : Portfolio * bool :=
  if decide (result p = UNKNOWN) then (p <| result := r |>, true) else (p, false).

(** [solves i interrupted r m]: strategy [i] may answer [r], and [get_model]
    gives [m] then. *)
Context (solves : nat → bool → State → M → Prop).

Inductive pstep (p : Portfolio) : Portfolio → Prop :=
  | p_solve i r m : p_threads p !! i = Some TSolve → solves i (p_interrupted p) r m →
      pstep p (p_set p i (TExchange r m))
  | p_won i r m p' : p_threads p !! i = Some (TExchange r m) → exchange p r = (p', true) →
      pstep p (p_set p' i (TModel m))
  | p_lost i r m p' : p_threads p !! i = Some (TExchange r m) → exchange p r = (p', false) →
      pstep p (p_set p' i TEnd)
  | p_assign i m : p_threads p !! i = Some (TModel m) →
      pstep p ((p_set p i TInterrupt) <| p_model := Some m |>)
  | p_stop i : p_threads p !! i = Some TInterrupt →
      pstep p ((p_set p i TEnd) <| p_interrupted := true |>).

(** All threads have been joined. *)
Definition joined (p : Portfolio) : Prop := Forall (λ t, t = TEnd) (p_threads p).
End Portfolio.

Arguments PThread : clear implicits.
Arguments Portfolio : clear implicits.

(** ** What the portfolio guarantees *)

Section PortfolioSpec.
Context {M : Type} (solves : nat → bool → State → M → Prop).

(** What every strategy promises about an answer. *)
Context (promise : State → M → Prop) (Hpromise : ∀ i b r m, solves i b r m → promise r m).

(** Only an interrupted strategy gives up. *)
Context (Hsure : ∀ i m, ¬ solves i false UNKNOWN m).

#[local] Abbreviation pstep := (pstep solves).

(** The thread whose answer was taken. *)
Definition winning (t : PThread M) : bool :=
  match t with TModel _ | TInterrupt => true | _ => false end.

Record PInv (p : Portfolio M) : Prop := {
  pi_exchange i r m : p_threads p !! i = Some (TExchange r m) →
    promise r m ∧ (r = UNKNOWN → result p ≠ UNKNOWN);
  pi_model i m : p_threads p !! i = Some (TModel m) → promise (result p) m ∧ result p ≠ UNKNOWN;
  pi_taken i : p_threads p !! i = Some TInterrupt →
    result p ≠ UNKNOWN ∧ ∃ m, p_model p = Some m ∧ promise (result p) m;
  pi_one i j t u : p_threads p !! i = Some t → p_threads p !! j = Some u → winning t = true →
    winning u = true → i = j;
  pi_open : result p = UNKNOWN → p_interrupted p = false ∧ p_model p = None;
  pi_done : result p ≠ UNKNOWN →
    (∃ i m, p_threads p !! i = Some (TModel m)) ∨
    (∃ m, p_model p = Some m ∧ promise (result p) m);
  pi_alive : result p = UNKNOWN → Forall (λ t, t ≠ TEnd) (p_threads p) }.

Lemma new_portfolio_inv n : PInv (new_portfolio n).
Proof.
  assert (∀ i t, p_threads (new_portfolio (M := M) n) !! i = Some t → t = TSolve) as H.
  { intros i t. cbn. by intros [-> _]%lookup_replicate. }
  split; try (intros i m Hi; by apply H in Hi); try done.
  - intros i r m Hi. by apply H in Hi.
  - intros i Hi. by apply H in Hi.
  - intros i j t u Hi _ Ht. apply H in Hi as ->. done.
  - intros _. cbn. by apply Forall_replicate.
Qed.

Lemma lookup_set (p : Portfolio M) i t j u : p_threads (p_set p i t) !! j = Some u →
  (i = j ∧ u = t) ∨ (i ≠ j ∧ p_threads p !! j = Some u).
Proof. cbn. intros [(-> & -> & _) | [? ?]]%list_lookup_insert_Some; auto. Qed.

(** While the answer is open nobody has won. *)
Lemma open_no_winner p i t : PInv p → result p = UNKNOWN → p_threads p !! i = Some t → winning t = false.
Proof.
  intros HI Hr Hi. destruct t; try done; exfalso.
  - by destruct (pi_model p HI i m Hi).
  - by destruct (pi_taken p HI i Hi).
Qed.

Lemma pstep_inv p p' : PInv p → pstep p p' → PInv p'.
Proof using Hpromise Hsure.
  intros HI Hstep. pose proof HI as [I1 I2 I3 I4 I5 I6 I7]. destruct Hstep as
    [i r m Hi Hs | i r m p' Hi He | i r m p' Hi He | i m Hi | i Hi].
  - assert (∀ j u, p_threads (p_set p i (TExchange r m)) !! j = Some u →
      (u = TExchange r m) ∨ p_threads p !! j = Some u) as Hl.
    { intros j u [[_ ->] | [_ ?]]%lookup_set; auto. }
    split; cbn [result p_model p_interrupted p_set]; try done.
    + intros j r' m' [[= -> ->] | Hj]%Hl; [| by eapply I1]. split; [by eapply Hpromise |].
      intros -> Hr. destruct (I5 Hr) as [Hint _]. rewrite Hint in Hs. by destruct (Hsure i m).
    + intros j m' [? | Hj]%Hl; [done | by eapply I2].
    + intros j [? | Hj]%Hl; [done | by eapply I3].
    + intros j k t u [-> | Hj]%Hl [-> | Hk]%Hl; try done. by eapply I4.
    + intros Hr. destruct (I6 Hr) as [(j & m' & Hj) | H]; [left | by right]. exists j, m'. cbn.
      rewrite list_lookup_insert_ne; [done |]. intros ->. congruence.
    + intros Hr. apply Forall_insert; [by apply I7 | done].
  - unfold exchange in He. case_decide as Hr; [injection He as <- | done].
    destruct (I1 i r m Hi) as [Hp Hu]. assert (r ≠ UNKNOWN) as Hne by (intros ->; by apply Hu).
    assert (∀ j u, p_threads (p_set (p <| result := r |>) i (TModel m)) !! j = Some u →
      (i = j ∧ u = TModel m) ∨ (i ≠ j ∧ p_threads p !! j = Some u)) as Hl by (intros j u; exact (lookup_set (p <| result := r |>) i _ j u)).
    split; cbn [result p_model p_interrupted p_set]; try done.
    + intros j r' m' [[_ ?] | [_ Hj]]%Hl; [done |]. split; [by eapply I1 | done].
    + intros j m' [[_ [= ->]] | [_ Hj]]%Hl; [done |]. by destruct (I2 j m' Hj).
    + intros j [[_ ?] | [_ Hj]]%Hl; [done |]. by destruct (I3 j Hj).
    + intros j k t u [[<- ->] | [_ Hj]]%Hl [[<- ->] | [_ Hk]]%Hl Ht Hu'; [done | | |].
      * by rewrite (open_no_winner p k u HI Hr Hk) in Hu'.
      * by rewrite (open_no_winner p j t HI Hr Hj) in Ht.
      * by rewrite (open_no_winner p j t HI Hr Hj) in Ht.
    + intros _. left. exists i, m. cbn. apply list_lookup_insert_eq. by eapply lookup_lt_Some.
  - unfold exchange in He. case_decide as Hr; [done | injection He as <-].
    assert (∀ j u, p_threads (p_set p i TEnd) !! j = Some u →
      (u = TEnd) ∨ p_threads p !! j = Some u) as Hl.
    { intros j u [[_ ->] | [_ ?]]%lookup_set; auto. }
    split; cbn [result p_model p_interrupted p_set]; try done.
    + intros j r' m' [? | Hj]%Hl; [done | by eapply I1].
    + intros j m' [? | Hj]%Hl; [done | by eapply I2].
    + intros j [? | Hj]%Hl; [done | by eapply I3].
    + intros j k t u [-> | Hj]%Hl [-> | Hk]%Hl; try done. by eapply I4.
    + intros _. destruct (I6 Hr) as [(j & m' & Hj) | H]; [left | by right]. exists j, m'. cbn.
      rewrite list_lookup_insert_ne; [done |]. intros ->. congruence.
  - destruct (I2 i m Hi) as [Hp Hr].
    assert (∀ j u, p_threads (p_set p i TInterrupt) !! j = Some u →
      (i = j ∧ u = TInterrupt) ∨ (i ≠ j ∧ p_threads p !! j = Some u)) as Hl by (intros j u; apply lookup_set).
    split; cbn; try done.
    + intros j r' m' [[_ ?] | [_ Hj]]%Hl; [done | by eapply I1].
    + intros j m' [[_ ?] | [Hne Hj]]%Hl; [done |]. by eapply I2.
    + intros j _. split; [done |]. by exists m.
    + intros j k t u [[<- ->] | [Hj' Hj]]%Hl [[<- ->] | [Hk' Hk]]%Hl; try done; intros Ht Hu.
      * by eapply (I4 i k (TModel m)).
      * by eapply (I4 j i t (TModel m)).
      * by eapply I4.
    + intros _. right. by exists m.
  - destruct (I3 i Hi) as [Hr (m & Hm & Hp)].
    assert (∀ j u, p_threads (p_set p i TEnd) !! j = Some u →
      (u = TEnd) ∨ p_threads p !! j = Some u) as Hl.
    { intros j u [[_ ->] | [_ ?]]%lookup_set; auto. }
    split; cbn; try done.
    + intros j r' m' [? | Hj]%Hl; [done | by eapply I1].
    + intros j m' [? | Hj]%Hl; [done | by eapply I2].
    + intros j [? | Hj]%Hl; [done | by eapply I3].
    + intros j k t u [-> | Hj]%Hl [-> | Hk]%Hl; try done. by eapply I4.
    + intros _. right. by exists m.
Qed.

Lemma reachable_pinv p p' : PInv p → rtc pstep p p' → PInv p'.
Proof using Hpromise Hsure.
  intros HI Hr. induction Hr as [| p1 p2 p3 H _ IH]; [done |]. by eapply IH, pstep_inv.
Qed.
End PortfolioSpec.

(** C29. If only interrupted strategies give up, a portfolio of at least one
    strategy that is not interrupted from outside returns, under every
    interleaving of its threads, SAT or UNSAT, with the promise some strategy
    made about this answer and this model. *)
Theorem portfolio_correct {M} (solves : nat → bool → State → M → Prop) (promise : State → M → Prop) n p :
  (∀ i b r m, solves i b r m → promise r m) → (∀ i m, ¬ solves i false UNKNOWN m) → (0 < n)%nat →
  rtc (pstep solves) (new_portfolio n) p → joined p →
  result p ≠ UNKNOWN ∧ ∃ m, p_model p = Some m ∧ promise (result p) m.
Proof.
  intros Hp Hs Hn Hr Hj.
  pose proof (reachable_pinv solves promise Hp Hs _ p (new_portfolio_inv promise n) Hr) as HI.
  assert (length (p_threads p) = n) as Hl.
  { transitivity (length (p_threads (new_portfolio (M := M) n))); [| apply length_replicate].
    clear -Hr. induction Hr as [| p1 p2 p3 H _ IH]; [done |]. rewrite IH.
    destruct H as [i r m Hi Hs | i r m p' Hi He | i r m p' Hi He | i m Hi | i Hi]; try apply length_insert;
      unfold exchange in He; case_decide; simplify_eq; apply length_insert. }
  assert (result p ≠ UNKNOWN) as Hne.
  { intros Hu. pose proof (pi_alive promise p HI Hu) as Ha. unfold joined in Hj.
    destruct (p_threads p) as [| t ts]; [simpl in Hl; lia |].
    apply Forall_cons in Ha as [Ha _]. apply Forall_cons in Hj as [Hj _]. done. }
  split; [done |]. destruct (pi_done promise p HI Hne) as [(i & m & Hi) | H]; [| done].
  pose proof (Forall_lookup_1 _ _ _ _ Hj Hi). done.
Qed.

(** A strategy that gives up on its own can spoil the portfolio: its
    UNKNOWN passes the exchange too, and its model may be assigned after that of
    a strategy that answered SAT. *)
Theorem portfolio_model_overwritten {M} (solves : nat → bool → State → M → Prop) (m0 m1 : M) :
  solves 0%nat false SAT m0 → solves 1%nat false UNKNOWN m1 →
  ∃ p, rtc (pstep solves) (new_portfolio 2) p ∧ joined p ∧ result p = SAT ∧ p_model p = Some m1.
Proof.
  intros H0 H1. eexists. split.
  - eapply rtc_l; [apply (p_solve _ _ 0%nat SAT m0); done |].
    eapply rtc_l; [apply (p_solve _ _ 1%nat UNKNOWN m1); done |].
    eapply rtc_l; [apply (p_won _ _ 1%nat UNKNOWN m1); done |].
    eapply rtc_l; [apply (p_won _ _ 0%nat SAT m0); done |].
    eapply rtc_l; [apply (p_assign _ _ 0%nat m0); done |].
    eapply rtc_l; [apply (p_assign _ _ 1%nat m1); done |].
    eapply rtc_l; [apply (p_stop _ _ 0%nat); done |].
    eapply rtc_l; [apply (p_stop _ _ 1%nat); done |]. apply rtc_refl.
  - split; [| done]. repeat constructor.
Qed.
