(* ===== verification/Sharing.v ===== *)
(** * Clause sharing

    [core/sat/sharing]: who gives its clauses to whom, and the blocks that
    [PainlessSolver] makes of its solvers.  A solver is a number, in the order
    of creation; a sharer is the list of its producers and that of its
    consumers.  What a sharer does with the clauses is outside. *)
From S2P Require Import Prelude.

(** Some solvers and, in a full block, the reducer. *)
Definition SolverBlock : Type := list nat * option nat.

Inductive SharingUnit :=
  | Solvers (sl : list nat)
  | Blocks (sbl : list SolverBlock).

Definition Sharer : Type := list nat * list nat.

(** [concat(a, b)]; [None] is the failed check. *)
Definition concat (a b : SharingUnit) : option SharingUnit :=
  match a, b with
  | Solvers sl, Solvers bsl => Some (Solvers (sl ++ bsl))
  | Blocks sbl, Blocks bsbl => Some (Blocks (sbl ++ bsbl))
  | _, _ => None
  end.

(** The solvers of a block, the reducer last. *)
Definition block_solvers (b : SolverBlock) : list nat := b.1 ++ option_list b.2.

Definition get_all_solvers (su : SharingUnit) : list nat :=
  match su with Solvers sl => sl | Blocks sbl => sbl ≫= block_solvers end.

Definition add_sharer (sharers : list Sharer) (prod cons : list nat) : list Sharer :=
  match prod, cons with
  | [], _ | _, [] => sharers
  | _, _ => sharers ++ [(prod, cons)]
  end.

Definition share_list (sharers : list Sharer) (sl : list nat) : list Sharer := add_sharer sharers sl sl.

(** The loop over the blocks: the reducer is a producer and, for its own block
    only, a consumer. *)
Definition share_blocks (sharers : list Sharer) (su : list SolverBlock) : list Sharer :=
  let consumers := su ≫= fst in
  foldl (λ sharers u, add_sharer sharers (u.1 ++ option_list u.2) (consumers ++ option_list u.2)) sharers su.

Definition share (sharers : list Sharer) (u : SharingUnit) : list Sharer :=
  match u with Solvers sl => share_list sharers sl | Blocks su => share_blocks sharers su end.

Inductive SharingDir := RIGHT | LEFT | BIDIR.

Definition share_right (sharers : list Sharer) (su1 su2 : SharingUnit) : list Sharer :=
  add_sharer sharers (get_all_solvers su1) (get_all_solvers su2).

Definition share_units (sharers : list Sharer) (su1 su2 : SharingUnit) (dir : SharingDir) : list Sharer :=
  let sharers := match dir with RIGHT | BIDIR => share_right sharers su1 su2 | LEFT => sharers end in
  match dir with LEFT | BIDIR => share_right sharers su2 su1 | RIGHT => sharers end.

(** ** The blocks of [PainlessSolver] *)

(** A block of [size] solvers, the first of them [solvers]. *)
Definition make_block (size solvers : Z) : SolverBlock :=
  if 1 <? size then (seq (Z.to_nat solvers) (Z.to_nat (size - 1)), Some (Z.to_nat (solvers + size - 1)))
  else ([Z.to_nat solvers], None).

Fixpoint make_blocks (n : nat) (cpus block_size solvers : Z) : list SolverBlock :=
  match n with
  | O => []
  | S n =>
      let cur_block_size := Z.min (cpus - solvers) block_size in
      let created := if 1 <? cur_block_size then cur_block_size else 1 in
      make_block cur_block_size solvers :: make_blocks n cpus block_size (solvers + created)
  end.

Definition painless_blocks (cpus block_size : Z) : list SolverBlock :=
  let block_left := Z.rem cpus block_size in
  let n_blocks := Z.quot cpus block_size + Z.b2z (0 <? block_left) in
  make_blocks (Z.to_nat n_blocks) cpus block_size 0.

(** ** Who learns from whom *)

Definition reaches (sharers : list Sharer) (x y : nat) : Prop := ∃ p c, (p, c) ∈ sharers ∧ x ∈ p ∧ y ∈ c.

Lemma reaches_add sharers p c x y : reaches (add_sharer sharers p c) x y ↔ reaches sharers x y ∨ (x ∈ p ∧ y ∈ c).
Proof.
  unfold add_sharer. destruct p as [| p0 p]; [split; [by left | intros [? | [H _]]; [done | by apply elem_of_nil in H]] |].
  destruct c as [| c0 c]; [split; [by left | intros [? | [_ H]]; [done | by apply elem_of_nil in H]] |].
  unfold reaches. setoid_rewrite elem_of_app. setoid_rewrite list_elem_of_singleton. split.
  - intros (p' & c' & [Hin | [= -> ->]] & Hx & Hy); [left; by exists p', c' | by right].
  - intros [(p' & c' & Hin & Hx & Hy) | [Hx Hy]]; [exists p', c'; auto | by exists (p0 :: p), (c0 :: c); auto].
Qed.

Lemma reaches_blocks su x y : reaches (share_blocks [] su) x y ↔
  ∃ b, b ∈ su ∧ x ∈ block_solvers b ∧ ((∃ b', b' ∈ su ∧ y ∈ b'.1) ∨ b.2 = Some y).
Proof.
  unfold share_blocks. set (consumers := su ≫= fst).
  assert (y ∈ consumers ↔ ∃ b', b' ∈ su ∧ y ∈ b'.1) as Hc.
  { unfold consumers. rewrite list_elem_of_bind. split; intros (b & ? & ?); by exists b. }
  setoid_rewrite <- Hc. clear Hc. clearbody consumers.
  assert (∀ sh, reaches (foldl (λ sharers u, add_sharer sharers (u.1 ++ option_list u.2) (consumers ++ option_list u.2)) sh su) x y ↔
    reaches sh x y ∨ ∃ b, b ∈ su ∧ x ∈ block_solvers b ∧ (y ∈ consumers ∨ b.2 = Some y)) as H.
  { induction su as [| b su IH]; intros sh; simpl.
    - split; [by left | intros [? | (b & Hb & _)]; [done | by apply elem_of_nil in Hb]].
    - rewrite IH, reaches_add. fold (block_solvers b).
      assert (y ∈ consumers ++ option_list b.2 ↔ y ∈ consumers ∨ b.2 = Some y) as ->.
      { rewrite elem_of_app. destruct b.2 as [r |]; simpl; [rewrite list_elem_of_singleton; intuition congruence |].
        rewrite elem_of_nil. intuition congruence. }
      setoid_rewrite elem_of_cons. split.
      + intros [[? | ?] | (b' & ? & ?)]; [by left | right; exists b; tauto | right; exists b'; tauto].
      + intros [? | (b' & [-> | ?] & ?)]; [by left; left | by left; right | right; by exists b']. }
  rewrite H. split; [intros [(p & c & Hin & _) | ?]; [by apply elem_of_nil in Hin | done] | by right].
Qed.

Lemma make_block_solvers size solvers : 0 <= solvers → 0 < size →
  block_solvers (make_block size solvers) = seq (Z.to_nat solvers) (Z.to_nat size).
Proof.
  intros H1 H2. unfold make_block, block_solvers. destruct (Z.ltb_spec 1 size); simpl.
  - replace (Z.to_nat size) with (S (Z.to_nat (size - 1))) by lia. rewrite seq_S. do 2 f_equal. lia.
  - replace (Z.to_nat size) with 1%nat by lia. done.
Qed.

Lemma make_blocks_spec n cpus bs : 0 < bs → ∀ solvers, 0 <= solvers →
  (Z.of_nat n - 1) * bs < cpus - solvers <= Z.of_nat n * bs →
  make_blocks n cpus bs solvers ≫= block_solvers = seq (Z.to_nat solvers) (Z.to_nat (cpus - solvers)) ∧
  Forall (λ b, Z.of_nat (length (block_solvers b)) <= bs) (make_blocks n cpus bs solvers).
Proof.
  intros Hbs. induction n as [| n IH]; intros solvers Hs Hn.
  { replace (Z.to_nat (cpus - solvers)) with 0%nat by lia. split; [done | apply Forall_nil_2]. }
  cbn [make_blocks]. cbv zeta. set (cur := Z.min (cpus - solvers) bs).
  destruct n as [| n].
  - assert (cur = cpus - solvers) as -> by (unfold cur; lia). cbn [make_blocks].
    rewrite bind_cons, make_block_solvers by lia. simpl. rewrite app_nil_r. split; [done |].
    apply Forall_singleton. rewrite make_block_solvers, length_seq by lia. lia.
  - assert (cur = bs) as -> by (unfold cur; lia).
    assert ((if 1 <? bs then bs else 1) = bs) as -> by (destruct (Z.ltb_spec 1 bs); lia).
    destruct (IH (solvers + bs)) as [E F]; [lia | lia |].
    rewrite bind_cons, make_block_solvers by lia. rewrite E. split.
    + replace (Z.to_nat (solvers + bs)) with (Z.to_nat solvers + Z.to_nat bs)%nat by lia.
      rewrite <- seq_app. f_equal. lia.
    + apply Forall_cons. split; [rewrite make_block_solvers, length_seq by lia; lia | exact F].
Qed.

(** C38. [PainlessSolver] creates exactly as many solvers as it may use threads,
    in blocks of at most the given size, each solver in one block; with sharing
    on, a solver that is not a reducer receives the clauses of every solver,
    and a reducer those of its own block and of no other. *)
Theorem painless_sharing cpus block_size : 0 < cpus → 0 < block_size →
  let bs := painless_blocks cpus block_size in
  get_all_solvers (Blocks bs) = seq 0 (Z.to_nat cpus) ∧
  Forall (λ b, Z.of_nat (length (block_solvers b)) <= block_size) bs ∧
  ∀ x y, reaches (share [] (Blocks bs)) x y ↔
    ∃ b, b ∈ bs ∧ x ∈ block_solvers b ∧ ((∃ b', b' ∈ bs ∧ y ∈ b'.1) ∨ b.2 = Some y).
Proof.
  intros Hc Hb. cbv zeta. assert (make_blocks (Z.to_nat (Z.quot cpus block_size + Z.b2z (0 <? Z.rem cpus block_size)))
    cpus block_size 0 = painless_blocks cpus block_size) as E by done.
  destruct (make_blocks_spec (Z.to_nat (Z.quot cpus block_size + Z.b2z (0 <? Z.rem cpus block_size))) cpus block_size
    Hb 0 ltac:(lia)) as [H1 H2].
  { rewrite Z.quot_div_nonneg, Z.rem_mod_nonneg by lia.
    pose proof (Z.div_mod cpus block_size ltac:(lia)) as Hd. pose proof (Z.mod_pos_bound cpus block_size Hb) as Hm.
    pose proof (Z.div_pos cpus block_size ltac:(lia) Hb) as Hq.
    rewrite Z2Nat.id by (destruct (Z.ltb_spec 0 (cpus mod block_size)); simpl; lia).
    destruct (Z.ltb_spec 0 (cpus mod block_size)); simpl; nia. }
  rewrite E in *. rewrite Z.sub_0_r in H1. split; [exact H1 |]. split; [exact H2 |]. intros x y. apply reaches_blocks.
Qed.

(** Five threads in blocks of two: (0, reducer 1), (2, reducer 3), (4). *)
Lemma painless_sharing_witness :
  painless_blocks 5 2 = [([0%nat], Some 1%nat); ([2%nat], Some 3%nat); ([4%nat], None)] ∧
  get_all_solvers (Blocks (painless_blocks 5 2)) = seq 0 (Z.to_nat 5).
Proof.
  split; [reflexivity |]. destruct (painless_sharing 5 2) as [E _]; [lia | lia | exact E].
Defined.
