(* ===== verification/Service.v ===== *)
(** * The solver service and its timer

    [core/sat/solver/service/SequentialSolverService], [util/Timer]: threads,
    each with a solver of its own, take tasks from a queue; a task with a time
    limit adds an event to the timer, whose thread interrupts the solver when
    the time has come.  A state is a snapshot between two actions of the worker
    threads, the timer thread and the callers.  The flag of a solver that
    interrupts set and [solve] clears remembers who set it, for the theorems.
    The solvers are a parameter; the wait on the condition variable is a thread
    that takes a task when there is one; the destructor is left out. *)
From stdpp Require Import relations sorting.
From S2P Require Import Prelude Lit.

(** ** State *)

(** A task: its number, the assumption and the limit, [None] for [DUR_INDEF]. *)
Record SolveTask := MkSolveTask { t_id : nat; t_assumption : list Lit; t_limit : option Z }.

(** Who set the flag: [interrupt()], or the timer for a task. *)
Inductive Cause := ByCall | ByTimer (task : nat).

(** Where a worker thread is: before the queue; with a task; with its event in
    the timer; in [solve]; behind it; behind the abort of the event.  [armed]:
    the task has an event. *)
Inductive WorkerPhase :=
  | Waiting
  | Taken (t : SolveTask)
  | Armed (t : SolveTask)
  | Solving (t : SolveTask) (armed : bool)
  | Solved (t : SolveTask) (armed : bool) (r : State) (c : option Cause)
  | Telling (t : SolveTask) (r : State) (c : option Cause).

(** [TimerEvent]: the callback interrupts the solver of [e_worker]; the handle
    is that of the task. *)
Record TimerEvent := MkEvent { e_when : Z; e_worker : nat; e_task : nat }.

(** What a callback was told. *)
Record Told (M : Type) := MkTold { d_task : SolveTask; d_result : State; d_model : option M; d_cause : option Cause }.

Arguments MkTold {M}.
Arguments d_task {M}.
Arguments d_result {M}.
Arguments d_model {M}.
Arguments d_cause {M}.

Section Service.
Context {S M : Type}.

Record Worker := MkWorker { w_solver : S; w_flag : option Cause; w_phase : WorkerPhase }.

#[export] Instance Worker_settable : Settable Worker := λ w,
  MkWorker (w_solver w) (w_flag w) (w_phase w).

Record Service := MkService {
  workers : list Worker;
  task_queue : list SolveTask;
  events : list TimerEvent;
  firing : option TimerEvent;
  aborted : gset nat;
  now : Z;
  told : list (Told M);
  dropped : list nat;
  next_id : nat;
  called : bool;
  flagging : list nat }.

#[export] Instance Service_settable : Settable Service := λ s,
  MkService (workers s) (task_queue s) (events s) (firing s) (aborted s) (now s) (told s) (dropped s)
    (next_id s) (called s) (flagging s).

Definition new_service (solvers : list S) : Service :=
  MkService ((λ x, MkWorker x None Waiting) <$> solvers) [] [] None ∅ 0 [] [] 0 false [].

(** [_events.insert]: a set ordered by the time alone, so that an event for a
    time that is there already is not inserted. *)
Fixpoint insert_event (e : TimerEvent) (es : list TimerEvent) : list TimerEvent :=
  match es with
  | [] => [e]
  | x :: es' => if e_when e <? e_when x then e :: es
                else if e_when x <? e_when e then x :: insert_event e es' else es
  end.

(** [Timer::add]; the handle is the number of the task. *)
Definition timer_add (s : Service) (i : nat) (t : SolveTask) (dur : Z) : Service :=
  s <| events := insert_event (MkEvent (now s + dur) i (t_id t)) (events s) |>.

Definition set_worker (s : Service) (i : nat) (w : Worker) : Service :=
  s <| workers := <[i := w]> (workers s) |>.

(** Setting the flag of the solver [i]. *)
Definition flag_worker (s : Service) (i : nat) (c : Cause) : Service :=
  s <| workers := alter (λ w, w <| w_flag := Some c |>) i (workers s) |>.

(** [run flagged x a x' r]: [solve] on the solver [x], with the flag set by the
    end of it or not, leaves [x'] and returns [r]. *)
Context (run : bool → S → list Lit → S → State → Prop) (get_model : S → M).

Definition is_set (c : option Cause) : bool := match c with Some _ => true | None => false end.

(** ** The threads *)

Inductive worker_step (s : Service) (i : nat) (w : Worker) : Service → Prop :=
  (* _task_queue.front(), pop *)
  | work_take t q : w_phase w = Waiting → task_queue s = t :: q →
      worker_step s i w (set_worker (s <| task_queue := q |>) i (w <| w_phase := Taken t |>))
  (* without a limit: clear_interrupt and solve *)
  | work_start t : w_phase w = Taken t → t_limit t = None →
      worker_step s i w (set_worker s i (w <| w_phase := Solving t false |> <| w_flag := None |>))
  (* Timer::launch: the mutex of the timer is held while a callback runs *)
  | work_add t d : w_phase w = Taken t → t_limit t = Some d → firing s = None →
      worker_step s i w (set_worker (timer_add s i t d) i (w <| w_phase := Armed t |>))
  | work_clear t : w_phase w = Armed t →
      worker_step s i w (set_worker s i (w <| w_phase := Solving t true |> <| w_flag := None |>))
  | work_solved t armed x r : w_phase w = Solving t armed → run (is_set (w_flag w)) (w_solver w) (t_assumption t) x r →
      worker_step s i w (set_worker s i (w <| w_solver := x |> <| w_phase := Solved t armed r (w_flag w) |>))
  (* handle->abort() *)
  | work_abort t armed r c : w_phase w = Solved t armed r c →
      worker_step s i w (set_worker (if armed : bool then s <| aborted := {[t_id t]} ∪ aborted s |> else s) i
                    (w <| w_phase := Telling t r c |>))
  (* the callback and the future *)
  | work_tell t r c : w_phase w = Telling t r c →
      worker_step s i w (set_worker (s <| told := told s ++ [MkTold t r (match r with SAT => Some (get_model (w_solver w)) | _ => None end) c] |>) i
                    (w <| w_phase := Waiting |>)).

Inductive timer_step (s : Service) : Service → Prop :=
  (* !it->handle->aborted *)
  | timer_check e es : firing s = None → events s = e :: es → e_when e <= now s → e_task e ∉ aborted s →
      timer_step s (s <| firing := Some e |>)
  | timer_skip e es : firing s = None → events s = e :: es → e_when e <= now s → e_task e ∈ aborted s →
      timer_step s (s <| events := es |>)
  (* it->callback(), erase *)
  | timer_fire e es : firing s = Some e → events s = e :: es →
      timer_step s (flag_worker (s <| firing := None |> <| events := es |>) (e_worker e) (ByTimer (e_task e))).

Inductive service_step (s : Service) : Service → Prop :=
  | step_work i w s' : workers s !! i = Some w → worker_step s i w s' → service_step s s'
  | step_timer s' : timer_step s s' → service_step s s'
  (* one round of the loop of interrupt() over the solvers *)
  | step_flag pre i post : flagging s = pre ++ i :: post →
      service_step s (flag_worker (s <| flagging := pre ++ post |>) i ByCall).

(** ** The callers, and time *)

Inductive call (s : Service) : Service → Prop :=
  | call_solve a lim :
      call s (s <| task_queue := task_queue s ++ [MkSolveTask (next_id s) a lim] |> <| next_id := Datatypes.S (next_id s) |>)
  (* the queue is emptied, which breaks the promises of its tasks *)
  | call_interrupt :
      call s (s <| task_queue := [] |> <| dropped := dropped s ++ (t_id <$> task_queue s) |>
                <| called := true |> <| flagging := flagging s ++ seq 0 (length (workers s)) |>)
  | call_clear i :
      call s (s <| workers := alter (λ w, w <| w_flag := None |>) i (workers s) |>)
  | call_tick n : now s <= n → call s (s <| now := n |>).

Definition srv_step (s s' : Service) : Prop := service_step s s' ∨ call s s'.

Definition reachable (solvers : list S) (s : Service) : Prop := rtc srv_step (new_service solvers) s.
End Service.

Arguments Worker : clear implicits.
Arguments Service : clear implicits.
