(* ===== verification/ServiceSpec.v ===== *)
(** * What the service promises

    Every task is answered once or dropped by an interrupt, the answers are
    those of the solvers, and a limited task gives up only for its own event.
    An unlimited one can also be hit by the event of an earlier task. *)
From stdpp Require Import relations sorting.
From S2P Require Import Prelude Lit UnitProp Propagate RBSearch Solve SolveSpec Service.

(** ** Workers *)

Definition phase_task (ph : WorkerPhase) : option SolveTask :=
  match ph with
  | Waiting => None
  | Taken t | Armed t | Solving t _ | Solved t _ _ _ | Telling t _ _ => Some t
  end.

(** The task whose event is in the timer, not yet aborted. *)
Definition armed_task (ph : WorkerPhase) : option SolveTask :=
  match ph with Armed t | Solving t true | Solved t true _ _ => Some t | _ => None end.

Section Spec.
Context {S M : Type} (run : bool → S → list Lit → S → State → Prop) (get_model : S → M).
Context (F : formula) (tr : list Lit) (val : M → Z → bool) (good : S → Prop).

Definition unsat_under (a : list Lit) : Prop := ¬ satisfiable F (lit_on (tr ++ a)).

Definition model_under (m : M) : Prop := models (val m) F ∧ models_lits (val m) (lit_on tr).

(** A solver that stands for the problem [F] with the literals [tr]: it answers
    right, and gives up only when flagged. *)
Class LawfulRun := {
  run_right f x a x' r : good x → run f x a x' r → good x' ∧
    match r with UNSAT => unsat_under a | SAT => model_under (get_model x') | UNKNOWN => f = true end;
  run_total f x a : good x → ∃ x' r, run f x a x' r }.

Context `{!LawfulRun}.
Implicit Types (s : Service S M) (w : Worker S).

(** ** The invariant *)

Definition worker_ids (ws : list (Worker S)) : list nat := omap (λ w, t_id <$> phase_task (w_phase w)) ws.

Definition ids s : list nat :=
  (t_id <$> task_queue s) ++ worker_ids (workers s) ++ ((λ d, t_id (d_task d)) <$> told s) ++ dropped s.

(** Who may have stopped the task. *)
Definition blame s (t : SolveTask) (c : option Cause) : Prop :=
  match c with
  | None => False
  | Some ByCall => called s = true
  | Some (ByTimer j) => t_limit t ≠ None → j = t_id t
  end.

Definition result_ok s (t : SolveTask) (r : State) (c : option Cause) (right_model : Prop) : Prop :=
  match r with UNSAT => unsat_under (t_assumption t) | SAT => right_model | UNKNOWN => blame s t c end.

Definition told_ok s (d : Told M) : Prop :=
  result_ok s (d_task d) (d_result d) (d_cause d) (∃ m, d_model d = Some m ∧ model_under m).

Definition phase_ok s w : Prop :=
  match w_phase w with
  | Waiting | Taken _ => True
  | Armed t => t_limit t ≠ None
  | Solving t armed => armed = bool_decide (t_limit t ≠ None)
  | Solved t armed r c => armed = bool_decide (t_limit t ≠ None) ∧ result_ok s t r c (model_under (get_model (w_solver w)))
  | Telling t r c => result_ok s t r c (model_under (get_model (w_solver w)))
  end.

Definition flag_ok s w : Prop :=
  match w_flag w with
  | None => True
  | Some ByCall => called s = true
  | Some (ByTimer j) => ∀ t, w_phase w = Solving t true → j = t_id t
  end.

Definition worker_ok s w : Prop := good (w_solver w) ∧ phase_ok s w ∧ flag_ok s w.

Definition owns (e : TimerEvent) w : Prop := ∃ t, armed_task (w_phase w) = Some t ∧ t_id t = e_task e.

(** The worker [i] exists and has the property. *)
Definition worker_is s (i : nat) (P : Worker S → Prop) : Prop := ∃ w, workers s !! i = Some w ∧ P w.

Record SrvInv s : Prop := {
  v_ids : ids s ≡ₚ seq 0 (next_id s);
  v_workers : ∀ i w, workers s !! i = Some w → worker_ok s w;
  v_events : ∀ e, e ∈ events s → e_task e ∉ aborted s → worker_is s (e_worker e) (owns e);
  v_firing : ∀ e, firing s = Some e → (∃ es, events s = e :: es) ∧
    worker_is s (e_worker e) (λ w, owns e w ∨ armed_task (w_phase w) = None);
  v_told : ∀ d, d ∈ told s → told_ok s d;
  v_called : called s = true ∨ flagging s = [] ∧ dropped s = [] }.

(** ** Changing one worker *)

Lemma lookup_set_worker (ws : list (Worker S)) i j w0 w w' : ws !! i = Some w0 → <[i := w]> ws !! j = Some w' →
  (j = i ∧ w' = w) ∨ (j ≠ i ∧ ws !! j = Some w').
Proof.
  intros Hi. destruct (decide (i = j)) as [<- | Hne].
  - rewrite list_lookup_insert_eq by by eapply lookup_lt_Some. intros [= <-]. by left.
  - rewrite list_lookup_insert_ne by done. right. by split.
Qed.

Lemma worker_is_set s s' i j w0 w (P : Worker S → Prop) : workers s !! i = Some w0 →
  workers s' = <[i := w]> (workers s) → (P w0 → P w) → worker_is s j P → worker_is s' j P.
Proof.
  intros Hi Ew HP (w' & Hj & HPw). unfold worker_is. rewrite Ew. destruct (decide (i = j)) as [<- | Hne].
  - exists w. rewrite list_lookup_insert_eq by by eapply lookup_lt_Some. split; [done |]. apply HP. congruence.
  - exists w'. by rewrite list_lookup_insert_ne.
Qed.

Lemma worker_ids_set (ws : list (Worker S)) i w0 w : ws !! i = Some w0 → ∃ rest,
  worker_ids ws ≡ₚ option_list (t_id <$> phase_task (w_phase w0)) ++ rest ∧
  worker_ids (<[i := w]> ws) ≡ₚ option_list (t_id <$> phase_task (w_phase w)) ++ rest.
Proof.
  intros Hi. exists (worker_ids (delete i ws)). unfold worker_ids.
  assert (∀ us x, us !! i = Some x → delete i us = delete i ws →
    omap (λ w, t_id <$> phase_task (w_phase w)) us ≡ₚ
    option_list (t_id <$> phase_task (w_phase x)) ++ omap (λ w, t_id <$> phase_task (w_phase w)) (delete i ws)) as Hd.
  { intros us x Hx <-. rewrite (delete_Permutation us i x Hx) at 1. simpl. by destruct (phase_task (w_phase x)). }
  split; [by apply Hd |]. apply Hd; [apply list_lookup_insert_eq; by eapply lookup_lt_Some |].
  by rewrite !delete_take_drop, take_insert_ge, drop_insert_lt by lia.
Qed.

(** What the invariant of a worker reads of the rest of the state. *)
Lemma worker_ok_called s s' w : (called s = true → called s' = true) → worker_ok s w → worker_ok s' w.
Proof.
  intros Hc (H1 & H2 & H3). split; [done |].
  assert (∀ t r c P, result_ok s t r c P → result_ok s' t r c P) as Hr.
  { intros t r c P. unfold result_ok, blame. destruct r; auto. destruct c as [[] |]; auto. }
  unfold phase_ok, flag_ok in *. split.
  - destruct (w_phase w); try done; [destruct H2; split; eauto | eauto].
  - destruct (w_flag w) as [[] |]; auto.
Qed.

Lemma told_ok_called s s' d : (called s = true → called s' = true) → told_ok s d → told_ok s' d.
Proof. unfold told_ok, result_ok, blame. intros Hc. destruct (d_result d); auto. destruct (d_cause d) as [[] |]; auto. Qed.

(** A step of the worker [i] from [w0] to [w] that keeps timer and callers. *)
Lemma inv_set s s' i w0 w : SrvInv s → workers s !! i = Some w0 → workers s' = <[i := w]> (workers s) →
  next_id s' = next_id s → dropped s' = dropped s → called s' = called s → flagging s' = flagging s →
  (t_id <$> task_queue s) ++ option_list (t_id <$> phase_task (w_phase w0)) ++ ((λ d, t_id (d_task d)) <$> told s) ≡ₚ
  (t_id <$> task_queue s') ++ option_list (t_id <$> phase_task (w_phase w)) ++ ((λ d, t_id (d_task d)) <$> told s') →
  worker_ok s w →
  (∀ e, e ∈ events s' → e_task e ∉ aborted s' → worker_is s' (e_worker e) (owns e)) →
  (∀ e, firing s' = Some e → (∃ es, events s' = e :: es) ∧
    worker_is s' (e_worker e) (λ w, owns e w ∨ armed_task (w_phase w) = None)) →
  (∀ d, d ∈ told s' → told_ok s d) → SrvInv s'.
Proof.
  intros I Hi Ew En Ed Ec Ef Hp Hw He Hf Ht. split; [| | done | done | |].
  - rewrite En, <- (v_ids _ I). unfold ids. destruct (worker_ids_set _ _ _ w Hi) as (rest & -> & E).
    rewrite Ew, E, Ed. rewrite !(assoc_L (++)).
    transitivity ((((t_id <$> task_queue s') ++ option_list (t_id <$> phase_task (w_phase w)) ++
      ((λ d, t_id (d_task d)) <$> told s')) ++ rest) ++ dropped s); [solve_Permutation |].
    rewrite <- Hp. solve_Permutation.
  - intros j w'. rewrite Ew. intros [[-> ->] | [Hne Hj]]%(lookup_set_worker _ _ _ _ _ _ Hi);
      (apply (worker_ok_called s); [by rewrite Ec |]); [done | by eapply v_workers].
  - intros d Hd. apply (told_ok_called s); [by rewrite Ec | by apply Ht].
  - rewrite Ec, Ef, Ed. apply I.
Qed.

Lemma elem_of_insert_event e x es : e ∈ insert_event x es → e = x ∨ e ∈ es.
Proof.
  induction es as [| y es IH]; simpl; [by intros ->%list_elem_of_singleton; left |].
  case_match; [intros [-> | ?]%elem_of_cons; auto |]. case_match; [| auto].
  intros [-> | Hin]%elem_of_cons; [right; by left |]. destruct (IH Hin) as [-> | ?]; [by left | right; by right].
Qed.

(** The events after a step of a worker that keeps the timer. *)
Lemma events_kept s s' i w0 w : SrvInv s → workers s !! i = Some w0 → workers s' = <[i := w]> (workers s) →
  events s' = events s → firing s' = firing s → aborted s' = aborted s →
  armed_task (w_phase w) = armed_task (w_phase w0) →
  (∀ e, e ∈ events s' → e_task e ∉ aborted s' → worker_is s' (e_worker e) (owns e)) ∧
  (∀ e, firing s' = Some e → (∃ es, events s' = e :: es) ∧
    worker_is s' (e_worker e) (λ w, owns e w ∨ armed_task (w_phase w) = None)).
Proof.
  intros I Hi Ew Ee Ef Ea Ep. rewrite Ee, Ef, Ea. split.
  - intros e He Hn. eapply worker_is_set; [exact Hi | exact Ew | | by apply (v_events _ I)].
    unfold owns. by rewrite Ep.
  - intros e He. destruct (v_firing _ I e He) as [H1 H2]. split; [done |].
    eapply worker_is_set; [exact Hi | exact Ew | | exact H2]. unfold owns. by rewrite Ep.
Qed.

Lemma work_inv s i w s' : SrvInv s → workers s !! i = Some w → worker_step run get_model s i w s' → SrvInv s'.
Proof.
  intros I Hi Hs. pose proof (v_workers _ I _ _ Hi) as (Hg & Hph & Hfl). unfold phase_ok, flag_ok in *.
  destruct Hs as [t q Ep Eq | t Ep El | t d Ep El Efi | t Ep | t armed x r Ep Hrun | t armed r c Ep | t r c Ep].
  - (* take *)
    set (w' := w <| w_phase := Taken t |>). set (s' := set_worker _ i w').
    destruct (events_kept s s' i w w' I Hi) as [He Hf]; try done; [by rewrite Ep |].
    apply (inv_set s s' i w w'); try done; [| | apply I].
    + rewrite Ep, Eq. simpl. solve_Permutation.
    + split; [done |]. split; [done |]. unfold flag_ok. simpl. destruct (w_flag w) as [[] |]; done.
  - (* start *)
    set (w' := w <| w_phase := Solving t false |> <| w_flag := None |>). set (s' := set_worker _ i w').
    destruct (events_kept s s' i w w' I Hi) as [He Hf]; try done; [by rewrite Ep |].
    apply (inv_set s s' i w w'); try done; [| | apply I].
    + by rewrite Ep.
    + split; [done |]. split; [| done]. unfold phase_ok. simpl. by rewrite bool_decide_eq_false_2 by (intros Hx; by apply Hx).
  - (* add *)
    set (w' := w <| w_phase := Armed t |>). set (s' := set_worker _ i w').
    apply (inv_set s s' i w w'); try done; [by rewrite Ep | | | | apply I].
    + split; [done |]. split; [unfold phase_ok; simpl; congruence |].
      unfold flag_ok. simpl. destruct (w_flag w) as [[] |]; try done.
    + intros e [-> | He]%elem_of_insert_event Hn.
      * exists w'. split; [apply list_lookup_insert_eq; by eapply lookup_lt_Some |]. by exists t.
      * eapply worker_is_set; [exact Hi | done | | by apply (v_events _ I)].
        intros (u & Hu & _). by rewrite Ep in Hu.
    + intros e He. simpl in He. congruence.
  - (* clear *)
    set (w' := w <| w_phase := Solving t true |> <| w_flag := None |>). set (s' := set_worker _ i w').
    destruct (events_kept s s' i w w' I Hi) as [He Hf]; try done; [by rewrite Ep |].
    apply (inv_set s s' i w w'); try done; [by rewrite Ep | | apply I].
    split; [done |]. split; [| done]. rewrite Ep in Hph. unfold phase_ok. simpl. by rewrite bool_decide_eq_true_2.
  - (* solved *)
    destruct (run_right _ _ _ _ _ Hg Hrun) as [Hg' Hr]. rewrite Ep in Hph.
    set (w' := w <| w_solver := x |> <| w_phase := Solved t armed r (w_flag w) |>). set (s' := set_worker _ i w').
    destruct (events_kept s s' i w w' I Hi) as [He Hf]; try done; [by rewrite Ep; destruct armed |].
    apply (inv_set s s' i w w'); try done; [by rewrite Ep | | apply I].
    split; [done |]. split; [split; [done |] | unfold flag_ok; simpl; by destruct (w_flag w) as [[] |]].
    unfold result_ok. destruct r; [done | done |]. unfold blame. destruct (w_flag w) as [[| j] |]; [done | | done].
    intros Hl. rewrite bool_decide_eq_true_2 in Hph by done. subst armed. by apply Hfl.
  - (* abort *)
    rewrite Ep in Hph. destruct Hph as [Ha Hr]. set (w' := w <| w_phase := Telling t r c |>).
    set (s' := set_worker _ i w').
    assert (worker_ok s w') as Hw'.
    { split; [done |]. split; [done |]. unfold flag_ok. simpl. destruct (w_flag w) as [[] |]; done. }
    destruct armed.
    2:{ destruct (events_kept s s' i w w' I Hi) as [He Hf]; try done; [by rewrite Ep |].
        apply (inv_set s s' i w w'); try done; [by rewrite Ep | apply I]. }
    apply (inv_set s s' i w w'); try done; [by rewrite Ep | | | apply I].
    + intros e He Hn. change (aborted s') with ({[t_id t]} ∪ aborted s) in Hn. change (events s') with (events s) in He.
      apply not_elem_of_union in Hn as [Hne Hn]. eapply worker_is_set; [exact Hi | done | | by apply (v_events _ I)].
      intros (u & Hu & Eu). rewrite Ep in Hu. injection Hu as <-. destruct Hne. by apply elem_of_singleton.
    + intros e He. destruct (v_firing _ I e He) as [H1 H2]. split; [done |].
      eapply worker_is_set; [exact Hi | done | | exact H2]. intros _. by right.
  - (* tell *)
    rewrite Ep in Hph. set (w' := w <| w_phase := Waiting |>). set (s' := set_worker _ i w').
    destruct (events_kept s s' i w w' I Hi) as [He Hf]; try done; [by rewrite Ep |].
    apply (inv_set s s' i w w'); try done.
    + rewrite Ep. simpl. rewrite fmap_app. simpl. solve_Permutation.
    + split; [done |]. split; [done |]. unfold flag_ok. simpl. destruct (w_flag w) as [[] |]; done.
    + intros d [Hd | ->%list_elem_of_singleton]%elem_of_app; [by apply (v_told _ I) |].
      unfold told_ok. simpl. unfold result_ok in *. destruct r; [| done | done]. eauto.
Qed.

(** ** Changing a flag *)

Definition with_flag (c : option Cause) w : Worker S := w <| w_flag := c |>.

Lemma lookup_flag (ws : list (Worker S)) c i j w' : alter (with_flag c) i ws !! j = Some w' →
  (j = i ∧ ∃ w, ws !! i = Some w ∧ w' = with_flag c w) ∨ (j ≠ i ∧ ws !! j = Some w').
Proof.
  destruct (decide (j = i)) as [-> | Hne].
  - rewrite list_lookup_alter_eq. intros (w & Hw & ->)%fmap_Some. left. eauto.
  - rewrite list_lookup_alter_ne by done. by right.
Qed.

Lemma worker_ids_flag (ws : list (Worker S)) c i : worker_ids (alter (with_flag c) i ws) = worker_ids ws.
Proof.
  revert i. induction ws as [| w ws IH]; intros [| i]; [done | done | done |]. unfold worker_ids in *. simpl.
  change (list_alter (with_flag c) i ws) with (alter (with_flag c) i ws). by rewrite IH.
Qed.

Lemma worker_is_flag s s' c i j (P : Worker S → Prop) : workers s' = alter (with_flag c) i (workers s) →
  (∀ w, P w → P (with_flag c w)) → worker_is s j P → worker_is s' j P.
Proof.
  intros Ew HP (w & Hw & Hp). unfold worker_is. rewrite Ew. destruct (decide (i = j)) as [<- | Hne].
  - exists (with_flag c w). rewrite list_lookup_alter_eq, Hw. auto.
  - exists w. by rewrite list_lookup_alter_ne.
Qed.

Lemma inv_flag s s' c i : SrvInv s → workers s' = alter (with_flag c) i (workers s) →
  task_queue s' = task_queue s → told s' = told s → next_id s' = next_id s → dropped s' = dropped s →
  called s' = called s → aborted s' = aborted s → (called s = true ∨ flagging s' = []) →
  (∀ w, workers s !! i = Some w → flag_ok s (with_flag c w)) →
  (∀ e, e ∈ events s' → e ∈ events s) →
  (∀ e, firing s' = Some e → firing s = Some e ∧ events s' = events s) → SrvInv s'.
Proof.
  intros I Ew Eq Et En Ed Ec Ea Ef Hfl He Hfi. split.
  - unfold ids. rewrite Ew, Eq, Et, En, Ed, worker_ids_flag. apply I.
  - intros j w'. rewrite Ew. intros [(-> & w & Hw & ->) | [_ Hw]]%lookup_flag.
    + destruct (v_workers _ I _ _ Hw) as (H1 & H2 & _). apply (worker_ok_called s); [by rewrite Ec |].
      split; [done |]. split; [exact H2 | by apply Hfl].
    + apply (worker_ok_called s); [by rewrite Ec | by apply (v_workers _ I j)].
  - intros e Hin Hn. rewrite Ea in Hn. eapply worker_is_flag; [exact Ew | | apply (v_events _ I); auto].
    intros w Ho. exact Ho.
  - intros e Hin. destruct (Hfi e Hin) as [H1 H2]. destruct (v_firing _ I e H1) as [H3 H4]. rewrite H2. split; [done |].
    eapply worker_is_flag; [exact Ew | | exact H4]. intros w Ho. exact Ho.
  - intros d. rewrite Et. intros Hd. apply (told_ok_called s); [by rewrite Ec | by apply (v_told _ I)].
  - rewrite Ec, Ed. destruct (v_called _ I) as [? | [? ?]]; [by left |]. destruct Ef as [? | ?]; auto.
Qed.

Lemma timer_inv s s' : SrvInv s → timer_step s s' → SrvInv s'.
Proof.
  intros I Ht. destruct Ht as [e es Ef Ee Hw Hn | e es Ef Ee Hw Hn | e es Ef Ee].
  - destruct I as [I1 I2 I3 I4 I5 I6]. split; try done. intros x [= <-]. split; [by exists es |].
    destruct (I3 e) as (w & Hw' & Ho); [rewrite Ee; by left | done |]. exists w. split; [done | by left].
  - destruct I as [I1 I2 I3 I4 I5 I6]. split; try done.
    + intros x Hx Hnx. apply I3; [rewrite Ee; by right | done].
    + intros x Hx. simpl in Hx. congruence.
  - apply (inv_flag s _ (Some (ByTimer (e_task e))) (e_worker e)); try done.
    + destruct (v_called _ I) as [? | [? _]]; auto.
    + intros w Hw t Hp. change (w_phase w = Solving t true) in Hp.
      destruct (v_firing _ I e Ef) as (_ & w' & Hw' & Ho). assert (w' = w) as -> by congruence.
      destruct Ho as [(u & Hu & Eu) | Hno]; rewrite Hp in *; [by injection Hu as <- | done].
    + intros x Hx. rewrite Ee. by right.
Qed.

Lemma step_inv s s' : SrvInv s → service_step run get_model s s' → SrvInv s'.
Proof.
  intros I [i w x Hw Hs | x Hs | pre i post Ef].
  - by eapply work_inv.
  - by eapply timer_inv.
  - destruct (v_called _ I) as [Hc | [Hf _]]; [| rewrite Ef in Hf; by destruct pre].
    apply (inv_flag s _ (Some ByCall) i); try done; auto.
Qed.

Lemma call_inv s s' : SrvInv s → call s s' → SrvInv s'.
Proof.
  intros I Hc. destruct Hc as [a lim | | i | n Hn].
  - destruct I as [I1 I2 I3 I4 I5 I6]. split; try done.
    match goal with |- _ ≡ₚ seq 0 ?n => change n with (Datatypes.S (next_id s)) end.
    rewrite seq_S, <- I1. unfold ids. simpl. rewrite fmap_app. simpl. solve_Permutation.
  - pose proof I as [I1 I2 I3 I4 I5 I6]. split; simpl; try done.
    + rewrite <- I1. unfold ids. simpl. solve_Permutation.
    + intros i w Hw. apply (worker_ok_called s); [done | by apply (I2 i)].
    + intros d Hd. apply (told_ok_called s); [done | by apply I5].
    + by left.
  - apply (inv_flag s _ None i); try done. destruct (v_called _ I) as [? | [? _]]; auto.
  - destruct I as [I1 I2 I3 I4 I5 I6]. by split.
Qed.

Lemma inv_start (solvers : list S) : (∀ x, x ∈ solvers → good x) → SrvInv (new_service solvers).
Proof.
  intros Hg. split; simpl.
  - unfold ids. simpl. rewrite app_nil_r. induction solvers as [| x l IH]; [done |]. simpl. apply IH.
    intros y Hy. apply Hg. by right.
  - intros i w Hw. rewrite list_lookup_fmap in Hw. apply fmap_Some in Hw as (x & Hx & ->).
    split; [by eapply Hg, list_elem_of_lookup_2 | done].
  - intros e He. by apply elem_of_nil in He.
  - done.
  - intros d Hd. by apply elem_of_nil in Hd.
  - by right.
Qed.

Lemma reachable_srv_inv (solvers : list S) s : (∀ x, x ∈ solvers → good x) → reachable run get_model solvers s → SrvInv s.
Proof.
  intros Hg Hr. unfold reachable in Hr. assert (SrvInv (new_service (M := M) solvers)) as I by by apply inv_start.
  revert I. induction Hr as [| s1 s2 s3 [Hs | Hs] _ IH]; [done | |]; intros I; apply IH;
    [by eapply step_inv | by eapply call_inv].
Qed.

(** ** Every execution ends, and what is left then *)

Definition phase_work (ph : WorkerPhase) : nat :=
  match ph with
  | Waiting => 0 | Telling _ _ _ => 1 | Solved _ _ _ _ => 2 | Solving _ _ => 3 | Armed _ => 4 | Taken _ => 8
  end.

Definition workers_work (ws : list (Worker S)) : nat := sum_list_with (λ w, phase_work (w_phase w)) ws.

Definition work_left s : nat :=
  9 * length (task_queue s) + workers_work (workers s) + 3 * length (events s) +
  (match firing s with Some _ => 0 | None => 1 end) + length (flagging s).

Lemma workers_work_set (ws : list (Worker S)) i w0 w : ws !! i = Some w0 →
  (workers_work (<[i := w]> ws) + phase_work (w_phase w0) = workers_work ws + phase_work (w_phase w))%nat.
Proof.
  revert i. induction ws as [| x ws IH]; intros [| i] Hi; [done | done | |].
  - injection Hi as ->. unfold workers_work. simpl. lia.
  - simpl in Hi. specialize (IH i Hi). unfold workers_work in *. simpl. lia.
Qed.

Lemma workers_work_flag (ws : list (Worker S)) c i : workers_work (alter (with_flag c) i ws) = workers_work ws.
Proof.
  revert i. induction ws as [| w ws IH]; intros [| i]; [done | done | done |]. unfold workers_work in *. simpl.
  change (list_alter (with_flag c) i ws) with (alter (with_flag c) i ws). by rewrite IH.
Qed.

Lemma length_insert_event e es : (length (insert_event e es) <= 1 + length es)%nat.
Proof. induction es as [| x es IH]; simpl; [done |]. case_match; simpl; [lia |]. case_match; simpl; lia. Qed.

Lemma step_less s s' : service_step run get_model s s' → (work_left s' < work_left s)%nat.
Proof.
  unfold work_left. intros [i w x Hw Hs | x Hs | pre i post Ef].
  - destruct Hs as [t q Ep Eq | t Ep El | t d Ep El Efi | t Ep | t armed y r Ep Hrun | t armed r c Ep | t r c Ep];
      unfold set_worker; simpl; rewrite ?Eq; simpl;
      match goal with |- context [workers_work (<[i := ?w']> _)] =>
        pose proof (workers_work_set (workers s) i w w' Hw) as E; rewrite Ep in E; simpl in E end; try lia.
    + pose proof (length_insert_event (MkEvent (now s + d) i (t_id t)) (events s)). lia.
    + destruct armed; simpl; lia.
  - destruct Hs as [e es Ef Ee Hle Hn | e es Ef Ee Hle Hn | e es Ef Ee]; simpl; rewrite ?Ef, ?Ee; simpl; try lia.
    change (λ w, w <| w_flag := Some (ByTimer (e_task e)) |>) with (with_flag (Some (ByTimer (e_task e)))).
    rewrite workers_work_flag. lia.
  - simpl. change (λ w, w <| w_flag := Some ByCall |>) with (with_flag (Some ByCall)).
    rewrite workers_work_flag, Ef, !length_app. simpl. lia.
Qed.

(** A thread that is not waiting can go on, or the timer can. *)
Lemma stuck_waiting s : SrvInv s → (∀ s', ¬ service_step run get_model s s') →
  (∀ i w, workers s !! i = Some w → w_phase w = Waiting) ∧ (workers s ≠ [] → task_queue s = []).
Proof.
  intros I Hs.
  assert (∀ i w, workers s !! i = Some w → w_phase w = Waiting) as Hw.
  { intros i w Hi. destruct (v_workers _ I _ _ Hi) as (Hg & _ & _). destruct (w_phase w) as [| t | t | t a | t a r c | t r c] eqn:Ep.
    - done.
    - destruct (t_limit t) as [d |] eqn:El.
      + destruct (firing s) as [e |] eqn:Ef.
        * destruct (v_firing _ I e Ef) as [[es Ee] _]. destruct (Hs _ (step_timer _ _ _ _ (timer_fire _ e es Ef Ee))).
        * destruct (Hs _ (step_work _ _ _ i w _ Hi (work_add _ _ _ _ _ t d Ep El Ef))).
      + destruct (Hs _ (step_work _ _ _ i w _ Hi (work_start _ _ _ _ _ t Ep El))).
    - destruct (Hs _ (step_work _ _ _ i w _ Hi (work_clear _ _ _ _ _ t Ep))).
    - destruct (run_total (is_set (w_flag w)) (w_solver w) (t_assumption t) Hg) as (x & r & Hrun).
      destruct (Hs _ (step_work _ _ _ i w _ Hi (work_solved _ _ _ _ _ t a x r Ep Hrun))).
    - destruct (Hs _ (step_work _ _ _ i w _ Hi (work_abort _ _ _ _ _ t a r c Ep))).
    - destruct (Hs _ (step_work _ _ _ i w _ Hi (work_tell _ _ _ _ _ t r c Ep))). }
  split; [done |]. intros Hne. destruct (workers s) as [| w ws] eqn:Ew; [done |].
  destruct (task_queue s) as [| t q] eqn:Eq; [done | exfalso].
  assert (workers s !! 0%nat = Some w) as Hi by by rewrite Ew.
  pose proof (Hw 0%nat w eq_refl) as Ep.
  destruct (Hs _ (step_work _ _ _ 0%nat w _ Hi (work_take _ _ _ _ _ t q Ep Eq))).
Qed.

Lemma worker_ids_waiting (ws : list (Worker S)) : (∀ w, w ∈ ws → w_phase w = Waiting) → worker_ids ws = [].
Proof.
  intros Hw. unfold worker_ids. induction ws as [| w ws IH]; [done |]. simpl. rewrite (Hw w) by by left. simpl.
  apply IH. intros x Hx. apply Hw. by right.
Qed.

(** ** Executions without the race of the timer *)

(** A task does not end while the callback of its event runs. *)
Definition calm s : Prop := ∀ e, firing s = Some e → worker_is s (e_worker e) (owns e).

Definition calm_step s s' : Prop := srv_step run get_model s s' ∧ calm s'.

Definition calm_reachable (solvers : list S) s : Prop := rtc calm_step (new_service solvers) s.

Definition not_timer (c : option Cause) : Prop := ∀ j, c ≠ Some (ByTimer j).

(** An unlimited task is not stopped by the timer. *)
Definition own_cause w : Prop :=
  match w_phase w with
  | Solving t _ => t_limit t = None → not_timer (w_flag w)
  | Solved t _ _ c | Telling t _ c => t_limit t = None → not_timer c
  | _ => True
  end.

Record CalmInv s : Prop := {
  m_workers : ∀ i w, workers s !! i = Some w → own_cause w;
  m_told : ∀ d, d ∈ told s → t_limit (d_task d) = None → not_timer (d_cause d) }.

Lemma calm_set s s' i w0 w : CalmInv s → workers s !! i = Some w0 → workers s' = <[i := w]> (workers s) →
  (own_cause w0 → own_cause w) → (∀ d, d ∈ told s' → t_limit (d_task d) = None → not_timer (d_cause d)) → CalmInv s'.
Proof.
  intros C Hi Ew Hw Ht. split; [| exact Ht]. intros j w'. rewrite Ew.
  intros [[-> ->] | [_ Hj]]%(lookup_set_worker _ i j w0 w w' Hi); [by eapply Hw, (m_workers _ C) | by eapply (m_workers _ C)].
Qed.

Lemma calm_flag s s' i c : CalmInv s → workers s' = alter (with_flag c) i (workers s) → told s' = told s →
  (∀ w, workers s !! i = Some w → own_cause w → own_cause (with_flag c w)) → CalmInv s'.
Proof.
  intros C Ew Et Hw. split; [| rewrite Et; apply C]. intros j w'. rewrite Ew.
  intros [(-> & w & Hj & ->) | [_ Hj]]%lookup_flag; [by eapply Hw, (m_workers _ C) | by eapply (m_workers _ C)].
Qed.

Lemma calm_work s i w s' : CalmInv s → workers s !! i = Some w → worker_step run get_model s i w s' → CalmInv s'.
Proof.
  intros C Hi Hs. pose proof (m_told _ C) as Ht. unfold own_cause in *.
  destruct Hs as [t q Ep Eq | t Ep El | t d Ep El Ef | t Ep | t armed x r Ep Hrun | t armed r c Ep | t r c Ep];
    (eapply (calm_set s _ i w); [exact C | exact Hi | by try destruct armed | unfold own_cause; rewrite Ep; simpl |]);
    try done; try (by intros _ _ j).
  - by destruct armed.
  - intros d [Hd | ->%list_elem_of_singleton]%elem_of_app; [by apply Ht |]. simpl.
    pose proof (m_workers _ C _ _ Hi) as Hw. unfold own_cause in Hw. by rewrite Ep in Hw.
Qed.

(** A flag that the timer sets belongs to a task with a limit. *)
Lemma calm_fire s e w : SrvInv s → calm s → firing s = Some e → workers s !! e_worker e = Some w →
  own_cause w → own_cause (with_flag (Some (ByTimer (e_task e))) w).
Proof.
  intros I Hc Ef Hw Ho. destruct (Hc e Ef) as (w' & Hw' & t & Ha & _). assert (w' = w) as -> by congruence.
  destruct (v_workers _ I _ _ Hw) as (_ & Hph & _). unfold own_cause, phase_ok in *. simpl.
  destruct (w_phase w) as [| u | u | u armed | u armed r c | u r c]; try done. destruct armed; [| done].
  intros Hl. symmetry in Hph. by apply bool_decide_eq_true in Hph.
Qed.

Lemma calm_step_inv s s' : SrvInv s → calm s → CalmInv s → srv_step run get_model s s' → CalmInv s'.
Proof.
  intros I Hc C [[i w x Hi Hs | x Hs | pre i post Ef] | [a lim | | i | n Hn]].
  - by eapply calm_work.
  - destruct Hs as [e es Ef Ee Hw Hn | e es Ef Ee Hw Hn | e es Ef Ee]; [by split; apply C .. |].
    eapply (calm_flag s); [exact C | done | done |]. intros w Hw. by eapply calm_fire.
  - eapply (calm_flag s _ i (Some ByCall)); [exact C | done | done |]. intros w _. unfold own_cause. simpl.
    by destruct (w_phase w); [| | | intros _ _ j | |].
  - split; apply C.
  - split; apply C.
  - eapply (calm_flag s _ i None); [exact C | done | done |]. intros w _. unfold own_cause. simpl.
    by destruct (w_phase w); [| | | intros _ _ j | |].
  - split; apply C.
Qed.

Lemma calm_start (solvers : list S) : calm (new_service solvers) ∧ CalmInv (new_service solvers).
Proof.
  split; [by intros e |]. split.
  - intros i w Hw. simpl in Hw. rewrite list_lookup_fmap in Hw. by apply fmap_Some in Hw as (x & _ & ->).
  - intros d Hd. by apply elem_of_nil in Hd.
Qed.

Lemma calm_reachable_inv (solvers : list S) s : (∀ x, x ∈ solvers → good x) → calm_reachable solvers s →
  SrvInv s ∧ CalmInv s.
Proof.
  intros Hg Hr. destruct (calm_start solvers) as [Hc C]. pose proof (inv_start solvers Hg) as I.
  unfold calm_reachable in Hr. revert I Hc C. induction Hr as [| s1 s2 s3 [Hs Hc2] _ IH]; [done |]. intros I Hc C.
  apply IH; [| exact Hc2 | by eapply calm_step_inv]. destruct Hs; [by eapply step_inv | by eapply call_inv].
Qed.

Lemma calm_is_reachable (solvers : list S) s : calm_reachable solvers s → reachable run get_model solvers s.
Proof. intros Hr. unfold reachable. eapply rtc_subrel; [| exact Hr]. intros s1 s2 [Hs _]. exact Hs. Qed.

Lemma reachable_workers (solvers : list S) s : reachable run get_model solvers s →
  length (workers s) = length solvers.
Proof.
  intros Hr. unfold reachable in Hr. assert (length (workers (new_service (M := M) solvers)) = length solvers) as <-.
  { simpl. apply length_fmap. }
  induction Hr as [| s1 s2 s3 Hs _ IH]; [done |]. rewrite IH. clear IH.
  destruct Hs as [[i w x Hw Hs | x Hs | pre i post Ef] | Hs].
  - destruct Hs; unfold set_worker; simpl; rewrite length_insert; by repeat case_match.
  - destruct Hs; simpl; rewrite ?length_alter; done.
  - simpl. by rewrite length_alter.
  - destruct Hs; simpl; rewrite ?length_alter; done.
Qed.
End Spec.

(** ** A small example

    Solvers without a state for the empty problem, which give up when flagged. *)

Definition toy_run (f : bool) (_ : ()) (_ : list Lit) (_ : ()) (r : State) : Prop := r = if f then UNKNOWN else SAT.

Definition toy_model (_ : ()) : () := ().

Lemma toy_lawful : LawfulRun toy_run toy_model (λ _, False) [] (λ _ _, true) (λ _, True).
Proof.
  split.
  - intros f [] a [] r _ ->. split; [done |]. destruct f; [done |]. split; [by intros c |].
    intros l Hl. by apply elem_of_nil in Hl.
  - intros f [] a _. by exists (), (if f then UNKNOWN else SAT).
Qed.

(** Solvers for the clause x0: UNSAT under its negation, SAT otherwise. *)
Definition unit_formula : formula := λ c, c = [mkLit 0 false].

Definition unit_answer (f : bool) (a : list Lit) : State :=
  if f then UNKNOWN else if bool_decide (mkLit 0 true ∈ a) then UNSAT else SAT.

Definition unit_run (f : bool) (_ : ()) (a : list Lit) (_ : ()) (r : State) : Prop := r = unit_answer f a.

Definition all_true (_ : ()) : Z → bool := λ _, true.

Lemma unit_lawful : LawfulRun unit_run all_true unit_formula [] (λ m, m) (λ _, True).
Proof.
  split.
  - intros f [] a [] r _ ->. split; [done |]. unfold unit_answer. destruct f; [done |]. case_bool_decide as Ha.
    + intros (σ & HF & Hl). destruct (HF _ eq_refl) as (l & ->%list_elem_of_singleton & Hx).
      specialize (Hl (mkLit 0 true) Ha). by destruct (σ 0) eqn:E; cbv in Hx, Hl; rewrite E in Hx, Hl.
    + split; [| intros l Hl; by apply elem_of_nil in Hl]. intros c ->. exists (mkLit 0 false). split; [by left | done].
  - intros f [] a _. by exists (), (unit_answer f a).
Qed.

(** Nothing can move when all threads wait and nothing is left to do. *)
Lemma idle_stuck {S M} run (get_model : S → M) s : (∀ i w, workers s !! i = Some w → w_phase w = Waiting) →
  task_queue s = [] → events s = [] → flagging s = [] → ∀ s', ¬ service_step run get_model s s'.
Proof.
  intros Hw Hq He Hf s' [i w x Hi Hs | x Hs | pre i post Ef].
  - pose proof (Hw i w Hi) as Ep. destruct Hs; congruence.
  - destruct Hs; congruence.
  - rewrite Hf in Ef. by destruct pre.
Qed.

(** ** What the callers rely on *)

(** C15. Every task is answered: from a state of the service that callers,
    threads and timer can reach, every execution without further calls is
    finite, and when nothing can move any more each task submitted so far has
    been answered exactly once or dropped by [interrupt()], and without a call
    of [interrupt()] none is dropped. *)
Theorem service_answers {S M} run (get_model : S → M) F tr val good (solvers : list S) s :
  LawfulRun run get_model F tr val good → solvers ≠ [] → (∀ x, x ∈ solvers → good x) →
  reachable run get_model solvers s →
  Acc (λ y x, service_step run get_model x y) s ∧
  ((∀ s', ¬ service_step run get_model s s') → ((λ d, t_id (d_task d)) <$> told s) ++ dropped s ≡ₚ seq 0 (next_id s)) ∧
  (called s = false → dropped s = []).
Proof.
  intros L Hne Hg Hr. pose proof (reachable_srv_inv run get_model F tr val good solvers s Hg Hr) as I.
  split; [| split].
  - clear. remember (work_left s) as n eqn:En. revert s En.
    induction n as [n IH] using lt_wf_ind. intros s ->. constructor. intros s' Hs.
    apply (IH (work_left s')); [by apply (step_less run get_model) | done].
  - intros Hs. destruct (stuck_waiting run get_model F tr val good s I Hs) as [Hw Hq].
    rewrite <- (v_ids _ _ _ _ _ _ I). unfold ids. rewrite Hq.
    + simpl. rewrite (worker_ids_waiting (workers s)); [done |]. intros w (i & Hi)%list_elem_of_lookup_1. by apply (Hw i).
    + intros E. pose proof (reachable_workers run get_model solvers s Hr) as El. rewrite E in El. by destruct solvers.
  - intros Hc. destruct (v_called _ _ _ _ _ _ I) as [? | [_ ?]]; [congruence | done].
Qed.

(** What a callback was told, case by case. *)
Lemma told_right {S M} run (get_model : S → M) F tr val good (solvers : list S) s d :
  LawfulRun run get_model F tr val good → (∀ x, x ∈ solvers → good x) →
  reachable run get_model solvers s → d ∈ told s →
  match d_result d with
  | UNSAT => ¬ satisfiable F (lit_on (tr ++ t_assumption (d_task d)))
  | SAT => ∃ m, d_model d = Some m ∧ models (val m) F ∧ models_lits (val m) (lit_on tr)
  | UNKNOWN => called s = true ∨
      ∃ j, d_cause d = Some (ByTimer j) ∧ (t_limit (d_task d) ≠ None → j = t_id (d_task d))
  end.
Proof.
  intros L Hg Hr Hd. pose proof (reachable_srv_inv run get_model F tr val good solvers s Hg Hr) as I.
  pose proof (v_told _ _ _ _ _ _ I d Hd) as Ht. unfold told_ok, result_ok, blame in Ht.
  destruct (d_result d); [exact Ht | exact Ht |]. destruct (d_cause d) as [[| j] |]; [by left | right; eauto | done].
Qed.

(** The answers are right: UNSAT only without a model under the assumption,
    SAT with a model; UNKNOWN only after [interrupt()] was called or after the
    timer set the flag, for a task with a time limit by its own event. *)
Theorem service_right {S M} run (get_model : S → M) F tr val good (solvers : list S) s d :
  LawfulRun run get_model F tr val good → (∀ x, x ∈ solvers → good x) →
  reachable run get_model solvers s → d ∈ told s →
  match d_result d with
  | UNSAT => ¬ satisfiable F (lit_on (tr ++ t_assumption (d_task d)))
  | SAT => ∃ m, d_model d = Some m ∧ models (val m) F ∧ models_lits (val m) (lit_on tr)
  | UNKNOWN => called s = true ∨
      ∃ j, d_cause d = Some (ByTimer j) ∧ (t_limit (d_task d) ≠ None → j = t_id (d_task d))
  end.
Proof. intros L. exact (told_right run get_model F tr val good solvers s d L). Qed.

Lemma service_right_witness : ∃ s d, reachable toy_run toy_model [tt] s ∧ d ∈ told s ∧ d_result d = SAT ∧
  ∃ m, d_model d = Some m ∧ models (λ _ : Z, true) (λ _, False).
Proof.
  set (t := MkSolveTask 0 [] None).
  set (d := MkTold (M := ()) t SAT (Some tt) None).
  assert (∃ s, reachable toy_run toy_model [tt] s ∧ d ∈ told s) as (s & Hr & Hd).
  { eexists. split.
    - eapply rtc_l; [right; apply (call_solve _ [] None) |].
      eapply rtc_l; [left; eapply (step_work _ _ _ 0%nat); [reflexivity | eapply work_take; reflexivity] |].
      eapply rtc_l; [left; eapply (step_work _ _ _ 0%nat); [reflexivity | eapply work_start; reflexivity] |].
      eapply rtc_l; [left; eapply (step_work _ _ _ 0%nat); [reflexivity | eapply (work_solved _ _ _ _ _ _ _ tt SAT); reflexivity] |].
      eapply rtc_l; [left; eapply (step_work _ _ _ 0%nat); [reflexivity | eapply work_abort; reflexivity] |].
      eapply rtc_l; [left; eapply (step_work _ _ _ 0%nat); [reflexivity | eapply work_tell; reflexivity] |].
      apply rtc_refl.
    - by left. }
  exists s, d. split; [exact Hr |]. split; [exact Hd |]. split; [reflexivity |].
  destruct (service_right toy_run toy_model (λ _, False) [] (λ _ _, true) (λ _, True) [tt] s d toy_lawful) as (m & Em & Hm & _);
    [done | exact Hr | exact Hd |].
  exists m. split; [exact Em | exact Hm].
Defined.

(** The answers of the service as the strategies see them, in the executions in
    which no task ends while the callback of its event runs. *)
Definition srv_answers {S M} run (get_model : S → M) (solvers : list S) (stop : bool) (lim : option Z)
    (a : list Lit) (r : State) (m : option M) : Prop :=
  ∃ s d, calm_reachable run get_model solvers s ∧ d ∈ told s ∧ called s = stop ∧
    t_limit (d_task d) = lim ∧ t_assumption (d_task d) = a ∧ d_result d = r ∧ d_model d = m.

(** C11. The service keeps its promise to the strategies, [LawfulService], in
    every execution in which no task ends between the test of its event by the
    timer and the end of the callback: its answers are right, and a task without
    a limit, also one that follows a task whose limit has expired on the same
    solver, gives up only after [interrupt()].  [stale_timeout] shows that the
    condition is needed. *)
Theorem service_lawful {S M} run (get_model : S → M) F tr val good (solvers : list S) :
  LawfulRun run get_model F tr val good → (∀ x, x ∈ solvers → good x) →
  LawfulService F tr val (srv_answers run get_model solvers).
Proof.
  intros L Hg. split.
  - intros stop lim a m (s & d & Hr%calm_is_reachable & Hd & _ & _ & <- & E & _).
    pose proof (told_right run get_model F tr val good solvers s d L Hg Hr Hd) as H. by rewrite E in H.
  - intros stop lim a m (s & d & Hr%calm_is_reachable & Hd & _ & _ & _ & E & Em).
    pose proof (told_right run get_model F tr val good solvers s d L Hg Hr Hd) as H. rewrite E in H.
    destruct H as (x & Hx & Hm). exists x. split; [congruence | exact Hm].
  - intros a m (s & d & Hr & Hd & Hc & El & _ & E & _).
    destruct (calm_reachable_inv run get_model F tr val good solvers s Hg Hr) as [_ C].
    pose proof (told_right run get_model F tr val good solvers s d L Hg (calm_is_reachable _ _ _ _ Hr) Hd) as H.
    rewrite E in H. destruct H as [Hx | (j & Hj & _)]; [congruence |]. by apply (m_told _ C d Hd El j).
Qed.

(** ** The service at work *)

Ltac srv_work i := eapply rtc_l; [left; eapply (step_work _ _ _ i); [reflexivity |] |].
Ltac settle := match goal with |- rtc ?R ?x ?y => let z := eval vm_compute in x in change (rtc R z y) end.
Ltac srv_do step := eapply rtc_l; [step | settle].
Ltac srv_act i step := srv_do ltac:(left; eapply (step_work _ _ _ i); [reflexivity | step]).

(** The same step of a calm execution; the state after it is evaluated. *)
Ltac calm_now := intros e He;
  first [discriminate He | injection He as <-; eexists; split; [reflexivity | eexists; split; reflexivity]].
Ltac calm_do step := eapply rtc_l; [split; [step | calm_now] | settle].
Ltac calm_work i step := calm_do ltac:(left; eapply (step_work _ _ _ i); [reflexivity | step]).

Definition no_x0 : list Lit := [mkLit 0 true].

(** One thread: a task with a limit expires, then tasks without a limit are
    answered. *)
Lemma calm_trace : ∃ s, calm_reachable unit_run all_true [tt] s ∧ called s = false ∧
  told s = [MkTold (MkSolveTask 0 no_x0 (Some 5)) UNKNOWN None (Some (ByTimer 0));
            MkTold (MkSolveTask 1 no_x0 None) UNSAT None None;
            MkTold (MkSolveTask 2 [] None) SAT (Some (all_true tt)) None].
Proof.
  eexists. split.
  - calm_do ltac:(right; apply (call_solve _ no_x0 (Some 5))).
    calm_do ltac:(right; apply (call_solve _ no_x0 None)).
    calm_do ltac:(right; apply (call_solve _ [] None)).
    calm_work 0%nat ltac:(eapply work_take; reflexivity).
    calm_work 0%nat ltac:(eapply work_add; reflexivity).
    calm_work 0%nat ltac:(eapply work_clear; reflexivity).
    calm_do ltac:(right; apply (call_tick _ 5); simpl; lia).
    calm_do ltac:(left; apply step_timer; eapply timer_check;
      [reflexivity | reflexivity | simpl; lia | by apply not_elem_of_empty]).
    calm_do ltac:(left; apply step_timer; eapply timer_fire; reflexivity).
    calm_work 0%nat ltac:(eapply (work_solved _ _ _ _ _ _ _ tt UNKNOWN); reflexivity).
    calm_work 0%nat ltac:(eapply work_abort; reflexivity).
    calm_work 0%nat ltac:(eapply work_tell; reflexivity).
    calm_work 0%nat ltac:(eapply work_take; reflexivity).
    calm_work 0%nat ltac:(eapply work_start; reflexivity).
    calm_work 0%nat ltac:(eapply (work_solved _ _ _ _ _ _ _ tt UNSAT); reflexivity).
    calm_work 0%nat ltac:(eapply work_abort; reflexivity).
    calm_work 0%nat ltac:(eapply work_tell; reflexivity).
    calm_work 0%nat ltac:(eapply work_take; reflexivity).
    calm_work 0%nat ltac:(eapply work_start; reflexivity).
    calm_work 0%nat ltac:(eapply (work_solved _ _ _ _ _ _ _ tt SAT); reflexivity).
    calm_work 0%nat ltac:(eapply work_abort; reflexivity).
    calm_work 0%nat ltac:(eapply work_tell; reflexivity).
    apply rtc_refl.
  - split; reflexivity.
Qed.

Lemma service_lawful_witness :
  let ans := srv_answers unit_run all_true [tt] in
  ans false (Some 5) no_x0 UNKNOWN None ∧
  (ans false None no_x0 UNSAT None ∧ ¬ satisfiable unit_formula (lit_on ([] ++ no_x0)) ∧ ¬ ans false None no_x0 UNKNOWN None) ∧
  ∃ m, ans false None [] SAT (Some m) ∧ models m unit_formula.
Proof.
  intros ans.
  assert (LawfulService unit_formula [] (λ m, m) ans) as L.
  { apply (service_lawful unit_run all_true unit_formula [] (λ m, m) (λ _, True)); [exact unit_lawful | done]. }
  destruct calm_trace as (s & Hr & Hc & Ht).
  assert (∀ d, d ∈ told s → ans false (t_limit (d_task d)) (t_assumption (d_task d)) (d_result d) (d_model d)) as Ha.
  { intros d Hd. exists s, d. by split_and!. }
  rewrite Ht in Ha. apply Forall_forall in Ha. apply Forall_cons in Ha as [H0 [H1 [H2 _]%Forall_cons]%Forall_cons].
  split; [exact H0 |]. split.
  - split; [exact H1 |]. split; [exact (sv_unsat _ _ _ _ _ _ H1) | exact (sv_indef _ _ no_x0 None)].
  - exists (all_true tt). split; [exact H2 |]. destruct (sv_sat _ _ _ _ _ _ H2) as (x & [= <-] & Hm & _). exact Hm.
Defined.

(** Two threads and three tasks: one expires, one is refuted, the last is dropped
    by [interrupt()]. *)
Lemma answer_trace : ∃ s0 s, reachable unit_run all_true [tt; tt] s0 ∧ reachable unit_run all_true [tt; tt] s ∧
  t_id <$> task_queue s0 = [0; 1; 2]%nat ∧ called s0 = false ∧ (∀ s', ¬ service_step unit_run all_true s s') ∧
  d_result <$> told s = [UNKNOWN; UNSAT] ∧ next_id s = 3%nat.
Proof.
  eexists _, _. split; [| split].
  - srv_do ltac:(right; apply (call_solve _ [] (Some 5))).
    srv_do ltac:(right; apply (call_solve _ no_x0 None)).
    srv_do ltac:(right; apply (call_solve _ [] None)). apply rtc_refl.
  - srv_do ltac:(right; apply (call_solve _ [] (Some 5))).
    srv_do ltac:(right; apply (call_solve _ no_x0 None)).
    srv_do ltac:(right; apply (call_solve _ [] None)).
    srv_act 0%nat ltac:(eapply work_take; reflexivity).
    srv_act 1%nat ltac:(eapply work_take; reflexivity).
    srv_act 0%nat ltac:(eapply work_add; reflexivity).
    srv_act 1%nat ltac:(eapply work_start; reflexivity).
    srv_act 0%nat ltac:(eapply work_clear; reflexivity).
    srv_do ltac:(right; apply (call_tick _ 5); simpl; lia).
    srv_do ltac:(left; apply step_timer; eapply timer_check; [reflexivity | reflexivity | simpl; lia | by apply not_elem_of_empty]).
    srv_do ltac:(left; apply step_timer; eapply timer_fire; reflexivity).
    srv_act 0%nat ltac:(eapply (work_solved _ _ _ _ _ _ _ tt UNKNOWN); reflexivity).
    srv_act 0%nat ltac:(eapply work_abort; reflexivity).
    srv_act 0%nat ltac:(eapply work_tell; reflexivity).
    srv_act 1%nat ltac:(eapply (work_solved _ _ _ _ _ _ _ tt UNSAT); reflexivity).
    srv_act 1%nat ltac:(eapply work_abort; reflexivity).
    srv_act 1%nat ltac:(eapply work_tell; reflexivity).
    srv_do ltac:(right; apply call_interrupt).
    srv_do ltac:(left; eapply (step_flag _ _ _ [] 0%nat); reflexivity).
    srv_do ltac:(left; eapply (step_flag _ _ _ [] 1%nat); reflexivity). apply rtc_refl.
  - split; [reflexivity |]. split; [reflexivity |]. split; [| split; reflexivity].
    apply idle_stuck; [| reflexivity ..]. intros [| [| i]] w Hw; simpl in Hw; [by injection Hw as <- .. | done].
Qed.

Lemma service_answers_witness : ∃ s0 s, reachable unit_run all_true [tt; tt] s0 ∧ reachable unit_run all_true [tt; tt] s ∧
  (t_id <$> task_queue s0 = [0; 1; 2]%nat ∧ dropped s0 = [] ∧ Acc (λ y x, service_step unit_run all_true x y) s0) ∧
  d_result <$> told s = [UNKNOWN; UNSAT] ∧
  ((λ d, t_id (d_task d)) <$> told s) ++ dropped s ≡ₚ [0; 1; 2]%nat.
Proof.
  destruct answer_trace as (s0 & s & Hr0 & Hr & Hq & Hc & Hstuck & Ht & Hn).
  pose proof (λ x, service_answers unit_run all_true unit_formula [] (λ m, m) (λ _, True) [tt; tt] x unit_lawful
    ltac:(discriminate) (λ _ _, I)) as H.
  exists s0, s. split; [exact Hr0 |]. split; [exact Hr |].
  destruct (H s0 Hr0) as (Ha & _ & Hd). destruct (H s Hr) as (_ & Hp & _). rewrite Hn in Hp.
  split; [split; [exact Hq |]; split; [exact (Hd Hc) | exact Ha] |]. split; [exact Ht | exact (Hp Hstuck)].
Defined.

(** ** What goes wrong *)

(** C40. The timer can stop the wrong task: its thread finds an event not
    aborted, the task ends, aborts the event and the worker starts a task
    without limit, and then the callback sets the flag of the solver: the
    unlimited task gives up although nobody called [interrupt()]. *)
Theorem stale_timeout : ∃ s d, reachable toy_run toy_model [tt] s ∧ called s = false ∧ d ∈ told s ∧
  t_limit (d_task d) = None ∧ d_result d = UNKNOWN.
Proof.
  set (d := MkTold (M := ()) (MkSolveTask 1 [] None) UNKNOWN None (Some (ByTimer 0))).
  assert (∃ s, reachable toy_run toy_model [tt] s ∧ called s = false ∧ d ∈ told s) as (s & Hr & Hc & Hd).
  2:{ exists s, d. by split; [| split; [| split]]. }
  eexists. split.
  - eapply rtc_l; [right; apply (call_solve _ [] (Some 5)) |].
    eapply rtc_l; [right; apply (call_solve _ [] None) |].
    srv_work 0%nat; [eapply work_take; reflexivity |].
    srv_work 0%nat; [eapply work_add; reflexivity |].
    srv_work 0%nat; [eapply work_clear; reflexivity |].
    eapply rtc_l; [right; apply (call_tick _ 5); simpl; lia |].
    eapply rtc_l; [left; apply step_timer; eapply timer_check; [reflexivity | reflexivity | simpl; lia | by apply not_elem_of_empty] |].
    srv_work 0%nat; [eapply (work_solved _ _ _ _ _ _ _ tt SAT); reflexivity |].
    srv_work 0%nat; [eapply work_abort; reflexivity |].
    srv_work 0%nat; [eapply work_tell; reflexivity |].
    srv_work 0%nat; [eapply work_take; reflexivity |].
    srv_work 0%nat; [eapply work_start; reflexivity |].
    eapply rtc_l; [left; apply step_timer; eapply timer_fire; reflexivity |].
    srv_work 0%nat; [eapply (work_solved _ _ _ _ _ _ _ tt UNKNOWN); reflexivity |].
    srv_work 0%nat; [eapply work_abort; reflexivity |].
    srv_work 0%nat; [eapply work_tell; reflexivity |].
    apply rtc_refl.
  - split; [reflexivity | by right; left].
Qed.

(** Interrupts and limits can be lost, because [solve] clears the flag when
    it starts: an [interrupt()] between the take of a task and its start leaves
    the task running with nothing to stop it, and so does an event that fires
    before its task starts; and of two events for the same time only the first
    is kept, so that a task with a limit runs without. *)
Theorem interrupts_lost :
  (∃ s w t, reachable toy_run toy_model [tt] s ∧ called s = true ∧ flagging s = [] ∧
     workers s = [w] ∧ w_phase w = Solving t false ∧ w_flag w = None) ∧
  (∃ s w t, reachable toy_run toy_model [tt] s ∧ workers s = [w] ∧ w_phase w = Solving t true ∧
     t_limit t ≠ None ∧ events s = [] ∧ w_flag w = None) ∧
  (∃ s w w' t t', reachable toy_run toy_model [tt; tt] s ∧ workers s = [w; w'] ∧ w_phase w = Armed t ∧
     w_phase w' = Armed t' ∧ t ≠ t' ∧ length (events s) = 1%nat).
Proof.
  split; [| split].
  - do 3 eexists. split.
    + eapply rtc_l; [right; apply (call_solve _ [] None) |].
      srv_work 0%nat; [eapply work_take; reflexivity |].
      eapply rtc_l; [right; apply call_interrupt |].
      eapply rtc_l; [left; eapply (step_flag _ _ _ [] 0%nat []); reflexivity |].
      srv_work 0%nat; [eapply work_start; reflexivity |]. apply rtc_refl.
    + split; [reflexivity |]. split; [reflexivity |]. split; [reflexivity |]. split; reflexivity.
  - do 3 eexists. split.
    + eapply rtc_l; [right; apply (call_solve _ [] (Some 0)) |].
      srv_work 0%nat; [eapply work_take; reflexivity |].
      srv_work 0%nat; [eapply work_add; reflexivity |].
      eapply rtc_l; [left; apply step_timer; eapply timer_check; [reflexivity | reflexivity | simpl; lia | by apply not_elem_of_empty] |].
      eapply rtc_l; [left; apply step_timer; eapply timer_fire; reflexivity |].
      srv_work 0%nat; [eapply work_clear; reflexivity |]. apply rtc_refl.
    + split; [reflexivity |]. split; [reflexivity |]. split; [done |]. split; reflexivity.
  - do 5 eexists. split.
    + eapply rtc_l; [right; apply (call_solve _ [] (Some 5)) |].
      eapply rtc_l; [right; apply (call_solve _ [] (Some 5)) |].
      srv_work 0%nat; [eapply work_take; reflexivity |].
      srv_work 1%nat; [eapply work_take; reflexivity |].
      srv_work 0%nat; [eapply work_add; reflexivity |].
      srv_work 1%nat; [eapply work_add; reflexivity |]. apply rtc_refl.
    + split; [reflexivity |]. split; [reflexivity |]. split; [reflexivity |]. split; [done | reflexivity].
Qed.
