(* ===== verification/Witnesses.v ===== *)
(** * The theorems at concrete inputs

    Each theorem with hypotheses is applied to a small case: the solver holding
    the clauses of [example_cs], or those of [unsat_cs], which have no model
    although unit propagation alone does not refute them. *)
From stdpp Require Import sorting.
From S2P Require Import Prelude Lit UnitProp Sort Vec Heap Alloc Double Clause Solver Propagate.
From S2P Require Import PropCheck Setup SetupSpec Load Domain Search SearchSpec Pool PoolSpec.
From S2P Require Import Engine EngineSpec LRU Fitness Instance InstanceSpec Evol EvolSpec.
From S2P Require Import Preprocess.

(** ** Solvers *)

Definition unsat_cs : list (list Lit) :=
  [[mkLit 0 false; mkLit 1 false]; [mkLit 0 true; mkLit 1 false]; [mkLit 0 false; mkLit 1 true];
   [mkLit 0 true; mkLit 1 true]].

Definition unsat_solver : Solver := default inhabitant (build unsat_cs).

Lemma unsat_ready : Ready unsat_solver.
Proof.
  destruct (build_solver_spec unsat_cs) as (st & E & (_ & R & _) & _).
  { repeat constructor; unfold lit_ok; rewrite ?var_mkLit; lia. }
  { unfold max_capacity. simpl. lia. }
  assert (unsat_solver = st) as Eq by (unfold unsat_solver; by rewrite E).
  assert (ok unsat_solver = true) as O by (vm_compute; reflexivity).
  rewrite Eq in *. exact (R O).
Qed.

Lemma example_holds : holds 5 (db_of example_solver) (trail (core example_solver)) example_solver.
Proof.
  destruct example_ok as [O N]. split; [done |]. split; [apply (rd_stable _ example_ready) |].
  split; [done |]. split; [done |]. reflexivity.
Qed.

Lemma unsat_holds : holds 2 (db_of unsat_solver) (trail (core unsat_solver)) unsat_solver.
Proof.
  split; [vm_compute; reflexivity |]. split; [apply (rd_stable _ unsat_ready) |].
  split; [vm_compute; reflexivity |]. split; [done |]. reflexivity.
Qed.

Lemma lits_in n l : forallb (λ p, (0 <=? var p) && (var p <? n)) l = true → Forall (lit_ok n) l.
Proof.
  induction l as [| p l IH]; simpl; [constructor |]. intros H. zbool. constructor; [| by apply IH].
  unfold lit_ok. lia.
Qed.

Lemma example_lits l : forallb (λ p, (0 <=? var p) && (var p <? 5)) l = true → lits_ok (core example_solver) l.
Proof. intros H. unfold lits_ok. rewrite (proj2 example_ok). by apply lits_in. Qed.

Ltac at_example := first [exact (proj1 example_ok) | exact (rd_stable _ example_ready) | by apply example_lits].

(** ** Propagation checks *)

Lemma prop_check_correct_witness : ∃ st' b,
  prop_check example_solver [mkLit 0 true] 0 = Some (st', b) ∧ Restored example_solver st' ∧
  answers b (UPconfl (db_of example_solver) (lit_on (trail (core example_solver) ++ [mkLit 0 true]))).
Proof. apply (prop_check_correct example_solver [mkLit 0 true] 0); at_example. Defined.

Lemma prop_check_propagated_correct_witness : ∃ st' b prop,
  prop_check_propagated example_solver [mkLit 0 true; mkLit 3 true] 0 = Some (st', b, prop) ∧
  Restored example_solver st' ∧
  answers b (UPconfl (db_of example_solver)
    (lit_on (trail (core example_solver) ++ [mkLit 0 true; mkLit 3 true]))) ∧
  (b = true → ∀ l, l ∈ trail (core example_solver) ++ prop ↔
     UP (db_of example_solver) (lit_on (trail (core example_solver) ++ [mkLit 0 true; mkLit 3 true])) l).
Proof. apply (prop_check_propagated_correct example_solver [mkLit 0 true; mkLit 3 true] 0); at_example. Defined.

Lemma prop_check_subtree_correct_witness : ∃ st' n,
  prop_check_subtree example_solver [mkLit 0 true; mkLit 1 false; mkLit 3 false] 1 = Some (st', n) ∧
  Restored example_solver st' ∧
  counts (λ a, UPconfl (db_of example_solver)
      (lit_on (trail (core example_solver) ++ [mkLit 0 true] ++ a)))
    (leaves (var <$> [mkLit 1 false; mkLit 3 false])) n.
Proof.
  apply (prop_check_subtree_correct example_solver [mkLit 0 true; mkLit 1 false; mkLit 3 false] 1);
    [at_example .. | simpl; lia].
Defined.

Lemma addClause_correct_witness : ∃ st' b,
  addClause example_solver [mkLit 0 true; mkLit 4 true] = Some (st', b) ∧
  clause_added example_solver [mkLit 0 true; mkLit 4 true] st' b.
Proof.
  apply (addClause_correct example_solver [mkLit 0 true; mkLit 4 true]);
    [exact example_ready | at_example .. | vm_compute; discriminate].
Defined.

Lemma dimacs_roundtrip_witness : ∃ s',
  parse_DIMACS solver_sink (print_dimacs 5 [[mkLit 0 true; mkLit 4 false]; [mkLit 6 false]]) example_solver = Some s' ∧
  sink_inv s' ∧
  ∀ σ, sink_means s' σ ↔ sink_means example_solver σ ∧
    ∀ c, c ∈ [[mkLit 0 true; mkLit 4 false]; [mkLit 6 false]] → clause_true σ c.
Proof.
  apply (dimacs_roundtrip solver_sink sink_inv sink_used sink_means 5); [apply _ | | | | |].
  - split; [apply ready_base, example_ready |]. split; [intros _; exact example_ready | vm_compute; reflexivity].
  - unfold INT_MAX. lia.
  - unfold INT_MAX. simpl. lia.
  - repeat constructor; vm_compute; discriminate || done.
  - vm_compute. discriminate.
Defined.

(** ** Engines *)

#[local] Abbreviation example_F := (db_of example_solver).
#[local] Abbreviation example_tr := (trail (core example_solver)).
#[local] Abbreviation example_law := (solver_lawful 5 (db_of example_solver) (trail (core example_solver))).
#[local] Abbreviation enum vs := (full_enumerable counter_sample 0 vs).

Definition base_lits : list Lit := [mkLit 0 true].

Lemma based_full k : Forall (lit_ok 5) (based (Some base_lits) (full_at [1; 3; 4] k)).
Proof.
  simpl. constructor; [vm_compute; by split |].
  unfold full_at. apply lits_ok_vars. rewrite var_set_assignment, var_map_to_mini_vars.
  repeat constructor; lia.
Qed.

Lemma fresh_full vs : (length vs < 64)%nat →
  fresh (2 ^ Z.of_nat (length vs)) (full_kin vs) (full_sits vs) (createFullSearch vs).
Proof.
  intros Hl. split; [split; [done | apply var_map_to_mini_vars] |]. split; [apply full_start |].
  split; [| done]. simpl. rewrite Z.shiftl_1_l. apply Z.mod_small. split; [apply Z.pow_nonneg; lia |].
  apply Z.pow_lt_mono_r; lia.
Qed.

(** The callback never asks to stop. *)
Definition listen : Callback := λ _ _ _, Some true.

Lemma sequential_propagate_correct_witness : ∃ st' c es,
  sequential_propagate solver_checker counter_sample 0 8 (Some listen) (Some base_lits) example_solver 0
    (createFullSearch [1; 3; 4]) = Some (st', 0, c, es) ∧
  holds 5 example_F example_tr st' ∧
  counts (conflicts_with example_F example_tr) (based (Some base_lits) <$> (full_at [1; 3; 4] <$> seqZ 0 8)) c ∧
  told_about example_F example_tr (Some listen) (based (Some base_lits) <$> (full_at [1; 3; 4] <$> seqZ 0 8)) es.
Proof.
  apply (sequential_propagate_correct solver_checker _ 5 _ _ counter_sample 0 (Some listen) (Some base_lits) 8
    (full_at [1; 3; 4]) (full_kin [1; 3; 4]) (full_sits [1; 3; 4]));
    [exact example_law | exact (enum [1; 3; 4]) | done | done | exact based_full
    | exact example_holds | by apply (fresh_full [1; 3; 4]); simpl; lia | done].
Defined.

Definition two_workers : list (Solver * Z) := [(example_solver, 0); (example_solver, 5)].

Lemma two_workers_good : Forall (holds 5 example_F example_tr ∘ fst) two_workers.
Proof. apply Forall_cons_2; [exact example_holds |]. apply Forall_cons_2; [exact example_holds | apply Forall_nil_2]. Qed.

Lemma par_prop_search_correct_witness : ∃ tasks,
  search_tasks (par_config 2 1 3) 2 (createFullSearch [1; 3; 4]) = Some tasks ∧
  returns (par_task_step solver_checker counter_sample 0 (Some listen) (Some base_lits)) two_workers tasks (λ p,
    Forall (holds 5 example_F example_tr ∘ fst) (workers p) ∧
    ∃ c es, sum_futures (futures p) = Some c ∧ snd <$> log p ≡ₚ es ∧
      counts (conflicts_with example_F example_tr) (based (Some base_lits) <$> (full_at [1; 3; 4] <$> seqZ 0 8)) c ∧
      told_about example_F example_tr (Some listen) (based (Some base_lits) <$> (full_at [1; 3; 4] <$> seqZ 0 8)) es).
Proof.
  apply (par_prop_search_correct solver_checker (holds 5 example_F example_tr) 5 _ _ counter_sample 0
    (Some listen) (Some base_lits) 8 (full_at [1; 3; 4]) (full_kin [1; 3; 4]) (full_sits [1; 3; 4])
    (par_config 2 1 3) two_workers);
    [exact example_law | exact (enum [1; 3; 4]) | done | done | exact based_full | done | done
    | exact two_workers_good | by apply (fresh_full [1; 3; 4]); simpl; lia | done].
Defined.

Lemma par_prop_tree_correct_witness :
  returns (par_task_step solver_checker counter_sample 0 None None) two_workers
    (tree_tasks (par_config 2 1 3) [mkLit 0 true; mkLit 1 false; mkLit 3 false; mkLit 4 false] 1) (λ p,
    Forall (holds 5 example_F example_tr ∘ fst) (workers p) ∧
    ∃ c, sum_futures (futures p) = Some c ∧
      counts (λ a, conflicts_with example_F example_tr
          (take 1 [mkLit 0 true; mkLit 1 false; mkLit 3 false; mkLit 4 false] ++ a))
        (leaves (var <$> drop 1 [mkLit 0 true; mkLit 1 false; mkLit 3 false; mkLit 4 false])) c).
Proof.
  apply (par_prop_tree_correct solver_checker (holds 5 example_F example_tr) 5 _ _ counter_sample 0 None None
    (par_config 2 1 3) two_workers);
    [exact example_law | done | exact two_workers_good | by apply lits_in | simpl; lia | simpl; lia | done | done
    | vm_compute; by split].
Defined.

Lemma prop_tree_is_full_search_witness : ∃ st1 st2 c,
  simp_prop_tree solver_checker example_solver [mkLit 0 false; mkLit 1 false] 0 = Some (st1, c) ∧
  simp_prop_search solver_checker counter_sample 0 4 None None example_solver 0
    (createFullSearch (var <$> [mkLit 0 false; mkLit 1 false])) = Some (st2, 0, c, []).
Proof.
  apply (prop_tree_is_full_search solver_checker (holds 5 example_F example_tr) 5 example_F example_tr counter_sample);
    [exact example_law | exact example_holds | by apply lits_in | simpl; lia | done].
Defined.

Lemma unsat_tree : ∃ st', simp_prop_tree solver_checker unsat_solver [mkLit 1 false] 0 = Some (st', 2).
Proof. eexists. vm_compute. reflexivity. Qed.

Lemma strong_backdoor_unsat_witness : ¬ satisfiable (db_of unsat_solver) (lit_on (trail (core unsat_solver))).
Proof.
  destruct unsat_tree as [st' E].
  apply (strong_backdoor_unsat solver_checker (holds 2 (db_of unsat_solver) (trail (core unsat_solver))) 2
    (db_of unsat_solver) (trail (core unsat_solver)) unsat_solver [mkLit 1 false] st' 2);
    [apply solver_lawful | exact unsat_holds | by apply lits_in | simpl; lia | exact E | done].
Defined.

(** Tasks that count down, telling every number. *)
Definition countdown (told : list (nat * nat)) (w : unit) (t : nat) : unit * (nat + nat) * list nat :=
  match t with O => (w, inr O, []) | S t => (w, inl t, [t]) end.

#[local] Instance countdown_lawful :
  LawfulTasks countdown (λ _, True) (λ _ t es, (t + length es = 3)%nat) (λ _ _ es, length es = 3%nat) (λ t, t).
Proof.
  intros l id w t es _ Hes. destruct t as [| t]; simpl; [by rewrite app_nil_r |]. rewrite length_app. simpl.
  split; [done |]. split; lia.
Qed.

Lemma pool_runs_every_task_witness : returns countdown [tt; tt] [3; 3; 3]%nat (λ p,
  ∃ vs, futures p = Some <$> vs ∧ length vs = 3%nat ∧ Forall (λ _, True) (workers p) ∧
    (∀ id v, vs !! id = Some v → length (own (log p) id) = 3%nat) ∧
    ∀ id, (3 <= id)%nat → own (log p) id = []).
Proof.
  apply (pool_runs_every_task countdown (λ _, True) (λ _ t es, (t + length es = 3)%nat)
    (λ _ _ es, length es = 3%nat) (λ t, t) [tt; tt] [3; 3; 3]%nat); [apply _ | done | by repeat constructor |].
  intros [| [| [| k]]] t; simpl; [by intros [= <-] .. | done].
Defined.

(** ** The evolutionary algorithms *)

#[local] Abbreviation unsat_F := (db_of unsat_solver).
#[local] Abbreviation unsat_tr := (trail (core unsat_solver)).
#[local] Abbreviation unsat_good := (holds 2 unsat_F unsat_tr ∘ fst).

(** A generator whose real numbers cycle through thirds. *)
Definition thirds (r : Z) : double * Z := (d_div (d_of_Z (1 + r mod 3)) (d_of_Z 3), r + 1).

Definition unsat_env : EvolEnv (Solver * Z) := simp_env solver_checker counter_sample thirds (λ x, x) begin_first.

Lemma counter_range r lo hi : lo <= hi → lo <= (counter_sample r lo hi).1 <= hi.
Proof. intros. simpl. pose proof (Z.mod_pos_bound r (hi - lo + 1)). lia. Qed.

#[local] Instance unsat_env_lawful : LawfulEnv unsat_env unsat_good 2 unsat_F unsat_tr.
Proof. apply simp_env_lawful; [apply solver_lawful | apply _ | exact counter_range]. Qed.

Definition unsat_view : list Z := [1; 0].

Lemma unsat_view_ok : Forall (λ v, 0 <= v < 2) unsat_view.
Proof. repeat constructor; lia. Qed.

Definition start_shared (as_tree : bool) : SharedData :=
  MkShared (MkSampling 10 100 2 d_one as_tree) (new_lru 100) (new_space 2) 20 [].

Lemma start_ok b : SharedOk 2 unsat_F unsat_tr unsat_view (start_shared b).
Proof. split; [apply Forall_nil_2 | vm_compute; discriminate | by intros m f ? |]. unfold bounded. simpl. rewrite map_size_empty. lia. Qed.

Definition one_var : Instance_ := MkInstance false [true; false] inhabitant.

Lemma one_var_ok b : instance_ok unsat_F unsat_tr unsat_view (start_shared b) one_var.
Proof. split; [by split | done]. Qed.

Lemma is_sbs_sound_witness : ¬ satisfiable unsat_F (lit_on (unsat_tr ++ [])).
Proof.
  assert (match fitness unsat_env unsat_view (start_shared true) (unsat_solver, 0) one_var with
          | Some (_, i', _, _) => is_sbs i'
          | None => false
          end = true) as Hs by (vm_compute; reflexivity).
  destruct (fitness _ _ _ _ _) as [[[[f i'] sh'] w'] |] eqn:E; [| discriminate Hs].
  apply (is_sbs_sound unsat_env unsat_good 2 unsat_F unsat_tr unsat_view (start_shared true) (unsat_solver, 0) one_var
    f i' sh' w'); [exact unsat_env_lawful | exact unsat_view_ok | exact unsat_holds | apply start_ok | apply one_var_ok
    | by split | exact E | exact Hs].
Defined.

Lemma fitness_exact_witness : ∃ f i' sh' w' c,
  fitness unsat_env unsat_view (start_shared false) (unsat_solver, 0) one_var = Some (f, i', sh', w') ∧
  counts (λ a, conflicts_with unsat_F unsat_tr ([] ++ a)) (leaves (map_to_vars unsat_view [true; false])) c ∧
  f = MkFitness (d_div (d_of_Z c) (d_of_Z (2 ^ 1))) 1 20 (u32 (2 ^ 1)) ∧
  lru_get (cache sh') [true; false] = Some f.
Proof.
  apply (fitness_exact unsat_env unsat_good 2 unsat_F unsat_tr unsat_view (start_shared false) (unsat_solver, 0) one_var);
    [exact unsat_env_lawful | exact unsat_view_ok | exact unsat_holds | apply start_ok | by split
    | by split | done | done | vm_compute; discriminate].
Defined.

(** [std::sort] as an insertion sort. *)
Fixpoint insert_by (lt : Instance_ → Instance_ → bool) (x : Instance_) (l : list Instance_) : list Instance_ :=
  match l with [] => [x] | y :: l => if lt y x then y :: insert_by lt x l else x :: y :: l end.

Definition sort_by (lt : Instance_ → Instance_ → bool) (l : list Instance_) : list Instance_ :=
  foldr (insert_by lt) [] l.

Lemma sort_by_perm lt l : sort_by lt l ≡ₚ l.
Proof.
  assert (∀ x l, insert_by lt x l ≡ₚ x :: l) as Hi.
  { intros x l'. induction l' as [| y l' IH]; simpl; [done |]. destruct (lt y x); [| done].
    rewrite IH. apply Permutation_swap. }
  induction l as [| x l IH]; simpl; [done |]. by rewrite Hi, IH.
Qed.

Definition ea_start : Algorithm := MkAlgorithm [] (start_shared true) (EA (UniformMutation 1)) false 0.

Definition no_pow (x y : double) : double := d_one.

(** A run of the (1+1)-EA on the unsatisfiable clauses. *)
Definition ea_run : option bool :=
  '(a1, w1) ← alg_prepare unsat_env unsat_view (unsat_solver, 0) ea_start;
  '(_, a2, w2) ← process unsat_env unsat_view sort_by no_pow (λ i, i) (λ _, 0) 20 20 (PointsLimit 50) w1
      (set_base_assumption a1 []);
  '(k, p, _, _) ← get_best unsat_env unsat_view (shared a2) w2 (population a2);
  best ← p !! k;
  Some (is_sbs best).

Lemma ea_run_sbs : ea_run = Some true.
Proof. vm_compute. reflexivity. Qed.

Lemma evolution_sbs_sound_witness : ¬ satisfiable unsat_F (lit_on (unsat_tr ++ [])).
Proof.
  pose proof ea_run_sbs as Hs. unfold ea_run in Hs.
  destruct (alg_prepare _ _ _ _) as [[a1 w1] |] eqn:E1; [| discriminate Hs]. cbn [mbind option_bind] in Hs.
  destruct (process _ _ _ _ _ _ _ _ _ _ _) as [[[l' a2] w2] |] eqn:E2; [| discriminate Hs].
  cbn [mbind option_bind] in Hs.
  destruct (get_best _ _ _ _ _) as [[[[k p] sh] w3] |] eqn:E3; [| discriminate Hs]. cbn [mbind option_bind] in Hs.
  destruct (p !! k) as [best |] eqn:E4; [| discriminate Hs]. injection Hs as E5.
  apply (evolution_sbs_sound unsat_env unsat_good 2 unsat_F unsat_tr unsat_view sort_by no_pow (λ i, i) (λ _, 0)
    ea_start a1 a2 (PointsLimit 50) l' [] (unsat_solver, 0) w1 w2 w3 20 20 k p sh best);
    [exact unsat_env_lawful | exact unsat_view_ok | done | apply sort_by_perm | exact unsat_holds | apply start_ok
    | by split | done | done | apply Forall_nil_2 | exact E1 | exact E2 | exact E3 | exact E4 | exact E5].
Defined.

Lemma crossover_exchanges_witness :
  let '(a', b', _) := crossover_apply unsat_env unsat_view TwoPointCrossover (unsat_solver, 1) one_var
    (MkInstance true [false; true] inhabitant) in
  cached a' = false ∧ cached b' = false ∧
  (mask a' !! 0%nat = [true; false] !! 0%nat ∧ mask b' !! 0%nat = [false; true] !! 0%nat ∨
   mask a' !! 0%nat = [false; true] !! 0%nat ∧ mask b' !! 0%nat = [true; false] !! 0%nat).
Proof.
  apply (crossover_exchanges unsat_env unsat_good 2 unsat_F unsat_tr unsat_view TwoPointCrossover (unsat_solver, 1)
    one_var (MkInstance true [false; true] inhabitant) 0);
    [exact unsat_env_lawful | done | exact unsat_holds | done | done].
Defined.

Definition three : Algorithm :=
  MkAlgorithm [one_var; one_var; one_var] (start_shared true)
    (GA (UniformMutation 1) OnePointCrossover 3 0 [d_one; d_one; d_one]) false 0.

Lemma three_ok : alg_ok 2 unsat_F unsat_tr unsat_view three.
Proof.
  split; [apply start_ok | by split |].
  repeat (apply Forall_cons_2; [split; [by split | done] |]). apply Forall_nil_2.
Qed.

Lemma ga_stale_parent_witness : ∃ a' w',
  ga_step unsat_env unsat_view sort_by no_pow (UniformMutation 1) OnePointCrossover 3 0 [d_one; d_one; d_one]
    (unsat_solver, 0) three = Some (a', w') ∧ length (population a') = 2%nat.
Proof.
  assert (match ga_step unsat_env unsat_view sort_by no_pow (UniformMutation 1) OnePointCrossover 3 0
            [d_one; d_one; d_one] (unsat_solver, 0) three with Some _ => true | None => false end = true) as Hs
    by (vm_compute; reflexivity).
  destruct (ga_step _ _ _ _ _ _ _ _ _ _ _) as [[a' w'] |] eqn:E; [clear Hs | discriminate Hs].
  exists a', w'. split; [done |].
  apply (ga_stale_parent unsat_env unsat_good 2 unsat_F unsat_tr unsat_view sort_by no_pow (UniformMutation 1)
    OnePointCrossover 3 0 [d_one; d_one; d_one] (unsat_solver, 0) three a' w');
    [exact unsat_env_lawful | exact unsat_view_ok | by split | apply sort_by_perm | exact unsat_holds | exact three_ok
    | lia | reflexivity | reflexivity | reflexivity | exact E].
Defined.

(** ** Preprocessing *)

Definition sparse_solver : Solver :=
  default inhabitant (build [[mkLit 0 false; mkLit 1 false]; [mkLit 2 false; mkLit 3 false; mkLit 4 false]]).

Lemma preprocess_view_witness : ∃ scores, scores.*2 ≡ₚ seqZ 0 5 ∧ Sorted score_ge scores ∧
  ∃ k, [1; 0] = snd <$> take k scores ∧ Forall (λ s, 1 < s.1) (take k scores) ∧ (k <= max_watched_count)%nat ∧
    NoDup [1; 0] ∧ ((k < max_watched_count)%nat → ∃ s, scores !! k = Some s ∧ s.1 <= 1).
Proof.
  assert (∃ ws, preprocess solver_checker 5 [sparse_solver; sparse_solver] = Some (ws, true, [1; 0])) as [ws E].
  { eexists. vm_compute. reflexivity. }
  apply (preprocess_view solver_checker 5 [sparse_solver; sparse_solver] ws [1; 0]); [lia | done | exact E].
Defined.

Lemma preprocess_past_end_witness : preprocess solver_checker 5 [example_solver] = None.
Proof.
  assert (∃ ws ss, all_scores solver_checker [example_solver] (ranges 5 1) = Some (ws, ss) ∧
    forallb (λ s, 1 <? s.1) ss = true) as (ws & ss & E & Hs).
  { eexists _, _. split; vm_compute; reflexivity. }
  apply (preprocess_past_end solver_checker 5 [example_solver] ws ss); [lia | done | exact E |].
  apply Forall_forall. intros s Hin. apply list_elem_of_In in Hin.
  apply (proj1 (forallb_forall _ _) Hs) in Hin. zbool. done.
Defined.

(** ** Propagation and the heap *)

Lemma propagate_correct_witness : ∃ st' confl, propagate example_solver = Some (st', confl) ∧
  (confl ≠ CRef_Undef ↔ UPconfl (db_of example_solver) (lit_on (trail (core example_solver)))) ∧
  (confl = CRef_Undef → Stable st' ∧ ∀ l, l ∈ trail (core st') ↔
     UP (db_of example_solver) (lit_on (trail (core example_solver))) l) ∧
  formula_equiv (db_of st') (db_of example_solver) ∧ trail_lim (core st') = trail_lim (core example_solver).
Proof. apply (propagate_correct example_solver). apply (rd_stable _ example_ready). Defined.

Definition no_keys : Heap := MkHeap [] (replicate 10 (-1)).

Lemma no_keys_ok : idx_ok (heap no_keys) (indices no_keys).
Proof.
  split; [constructor | done |]. intros k _. unfold zget. destruct (k <? 0); [done |].
  destruct (indices no_keys !! Z.to_nat k) eqn:E; [| done]. simpl.
  apply list_elem_of_lookup_2 in E. by apply elem_of_replicate in E as [-> _].
Qed.

Lemma heap_drains_sorted_witness :
  drain Z.ltb 4 (Heap.build Z.ltb no_keys [7; 2; 9; 4]) ≡ₚ [7; 2; 9; 4] ∧
  StronglySorted (λ x y, Z.ltb y x = false) (drain Z.ltb 4 (Heap.build Z.ltb no_keys [7; 2; 9; 4])).
Proof.
  apply (heap_drains_sorted Z.ltb no_keys [7; 2; 9; 4]);
    [exact Zltb_order | exact no_keys_ok | by apply (bool_decide_unpack _) |].
  intros k Hk. simpl length. set_solver by lia.
Defined.

Lemma heap_updates_witness :
  Heap.wf Z.ltb (Heap.insert Z.ltb no_keys 3) ∧ heap (Heap.insert Z.ltb no_keys 3) ≡ₚ [3].
Proof.
  apply (heap_updates Z.ltb Z.ltb no_keys 3); [exact Zltb_order | exact Zltb_order | | lia | done].
  split; [exact no_keys_ok | by intros j x y _ _ Hx].
Defined.
