(* ===== verification/WitnessesSolve.v ===== *)
(** * The strategies at concrete inputs

    The clauses of [unsat_cs] and a run of the (1+1)-EA that finds a strong
    backdoor of them. *)
From stdpp Require Import relations.
From S2P Require Import Prelude Lit UnitProp Double Solver PropCheck Domain Search SearchSpec EngineSpec.
From S2P Require Import Propagate LRU Fitness Instance InstanceSpec Evol EvolSpec EventHandler.
From S2P Require Import RBSearch RBSearchSpec Solve SolveSpec Portfolio Witnesses.

#[local] Abbreviation unsat_F := (db_of unsat_solver).
#[local] Abbreviation unsat_tr := (trail (core unsat_solver)).
#[local] Abbreviation unsat_good := (holds 2 unsat_F unsat_tr ∘ fst).
#[local] Abbreviation ea_limit := (PointsLimit 50).
#[local] Existing Instance unsat_env_lawful.

#[local] Opaque unsat_solver.

Definition ea_process : option (Algorithm * (Solver * Z)) :=
  run_process unsat_env unsat_view sort_by no_pow (λ i, i) (λ _, 0) 20 20 ea_limit [] (unsat_solver, 0) ea_start.

Lemma ea_found : ∃ a w rb w', ea_process = Some (a, w) ∧
  best_instance unsat_env unsat_view w a = Some (rb, w') ∧ is_sbs rb = true.
Proof.
  assert (match ea_process with
          | Some (a, w) => match best_instance unsat_env unsat_view w a with Some (rb, _) => is_sbs rb | None => false end
          | None => false
          end = true) as Hs by (vm_compute; reflexivity).
  destruct ea_process as [[a w] |]; [| discriminate Hs]. exists a, w.
  destruct (best_instance _ _ _ _) as [[rb w'] |]; [| discriminate Hs]. by exists rb, w'.
Qed.

Lemma ea_start_ok : alg_ok 2 unsat_F unsat_tr unsat_view ea_start.
Proof. split; [apply start_ok | by split | apply Forall_nil_2]. Qed.

Lemma unsat_view_length : 0 < Z.of_nat (length unsat_view) < 2 ^ 32.
Proof. by split. Qed.

Definition never (a : list Lit) : bool := false.

#[local] Abbreviation cart_step := (cstep unsat_env unsat_view sort_by no_pow (λ i, i) (λ _, 0) 20 20 ea_limit
  ea_start [] never counter_sample).

Lemma new_handler_fresh : HandlerFresh new_handler.
Proof. split; [apply Forall_nil_2 | apply not_elem_of_nil]. Qed.

Lemma cartesian_rb_correct_witness : ∃ s, rtc cart_step (pre_solve_start false new_handler [(unsat_solver, 0)]) s ∧
  cartesian_result 10 100 s = Some (inl RBS_SBS_FOUND) ∧ ¬ satisfiable unsat_F (lit_on (unsat_tr ++ [])).
Proof.
  destruct ea_found as (a & w & rb & w' & E1 & E2 & Hs). unfold ea_process in E1.
  set (s0 := pre_solve_start false new_handler [(unsat_solver, 0)]).
  set (s1 := set_thread s0 0 (CReady (unsat_solver, 0))). set (s2 := set_thread s1 0 (CProcessed a w)).
  set (s3 := set_thread (raise_for_sbs s2) 0 (CDone [])).
  assert (rtc cart_step s0 s3) as Hr.
  { eapply rtc_l; [apply (c_launch _ _ _ _ _ _ _ _ _ _ _ _ _ s0 0 (unsat_solver, 0)); [done | lia | done] |].
    eapply rtc_l; [apply (c_process _ _ _ _ _ _ _ _ _ _ _ _ _ s1 0 (unsat_solver, 0) a w); [done | exact E1] |].
    apply rtc_once, (c_choose _ _ _ _ _ _ _ _ _ _ _ _ _ s2 0 a w 0); [done |].
    unfold after_process. cbn [stopping orb]. rewrite E2. cbn [mbind option_bind]. by rewrite Hs. }
  exists s3. split; [exact Hr |]. split; [done |].
  change (rb_means unsat_F unsat_tr counter_sample [] (inl RBS_SBS_FOUND)).
  apply (cartesian_rb_correct unsat_env unsat_good 2 unsat_F unsat_tr unsat_view sort_by no_pow (λ i, i) (λ _, 0) 20 20
    ea_limit ea_start [] never counter_sample 10 100 new_handler [(unsat_solver, 0)] s3 [[]] (inl RBS_SBS_FOUND));
    [exact unsat_env_lawful | exact unsat_view_ok | exact unsat_view_length | apply sort_by_perm | exact ea_start_ok | reflexivity
    | apply Forall_nil_2 | intros x; discriminate | exact new_handler_fresh | by apply Forall_cons_2; [exact unsat_holds | apply Forall_nil_2]
    | discriminate | reflexivity | split; [discriminate | reflexivity] | exact Hr | reflexivity
    | by apply Forall_cons_2; [| apply Forall_nil_2] | reflexivity].
Defined.

Lemma one_rb_correct_witness : ¬ satisfiable unsat_F (lit_on (unsat_tr ++ [])).
Proof.
  destruct ea_found as (a & w & rb & w' & E1 & E2 & Hs). unfold ea_process in E1.
  change (rb_means unsat_F unsat_tr counter_sample [] (inl RBS_SBS_FOUND)).
  apply (one_rb_correct unsat_env unsat_good 2 unsat_F unsat_tr unsat_view sort_by no_pow (λ i, i) (λ _, 0) 20 20
    ea_limit ea_start [] (unsat_solver, 0) w' (inl RBS_SBS_FOUND) counter_sample);
    [exact unsat_env_lawful | exact unsat_view_ok | exact unsat_view_length | apply sort_by_perm | exact ea_start_ok | reflexivity
    | apply Forall_nil_2 | exact unsat_holds |].
  unfold one_find_rb. rewrite E1. cbn [mbind option_bind]. rewrite E2. cbn [mbind option_bind]. by rewrite Hs.
Defined.

Lemma cartesian_stale_event_witness : ∃ s, rtc cart_step
    (pre_solve_start false (MkHandler [SBS_FOUND] [] 0 false) [(unsat_solver, 0)]) s ∧
  cartesian_result 10 100 s = Some (inl RBS_INTERRUPTED).
Proof. by apply cartesian_stale_event. Defined.

(** ** Strategies *)

Definition refute (stop : bool) (lim : option Z) (a : list Lit) (r : State) (m : option (Z → bool)) : Prop := r = UNSAT.

Lemma unsat_clauses a : ¬ satisfiable unsat_F (lit_on (unsat_tr ++ a)).
Proof.
  intros (σ & HF & Ht). apply models_lits_app in Ht as [Ht _].
  destruct ea_found as (al & w & rb & w' & E1 & E2 & Hs). unfold ea_process in E1.
  destruct (run_process_ok unsat_env unsat_good 2 unsat_F unsat_tr unsat_view unsat_view_ok unsat_view_length sort_by
    sort_by_perm no_pow (λ i, i) (λ _, 0) 20 20 ea_limit ea_start [] ea_start_ok eq_refl (Forall_nil_2 _)
    (unsat_solver, 0) al w unsat_holds E1) as (Hg & Ha & Hc & Hb).
  eapply (best_instance_ok unsat_env unsat_good 2 unsat_F unsat_tr unsat_view unsat_view_ok [] w al rb w');
    [exact Hg | exact Ha | exact Hc | exact Hb | exact E2 | exact Hs |].
  exists σ. rewrite app_nil_r. split; [exact HF | exact Ht].
Qed.

#[local] Instance refute_lawful : LawfulService unsat_F unsat_tr (λ m, m) refute.
Proof.
  split.
  - intros stop lim a m _. exact (unsat_clauses a).
  - intros stop lim a m E. discriminate E.
  - intros a m E. discriminate E.
Qed.

#[local] Abbreviation ea_rb := (one_rb unsat_env unsat_good 2 unsat_view sort_by no_pow (λ i, i) (λ _, 0) 20 20
  ea_limit ea_start).

#[local] Instance ea_rb_lawful : LawfulRB unsat_F unsat_tr counter_sample ea_rb.
Proof. apply one_rb_lawful; [exact unsat_env_lawful | exact unsat_view_ok | exact unsat_view_length | apply sort_by_perm | exact ea_start_ok | done]. Qed.

Lemma ea_rb_found : ea_rb false [] (inl RBS_SBS_FOUND).
Proof.
  destruct ea_found as (a & w & rb & w' & E1 & E2 & Hs). unfold ea_process in E1.
  split; [apply Forall_nil_2 |]. exists (unsat_solver, 0), w'. split; [exact unsat_holds |].
  unfold one_find_rb. rewrite E1. cbn [mbind option_bind]. rewrite E2. cbn [mbind option_bind]. by rewrite Hs.
Qed.

Definition two_deep : RecurringConfig := MkRecurring 100 2 2.

Lemma ea_rb_run : ∃ s : RState (Z → bool), r_phase s = PReturn UNSAT ∧
  rtc (rrun refute two_deep ea_rb never counter_sample) recurring_start s ∧
  rtc (rrun refute two_deep (trusted unsat_F unsat_tr counter_sample ea_rb) never counter_sample) recurring_start s.
Proof.
  set (s1 := recurring_start (M := Z → bool) <| stack := [] |> <| r_phase := PFind [] 0 |>).
  set (s2 := s1 <| r_phase := PChecked 0 (inl UNSAT) |>). set (s3 := s2 <| r_phase := PReturn UNSAT |>).
  assert (∀ rb : bool → list Lit → rbs_result → Prop, rb false [] (inl RBS_SBS_FOUND) →
    rtc (rrun refute two_deep rb never counter_sample) recurring_start s3) as Hr.
  { intros rb Hrb. eapply rtc_l; [apply rrun_step, (r_pop _ _ _ _ _ recurring_start [] 0 []); done |].
    eapply rtc_l; [apply rrun_step, (r_reason _ _ _ _ _ s1 [] 0 RBS_SBS_FOUND); [done | exact Hrb] |].
    apply rtc_once, rrun_step, (r_check _ _ _ _ _ s2 0 (inl UNSAT)). done. }
  exists s3. split; [done |]. split; apply Hr; [exact ea_rb_found |].
  split; [exact ea_rb_found |]. intros _. exact (ea_rb_lawful [] _ ea_rb_found).
Qed.

Lemma recurring_solve_correct_witness : ∃ s : RState (Z → bool),
  rtc (rrun refute two_deep ea_rb never counter_sample) recurring_start s ∧ r_phase s = PReturn UNSAT ∧
  ¬ satisfiable unsat_F (lit_on unsat_tr).
Proof.
  destruct ea_rb_run as (s & Hp & Hr & Ht). exists s. split; [exact Hr |]. split; [exact Hp |].
  exact (recurring_solve_correct unsat_F unsat_tr (λ m, m) refute two_deep ea_rb never counter_sample s UNSAT
    refute_lawful (λ a, ltac:(discriminate)) Hr Hp Ht).
Defined.

Definition always_sbs (interrupted : bool) (base : list Lit) (res : rbs_result) : Prop := res = inl RBS_SBS_FOUND.

Lemma two_deep_limits d : d <= 2 → is_Some (time_limit two_deep d).
Proof.
  intros Hd. unfold time_limit. simpl. destruct (Z.ltb_spec d 2); [| by eexists].
  destruct (Z.ltb_spec (100 * 2 ^ d) (2 ^ 32)) as [_ | Hl]; [by eexists |]. exfalso.
  change (2 ^ 32) with 4294967296 in Hl. destruct (decide (0 <= d)); [| rewrite Z.pow_neg_r in Hl by lia; lia].
  assert (2 ^ d <= 2 ^ 2) as H2 by (apply Z.pow_le_mono_r; lia). change (2 ^ 2) with 4 in H2. lia.
Qed.

Lemma recurring_solve_terminates_witness :
  sn (rrun refute two_deep always_sbs never counter_sample) recurring_start.
Proof.
  refine (proj1 (recurring_solve_terminates unsat_F unsat_tr (λ m, m) refute two_deep always_sbs never counter_sample
    recurring_start _ _ _ _ _ _ _)).
  - discriminate.
  - intros i base. by eexists.
  - by intros i base search [=].
  - exact two_deep_limits.
  - intros stop lim a. exists UNSAT. by exists None.
  - apply rtc_refl.
Defined.

Definition may_stop (interrupted : bool) (base : list Lit) (res : rbs_result) : Prop := res = inl RBS_INTERRUPTED.

Lemma recurring_stale_unsat_witness : ∃ s : RState (Z → bool),
  rtc (rstep refute two_deep may_stop never counter_sample) recurring_start s ∧
  r_interrupted s = false ∧ r_phase s = PReturn UNSAT.
Proof. by apply recurring_stale_unsat. Defined.

Lemma single_solve_correct_witness : ∃ s : SState (Z → bool),
  rtc (srun refute ea_rb never counter_sample) single_start s ∧ s_phase s = SReturn UNSAT ∧
  ¬ satisfiable unsat_F (lit_on unsat_tr).
Proof.
  set (s1 := single_start (M := Z → bool) <| s_phase := SReturn UNSAT |>).
  assert (rtc (srun refute ea_rb never counter_sample) single_start s1) as Hr.
  { apply rtc_once, srun_step, (s_reason _ _ _ _ single_start RBS_SBS_FOUND); [done | exact ea_rb_found]. }
  exists s1. split; [exact Hr |]. split; [done |].
  apply (single_solve_correct unsat_F unsat_tr (λ m, m) refute ea_rb never counter_sample s1 UNSAT);
    [exact refute_lawful | exact ea_rb_lawful | done | exact Hr | done | done].
Defined.

Lemma single_interrupt_wrong_witness : ∃ s : SState (Z → bool),
  rtc (srun refute always_sbs never counter_sample) single_start s ∧ s_phase s = SReturn UNSAT.
Proof. by apply single_interrupt_wrong. Defined.

(** ** The portfolio *)

Definition sure (i : nat) (interrupted : bool) (r : State) (m : nat) : Prop :=
  r = SAT ∧ m = i ∨ interrupted = true ∧ r = UNKNOWN.

Lemma portfolio_correct_witness : ∃ p, rtc (pstep sure) (new_portfolio 1) p ∧
  result p ≠ UNKNOWN ∧ ∃ m, p_model p = Some m ∧ (result p = SAT ∨ result p = UNKNOWN).
Proof.
  set (p := MkPortfolio SAT (Some 0%nat) true [TEnd]).
  assert (rtc (pstep sure) (new_portfolio 1) p) as Hr.
  { eapply rtc_l; [apply (p_solve _ _ 0%nat SAT 0%nat); [done | by left] |].
    eapply rtc_l; [apply (p_won _ _ 0%nat SAT 0%nat); done |].
    eapply rtc_l; [apply (p_assign _ _ 0%nat 0%nat); done |].
    eapply rtc_l; [apply (p_stop _ _ 0%nat); done |]. apply rtc_refl. }
  exists p. split; [exact Hr |].
  apply (portfolio_correct sure (λ r _, r = SAT ∨ r = UNKNOWN) 1 p);
    [by intros i b r m [[-> _] | [_ ->]]; [left | right] | by intros i m [[? _] | [? _]] | lia | exact Hr
    | by apply Forall_cons_2; [| apply Forall_nil_2]].
Defined.

Definition unsure (i : nat) (interrupted : bool) (r : State) (m : nat) : Prop :=
  m = i ∧ r = if decide (i = 0%nat) then SAT else UNKNOWN.

Lemma portfolio_model_overwritten_witness :
  ∃ p, rtc (pstep unsure) (new_portfolio 2) p ∧ joined p ∧ result p = SAT ∧ p_model p = Some 1%nat.
Proof. by apply (portfolio_model_overwritten unsure 0%nat 1%nat). Defined.

Lemma cartesian_interrupt_wrong_witness :
  let s := MkCState (W := Solver * Z) false false new_handler 0 [CSearch [[mkLit 0 false]; [mkLit 0 true]] []] in
  let step := cstep unsat_env unsat_view sort_by no_pow (λ i, i) (λ _, 0) 20 20 ea_limit ea_start []
    (λ a, bool_decide (a = [mkLit 0 false])) counter_sample in
  ∃ s1 s2, rtc step s s1 ∧ outside s1 s2 ∧ ∃ s3, rtc step s2 s3 ∧ c_threads s3 !! 0%nat = Some (CDone []) ∧
    ∀ s4 sets, rtc step s3 s4 → collected s4 = Some sets → cartesian_result 10 100 s4 = Some (inl RBS_SBS_FOUND).
Proof. by apply (cartesian_interrupt_wrong _ _ _ _ _ _ _ _ _ _ _ _ _ 10 100 _ 0 [mkLit 0 false] [[mkLit 0 true]]). Defined.
