(* ===== verification/WitnessesSolver.v ===== *)
(** * The solver theorems at concrete inputs

    The solver that holds [unsat_cs] before and after its first conflict, under
    the decision -0: there the theorems of [SolverProps] apply. *)
From Stdlib Require Import SpecFloat.
From S2P Require Import Prelude Lit UnitProp Vec Heap Alloc Double DoubleSpec Clause Solver Propagate.
From S2P Require Import PropCheck Setup SetupSpec Reasons Analyze AnalyzeSpec FinalSpec RandomSpec Reduce BranchSpec.
From S2P Require Import GarbageSpec SearchInv SolverInv CDCL ConflictSpec CDCLSpec RestartSpec.
From S2P Require Import SolverSpec BuildSpec SolverProps Load LoadSolve Witnesses.

#[local] Opaque d_const d_add d_mul d_div d_ltb d_leb f_of_d d_of_Z.

Definition unsat_formula : formula := λ c, c ∈ unsat_cs.

Lemma unsat_lits : Forall (Forall (lit_ok (2 ^ 30))) unsat_cs.
Proof. repeat constructor; unfold lit_ok; rewrite ?var_mkLit; lia. Qed.

Lemma unsat_words : words unsat_cs <= max_capacity.
Proof. vm_compute. discriminate. Qed.

Lemma unsat_build : build unsat_cs = Some unsat_solver ∧ Holds unsat_formula unsat_solver ∧
  params unsat_solver = default_params ∧ limits unsat_solver = (0, (-1, -1, false)).
Proof.
  destruct (build_holds unsat_cs unsat_lits unsat_words) as (st & E & H).
  assert (unsat_solver = st) as -> by (unfold unsat_solver; by rewrite E). exact (conj E H).
Qed.

Lemma holds_sinv F st : Holds F st → ok st = true → qhead (core st) = length (trail (core st)) →
  SInv F (length (trail (core st))) st ∧ trail_lim (core st) = [].
Proof. unfold Holds. intros H E Eq. rewrite E in H. rewrite <- Eq. by destruct H. Qed.

Lemma unsat_ok : ok unsat_solver = true.
Proof. vm_compute. reflexivity. Qed.

Lemma unsat_trail : trail (core unsat_solver) = [].
Proof. vm_compute. reflexivity. Qed.

Lemma unsat_qhead : qhead (core unsat_solver) = length (trail (core unsat_solver)).
Proof. vm_compute. reflexivity. Qed.

Lemma unsat_sinv : SInv unsat_formula (length (trail (core unsat_solver))) unsat_solver.
Proof. exact (proj1 (holds_sinv _ _ (proj1 (proj2 unsat_build)) unsat_ok unsat_qhead)). Qed.

(** A decision and its propagation. *)
Definition decide_state (st : Solver) (p : Lit) : Solver :=
  st <| order := order st |> <| core := uncheckedEnqueue (newDecisionLevel (core st)) p CRef_Undef |>.

Lemma decide_qhead st p : qhead (core (decide_state st p)) = qhead (core st).
Proof. reflexivity. Qed.

Definition decision_state : Solver := decide_state unsat_solver (mkLit 0 true).

Definition conflict_state : Solver := Eval vm_compute in fst (default inhabitant (propagate decision_state)).

Definition conflict_ref : CRef := Eval vm_compute in snd (default inhabitant (propagate decision_state)).

Lemma conflict_found : propagate decision_state = Some (conflict_state, conflict_ref).
Proof. vm_compute. reflexivity. Qed.

Lemma decision_sinv : SInv unsat_formula (length (trail (core unsat_solver))) decision_state.
Proof.
  pose proof unsat_sinv as H. apply sinv_decide; [exact H | apply (si_order _ _ _ H) | | | | |].
  - intros u Hu Hn. right. by apply (si_waiting _ _ _ H).
  - split; vm_compute; congruence.
  - rewrite unsat_trail. apply not_elem_of_nil.
  - rewrite unsat_trail. apply not_elem_of_nil.
  - assert (assumptions unsat_solver = []) as -> by (vm_compute; reflexivity). intros a Ha. discriminate.
Qed.

Lemma propagate_conflict F st st' confl : SInv F (qhead (core st)) st → propagate st = Some (st', confl) →
  confl ≠ CRef_Undef → ∃ q, SInv F q st' ∧ falsified (core st') confl.
Proof.
  intros H E Hc. destruct (sinv_propagate F st H) as (st1 & confl1 & E1 & _ & _ & _ & Hr).
  rewrite E in E1. injection E1 as <- <-. destruct Hr as [[? _] | (_ & Hf & q & H')]; [contradiction | by exists q].
Qed.

Lemma conflict_sinv : ∃ q, SInv unsat_formula q conflict_state ∧ falsified (core conflict_state) conflict_ref.
Proof.
  refine (propagate_conflict unsat_formula decision_state conflict_state conflict_ref _ conflict_found _).
  - unfold decision_state at 1. rewrite decide_qhead, unsat_qhead. exact decision_sinv.
  - discriminate.
Qed.

Lemma conflict_level : trail_lim (core conflict_state) = [0%nat].
Proof. reflexivity. Qed.

(** ** The steps of the search *)

Lemma analyze_correct_witness : ∃ q, SInv unsat_formula q conflict_state ∧
  falsified (core conflict_state) conflict_ref ∧ trail_lim (core conflict_state) ≠ [] ∧
  ∃ st1 ls bt, analyze conflict_state conflict_ref = Some (st1, ls, bt) ∧
    (∀ σ, models σ unsat_formula → clause_true σ ls) ∧ (∀ l, l ∈ ls → lit_neg l ∈ trail (core conflict_state)) ∧
    0 <= bt < Z.of_nat (decisionLevel (core conflict_state)) ∧ (∀ x, seen_at st1 x = 0) ∧
    let st2 := cancelUntil st1 (Z.to_nat bt) in
    Asserting unsat_formula (core st2) ls ∧ SInv unsat_formula (length (trail (core st2))) st2.
Proof.
  destruct conflict_sinv as (q & H & Hf). exists q. split; [exact H |]. split; [exact Hf |].
  assert (trail_lim (core conflict_state) ≠ []) as Hl by (rewrite conflict_level; discriminate).
  split; [exact Hl | exact (analyze_correct unsat_formula q conflict_state conflict_ref H Hf Hl)].
Defined.

Lemma conflict_room : room conflict_state + nv (core conflict_state) + 2 <= max_capacity.
Proof. vm_compute. discriminate. Qed.

Lemma conflict_adjust : adjust_ok 1 conflict_state.
Proof. eexists. split; [vm_compute; reflexivity | exact I]. Qed.

Lemma handle_conflict_correct_witness : ∃ q, SInv unsat_formula q conflict_state ∧
  falsified (core conflict_state) conflict_ref ∧
  ∃ st', handle_conflict conflict_state conflict_ref = Some st' ∧ SInv unsat_formula (qhead (core st')) st' ∧
    (decisionLevel (core st') < decisionLevel (core conflict_state))%nat ∧
    room st' <= room conflict_state + nv (core conflict_state) + 2.
Proof.
  destruct conflict_sinv as (q & H & Hf). exists q. split; [exact H |]. split; [exact Hf |].
  refine (handle_conflict_correct unsat_formula q conflict_state conflict_ref H Hf _ conflict_room conflict_adjust).
  rewrite conflict_level. discriminate.
Defined.

Lemma analyzeFinal_correct_witness : ∃ q, SInv unsat_formula q conflict_state ∧
  mkLit 0 true ∈ trail (core conflict_state) ∧
  ∃ st', analyzeFinal conflict_state (mkLit 0 true) = Some st' ∧ core st' = core conflict_state ∧
    (∀ x, seen_at st' x = 0) ∧ mkLit 0 true ∈ IntMap.xs (conflict st') ∧
    (∀ l, l ∈ IntMap.xs (conflict st') → l = mkLit 0 true ∨ decided (core conflict_state) (lit_neg l)) ∧
    ∀ σ, models σ unsat_formula → clause_true σ (IntMap.xs (conflict st')).
Proof.
  destruct conflict_sinv as (q & H & _). exists q. split; [exact H |].
  assert (mkLit 0 true ∈ trail (core conflict_state)) as Hin by (apply (list_elem_of_lookup_2 _ 0%nat); reflexivity).
  split; [exact Hin | exact (analyzeFinal_correct unsat_formula q conflict_state _ H Hin)].
Defined.

Lemma pickBranchLit_correct_witness : SInv unsat_formula (length (trail (core unsat_solver))) unsat_solver ∧
  ∃ p st', pickBranchLit unsat_solver = Some (p, st') ∧ core st' = core unsat_solver ∧
    OrdOk (nv (core unsat_solver)) (order st') ∧
    ((p = lit_Undef ∧ ∀ u, 0 <= u < nv (core unsat_solver) → u ∈ var <$> trail (core unsat_solver)) ∨
     (lit_ok (nv (core unsat_solver)) p ∧ var p ∉ var <$> trail (core unsat_solver) ∧
      ∀ u, 0 <= u < nv (core unsat_solver) → u ∉ var <$> trail (core unsat_solver) →
        u = var p ∨ u ∈ keys (order st'))).
Proof.
  split; [exact unsat_sinv |].
  exact (pickBranchLit_correct unsat_formula (length (trail (core unsat_solver))) unsat_solver unsat_sinv).
Defined.

Lemma garbageCollect_correct_witness : ∃ q, SInv unsat_formula q conflict_state ∧
  ∃ st', garbageCollect conflict_state = Some st' ∧ SInv unsat_formula q st' ∧
    Forall2 (same_clause (core conflict_state) (core st')) (clauses conflict_state) (clauses st') ∧
    Forall2 (same_clause (core conflict_state) (core st')) (learnts conflict_state) (learnts st') ∧
    trail (core st') = trail (core conflict_state) ∧ trail_lim (core st') = trail_lim (core conflict_state) ∧
    room st' <= room conflict_state.
Proof.
  destruct conflict_sinv as (q & H & _). exists q. split; [exact H |].
  exact (garbageCollect_correct unsat_formula q conflict_state H).
Defined.

Lemma reduceDB_correct_witness : ∃ q, SInv unsat_formula q conflict_state ∧
  ∃ st', reduceDB conflict_state = Some st' ∧ SInv unsat_formula q st' ∧
    trail (core st') = trail (core conflict_state) ∧ trail_lim (core st') = trail_lim (core conflict_state) ∧
    qhead (core st') = qhead (core conflict_state) ∧ room st' <= room conflict_state.
Proof.
  destruct conflict_sinv as (q & H & _). exists q. split; [exact H |].
  exact (reduceDB_correct unsat_formula q conflict_state H).
Defined.

(** ** Between two calls *)

Lemma simplify_correct_witness : Holds unsat_formula unsat_solver ∧
  ∃ st' b, simplify unsat_solver = Some (st', b) ∧ ok st' = b ∧ Holds unsat_formula st' ∧
    (b = true → nv (core st') = nv (core unsat_solver) ∧ qhead (core st') = length (trail (core st'))).
Proof.
  pose proof (proj1 (proj2 unsat_build)) as H. split; [exact H |].
  exact (simplify_correct unsat_formula unsat_solver H).
Defined.

Lemma luby_correct_witness : 0 <= 6 < 2 ^ 30 ∧
  ∃ e, luby (d_of_Z 2) 6 = Some (d_of_Z (2 ^ e)) ∧ Luby 6 e ∧ 0 <= e <= 30.
Proof. split; [lia | apply (luby_correct 6); lia]. Defined.

(** The first members. *)
Example luby_members : luby_exp <$> [0; 1; 2; 3; 4; 5; 6; 7; 8; 9; 10; 11; 12; 13; 14] =
  Some <$> [0; 0; 1; 0; 0; 1; 2; 0; 0; 1; 0; 0; 1; 2; 3].
Proof. reflexivity. Qed.

Lemma fresh_stands : ∃ st, new_solver default_params (d_of_Z 91648253) 2 = Some st ∧
  Stands (λ _, False) st ∧ nv (core st) = 0 ∧ params st = default_params.
Proof.
  destruct (new_solver_total default_params (d_of_Z 91648253) 2) as [st E]. exists st. split; [exact E |].
  destruct (new_solver_stands 91648253 2 st) as (S & N & _ & P); [unfold lcg_modulus; lia | exact E |].
  exact (conj S (conj N P)).
Qed.

Lemma newVar_correct_witness : ∃ st, new_solver default_params (d_of_Z 91648253) 2 = Some st ∧
  Stands (λ _, False) st ∧ ∃ st', newVar st l_Undef true = Some (st', nv (core st)) ∧ Stands (λ _, False) st' ∧
    nv (core st') = nv (core st) + 1 ∧ room st' = room st.
Proof.
  destruct fresh_stands as (st & E & S & N & P). exists st. split; [exact E |]. split; [exact S |].
  apply (newVar_correct (λ _, False) st l_Undef S); [rewrite P; reflexivity | rewrite N; lia].
Defined.

Lemma unsat_affords : room unsat_solver + (100 + Z.of_nat (length (@nil Lit)) + nv (core unsat_solver) + 1) *
    (nv (core unsat_solver) + 2) <= max_capacity ∧
  search_rounds (unsat_solver <| assumptions := [] |>) (100 + 100) < 2 ^ Z.of_nat 20.
Proof. split; vm_compute; [discriminate | reflexivity]. Qed.

(** 100 conflicts. *)
Lemma load_solve_correct_witness : build unsat_cs = Some unsat_solver ∧
  ∃ st' status, solveLimited 10 20 (setConfBudget unsat_solver 100) [] = Some (st', status) ∧
    Outcome (λ c, c ∈ unsat_cs) [] st' status ∧ (status = l_Undef → 100 <= confls st') ∧
    Holds (λ c, c ∈ unsat_cs) st'.
Proof.
  split; [exact (proj1 unsat_build) |].
  apply (load_solve_correct unsat_cs unsat_solver [] 100 10 20);
    [exact unsat_lits | exact unsat_words | exact (proj1 unsat_build) | apply Forall_nil_2 | lia |
     exact (proj1 unsat_affords) | lia | exact (proj2 unsat_affords)].
Defined.

Definition budget_solver : Solver := setConfBudget unsat_solver 100.

Lemma budget_params st x : params (setConfBudget st x) = params st.
Proof. reflexivity. Qed.

Lemma budget_affords : Affords budget_solver [mkLit 0 true] 100.
Proof.
  split.
  - unfold budget_solver. rewrite budget_params. exact (proj1 (proj2 (proj2 unsat_build))).
  - apply Forall_singleton. split; vm_compute; congruence.
  - vm_compute. reflexivity.
  - lia.
  - split; vm_compute; congruence.
  - vm_compute. discriminate.
Qed.

Lemma solveLimited_correct_witness : Holds unsat_formula budget_solver ∧ Affords budget_solver [mkLit 0 true] 100 ∧
  ∃ st' status, solveLimited 10 20 budget_solver [mkLit 0 true] = Some (st', status) ∧
    Outcome unsat_formula [mkLit 0 true] st' status ∧ Holds unsat_formula st' ∧
    params st' = params budget_solver ∧ nv (core st') = nv (core budget_solver).
Proof.
  pose proof (holds_budget _ _ 100 (proj1 (proj2 unsat_build))) as H. split; [exact H |].
  split; [exact budget_affords |].
  apply (solveLimited_correct unsat_formula budget_solver [mkLit 0 true] 100 10 20 H budget_affords);
    vm_compute; reflexivity.
Defined.

(** The answers that the two solvers compute. *)
Example unsat_answer : snd <$> solveLimited 10 20 (setConfBudget unsat_solver 100) [] = Some l_False.
Proof. vm_compute. reflexivity. Qed.

Example example_answer : (λ r, (snd r, model (fst r))) <$>
    solveLimited 10 20 (setConfBudget example_solver 100) [mkLit 3 true] =
  Some (l_True, [l_False; l_True; l_True; l_False; l_True]).
Proof. vm_compute. reflexivity. Qed.
